(* ===== verification/_CoqProject ===== *)
-Q . S2P
Prelude.v
Mem.v
Concrete.v
RG.v
Events.v
Locking.v
SWP.v
Table.v
Schedules.v
TableFacts.v
Frozen.v
Types.v
Allocator.v
Erase.v
AllocMain.v
AllocRace.v
AllocRoles.v
ListOps.v
Lock.v
Stamp.v
ListWriter.v
AllocState.v
ListGecos.v
GecosWriter.v
GecosReader.v
GecosSearch.v
ListSgecos.v
SgecosWriter.v
SgecosSearch.v
ListLock.v
LockWriter.v
LockSearch.v
Mutex.v
ListHp.v
HpScan.v
HpProtect.v
ListRc.v
RcWriter.v
ListRcu.v
RcuWriter.v
RcuSearch.v
Grace.v
GraceLogic.v
GraceSteps.v
GraceWriter.v
GraceReader.v
GracePool.v
Util.v
Stats.v
Mrow.v
Report.v
Hashtable.v
Driver.v
Pool.v
Builds.v
Typed.v
GecosSeq.v
TableMain.v
Session.v
RcMain.v
MrowMain.v
ReportMain.v
Benchmark.v
GecosFaults.v
HpMain.v
RcuCount.v
Progress.v
GraceMain.v
PthreadLogic.v
PthreadWriter.v
PthreadReader.v
PthreadPool.v
PthreadMain.v
TypeMain.v
Agree.v
