(* ===== verification/Prelude.v ===== *)
(** * gecos: concurrent lists with safe memory reclamation

    The program is a benchmark.  [mrow.c] creates one hash table per test, a
    set of updater threads that insert and delete keys and a set of reader
    threads that search keys, lets them run, and prints statistics.  A build
    links it with one reclamation scheme: the readers take no lock (or a
    sequence lock, hazard pointers, counters, RCU) and the scheme decides when
    a deleted node may be given back to the allocator.  GECOS, the scheme the
    program is named after, keeps a generation counter in each node: a reader
    reads the counter before it follows the pointer to a node and checks it
    after it read the node; the updater increments the counter of a node it
    unlinked before it gives it back.

    ** Files

    - [Prelude]: machine integers, sorted lists.
    - [Mem] (atomic.h, test.h): the shared store, the atomic operations and
      barriers, and the type [prog] of programs: a C function is translated
      once, as a tree of single memory operations, and has two readings, the
      sequential execution [run] and the interleaving [pstep] of a pool of
      threads, in which every load and every store is a step of its own.
      Memory is sequentially consistent; the barriers are kept as operations.
    - [Concrete]: an implementation of the library functions that are
      parameters, for examples and witnesses.  [Schedules] executes chosen
      schedules.
    - [RG], [SWP]: a rely-guarantee logic for [prog] ([wp], with its soundness
      for pools), and the symbolic execution [swp] of a thread that owns most
      of the store.  [Events]: the logic [ewp] for threads whose library calls
      have an effect and may have to wait, and executions of machines.
    - [Table], [TableFacts]: sorted linked lists in the store, the invariant
      [Inv] of the table, the writes an updater may do ([list_step]) and the
      abstract table.  [Frozen]: what updaters with deferred reclamation leave
      alone.
    - [Types]: the types of the store's locations and the programs that respect
      them.
    - [Allocator], [AllocMain] (allocator_malloc.c): [new_node], [free_node],
      the two free lists and the amortised flush, for one thread.  [AllocRoles]
      treats any number of threads that either allocate or free, [AllocRace]
      two threads that do both.  [Erase]: the lists apart from the rest of the
      store.
    - [ListOps]: the interface between mrow.c and the files that define
      [insert] and [delete] ([ListOpsSpec], [DriverSpec]).
    - [Lock] (lock.h): every branch, a module each, behind the class
      [LockOps].  [Mutex]: the locks for several writers exclude each other.
    - [ListWriter] (list_writer.c): [insert] and [delete], proved against the
      interface [SchemeSpec] of a reclamation scheme; they implement
      [ListOpsSpec].  The proofs are made once for any logic with a few rules
      ([WriterLogic], [SchemeJ]).
    - [Stamp]: readers among updaters.  A class [Stamp] tells which counter
      guards a node, or that the updater keeps what it unlinks ([deferred]); the
      file holds the rely and guarantee conditions and what the traversal of a
      list may conclude.  [AllocState]: the state of an updater that keeps
      nothing but the allocator's lists.
    - [ListGecos] (list_gecos.c): the three searches, [free_node_later] and
      its [OSA_BEST] variant, [init_new_node].  [GecosWriter] proves that the
      scheme implements [SchemeSpec]; [GecosReader] and [GecosSearch] prove the
      searches linearizable under any steps that updaters may take.
    - [ListSgecos] (list_sgecos.c): [search], [insert] and [delete] with one
      counter per bucket.  [SgecosWriter] proves that they implement
      [ListOpsSpec], [SgecosSearch] that the search is linearizable.
    - [ListLock] (list_lock.c): the search under a lock.  [LockWriter] and
      [LockSearch] do for the sequence and the generation locks what the files
      above do for GECOS.
    - [Locking]: the locks of pthread as their documentation describes them, a
      machine in which a thread that cannot have a lock waits.  [PthreadLogic]:
      who may change a list when; [PthreadWriter], [PthreadReader],
      [PthreadPool]: updater, search, and all threads together; [PthreadMain]:
      the theorems about the builds with [LSPIN] and [RWLOCK].
    - [ListHp] (hp.c, list_hp.c): announcement, zombies, [scan] and the
      search.  [HpScan]: what [scan] frees; [HpProtect]: [scan] among readers;
      [HpMain]: the search and executions.
    - [ListRc] (rc.c, list_rc.c): counts, [safe_read], the search.  [RcWriter]:
      the updater keeps the counts exact; [RcMain]: sessions with counts.
    - [ListRcu] (rcu.c, list_rcu.c): the search and the deferred free over an
      arbitrary RCU library.  [RcuWriter], [RcuSearch]: the scheme and the
      search; [RcuCount]: the counters of waiting nodes.
    - [Grace]: liburcu as its documentation describes it, a machine in which
      threads, callbacks and grace periods take their steps in any order.
      [GraceLogic], [GraceSteps]: a rely-guarantee logic with the library's data
      and with the hands that every node is in; [GraceWriter], [GraceReader],
      [GracePool]: updater, search, callback, and all of them together;
      [GraceMain]: the theorems, from the initialisation of the table on.
    - [Util], [Stats] (util.h): the random numbers and the statistics.
    - [Mrow] (mrow.c): [get_buckets], [hash_init], [hash_delete], [run],
      [test], [setup_test].  [Hashtable] and [Driver] prove that the table
      refines one finite set of keys and that the driver's loops are folds
      over it; [TableMain] and [MrowMain] state what follows.
    - [Report], [ReportMain] (mrow.c): what a thread reports, what [test]
      condenses and what [main] prints.
    - [Pool]: updater, readers and main thread together, for any build that
      keeps the promises [OwnSpec] and [SearchSpec].  [Builds] shows that
      GECOS in its three variants, SGECOS, the sequence and generation locks
      and RCU do; [Typed] that the functions of these builds, of hazard
      pointers and of reference counts respect the types.
    - [GecosSeq], [Session]: searches that run alone, sequences of operations
      and their reference, a finite set; [Benchmark]: what holds in every
      interleaving; [Progress]: what a thread can still do alone; [TypeMain]:
      [program], the builds of the Makefile, and their type safety; [Agree]: the
      builds compared; [GecosFaults]: executions of the variants that go wrong.

    ** Correspondence

    A [node_t *] is the integer address of a block, its fields are locations
    ([LKey p], [LNext p], [LMrNext p], [LRc p], [LGc p]); a [node_t **] is a
    location, the head of a bucket or a [next] field.  Thread-local variables
    are locations indexed by the thread.  A C function is the definition of the
    same name; its loop is a [Fixpoint] with fuel, named after it, and labels
    reached by [goto] are the constructors of a type of labels.  What the source
    does not define is a parameter: [calloc] (a choice of an unused block, class
    [Calloc] with its laws), [qsort] and [bsearch] ([StdSort]), liburcu
    ([RcuLib]; its calls as events are [urcu], which [Grace] gives their
    meaning), the locks of pthread ([Pthread]; as events they are
    [event_locks], which [Locking] gives their meaning), [pthread_join],
    [time].
    Access to memory that is not allocated, division by zero, a failed
    assertion, the use of an uninitialised variable and the overflow of an
    [int] loop counter of the main thread are errors of the model; the safety
    theorems exclude them, and those about the creation and the end of a table
    assume or prove the bounds the loop counters need.

    ** What the theorems show

    - Builds with generation counters, optimistic locks or RCU: the searches are
      linearizable among an updater and other readers, as long as no counter
      wraps around ([search_linearizable]); no thread ever touches unallocated
      memory, wrapped counters or not ([benchmark_no_fault]); the lists are
      sorted and finite in every store ([benchmark_lists]); the updater's
      results are those of a sequential execution on a set
      ([benchmark_updater]).
    - RCU with callbacks that free nodes while readers search and the updater
      reuses them: the searches are linearizable ([grace_linearizable]), no
      reader reads a node the allocator may hand out ([grace_safe]), and outside
      critical sections every waiting node can be freed ([grace_reclaims]).
    - The locks of pthread: no thread ever stops with an error, a bound of the
      model included ([pthread_safe]), the searches are linearizable
      ([pthread_linearizable]), and there is no deadlock: every execution ends
      and can always be run to its end ([pthread_completes]).
    - Progress: the updater finishes from any point ([updates_nonblocking]), and
      so do the readers of the builds without a read lock
      ([search_nonblocking]); with a sequence lock they wait for a stopped
      updater ([seqlock_readers_wait]).
    - Every build of [program] (GECOS in its three variants and with [OSA_BEST],
      SGECOS, the sequence and generation locks, RCU, the two locks of pthread,
      hazard pointers, reference counts), with at most [MAX_THREAD] updaters and
      readers, keeps the store well typed and faults only by following [NULL]
      ([types_preserved]).
    - Operations refine a finite set, from [hash_init] to [hash_delete]
      ([table_refines_set], [table_life], [searches_alone], [reader_alone]);
      the builds of [program] but hazard pointers and [OSA_BEST], whose updater
      keeps unlinked nodes, answer a session of one thread as the same finite
      set does ([builds_agree]).
    - Hazard pointers, when the nodes lie within 128 GiB of each other and the
      slots in use fit the [K * nbthreads] cells that [scan] allocates: a node
      announced throughout a scan is not freed ([hazard_protects]), the other
      zombies are ([scan_partition]), and the zombies are bounded
      ([zombies_bounded]).  Without the first condition the comparison of
      addresses truncates ([compare_truncates]), without the second [scan]
      writes past its array ([scan_overflow]); and the search may trust a node
      that was freed ([hp_wrong_answer]).  Reference counts are exact between operations
      ([rc_counts_exact]).  RCU: the counter of waiting nodes is right when
      callbacks and retirements do not overlap ([rcu_counts_waiting]) and wrong
      when they do ([rcu_count_race]).
    - Locks exclude each other ([write_locks_exclude]).
    - The allocator never hands out a node twice in one thread
      that frees its nodes in any order ([no_double_allocation]) or among threads that either allocate or free
      ([roles_no_double_allocation]); two threads that do both may get the same
      node ([double_allocation_race]).  It is a stack below its threshold and
      loses nodes at a flush ([free_new_roundtrip], [add_free_leaks]).
    - The random generator has full period ([lcg_period]) and never draws a
      large key, so that no interleaving changes the large keys of the table
      ([large_keys_untouched]).  An accepted command line is in range
      ([setup_test_ok]), unless the number of keys wraps around to zero, when a
      reader divides by it ([setup_test_overflow]).  The printed
      extrema bound every thread's times ([report_extrema]), and the results fit
      their arrays up to [MAX_THREAD] threads ([report_bounds]).

    ** Bounds and fuel

    The fuel of a list traversal is more than the number of keys of the table;
    the theorems about sequential runs and about progress prove that it
    suffices.  A reader among updaters may retry any number of times, so the
    theorems about pools allow the error [OutOfFuel] and hold for every fuel.
    Loops that wait for another thread ([wait_go], [wait_ready], the locks made
    of atomic operations) are bounded by the same fuel.  With the locks of
    pthread nobody retries, and fuel for the longest possible list is enough.
    Counters of type [int] and [long] ([nbfl], [lcnt], [nbretry], the generation
    counters) wrap around as the machine's two's complement does; for a signed
    type this is what the compilers do, not what the C standard promises, and the
    loop counters of [hash_init] and [hash_delete] stop with an error instead.
    The counters of type [double] ([nbmallocs], [thd_ins], ...) are integers
    without bound, which is exact up to [2^53].

    ** Not modelled

    CPU affinity, signals and the text that is printed; the store buffers of
    the machine (the barriers are operations without effect), so that nothing is
    said of missing barriers; the allocation failure of [calloc] in the theorems
    about tables ([CallocTotal]; those about types allow it).  The array that
    [scan] allocates, and never frees, is a list with a bound: a store past its
    last cell is an error, but the block itself is not in the store.  The callbacks of RCU run in [GraceMain] only,
    without the counters of [RCU_COUNT_BLC]; for RCU the other theorems about
    whole executions speak of the time before the first grace period ends.
    [RCU_QSBR] is left out, and so are the errors that the locks of pthread may
    report, which the code ignores.  Several updaters are treated
    for the locks, the allocator and the types only: without a lock list_writer.c
    does not support them, and with one the allocator fails as
    [double_allocation_race] shows.  Hazard pointers and reference counts are
    treated sequentially, apart from [hazard_protects], [hp_wrong_answer] and
    [types_preserved]: the search with hazard pointers is not linearizable, since
    list_writer.c does not mark deleted nodes, and with reference counts readers
    free nodes beside an updater that does both, which the allocator does not
    support.  The addresses of nodes are assumed to lie
    within 128 GiB of each other where [compare] matters. *)
From stdpp Require Export base gmap list sorting.
From Stdlib Require Export ZArith Lia.

#[export] Set Default Goal Selector "!".
Open Scope Z_scope.

(** ** Machine integers *)

(** [unsigned long] arithmetic is modulo [2^64], [unsigned] modulo [2^32]. *)
Definition word64 : Z := 2 ^ 64.
Definition word32 : Z := 2 ^ 32.
Definition u64 (z : Z) : Z := z mod word64.
Definition u32 (z : Z) : Z := z mod word32.

(** Conversion of an integer to [int]: two's complement on 32 bits. *)
Definition i32 (z : Z) : Z := (z + 2 ^ 31) mod word32 - 2 ^ 31.

(** Conversion of an integer to [long]: two's complement on 64 bits. *)
Definition i64 (z : Z) : Z := (z + 2 ^ 63) mod word64 - 2 ^ 63.

Abbreviation NULL := (0%Z) (only parsing).

(** First element of a list of node addresses, as a C pointer. *)
Definition hd0 (xs : list Z) : Z :=
  match xs with [] => NULL | x :: _ => x end.

Lemma u64_small z : 0 <= z < word64 -> u64 z = z.
Proof. apply Z.mod_small. Qed.

Lemma u64_range z : 0 <= u64 z < word64.
Proof. apply Z.mod_pos_bound. done. Qed.

Lemma u64_succ_le v : v < word64 - 1 -> v <= u64 (v + 1).
Proof.
  intros Hv. destruct (decide (0 <= v)); [rewrite u64_small; lia|].
  pose proof (u64_range (v + 1)). lia.
Qed.

(** Incrementing a counter really moves it, even when it wraps around. *)
Lemma u64_succ_ne v : u64 (v + 1) <> v.
Proof.
  intros Hv. assert (Hr : 0 <= v < word64) by (rewrite <- Hv; apply u64_range).
  unfold u64, word64 in *. destruct (decide (v = 2 ^ 64 - 1)) as [->|Hne].
  - vm_compute in Hv. done.
  - rewrite Z.mod_small in Hv by lia. lia.
Qed.

Lemma i32_small z : - 2 ^ 31 <= z < 2 ^ 31 -> i32 z = z.
Proof. intros ?. unfold i32, word32. rewrite Z.mod_small; lia. Qed.

Lemma i64_small z : - 2 ^ 63 <= z < 2 ^ 63 -> i64 z = z.
Proof. intros ?. unfold i64, word64. rewrite Z.mod_small; lia. Qed.

(** ** Lists *)

Lemma head_Some_elem_of {A} (l : list A) x : head l = Some x -> x ∈ l.
Proof. destruct l; simpl; [done|]. intros [= ->]. set_solver. Qed.

Lemma hd0_app xs ys : hd0 (xs ++ ys) = if decide (xs = []) then hd0 ys else hd0 xs.
Proof. by destruct xs. Qed.

(** Strictly increasing lists of integers. *)
Abbreviation incr := (StronglySorted Z.lt).

Lemma incr_app xs ys :
  incr (xs ++ ys) <-> incr xs /\ incr ys /\ (forall x y, x ∈ xs -> y ∈ ys -> x < y).
Proof.
  induction xs as [|x xs IH]; simpl.
  { split; [intros; split_and!; [constructor|done|set_solver]|naive_solver]. }
  split.
  - intros Hs. apply StronglySorted_inv in Hs as [Hs Hx].
    apply IH in Hs as (H1 & H2 & H3). rewrite Forall_app in Hx. destruct Hx as [Hx Hy].
    split_and!; [by constructor|done|].
    intros a b [->|Ha]%elem_of_cons Hb; [|by apply H3]. by eapply Forall_forall in Hy.
  - intros (H1 & H2 & H3). apply StronglySorted_inv in H1 as [H1 Hx].
    constructor; [apply IH; split_and!; [done..|set_solver]|].
    apply Forall_app. split; [done|]. apply Forall_forall. set_solver.
Qed.

Lemma incr_cons x xs : incr (x :: xs) <-> incr xs /\ (forall y, y ∈ xs -> x < y).
Proof.
  split.
  - intros [Hs Hx]%StronglySorted_inv. split; [done|]. by apply Forall_forall.
  - intros [Hs Hx]. constructor; [done|]. by apply Forall_forall.
Qed.

Lemma incr_NoDup xs : incr xs -> NoDup xs.
Proof.
  induction xs as [|x xs IH]; [constructor|]. intros [Hs Hx]%incr_cons.
  constructor; [|auto]. intros Hin%Hx. lia.
Qed.
