(* ===== verification/Mem.v ===== *)
(** * Memory, atomic operations and programs (atomic.h, test.h)

    The shared store of the program, the atomic operations of [atomic.h], and
    the type [prog] in which every C function of the development is written: a
    tree of single memory operations.  One translation of a function thus has
    two readings: [run] executes it alone, [pstep] interleaves it, operation
    by operation, with the programs of the other threads. *)
From S2P Require Import Prelude.

(** ** Constants of test.h *)

Definition NB_TEST : Z := 2000000.
Definition ITERATION : Z := 5.
Definition MAX_THREAD : Z := 256.
Definition CACHESIZE : Z := 64.

(** [clean_pointer] and [mark_pointer]: bit 0 of a node address is a mark. *)
Definition clean_pointer (p : Z) : Z := Z.land p (-2).
Definition mark_pointer (p : Z) : Z := u64 (p + 1).

(** ** Locations *)

(** [__thread] variables (mrow.c, allocator_malloc.c, list_gecos.c, rcu.c). *)
Inductive tlsvar :=
  | Vthread | Vnbretry | Vnbrelink | Vnbreprev | Vnbmallocs | Vnbfl
  | Vnbblockeds | Vthd_seed | Vthd_nbupdaters | Vthd_ins | Vthd_del | Vthd_sea
  | Vlfl | Vlfl_tail | Vlcnt | Vfree_later | Vamort.

(** Shared globals of static storage duration. *)
Inductive gvar :=
  | Gfreelist | Gfrct | Ggo | Gdone | Gready | Gqsblockeds | Grcublockeds.

(** A location of the shared store.  A [node_t *] is an address [p]; the
    fields of the node at [p] are [LKey p], [LNext p], ...  A [node_t **] is
    the location of a bucket's head or of a [next] field; a [lock_t *] is
    [LLock i], the lock of bucket [i]. *)
Inductive loc :=
  | LHead (i : Z) | LLock (i : Z)
  | LKey (p : Z) | LNext (p : Z) | LMrNext (p : Z) | LRc (p : Z) | LGc (p : Z)
  | LGlob (g : gvar)
  | LTls (t : Z) (v : tlsvar)
  | LHP (i : Z) | LZlistP (t : Z) | LZlistN (t : Z).

#[export] Instance tlsvar_eq_dec : EqDecision tlsvar.
Proof. solve_decision. Defined.
#[export] Instance gvar_eq_dec : EqDecision gvar.
Proof. solve_decision. Defined.
#[export] Instance loc_eq_dec : EqDecision loc.
Proof. solve_decision. Defined.

Definition tlsvar_code (v : tlsvar) : Z :=
  match v with
  | Vthread => 0 | Vnbretry => 1 | Vnbrelink => 2 | Vnbreprev => 3
  | Vnbmallocs => 4 | Vnbfl => 5 | Vnbblockeds => 6 | Vthd_seed => 7
  | Vthd_nbupdaters => 8 | Vthd_ins => 9 | Vthd_del => 10 | Vthd_sea => 11
  | Vlfl => 12 | Vlfl_tail => 13 | Vlcnt => 14 | Vfree_later => 15 | Vamort => 16
  end.

Definition tlsvar_decode (c : Z) : tlsvar :=
  match c with
  | 0 => Vthread | 1 => Vnbretry | 2 => Vnbrelink | 3 => Vnbreprev
  | 4 => Vnbmallocs | 5 => Vnbfl | 6 => Vnbblockeds | 7 => Vthd_seed
  | 8 => Vthd_nbupdaters | 9 => Vthd_ins | 10 => Vthd_del | 11 => Vthd_sea
  | 12 => Vlfl | 13 => Vlfl_tail | 14 => Vlcnt | 15 => Vfree_later | _ => Vamort
  end.

Definition gvar_code (g : gvar) : Z :=
  match g with
  | Gfreelist => 0 | Gfrct => 1 | Ggo => 2 | Gdone => 3 | Gready => 4
  | Gqsblockeds => 5 | Grcublockeds => 6
  end.

Definition gvar_decode (c : Z) : gvar :=
  match c with
  | 0 => Gfreelist | 1 => Gfrct | 2 => Ggo | 3 => Gdone | 4 => Gready
  | 5 => Gqsblockeds | _ => Grcublockeds
  end.

Definition loc_code (l : loc) : Z * Z * Z :=
  match l with
  | LHead i => (0, i, 0) | LLock i => (1, i, 0)
  | LKey p => (2, p, 0) | LNext p => (3, p, 0) | LMrNext p => (4, p, 0)
  | LRc p => (5, p, 0) | LGc p => (6, p, 0)
  | LGlob g => (7, gvar_code g, 0)
  | LTls t v => (8, t, tlsvar_code v)
  | LHP i => (9, i, 0) | LZlistP t => (10, t, 0) | LZlistN t => (11, t, 0)
  end.

Definition loc_decode (c : Z * Z * Z) : loc :=
  match c with
  | (0, i, _) => LHead i | (1, i, _) => LLock i
  | (2, p, _) => LKey p | (3, p, _) => LNext p | (4, p, _) => LMrNext p
  | (5, p, _) => LRc p | (6, p, _) => LGc p
  | (7, g, _) => LGlob (gvar_decode g)
  | (8, t, v) => LTls t (tlsvar_decode v)
  | (9, i, _) => LHP i | (10, t, _) => LZlistP t | (_, t, _) => LZlistN t
  end.

#[export] Instance loc_countable : Countable loc.
Proof.
  refine (inj_countable' loc_code loc_decode _).
  intros []; try done; [by destruct g | by destruct v].
Defined.

(** ** Memory *)

Abbreviation mem := (gmap loc Z).

(** Statics and thread-local variables are always mapped and start at zero;
    the fields of a node and the cells of the two [calloc]ed arrays of
    [struct hash] are mapped when the map has them. *)
Definition is_static (l : loc) : bool :=
  match l with
  | LGlob _ | LTls _ _ => true
  | LHP i => (0 <=? i) && (i <? 3 * MAX_THREAD)
  | LZlistP t | LZlistN t => (0 <=? t) && (t <? MAX_THREAD)
  | _ => false
  end.

(** Contents of a location; [None] when the access faults. *)
Definition mget (m : mem) (l : loc) : option Z :=
  match m !! l with
  | Some v => Some v
  | None => if is_static l then Some 0 else None
  end.

(** The fields of [struct node], all zeroed by [calloc]. *)
Definition node_fields : list (Z -> loc) := [LKey; LNext; LMrNext; LRc; LGc].

Definition calloc_block (p : Z) (m : mem) : mem :=
  foldr (fun f => insert (f p) 0) m node_fields.
Arguments calloc_block p m : simpl never.

(** [free]: the block disappears. *)
Definition free_block (p : Z) (m : mem) : mem :=
  foldr (fun f => delete (f p)) m node_fields.

Definition fresh_block (m : mem) (p : Z) : Prop :=
  Forall (fun f => m !! f p = None) node_fields.

(** The two arrays of [struct hash], zeroed by [calloc] or freed. *)
Definition calloc_array (f : Z -> loc) (n : Z) (m : mem) : mem :=
  foldr (fun i => insert (f (Z.of_nat i)) 0) m (seq 0 (Z.to_nat n)).
Definition free_array (is_cell : loc -> bool) (m : mem) : mem :=
  filter (fun lv => is_cell lv.1 = false) m.

(** The C library's [calloc(sizeof(node_t), 1)]: the address it chooses in a
    given store, [NULL] when it has no memory. *)
Class Calloc := calloc_addr : mem -> Z.

(** What the C standard promises of it: [NULL], or an unused, aligned block. *)
Class CallocOk `{Calloc} : Prop :=
  calloc_ok : forall m, calloc_addr m = NULL \/
    (0 < calloc_addr m /\ calloc_addr m mod CACHESIZE = 0 /\
     fresh_block m (calloc_addr m)).

(** The stronger promise that it never runs out of memory. *)
Class CallocTotal `{Calloc} : Prop :=
  calloc_total : forall m, 0 < calloc_addr m /\ calloc_addr m mod CACHESIZE = 0 /\
    fresh_block m (calloc_addr m).

(** ** Atomic operations *)

(** Barriers: [asm volatile("":::"memory")], [sfence], [__sync_synchronize]. *)
Inductive barrier := CompilerBarrier | SFence | MFence.

(** Calls of liburcu and of pthread's locks, which work on data of their own;
    [CallRcu n] registers the callback of the node [n]; a lock is acquired
    exclusively or shared. *)
Inductive libcall :=
  | RcuReadLock | RcuReadUnlock | CallRcu (n : Z)
  | LockAcquire (exclusive : bool) (l : loc) | LockRelease (l : loc).

Inductive op :=
  | Load (l : loc)
  | Store (l : loc) (v : Z)
  | CmpXchg (l : loc) (oldval newval : Z)  (* __sync_val_compare_and_swap *)
  | XAdd (l : loc) (addend : Z)            (* __sync_fetch_and_add *)
  | Xchg (l : loc) (v : Z)                 (* __sync_lock_test_and_set *)
  | CallocNode                             (* calloc(sizeof(node_t), 1) *)
  | FreeNode (p : Z)                       (* free(p) *)
  | CallocHeads (n : Z)                    (* hash.heads = calloc(.., n) *)
  | CallocLocks (n : Z)                    (* hash.locks = calloc(.., n) *)
  | FreeHeads                              (* free(hash.heads) *)
  | FreeLocks                              (* free(hash.locks) *)
  | Fence (b : barrier)
  | LibCall (c : libcall).

(** Execution of one operation: the value it returns (0 when none) and the
    new store; [None] is an access to unmapped memory. *)
Definition op_exec `{Calloc} (o : op) (m : mem) : option (Z * mem) :=
  match o with
  | Load l => v ← mget m l; Some (v, m)
  | Store l v => _ ← mget m l; Some (0, <[l:=v]> m)
  | CmpXchg l oldval newval =>
      v ← mget m l; Some (v, if decide (v = oldval) then <[l:=newval]> m else m)
  | XAdd l addend => v ← mget m l; Some (v, <[l:=u64 (v + addend)]> m)
  | Xchg l w => v ← mget m l; Some (v, <[l:=w]> m)
  | CallocNode =>
      let p := calloc_addr m in
      Some (p, if decide (p = NULL) then m else calloc_block p m)
  | FreeNode p => _ ← mget m (LKey p); Some (0, free_block p m)
  | CallocHeads n => Some (0, calloc_array LHead n m)
  | CallocLocks n => Some (0, calloc_array LLock n m)
  | FreeHeads => Some (0, free_array (fun l => match l with LHead _ => true | _ => false end) m)
  | FreeLocks => Some (0, free_array (fun l => match l with LLock _ => true | _ => false end) m)
  | Fence _ | LibCall _ => Some (0, m)
  end.

(** ** Programs *)

(** What stops a thread: an access to unmapped memory, a failed [assert], a
    call of [abort], the use of an uninitialised variable, a division by zero,
    the overflow of an [int], and the exhaustion of the fuel that bounds the
    loops of the model. *)
Inductive err :=
  | Segfault | AssertFail | Aborted | Indeterminate | DivByZero | IntOverflow | OutOfFuel.

#[export] Instance err_eq_dec : EqDecision err.
Proof. solve_decision. Defined.

Inductive prog (A : Type) : Type :=
  | Ret (a : A)
  | Crash (e : err)
  | Vis (o : op) (k : Z -> prog A).
Arguments Ret {A} a.
Arguments Crash {A} e.
Arguments Vis {A} o k.

#[export] Instance prog_ret : MRet prog := fun A a => Ret a.

#[export] Instance prog_bind : MBind prog :=
  fun A B f => fix go (p : prog A) : prog B :=
    match p with
    | Ret a => f a
    | Crash e => Crash e
    | Vis o k => Vis o (fun r => go (k r))
    end.

Definition do_op (o : op) : prog Z := Vis o Ret.

(** Plain and [ACCESS_ONCE] accesses. *)
Definition load (l : loc) : prog Z := do_op (Load l).
Definition store (l : loc) (v : Z) : prog unit := do_op (Store l v) ≫= fun _ => Ret tt.

(** [assert(b)] *)
Definition c_assert (b : bool) : prog unit := if b then Ret tt else Crash AssertFail.

(** atomic.h *)
Definition atomic_cmpxchg4 (l : loc) (oldval newval : Z) : prog Z :=
  do_op (CmpXchg l oldval newval).
Definition CAS (l : loc) (oldval newval : Z) : prog bool :=
  v ← atomic_cmpxchg4 l oldval newval; Ret (v =? oldval).
Definition atomic_read4 (l : loc) : prog Z := load l.
Definition atomic_xadd4 (l : loc) (addend : Z) : prog Z := do_op (XAdd l addend).
Definition atomic_xchg4 (l : loc) (v : Z) : prog Z := do_op (Xchg l v).
Definition atomic_set4 (l : loc) (v : Z) : prog unit :=
  _ ← atomic_xchg4 l v; Ret tt.

Definition fence (b : barrier) : prog unit := _ ← do_op (Fence b); Ret tt.
Definition lib_call (c : libcall) : prog unit := _ ← do_op (LibCall c); Ret tt.
Definition compiler_barrier : prog unit := fence CompilerBarrier.
Definition read_read_barrier : prog unit := compiler_barrier.
Definition memory_barrier : prog unit := fence MFence.
Definition write_read_barrier : prog unit := fence SFence.
Definition write_write_barrier : prog unit := compiler_barrier.
Definition spin_lock_barrier : prog unit := compiler_barrier.
Definition spin_unlock_barrier : prog unit := compiler_barrier.

(** [x++] on an [unsigned long] that other threads may read: a load and a
    store, not one atomic operation. *)
Definition incr64 (l : loc) : prog unit := v ← load l; store l (u64 (v + 1)).

(** The successor of a signed integer of [bits + 1] bits, which wraps around:
    what the instruction does (to C the overflow is undefined). *)
Definition wrap_succ (bits v : Z) : Z := if v =? 2 ^ bits - 1 then - 2 ^ bits else v + 1.

(** [x + 1] in the type of the thread-local counter [x]: [int], [long], or
    [double], which counts exactly up to [2^53], a bound the model leaves out. *)
Definition tls_succ (x : tlsvar) (v : Z) : Z :=
  match x with
  | Vlcnt | Vnbfl => wrap_succ 31 v
  | Vnbretry | Vnbrelink | Vnbreprev => wrap_succ 63 v
  | _ => v + 1
  end.

(** [x++] on a thread-local counter. *)
Definition incr_tls (self : Z) (x : tlsvar) : prog unit :=
  v ← load (LTls self x); store (LTls self x) (tls_succ x v).

(** Calls of a library that touches none of the program's data. *)
Fixpoint quiet {A} (p : prog A) : Prop :=
  match p with
  | Ret _ => True
  | Crash _ => False
  | Vis (Fence _ | LibCall _) k => forall r, quiet (k r)
  | Vis _ _ => False
  end.

(** ** Sequential execution *)

Inductive outcome (A : Type) : Type :=
  | Ok (a : A) (m : mem)
  | Err (e : err) (m : mem).
Arguments Ok {A} a m.
Arguments Err {A} e m.

Fixpoint run `{Calloc} {A} (p : prog A) (m : mem) : outcome A :=
  match p with
  | Ret a => Ok a m
  | Crash e => Err e m
  | Vis o k =>
      match op_exec o m with
      | Some (r, m') => run (k r) m'
      | None => Err Segfault m
      end
  end.

(** ** Interleaved execution

    A pool of threads over one store; a step runs one operation of one
    thread.  [psteps c tr c'] collects the stores passed through, the newest
    first. *)
Abbreviation pool A := (list (prog A) * mem)%type.

Inductive pstep `{Calloc} {A} : pool A -> pool A -> Prop :=
  | pstep_op ps m i o k r m' :
      ps !! i = Some (Vis o k) -> op_exec o m = Some (r, m') ->
      pstep (ps, m) (<[i:=k r]> ps, m')
  | pstep_fault ps m i o k :
      ps !! i = Some (Vis o k) -> op_exec o m = None ->
      pstep (ps, m) (<[i:=Crash Segfault]> ps, m).

Inductive psteps `{Calloc} {A} : pool A -> list mem -> pool A -> Prop :=
  | psteps_refl c : psteps c [] c
  | psteps_snoc c tr c' ps m : psteps c tr c' -> pstep c' (ps, m) ->
      psteps c (m :: tr) (ps, m).

(** The step of a chosen thread, and the execution of a schedule. *)
Definition sched_step `{Calloc} {A} (i : nat) (c : pool A) : pool A :=
  match c.1 !! i with
  | Some (Vis o k) =>
      match op_exec o c.2 with
      | Some (r, m') => (<[i:=k r]> c.1, m')
      | None => (<[i:=Crash Segfault]> c.1, c.2)
      end
  | _ => c
  end.

Definition sched_run `{Calloc} {A} (sched : list nat) (c : pool A) : pool A :=
  foldl (fun c i => sched_step i c) c sched.

(** ** Lemmas *)

Section lemmas.
Context `{Calloc}.

Lemma run_quiet {A} (p : prog A) m : quiet p -> exists a, run p m = Ok a m.
Proof.
  induction p as [a|e|o k IH]; cbn; [by exists a|done|]. destruct o; try done; intros Hq; by apply IH.
Qed.

Lemma run_bind {A B} (p : prog A) (f : A -> prog B) m :
  run (p ≫= f) m =
  match run p m with Ok a m' => run (f a) m' | Err e m' => Err e m' end.
Proof.
  revert m. induction p as [a|e|o k IH]; intros m; [done..|]. cbn.
  destruct (op_exec o m) as [[r m']|]; [apply IH|done].
Qed.

Lemma sched_step_pstep {A} i (c : pool A) :
  sched_step i c = c \/ pstep c (sched_step i c).
Proof.
  destruct c as [ps m]. unfold sched_step; simpl.
  destruct (ps !! i) as [[a|e|o k]|] eqn:Hi; [by left..| |by left].
  destruct (op_exec o m) as [[r m']|] eqn:Ho; right; econstructor; eauto.
Qed.

Lemma psteps_trans {A} (c1 c2 c3 : pool A) tr1 tr2 :
  psteps c1 tr1 c2 -> psteps c2 tr2 c3 -> psteps c1 (tr2 ++ tr1) c3.
Proof. intros H1 H2. induction H2; [done|]. simpl. econstructor; eauto. Qed.

Lemma sched_run_psteps {A} sched (c : pool A) : exists tr, psteps c tr (sched_run sched c).
Proof.
  unfold sched_run. revert c. induction sched as [|i sched IH]; intros c; simpl.
  { eexists. constructor. }
  destruct (IH (sched_step i c)) as [tr Htr].
  destruct (sched_step_pstep i c) as [Heq|Hs].
  { rewrite Heq in Htr |- *. eauto. }
  destruct (sched_step i c) as [ps m] eqn:E.
  exists (tr ++ [m]). eapply psteps_trans; [|done]. econstructor; [constructor|done].
Qed.

End lemmas.

Lemma mget_lookup m l v : m !! l = Some v -> mget m l = Some v.
Proof. unfold mget. by intros ->. Qed.

(** Symbolic execution of a program that runs alone. *)
Section run.
Context `{Calloc}.

Lemma run_load {A} l v (k : Z -> prog A) m : mget m l = Some v -> run (load l ≫= k) m = run (k v) m.
Proof. intros Hl. cbn. by rewrite Hl. Qed.

Lemma run_store {A} l v (k : unit -> prog A) m : is_Some (mget m l) ->
  run (store l v ≫= k) m = run (k tt) (<[l := v]> m).
Proof. intros [w Hl]. cbn. by rewrite Hl. Qed.

Lemma run_fence {A} bar (k : unit -> prog A) m : run (fence bar ≫= k) m = run (k tt) m.
Proof. done. Qed.

End run.

Lemma mget_insert m l v : mget (<[l:=v]> m) l = Some v.
Proof. apply mget_lookup, lookup_insert_eq. Qed.

Lemma mget_insert_ne m l l' v : l <> l' -> mget (<[l:=v]> m) l' = mget m l'.
Proof. intros. unfold mget. by rewrite lookup_insert_ne. Qed.

Lemma mget_static m l : is_static l = true -> exists v, mget m l = Some v.
Proof. intros Hl. unfold mget. destruct (m !! l); [eauto|]. rewrite Hl. eauto. Qed.

Lemma calloc_block_lookup_ne p m l :
  (forall f, f ∈ node_fields -> l <> f p) -> calloc_block p m !! l = m !! l.
Proof.
  intros Hne. unfold calloc_block, node_fields. simpl.
  rewrite !lookup_insert_ne by (apply not_eq_sym, Hne; set_solver). done.
Qed.

(** [clean_pointer] removes the mark that [mark_pointer] sets on an aligned
    address. *)
Lemma clean_mark p : 0 <= p < word64 -> p mod 2 = 0 -> clean_pointer (mark_pointer p) = p.
Proof.
  intros Hp He. unfold mark_pointer, clean_pointer.
  assert (p <> word64 - 1) by (intros ->; by vm_compute in He).
  rewrite u64_small by lia.
  change (-2) with (Z.lnot 1). rewrite <- Z.ldiff_land.
  change 1 with (Z.ones 1) at 2. rewrite Z.ldiff_ones_r by lia.
  rewrite Z.shiftr_div_pow2, Z.shiftl_mul_pow2 by lia. change (2 ^ 1) with 2.
  pose proof (Z.div_mod p 2 ltac:(lia)).
  replace (p + 1) with (1 + (p / 2) * 2) by lia. rewrite Z.div_add by lia.
  change (1 / 2) with 0. lia.
Qed.

(** What [calloc] returns is a multiple of the size of a block. *)
Definition aligned (p : Z) : Prop := p mod CACHESIZE = 0.

Lemma aligned_even p : aligned p -> Z.odd p = false /\ clean_pointer p = p.
Proof.
  unfold aligned, CACHESIZE. intros Ha. assert (He : p = 2 * (32 * (p / 64))) by (pose proof (Z.div_mod p 64); lia).
  assert (Hb : Z.odd p = false) by (rewrite He, Z.odd_mul; done). split; [done|].
  unfold clean_pointer. change (-2) with (Z.lnot 1). rewrite <- Z.ldiff_land. change 1 with (Z.ones 1).
  rewrite Z.ldiff_ones_r, Z.shiftr_div_pow2, Z.shiftl_mul_pow2 by lia. change (2 ^ 1) with 2.
  clear Hb. Z.div_mod_to_equations. lia.
Qed.

(** Reads through the stores of a symbolic execution. *)
Create HintDb mem discriminated.
Ltac mget_simpl :=
  repeat first
    [ rewrite mget_insert
    | rewrite mget_insert_ne by (discriminate || congruence || (intros [=]; congruence)) ].
Ltac mget_solve := mget_simpl; first [eassumption | reflexivity | eauto with mem].
