(* ===== verification/Concrete.v ===== *)
(** * A concrete C library

    An implementation of the library functions the development is
    parameterised by, for the examples and the witnesses: [calloc] takes the
    block after the last one in use, [pthread_spin_init] clears the lock and
    [pthread_join] returns at once. *)
From S2P Require Import Prelude Mem.

(** The address a location belongs to, if it is the field of a node. *)
Definition loc_addr (l : loc) : Z :=
  match l with LKey p | LNext p | LMrNext p | LRc p | LGc p => p | _ => 0 end.

Definition top_addr (m : mem) : Z := map_fold (fun l _ a => Z.max (loc_addr l) a) 0 m.

Definition bump (m : mem) : Z := CACHESIZE * (1 + top_addr m / CACHESIZE).

Lemma top_addr_spec m : 0 <= top_addr m /\ (forall l v, m !! l = Some v -> loc_addr l <= top_addr m).
Proof.
  unfold top_addr. apply (map_fold_weak_ind (fun a m => 0 <= a /\ forall l v, m !! l = Some v -> loc_addr l <= a)).
  - split; [lia|]. intros l v Hl. by rewrite lookup_empty in Hl.
  - intros l v m' a Hl [Ha IH]. split; [lia|]. intros l' v' Hl'.
    destruct (decide (l = l')) as [<-|Hne]; [lia|]. rewrite lookup_insert_ne in Hl' by done.
    apply IH in Hl'. lia.
Qed.

Lemma bump_above m : top_addr m < bump m.
Proof.
  unfold bump, CACHESIZE. destruct (top_addr_spec m) as [H0 _].
  pose proof (Z.div_mod (top_addr m) 64 ltac:(lia)). pose proof (Z.mod_pos_bound (top_addr m) 64 ltac:(lia)). lia.
Qed.

#[export] Instance bump_calloc : Calloc := bump.

#[export] Instance bump_total : CallocTotal.
Proof.
  intros m. unfold calloc_addr, bump_calloc. pose proof (bump_above m).
  destruct (top_addr_spec m) as [H0 Hm]. split; [lia|]. split.
  - unfold bump. rewrite Z.mul_comm. apply Z.mod_mul. done.
  - unfold fresh_block. apply Forall_forall. intros f Hf.
    destruct (m !! f (bump m)) as [v|] eqn:Hv; [|done]. apply Hm in Hv.
    assert (loc_addr (f (bump m)) = bump m) as Ha; [|lia].
    unfold node_fields in Hf. set_unfold in Hf. by destruct_or! Hf; subst.
Qed.

Definition spin_init_zero (l : loc) : prog unit := store l 0.
Definition join_now (i : Z) : prog unit := memory_barrier.
