(* ===== verification/RG.v ===== *)
(** * A rely-guarantee logic for programs

    [wp E R G p Q s] says that the program [p], started in the configuration
    [s] and run among other threads that only take steps allowed by the rely
    [R], takes only steps allowed by the guarantee [G], stops with an error
    only if [E] allows it, and satisfies [Q] when it returns.  A configuration
    is the store, the stores passed through so far (newest first) and a ghost
    state chosen by the proof.  [wp_run] brings such a triple down to the
    sequential execution, [wp_pool] to any interleaving of a pool. *)
From S2P Require Import Prelude Mem.

Record cfg (Gh : Set) : Set := Cfg { cm : mem; ctr : list mem; cg : Gh }.
Arguments Cfg {Gh} _ _ _.
Arguments cm {Gh} _.
Arguments ctr {Gh} _.
Arguments cg {Gh} _.

(** The configuration after an operation that leaves the store [m']. *)
Definition next_cfg {Gh} (s : cfg Gh) (m' : mem) (g' : Gh) : cfg Gh :=
  Cfg m' (m' :: ctr s) g'.

Section wp.
Context `{Calloc} {Gh : Set}.
Implicit Types (E : err -> Prop) (R G : (cfg Gh -> cfg Gh -> Prop)).

Fixpoint wp E R G {A} (p : prog A) (Q : A -> cfg Gh -> Prop) (s : cfg Gh) : Prop :=
  match p with
  | Ret a => forall s', R s s' -> Q a s'
  | Crash e => E e
  | Vis o k => forall s', R s s' ->
      match op_exec o (cm s') with
      | Some (r, m') => exists g', G s' (next_cfg s' m' g') /\
                          wp E R G (k r) Q (next_cfg s' m' g')
      | None => E Segfault
      end
  end.

(** ** Structural rules *)

Lemma wp_mono E (E' : err -> Prop) R G {A} (p : prog A) (Q Q' : A -> cfg Gh -> Prop) s :
  wp E R G p Q s -> (forall e, E e -> E' e) -> (forall a s', Q a s' -> Q' a s') ->
  wp E' R G p Q' s.
Proof.
  intros Hp HE HQ. revert s Hp. induction p as [a|e|o k IH]; intros s Hp; cbn in *.
  - eauto.
  - eauto.
  - intros s' Hs. specialize (Hp s' Hs).
    destruct (op_exec o (cm s')) as [[r m']|]; [|eauto].
    destruct Hp as (g' & HG & Hw). exists g'. eauto.
Qed.

Lemma wp_post E R G {A} (p : prog A) (Q Q' : A -> cfg Gh -> Prop) s :
  wp E R G p Q s -> (forall a s', Q a s' -> Q' a s') -> wp E R G p Q' s.
Proof. intros. eapply wp_mono; eauto. Qed.

Lemma wp_rely E R G {A} (p : prog A) Q s s' `{!Transitive R} :
  wp E R G p Q s -> R s s' -> wp E R G p Q s'.
Proof.
  intros Hp Hs. destruct p as [a|e|o k]; cbn in *.
  - intros s'' Hs'. apply Hp. by etrans.
  - done.
  - intros s'' Hs'. apply Hp. by etrans.
Qed.

Lemma wp_ret E R G {A} (a : A) (Q : A -> cfg Gh -> Prop) s :
  (forall s', R s s' -> Q a s') -> wp E R G (Ret a) Q s.
Proof. done. Qed.

Lemma wp_bind E R G {A B} (p : prog A) (f : A -> prog B) Q s `{!Reflexive R} :
  wp E R G p (fun a s' => wp E R G (f a) Q s') s -> wp E R G (p ≫= f) Q s.
Proof.
  revert s. induction p as [a|e|o k IH]; intros s Hp; cbn in *.
  - by apply Hp.
  - done.
  - intros s' Hs. specialize (Hp s' Hs).
    destruct (op_exec o (cm s')) as [[r m']|]; [|done].
    destruct Hp as (g' & HG & Hw). exists g'. split; [done|]. by apply IH.
Qed.

Lemma wp_op E R G o (Q : Z -> cfg Gh -> Prop) s :
  (forall s', R s s' -> exists r m' g', op_exec o (cm s') = Some (r, m') /\
     G s' (next_cfg s' m' g') /\
     (forall s'', R (next_cfg s' m' g') s'' -> Q r s'')) ->
  wp E R G (do_op o) Q s.
Proof.
  intros Hp s' Hs. destruct (Hp s' Hs) as (r & m' & g' & -> & HG & HQ). eauto.
Qed.

Lemma wp_guar E R (G G' : cfg Gh -> cfg Gh -> Prop) {A} (p : prog A) Q s :
  wp E R G p Q s -> (forall s s', G s s' -> G' s s') -> wp E R G' p Q s.
Proof.
  intros Hp HG. revert s Hp. induction p as [a|e|o k IH]; intros s Hp; cbn in *; [done..|].
  intros s' Hs. specialize (Hp s' Hs). destruct (op_exec o (cm s')) as [[r m']|]; [|done].
  destruct Hp as (g' & Hg & Hw). eauto.
Qed.

(** A thread whose own steps are in its rely ends where it started, up to the
    rely. *)
Lemma wp_track E R G {A} (p : prog A) Q s `{!PreOrder R} :
  (forall s s', G s s' -> R s s') ->
  wp E R G p Q s -> wp E R G p (fun a s' => R s s' /\ Q a s') s.
Proof.
  intros HGR. revert s. induction p as [a|e|o k IH]; intros s Hp; cbn in *.
  - intros s' Hs. split; [done|]. by apply Hp.
  - done.
  - intros s' Hs. specialize (Hp s' Hs).
    destruct (op_exec o (cm s')) as [[r m']|]; [|done].
    destruct Hp as (g' & HG & Hw). exists g'. split; [done|].
    eapply wp_post; [by apply IH|]. cbn beta. intros a s'' [Hr HQ]. split; [|done].
    etrans; [exact Hs|]. etrans; [by apply HGR|done].
Qed.

(** ** Sequential adequacy *)

Lemma wp_run E R G {A} (p : prog A) Q s `{!Reflexive R} :
  wp E R G p Q s ->
  match run p (cm s) with
  | Ok a m' => exists tr g', Q a (Cfg m' (tr ++ ctr s) g')
  | Err e _ => E e
  end.
Proof.
  revert s. induction p as [a|e|o k IH]; intros s Hp; cbn in *.
  - exists [], (cg s). specialize (Hp s ltac:(done)). by destruct s.
  - done.
  - specialize (Hp s ltac:(done)).
    destruct (op_exec o (cm s)) as [[r m']|]; [|done].
    destruct Hp as (g' & HG & Hw). specialize (IH _ _ Hw). cbn in IH.
    destruct (run (k r) m') as [a m''|e m'']; [|done].
    destruct IH as (tr & g'' & HQ). exists (tr ++ [m']), g''. by rewrite <- app_assoc.
Qed.

(** ** Adequacy for a pool of threads *)

(** What the proof of one thread of the pool provides. *)
Record thread_spec (A : Set) := ThreadSpec {
  ts_err : err -> Prop;
  ts_rely : (cfg Gh -> cfg Gh -> Prop);
  ts_guar : (cfg Gh -> cfg Gh -> Prop);
  ts_post : A -> cfg Gh -> Prop }.
Arguments ts_err {A} _.
Arguments ts_rely {A} _.
Arguments ts_guar {A} _.
Arguments ts_post {A} _.

Definition ts_wp {A : Set} (t : thread_spec A) (p : prog A) (s : cfg Gh) : Prop :=
  wp (ts_err t) (ts_rely t) (ts_guar t) p (ts_post t) s.

(** The guarantee of a thread is in the rely of every other one. *)
Definition compatible {A : Set} (ts : list (thread_spec A)) : Prop :=
  forall i j ti tj, ts !! i = Some ti -> ts !! j = Some tj -> i <> j ->
    forall s s', ts_guar ti s s' -> ts_rely tj s s'.

Lemma wp_pool_step {A : Set} (ts : list (thread_spec A)) ps ps' s m' :
  compatible ts ->
  (forall t, t ∈ ts -> PreOrder (ts_rely t)) ->
  Forall2 (fun t p => ts_wp t p s) ts ps ->
  pstep (ps, cm s) (ps', m') ->
  (exists g' t, t ∈ ts /\ ts_guar t s (next_cfg s m' g') /\
     Forall2 (fun t p => ts_wp t p (next_cfg s m' g')) ts ps') \/
  (exists i t, ts !! i = Some t /\ ts_err t Segfault).
Proof.
  intros Hc Hpre Hps Hstep. inversion Hstep as [? ? i o k r ? Hi Ho|? ? i o k Hi Ho]; subst.
  - destruct (Forall2_lookup_r _ _ _ _ _ Hps Hi) as (t & Ht & Hw).
    pose proof (Hpre t (list_elem_of_lookup_2 _ _ _ Ht)) as [Hr _].
    specialize (Hw s (Hr s)). rewrite Ho in Hw. destruct Hw as (g' & HG & Hw).
    left. exists g', t. split; [by eapply list_elem_of_lookup_2|]. split; [done|].
    apply Forall2_same_length_lookup.
    pose proof (Forall2_length _ _ _ Hps). rewrite length_insert. split; [done|].
    intros j tj pj Htj Hpj.
    destruct (decide (i = j)) as [<-|Hne].
    + rewrite list_lookup_insert_eq in Hpj by (by apply lookup_lt_Some in Hi).
      by simplify_eq.
    + rewrite list_lookup_insert_ne in Hpj by done.
      pose proof (Hpre tj (list_elem_of_lookup_2 _ _ _ Htj)) as [_ Htr].
      eapply wp_rely; [exact Htr| |exact (Hc _ _ _ _ Ht Htj Hne _ _ HG)].
      eapply Forall2_lookup_lr in Hps; eauto.
  - right. destruct (Forall2_lookup_r _ _ _ _ _ Hps Hi) as (t & Ht & Hw).
    pose proof (Hpre t (list_elem_of_lookup_2 _ _ _ Ht)) as [Hr _].
    specialize (Hw s (Hr s)). rewrite Ho in Hw. eauto.
Qed.

(** When no thread may fault, the proofs of the threads hold together along
    every interleaving; [R0] is any preorder that contains all the
    guarantees. *)
Lemma wp_pool {A : Set} (R0 : cfg Gh -> cfg Gh -> Prop) (ts : list (thread_spec A)) ps ps' s tr m' :
  PreOrder R0 -> (forall t, t ∈ ts -> forall s s', ts_guar t s s' -> R0 s s') ->
  compatible ts ->
  (forall t, t ∈ ts -> PreOrder (ts_rely t)) ->
  (forall t, t ∈ ts -> ~ ts_err t Segfault) ->
  Forall2 (fun t p => ts_wp t p s) ts ps ->
  psteps (ps, cm s) tr (ps', m') ->
  exists g', R0 s (Cfg m' (tr ++ ctr s) g') /\
    Forall2 (fun t p => ts_wp t p (Cfg m' (tr ++ ctr s) g')) ts ps'.
Proof.
  intros HR0 Hguar Hc Hpre Herr Hps Hsteps.
  remember (ps, cm s) as c eqn:Ec. remember (ps', m') as c' eqn:Ec'.
  revert ps' m' Ec'. induction Hsteps as [|c tr c' ps1 m1 Hs IH Hstep]; intros ps' m' Ec'.
  - simplify_eq. exists (cg s). destruct s. by split.
  - simplify_eq. destruct c' as [ps2 m2].
    destruct (IH eq_refl _ _ eq_refl) as (g2 & Hr & Hf).
    destruct (wp_pool_step ts ps2 ps' (Cfg m2 (tr ++ ctr s) g2) m' Hc Hpre Hf Hstep)
      as [(g' & t & Ht & HG & Hf')|(i & t & Ht & He)].
    + exists g'. split; [|exact Hf']. etrans; [exact Hr|]. exact (Hguar t Ht _ _ HG).
    + exfalso. eapply Herr; [by eapply list_elem_of_lookup_2|done].
Qed.

End wp.

Arguments thread_spec Gh A : clear implicits.
Arguments ts_err {Gh A} _.
Arguments ts_rely {Gh A} _.
Arguments ts_guar {Gh A} _.
Arguments ts_post {Gh A} _.
