(* ===== verification/Events.v ===== *)
(** * Programs that call libraries

    [ewp] is [wp] for threads whose library calls have an effect: the ghost
    state holds the library's data, [ls] says how an operation changes them and
    [ena] when the library lets it go on; [ok] is promised of every operation
    where it is executed. *)
From S2P Require Import Prelude Mem RG.

Section ewp.
Context `{Calloc} {Gh : Set} (ena : op -> Gh -> Prop) (ls : op -> Gh -> Gh -> Prop).
Context (ok : op -> cfg Gh -> Prop) (E : err -> Prop) (R G : cfg Gh -> cfg Gh -> Prop).

Fixpoint ewp {A} (p : prog A) (Q : A -> cfg Gh -> Prop) (s : cfg Gh) : Prop :=
  match p with
  | Ret a => forall s', R s s' -> Q a s'
  | Crash e => E e
  | Vis o k => forall s', R s s' -> ok o s' /\ (ena o (cg s') ->
      match op_exec o (cm s') with
      | Some (r, m') => exists g', ls o (cg s') g' /\ G s' (next_cfg s' m' g') /\
                          ewp (k r) Q (next_cfg s' m' g')
      | None => E Segfault
      end)
  end.

Lemma ewp_post {A} (p : prog A) (Q Q' : A -> cfg Gh -> Prop) s :
  ewp p Q s -> (forall a s', Q a s' -> Q' a s') -> ewp p Q' s.
Proof.
  intros Hp HQ. revert s Hp. induction p as [a|e|o k IH]; intros s Hp; cbn in *; [eauto..|].
  intros s' Hs. destruct (Hp s' Hs) as [Hok He]. split; [done|]. intros Hen. specialize (He Hen). destruct (op_exec o (cm s')) as [[r m']|]; [|done].
  destruct He as (g' & Hl & HG & Hw). exists g'. eauto.
Qed.

Lemma ewp_rely {A} (p : prog A) Q s s' `{!Transitive R} : ewp p Q s -> R s s' -> ewp p Q s'.
Proof.
  intros Hp Hs. destruct p as [a|e|o k]; cbn in *; [|done|]; intros s'' Hs'; apply Hp; by etrans.
Qed.

Lemma ewp_bind {A B} (p : prog A) (f : A -> prog B) Q s `{!Reflexive R} :
  ewp p (fun a s' => ewp (f a) Q s') s -> ewp (p ≫= f) Q s.
Proof.
  revert s. induction p as [a|e|o k IH]; intros s Hp; cbn in *; [by apply Hp|done|].
  intros s' Hs. destruct (Hp s' Hs) as [Hok He]. split; [done|]. intros Hen. specialize (He Hen). destruct (op_exec o (cm s')) as [[r m']|]; [|done].
  destruct He as (g' & Hl & HG & Hw). exists g'. auto.
Qed.

(** A thread whose own steps are in its rely ends where it started, up to the
    rely. *)
Lemma ewp_track {A} (p : prog A) Q s (T : cfg Gh -> cfg Gh -> Prop) `{!PreOrder T} :
  (forall s s', R s s' -> T s s') -> (forall s s', G s s' -> T s s') ->
  ewp p Q s -> ewp p (fun a s' => T s s' /\ Q a s') s.
Proof.
  intros HR HG. revert s. induction p as [a|e|o k IH]; intros s Hp; cbn in *; [|done|].
  - intros s' Hs. split; [by apply HR|by apply Hp].
  - intros s' Hs. destruct (Hp s' Hs) as [Hok He]. split; [done|]. intros Hen. specialize (He Hen). destruct (op_exec o (cm s')) as [[r m']|]; [|done].
    destruct He as (g' & Hl & Hg & Hw). exists g'. split; [done|]. split; [done|].
    eapply ewp_post; [by apply IH|]. cbn beta. intros a s'' [Hr HQ]. split; [|done].
    etrans; [by apply HR|]. etrans; [by apply HG|done].
Qed.

End ewp.

(** One step. *)
Lemma ewp_step `{Calloc} {Gh : Set} ena ls ok E (R G : cfg Gh -> cfg Gh -> Prop) `{!PreOrder R} {A} o (k : Z -> prog A) Q s :
  ewp ena ls ok E R G (Vis o k) Q s -> ena o (cg s) -> ~ E Segfault ->
  exists r m' g', op_exec o (cm s) = Some (r, m') /\ ls o (cg s) g' /\ ok o s /\
    G s (next_cfg s m' g') /\ ewp ena ls ok E R G (k r) Q (next_cfg s m' g').
Proof.
  intros Hp Hen HE. destruct (Hp s ltac:(done)) as [Hok He]. specialize (He Hen). destruct (op_exec o (cm s)) as [[r m']|]; [|done].
  destruct He as (g' & ? & ? & ?). by exists r, m', g'.
Qed.

Lemma ewp_no_fault `{Calloc} {Gh : Set} ena ls ok E (R G : cfg Gh -> cfg Gh -> Prop) `{!PreOrder R} {A} o (k : Z -> prog A) Q s :
  ewp ena ls ok E R G (Vis o k) Q s -> ena o (cg s) -> ~ E Segfault -> op_exec o (cm s) <> None.
Proof. intros Hp Hen HE. destruct (ewp_step _ _ _ _ _ _ _ _ _ _ Hp Hen HE) as (r & m' & g' & Ho & _). by rewrite Ho. Qed.

(** A step that keeps an invariant and, where it held, makes [P] true. *)
Definition preserves {Gh : Set} (I : cfg Gh -> Prop) (P : cfg Gh -> cfg Gh -> Prop) (s s' : cfg Gh) : Prop :=
  I s -> I s' /\ P s s'.

#[export] Instance preserves_preorder {Gh : Set} (I : cfg Gh -> Prop) P : PreOrder P -> PreOrder (preserves I P).
Proof.
  intros HP. split; [by intros s Hs|]. intros s1 s2 s3 H12 H23 H1.
  destruct (H12 H1) as [H2 P12]. destruct (H23 H2) as [H3 P23]. split; [done|]. by etrans.
Qed.

(** ** Executions of a machine

    A step comes with the stores it passes through, and so does an execution,
    the newest first. *)
Section runs.
Context {C : Type} (step : C -> list mem -> C -> Prop).

Inductive runs : C -> list mem -> C -> Prop :=
  | runs_refl c : runs c [] c
  | runs_snoc c tr c1 new c2 : runs c tr c1 -> step c1 new c2 -> runs c (new ++ tr) c2.

Lemma runs_trans c1 tr1 c2 tr2 c3 : runs c1 tr1 c2 -> runs c2 tr2 c3 -> runs c1 (tr2 ++ tr1) c3.
Proof. intros H1 H2. induction H2 as [|c tr c' new c'' _ IH Hs]; [done|]. rewrite <- app_assoc. eapply runs_snoc; [by apply IH|done]. Qed.

Lemma runs_step c new c' : step c new c' -> runs c new c'.
Proof. intros Hs. rewrite <- (app_nil_r new). eapply runs_snoc; [apply runs_refl|done]. Qed.

(** A chosen execution; what cannot be done is skipped. *)
Context {Ev : Type} (act : Ev -> C -> option (list mem * C)).

Fixpoint run_events (es : list Ev) (c : C) (tr : list mem) : C * list mem :=
  match es with
  | [] => (c, tr)
  | e :: es =>
      match act e c with
      | Some (new, c') => run_events es c' (new ++ tr)
      | None => run_events es c tr
      end
  end.

Lemma run_events_runs (Hact : forall e c new c', act e c = Some (new, c') -> step c new c') es :
  forall c0 c tr, runs c0 tr c -> runs c0 (run_events es c tr).2 (run_events es c tr).1.
Proof.
  induction es as [|e es IH]; intros c0 c tr Hc; simpl; [done|].
  destruct (act e c) as [[new c']|] eqn:He; [|by apply IH]. apply IH. eapply runs_snoc; [done|]. by apply (Hact e).
Qed.

End runs.
