(* ===== verification/Locking.v ===== *)
(** * Threads with the locks of pthread

    What pthread promises of its locks, as a machine: a lock is held by one
    thread exclusively or by any number of threads together; a thread that asks
    for a lock it cannot have waits; releasing a lock that one does not hold is
    undefined behaviour, an error here. *)
From S2P Require Import Prelude Mem RG Events.

(** ** Locks

    Who holds which lock exclusively, and who holds which together with others. *)
Record locks : Set := Locks { excl : gmap loc nat; shared : gset (loc * nat) }.

Definition holds (t : nat) (l : loc) (L : locks) : Prop := excl L !! l = Some t \/ (l, t) ∈ shared L.

Definition holders (l : loc) (L : locks) : gset (loc * nat) := filter (fun h => h.1 = l) (shared L).

(** The effect of an operation, if it can go on. *)
Definition lock_step (t : nat) (o : op) (L : locks) : option locks :=
  match o with
  | LibCall (LockAcquire true l) =>
      if decide (excl L !! l = None /\ holders l L = ∅) then Some (Locks (<[l := t]> (excl L)) (shared L)) else None
  | LibCall (LockAcquire false l) =>
      if decide (excl L !! l = None) then Some (Locks (excl L) ({[(l, t)]} ∪ shared L)) else None
  | LibCall (LockRelease l) =>
      if decide (excl L !! l = Some t) then Some (Locks (delete l (excl L)) (shared L))
      else if decide ((l, t) ∈ shared L) then Some (Locks (excl L) (shared L ∖ {[(l, t)]}))
      else None
  | _ => Some L
  end.

Definition acquires (o : op) : Prop := match o with LibCall (LockAcquire _ _) => True | _ => False end.

#[export] Instance acquires_dec o : Decision (acquires o).
Proof. destruct o as [| | | | | | | | | | | |[]]; apply _. Defined.

(** ** The machine *)
Record lmachine (A : Type) : Type := LMachine { lthreads : list (prog A); llocks : locks; lmemory : mem }.
Arguments LMachine {A} _ _ _.
Arguments lthreads {A} _.
Arguments llocks {A} _.
Arguments lmemory {A} _.

Section machine.
Context `{Calloc} {A : Type}.

(** A step, with the store it passes through. *)
Inductive lstep : lmachine A -> list mem -> lmachine A -> Prop :=
  | lo_op ps L m i o k r m' L' : ps !! i = Some (Vis o k) -> op_exec o m = Some (r, m') ->
      lock_step i o L = Some L' -> lstep (LMachine ps L m) [m'] (LMachine (<[i := k r]> ps) L' m')
  | lo_fault ps L m i o k : ps !! i = Some (Vis o k) -> op_exec o m = None ->
      lstep (LMachine ps L m) [m] (LMachine (<[i := Crash Segfault]> ps) L m)
  | lo_undefined ps L m i o k : ps !! i = Some (Vis o k) -> lock_step i o L = None -> ~ acquires o ->
      lstep (LMachine ps L m) [m] (LMachine (<[i := Crash Aborted]> ps) L m).

(** The step of the thread [i], if it does not wait. *)
Definition lmach_do (i : nat) (c : lmachine A) : option (list mem * lmachine A) :=
  let '(LMachine ps L m) := c in
  match ps !! i with
  | Some (Vis o k) =>
      match op_exec o m with
      | None => Some ([m], LMachine (<[i := Crash Segfault]> ps) L m)
      | Some (r, m') =>
          match lock_step i o L with
          | Some L' => Some ([m'], LMachine (<[i := k r]> ps) L' m')
          | None => if decide (acquires o) then None else Some ([m], LMachine (<[i := Crash Aborted]> ps) L m)
          end
      end
  | _ => None
  end.

Lemma lmach_do_step i c new c' : lmach_do i c = Some (new, c') -> lstep c new c'.
Proof.
  destruct c as [ps L m]. simpl. destruct (ps !! i) as [[|?|o k]|] eqn:Hi; try done.
  destruct (op_exec o m) as [[r m']|] eqn:Ho; [|intros [= <- <-]; by eapply lo_fault].
  destruct (lock_step i o L) as [L'|] eqn:Hl; [intros [= <- <-]; by eapply lo_op|].
  case_decide; [done|]. intros [= <- <-]. by eapply lo_undefined.
Qed.

End machine.

Abbreviation lruns := (runs lstep).
Abbreviation lmach_run := (run_events lmach_do).

(** ** Facts about locks *)

(** A lock is not held exclusively and by others. *)
Definition exclusive (L : locks) : Prop := forall l t u, excl L !! l = Some t -> (l, u) ∉ shared L.

(** The thread [t] holds the same locks, in the same way. *)
Definition same_holds (t : nat) (L L' : locks) : Prop := forall l,
  (excl L' !! l = Some t <-> excl L !! l = Some t) /\ ((l, t) ∈ shared L' <-> (l, t) ∈ shared L).

#[export] Instance same_holds_preorder t : PreOrder (same_holds t).
Proof.
  split; [by intros L|]. intros L1 L2 L3 H12 H23 l. destruct (H12 l) as [A B], (H23 l) as [C D].
  by rewrite C, D.
Qed.

Lemma same_holds_iff t L L' l : same_holds t L L' -> holds t l L' <-> holds t l L.
Proof. intros H. destruct (H l) as [H1 H2]. unfold holds. by rewrite H1, H2. Qed.

Lemma holders_none l L u : holders l L = ∅ -> (l, u) ∉ shared L.
Proof.
  intros He Hin. assert (Hx : (l, u) ∈ holders l L) by (by apply elem_of_filter). by rewrite He in Hx.
Qed.

Lemma lock_step_exclusive t o L L' : lock_step t o L = Some L' -> exclusive L -> exclusive L'.
Proof.
  intros Hs HL. destruct o as [| | | | | | | | | | | |[| | |[] l|l]]; cbn in Hs; try (by injection Hs as <-);
    repeat case_decide; try done; injection Hs as <-; intros l' t' u; cbn.
  - intros [[<- <-]|[Hne Hl]]%lookup_insert_Some; [apply holders_none; tauto|by eapply HL].
  - intros Hl [[= -> ->]%elem_of_singleton|Hin]%elem_of_union; [congruence|by eapply HL].
  - intros [_ Hl]%lookup_delete_Some. by eapply HL.
  - intros Hl [Hin _]%elem_of_difference. by eapply HL.
Qed.

(** Other threads keep what they hold. *)
Lemma lock_step_others t o L L' u : lock_step t o L = Some L' -> u <> t -> same_holds u L L'.
Proof.
  intros Hs Hne l0. destruct o as [| | | | | | | | | | | |[| | |[] l|l]]; cbn in Hs; try (by injection Hs as <-);
    repeat case_decide; try done; injection Hs as <-; cbn; (split; [|set_solver]); try done.
  - destruct (decide (l = l0)) as [<-|Hl]; [|by rewrite lookup_insert_ne]. rewrite lookup_insert_eq. naive_solver.
  - destruct (decide (l = l0)) as [<-|Hl]; [|by rewrite lookup_delete_ne]. rewrite lookup_delete_eq. naive_solver.
Qed.

(** Who waits waits for somebody. *)
Lemma blocked_holder t o L : acquires o -> lock_step t o L = None -> exists u l, holds u l L.
Proof.
  intros Ha Hs. destruct o as [| | | | | | | | | | | |[| | |[] l|l]]; cbn in Hs; try done; case_decide as Hd; try done.
  - destruct (excl L !! l) as [u|] eqn:He; [exists u, l; by left|].
    destruct (set_choose_or_empty (holders l L)) as [[x Hx]|Hx]; [|by destruct Hd; split; [|apply leibniz_equiv]].
    apply elem_of_filter in Hx as [<- Hx]. exists x.2, x.1. right. by destruct x.
  - destruct (excl L !! l) as [u|] eqn:He; [exists u, l; by left|done].
Qed.

(** A step makes nobody else a holder. *)
Lemma lock_step_owner t o L L' u l : lock_step t o L = Some L' -> holds u l L' -> u = t \/ holds u l L.
Proof.
  intros Hs Hu. destruct (decide (u = t)) as [|Hne]; [by left|right].
  apply (same_holds_iff u L L' l); [|exact Hu]. by eapply lock_step_others.
Qed.

(** ** Every execution ends

    A program is a finite tree: each step leaves less of it. *)
Definition rest {A} (q p : prog A) : Prop :=
  exists o k, p = Vis o k /\ ((exists r, q = k r) \/ exists e, q = Crash e).

Definition pool_rest {A} (qs ps : list (prog A)) : Prop :=
  exists i p q, ps !! i = Some p /\ rest q p /\ qs = <[i := q]> ps.

Lemma rest_wf {A} (p : prog A) : Acc rest p.
Proof.
  induction p as [a|e|o k IH]; constructor; intros q (o' & k' & Hp & Hq); [discriminate..|].
  injection Hp as <- <-. destruct Hq as [[r ->]|[e ->]]; [apply IH|]. constructor. intros q' (? & ? & ? & _). discriminate.
Qed.

Lemma pool_rest_wf {A} (ps : list (prog A)) : Acc pool_rest ps.
Proof.
  induction ps as [|p ps IHps]; [constructor; by intros qs (i & p & q & Hi & _)|].
  revert ps IHps. induction (rest_wf p) as [p _ IHp]. intros ps Hps. induction Hps as [ps Hps IH].
  constructor. intros qs ([|i] & p' & q & Hi & Hr & ->); cbn in *.
  - injection Hi as <-. by apply IHp.
  - apply IH. by exists i, p', q.
Qed.

Lemma lstep_rest `{Calloc} {A} (c c' : lmachine A) new : lstep c new c' -> pool_rest (lthreads c') (lthreads c).
Proof.
  destruct 1 as [ps L m i o k r m' L' Hp _ _|ps L m i o k Hp _|ps L m i o k Hp _ _]; cbn; exists i, (Vis o k); eexists;
    (split; [done|]); (split; [|done]); exists o, k; eauto.
Qed.

Lemma lstep_wf `{Calloc} {A} (c : lmachine A) : Acc (fun c' c => exists new, lstep c new c') c.
Proof.
  remember (lthreads c) as ps eqn:Hps. revert c Hps. induction (pool_rest_wf ps) as [ps _ IH]. intros c ->.
  constructor. intros c' [new Hs]. eapply IH; [by eapply lstep_rest|done].
Qed.

(** ** Who cannot go on *)

(** The threads that do not return wait for each other. *)
Lemma stuck_waits `{Calloc} {A} (c : lmachine A) i o k : lthreads c !! i = Some (Vis o k) -> lmach_do i c = None ->
  acquires o /\ lock_step i o (llocks c) = None.
Proof.
  destruct c as [ps L m]. cbn. intros ->. destruct (op_exec o m) as [[r m']|]; [|done].
  destruct (lock_step i o L); [done|]. by case_decide.
Qed.
