(* ===== verification/SWP.v ===== *)
(** * Symbolic execution of a thread that owns what it works on

    [swp vol E SG p Q m g] executes [p] symbolically from the store [m]: every
    operation must take a step allowed by the guarantee [SG].  [vol] tells the
    locations that other threads may write; the program never writes them, and
    a load from one of them may return any value.  [swp_run] gives the
    sequential execution, [swp_wp] the rely-guarantee triple of the same
    program among threads that only write to [vol]. *)
From S2P Require Import Prelude Mem RG.

(** The part of the store that no other thread writes. *)
Definition private_part (vol : loc -> bool) (m : mem) : mem :=
  filter (fun lv => vol lv.1 = false) m.

(** The location an operation writes. *)
Definition op_writes (o : op) : option loc :=
  match o with
  | Store l _ | CmpXchg l _ _ | XAdd l _ | Xchg l _ => Some l
  | _ => None
  end.

Section swp.
Context {Gh : Set}.
Context (vol : loc -> bool) (E : err -> Prop) (SG : mem -> Gh -> mem -> Gh -> Prop).

(** [op_exec] for the operations that do not ask the library for memory. *)
Definition op_det (o : op) (m : mem) : option (Z * mem) :=
  op_exec (H := fun _ => 0) o m.

Fixpoint swp {A} (p : prog A) (Q : A -> mem -> Gh -> Prop) (m : mem) (g : Gh) : Prop :=
  match p with
  | Ret a => Q a m g
  | Crash e => E e
  | Vis o k =>
      match o with
      | CallocNode => forall a, 0 < a -> a mod CACHESIZE = 0 -> fresh_block m a ->
          exists g', SG m g (calloc_block a m) g' /\ swp (k a) Q (calloc_block a m) g'
      | FreeNode _ | CallocHeads _ | CallocLocks _ | FreeHeads | FreeLocks => False
      | _ =>
          match o with Load l => vol l = true /\ is_static l = true | _ => False end /\
            (forall v, exists g', SG m g m g' /\ swp (k v) Q m g') \/
          match o with Load l => vol l = false | _ => True end /\
          match op_writes o with Some l => vol l = false | None => True end /\
          exists r m', op_det o m = Some (r, m') /\
            exists g', SG m g m' g' /\ swp (k r) Q m' g'
      end
  end.

(** ** Rules *)

Lemma swp_mono {A} (p : prog A) (Q Q' : A -> mem -> Gh -> Prop) m g :
  swp p Q m g -> (forall a m' g', Q a m' g' -> Q' a m' g') -> swp p Q' m g.
Proof.
  intros Hp HQ. revert m g Hp. induction p as [a|e|o k IH]; intros m g Hp; cbn in *; [eauto..|].
  destruct o; naive_solver.
Qed.

Lemma swp_bind {A B} (p : prog A) (f : A -> prog B) Q m g :
  swp p (fun a m' g' => swp (f a) Q m' g') m g -> swp (p ≫= f) Q m g.
Proof.
  revert m g. induction p as [a|e|o k IH]; intros m g Hp; cbn in *; [done..|].
  destruct o; naive_solver.
Qed.

Lemma swp_bind_ret {A} (p : prog A) Q m g : swp (p ≫= fun a => Ret a) Q m g -> swp p Q m g.
Proof.
  revert m g. induction p as [a|e|o k IH]; intros m g Hp; cbn in *; [done..|].
  destruct o; naive_solver.
Qed.

Lemma swp_ret {A} (a : A) (Q : A -> mem -> Gh -> Prop) m g : Q a m g -> swp (Ret a) Q m g.
Proof. done. Qed.

(** A load may come with a step of the ghost state. *)
Lemma swp_load_gh {A} l v (k : Z -> prog A) Q m g g' :
  mget m l = Some v -> vol l = false -> SG m g m g' -> swp (k v) Q m g' ->
  swp (load l ≫= k) Q m g.
Proof. intros Hl Hv Hg Hk. right. cbn. rewrite Hl. cbn. naive_solver. Qed.

Lemma swp_load {A} l v (k : Z -> prog A) Q m g :
  mget m l = Some v -> vol l = false -> SG m g m g -> swp (k v) Q m g ->
  swp (load l ≫= k) Q m g.
Proof. apply swp_load_gh. Qed.

Lemma swp_load_vol {A} l (k : Z -> prog A) Q m g :
  is_static l = true -> vol l = true -> SG m g m g -> (forall v, swp (k v) Q m g) ->
  swp (load l ≫= k) Q m g.
Proof. intros Hl Hv Hg Hk. left. split; [done|]. eauto. Qed.

Lemma swp_store_gh {A} l v w (k : unit -> prog A) Q m g g' :
  mget m l = Some w -> vol l = false -> SG m g (<[l:=v]> m) g' ->
  swp (k tt) Q (<[l:=v]> m) g' -> swp (store l v ≫= k) Q m g.
Proof. intros Hl Hv Hg Hk. right. cbn. rewrite Hl. cbn. naive_solver. Qed.

Lemma swp_store {A} l v w (k : unit -> prog A) Q m g :
  mget m l = Some w -> vol l = false -> SG m g (<[l:=v]> m) g ->
  swp (k tt) Q (<[l:=v]> m) g -> swp (store l v ≫= k) Q m g.
Proof. apply swp_store_gh. Qed.

Lemma swp_fence {A} b (k : unit -> prog A) Q m g :
  SG m g m g -> swp (k tt) Q m g -> swp (fence b ≫= k) Q m g.
Proof. intros Hg Hk. right. cbn. naive_solver. Qed.

Lemma swp_xadd {A} l d v (k : Z -> prog A) Q m g g' :
  mget m l = Some v -> vol l = false -> SG m g (<[l := u64 (v + d)]> m) g' ->
  swp (k v) Q (<[l := u64 (v + d)]> m) g' -> swp (atomic_xadd4 l d ≫= k) Q m g.
Proof. intros Hl Hv Hg Hk. right. cbn. rewrite Hl. cbn. naive_solver. Qed.

Lemma swp_xchg {A} l w v (k : Z -> prog A) Q m g g' :
  mget m l = Some v -> vol l = false -> SG m g (<[l := w]> m) g' ->
  swp (k v) Q (<[l := w]> m) g' -> swp (atomic_xchg4 l w ≫= k) Q m g.
Proof. intros Hl Hv Hg Hk. right. cbn. rewrite Hl. cbn. naive_solver. Qed.

Lemma swp_quiet {A B} (p : prog A) (k : A -> prog B) Q m g :
  quiet p -> SG m g m g -> (forall a, swp (k a) Q m g) -> swp (p ≫= k) Q m g.
Proof.
  intros Hq Hg Hk. apply swp_bind. induction p as [a|e|o k' IH]; cbn in *; [done|done|].
  destruct o; try done; right; cbn; naive_solver.
Qed.

(** A compare-and-swap on memory nobody else writes always succeeds. *)
Lemma swp_cas {A} l v w (k : bool -> prog A) Q m g g' :
  mget m l = Some v -> vol l = false -> SG m g (<[l := w]> m) g' ->
  swp (k true) Q (<[l := w]> m) g' -> swp (CAS l v w ≫= k) Q m g.
Proof.
  intros Hl Hv Hg Hk. right. cbn. rewrite Hl. cbn. rewrite decide_True by done.
  split; [done|]. split; [done|]. exists v, (<[l:=w]> m). split; [done|]. exists g'.
  split; [done|]. by rewrite Z.eqb_refl.
Qed.

Lemma swp_calloc {A} (k : Z -> prog A) Q m g :
  (forall a, 0 < a -> a mod CACHESIZE = 0 -> fresh_block m a ->
     SG m g (calloc_block a m) g /\ swp (k a) Q (calloc_block a m) g) ->
  swp (do_op CallocNode ≫= k) Q m g.
Proof. intros Hk a H1 H2 H3. destruct (Hk a H1 H2 H3) as [? ?]. eauto. Qed.

End swp.

(** ** Adequacy *)

Section private.
Context (vol : loc -> bool).

Lemma private_lookup m l : vol l = false -> private_part vol m !! l = m !! l.
Proof.
  intros Hl. unfold private_part. destruct (m !! l) as [v|] eqn:Hm.
  - by apply map_lookup_filter_Some.
  - apply map_lookup_filter_None. by left.
Qed.

Lemma private_mget m l : vol l = false -> mget (private_part vol m) l = mget m l.
Proof. intros Hl. unfold mget. by rewrite private_lookup. Qed.

Lemma private_insert m l v : vol l = false ->
  private_part vol (<[l:=v]> m) = <[l:=v]> (private_part vol m).
Proof. intros Hl. unfold private_part. by rewrite map_filter_insert_True. Qed.

Lemma private_ext m m' : (forall l, vol l = false -> m' !! l = m !! l) ->
  private_part vol m' = private_part vol m.
Proof.
  intros He. apply map_eq. intros l. destruct (vol l) eqn:Hl.
  - unfold private_part. transitivity (@None Z).
    + apply map_lookup_filter_None. right. intros ? _. cbn. congruence.
    + symmetry. apply map_lookup_filter_None. right. intros ? _. cbn. congruence.
  - rewrite !private_lookup by done. auto.
Qed.

Lemma private_calloc p m : (forall f, f ∈ node_fields -> vol (f p) = false) ->
  private_part vol (calloc_block p m) = calloc_block p (private_part vol m).
Proof.
  intros Hf. unfold calloc_block, node_fields in *. simpl.
  rewrite !private_insert by (apply Hf; set_solver). done.
Qed.

Lemma private_fresh p m : (forall f, f ∈ node_fields -> vol (f p) = false) ->
  fresh_block m p -> fresh_block (private_part vol m) p.
Proof.
  intros Hv Hf. unfold fresh_block in *. rewrite Forall_forall in Hf |- *.
  intros f Hin. rewrite private_lookup by auto. auto.
Qed.

End private.

(** Other threads only write to [vol]. *)
Definition wrely {Gh : Set} (vol : loc -> bool) (s s' : cfg Gh) : Prop :=
  cg s' = cg s /\ suffix (ctr s) (ctr s') /\
  (forall l, vol l = false -> cm s' !! l = cm s !! l).

#[export] Instance wrely_preorder {Gh : Set} vol : PreOrder (@wrely Gh vol).
Proof.
  split.
  - intros s. split_and!; done.
  - intros s1 s2 s3 (H1 & H2 & H3) (H4 & H5 & H6).
    split_and!; [congruence|by etrans|]. intros l Hl. by rewrite H6, H3.
Qed.

(** The guarantee [SG] on the part of the store the thread owns. *)
Definition wguar {Gh : Set} (vol : loc -> bool) (SG : mem -> Gh -> mem -> Gh -> Prop)
    (s s' : cfg Gh) : Prop :=
  ctr s' = cm s' :: ctr s /\ (forall l, vol l = true -> cm s' !! l = cm s !! l) /\
  SG (private_part vol (cm s)) (cg s) (private_part vol (cm s')) (cg s').

Section adequacy.
Context `{Calloc} {HC : CallocTotal} {Gh : Set}.
Context (vol : loc -> bool) (Hvol : forall p f, f ∈ node_fields -> vol (f p) = false).
Context (E : err -> Prop) (SG : mem -> Gh -> mem -> Gh -> Prop).

(** An operation on the whole store does to the private part what it does to
    the private part alone. *)
Lemma op_det_private o m r m' :
  match o with CallocNode | FreeNode _ | CallocHeads _ | CallocLocks _ | FreeHeads | FreeLocks => False | Load l => vol l = false | _ => True end ->
  match op_writes o with Some l => vol l = false | None => True end ->
  op_det o (private_part vol m) = Some (r, m') ->
  exists m1, op_exec o m = Some (r, m1) /\ private_part vol m1 = m' /\
    (forall l, vol l = true -> m1 !! l = m !! l).
Proof.
  destruct o as [l|l v|l a b|l d|l v| |p|n|n| | |b|c]; cbn; intros Ho Hw Hx; try done.
  - rewrite private_mget in Hx by done. destruct (mget m l) as [v|]; simplify_eq/=. eauto.
  - rewrite private_mget in Hx by done. destruct (mget m l) as [w|]; simplify_eq/=.
    eexists. split; [done|]. split; [by apply private_insert|].
    intros l' Hl'. rewrite lookup_insert_ne; [done|]. intros ->. congruence.
  - rewrite private_mget in Hx by done. destruct (mget m l) as [w|]; simplify_eq/=.
    eexists. split; [done|]. case_decide; [|done]. split; [by apply private_insert|].
    intros l' Hl'. rewrite lookup_insert_ne; [done|]. intros ->. congruence.
  - rewrite private_mget in Hx by done. destruct (mget m l) as [w|]; simplify_eq/=.
    eexists. split; [done|]. split; [by apply private_insert|].
    intros l' Hl'. rewrite lookup_insert_ne; [done|]. intros ->. congruence.
  - rewrite private_mget in Hx by done. destruct (mget m l) as [w|]; simplify_eq/=.
    eexists. split; [done|]. split; [by apply private_insert|].
    intros l' Hl'. rewrite lookup_insert_ne; [done|]. intros ->. congruence.
  - simplify_eq. eauto.
  - simplify_eq. eauto.
Qed.

Lemma swp_wp {A} (p : prog A) Q s :
  swp vol E SG p Q (private_part vol (cm s)) (cg s) ->
  wp E (wrely vol) (wguar vol SG) p
    (fun a s' => Q a (private_part vol (cm s')) (cg s')) s.
Proof.
  revert s. induction p as [a|e|o k IH]; intros s Hp; cbn in *.
  - intros s' (Hg & _ & Hm). by rewrite Hg, (private_ext vol _ _ Hm).
  - done.
  - intros s' (Hg & _ & Hm). apply (private_ext vol) in Hm. rewrite <- Hg, <- Hm in Hp.
    clear Hg Hm s. destruct o as [l|l v|l a b|l d|l v| |p|n|n| | |b|c]; try done.
    2-5,7-8: destruct Hp as [[[] _]|(Hl & Hw & r & m' & Hx & g' & HG & Hk)];
      apply op_det_private in Hx as (m1 & Hx & <- & Hv); [|done|done];
      rewrite Hx; exists g'; split; [by split|by apply IH].
    + destruct Hp as [[[Hl Hst] Hk]|(Hl & Hw & r & m' & Hx & g' & HG & Hk)].
      * cbn. destruct (mget_static (cm s') l Hst) as [v ->]. cbn.
        destruct (Hk v) as (g' & HG & Hw). exists g'. split; [by split|]. by apply IH.
      * apply op_det_private in Hx as (m1 & Hx & <- & Hv); [|done|done].
        rewrite Hx. exists g'. split; [by split|]. by apply IH.
    + cbn. destruct (calloc_total (cm s')) as (H1 & H2 & H3).
      rewrite decide_False by lia.
      destruct (Hp _ H1 H2 (private_fresh vol _ _ (Hvol _) H3)) as (g' & HG & Hk).
      rewrite <- private_calloc in HG, Hk by auto. exists g'. split; [|by apply IH].
      split_and!; [done| |done]. intros l Hl. apply calloc_block_lookup_ne.
      intros f Hf ->. rewrite Hvol in Hl by done. done.
Qed.

Lemma op_det_frame o m r m' l :
  match o with FreeNode _ | CallocHeads _ | CallocLocks _ | FreeHeads | FreeLocks => False | _ => True end ->
  match op_writes o with Some l => vol l = false | None => True end ->
  op_det o m = Some (r, m') -> vol l = true -> m' !! l = m !! l.
Proof.
  intros Ho Hw Hx Hl. destruct o as [l'|l' v|l' a b|l' d|l' v| |p|n|n| | |b|c]; cbn in *; try done.
  1-5: destruct (mget m l') as [w|]; simplify_eq/=; try case_decide; try done;
    rewrite lookup_insert_ne by (intros ->; congruence); done.
  all: by simplify_eq.
Qed.

Lemma swp_run {A} (p : prog A) Q m g :
  swp vol E SG p Q m g ->
  match run p m with
  | Ok a m' => (forall l, vol l = true -> m' !! l = m !! l) /\
      exists g', Q a m' g' /\ rtc (fun c c' => SG c.1 c.2 c'.1 c'.2) (m, g) (m', g')
  | Err e _ => E e
  end.
Proof.
  revert m g. induction p as [a|e|o k IH]; intros m g Hp; cbn in *.
  - split; [done|]. exists g. split; [done|]. constructor.
  - done.
  - assert (Hs : exists r m' g', op_exec o m = Some (r, m') /\ SG m g m' g' /\
      (forall l, vol l = true -> m' !! l = m !! l) /\ swp vol E SG (k r) Q m' g').
    { destruct o as [l|l v|l a b|l d|l v| |p|n|n| | |b|c]; try done.
      2-5,7-8: destruct Hp as [[[] _]|(_ & Hw & r & m' & Hx & g' & HG & Hk)];
        exists r, m', g'; split_and!; [done|done| |done]; intros l0 Hl0; (eapply op_det_frame; [| |exact Hx|]; done).
      - destruct Hp as [[[Hl Hst] Hk]|(_ & _ & r & m' & Hx & g' & HG & Hk)].
        + destruct (mget_static m l Hst) as [v Hv]. destruct (Hk v) as (g' & HG & Hw).
          exists v, m, g'. cbn. by rewrite Hv.
        + exists r, m', g'. split_and!; [done|done| |done]. intros l0 Hl0. (eapply op_det_frame; [| |exact Hx|]; done).
      - destruct (calloc_total m) as (H1 & H2 & H3). destruct (Hp _ H1 H2 H3) as (g' & HG & Hk).
        exists (calloc_addr m), (calloc_block (calloc_addr m) m), g'. cbn.
        rewrite decide_False by lia. split_and!; [done|done| |done].
        intros l Hl. apply calloc_block_lookup_ne. intros f Hf ->. rewrite Hvol in Hl by done. done. }
    destruct Hs as (r & m' & g' & -> & HG & Hv & Hk). apply IH in Hk.
    destruct (run (k r) m'); [|done]. destruct Hk as [Hv' (g'' & HQ & Hr)]. split.
    + intros l Hl. by rewrite Hv', Hv.
    + exists g''. split; [done|]. eapply rtc_l; [|exact Hr]. exact HG.
Qed.

End adequacy.
