(* ===== verification/Table.v ===== *)
(** * The hash table in memory

    Representation of the bucket lists of [struct hash] in the store, the
    abstract table they stand for, the invariant [Inv] that every write of an
    updater keeps, and the writes ([list_step]) an updater makes to the
    lists. *)
From S2P Require Import Prelude Mem.

(** ** Linked paths

    [path f m l xs]: starting from the pointer stored at location [l] and
    following the field [f], one visits exactly the nodes [xs], then NULL. *)
Fixpoint path (f : Z -> loc) (m : mem) (l : loc) (xs : list Z) : Prop :=
  match xs with
  | [] => mget m l = Some NULL
  | x :: xs' => mget m l = Some x /\ x <> NULL /\ path f m (f x) xs'
  end.

(** The location that holds the pointer to what follows [pre]: what the C code
    keeps in its variable [prev]. *)
Definition cell (f : Z -> loc) (l : loc) (pre : list Z) : loc :=
  match last pre with Some x => f x | None => l end.

(** A path without its first pointer. *)
Definition tail_path (f : Z -> loc) (m : mem) (xs : list Z) : Prop :=
  match xs with [] => True | x :: xs' => x <> NULL /\ path f m (f x) xs' end.

Section path.
Context (f : Z -> loc).

Lemma path_alt m l xs : path f m l xs <-> mget m l = Some (hd0 xs) /\ tail_path f m xs.
Proof. destruct xs; simpl; naive_solver. Qed.

Lemma path_hd m l xs : path f m l xs -> mget m l = Some (hd0 xs).
Proof. intros Hp. by apply path_alt in Hp as [? _]. Qed.

Lemma path_det m l xs ys : path f m l xs -> path f m l ys -> xs = ys.
Proof.
  revert l ys. induction xs as [|x xs IH]; intros l [|y ys]; simpl; [done|naive_solver..|].
  intros (H1 & _ & H2) (H3 & _ & H4). simplify_eq. f_equal. eauto.
Qed.

Lemma path_agree m m' l xs :
  (forall l', l' = l \/ (exists x, x ∈ xs /\ l' = f x) -> mget m' l' = mget m l') ->
  path f m l xs -> path f m' l xs.
Proof.
  revert l. induction xs as [|x xs IH]; intros l Hag; simpl.
  - by rewrite Hag by auto.
  - intros (H1 & H2 & H3). split_and!; [by rewrite Hag by auto|done|].
    apply IH; [|done]. intros l' [->|(y & Hy & ->)]; apply Hag; right; set_solver.
Qed.

Lemma tail_path_agree m m' xs :
  (forall x, x ∈ xs -> mget m' (f x) = mget m (f x)) ->
  tail_path f m xs -> tail_path f m' xs.
Proof.
  destruct xs as [|x xs]; [done|]. simpl. intros Hag [? Hp]. split; [done|].
  eapply path_agree; [|done]. intros l' [->|(y & Hy & ->)]; apply Hag; set_solver.
Qed.

Lemma cell_nil l : cell f l [] = l.
Proof. done. Qed.

Lemma cell_snoc l pre x : cell f l (pre ++ [x]) = f x.
Proof. unfold cell. by rewrite last_snoc. Qed.

Lemma cell_cons l x pre : cell f l (x :: pre) = cell f (f x) pre.
Proof. unfold cell. rewrite last_cons. by destruct (last pre). Qed.

Lemma cell_elem l pre : cell f l pre = l \/ (exists x, x ∈ pre /\ cell f l pre = f x).
Proof.
  destruct pre as [|x pre _] using rev_ind; [by left|]. right. exists x.
  rewrite cell_snoc. set_solver.
Qed.

Lemma path_cell m l pre suf : path f m l (pre ++ suf) -> path f m (cell f l pre) suf.
Proof.
  revert l. induction pre as [|x pre IH]; intros l; simpl; [done|].
  intros (_ & _ & Hp). rewrite cell_cons. auto.
Qed.

Lemma path_nonnull m l xs x : path f m l xs -> x ∈ xs -> x <> NULL.
Proof.
  revert l. induction xs as [|y xs IH]; intros l; simpl; [set_solver|].
  intros (_ & Hy & Hp) [->|Hx]%elem_of_cons; eauto.
Qed.

(** Writing to the cell after [pre] replaces what follows [pre]. *)
Lemma path_set m l pre suf suf' :
  path f m l (pre ++ suf) -> NoDup (l :: (f <$> pre)) ->
  (forall y, y ∈ suf' -> f y <> cell f l pre) -> tail_path f m suf' ->
  path f (<[cell f l pre := hd0 suf']> m) l (pre ++ suf').
Proof.
  revert l. induction pre as [|x pre IH]; intros l; simpl.
  - intros _ _ Hne Ht. rewrite cell_nil in *. apply path_alt. split; [apply mget_insert|].
    eapply tail_path_agree; [|done]. intros x Hx. by rewrite mget_insert_ne by naive_solver.
  - intros (H1 & H2 & H3) Hnd Hne Ht. rewrite cell_cons in *. inversion Hnd as [|? ? Hni Hnd']; subst.
    split_and!; [|done|by apply IH].
    rewrite mget_insert_ne; [done|]. intros Heq. apply Hni.
    destruct (cell_elem (f x) pre) as [Hc|(y & Hy & Hc)]; rewrite Hc in Heq; subst l; [set_solver|].
    apply elem_of_cons. right. apply list_elem_of_fmap. eauto.
Qed.

End path.

#[export] Instance LNext_inj : Inj (=) (=) LNext.
Proof. intros ? ? [=]; done. Qed.
#[export] Instance LMrNext_inj : Inj (=) (=) LMrNext.
Proof. intros ? ? [=]; done. Qed.

(** ** Nodes and keys *)

(** [p] is the address of a node the program allocated. *)
Definition node (m : mem) (p : Z) : Prop :=
  p <> NULL /\ Forall (fun f => is_Some (m !! f p)) node_fields.

(** A pointer that may be followed, or NULL. *)
Definition node_or_null (m : mem) (p : Z) : Prop := p = NULL \/ node m p.

Definition nkey (m : mem) (p : Z) : Z := default 0 (m !! LKey p).
Definition keys (m : mem) (xs : list Z) : list Z := nkey m <$> xs.

(** The keys a bucket holds. *)
Definition kset (m : mem) (xs : list Z) : gset Z := list_to_set (keys m xs).

(** ** Abstract state

    Ghost state of the proofs: the nodes linked in each bucket, the node an
    updater has unlinked from a bucket and not yet given to the reclamation
    scheme, and those that the scheme has and did not give back yet. *)
Record gst : Set := Gst { bk : gmap Z (list Z); pend : option (Z * Z); old : gset Z }.

(** The abstract hash table: one set of keys per bucket. *)
Definition abs_table (m : mem) (g : gst) : gmap Z (gset Z) := kset m <$> bk g.

(** The abstract operations: the returned [int] and the new set. *)
Definition spec_insert (k : Z) (S : gset Z) : Z * gset Z :=
  (if decide (k ∈ S) then 0 else 1, {[k]} ∪ S).
Definition spec_delete (k : Z) (S : gset Z) : Z * gset Z :=
  (if decide (k ∈ S) then 1 else 0, S ∖ {[k]}).
Definition spec_search (k : Z) (S : gset Z) : Z := if decide (k ∈ S) then 1 else 0.

(** [n] is linked in bucket [i], or was just unlinked from it. *)
Definition live_in (g : gst) (i n : Z) : Prop :=
  (exists xs, bk g !! i = Some xs /\ n ∈ xs) \/ pend g = Some (n, i).
Definition live (g : gst) (n : Z) : Prop := exists i, live_in g i n.
Definition kept (g : gst) (n : Z) : Prop := live g n \/ n ∈ old g.

(** ** Invariant *)

(** A node unlinked from bucket [i] still points to the rest of the list. *)
Definition pend_ok (m : mem) (g : gst) (d i : Z) : Prop :=
  node m d /\ (forall j xs, bk g !! j = Some xs -> d ∉ xs) /\
  exists pre suf, bk g !! i = Some (pre ++ suf) /\ m !! LNext d = Some (hd0 suf) /\
    (forall x, x ∈ pre -> nkey m x < nkey m d) /\
    (forall x, x ∈ suf -> nkey m d < nkey m x).

Record Inv (m : mem) (g : gst) : Prop := {
  inv_path i xs : bk g !! i = Some xs -> path LNext m (LHead i) xs;
  inv_head i xs : bk g !! i = Some xs -> is_Some (m !! LHead i) /\ is_Some (m !! LLock i);
  inv_incr i xs : bk g !! i = Some xs -> incr (keys m xs);
  inv_node i xs x : bk g !! i = Some xs -> x ∈ xs -> node m x;
  inv_disj i j xs ys x : bk g !! i = Some xs -> bk g !! j = Some ys ->
    x ∈ xs -> x ∈ ys -> i = j;
  inv_ptr n q : m !! LNext n = Some q -> node_or_null m q;
  inv_pend d i : pend g = Some (d, i) -> pend_ok m g d i;
  inv_old n : n ∈ old g -> node m n /\ ~ live g n }.

(** ** Writes of an updater to the lists *)

Inductive list_step (m : mem) (g : gst) : mem -> gst -> Prop :=
  | ls_key p v : node m p -> ~ kept g p -> list_step m g (<[LKey p := v]> m) g
  | ls_next p q : node m p -> ~ kept g p -> node_or_null m q ->
      list_step m g (<[LNext p := q]> m) g
  | ls_link i pre suf p :
      bk g !! i = Some (pre ++ suf) -> pend g = None ->
      node m p -> ~ kept g p -> m !! LNext p = Some (hd0 suf) ->
      (forall x, x ∈ pre -> nkey m x < nkey m p) ->
      (forall x, x ∈ suf -> nkey m p < nkey m x) ->
      list_step m g (<[cell LNext (LHead i) pre := p]> m)
        (Gst (<[i := pre ++ p :: suf]> (bk g)) None (old g))
  | ls_unlink i pre d suf :
      bk g !! i = Some (pre ++ d :: suf) -> pend g = None ->
      list_step m g (<[cell LNext (LHead i) pre := hd0 suf]> m)
        (Gst (<[i := pre ++ suf]> (bk g)) (Some (d, i)) (old g)).
