(* ===== verification/Schedules.v ===== *)
(** * Executions of chosen schedules

    The stores a schedule goes through, and a decision procedure for the
    contents of a bucket: what concrete executions are checked with. *)
From S2P Require Import Prelude Mem Concrete Table.

(** The final pool of a schedule and the stores it went through, the newest
    first. *)
Fixpoint sched_trace `{Calloc} {A} (sched : list nat) (c : pool A) (tr : list mem) : pool A * list mem :=
  match sched with
  | [] => (c, tr)
  | i :: sched =>
      match c.1 !! i with
      | Some (Vis o k) =>
          match op_exec o c.2 with
          | Some (r, m') => sched_trace sched (<[i:=k r]> c.1, m') (m' :: tr)
          | None => sched_trace sched (<[i:=Crash Segfault]> c.1, c.2) (c.2 :: tr)
          end
      | _ => sched_trace sched c tr
      end
  end.

(** A thread that runs alone for a while. *)
Lemma run_psteps `{Calloc} {A B} (p : prog B) (f : B -> prog A) i a m' : forall ps m, ps !! i = Some (p ≫= f) ->
  run p m = Ok a m' -> exists tr, psteps (ps, m) tr (<[i:=f a]> ps, m').
Proof.
  induction p as [b|e|o k IH]; intros ps m Hi Hr; cbn in Hr; [|done|].
  - injection Hr as -> ->. rewrite list_insert_id by exact Hi. eexists. constructor.
  - destruct (op_exec o m) as [[r m1]|] eqn:Ho; [|done].
    pose proof (pstep_op ps m i o (fun r => @mbind prog _ B A f (k r)) r m1 Hi Ho) as Hs.
    destruct (IH r (<[i:=@mbind prog _ B A f (k r)]> ps) m1) as [tr Htr]; [|done|].
    { apply list_lookup_insert_eq. by eapply lookup_lt_Some. }
    rewrite list_insert_insert_eq in Htr. eexists. eapply psteps_trans; [|exact Htr]. eapply psteps_snoc; [apply psteps_refl|exact Hs].
Qed.

(** A thread that runs alone into an error. *)
Lemma run_crash_psteps `{Calloc} {A} (p : prog A) i e m' : forall ps m, ps !! i = Some p ->
  run p m = Err e m' -> exists tr, psteps (ps, m) tr (<[i:=Crash e]> ps, m').
Proof.
  induction p as [b|e'|o k IH]; intros ps m Hi Hr; cbn in Hr; [done| |].
  - injection Hr as -> ->. rewrite list_insert_id by exact Hi. eexists. constructor.
  - destruct (op_exec o m) as [[r m1]|] eqn:Ho.
    + pose proof (pstep_op ps m i o k r m1 Hi Ho) as Hs.
      destruct (IH r (<[i:=k r]> ps) m1) as [tr Htr]; [|done|].
      { apply list_lookup_insert_eq. by eapply lookup_lt_Some. }
      rewrite list_insert_insert_eq in Htr. eexists. eapply psteps_trans; [|exact Htr]. eapply psteps_snoc; [apply psteps_refl|exact Hs].
    + injection Hr as <- <-. eexists. eapply psteps_snoc; [apply psteps_refl|]. exact (pstep_fault ps m i o k Hi Ho).
Qed.

Lemma sched_trace_psteps `{Calloc} {A} sched (c0 c : pool A) tr :
  psteps c0 tr c -> psteps c0 (sched_trace sched c tr).2 (sched_trace sched c tr).1.
Proof.
  revert c tr. induction sched as [|i sched IH]; intros c tr Hc; [done|]. simpl.
  destruct c as [ps m]. cbn [fst snd]. destruct (ps !! i) as [[a|e|o k]|] eqn:Hi; [by apply IH..| |by apply IH].
  destruct (op_exec o m) as [[r m']|] eqn:Ho; apply IH; (eapply psteps_snoc; [exact Hc|]).
  - by eapply pstep_op.
  - by eapply pstep_fault.
Qed.

(** The nodes from [l] on, when the list ends within [fuel] nodes. *)
Fixpoint walk (fuel : nat) (m : mem) (l : loc) : option (list Z) :=
  match fuel with
  | O => None
  | S fuel =>
      p ← mget m l;
      if p =? NULL then Some [] else xs ← walk fuel m (LNext p); Some (p :: xs)
  end.

Lemma walk_path fuel : forall m l xs, walk fuel m l = Some xs -> path LNext m l xs.
Proof.
  induction fuel as [|fuel IH]; intros m l xs Hw; [done|]. cbn in Hw.
  destruct (mget m l) as [p|] eqn:Hp; [|done]. cbn in Hw.
  destruct (Z.eqb_spec p NULL) as [->|Hn].
  - injection Hw as <-. exact Hp.
  - destruct (walk fuel m (LNext p)) as [ys|] eqn:Hy; [|done]. injection Hw as <-.
    simpl. split_and!; [done|done|by apply IH].
Qed.

(** [key] is in the bucket whose head is [l]. *)
Definition holds_key (m : mem) (l : loc) (key : Z) : Prop :=
  exists xs, path LNext m l xs /\ key ∈ keys m xs.

Definition holds_key_b (fuel : nat) (m : mem) (l : loc) (key : Z) : bool :=
  match walk fuel m l with
  | Some xs => existsb (Z.eqb key) (keys m xs)
  | None => false
  end.

Lemma holds_key_b_spec fuel m l key : holds_key_b fuel m l key = true -> holds_key m l key.
Proof.
  unfold holds_key_b. destruct (walk fuel m l) as [xs|] eqn:Hw; [|done].
  intros (k & Hk & ->%Z.eqb_eq)%existsb_exists. exists xs. split; [by eapply walk_path|].
  by apply list_elem_of_In.
Qed.

(** Equality with a returned value, without deciding equality of programs. *)
Definition returned {A} `{EqDecision A} (p : option (prog A)) (a : A) : bool :=
  match p with Some (Ret b) => bool_decide (a = b) | _ => false end.

Lemma returned_spec {A} `{EqDecision A} (p : option (prog A)) a : returned p a = true -> p = Some (Ret a).
Proof. destruct p as [[b| |]|]; [|done..]. by intros <-%bool_decide_eq_true. Qed.

Definition crashed {A} (p : option (prog A)) (e : err) : bool :=
  match p with Some (Crash e') => bool_decide (e = e') | _ => false end.

Lemma crashed_spec {A} (p : option (prog A)) e : crashed p e = true -> p = Some (Crash e).
Proof. destruct p as [[|e'|]|]; [done| |done..]. by intros <-%bool_decide_eq_true. Qed.

(** The fields of the block [p] are mapped. *)
Lemma node_b m p : p <> NULL -> forallb (fun f => bool_decide (is_Some (m !! f p))) node_fields = true -> node m p.
Proof.
  intros Hp Hf. split; [done|]. rewrite forallb_forall in Hf. apply Forall_forall. intros f Hin.
  apply list_elem_of_In in Hin. specialize (Hf f Hin). by apply bool_decide_eq_true in Hf.
Qed.
