(* ===== verification/TableFacts.v ===== *)
(** * Facts about the hash table in memory

    The writes of an updater preserve the invariant and change the abstract
    table as expected; stores elsewhere ([grows]) leave both alone. *)
From S2P Require Import Prelude Mem Table.

(** The locations the invariant talks about. *)
Definition list_loc (l : loc) : bool :=
  match l with LHead _ | LKey _ | LNext _ => true | _ => false end.

(** [m'] is [m] after stores to the locations [W] and allocations of nodes. *)
Record grows (W : loc -> bool) (m m' : mem) : Prop := {
  gr_keep l v : W l = false -> mget m l = Some v -> mget m' l = Some v;
  gr_node p : node m p -> node m' p;
  gr_dom l : match l with LHead _ | LLock _ => True | _ => False end -> is_Some (m !! l) -> is_Some (m' !! l);
  gr_next n q : m' !! LNext n = Some q -> m !! LNext n = Some q \/ q = NULL;
  gr_rc n v : W (LRc n) = false -> m' !! LRc n = Some v ->
    m !! LRc n = Some v \/ v = 0 /\ n mod CACHESIZE = 0;
  gr_lock i : W (LLock i) = false -> m' !! LLock i = m !! LLock i }.

(** Stores outside the lists. *)
Abbreviation off_list := (fun l => negb (list_loc l)).

#[export] Instance grows_preorder W : PreOrder (grows W).
Proof.
  split.
  - intros m. split; auto.
  - intros m1 m2 m3 [? ? ? Hn1 Hr1 Hl1] [? ? ? Hn2 Hr2 Hl2]. split; [eauto..| | |].
    + intros n q [?|?]%Hn2; auto.
    + intros n v Hn [?|?]%Hr2; auto.
    + intros i Hi. by rewrite Hl2, Hl1.
Qed.

Lemma grows_weaken (W W' : loc -> bool) m m' :
  (forall l, W l = true -> W' l = true) -> grows W m m' -> grows W' m m'.
Proof.
  intros HW [Hk Hn Hd Hx Hr Hi]. assert (HW' : forall l, W' l = false -> W l = false).
  { intros l Hl. destruct (W l) eqn:He; [|done]. apply HW in He. congruence. }
  split; auto.
Qed.

Lemma mget_list_loc m l : list_loc l = true -> mget m l = m !! l.
Proof. unfold mget. destruct l; try done; by destruct (m !! _). Qed.

Lemma cell_list_loc i pre : list_loc (cell LNext (LHead i) pre) = true.
Proof. by destruct (cell_elem LNext (LHead i) pre) as [->|(x & _ & ->)]. Qed.

Lemma cell_not_key i pre p : cell LNext (LHead i) pre <> LKey p.
Proof. by destruct (cell_elem LNext (LHead i) pre) as [->|(x & _ & ->)]. Qed.

(** ** Nodes *)

Lemma node_nonnull m p : node m p -> p <> NULL.
Proof. by intros [? _]. Qed.

Lemma node_field m p f : node m p -> f ∈ node_fields -> is_Some (m !! f p).
Proof. intros [_ Hf] Hin. by eapply Forall_forall in Hf. Qed.

Lemma node_key m p : node m p -> m !! LKey p = Some (nkey m p).
Proof.
  intros Hn. destruct (node_field m p LKey Hn) as [k Hk]; [set_solver|].
  unfold nkey. by rewrite Hk.
Qed.

Lemma node_mget m p f : node m p -> f ∈ node_fields -> exists v, mget m (f p) = Some v.
Proof. intros Hn Hf. destruct (node_field _ _ _ Hn Hf) as [v Hv]. exists v. by apply mget_lookup. Qed.

Lemma is_Some_insert (m : mem) (l : loc) (v : Z) (l' : loc) : is_Some (m !! l') -> is_Some ((<[l:=v]> m) !! l').
Proof. rewrite lookup_insert. case_decide; eauto. Qed.

Lemma node_insert m p l v : node m p -> node (<[l:=v]> m) p.
Proof.
  intros [H0 Hf]. split; [done|]. eapply Forall_impl; [done|]. intros f [w Hw]. cbn.
  destruct (decide (l = f p)) as [->|Hne]; [rewrite lookup_insert_eq; eauto|].
  rewrite lookup_insert_ne by done. eauto.
Qed.

Lemma calloc_block_lookup p m f : f ∈ node_fields -> calloc_block p m !! f p = Some 0.
Proof.
  intros Hf. unfold node_fields in Hf. unfold calloc_block, node_fields. simpl.
  set_unfold in Hf. destruct_or! Hf; try done; subst f; by simplify_map_eq.
Qed.

Lemma calloc_block_node p m : p <> NULL -> node (calloc_block p m) p.
Proof.
  intros Hp. split; [done|]. apply Forall_forall. intros f Hf.
  rewrite calloc_block_lookup by done. eauto.
Qed.

Lemma fresh_not_node m p : fresh_block m p -> ~ node m p.
Proof.
  intros Hf [_ Hn]. apply Forall_cons in Hf as [Hf _]. apply Forall_cons in Hn as [[? Hn] _].
  congruence.
Qed.

Lemma field_loc_inj f f' p q : f ∈ node_fields -> f' ∈ node_fields -> f p = f' q -> p = q.
Proof.
  unfold node_fields. intros Hf Hf'. set_unfold in Hf. set_unfold in Hf'.
  destruct_or! Hf; destruct_or! Hf'; subst; try done; by intros [=].
Qed.

Lemma calloc_block_node_mono p q m : fresh_block m p -> node m q -> node (calloc_block p m) q.
Proof.
  intros Hp Hq. pose proof Hq as [Hq0 Hq1]. split; [done|].
  apply Forall_forall. intros f Hf.
  rewrite calloc_block_lookup_ne; [by apply node_field|].
  intros f' Hf' Heq. apply (fresh_not_node m p Hp).
  by rewrite (field_loc_inj _ _ _ _ Hf' Hf (eq_sym Heq)).
Qed.

Lemma calloc_block_lookup_old p m l v :
  fresh_block m p -> m !! l = Some v -> calloc_block p m !! l = Some v.
Proof.
  intros Hp Hl. rewrite calloc_block_lookup_ne; [done|]. intros f Hf ->.
  eapply Forall_forall in Hp; [|done]. congruence.
Qed.

(** ** Stores that do not touch the lists *)

Lemma grows_store (W : loc -> bool) m l v : list_loc l = false -> W l = true -> grows W m (<[l:=v]> m).
Proof.
  intros Hl HW. split.
  - intros l' w Hl' Hw. rewrite mget_insert_ne; [done|]. intros ->. congruence.
  - intros p. apply node_insert.
  - intros l' _. apply is_Some_insert.
  - intros n q. rewrite lookup_insert_ne; [by left|]. intros ->. done.
  - intros n w Hn. rewrite lookup_insert_ne; [by left|]. intros ->. congruence.
  - intros i Hi. apply lookup_insert_ne. intros ->. congruence.
Qed.

Lemma calloc_block_mget_old p m l v :
  fresh_block m p -> mget m l = Some v -> mget (calloc_block p m) l = Some v.
Proof.
  intros Hp Hl. destruct (m !! l) as [w|] eqn:Hm.
  - rewrite (mget_lookup _ _ _ Hm) in Hl. simplify_eq.
    by apply mget_lookup, calloc_block_lookup_old.
  - unfold mget in *. rewrite calloc_block_lookup_ne, Hm in *; [done|].
    intros f Hf ->. rewrite Hm in Hl. unfold node_fields in Hf. set_unfold in Hf.
    destruct_or! Hf; subst f; done.
Qed.

Lemma grows_calloc W m p : fresh_block m p -> p mod CACHESIZE = 0 -> grows W m (calloc_block p m).
Proof.
  intros Hp Ha. split.
  - intros l v _. by apply calloc_block_mget_old.
  - intros q. by apply calloc_block_node_mono.
  - intros l _ [v Hl]. exists v. by apply calloc_block_lookup_old.
  - intros n q Hn. destruct (decide (n = p)) as [->|Hne].
    + rewrite calloc_block_lookup in Hn by set_solver. simplify_eq. by right.
    + left. rewrite calloc_block_lookup_ne in Hn; [done|].
      intros f Hf Heq. eapply Hne, (field_loc_inj LNext f); [set_solver|done..].
  - intros n v _ Hn. destruct (decide (n = p)) as [->|Hne].
    + rewrite calloc_block_lookup in Hn by set_solver. simplify_eq. by right.
    + left. rewrite calloc_block_lookup_ne in Hn; [done|].
      intros f Hf Heq. eapply Hne, (field_loc_inj LRc f); [set_solver|done..].
  - intros i _. apply calloc_block_lookup_ne. intros f Hf Heq. unfold node_fields in Hf. set_unfold in Hf.
    by destruct_or! Hf; subst f.
Qed.

Lemma grows_lookup m m' l v : grows off_list m m' -> list_loc l = true -> m !! l = Some v -> m' !! l = Some v.
Proof. intros Hg Hl. rewrite <- !mget_list_loc by done. apply (gr_keep _ _ _ Hg). by rewrite Hl. Qed.

Lemma grows_nkey m m' p : grows off_list m m' -> node m p -> nkey m' p = nkey m p.
Proof.
  intros Hg Hp. pose proof (grows_lookup _ _ (LKey p) _ Hg eq_refl (node_key m p Hp)) as Hk.
  unfold nkey at 1. by rewrite Hk.
Qed.

Lemma nkey_ext m m' xs : (forall x, x ∈ xs -> nkey m' x = nkey m x) -> keys m' xs = keys m xs.
Proof. intros He. apply list_fmap_ext. intros i x Hx. apply He. by eapply list_elem_of_lookup_2. Qed.

Lemma grows_path (W : loc -> bool) f m m' l xs : grows W m m' ->
  (forall l', l' = l \/ (exists x, x ∈ xs /\ l' = f x) -> W l' = false) ->
  path f m l xs -> path f m' l xs.
Proof.
  intros Hg. revert l. induction xs as [|x xs IH]; intros l HW; simpl.
  - apply (gr_keep _ _ _ Hg). auto.
  - intros (H1 & H2 & H3). split_and!; [|done|apply IH; [|done]].
    + apply (gr_keep _ _ _ Hg); auto.
    + intros l' [->|(y & Hy & ->)]; apply HW; right; set_solver.
Qed.

Lemma Inv_grows m m' g : grows off_list m m' -> Inv m g -> Inv m' g.
Proof.
  intros Hg HI. pose proof HI as [Hpath Hhead Hincr Hnode Hdisj Hptr Hpend Hold].
  assert (Hk : forall i xs, bk g !! i = Some xs -> forall x, x ∈ xs -> nkey m' x = nkey m x).
  { intros i xs Hi x Hx. eapply grows_nkey; eauto. }
  split.
  - intros i xs Hi. eapply grows_path; eauto. by intros l [->|(x & _ & ->)].
  - intros i xs Hi. destruct (Hhead i xs Hi). split; by eapply (gr_dom _ _ _ Hg).
  - intros i xs Hi. rewrite (nkey_ext m m'); eauto.
  - intros i xs x Hi Hx. eapply gr_node; eauto.
  - done.
  - intros n q Hq. destruct (gr_next _ _ _ Hg _ _ Hq) as [Hq'| ->]; [|by left].
    destruct (Hptr n q Hq') as [->|?]; [by left|right; by eapply gr_node].
  - intros d i Hp. destruct (Hpend d i Hp) as (Hd & Hni & pre & suf & Hi & Hnx & H1 & H2).
    split; [by eapply gr_node|]. split; [done|]. exists pre, suf.
    split_and!; [done|by eapply grows_lookup|..]; intros x Hx;
      rewrite (grows_nkey m m' d), (Hk i _ Hi x) by (done || set_solver); auto.
  - intros n Hn. destruct (Hold n Hn) as [? ?]. split; [by eapply gr_node|done].
Qed.

Lemma abs_table_ext m m' g :
  (forall i xs, bk g !! i = Some xs -> keys m' xs = keys m xs) ->
  abs_table m' g = abs_table m g.
Proof.
  intros He. apply map_eq. intros i. unfold abs_table. rewrite !lookup_fmap.
  destruct (bk g !! i) as [xs|] eqn:Hi; [|done]. simpl. f_equal. unfold kset. by erewrite He.
Qed.

(** The lock of a bucket with a live node is allocated. *)
Lemma Inv_live_lock m g : Inv m g -> forall i n, live_in g i n -> is_Some (m !! LLock i).
Proof.
  intros HI i n [(xs & Hi & _)|Hp].
  - by apply (inv_head _ _ HI _ _ Hi).
  - destruct (inv_pend _ _ HI _ _ Hp) as (_ & _ & pre & suf & Hi & _).
    by apply (inv_head _ _ HI _ _ Hi).
Qed.

Lemma abs_table_grows m m' g : grows off_list m m' -> Inv m g -> abs_table m' g = abs_table m g.
Proof.
  intros Hg HI. apply abs_table_ext. intros i xs Hi. apply nkey_ext. intros x Hx.
  eapply grows_nkey; [done|]. by eapply inv_node.
Qed.

(** ** Reading the lists *)

Section inv.
Context (m : mem) (g : gst) (HI : Inv m g).

Lemma inv_NoDup i xs : bk g !! i = Some xs -> NoDup xs.
Proof. intros Hi. eapply NoDup_fmap_1, incr_NoDup, inv_incr; eauto. Qed.

Lemma inv_cells_NoDup i pre suf : bk g !! i = Some (pre ++ suf) ->
  NoDup (LHead i :: (LNext <$> pre)).
Proof.
  intros Hi. apply inv_NoDup in Hi. apply NoDup_app in Hi as [Hi _].
  constructor; [|by apply (NoDup_fmap_2 LNext)].
  intros (x & Hx & _)%list_elem_of_fmap. done.
Qed.

Lemma inv_cell_get i pre suf : bk g !! i = Some (pre ++ suf) ->
  mget m (cell LNext (LHead i) pre) = Some (hd0 suf).
Proof.
  intros Hi. apply (inv_path _ _ HI) in Hi. apply path_cell, path_hd in Hi. done.
Qed.

Lemma inv_keys_split i pre suf x y : bk g !! i = Some (pre ++ suf) ->
  x ∈ pre -> y ∈ suf -> nkey m x < nkey m y.
Proof.
  intros Hi Hx Hy. apply (inv_incr _ _ HI) in Hi. unfold keys in Hi.
  rewrite fmap_app in Hi. apply incr_app in Hi as (_ & _ & Hlt).
  apply Hlt; by apply list_elem_of_fmap_2.
Qed.

Lemma inv_next i pre x suf : bk g !! i = Some (pre ++ x :: suf) ->
  m !! LNext x = Some (hd0 suf).
Proof.
  intros Hi. rewrite cons_middle, app_assoc in Hi. apply inv_cell_get in Hi.
  rewrite cell_snoc, mget_list_loc in Hi by done. done.
Qed.

Lemma inv_suf_node i pre suf : bk g !! i = Some (pre ++ suf) -> node_or_null m (hd0 suf).
Proof.
  intros Hi. destruct suf as [|x suf]; [by left|]. right. eapply inv_node; [done|done|]. set_solver.
Qed.

Lemma live_node i n : live_in g i n -> node m n.
Proof.
  intros [(xs & Hi & Hn)|Hp]; [by eapply inv_node|]. by apply (inv_pend _ _ HI) in Hp as [? _].
Qed.

(** What a live node's [next] field leads to: the rest of its bucket. *)
Lemma live_next i n : live_in g i n ->
  exists pre suf, bk g !! i = Some (pre ++ suf) /\ m !! LNext n = Some (hd0 suf) /\
    (forall x, x ∈ pre -> nkey m x <= nkey m n) /\
    (forall x, x ∈ suf -> nkey m n < nkey m x).
Proof.
  intros [(xs & Hi & (a & b & ->)%list_elem_of_split)|Hp].
  - exists (a ++ [n]), b. rewrite <- app_assoc. split_and!; [done|by eapply inv_next| |].
    + intros x [Hx| ->%list_elem_of_singleton]%elem_of_app; [|done].
      apply Z.lt_le_incl. eapply inv_keys_split; [done|done|set_solver].
    + intros x Hx. rewrite cons_middle, app_assoc in Hi.
      eapply inv_keys_split; [done|set_solver|done].
  - destruct (inv_pend _ _ HI _ _ Hp) as (_ & _ & pre & suf & Hi & Hnx & H1 & H2).
    exists pre, suf. split_and!; [done|done| |done]. intros x Hx. by apply Z.lt_le_incl, H1.
Qed.

Lemma not_live_bk p i xs x : ~ live g p -> bk g !! i = Some xs -> x ∈ xs -> x <> p.
Proof. intros Hp Hi Hin ->. apply Hp. exists i. left. eauto. Qed.

Lemma not_live_pend p d i : ~ live g p -> pend g = Some (d, i) -> d <> p.
Proof. intros Hp Hi ->. apply Hp. exists i. by right. Qed.

Lemma not_kept_live p : ~ kept g p -> ~ live g p.
Proof. intros Hk Hl. apply Hk. by left. Qed.

(** Linking and unlinking a node. *)
Lemma live_link i pre suf p n : pend g = None -> bk g !! i = Some (pre ++ suf) ->
  live (Gst (<[i := pre ++ p :: suf]> (bk g)) None (old g)) n <-> n = p \/ live g n.
Proof.
  clear HI. intros Hp Hi. unfold live, live_in. rewrite Hp. simpl. split.
  - intros (j & [(xs & Hj & Hn)|[=]]). destruct (decide (i = j)) as [<-|Hne]; simplify_map_eq.
    + rewrite elem_of_app, elem_of_cons in Hn. destruct Hn as [?|[->|?]]; [|by left|];
        right; exists i; left; eexists; (split; [done|]); set_solver.
    + right. exists j. left. eauto.
  - intros [->|(j & [(xs & Hj & Hn)|[=]])].
    + exists i. left. eexists. split; [apply lookup_insert_eq|set_solver].
    + exists j. left. destruct (decide (i = j)) as [<-|Hne]; simplify_map_eq; [|eauto].
      eexists. split; [done|]. set_solver.
Qed.

Lemma live_unlink i pre d suf n : pend g = None -> bk g !! i = Some (pre ++ d :: suf) ->
  live (Gst (<[i := pre ++ suf]> (bk g)) (Some (d, i)) (old g)) n <-> live g n.
Proof.
  clear HI. intros Hp Hi. unfold live, live_in. rewrite Hp. simpl. split.
  - intros (j & [(xs & Hj & Hn)|[= -> ->]]).
    + exists j. left. destruct (decide (i = j)) as [<-|Hne]; simplify_map_eq; [|eauto].
      eexists. split; [done|]. set_solver.
    + exists j. left. eexists. split; [done|]. set_solver.
  - intros (j & [(xs & Hj & Hn)|[=]]). destruct (decide (i = j)) as [<-|Hne].
    + simplify_map_eq. exists i. rewrite elem_of_app, elem_of_cons in Hn.
      destruct Hn as [?|[->|?]]; [|by right|]; left; eexists; (split; [apply lookup_insert_eq|set_solver]).
    + exists j. left. exists xs. by rewrite lookup_insert_ne.
Qed.

(** ** The four writes of an updater preserve the invariant *)

Lemma nkey_store_ne p v x : x <> p -> nkey (<[LKey p := v]> m) x = nkey m x.
Proof. intros Hne. unfold nkey. rewrite lookup_insert_ne; [done|]. by intros [=]. Qed.

Lemma nkey_store_other l v x : (forall p, l <> LKey p) -> nkey (<[l := v]> m) x = nkey m x.
Proof. intros Hl. unfold nkey. by rewrite lookup_insert_ne. Qed.

Lemma keys_store_other l v xs : (forall p, l <> LKey p) -> keys (<[l := v]> m) xs = keys m xs.
Proof. intros Hl. apply nkey_ext. intros. by apply nkey_store_other. Qed.

Lemma keys_store_dead p v i xs : ~ live g p -> bk g !! i = Some xs ->
  keys (<[LKey p := v]> m) xs = keys m xs.
Proof.
  intros Hp Hi. apply nkey_ext. intros x Hx. apply nkey_store_ne.
  exact (not_live_bk p i xs x Hp Hi Hx).
Qed.

Lemma Inv_store_key p v : ~ live g p -> Inv (<[LKey p := v]> m) g.
Proof.
  intros Hp. split.
  - intros i xs Hi. eapply path_agree; [|by eapply inv_path].
    intros l [->|(x & _ & ->)]; by rewrite mget_insert_ne.
  - intros i xs Hi. destruct (inv_head _ _ HI i xs Hi). split; by apply is_Some_insert.
  - intros i xs Hi. erewrite keys_store_dead by done. by eapply inv_incr.
  - intros i xs x Hi Hx. eapply node_insert, inv_node; eauto.
  - by eapply inv_disj.
  - intros n q. rewrite lookup_insert_ne by done. intros Hq.
    destruct (inv_ptr _ _ HI _ _ Hq) as [->|?]; [by left|right; by apply node_insert].
  - intros d i Hd. destruct (inv_pend _ _ HI _ _ Hd) as (Hn & Hni & pre & suf & Hi & Hnx & H1 & H2).
    split; [by apply node_insert|]. split; [done|]. exists pre, suf.
    assert (Hne : forall x, x ∈ pre ++ suf -> x <> p).
    { intros x Hx. exact (not_live_bk p i _ x Hp Hi Hx). }
    rewrite lookup_insert_ne by done. split_and!; [done..| |]; intros x Hx;
      rewrite (nkey_store_ne p v d), (nkey_store_ne p v x)
        by (exact (not_live_pend p d i Hp Hd) || (apply Hne; set_solver)); auto.
  - intros n Hn. destruct (inv_old _ _ HI n Hn). split; [by apply node_insert|done].
Qed.

Lemma Inv_store_next p q : ~ live g p -> node_or_null m q -> Inv (<[LNext p := q]> m) g.
Proof.
  intros Hp Hq. split.
  - intros i xs Hi. eapply path_agree; [|by eapply inv_path].
    intros l [->|(x & Hx & ->)]; rewrite mget_insert_ne; try done.
    intros [= Heq]. by apply (not_live_bk p i xs x Hp Hi Hx).
  - intros i xs Hi. destruct (inv_head _ _ HI i xs Hi). split; by apply is_Some_insert.
  - intros i xs Hi. rewrite keys_store_other by done. by eapply inv_incr.
  - intros i xs x Hi Hx. eapply node_insert, inv_node; eauto.
  - by eapply inv_disj.
  - intros n q'. destruct (decide (n = p)) as [->|Hne].
    + rewrite lookup_insert_eq. intros [= <-]. destruct Hq as [->|?]; [by left|right; by apply node_insert].
    + rewrite lookup_insert_ne by (by intros [=]). intros Hq'.
      destruct (inv_ptr _ _ HI _ _ Hq') as [->|?]; [by left|right; by apply node_insert].
  - intros d i Hd. destruct (inv_pend _ _ HI _ _ Hd) as (Hn & Hni & pre & suf & Hi & Hnx & H1 & H2).
    split; [by apply node_insert|]. split; [done|]. exists pre, suf.
    rewrite lookup_insert_ne by (intros [= Heq]; by apply (not_live_pend p d i Hp Hd)).
    split_and!; [done..| |]; intros x Hx; rewrite !nkey_store_other by done; auto.
  - intros n Hn. destruct (inv_old _ _ HI n Hn). split; [by apply node_insert|done].
Qed.

(** Redirecting the cell after [pre] towards [suf'] gives a well-formed
    bucket, whatever [suf'] leads to. *)
Lemma path_redirect i pre suf suf' :
  bk g !! i = Some (pre ++ suf) -> tail_path LNext m suf' ->
  (forall x, x ∈ suf' -> x ∉ pre) ->
  path LNext (<[cell LNext (LHead i) pre := hd0 suf']> m) (LHead i) (pre ++ suf').
Proof.
  intros Hi Ht Hd. eapply path_set; [by eapply inv_path|by eapply inv_cells_NoDup| |done].
  intros y Hy Heq. destruct (cell_elem LNext (LHead i) pre) as [Hc|(x & Hx & Hc)];
    rewrite Hc in Heq; [done|]. simplify_eq. by eapply Hd.
Qed.

Lemma path_other_bucket i j pre suf xs q :
  bk g !! i = Some (pre ++ suf) -> bk g !! j = Some xs -> i <> j ->
  path LNext (<[cell LNext (LHead i) pre := q]> m) (LHead j) xs.
Proof.
  intros Hi Hj Hne. eapply path_agree; [|by eapply inv_path].
  intros l Hl. apply mget_insert_ne. intros <-.
  destruct (cell_elem LNext (LHead i) pre) as [Hc|(x & Hx & Hc)]; rewrite Hc in Hl.
  - destruct Hl as [[= ?]|(y & _ & [=])]; congruence.
  - destruct Hl as [[=]|(y & Hy & [= ->])]. apply Hne.
    eapply (inv_disj _ _ HI i j _ _ y Hi Hj); [set_solver|done].
Qed.

Lemma Inv_ptr_redirect i pre q : node_or_null m q ->
  forall n q', (<[cell LNext (LHead i) pre := q]> m) !! LNext n = Some q' ->
  node_or_null (<[cell LNext (LHead i) pre := q]> m) q'.
Proof.
  intros Hq n q' Hn.
  assert (node_or_null m q') as [->|?]; [|by left|right; by apply node_insert].
  destruct (decide (cell LNext (LHead i) pre = LNext n)) as [Hc|Hc].
  - rewrite Hc, lookup_insert_eq in Hn. by simplify_eq.
  - rewrite lookup_insert_ne in Hn by done. by eapply inv_ptr.
Qed.

Lemma cell_keys i pre v xs : keys (<[cell LNext (LHead i) pre := v]> m) xs = keys m xs.
Proof. apply keys_store_other. intros p. apply cell_not_key. Qed.

Lemma cell_nkey i pre v x : nkey (<[cell LNext (LHead i) pre := v]> m) x = nkey m x.
Proof. apply nkey_store_other. intros p. apply cell_not_key. Qed.

Lemma Inv_head_insert l v j xs : bk g !! j = Some xs ->
  is_Some ((<[l := v]> m) !! LHead j) /\ is_Some ((<[l := v]> m) !! LLock j).
Proof. intros Hj. destruct (inv_head _ _ HI j xs Hj). split; by apply is_Some_insert. Qed.

End inv.

Section steps.
Context (m : mem) (g : gst) (HI : Inv m g).

Lemma tail_path_suf i pre suf : bk g !! i = Some (pre ++ suf) -> tail_path LNext m suf.
Proof. intros Hi. apply (inv_path _ _ HI) in Hi. apply path_cell, path_alt in Hi. tauto. Qed.

Lemma suf_not_pre i pre suf x : bk g !! i = Some (pre ++ suf) -> x ∈ suf -> x ∉ pre.
Proof. intros Hi Hx Hp. apply (inv_NoDup m g HI) in Hi. apply NoDup_app in Hi. set_solver. Qed.

Lemma keys_app xs ys : keys m (xs ++ ys) = keys m xs ++ keys m ys.
Proof. apply fmap_app. Qed.

Lemma Inv_link i pre suf p :
  bk g !! i = Some (pre ++ suf) -> pend g = None -> node m p -> ~ kept g p ->
  m !! LNext p = Some (hd0 suf) ->
  (forall x, x ∈ pre -> nkey m x < nkey m p) ->
  (forall x, x ∈ suf -> nkey m p < nkey m x) ->
  Inv (<[cell LNext (LHead i) pre := p]> m) (Gst (<[i := pre ++ p :: suf]> (bk g)) None (old g)).
Proof.
  intros Hi Hpd Hp [Hl Ho]%Decidable.not_or Hnx H1 H2.
  assert (Hpp : p ∉ pre ++ suf) by (intros Hx; by apply (not_live_bk g p i _ p Hl Hi)).
  split; simpl.
  - intros j xs Hj. destruct (decide (i = j)) as [<-|Hne]; simplify_map_eq.
    + apply (path_redirect m g HI i pre suf (p :: suf)); [done| |].
      * split; [by eapply node_nonnull|]. apply path_alt.
        split; [by rewrite mget_list_loc|by eapply tail_path_suf].
      * intros x [->|Hx]%elem_of_cons; [set_solver|]. by eapply suf_not_pre.
    + by eapply path_other_bucket.
  - intros j xs Hj. destruct (decide (i = j)) as [<-|Hne]; simplify_map_eq;
      by eapply Inv_head_insert.
  - intros j xs Hj. rewrite cell_keys.
    destruct (decide (i = j)) as [<-|Hne]; simplify_map_eq; [|by eapply inv_incr].
    pose proof (inv_incr _ _ HI _ _ Hi) as Hs. rewrite keys_app in *. simpl.
    apply incr_app in Hs as (Hs1 & Hs2 & Hs3). apply incr_app. split_and!; [done| |].
    + apply incr_cons. split; [done|]. intros y (x & -> & Hx)%list_elem_of_fmap. auto.
    + intros x y Hx [->|Hy]%elem_of_cons; [|auto].
      apply list_elem_of_fmap in Hx as (z & -> & Hz). auto.
  - intros j xs x Hj Hx. apply node_insert.
    destruct (decide (i = j)) as [<-|Hne]; simplify_map_eq; [|by eapply inv_node].
    apply elem_of_app in Hx as [Hx|[->|Hx]%elem_of_cons]; [|done|];
      (eapply inv_node; [done|done|set_solver]).
  - assert (Hd : forall j ys x, bk g !! j = Some ys -> x ∈ pre ++ p :: suf -> x ∈ ys -> i = j).
    { intros j ys x Hj Hx Hy. destruct (decide (x = p)) as [->|Hxp].
      - by destruct (not_live_bk g p j ys p Hl Hj Hy).
      - eapply (inv_disj _ _ HI i j _ _ x Hi Hj); set_solver. }
    intros j1 j2 xs ys x Hj1 Hj2 Hx Hy.
    destruct (decide (i = j1)) as [<-|]; destruct (decide (i = j2)) as [<-|]; simplify_map_eq; eauto.
    + symmetry. eauto.
    + by eapply inv_disj.
  - eapply Inv_ptr_redirect; [done|]. by right.
  - done.
  - intros n Hn. destruct (inv_old _ _ HI n Hn). split; [by apply node_insert|].
    rewrite live_link by done. intros [->|?]; done.
Qed.

Lemma Inv_unlink i pre d suf :
  bk g !! i = Some (pre ++ d :: suf) -> pend g = None ->
  Inv (<[cell LNext (LHead i) pre := hd0 suf]> m)
    (Gst (<[i := pre ++ suf]> (bk g)) (Some (d, i)) (old g)).
Proof.
  intros Hi Hpd. assert (Hi' : bk g !! i = Some ((pre ++ [d]) ++ suf)) by by rewrite <- app_assoc.
  pose proof (inv_NoDup m g HI _ _ Hi) as Hnd. apply NoDup_app in Hnd as (Hnd1 & Hnd2 & Hnd3).
  apply NoDup_cons in Hnd3 as [Hd3 Hnd3].
  pose proof (tail_path_suf i _ suf Hi') as Hts.
  pose proof (inv_suf_node m g HI i _ suf Hi') as Hsn.
  assert (Hlt : forall x, x ∈ suf -> nkey m d < nkey m x).
  { intros x Hx. eapply (inv_keys_split m g HI i (pre ++ [d])); [done|set_solver|done]. }
  clear Hi'. split; simpl.
  - intros j xs Hj. destruct (decide (i = j)) as [<-|Hne]; simplify_map_eq.
    + eapply path_redirect; [done|done|exact Hts|]. set_solver.
    + by eapply path_other_bucket.
  - intros j xs Hj. destruct (decide (i = j)) as [<-|Hne]; simplify_map_eq;
      by eapply Inv_head_insert.
  - intros j xs Hj. rewrite cell_keys.
    destruct (decide (i = j)) as [<-|Hne]; simplify_map_eq; [|by eapply inv_incr].
    pose proof (inv_incr _ _ HI _ _ Hi) as Hs. rewrite keys_app in *. simpl in Hs.
    apply incr_app in Hs as (Hs1 & [Hs2 _]%incr_cons & Hs3). apply incr_app. set_solver.
  - intros j xs x Hj Hx. apply node_insert.
    destruct (decide (i = j)) as [<-|Hne]; simplify_map_eq; [|by eapply inv_node].
    eapply inv_node; [done|done|set_solver].
  - intros j1 j2 xs ys x Hj1 Hj2 Hx Hy.
    destruct (decide (i = j1)) as [<-|]; destruct (decide (i = j2)) as [<-|]; simplify_map_eq; eauto.
    + eapply (inv_disj _ _ HI i j2 _ _ x Hi Hj2); [set_solver|done].
    + symmetry. eapply (inv_disj _ _ HI i j1 _ _ x Hi Hj1); [set_solver|done].
    + by eapply inv_disj.
  - eapply Inv_ptr_redirect; [done|]. done.
  - intros d' i' [= <- <-]. split; [|split].
    + apply node_insert. eapply inv_node; [done|done|set_solver].
    + simpl. intros j xs Hj Hdj. destruct (decide (i = j)) as [<-|Hne]; simplify_map_eq; [set_solver|].
      apply Hne. eapply (inv_disj _ _ HI i j _ _ d Hi Hj); [set_solver|done].
    + exists pre, suf. simpl. rewrite lookup_insert_eq. split_and!; [done| | |].
      * rewrite lookup_insert_ne; [by eapply inv_next|]. intros Hc.
        destruct (cell_elem LNext (LHead i) pre) as [Hc'|(x & Hx & Hc')]; rewrite Hc' in Hc; [done|].
        simplify_eq. set_solver.
      * intros x Hx. rewrite !cell_nkey. eapply inv_keys_split; [done|done|done|set_solver].
      * intros x Hx. rewrite !cell_nkey. auto.
  - intros n Hn. destruct (inv_old _ _ HI n Hn). split; [by apply node_insert|].
    by rewrite live_unlink.
Qed.

Lemma list_step_inv m' g' : list_step m g m' g' -> Inv m' g'.
Proof.
  destruct 1.
  - by apply Inv_store_key; [|apply not_kept_live].
  - by apply Inv_store_next; [|apply not_kept_live|].
  - by apply Inv_link.
  - by apply Inv_unlink.
Qed.

Lemma list_step_old m' g' : list_step m g m' g' -> old g' = old g.
Proof. by destruct 1. Qed.

Lemma list_step_node m' g' p : list_step m g m' g' -> node m p -> node m' p.
Proof. destruct 1; apply node_insert. Qed.

(** The scheme has other nodes. *)
Lemma Inv_old O : Inv m g -> (forall n, n ∈ O -> node m n /\ ~ live g n) -> Inv m (Gst (bk g) (pend g) O).
Proof. intros [] HO'. by split. Qed.

Lemma Inv_shrink O : Inv m g -> O ⊆ old g -> Inv m (Gst (bk g) (pend g) O).
Proof. intros Hi HO'. apply Inv_old; [done|]. intros n Hn. by apply (inv_old _ _ Hi), HO'. Qed.

(** Forgetting the unlinked node once it is retired. *)

Lemma Inv_retire O d i : Inv m g -> pend g = Some (d, i) -> O ⊆ {[d]} ∪ old g -> Inv m (Gst (bk g) None O).
Proof.
  intros [H1 H2 H3 H4 H5 H6 H7 H8] Hp HO. split; [done..|]. simpl. intros n Hn.
  destruct (H7 _ _ Hp) as (Hd & Hni & _). apply HO, elem_of_union in Hn as [->%elem_of_singleton|Hn].
  - split; [done|]. intros (j & [(xs & Hj & Hx)|[=]]). by apply (Hni j xs).
  - destruct (H8 n Hn) as [? Hnl]. split; [done|]. intros (j & [Hj|[=]]). apply Hnl. exists j. by left.
Qed.

(** ** Effect on the abstract table *)

Lemma abs_key p v : ~ live g p -> abs_table (<[LKey p := v]> m) g = abs_table m g.
Proof. intros Hp. apply abs_table_ext. intros i xs Hi. by eapply keys_store_dead. Qed.

Lemma abs_next p q : abs_table (<[LNext p := q]> m) g = abs_table m g.
Proof. apply abs_table_ext. intros i xs Hi. by apply keys_store_other. Qed.

Lemma kset_app xs ys : kset m (xs ++ ys) = kset m xs ∪ kset m ys.
Proof. unfold kset. by rewrite keys_app, list_to_set_app_L. Qed.

Lemma kset_cons x xs : kset m (x :: xs) = {[nkey m x]} ∪ kset m xs.
Proof. done. Qed.

Lemma elem_of_kset k xs : k ∈ kset m xs <-> exists x, x ∈ xs /\ k = nkey m x.
Proof. unfold kset, keys. rewrite elem_of_list_to_set, list_elem_of_fmap. naive_solver. Qed.

Lemma abs_lookup i xs : bk g !! i = Some xs -> abs_table m g !! i = Some (kset m xs).
Proof. intros Hi. unfold abs_table. by rewrite lookup_fmap, Hi. Qed.

Lemma abs_link i pre suf p q : bk g !! i = Some (pre ++ suf) ->
  abs_table (<[cell LNext (LHead i) pre := q]> m) (Gst (<[i := pre ++ p :: suf]> (bk g)) None (old g))
  = <[i := {[nkey m p]} ∪ kset m (pre ++ suf)]> (abs_table m g).
Proof.
  intros Hi. unfold abs_table. simpl. apply map_eq. intros j.
  destruct (decide (i = j)) as [<-|Hne].
  - rewrite lookup_fmap, !lookup_insert_eq. simpl. f_equal. unfold kset.
    rewrite cell_keys. fold (kset m (pre ++ p :: suf)) (kset m (pre ++ suf)).
    rewrite !kset_app, kset_cons. set_solver.
  - rewrite lookup_fmap, !lookup_insert_ne, lookup_fmap by done.
    destruct (bk g !! j); [|done]. simpl. unfold kset. by rewrite cell_keys.
Qed.

Lemma abs_unlink i pre d suf q : bk g !! i = Some (pre ++ d :: suf) ->
  abs_table (<[cell LNext (LHead i) pre := q]> m) (Gst (<[i := pre ++ suf]> (bk g)) (Some (d, i)) (old g))
  = <[i := kset m (pre ++ d :: suf) ∖ {[nkey m d]}]> (abs_table m g).
Proof.
  intros Hi. assert (Hi' : bk g !! i = Some ((pre ++ [d]) ++ suf)) by by rewrite <- app_assoc.
  unfold abs_table. simpl. apply map_eq. intros j. destruct (decide (i = j)) as [<-|Hne].
  - rewrite lookup_fmap, !lookup_insert_eq. simpl. f_equal. unfold kset.
    rewrite cell_keys. fold (kset m (pre ++ d :: suf)) (kset m (pre ++ suf)).
    apply set_eq. intros k. rewrite elem_of_difference, !elem_of_kset, elem_of_singleton. split.
    + intros (x & Hx & ->). split; [exists x; set_solver|]. intros Heq.
      apply elem_of_app in Hx as [Hx|Hx].
      * pose proof (inv_keys_split m g HI i pre (d :: suf) x d Hi Hx ltac:(set_solver)). lia.
      * pose proof (inv_keys_split m g HI i _ suf d x Hi' ltac:(set_solver) Hx). lia.
    + intros [(x & Hx & ->) Hk]. exists x. split; [|done]. set_solver.
  - rewrite lookup_fmap, !lookup_insert_ne, lookup_fmap by done.
    destruct (bk g !! j); [|done]. simpl. unfold kset. by rewrite cell_keys.
Qed.

(** A key that lies strictly between two neighbours is not in the bucket. *)
Lemma kset_gap i pre suf k : bk g !! i = Some (pre ++ suf) ->
  (forall x, x ∈ pre -> nkey m x < k) -> (forall x, x ∈ suf -> k < nkey m x) ->
  k ∉ kset m (pre ++ suf).
Proof.
  intros Hi H1 H2. rewrite elem_of_kset. intros (x & [Hx|Hx]%elem_of_app & ->);
    [specialize (H1 x Hx)|specialize (H2 x Hx)]; lia.
Qed.

(** The first key at or above [k] decides whether [k] is in the bucket. *)
Lemma kset_first i pre c suf k : bk g !! i = Some (pre ++ c :: suf) ->
  (forall x, x ∈ pre -> nkey m x < k) -> k <= nkey m c ->
  k ∈ kset m (pre ++ c :: suf) <-> nkey m c = k.
Proof.
  intros Hi H1 H2. rewrite elem_of_kset. split.
  - intros (x & [Hx|[->|Hx]%elem_of_cons]%elem_of_app & ->); [|done|].
    + specialize (H1 x Hx). lia.
    + assert (Hi' : bk g !! i = Some ((pre ++ [c]) ++ suf)) by by rewrite <- app_assoc.
      pose proof (inv_keys_split m g HI i _ suf c x Hi' ltac:(set_solver) Hx). lia.
  - intros <-. exists c. set_solver.
Qed.

End steps.

(** A write to the lists, when fewer nodes are the scheme's. *)
Lemma list_step_sub m g m' g' O : list_step m g m' g' -> O ⊆ old g ->
  list_step m (Gst (bk g) (pend g) O) m' (Gst (bk g') (pend g') O).
Proof.
  intros Hs HO. assert (Hk : forall p, ~ kept g p -> ~ kept (Gst (bk g) (pend g) O) p).
  { intros p Hp [Hl|Hl]; apply Hp; [by left|right; by apply HO]. }
  destruct Hs as [p v Hn Hp|p q Hn Hp Hq|i pre suf p Hi Hpd Hn Hp Hx H1 H2|i pre d suf Hi Hpd].
  - apply ls_key; auto.
  - apply ls_next; auto.
  - apply (ls_link m (Gst (bk g) (pend g) O) i pre suf p); auto.
  - by apply (ls_unlink m (Gst (bk g) (pend g) O) i pre d suf).
Qed.
