(* ===== verification/Frozen.v ===== *)
(** * Nodes that updaters keep

    With deferred reclamation an updater keeps every node it unlinks until the
    readers are done.  [frozen] tells what a step of such an updater leaves
    alone; every write of an updater to the lists and every retirement is such
    a step. *)
From S2P Require Import Prelude Mem RG Table TableFacts.

(** Locations that are neither globals nor thread-local. *)
Abbreviation heap_loc l := (match l with LTls _ _ | LGlob _ | LHP _ => False | _ => True end).

(** [n] is in the list of bucket [i]. *)
Definition linked (g : gst) (i n : Z) : Prop := exists xs, bk g !! i = Some xs /\ n ∈ xs.

(** A node in use keeps its key; once it is unlinked it stays so and its
    pointer does not change. *)
Record frozen (m : mem) (g : gst) (m' : mem) (g' : gst) : Prop := {
  fz_kept n : kept g n -> kept g' n /\ nkey m' n = nkey m n;
  fz_linked i n : linked g i n ->
    linked g' i n \/ (forall j, ~ linked g' j n) /\ m' !! LNext n = m !! LNext n;
  fz_left n : kept g n -> (forall j, ~ linked g j n) ->
    (forall j, ~ linked g' j n) /\ m' !! LNext n = m !! LNext n }.

Lemma linked_kept g i n : linked g i n -> kept g n.
Proof. intros Hl. left. exists i. by left. Qed.

Section frozen.
Context (m : mem) (g : gst) (HI : Inv m g).

Lemma kept_node n : kept g n -> node m n.
Proof. intros [[i Hl]|Hn]; [by eapply live_node|]. by apply (inv_old _ _ HI). Qed.

(** Writes outside the lists. *)
Lemma frozen_grows m' : grows off_list m m' -> frozen m g m' g.
Proof.
  intros Hg. assert (Hx : forall n, kept g n -> m' !! LNext n = m !! LNext n).
  { intros n Hk. destruct (node_field _ _ LNext (kept_node _ Hk) ltac:(set_solver)) as [v Hv].
    rewrite Hv. by apply (grows_lookup m). }
  split; [|by left|auto]. intros n Hk. split; [done|]. eapply grows_nkey; [done|by apply kept_node].
Qed.

(** Writes to a node that is not in use. *)
Lemma frozen_private m' p : ~ kept g p ->
  (forall n, n <> p -> nkey m' n = nkey m n /\ m' !! LNext n = m !! LNext n) -> frozen m g m' g.
Proof.
  intros Hp Hm. assert (Hne : forall n, kept g n -> n <> p) by (by intros n Hk ->).
  split; [|by left|].
  - intros n Hk. split; [done|]. by apply Hm, Hne.
  - intros n Hk Hn. split; [done|]. by apply Hm, Hne.
Qed.

(** A node that is not in front of the cell written keeps its pointer. *)
Lemma cell_next i pre q n : n ∉ pre -> <[cell LNext (LHead i) pre := q]> m !! LNext n = m !! LNext n.
Proof.
  intros Hn. apply lookup_insert_ne. intros Heq.
  destruct (cell_elem LNext (LHead i) pre) as [Hc|(x & Hx & Hc)]; rewrite Hc in Heq; [done|].
  by injection Heq as ->.
Qed.

Lemma linked_link i pre p suf j n : bk g !! i = Some (pre ++ suf) ->
  linked (Gst (<[i:=pre ++ p :: suf]> (bk g)) None (old g)) j n <-> linked g j n \/ j = i /\ n = p.
Proof.
  intros Hi. unfold linked. simpl. destruct (decide (i = j)) as [<-|Hij].
  - rewrite lookup_insert_eq. split.
    + intros (xs & [= <-] & Hn). rewrite elem_of_app, elem_of_cons in Hn.
      destruct (decide (n = p)); [by right|]. left. exists (pre ++ suf). split; [done|]. set_solver.
    + intros [(xs & Hxs & Hn)|[_ ->]]; eexists; (split; [done|]); [|set_solver]. simplify_eq. set_solver.
  - rewrite lookup_insert_ne by done. split; [by left|]. intros [?|[<- _]]; done.
Qed.

Lemma frozen_link i pre suf p : bk g !! i = Some (pre ++ suf) -> pend g = None -> ~ kept g p ->
  frozen m g (<[cell LNext (LHead i) pre := p]> m) (Gst (<[i := pre ++ p :: suf]> (bk g)) None (old g)).
Proof.
  intros Hi Hpd Hp. pose proof (fun j n => linked_link i pre p suf j n Hi) as Hlk. split.
  - intros n Hk. rewrite cell_nkey. split; [|done]. destruct Hk as [Hk|Hk]; [left|by right].
    apply live_link; [done|done|by right].
  - intros j n Hn. left. apply Hlk. by left.
  - intros n Hk Hn. split.
    + intros j [Hj|[_ ->]]%Hlk; [by eapply Hn|done].
    + apply cell_next. intros Hin. apply (Hn i). exists (pre ++ suf). split; [done|]. set_solver.
Qed.

Lemma linked_unlink i pre d suf j n : bk g !! i = Some (pre ++ d :: suf) ->
  linked (Gst (<[i:=pre ++ suf]> (bk g)) (Some (d, i)) (old g)) j n <-> linked g j n /\ n <> d.
Proof.
  intros Hi. pose proof (inv_NoDup m g HI _ _ Hi) as Hnd. apply NoDup_app in Hnd as (_ & Hdp & [Hds _]%NoDup_cons).
  assert (Hdl : d ∉ pre) by (intros Hin; apply (Hdp d Hin); set_solver).
  unfold linked. simpl. destruct (decide (i = j)) as [<-|Hij].
  - rewrite lookup_insert_eq. split.
    + intros (xs & [= <-] & Hn). split; [eexists; split; [done|]; set_solver|]. intros ->. set_solver.
    + intros [(xs & Hxs & Hn) Hne]. eexists. split; [done|]. simplify_eq. set_solver.
  - rewrite lookup_insert_ne by done. split; [|by intros [? _]]. intros (xs & Hxs & Hn). split; [by exists xs|].
    intros ->. apply Hij. eapply (inv_disj _ _ HI i j _ _ d Hi Hxs); [set_solver|done].
Qed.

Lemma frozen_unlink i pre d suf : bk g !! i = Some (pre ++ d :: suf) -> pend g = None ->
  frozen m g (<[cell LNext (LHead i) pre := hd0 suf]> m)
    (Gst (<[i := pre ++ suf]> (bk g)) (Some (d, i)) (old g)).
Proof.
  intros Hi Hpd. pose proof (fun j n => linked_unlink i pre d suf j n Hi) as Hlk.
  pose proof (inv_NoDup m g HI _ _ Hi) as Hnd. apply NoDup_app in Hnd as (_ & Hdp & _). split.
  - intros n Hk. rewrite cell_nkey. split; [|done]. destruct Hk as [Hk|Hk]; [left|by right].
    by apply live_unlink.
  - intros j n Hn. destruct (decide (n = d)) as [->|Hne]; [|left; by apply Hlk]. right.
    split; [by intros k [_ ?]%Hlk|]. apply cell_next. intros Hin. apply (Hdp d Hin). set_solver.
  - intros n Hk Hn. split; [intros j [Hj _]%Hlk; by eapply Hn|]. apply cell_next. intros Hin. apply (Hn i).
    eexists. split; [done|]. set_solver.
Qed.

Lemma frozen_list_step m' g' : list_step m g m' g' -> frozen m g m' g'.
Proof.
  destruct 1 as [p v Hp Hl|p q Hp Hl Hq|i pre suf p Hi Hpd Hp Hl Hx H1 H2|i pre d suf Hi Hpd].
  - apply (frozen_private _ p); [done|]. intros n Hn. split; [by apply nkey_store_ne|by apply lookup_insert_ne].
  - apply (frozen_private _ p); [done|]. intros n Hn. split; [by apply nkey_store_other|].
    apply lookup_insert_ne. congruence.
  - by apply frozen_link.
  - by apply frozen_unlink.
Qed.

Lemma frozen_ext m' : (forall l, heap_loc l -> m' !! l = m !! l) ->
  frozen m g m' g.
Proof.
  clear HI. intros Hm. split; [|by left|].
  - intros n Hk. split; [done|]. unfold nkey. by rewrite Hm.
  - intros n _ Hu. split; [done|]. by apply Hm.
Qed.

(** Retiring a node, which stays unlinked. *)
Lemma frozen_retire m' d i : frozen m g m' g -> pend g = Some (d, i) ->
  frozen m g m' (Gst (bk g) None ({[d]} ∪ old g)).
Proof.
  clear HI. intros [F1 F2 F3] Hp. split; [|exact F2|exact F3]. intros n Hk. destruct (F1 n Hk) as [_ Hn]. split; [|done].
  destruct Hk as [(j & [Hl|Hl])|Hk]; [left; exists j; by left|right; simplify_eq; simpl; set_solver|right; simpl; set_solver].
Qed.

End frozen.

Lemma frozen_equiv m1 m2 m1' m2' g g' :
  (forall l, heap_loc l -> m1' !! l = m1 !! l) ->
  (forall l, heap_loc l -> m2' !! l = m2 !! l) ->
  frozen m1 g m2 g' -> frozen m1' g m2' g'.
Proof.
  intros H1 H2 [F1 F2 F3]. split; unfold nkey in *.
  - intros n. rewrite H1, H2 by done. apply F1.
  - intros i n. rewrite H1, H2 by done. apply F2.
  - intros n. rewrite H1, H2 by done. apply F3.
Qed.

(** ** Over several steps *)

Abbreviation gcfg := (cfg gst).

(** The newest store of the trace is the current one. *)
Definition trace_ok (s : gcfg) : Prop := head (ctr s) = Some (cm s).

(** A step of the store, as readers see it. *)
Record kstep (s s' : gcfg) : Prop := {
  ks_trace : suffix (ctr s) (ctr s');
  ks_ok : trace_ok s';
  ks_inv : Inv (cm s') (cg s');
  ks_frozen : frozen (cm s) (cg s) (cm s') (cg s') }.

Abbreviation ksteps := (rtc kstep).

Lemma ksteps_trace s s' : ksteps s s' -> suffix (ctr s) (ctr s').
Proof. induction 1 as [|s1 s2 s3 Hs _ IH]; [done|]. etrans; [apply Hs|done]. Qed.

Lemma ksteps_wf s s' : trace_ok s /\ Inv (cm s) (cg s) -> ksteps s s' -> trace_ok s' /\ Inv (cm s') (cg s').
Proof. intros Hw Hs. induction Hs as [|s1 s2 s3 Hs _ IH]; [done|]. apply IH. by destruct Hs. Qed.

Lemma ksteps_kept s s' n : ksteps s s' -> kept (cg s) n -> kept (cg s') n /\ nkey (cm s') n = nkey (cm s) n.
Proof.
  induction 1 as [|s1 s2 s3 Hs _ IH]; [done|]. intros Hn. destruct (fz_kept _ _ _ _ (ks_frozen _ _ Hs) n Hn) as [Hn' Hk].
  destruct (IH Hn') as [? ?]. split; [done|congruence].
Qed.

Lemma ksteps_left s s' n : ksteps s s' -> kept (cg s) n -> (forall j, ~ linked (cg s) j n) ->
  cm s' !! LNext n = cm s !! LNext n.
Proof.
  induction 1 as [|s1 s2 s3 Hs _ IH]; [done|]. intros Hn Hu. destruct (fz_left _ _ _ _ (ks_frozen _ _ Hs) n Hn Hu) as [Hu' Hx].
  rewrite IH; [done|by apply Hs|done].
Qed.

(** The pointer of a node is the one it had when it was last in its list. *)
Lemma ksteps_linked s s' i n : ksteps s s' -> linked (cg s) i n ->
  exists s1, ksteps s s1 /\ ksteps s1 s' /\ linked (cg s1) i n /\ cm s' !! LNext n = cm s1 !! LNext n.
Proof.
  induction 1 as [s|s1 s2 s3 Hs Hr IH]; intros Hn; [by exists s|].
  destruct (fz_linked _ _ _ _ (ks_frozen _ _ Hs) i n Hn) as [Hn2|[Hu Hx]].
  - destruct (IH Hn2) as (s & H1 & H2 & H3). exists s. split; [by eapply rtc_l|done].
  - exists s1. split; [done|]. split; [by eapply rtc_l|]. split; [done|].
    rewrite (ksteps_left _ _ _ Hr); [done| |done]. apply Hs. by eapply linked_kept.
Qed.
