(* ===== verification/Types.v ===== *)
(** * Types of the store

    The C types of the program's data, as a predicate on the value of each
    location, and the programs that respect them.  A set [N] of nodes plays
    the part of a store typing: it grows when a node is allocated, and a
    pointer is [NULL] or the address of one of its nodes.  Typed threads keep
    the store well typed under every interleaving, and can fault only by
    following [NULL]. *)
From S2P Require Import Prelude Mem.

(** ** Types *)

Definition int_range (v : Z) : Prop := - 2 ^ 31 <= v < 2 ^ 31.

(** A [node_t *]. *)
Definition ptr (N : gset Z) (v : Z) : Prop := v = NULL \/ 0 < v /\ aligned v /\ v ∈ N.

(** The type of each location; a [__thread] counter of type [double] is an
    unbounded integer in the model. *)
Definition val_typed (N : gset Z) (l : loc) (v : Z) : Prop :=
  match l with
  | LKey _ | LZlistN _ | LTls _ (Vlcnt | Vnbfl) => int_range v
  | LTls _ (Vnbretry | Vnbrelink | Vnbreprev) => - 2 ^ 63 <= v < 2 ^ 63
  | LHead _ | LNext _ | LMrNext _ | LHP _ | LZlistP _ | LGlob Gfreelist
  | LTls _ (Vlfl | Vlfl_tail | Vfree_later) => ptr N v
  | LRc _ | LGc _ | LGlob (Ggo | Gdone | Gready | Gfrct) => 0 <= v < word64
  | LTls _ Vthread => 0 <= v < MAX_THREAD
  | LTls _ (Vthd_seed | Vthd_nbupdaters) => 0 <= v < word32
  | LLock _ | LTls _ Vamort | LGlob (Gqsblockeds | Grcublockeds) => - 2 ^ 63 <= v < word64
  | LTls _ _ => True
  end.

Section types.
Context (nb : Z).   (* nbbuckets *)

(** The locations a program may access. *)
Definition loc_typed (N : gset Z) (l : loc) : Prop :=
  match l with
  | LKey p | LNext p | LMrNext p | LRc p | LGc p => ptr N p
  | LHead i | LLock i => 0 <= i < nb
  | l => is_static l = true
  end.

Definition op_typed (N : gset Z) (o : op) : Prop :=
  match o with
  | Load l => loc_typed N l
  | Store l v | CmpXchg l _ v | Xchg l v => loc_typed N l /\ val_typed N l v
  | XAdd l _ => loc_typed N l /\ forall v, val_typed N l (u64 v)
  | CallocNode | Fence _ | LibCall _ => True
  | _ => False
  end.

Definition op_result (N : gset Z) (o : op) (r : Z) : Prop :=
  match o with
  | Load l | CmpXchg l _ _ | XAdd l _ | Xchg l _ => val_typed N l r
  | CallocNode => ptr N r
  | _ => True
  end.

(** A program that respects the types and whose result is in [T]. *)
Fixpoint typed {A} (T : gset Z -> A -> Prop) (p : prog A) (N : gset Z) : Prop :=
  match p with
  | Ret a => T N a
  | Crash _ => True
  | Vis o k => op_typed N o /\ forall N' r, N ⊆ N' -> op_result N' o r -> typed T (k r) N'
  end.

Record well_typed (N : gset Z) (m : mem) : Prop := {
  wt_val l v : mget m l = Some v -> val_typed N l v;
  wt_node p f : p ∈ N -> f ∈ node_fields -> is_Some (m !! f p);
  wt_array i : 0 <= i < nb -> is_Some (m !! LHead i) /\ is_Some (m !! LLock i) }.

(** An access through [NULL]. *)
Definition null_access (o : op) : Prop :=
  exists f, f ∈ node_fields /\
    match o with
    | Load l | Store l _ | CmpXchg l _ _ | XAdd l _ | Xchg l _ => l = f NULL
    | _ => False
    end.

(** ** The types are kept *)

Lemma ptr_mono N N' v : N ⊆ N' -> ptr N v -> ptr N' v.
Proof. unfold ptr. set_solver. Qed.

Lemma ptr_null N : ptr N NULL.
Proof. by left. Qed.

Lemma ptr_clean N v : ptr N v -> clean_pointer v = v.
Proof. intros [->|(_ & Ha & _)]; [done|]. by apply aligned_even. Qed.

Lemma val_typed_mono N N' l v : N ⊆ N' -> val_typed N l v -> val_typed N' l v.
Proof. intros HN. destruct l as [| | | | | | |[]|? []| | |]; cbn [val_typed]; try (intros Hv; exact Hv); by apply ptr_mono. Qed.

Lemma loc_typed_mono N N' l : N ⊆ N' -> loc_typed N l -> loc_typed N' l.
Proof. intros HN. destruct l; simpl; try done; by apply ptr_mono. Qed.

Lemma val_typed_zero N l : val_typed N l 0.
Proof.
  destruct l as [| | | | | | |[]|? []| | |]; cbn [val_typed]; try exact I; try (by left);
    unfold int_range, word64, word32, MAX_THREAD; lia.
Qed.

Lemma op_typed_mono N N' o : N ⊆ N' -> op_typed N o -> op_typed N' o.
Proof.
  intros HN. destruct o; cbn [op_typed]; try (intros Hv; exact Hv); [by apply loc_typed_mono| | | |];
    intros [Hl Hv]; (split; [by eapply loc_typed_mono|intros; by eapply val_typed_mono]).
Qed.

Lemma typed_mono {A} (T : gset Z -> A -> Prop) p N N' :
  (forall a, T N a -> T N' a) -> N ⊆ N' -> typed T p N -> typed T p N'.
Proof.
  intros HT HN. destruct p as [a|e|o k]; [apply HT|done|]. intros [Ho Hk].
  split; [by eapply op_typed_mono|]. intros N2 r H2. apply Hk. by etrans.
Qed.

Lemma typed_post {A} (T T' : gset Z -> A -> Prop) p : (forall N a, T N a -> T' N a) ->
  forall N, typed T p N -> typed T' p N.
Proof.
  intros HT. induction p as [a|e|o k IH]; intros N; [apply HT|done|]. intros [Ho Hk].
  split; [done|]. intros N' r HN Hr. by apply IH, Hk.
Qed.

Lemma typed_bind {A B} (T : gset Z -> A -> Prop) (T' : gset Z -> B -> Prop) (f : A -> prog B) p : forall N,
  typed T p N -> (forall N' a, N ⊆ N' -> T N' a -> typed T' (f a) N') -> typed T' (p ≫= f) N.
Proof.
  induction p as [a|e|o k IH]; intros N; cbn; [intros Ha Hf; by apply Hf|done|].
  intros [Ho Hk] Hf. split; [done|]. intros N' r HN Hr. apply IH; [by apply Hk|].
  intros N2 a H2. apply Hf. by etrans.
Qed.

(** A step through a mapped location, and what a fault means. *)
Lemma loc_typed_mapped N m l : well_typed N m -> loc_typed N l ->
  is_Some (mget m l) \/ exists f, f ∈ node_fields /\ l = f NULL.
Proof.
  intros [_ Hn Ha] Hl.
  assert (Hf : forall f p, f ∈ node_fields -> ptr N p -> is_Some (mget m (f p)) \/ exists f', f' ∈ node_fields /\ f p = f' NULL).
  { intros f p Hf [->|(_ & _ & Hp)]; [right; by exists f|left]. destruct (Hn p f Hp Hf) as [v Hv]. exists v. by apply mget_lookup. }
  assert (Hs : forall l', is_static l' = true -> is_Some (mget m l') \/ exists f, f ∈ node_fields /\ l' = f NULL).
  { intros l' H'. left. by apply mget_static. }
  destruct l as [i|i|p|p|p|p|p|g|t v|i|t|t]; cbn [loc_typed] in Hl; try (by apply Hs).
  1,2: left; destruct (Ha i Hl) as [[v Hv] [w Hw]]; eexists; by apply mget_lookup.
  - apply (Hf LKey); [set_solver|done].
  - apply (Hf LNext); [set_solver|done].
  - apply (Hf LMrNext); [set_solver|done].
  - apply (Hf LRc); [set_solver|done].
  - apply (Hf LGc); [set_solver|done].
Qed.

Lemma well_typed_insert N m l v : well_typed N m -> val_typed N l v -> well_typed N (<[l := v]> m).
Proof.
  intros [Hv Hn Ha] Hl. assert (Hd : forall l', is_Some (m !! l') -> is_Some (<[l:=v]> m !! l')).
  { intros l' Hs. rewrite lookup_insert_is_Some'. by right. }
  split; [|naive_solver..]. intros l' w. destruct (decide (l = l')) as [<-|Hne].
  - rewrite mget_insert. by intros [= <-].
  - rewrite mget_insert_ne by done. apply Hv.
Qed.

Lemma well_typed_calloc N m p : well_typed N m -> 0 < p -> aligned p -> well_typed ({[p]} ∪ N) (calloc_block p m).
Proof.
  intros [Hv Hn Ha] Hp Hal. assert (Hm : well_typed N (calloc_block p m)).
  { unfold calloc_block, node_fields. simpl. repeat (apply well_typed_insert; [|apply val_typed_zero]). done. }
  destruct Hm as [Hv' Hn' Ha']. split; [|  |exact Ha'].
  - intros l v Hl. eapply val_typed_mono; [|by apply Hv']. set_solver.
  - intros q f Hq Hf. destruct (decide (q ∈ N)) as [HN|HN]; [by apply Hn'|].
    assert (q = p) as -> by set_solver. unfold calloc_block, node_fields in *. simpl.
    set_unfold in Hf. destruct_or! Hf; subst f; rewrite ?lookup_insert_is_Some'; tauto.
Qed.

(** One operation. *)
Lemma op_typed_step `{HC : Calloc} {HO : CallocOk} N m o r m' : well_typed N m -> op_typed N o ->
  op_exec o m = Some (r, m') -> exists N', N ⊆ N' /\ well_typed N' m' /\ op_result N' o r.
Proof.
  intros Hm Ho He. destruct o as [l|l v|l ov nv|l d|l v| | | | | | | |]; cbn [op_exec op_typed op_result] in *; try done;
    try (destruct (mget m l) as [w|] eqn:Hw; [|done]; cbn in He; injection He as <- <-; exists N; split; [done|];
      pose proof (wt_val _ _ Hm _ _ Hw)).
  - done.
  - split; [|done]. by apply well_typed_insert, Ho.
  - split; [|done]. destruct (decide (w = ov)); [|done]. by apply well_typed_insert, Ho.
  - split; [|done]. by apply well_typed_insert, Ho.
  - split; [|done]. by apply well_typed_insert, Ho.
  - injection He as <- <-. destruct (calloc_ok m) as [Hn|(Hp & Ha & _)].
    + exists N. rewrite Hn, decide_True by done. split; [done|]. split; [done|apply ptr_null].
    + exists ({[calloc_addr m]} ∪ N). rewrite decide_False by lia. split; [set_solver|].
      split; [by apply well_typed_calloc|]. right. split; [done|]. split; [done|set_solver].
  - injection He as <- <-. by exists N.
  - injection He as <- <-. by exists N.
Qed.

Lemma op_typed_fault `{HC : Calloc} N m o : well_typed N m -> op_typed N o -> op_exec o m = None -> null_access o.
Proof.
  intros Hm Ho He.
  assert (Hl : forall l, loc_typed N l -> mget m l = None -> exists f, f ∈ node_fields /\ l = f NULL).
  { intros l Hl Hn. destruct (loc_typed_mapped N m l Hm Hl) as [[v Hv]|Hf]; [congruence|done]. }
  unfold null_access. destruct o as [l|l v|l ov nv|l d|l v| | | | | | | |]; cbn [op_exec op_typed] in *; try done;
    (destruct (mget m l) as [w|] eqn:Hw; [done|]); apply Hl; tauto.
Qed.

(** ** Pools *)

Definition any {A} (N : gset Z) (a : A) : Prop := True.

(** No thread is about to fault, unless it follows [NULL]. *)
Definition faults_null `{Calloc} {A} (p : prog A) (m : mem) : Prop :=
  match p with Vis o _ => op_exec o m = None -> null_access o | _ => True end.

Lemma pool_typed `{HC : Calloc} {HO : CallocOk} {A} (c : pool A) tr c' N : well_typed N c.2 ->
  Forall (fun p => typed any p N) c.1 -> psteps c tr c' ->
  exists N', N ⊆ N' /\ well_typed N' c'.2 /\ Forall (fun p => typed any p N') c'.1.
Proof.
  intros Hm Hp Hs. induction Hs as [c|c tr c' ps m Hs IH Hst]; [by exists N|].
  destruct (IH Hm Hp) as (N1 & H1 & Hm1 & Hp1). clear IH Hs.
  inversion Hst as [ps1 m1 i o k r m' Hi He|ps1 m1 i o k Hi He]; subst; cbn [fst snd] in *;
    pose proof (proj1 (Forall_lookup _ _) Hp1 i _ Hi) as [Ho Hk].
  - destruct (op_typed_step N1 m1 o r m Hm1 Ho He) as (N2 & H2 & Hm2 & Hr). exists N2.
    split; [by etrans|]. split; [done|]. apply Forall_insert; [|by apply Hk].
    eapply Forall_impl; [exact Hp1|]. intros p. by apply typed_mono.
  - exists N1. split; [done|]. split; [done|]. by apply Forall_insert.
Qed.

Lemma typed_faults `{HC : Calloc} {A} (T : gset Z -> A -> Prop) p N m :
  typed T p N -> well_typed N m -> faults_null p m.
Proof. destruct p as [a|e|o k]; [done..|]. intros [Ho _] Hm He. exact (op_typed_fault N m o Hm Ho He). Qed.

(** ** The primitives *)

Lemma ty_load N l : loc_typed N l -> typed (fun N v => val_typed N l v) (load l) N.
Proof. intros Hl. by split. Qed.

Lemma ty_store N l v : loc_typed N l -> val_typed N l v -> typed any (store l v) N.
Proof. intros Hl Hv. by split. Qed.

Lemma ty_cmpxchg N l ov nv : loc_typed N l -> val_typed N l nv ->
  typed (fun N v => val_typed N l v) (atomic_cmpxchg4 l ov nv) N.
Proof. intros Hl Hv. by split. Qed.

Lemma ty_cas N l ov nv : loc_typed N l -> val_typed N l nv -> typed any (CAS l ov nv) N.
Proof. intros Hl Hv. by split. Qed.

(** A counter of 64 bits. *)
Definition word_loc (l : loc) : Prop :=
  match l with LLock _ | LRc _ | LGc _ | LGlob (Gready | Gqsblockeds) => True | _ => False end.

Lemma word_typed N l v : word_loc l -> val_typed N l (u64 v).
Proof.
  intros Hl. pose proof (u64_range v). destruct l as [| | | | | | |[]| | | |]; cbn [val_typed word_loc] in *; try done; lia.
Qed.

Lemma ty_xadd N l d : loc_typed N l -> word_loc l -> typed any (atomic_xadd4 l d) N.
Proof. intros Hl Hw. split; [split; [done|]|done]. intros v. by apply word_typed. Qed.

Lemma ty_incr64 N l : loc_typed N l -> word_loc l -> typed any (incr64 l) N.
Proof. intros Hl Hw. split; [done|]. intros N' r HN _. split; [|done]. split; [by eapply loc_typed_mono|by apply word_typed]. Qed.

Lemma ty_fence N b : typed any (fence b) N.
Proof. by split. Qed.

Lemma ty_quiet {A} (p : prog A) : quiet p -> forall N, typed any p N.
Proof.
  induction p as [a|e|o k IH]; intros Hq N; [done..|]. destruct o; try done.
  all: split; [done|]; intros N' r _ _; apply IH, Hq.
Qed.

End types.

Arguments val_typed : simpl never.
Arguments any {A} N a /.
