(* ===== verification/Allocator.v ===== *)
(** * The node allocator (allocator_malloc.c)

    A free list per thread ([lfl], chained by [mr_next]) in front of a shared
    one ([freelist]); nodes are never given back to the C library, so a node
    address stays valid memory for ever, which the searches of GECOS rely on.
    [self] names the thread whose [__thread] variables the code accesses. *)
From S2P Require Import Prelude Mem RG SWP Table TableFacts.

Definition AMORT_FREE_ON : Z := 100.
Definition NBPRE : nat := Z.to_nat 100000.

(** ** Code *)

(** [while (lfl = ACCESS_ONCE(freelist)) if (CAS(&freelist, lfl, NULL)) break;] *)
Fixpoint steal_freelist (fuel : nat) (self : Z) : prog unit :=
  match fuel with
  | O => Crash OutOfFuel
  | S fuel =>
      h ← load (LGlob Gfreelist);
      store (LTls self Vlfl) h;;
      if h =? NULL then Ret tt else
      lfl ← load (LTls self Vlfl);
      b ← CAS (LGlob Gfreelist) lfl NULL;
      if (b : bool) then Ret tt else steal_freelist fuel self
  end.

(** [node = lfl; lfl = node->mr_next; return node;] *)
Definition pop_lfl (self : Z) : prog Z :=
  node ← load (LTls self Vlfl);
  nx ← load (LMrNext node);
  store (LTls self Vlfl) nx;;
  Ret node.

Definition get_free (fuel : nat) (self : Z) : prog Z :=
  lfl ← load (LTls self Vlfl);
  if lfl =? NULL then
    steal_freelist fuel self;;
    lfl ← load (LTls self Vlfl);
    if lfl =? NULL then Ret NULL else pop_lfl self
  else pop_lfl self.

(** [while (!CAS(&freelist, lfl_tail->mr_next, lfl)) lfl_tail->mr_next = freelist;] *)
Fixpoint push_freelist (fuel : nat) (self : Z) : prog unit :=
  match fuel with
  | O => Crash OutOfFuel
  | S fuel =>
      tail ← load (LTls self Vlfl_tail);
      old ← load (LMrNext tail);
      lfl ← load (LTls self Vlfl);
      b ← CAS (LGlob Gfreelist) old lfl;
      if (b : bool) then Ret tt else
      h ← load (LGlob Gfreelist);
      tail ← load (LTls self Vlfl_tail);
      store (LMrNext tail) h;;
      push_freelist fuel self
  end.

(** The [if (lcnt >= AMORT_FREE_ON)] block of [add_free]. *)
Definition flush_lfl (fuel : nat) (self : Z) : prog unit :=
  tail ← load (LTls self Vlfl_tail);
  h ← load (LGlob Gfreelist);
  store (LMrNext tail) h;;
  compiler_barrier;;
  compiler_barrier;;
  push_freelist fuel self;;
  compiler_barrier;;
  store (LTls self Vlfl_tail) NULL;;
  store (LTls self Vlfl) NULL;;
  store (LTls self Vlcnt) 0.

Definition add_free (fuel : nat) (self p : Z) : prog unit :=
  tail ← load (LTls self Vlfl_tail);
  (if tail =? NULL then store (LTls self Vlfl_tail) p else Ret tt);;
  lfl ← load (LTls self Vlfl);
  store (LMrNext p) lfl;;
  store (LTls self Vlfl) p;;
  incr_tls self Vlcnt;;
  cnt ← load (LTls self Vlcnt);
  if AMORT_FREE_ON <=? cnt then flush_lfl fuel self else Ret tt.

Definition new_node (fuel : nat) (self : Z) : prog Z :=
  node ← get_free fuel self;
  if node =? NULL then
    node ← do_op CallocNode;
    incr_tls self Vnbmallocs;;
    Ret node
  else Ret node.

Definition free_node (fuel : nat) (self n : Z) : prog unit :=
  add_free fuel self n;;
  incr_tls self Vnbfl.

(** [PREALLOCAT]: [prealloc] frees [NBPRE] fresh nodes. *)
Fixpoint prealloc_loop (n fuel : nat) (self : Z) : prog unit :=
  match n with
  | O => Ret tt
  | S n =>
      p ← do_op CallocNode;
      free_node fuel self p;;
      prealloc_loop n fuel self
  end.

Definition prealloc (preallocat : bool) (fuel : nat) (self : Z) : prog unit :=
  if preallocat then prealloc_loop NBPRE fuel self else Ret tt.

Definition init_allocator (preallocat : bool) (fuel : nat) (self : Z) : prog unit :=
  store (LGlob Gfreelist) NULL;;
  store (LGlob Gfrct) 0;;
  prealloc preallocat fuel self.

(** [free_nodes]: follows [next], not [mr_next]. *)
Fixpoint free_nodes (fuel : nat) (nodes : Z) (f : Z -> prog unit) : prog unit :=
  match fuel with
  | O => Crash OutOfFuel
  | S fuel =>
      if nodes =? NULL then Ret tt else
      temp ← load (LNext nodes);
      compiler_barrier;;
      f nodes;;
      compiler_barrier;;
      free_nodes fuel temp f
  end.

Definition fnd (fuel : nat) (self : Z) (n : Z) : prog unit := free_node fuel self n.

Definition allocator_thread_free (fuel : nat) (self : Z) : prog unit :=
  lfl ← load (LTls self Vlfl);
  free_nodes fuel lfl (fnd fuel self);;
  compiler_barrier;;
  store (LTls self Vlfl) NULL;;
  store (LTls self Vlfl_tail) NULL.

(** [free] of the C library. *)
Definition c_free (p : Z) : prog unit := _ ← do_op (FreeNode p); Ret tt.

Definition delete_allocator (fuel : nat) : prog unit :=
  h ← load (LGlob Gfreelist);
  free_nodes fuel h c_free;;
  compiler_barrier;;
  store (LGlob Gfreelist) NULL.

(** ** The [SIMPLE_ALLOC] variant: a thread-local stack *)
(** ** The [SIMPLE_AMORT_FREE] variant

    The local list is published only when the global one
    is empty. *)
Module SimpleAmort.

Definition add_free (self p : Z) : prog unit :=
  c_assert (negb (p =? NULL));;
  lfl ← load (LTls self Vlfl);
  store (LMrNext p) lfl;;
  store (LTls self Vlfl) p;;
  incr_tls self Vlcnt;;
  cnt ← load (LTls self Vlcnt);
  if AMORT_FREE_ON <=? cnt then
    h ← load (LGlob Gfreelist);
    if h =? NULL then
      lfl ← load (LTls self Vlfl);
      b ← CAS (LGlob Gfreelist) NULL lfl;
      if (b : bool) then
        write_write_barrier;;
        store (LTls self Vlfl) NULL;;
        store (LTls self Vlcnt) 0
      else Ret tt
    else Ret tt
  else Ret tt.

End SimpleAmort.

(** ** The [SIMPLE_ALLOC] variant: a thread-local stack *)

Module Simple.

Definition get_free (self : Z) : prog Z :=
  node ← load (LTls self Vlfl);
  (if node =? NULL then Ret tt else
   nx ← load (LMrNext node); store (LTls self Vlfl) nx);;
  Ret node.

Definition add_free (self p : Z) : prog unit :=
  lfl ← load (LTls self Vlfl);
  store (LMrNext p) lfl;;
  store (LTls self Vlfl) p.

End Simple.

(** ** Invariant

    [U] is the set of the nodes the allocator has handed out and not got back:
    the two free lists [fl] and [gl] are disjoint chains of other nodes. *)
Record alloc_at (self : Z) (U : gset Z) (m : mem) (fl gl : list Z) : Prop := {
  al_lfl : path LMrNext m (LTls self Vlfl) fl;
  al_gl : path LMrNext m (LGlob Gfreelist) gl;
  al_nodup : NoDup (fl ++ gl);
  al_node n : n ∈ fl ++ gl -> node m n;
  al_free n : n ∈ fl ++ gl -> n ∉ U;
  al_used n : n ∈ U -> node m n;
  al_tail : exists t, mget m (LTls self Vlfl_tail) = Some t /\
    (t = NULL \/ node m t /\ t ∉ gl) }.

Definition alloc_own (self : Z) (U : gset Z) (m : mem) : Prop :=
  exists fl gl, alloc_at self U m fl gl.

(** The locations the allocator writes. *)
Definition alloc_loc (self : Z) (l : loc) : bool :=
  match l with
  | LMrNext _ | LGlob Gfreelist => true
  | LTls t (Vlfl | Vlfl_tail | Vlcnt | Vnbmallocs | Vnbfl) => t =? self
  | _ => false
  end.

(** Those its invariant depends on. *)
Definition alloc_inv_loc (self : Z) (l : loc) : bool :=
  match l with
  | LMrNext _ | LGlob Gfreelist => true
  | LTls t (Vlfl | Vlfl_tail) => t =? self
  | _ => false
  end.

(** The locations that only other threads may write. *)
Definition foreign (self : Z) (l : loc) : bool :=
  match l with
  | LTls t _ => negb (t =? self)
  | LGlob (Ggo | Gdone | Gready) | LHP _ => true
  | _ => false
  end.

(** Guarantees that let a thread run the allocator. *)
Class AllocGuar (self : Z) (SG : mem -> gst -> mem -> gst -> Prop) : Prop := {
  ag_silent m g : SG m g m g;
  ag_store m g l v : alloc_loc self l = true -> SG m g (<[l:=v]> m) g;
  ag_calloc m g p : 0 < p -> p mod CACHESIZE = 0 -> fresh_block m p -> SG m g (calloc_block p m) g }.

(** ** Lemmas *)

Lemma foreign_self self x : foreign self (LTls self x) = false.
Proof. simpl. by rewrite Z.eqb_refl. Qed.

Lemma alloc_loc_self self x : x ∈ [Vlfl; Vlfl_tail; Vlcnt; Vnbmallocs; Vnbfl] ->
  alloc_loc self (LTls self x) = true.
Proof. intros Hx. set_unfold in Hx. destruct_or! Hx; try done; subst x; apply Z.eqb_refl. Qed.

Lemma alloc_loc_off_list self l : alloc_loc self l = true -> list_loc l = false.
Proof. by destruct l. Qed.

Lemma foreign_node_field self p f : f ∈ node_fields -> foreign self (f p) = false.
Proof. intros Hf. unfold node_fields in Hf. set_unfold in Hf. destruct_or! Hf; try done; by subst f. Qed.

Lemma grows_alloc_off_list self m m' : grows (alloc_loc self) m m' -> grows off_list m m'.
Proof. apply grows_weaken. intros l Hl. by rewrite (alloc_loc_off_list self). Qed.

#[export] Hint Resolve foreign_self : mem.
#[export] Hint Extern 1 (alloc_loc _ _ = true) =>
  first [reflexivity | apply alloc_loc_self; set_solver] : mem.

Lemma alloc_at_grows self U W m m' fl gl :
  grows W m m' -> (forall l, alloc_inv_loc self l = true -> W l = false) ->
  alloc_at self U m fl gl -> alloc_at self U m' fl gl.
Proof.
  intros Hg HW [H1 H2 H3 H4 H5 H6 (t & Ht1 & Ht2)].
  assert (HWt : forall x, x ∈ [Vlfl; Vlfl_tail] -> W (LTls self x) = false).
  { intros x Hx. apply HW. set_unfold in Hx. destruct_or! Hx; try done; subst x; apply Z.eqb_refl. }
  split; [| |done| |done| |].
  - eapply grows_path; [done| |done]. intros l [->|(x & _ & ->)]; [apply HWt; set_solver|by apply HW].
  - eapply grows_path; [done| |done]. intros l [->|(x & _ & ->)]; by apply HW.
  - intros n Hn. eapply gr_node; eauto.
  - intros n Hn. eapply gr_node; eauto.
  - exists t. split; [eapply gr_keep; [done|apply HWt; set_solver|done]|].
    destruct Ht2 as [->|[Hn Hgl]]; [by left|right]. split; [by eapply gr_node|done].
Qed.

Lemma alloc_own_grows self U W m m' :
  grows W m m' -> (forall l, alloc_inv_loc self l = true -> W l = false) ->
  alloc_own self U m -> alloc_own self U m'.
Proof. intros Hg HW (fl & gl & Ha). exists fl, gl. by eapply alloc_at_grows. Qed.

(** The fresh node of [calloc] belongs to nobody's free list. *)
Lemma alloc_own_calloc self U m p : fresh_block m p -> p mod CACHESIZE = 0 -> 0 < p ->
  alloc_own self U m -> alloc_own self ({[p]} ∪ U) (calloc_block p m).
Proof.
  intros Hf Hal Hp (fl & gl & Ha). exists fl, gl.
  pose proof (grows_calloc (fun _ => false) m p Hf Hal) as Hg.
  destruct (alloc_at_grows self U _ m _ fl gl Hg ltac:(done) Ha) as [H1 H2 H3 H4 H5 H6 H7].
  split; [done..| | |done].
  - intros n Hn [->%elem_of_singleton|Hn']%elem_of_union; [|by apply (H5 n)].
    apply (fresh_not_node m p Hf). by apply (al_node _ _ _ _ _ Ha).
  - intros n [->%elem_of_singleton|Hn']%elem_of_union; [|auto].
    apply calloc_block_node. lia.
Qed.

Lemma alloc_own_fresh self U m p : fresh_block m p -> alloc_own self U m -> p ∉ U.
Proof. intros Hf (fl & gl & Ha) Hp. apply (fresh_not_node m p Hf). by apply (al_used _ _ _ _ _ Ha). Qed.

Section specs.
Context (self : Z) (SG : mem -> gst -> mem -> gst -> Prop) {HG : AllocGuar self SG}.
Context (E : err -> Prop).

(** Steps of a symbolic execution inside the allocator. *)
Ltac side := first [assumption | apply foreign_self | reflexivity | apply ag_silent
                   | apply ag_store; auto with mem; fail ].
Ltac sload := eapply swp_load; [mget_solve|side|side|].
Ltac sstore := eapply swp_store; [mget_solve|side|side|].

Lemma grows_alloc_store m m' l v : alloc_loc self l = true -> list_loc l = false ->
  grows (alloc_loc self) m m' -> grows (alloc_loc self) m (<[l:=v]> m').
Proof. intros Hl Hl' Hg. etrans; [done|]. by apply grows_store. Qed.

Ltac sgrows := repeat (apply grows_alloc_store; [auto with mem; fail|reflexivity|]); try reflexivity.

(** [x++] on one of the allocator's own counters. *)
Lemma incr_alloc_spec x m g (Q : unit -> mem -> gst -> Prop) :
  x ∈ [Vlcnt; Vnbmallocs; Vnbfl] ->
  (forall v, mget m (LTls self x) = Some v -> Q tt (<[LTls self x := tls_succ x v]> m) g) ->
  swp (foreign self) E SG (incr_tls self x) Q m g.
Proof.
  intros Hx HQ. destruct (mget_static m (LTls self x) eq_refl) as [v Hv].
  unfold incr_tls. sload. apply swp_bind_ret.
  eapply swp_store; [done|apply foreign_self| |by apply HQ].
  apply ag_store, alloc_loc_self. set_solver.
Qed.

Lemma alloc_at_counter U m fl gl x v : x ∈ [Vlcnt; Vnbmallocs; Vnbfl] ->
  alloc_at self U m fl gl -> alloc_at self U (<[LTls self x := v]> m) fl gl.
Proof.
  intros Hx. apply alloc_at_grows with (W := fun l => bool_decide (l = LTls self x)).
  - apply grows_store; [done|]. by apply bool_decide_eq_true.
  - intros l Hl. apply bool_decide_eq_false. intros ->. set_unfold in Hx.
    destruct_or! Hx; try done; subst x; done.
Qed.

Lemma pop_lfl_spec U m g n fl gl :
  alloc_at self U m (n :: fl) gl ->
  swp (foreign self) E SG (pop_lfl self)
    (fun p m' g' => p = n /\ g' = g /\ grows (alloc_loc self) m m' /\
       alloc_at self ({[n]} ∪ U) m' fl gl) m g.
Proof.
  intros [(H1 & Hn0 & Hp) H2 H3 H4 H5 H6 (t & Ht1 & Ht2)]. simpl in H3.
  apply path_alt in Hp as [Hp1 Hp2]. apply NoDup_cons in H3 as [H3n H3].
  unfold pop_lfl. sload. sload. sstore. simpl.
  split_and!; [done|done|sgrows|]. split.
  - apply path_alt. split; [apply mget_insert|]. eapply tail_path_agree; [|done].
    intros x _. by rewrite mget_insert_ne.
  - eapply path_agree; [|done]. intros l [->|(x & _ & ->)]; by rewrite mget_insert_ne.
  - done.
  - intros x Hx. apply node_insert, H4. set_solver.
  - intros x Hx. specialize (H5 x). set_solver.
  - intros x [->%elem_of_singleton|Hx]%elem_of_union; apply node_insert; [apply H4; set_solver|auto].
  - exists t. rewrite mget_insert_ne by done. split; [done|].
    destruct Ht2 as [->|[? ?]]; [by left|right]. split; [by apply node_insert|done].
Qed.

Lemma steal_freelist_spec fuel U m g gl :
  alloc_at self U m [] gl ->
  swp (foreign self) E SG (steal_freelist (S fuel) self)
    (fun _ m' g' => g' = g /\ grows (alloc_loc self) m m' /\ alloc_at self U m' gl []) m g.
Proof.
  intros [H1 H2 H3 H4 H5 H6 (t & Ht1 & Ht2)].
  destruct gl as [|n gl]; cbn [steal_freelist].
  - simpl in H1, H2. sload. sstore. rewrite Z.eqb_refl. cbn.
    split_and!; [done|sgrows|]. split; cbn.
    + apply mget_insert.
    + by rewrite mget_insert_ne.
    + done.
    + set_solver.
    + set_solver.
    + intros x Hx. apply node_insert. auto.
    + exists t. rewrite mget_insert_ne by done. split; [done|].
      destruct Ht2 as [->|[? ?]]; [by left|right]. split; [by apply node_insert|done].
  - destruct H2 as (H2 & Hn0 & Hp). sload. sstore.
    rewrite (proj2 (Z.eqb_neq n NULL)) by done. sload.
    eapply swp_cas; [mget_solve|done|by apply ag_store|]. cbn.
    split_and!; [done|sgrows|]. split; cbn.
    + split_and!; [by rewrite mget_insert_ne, mget_insert by done|done|].
      eapply path_agree; [|done]. intros l [->|(x & _ & ->)]; by rewrite !mget_insert_ne.
    + apply mget_insert.
    + by rewrite app_nil_r.
    + rewrite app_nil_r. intros x Hx. apply node_insert, node_insert, H4. done.
    + rewrite app_nil_r. intros x Hx. by apply H5.
    + intros x Hx. apply node_insert, node_insert. auto.
    + exists t. rewrite !mget_insert_ne by done. split; [done|].
      destruct Ht2 as [->|[? ?]]; [by left|right]. split; [by apply node_insert, node_insert|set_solver].
Qed.

Lemma get_free_spec fuel U m g :
  alloc_own self U m ->
  swp (foreign self) E SG (get_free (S fuel) self)
    (fun p m' g' => g' = g /\ grows (alloc_loc self) m m' /\
       ((p = NULL /\ alloc_own self U m') \/
        (p <> NULL /\ (p ∉ U) /\ alloc_own self ({[p]} ∪ U) m'))) m g.
Proof.
  intros (fl & gl & Ha). unfold get_free. pose proof (path_hd _ _ _ _ (al_lfl _ _ _ _ _ Ha)) as Hl.
  sload. destruct fl as [|n fl]; cbn [hd0].
  - rewrite Z.eqb_refl. apply swp_bind. eapply swp_mono; [by apply steal_freelist_spec|].
    cbn beta. intros [] m1 g1 (-> & Hg & Ha1). pose proof (path_hd _ _ _ _ (al_lfl _ _ _ _ _ Ha1)) as Hl1.
    sload. destruct gl as [|n gl]; cbn [hd0].
    + rewrite Z.eqb_refl. cbn. split_and!; [done|done|]. left. split; [done|]. by exists [], [].
    + pose proof (node_nonnull _ _ (al_node _ _ _ _ _ Ha1 n ltac:(set_solver))) as Hn.
      rewrite (proj2 (Z.eqb_neq n NULL)) by done.
      eapply swp_mono; [by apply pop_lfl_spec|]. cbn. intros p m2 g2 (-> & -> & Hg2 & Ha2).
      split_and!; [done|by etrans|]. right. split; [done|]. split; [|by exists gl, []].
      apply (al_free _ _ _ _ _ Ha1). set_solver.
  - pose proof (node_nonnull _ _ (al_node _ _ _ _ _ Ha n ltac:(set_solver))) as Hn.
    rewrite (proj2 (Z.eqb_neq n NULL)) by done.
    eapply swp_mono; [by apply pop_lfl_spec|]. cbn. intros p m2 g2 (-> & -> & Hg2 & Ha2).
    split_and!; [done|done|]. right. split; [done|]. split; [|by exists fl, gl].
    apply (al_free _ _ _ _ _ Ha). set_solver.
Qed.

(** [new_node] returns a node that is not in use, and never touches the lists
    of the table. *)
Lemma new_node_spec fuel U m g :
  alloc_own self U m ->
  swp (foreign self) E SG (new_node (S fuel) self)
    (fun p m' g' => g' = g /\ grows (alloc_loc self) m m' /\ (p ∉ U) /\
       alloc_own self ({[p]} ∪ U) m') m g.
Proof.
  intros Ha. unfold new_node. apply swp_bind. eapply swp_mono; [by apply get_free_spec|].
  cbn beta. intros p m1 g1 (-> & Hg & [[-> Ha1]|(Hp & Hu & Ha1)]).
  - rewrite Z.eqb_refl. apply swp_calloc. intros a Ha0 Hal Hf.
    split; [by apply ag_calloc|]. apply swp_bind, incr_alloc_spec; [set_solver|].
    intros v Hv. cbn. split_and!; [done| |by eapply alloc_own_fresh|].
    + apply grows_alloc_store; [auto with mem|done|]. etrans; [done|]. by apply grows_calloc.
    + destruct (alloc_own_calloc _ _ _ a Hf Hal Ha0 Ha1) as (fl & gl & Ha2).
      exists fl, gl. apply alloc_at_counter; [set_solver|done].
  - rewrite (proj2 (Z.eqb_neq p NULL)) by done. cbn. done.
Qed.


Lemma alloc_at_push U m fl gl p :
  alloc_at self U m fl gl -> p ∈ U ->
  alloc_at self (U ∖ {[p]}) (<[LTls self Vlfl := p]> (<[LMrNext p := hd0 fl]> m)) (p :: fl) gl.
Proof.
  intros [H1 H2 H3 H4 H5 H6 (t & Ht1 & Ht2)] Hp.
  assert (Hpn : p ∉ fl ++ gl) by (intros Hx; by apply (H5 p)).
  assert (Hne : forall x, x ∈ fl ++ gl -> LMrNext p <> LMrNext x).
  { intros x Hx [= ->]. done. }
  split.
  - split; [apply mget_insert|]. split; [by eapply node_nonnull, H6|].
    apply path_alt in H1 as [_ H1]. apply path_alt.
    split; [by rewrite mget_insert_ne, mget_insert by done|].
    eapply tail_path_agree; [|done]. intros x Hx.
    rewrite !mget_insert_ne; [done|apply Hne; set_solver|done].
  - eapply path_agree; [|done]. intros l [->|(x & Hx & ->)]; rewrite !mget_insert_ne; try done.
    apply Hne. set_solver.
  - constructor; done.
  - intros n Hn. apply node_insert, node_insert. apply elem_of_cons in Hn as [->|Hn]; auto.
  - intros n Hn. apply elem_of_cons in Hn as [->|Hn]; [set_solver|]. specialize (H5 n Hn). set_solver.
  - intros n Hn. apply node_insert, node_insert, H6. set_solver.
  - exists t. rewrite !mget_insert_ne by done. split; [done|].
    destruct Ht2 as [->|[? ?]]; [by left|right]. split; [by apply node_insert, node_insert|done].
Qed.

(** The nodes of a list up to [t]. *)
Fixpoint upto (t : Z) (fl : list Z) : list Z :=
  match fl with
  | [] => []
  | x :: fl => if x =? t then [x] else x :: upto t fl
  end.

Lemma upto_split t a b : t ∉ a -> upto t (a ++ t :: b) = a ++ [t].
Proof.
  induction a as [|x a IH]; simpl; intros Ht; [by rewrite Z.eqb_refl|].
  apply not_elem_of_cons in Ht as [Hx Ht]. rewrite (proj2 (Z.eqb_neq x t)) by done. by rewrite IH.
Qed.

(** The nodes that a flush publishes when the tail is [t]. *)
Definition survives (t : Z) (fl gl : list Z) (x : Z) : Prop := x ∈ gl \/ t ∈ fl /\ x ∈ upto t fl.

(** Linking the tail of the local list to the shared one: what is reachable
    from [lfl] afterwards is a chain without repetition of free nodes, whether
    or not the tail still is in the local list. *)
Lemma splice_lists U m fl gl t :
  alloc_at self U m fl gl -> node m t -> t ∉ gl ->
  exists gl', path LMrNext (<[LMrNext t := hd0 gl]> m) (LTls self Vlfl) gl' /\
    NoDup gl' /\ (forall n, n ∈ gl' -> n ∈ fl ++ gl) /\
    (t ∈ fl -> forall n, survives t fl gl n -> n ∈ gl').
Proof.
  intros [H1 H2 H3 H4 H5 H6 _] Ht Htg. apply path_alt in H2 as [_ H2].
  destruct (decide (t ∈ fl)) as [(a & b & ->)%list_elem_of_split|Hni].
  - exists ((a ++ [t]) ++ gl). split; [|split; [|split]].
    + rewrite <- (cell_snoc LMrNext (LTls self Vlfl) a t).
      eapply (path_set _ _ _ _ b); [by rewrite <- app_assoc| | |done].
      * rewrite <- app_assoc in H3. apply NoDup_app in H3 as (Ha & Hd & Hb).
        apply NoDup_cons. split; [intros (x & ? & _)%list_elem_of_fmap; done|].
        apply (NoDup_fmap_2 LMrNext). apply NoDup_app. split_and!; [done| |by apply NoDup_singleton].
        intros x Hx. specialize (Hd x Hx). set_solver.
      * intros y Hy. rewrite cell_snoc. intros [= ->]. done.
    + rewrite <- !app_assoc in *. apply NoDup_app in H3 as (Ha & Hd & Hb).
      apply NoDup_cons in Hb as [Hb1 Hb2]. apply NoDup_app in Hb2 as (_ & _ & Hg).
      apply NoDup_app. split_and!; [done| |].
      * intros x Hx. specialize (Hd x Hx). set_solver.
      * apply NoDup_cons. split; [set_solver|done].
    + intros n. set_solver.
    + intros _ n. unfold survives. rewrite <- !app_assoc in H3. apply NoDup_app in H3 as (_ & Hd & _).
      rewrite upto_split by (intros Hx; apply (Hd t Hx); set_solver). set_solver.
  - exists fl. apply NoDup_app in H3 as (H3 & _). split; [|split; [done|split; [set_solver|done]]].
    eapply path_agree; [|done]. intros l [->|(x & Hx & ->)]; rewrite mget_insert_ne; try done.
    intros [= ->]. done.
Qed.

(** [W]: locations that cover what the allocator writes, the links of the nodes
    [mr] among them. *)
Definition covers (W : loc -> bool) (mr : Z -> Prop) : Prop :=
  forall l, match l with LMrNext p => mr p | _ => alloc_loc self l = true end -> W l = true.

Lemma covers_alloc mr : covers (alloc_loc self) mr.
Proof. intros l Hl. by destruct l. Qed.

Lemma grows_cover_store W mr m m' l v : covers W mr -> list_loc l = false ->
  match l with LMrNext p => mr p | _ => alloc_loc self l = true end ->
  grows W m m' -> grows W m (<[l:=v]> m').
Proof. intros HW Hl Hc Hg. etrans; [done|]. apply grows_store; [done|]. by apply HW. Qed.

Ltac cgrows HW := repeat (apply (grows_cover_store _ _ _ _ _ _ HW); [reflexivity|auto with mem; fail|]); try reflexivity.

Lemma flush_lfl_spec W fuel U m g fl gl t : covers W (fun p => p = t) ->
  alloc_at self U m fl gl -> mget m (LTls self Vlfl_tail) = Some t -> t <> NULL ->
  swp (foreign self) E SG (flush_lfl (S fuel) self)
    (fun _ m' g' => g' = g /\ grows W m m' /\ exists gl', alloc_at self U m' [] gl' /\
       mget m' (LTls self Vlfl_tail) = Some NULL /\
       (t ∈ fl -> forall n, survives t fl gl n -> n ∈ gl')) m g.
Proof.
  intros HW Ha Ht Ht0. pose proof (path_hd _ _ _ _ (al_lfl _ _ _ _ _ Ha)) as Hl.
  pose proof (path_hd _ _ _ _ (al_gl _ _ _ _ _ Ha)) as Hq.
  destruct (al_tail _ _ _ _ _ Ha) as (t' & Ht' & [->|[Hn Hg]]); simplify_eq.
  destruct (splice_lists U m fl gl t Ha Hn Hg) as (gl' & Hp & Hnd & Hsub & Hsurv).
  destruct (node_mget m t LMrNext Hn ltac:(set_solver)) as [w Hw].
  unfold flush_lfl. cbn [push_freelist]. sload. sload. sstore.
  apply swp_fence; [side|]. apply swp_fence; [side|]. apply swp_bind.
  sload. sload. sload. eapply swp_cas; [mget_solve|done|by apply ag_store|]. apply swp_ret.
  apply swp_fence; [side|]. sstore. sstore. apply swp_bind_ret.
  destruct (mget_static m (LTls self Vlcnt) eq_refl) as [c Hc].
  sstore. apply swp_ret. split; [done|]. split; [cgrows HW|]. exists gl'.
  split; [|split; [by rewrite !mget_insert_ne, mget_insert by (intros [=]; done)|done]].
  assert (Heq : hd0 fl = hd0 gl').
  { apply path_hd in Hp. rewrite mget_insert_ne in Hp by done. congruence. }
  rewrite Heq. apply path_alt in Hp as [_ Hp].
  destruct Ha as [H1 H2 H3 H4 H5 H6 _]. split.
  - simpl. by rewrite mget_insert_ne, mget_insert by (intros [=]; done).
  - apply path_alt. split; [by rewrite !mget_insert_ne, mget_insert by done|].
    eapply tail_path_agree; [|done]. intros x _. by rewrite !mget_insert_ne by done.
  - done.
  - intros n Hn'. do 5 apply node_insert. auto.
  - intros n Hn'. apply H5. auto.
  - intros n Hn'. do 5 apply node_insert. auto.
  - exists NULL. split; [|by left].
    by rewrite !mget_insert_ne, mget_insert by (intros [=]; done).
Qed.

Lemma alloc_at_set_tail U m fl gl p :
  alloc_at self U m fl gl -> p ∈ U -> alloc_at self U (<[LTls self Vlfl_tail := p]> m) fl gl.
Proof.
  intros [H1 H2 H3 H4 H5 H6 _] Hp. split; [| |done| |done| |].
  - eapply path_agree; [|done]. intros l [->|(x & _ & ->)]; by rewrite mget_insert_ne.
  - eapply path_agree; [|done]. intros l [->|(x & _ & ->)]; by rewrite mget_insert_ne.
  - intros n Hn. by apply node_insert, H4.
  - intros n Hn. by apply node_insert, H6.
  - exists p. split; [apply mget_insert|]. right. split; [by apply node_insert, H6|].
    intros Hg. apply (H5 p); set_solver.
Qed.

(** The tail is known to be in the local list; after [get_free] it need not be. *)
Definition tail_in (m : mem) (fl : list Z) : Prop :=
  exists t, mget m (LTls self Vlfl_tail) = Some t /\ (t = NULL \/ t ∈ fl).

(** The nodes that are in the free lists and stay in them at the next flush. *)
Definition safe_free (m : mem) (fl gl : list Z) (x : Z) : Prop :=
  exists t, mget m (LTls self Vlfl_tail) = Some t /\ survives t fl gl x.

(** The free lists go from [fl], [gl] to [fl'], [gl'], which have the node [p] too. *)
Definition lists_gain (p : Z) (m : mem) (fl gl : list Z) (m' : mem) (fl' gl' : list Z) : Prop :=
  tail_in m fl -> tail_in m' fl' /\ forall x, x = p \/ safe_free m fl gl x -> safe_free m' fl' gl' x.

Lemma add_free_gen W fuel U m g fl gl p :
  alloc_at self U m fl gl -> p ∈ U ->
  covers W (fun q => q = p \/ mget m (LTls self Vlfl_tail) = Some q) ->
  swp (foreign self) E SG (add_free (S fuel) self p)
    (fun _ m' g' => g' = g /\ grows W m m' /\
       exists fl' gl', alloc_at self (U ∖ {[p]}) m' fl' gl' /\ lists_gain p m fl gl m' fl' gl') m g.
Proof.
  intros Ha Hp HW. pose proof (al_used _ _ _ _ _ Ha p Hp) as Hn.
  pose proof (al_tail _ _ _ _ _ Ha) as (t & Ht & _).
  unfold add_free. sload. apply swp_bind.
  (* after the tail test, the tail is set *)
  enough (Hrest : forall m1 t1, alloc_at self U m1 fl gl -> grows W m m1 ->
    mget m1 (LTls self Vlfl_tail) = Some t1 -> t1 <> NULL -> (t1 = p /\ t = NULL \/ t1 = t) ->
    swp (foreign self) E SG (lfl ← load (LTls self Vlfl);
      store (LMrNext p) lfl;; store (LTls self Vlfl) p;; incr_tls self Vlcnt;;
      cnt ← load (LTls self Vlcnt);
      if AMORT_FREE_ON <=? cnt then flush_lfl (S fuel) self else Ret tt)
      (fun _ m' g' => g' = g /\ grows W m m' /\
         exists fl' gl', alloc_at self (U ∖ {[p]}) m' fl' gl' /\ lists_gain p m fl gl m' fl' gl') m1 g).
  { destruct (Z.eqb_spec t NULL) as [->|Ht0].
    - apply swp_bind_ret. sstore. apply swp_ret.
      eapply (Hrest _ p); [by apply alloc_at_set_tail|cgrows HW|apply mget_insert|by eapply node_nonnull|by left].
    - apply swp_ret. apply (Hrest m t); [done..|by right]. }
  intros m1 t1 Ha1 Hg1 Ht1 Ht0 Hor. pose proof (path_hd _ _ _ _ (al_lfl _ _ _ _ _ Ha1)) as Hl.
  destruct (node_mget m1 p LMrNext (gr_node _ _ _ Hg1 p Hn) ltac:(set_solver)) as [w Hw].
  sload. sstore. sstore. pose proof (alloc_at_push U m1 fl gl p Ha1 Hp) as Ha2.
  assert (Ht2 : mget (<[LTls self Vlfl := p]> (<[LMrNext p := hd0 fl]> m1)) (LTls self Vlfl_tail) = Some t1)
    by (by rewrite !mget_insert_ne by done).
  assert (Hg2 : grows W m (<[LTls self Vlfl := p]> (<[LMrNext p := hd0 fl]> m1))).
  { apply (grows_cover_store _ _ _ _ _ _ HW); [done|auto with mem|].
    apply (grows_cover_store _ _ _ _ _ _ HW); [done|by left|done]. }
  revert Ht2 Ha2 Hg2. generalize (<[LTls self Vlfl := p]> (<[LMrNext p := hd0 fl]> m1)).
  intros m2 Ht2 Ha2 Hg2. apply swp_bind, incr_alloc_spec; [set_solver|]. intros c Hc.
  eapply swp_load; [apply mget_insert|side|side|].
  assert (Ha3 := alloc_at_counter _ _ _ _ Vlcnt (tls_succ Vlcnt c) ltac:(set_solver) Ha2).
  assert (Hg3 : grows W m (<[LTls self Vlcnt := tls_succ Vlcnt c]> m2)) by (cgrows HW; done).
  assert (Ht3 : mget (<[LTls self Vlcnt := tls_succ Vlcnt c]> m2) (LTls self Vlfl_tail) = Some t1) by (by rewrite mget_insert_ne).
  assert (Hgain : tail_in m fl -> t1 ∈ p :: fl /\ forall x, x = p \/ safe_free m fl gl x -> survives t1 (p :: fl) gl x).
  { intros (t' & Ht' & Hin). rewrite Ht in Ht'. injection Ht' as <-. unfold safe_free.
    destruct Hor as [[-> ->]|[= ->]]; cbn [survives upto].
    - split; [set_solver|]. unfold survives. cbn [upto]. rewrite Z.eqb_refl.
      intros x [->|(t' & Ht' & [Hg|[Hf _]])]; [set_solver|by left|]. rewrite Ht in Ht'. injection Ht' as <-.
      exfalso. eapply node_nonnull; [by apply (al_node _ _ _ _ _ Ha NULL); set_solver|done].
    - destruct Hin as [->|Hin]; [done|]. split; [set_solver|]. unfold survives. cbn [upto].
      rewrite (proj2 (Z.eqb_neq p t)) by (intros ->; by apply (al_free _ _ _ _ _ Ha t); [set_solver|]).
      intros x [->|(t' & Ht' & Hx)]; [set_solver|]. rewrite Ht in Ht'. injection Ht' as <-. set_solver. }
  destruct (AMORT_FREE_ON <=? tls_succ Vlcnt c).
  - eapply swp_mono; [eapply (flush_lfl_spec W); [|exact Ha3|exact Ht3|exact Ht0]|].
    + intros l Hl'. apply HW. destruct l; try done. subst. destruct Hor as [[-> _]| ->]; auto.
    + cbn beta. intros _ m3 g3 (-> & Hg4 & gl' & Ha4 & Ht4 & Hs4). split_and!; [done|by etrans|].
      exists [], gl'. split; [done|]. intros Hin. destruct (Hgain Hin) as [Ht1p Hall].
      split; [exists NULL; auto|]. intros x Hx. exists NULL. split; [done|]. left. by apply Hs4, Hall.
  - apply swp_ret. split_and!; [done|done|]. exists (p :: fl), gl. split; [done|].
    intros Hin. destruct (Hgain Hin) as [Ht1p Hall]. split; [exists t1; auto|].
    intros x Hx. exists t1. auto.
Qed.

Lemma free_node_gen W fuel U m g fl gl p :
  alloc_at self U m fl gl -> p ∈ U ->
  covers W (fun q => q = p \/ mget m (LTls self Vlfl_tail) = Some q) ->
  swp (foreign self) E SG (free_node (S fuel) self p)
    (fun _ m' g' => g' = g /\ grows W m m' /\
       exists fl' gl', alloc_at self (U ∖ {[p]}) m' fl' gl' /\ lists_gain p m fl gl m' fl' gl') m g.
Proof.
  intros Ha Hp HW. unfold free_node. apply swp_bind. eapply swp_mono; [exact (add_free_gen W fuel U m g fl gl p Ha Hp HW)|].
  cbn beta. intros _ m1 g1 (-> & Hg & fl' & gl' & Ha1 & Ht). apply incr_alloc_spec; [set_solver|].
  intros v Hv. split; [done|].
  split; [apply (grows_cover_store _ _ _ _ _ _ HW); [done|auto with mem|done]|]. exists fl', gl'. split; [apply alloc_at_counter; [set_solver|done]|].
  intros Hin. destruct (Ht Hin) as [(t & Ht1 & Ht2) Hx]. split; [exists t; by rewrite mget_insert_ne|].
  intros x Hx'. destruct (Hx x Hx') as (t' & Ht' & Hs). exists t'. by rewrite mget_insert_ne.
Qed.

(** [free_node] takes the node back. *)
Lemma free_node_spec fuel U m g p :
  alloc_own self U m -> p ∈ U ->
  swp (foreign self) E SG (free_node (S fuel) self p)
    (fun _ m' g' => g' = g /\ grows (alloc_loc self) m m' /\ alloc_own self (U ∖ {[p]}) m') m g.
Proof.
  intros (fl & gl & Ha) Hp.
  eapply swp_mono; [by apply (free_node_gen (alloc_loc self) fuel U m g fl gl p), covers_alloc|].
  cbn beta. intros _ m1 g1 (-> & Hg & fl' & gl' & Ha1 & _). split_and!; [done|done|by exists fl', gl'].
Qed.

(** A local list whose tail is in order, so that freeing leaves the links of the
    nodes in use alone, and in which the nodes [F] have been freed for good. *)
Definition alloc_tidy (U : gset Z) (F : list Z) (m : mem) : Prop :=
  exists fl gl, alloc_at self U m fl gl /\ tail_in m fl /\ forall x, x ∈ F -> safe_free m fl gl x.

Definition free_writes (U : gset Z) (l : loc) : bool :=
  match l with LMrNext q => bool_decide (q ∉ U) | _ => alloc_loc self l end.

Lemma free_node_tidy fuel U F m g p : alloc_tidy U F m -> p ∈ U ->
  swp (foreign self) E SG (free_node (S fuel) self p)
    (fun _ m' g' => g' = g /\ grows (free_writes (U ∖ {[p]})) m m' /\ alloc_tidy (U ∖ {[p]}) (p :: F) m') m g.
Proof.
  intros (fl & gl & Ha & Ht & HF) Hp.
  eapply swp_mono; [apply (free_node_gen (free_writes (U ∖ {[p]})) fuel U m g fl gl p); [done..|]|].
  - intros l Hl. destruct l; try done. cbn. apply bool_decide_eq_true.
    destruct Hl as [->|Hl]; [set_solver|]. destruct Ht as (t & Ht1 & [->|Ht2]); rewrite Hl in Ht1; injection Ht1 as ->.
    + intros Hin. apply (node_nonnull m NULL); [|done]. apply (al_used _ _ _ _ _ Ha). set_solver.
    + intros Hin. apply (al_free _ _ _ _ _ Ha t); set_solver.
  - cbn beta. intros _ m' g' (-> & Hg & fl' & gl' & Ha' & Ht'). split_and!; [done|done|].
    destruct (Ht' Ht) as [Ht2 Hx]. exists fl', gl'. split_and!; [done|done|].
    intros x [->|Hin]%elem_of_cons; apply Hx; auto.
Qed.

End specs.

(** The nodes freed for good are in the free lists. *)
Lemma safe_free_in self m fl gl x : safe_free self m fl gl x -> x ∈ fl ++ gl.
Proof.
  intros (t & _ & [Hx|[_ Hx]]); [set_solver|]. apply elem_of_app. left. revert Hx.
  induction fl as [|y fl IH]; [done|]. cbn [upto]. destruct (y =? t); set_solver.
Qed.

(** Sequential programs need no guarantee. *)
Definition any_step {Gh : Set} (m : mem) (g : Gh) (m' : mem) (g' : Gh) : Prop := True.

#[export] Instance any_step_alloc self : AllocGuar self any_step.
Proof. by split. Qed.
