(* ===== verification/Erase.v ===== *)
(** * The lists apart from the rest of the store

    Operations that leave the lists of the table alone, those of the allocator
    and of the threads' own variables, and the store as an updater's list
    operations see it. *)
From S2P Require Import Prelude Mem RG SWP Table TableFacts Allocator.

(** ** Operations off the lists *)

(** The allocator's locations, and operations on them. *)
Definition off_loc (l : loc) : bool :=
  match l with LMrNext _ | LTls _ _ | LGlob _ => true | _ => false end.

Definition off_op (o : op) : Prop :=
  match o with
  | Load _ | Fence _ | CallocNode => True
  | Store l _ | CmpXchg l _ _ | XAdd l _ | Xchg l _ => off_loc l = true
  | _ => False
  end.

Fixpoint off_prog (P : op -> Prop) {A} (p : prog A) : Prop :=
  match p with
  | Vis o k => off_op o /\ P o /\ forall r, off_prog P (k r)
  | _ => True
  end.

Lemma off_bind P {A B} (p : prog A) (f : A -> prog B) :
  off_prog P p -> (forall a, off_prog P (f a)) -> off_prog P (p ≫= f).
Proof. induction p as [a|e|o k IH]; cbn; [auto|done|]. intros (H1 & H2 & H3) Hf. auto. Qed.

Lemma off_weaken (P P' : op -> Prop) {A} (p : prog A) : (forall o, P o -> P' o) -> off_prog P p -> off_prog P' p.
Proof. intros HP. induction p as [a|e|o k IH]; cbn; [done..|]. intros (H1 & H2 & H3). auto. Qed.

(** A program of the allocator, operation by operation. *)
Ltac off_steps := repeat (apply I || (split; [done|split; [done|intros ?]]) || (apply off_bind; [|intros ?]) || case_match || assumption).

Lemma off_new_node fuel t : off_prog (fun _ => True) (new_node fuel t).
Proof.
  assert (Hs : forall n, off_prog (fun _ => True) (steal_freelist n t)) by (induction n as [|n IH]; [done|]; cbn; off_steps).
  unfold new_node. cbn. off_steps. apply Hs.
Qed.

(** [free_node] never allocates. *)
Lemma off_free_node fuel t n : off_prog (fun o => o <> CallocNode) (free_node fuel t n).
Proof.
  assert (Hp : forall f, off_prog (fun o => o <> CallocNode) (push_freelist f t)).
  { induction f as [|f IH]; [done|]. cbn. off_steps. }
  unfold free_node. cbn. off_steps. apply Hp.
Qed.

(** A write to the lists is one whatever the rest of the store holds. *)
Lemma list_step_agree m1 m2 g l v g' : (forall x, list_loc x = true -> m1 !! x = m2 !! x) ->
  (forall p, node m1 p <-> node m2 p) -> list_loc l = true ->
  list_step m1 g (<[l := v]> m1) g' -> list_step m2 g (<[l := v]> m2) g'.
Proof.
  intros Hm Hno Hl Hs. remember (<[l := v]> m1) as m1' eqn:Hm1.
  assert (Hw : forall l0 v0, list_loc l0 = true -> <[l0 := v0]> m1 = <[l := v]> m1 -> <[l0 := v0]> m2 = <[l := v]> m2).
  { intros l0 v0 Hl0 He. apply map_eq. intros x. destruct (list_loc x) eqn:Hx.
    - assert (He' : <[l0 := v0]> m1 !! x = <[l := v]> m1 !! x) by (by rewrite He). revert He'.
      destruct (decide (l0 = x)) as [->|], (decide (l = x)) as [->|];
        rewrite ?lookup_insert_eq, ?lookup_insert_ne by done; rewrite ?Hm by done; congruence.
    - rewrite !lookup_insert_ne; [done|..]; intros ->; congruence. }
  assert (Hk : forall x, nkey m1 x = nkey m2 x) by (intros x; unfold nkey; by rewrite Hm).
  destruct Hs as [p w Hn Hp|p q Hn Hp Hq|i pre suf p Hi Hpd Hn Hp Hx H1 H2|i pre d suf Hi Hpd].
  - rewrite <- (Hw (LKey p) w) by done. apply ls_key; [by apply Hno|done].
  - rewrite <- (Hw (LNext p) q) by done. apply ls_next; [by apply Hno|done|].
    destruct Hq as [?|?]; [by left|right; by apply Hno].
  - rewrite <- (Hw (cell LNext (LHead i) pre) p) by (done || apply cell_list_loc).
    apply ls_link; [done|done|by apply Hno|done|by rewrite <- Hm| |]; intros x Hin; rewrite <- !Hk; auto.
  - rewrite <- (Hw (cell LNext (LHead i) pre) (hd0 suf)) by (done || apply cell_list_loc). by apply ls_unlink.
Qed.

(** ** The erased store *)

(** The store without what the allocator and the threads' own variables are
    about: what the updater's list operations see. *)
Definition erase (m : mem) : mem :=
  map_imap (fun l v => match l with
    | LHead _ | LLock _ | LKey _ | LNext _ | LRc _ | LGc _ => Some v
    | LMrNext _ => Some 0
    | _ => None end) m.

Lemma erase_list m l : list_loc l = true -> erase m !! l = m !! l.
Proof. unfold erase. rewrite map_lookup_imap. destruct l; try done; by destruct (m !! _). Qed.

Lemma erase_lock m i : erase m !! LLock i = m !! LLock i.
Proof. unfold erase. rewrite map_lookup_imap. by destruct (m !! _). Qed.

Lemma erase_some m l : is_Some (erase m !! l) <-> is_Some (m !! l) /\ match l with
  LHead _ | LLock _ | LKey _ | LNext _ | LMrNext _ | LRc _ | LGc _ => True | _ => False end.
Proof.
  unfold erase. rewrite map_lookup_imap. destruct (m !! l) as [v|]; simpl; [|split; [by intros []|by intros [[] _]]].
  destruct l; split; try done; by intros [].
Qed.

Lemma node_erase m p : node (erase m) p <-> node m p.
Proof.
  unfold node. rewrite !Forall_forall. split; intros [H0 Hf]; (split; [done|]); intros f Hin; specialize (Hf f Hin).
  - by apply erase_some in Hf as [? _].
  - apply erase_some. split; [done|]. unfold node_fields in Hin. set_unfold in Hin. by destruct_or! Hin; subst f.
Qed.

Lemma erase_insert_off m l v : off_loc l = true -> is_Some (mget m l) -> erase (<[l := v]> m) = erase m.
Proof.
  intros Hl Hm. apply map_eq. intros l'. unfold erase. rewrite !map_lookup_imap.
  destruct (decide (l = l')) as [<-|Hne]; [|by rewrite lookup_insert_ne]. rewrite lookup_insert_eq.
  destruct l; try done; simpl; [|by destruct (m !! _)..]. unfold mget in Hm. simpl in Hm.
  destruct (m !! LMrNext p); [done|by destruct Hm].
Qed.

Lemma erase_insert_list m l v : list_loc l = true -> erase (<[l := v]> m) = <[l := v]> (erase m).
Proof.
  intros Hl. apply map_eq. intros l'. unfold erase. rewrite map_lookup_imap.
  destruct (decide (l = l')) as [<-|Hne]; [rewrite !lookup_insert_eq; by destruct l|].
  rewrite !lookup_insert_ne by done. by rewrite map_lookup_imap.
Qed.

Lemma grows_erase m : grows off_list m (erase m).
Proof.
  split; [| | | |done|done].
  - intros l v Hl. apply negb_false_iff in Hl. rewrite !mget_list_loc, erase_list by done. done.
  - intros p. by rewrite node_erase.
  - intros l Hl Hm. apply erase_some. split; [done|]. by destruct l.
  - intros n q. rewrite erase_list by done. by left.
Qed.

Lemma erase_eq_node m m' p : erase m' = erase m -> node m' p -> node m p.
Proof. intros He Hn. apply node_erase. rewrite <- He. by apply node_erase. Qed.

Lemma erase_grows m m' : grows off_list m m' -> grows off_list (erase m) (erase m').
Proof.
  intros [Hk Hn Hd Hx Hr Hl]. split; [| | | |done|done].
  - intros l v Hll. apply negb_false_iff in Hll. rewrite !mget_list_loc, !erase_list by done.
    rewrite <- !mget_list_loc by done. apply Hk. by rewrite Hll.
  - intros p. rewrite !node_erase. apply Hn.
  - intros l Hh. rewrite !erase_some. intros [Hs Hm]. split; [by apply Hd|done].
  - intros n q. rewrite !erase_list by done. apply Hx.
Qed.

(** An operation of the allocator. *)
Lemma off_op_exec `{HC : Calloc} {HT : CallocTotal} o m r m' : off_op o -> op_exec o m = Some (r, m') ->
  grows off_list m m' /\ (o <> CallocNode -> erase m' = erase m).
Proof.
  assert (Hst : forall l v, off_loc l = true -> is_Some (mget m l) ->
    grows off_list m (<[l := v]> m) /\ erase (<[l := v]> m) = erase m).
  { intros l v Hl Hm. split; [apply grows_store; by destruct l|by apply erase_insert_off]. }
  intros Ho He. destruct o as [l|l v|l ov nv|l d|l v| | | | | | |b|c]; cbn in *; try done;
    try (destruct (mget m l) as [w|] eqn:Hw; [|done]; cbn in He).
  - by injection He as <- <-.
  - injection He as <- <-. destruct (Hst l v) as [? ?]; [done|by rewrite Hw|done].
  - injection He as <- <-. case_decide; [|done]. destruct (Hst l nv) as [? ?]; [done|by rewrite Hw|done].
  - injection He as <- <-. destruct (Hst l (u64 (w + d))) as [? ?]; [done|by rewrite Hw|done].
  - injection He as <- <-. destruct (Hst l v) as [? ?]; [done|by rewrite Hw|done].
  - injection He as <- <-. destruct (calloc_total m) as (Hp & Ha & Hf). rewrite decide_False by lia.
    split; [by apply grows_calloc|done].
  - by injection He as <- <-.
Qed.

(** A program of the allocator that allocates nothing leaves the rest alone. *)
Lemma off_run `{HC : Calloc} {HT : CallocTotal} {A} (p : prog A) : forall m a m',
  off_prog (fun o => o <> CallocNode) p -> run p m = Ok a m' -> erase m' = erase m.
Proof.
  induction p as [b|e|o k IH]; intros m a m' Hoff Hr; simpl in *; [congruence|done|].
  destruct Hoff as (Ho & Hc & Hk). destruct (op_exec o m) as [[r m1]|] eqn:He; [|done].
  rewrite (IH r m1 a m' (Hk r) Hr). by apply (off_op_exec o m r).
Qed.
