(* ===== verification/AllocMain.v ===== *)
(** * What the allocator guarantees (allocator_malloc.c)

    Run-level theorems about [new_node] and [free_node], and an execution in
    which [add_free] loses free nodes. *)
From S2P Require Import Prelude Mem Concrete RG SWP Table TableFacts Allocator.

(** What a client of the allocator does next: ask for a node, or give back the
    one at place [i] among those it holds. *)
Inductive alloc_op := Alloc | Free (i : nat).

(** [n] nodes given back, the one held longest first. *)
Definition free_all (n : nat) : list alloc_op := map Free (reverse (seq 0 n)).

(** A client; it returns the nodes it holds in the end, newest first. *)
Fixpoint session (fuel : nat) (self : Z) (ops : list alloc_op) (held : list Z) : prog (list Z) :=
  match ops with
  | [] => Ret held
  | Alloc :: ops => p ← new_node fuel self; session fuel self ops (p :: held)
  | Free i :: ops =>
      match held !! i with
      | Some p => free_node fuel self p;; session fuel self ops (delete i held)
      | None => session fuel self ops held
      end
  end.

Section alloc.
Context `{HC : Calloc} {HT : CallocTotal} (self : Z).

Lemma new_node_run fuel U m : alloc_own self U m ->
  exists p m', run (new_node (S fuel) self) m = Ok p m' /\ p ∉ U /\ node m' p /\
    grows (alloc_loc self) m m' /\ alloc_own self ({[p]} ∪ U) m'.
Proof.
  intros Ha. pose proof (new_node_spec self any_step (fun _ => False) fuel U m (Gst ∅ None ∅) Ha) as Hp.
  apply swp_run in Hp; [|by apply foreign_node_field].
  destruct (run _ m) as [p m'|]; [|done]. destruct Hp as (_ & g' & (_ & Hg & Hu & Ho) & _).
  exists p, m'. split_and!; [done|done| |done|done].
  destruct Ho as (fl & gl & Ho). apply (al_used _ _ _ _ _ Ho). set_solver.
Qed.

Lemma free_node_run fuel U m p : alloc_own self U m -> p ∈ U ->
  exists m', run (free_node (S fuel) self p) m = Ok tt m' /\
    grows (alloc_loc self) m m' /\ alloc_own self (U ∖ {[p]}) m'.
Proof.
  intros Ha Hin. pose proof (free_node_spec self any_step (fun _ => False) fuel U m (Gst ∅ None ∅) p Ha Hin) as Hp.
  apply swp_run in Hp; [|by apply foreign_node_field].
  destruct (run _ m) as [u m'|]; [|done]. destruct Hp as (_ & g' & (_ & Hg & Ho) & _), u.
  by exists m'.
Qed.

(** C21: a node is never handed out twice.  Whatever the client asks for and
    whichever of its nodes it gives back, in any order, the session ends and the
    nodes it holds are pairwise distinct, allocated, and distinct from those in
    use before. *)
Theorem no_double_allocation fuel ops : forall held U m, alloc_own self U m ->
  NoDup held -> (forall p, p ∈ held -> p ∈ U) ->
  exists held' m', run (session (S fuel) self ops held) m = Ok held' m' /\
    NoDup held' /\ (forall p, p ∈ held' -> node m' p /\ (p ∈ U -> p ∈ held)).
Proof.
  induction ops as [|[|i] ops IH]; intros held U m Ha Hnd Hin; cbn [session].
  - exists held, m. split_and!; [done|done|]. intros p Hp. split; [|done].
    destruct Ha as (fl & gl & Ha). apply (al_used _ _ _ _ _ Ha). auto.
  - destruct (new_node_run fuel U m Ha) as (p & m1 & Hr & Hu & _ & _ & Ha1). rewrite run_bind, Hr.
    destruct (IH (p :: held) _ m1 Ha1) as (held' & m' & Hr' & Hnd' & Hin').
    { constructor; [|done]. intros Hp. by apply Hu, Hin. }
    { intros q [->|Hq]%elem_of_cons; set_solver. }
    exists held', m'. split_and!; [done|done|]. intros q Hq. destruct (Hin' q Hq) as [Hn Hq'].
    split; [done|]. intros Hqu. specialize (Hq' ltac:(set_solver)). apply elem_of_cons in Hq' as [->|?]; done.
  - destruct (held !! i) as [p|] eqn:Hl; [|by eapply IH].
    pose proof (delete_Permutation held i p Hl) as Hperm. rewrite Hperm in Hnd.
    assert (Hsub : forall q, q ∈ held <-> q = p \/ q ∈ delete i held)
      by (intros q; rewrite Hperm at 1; apply elem_of_cons).
    apply NoDup_cons in Hnd as [Hp Hnd].
    destruct (free_node_run fuel U m p Ha) as (m1 & Hr & _ & Ha1); [apply Hin, Hsub; by left|].
    rewrite run_bind, Hr. destruct (IH (delete i held) _ m1 Ha1 Hnd) as (held' & m' & Hr' & Hnd' & Hin').
    { intros q Hq. apply elem_of_difference. split; [apply Hin, Hsub; by right|].
      by intros ->%elem_of_singleton. }
    exists held', m'. split_and!; [done|done|]. intros q Hq. destruct (Hin' q Hq) as [Hn Hq'].
    split; [done|]. intros Hqu. apply Hsub. destruct (decide (q = p)) as [->|Hne]; set_solver.
Qed.

End alloc.

Lemma alloc_own_empty self : alloc_own self ∅ ∅.
Proof.
  exists [], []. split; [done|done|constructor|set_solver|set_solver|set_solver|].
  exists NULL. split; [done|by left].
Qed.

Lemma no_double_allocation_witness : alloc_own 0 ∅ ∅ /\
  exists held' m', run (session 3 0 [Alloc; Alloc; Alloc; Free 1; Alloc] []) ∅ = Ok held' m' /\ NoDup held' /\
    (forall p, p ∈ held' -> node m' p /\ (p ∈ (∅ : gset Z) -> p ∈ [])).
Proof.
  split; [apply alloc_own_empty|].
  apply (no_double_allocation 0 2 [Alloc; Alloc; Alloc; Free 1; Alloc] [] ∅ ∅);
    [apply alloc_own_empty|constructor|intros p Hp; by apply not_elem_of_nil in Hp].
Defined.

(** The allocations of the session are visible: of three nodes the second was
    given back and handed out again. *)
Example session_small :
  match run (session 3 0 [Alloc; Alloc; Alloc; Free 1; Alloc] []) ∅ with
  | Ok held _ => held = [128; 192; 64] | Err _ _ => False end.
Proof. vm_compute. reflexivity. Qed.

(** ** A node given back is the next one handed out *)

Lemma incr_tls_run `{Calloc} {A} self x v (k : unit -> prog A) m : mget m (LTls self x) = Some v ->
  run (incr_tls self x ≫= k) m = run (k tt) (<[LTls self x := tls_succ x v]> m).
Proof.
  intros Hv. unfold incr_tls.
  transitivity (run (load (LTls self x) ≫= fun v => store (LTls self x) (tls_succ x v) ≫= k) m); [done|].
  rewrite (run_load _ _ _ _ Hv), run_store by (by rewrite Hv). done.
Qed.

Lemma free_node_small `{Calloc} fuel self m p h c : is_Some (m !! LMrNext p) ->
  mget m (LTls self Vlfl) = Some h -> mget m (LTls self Vlcnt) = Some c -> c + 1 < AMORT_FREE_ON ->
  exists m', run (free_node fuel self p) m = Ok tt m' /\ mget m' (LTls self Vlfl) = Some p /\
    mget m' (LMrNext p) = Some h /\ mget m' (LTls self Vlcnt) = Some (c + 1) /\
    (forall x, x <> p -> mget m' (LMrNext x) = mget m (LMrNext x)).
Proof.
  intros [w Hw] Hh Hc Hlt. apply mget_lookup in Hw.
  assert (Hs : tls_succ Vlcnt c = c + 1) by (unfold tls_succ, wrap_succ, AMORT_FREE_ON in *; by rewrite (proj2 (Z.eqb_neq _ _)) by lia).
  destruct (mget_static m (LTls self Vlfl_tail) eq_refl) as [t Ht].
  destruct (mget_static m (LTls self Vnbfl) eq_refl) as [n Hn].
  assert (Htail : exists m1, run (if t =? NULL then store (LTls self Vlfl_tail) p else Ret tt) m = Ok tt m1 /\
    forall l, l <> LTls self Vlfl_tail -> mget m1 l = mget m l).
  { destruct (t =? NULL); [|by exists m].
    exists (<[LTls self Vlfl_tail := p]> m). cbn. rewrite Ht. split; [done|].
    intros l Hl. by rewrite mget_insert_ne. }
  destruct Htail as (m1 & Hr & Hm1).
  unfold free_node. rewrite run_bind. unfold add_free.
  rewrite (run_load _ _ _ _ Ht), run_bind, Hr.
  rewrite (run_load _ h) by (by rewrite Hm1). rewrite run_store by (rewrite Hm1; eauto).
  rewrite run_store by (eexists; mget_simpl; rewrite Hm1; eauto).
  rewrite (incr_tls_run _ _ c), Hs by (mget_simpl; by rewrite Hm1).
  rewrite (run_load _ (c + 1)) by apply mget_insert.
  rewrite (proj2 (Z.leb_gt _ _)) by done. cbn [run].
  set (m2 := <[LTls self Vlcnt := c + 1]> _).
  assert (Hn2 : mget m2 (LTls self Vnbfl) = Some n) by (unfold m2; mget_simpl; by rewrite Hm1).
  unfold incr_tls. rewrite (run_load _ _ _ _ Hn2). cbn. rewrite Hn2. cbn.
  eexists. split; [done|]. unfold m2. split_and!; [by mget_simpl..|].
  intros x Hx. mget_simpl. by apply Hm1.
Qed.

Lemma new_node_pop `{Calloc} fuel self m p h : p <> NULL ->
  mget m (LTls self Vlfl) = Some p -> mget m (LMrNext p) = Some h ->
  run (new_node fuel self) m = Ok p (<[LTls self Vlfl := h]> m).
Proof.
  intros Hp Hl Hn. unfold new_node, get_free. rewrite run_bind, (run_load _ _ _ _ Hl).
  rewrite (proj2 (Z.eqb_neq p NULL)) by done. unfold pop_lfl.
  rewrite (run_load _ _ _ _ Hl), (run_load _ _ _ _ Hn), run_store by eauto. cbn [run].
  by rewrite (proj2 (Z.eqb_neq p NULL)).
Qed.

(** C34: below the amortisation threshold the local list is a stack. *)
Theorem free_new_roundtrip `{Calloc} fuel self m p fl c : p <> NULL -> p ∉ fl ->
  is_Some (m !! LMrNext p) -> path LMrNext m (LTls self Vlfl) fl ->
  mget m (LTls self Vlcnt) = Some c -> c + 1 < AMORT_FREE_ON ->
  exists m', run (free_node fuel self p;; new_node fuel self) m = Ok p m' /\
    path LMrNext m' (LTls self Vlfl) fl /\ mget m' (LTls self Vlcnt) = Some (c + 1).
Proof.
  intros Hp Hfl Hw Hpath Hc Hlt.
  destruct (free_node_small fuel self m p _ c Hw (path_hd _ _ _ _ Hpath) Hc Hlt)
    as (m1 & Hr & Hl1 & Hn1 & Hc1 & Hx1).
  rewrite run_bind, Hr, (new_node_pop _ _ _ p (hd0 fl)) by done. eexists. split; [done|].
  split; [|by mget_simpl]. apply path_alt. split; [apply mget_insert|].
  apply path_alt in Hpath as [_ Hpath]. eapply tail_path_agree; [|exact Hpath].
  intros x Hx. rewrite mget_insert_ne by done. apply Hx1. intros ->. done.
Qed.

(** The node of address 64, alone in the store. *)
Lemma free_new_roundtrip_witness : exists m',
  run (free_node 1 0 64;; new_node 1 0) (calloc_block 64 ∅) = Ok 64 m' /\
  path LMrNext m' (LTls 0 Vlfl) [] /\ mget m' (LTls 0 Vlcnt) = Some (0 + 1).
Proof.
  apply (free_new_roundtrip 1 0 (calloc_block 64 ∅) 64 [] 0);
    [done|apply not_elem_of_nil|eexists; vm_compute; reflexivity|reflexivity|reflexivity|reflexivity].
Defined.

(** ** Lost nodes

    [get_free] takes over the global list without setting [lfl_tail]; the next
    [add_free] makes its own node the tail although the stolen nodes follow
    it, and the next flush cuts them off. *)
Definition leak_ops : list alloc_op :=
  repeat Alloc 100 ++ free_all 100 ++ concat (repeat [Alloc; Free 0] 100).

(** C33: one hundred nodes are allocated and given back, a flush later
    a single one is left in the free lists. *)
Theorem add_free_leaks : exists p m', run (session 3 0 leak_ops []) ∅ = Ok [] m' /\
  mget m' (LTls 0 Vnbmallocs) = Some 100 /\
  path LMrNext m' (LTls 0 Vlfl) [] /\ path LMrNext m' (LGlob Gfreelist) [p].
Proof.
  set (s := run (session 3 0 leak_ops []) ∅).
  assert (Hs : match s with Ok held m' => held = [] /\ mget m' (LTls 0 Vnbmallocs) = Some 100 /\
    mget m' (LTls 0 Vlfl) = Some 0 /\ mget m' (LGlob Gfreelist) = Some 6400 /\
    mget m' (LMrNext 6400) = Some 0 | Err _ _ => False end) by (vm_compute; done).
  destruct s as [held m'|]; [|done]. destruct Hs as (-> & H1 & H2 & H3 & H4).
  exists 6400, m'. split_and!; done.
Qed.
