(* ===== verification/AllocRace.v ===== *)
(** * Two threads and the allocator (allocator_malloc.c)

    [add_free] keeps the address of the last node of the local list in
    [lfl_tail], but [get_free] does not reset it when it takes that node out of
    the list.  The node may meanwhile be freed by another thread; the next flush
    then writes into a list that is not its own. *)
From S2P Require Import Prelude Mem Concrete Schedules RG SWP Table TableFacts Allocator AllocMain.

(** Thread 0 allocates a hundred nodes, gives the first one back and gets it
    again: now it is the tail of an empty list. *)
Definition stale_tail : list alloc_op := repeat Alloc 100 ++ [Free 99; Alloc].

(** It passes that node [p] on and frees the others; thread 1, which got [p],
    frees it among a hundred nodes and then allocates. *)
Definition race_alloc (p : Z) (ns : list Z) : list (prog (list Z)) :=
  [ session 3 0 (free_all 99) ns;
    session 3 1 (repeat Alloc 99 ++ free_all 100 ++ repeat Alloc 101) [p] ].

(** Thread 1 flushes its list, in which [p] is last; thread 0 begins to flush
    and links [p] to the head of that list; thread 1 takes the list over. *)
Definition race_alloc_sched : list nat := repeat 1%nat 1607 ++ repeat 0%nat 892 ++ repeat 1%nat 500.

Definition has_dup (held : list Z) : bool := negb (bool_decide (NoDup held)).

Lemma has_dup_spec held : has_dup held = true -> ~ NoDup held.
Proof. unfold has_dup. intros H Hn. by rewrite bool_decide_eq_true_2 in H. Qed.

(** C32: with two threads a node can be handed out twice although every
    thread frees only nodes it holds. *)
Theorem double_allocation_race : exists p ns m0 tr ps m held,
  run (session 3 0 stale_tail []) ∅ = Ok (p :: ns) m0 /\ NoDup (p :: ns) /\
  psteps (race_alloc p ns, m0) tr (ps, m) /\ ps !! 1%nat = Some (Ret held) /\ ~ NoDup held.
Proof.
  assert (He : match run (session 3 0 stale_tail []) ∅ with
    | Ok (p :: ns) m0 => bool_decide (NoDup (p :: ns)) &&
        match (sched_trace race_alloc_sched (race_alloc p ns, m0) []).1.1 !! 1%nat with
        | Some (Ret held) => has_dup held
        | _ => false
        end
    | _ => false
    end = true) by (vm_compute; reflexivity).
  destruct (run (session 3 0 stale_tail []) ∅) as [[|p ns] m0|]; [done| |done].
  apply andb_true_iff in He as [Hn%bool_decide_eq_true He].
  pose proof (sched_trace_psteps race_alloc_sched (race_alloc p ns, m0) _ [] (psteps_refl _)) as Hps.
  destruct (sched_trace race_alloc_sched (race_alloc p ns, m0) []) as [[ps m] tr]. cbn [fst snd] in *.
  destruct (ps !! 1%nat) as [[held| |]|] eqn:Hp; [|done..]. exists p, ns, m0, tr, ps, m, held.
  split; [done|]. split; [exact Hn|]. split; [exact Hps|]. split; [done|by apply has_dup_spec].
Qed.
