(* ===== verification/AllocRoles.v ===== *)
(** * Threads that allocate and threads that free (allocator_malloc.c)

    A node is handed out twice only when one thread both allocates and frees
    ([AllocRace]).  When every thread does one of the two, as the updater and
    the callback thread of the RCU build, no interleaving hands out a node that
    is in use: the local lists are private, the shared list changes hands as a
    whole, and its push cannot be deceived by a head that comes back. *)
From S2P Require Import Prelude Mem Concrete Schedules RG SWP Table TableFacts Allocator AllocMain.

(** ** Chains

    The nodes [xs] from the cell [l] on, and then the pointer [h]. *)
Fixpoint chain (m : mem) (l : loc) (xs : list Z) (h : Z) : Prop :=
  match xs with
  | [] => mget m l = Some h
  | x :: xs' => mget m l = Some x /\ x <> NULL /\ chain m (LMrNext x) xs' h
  end.

Lemma chain_path m l xs : path LMrNext m l xs <-> chain m l xs NULL.
Proof. revert l. induction xs as [|x xs IH]; intros l; simpl; [done|]. by rewrite IH. Qed.

Lemma chain_app m l xs ys : chain m l xs (hd0 ys) -> tail_path LMrNext m ys -> path LMrNext m l (xs ++ ys).
Proof.
  revert l. induction xs as [|x xs IH]; intros l; simpl; [intros; by apply path_alt|]. naive_solver.
Qed.

Lemma chain_agree m m' l xs h :
  (forall l', l' = l \/ (exists x, x ∈ xs /\ l' = LMrNext x) -> mget m' l' = mget m l') ->
  chain m l xs h -> chain m' l xs h.
Proof.
  revert l. induction xs as [|x xs IH]; intros l Hag; simpl; [by rewrite Hag by auto|].
  intros (H1 & H2 & H3). split_and!; [by rewrite Hag by auto|done|].
  apply IH; [|done]. intros l' [->|(y & Hy & ->)]; apply Hag; right; set_solver.
Qed.

Lemma chain_hd m l xs h : chain m l xs h -> mget m l = Some (match xs with [] => h | x :: _ => x end).
Proof. destruct xs; simpl; naive_solver. Qed.

(** Redirecting the last pointer. *)
Lemma chain_set m l xs h h' : chain m l xs h -> NoDup (l :: (LMrNext <$> xs)) ->
  chain (<[cell LMrNext l xs := h']> m) l xs h'.
Proof.
  revert l. induction xs as [|x xs IH]; intros l; simpl; [intros _ _; apply mget_insert|].
  intros (H1 & H2 & H3) Hnd. rewrite cell_cons. inversion Hnd as [|? ? Hni Hnd']; subst.
  split_and!; [|done|by apply IH]. rewrite mget_insert_ne; [done|]. intros Heq. apply Hni.
  destruct (cell_elem LMrNext (LMrNext x) xs) as [Hc|(y & Hy & Hc)]; rewrite Hc in Heq; subst l; [set_solver|].
  apply elem_of_cons. right. apply list_elem_of_fmap. eauto.
Qed.

(** ** Invariant, rely and guarantee

    The ghost state: the nodes of the shared list, and those of each thread,
    in its local list, held by it or still to be freed by it. *)
Record ast : Set := Ast { shared : list Z; mine : Z -> gset Z }.

Section roles.
Context `{HC : Calloc} {HT : CallocTotal}.
(** What is known of the nodes of the shared list. *)
Context (D : Z -> Prop).
Abbreviation acfg := (cfg ast).

Record ainv (s : acfg) : Prop := {
  ai_path : path LMrNext (cm s) (LGlob Gfreelist) (shared (cg s));
  ai_nodup : NoDup (shared (cg s));
  ai_shared x : x ∈ shared (cg s) -> node (cm s) x /\ D x;
  ai_mine t x : x ∈ mine (cg s) t -> node (cm s) x /\ x ∉ shared (cg s);
  ai_disj t u x : x ∈ mine (cg s) t -> x ∈ mine (cg s) u -> t = u }.

(** The locations that only the thread [t] writes. *)
Definition own_loc (t : Z) (s : acfg) (l : loc) : Prop :=
  match l with LTls u _ => u = t | LMrNext x => x ∈ mine (cg s) t | _ => False end.

Definition arely (t : Z) (s s' : acfg) : Prop :=
  ainv s -> ainv s' /\ mine (cg s) t ⊆ mine (cg s') t /\
    forall l, own_loc t s l -> mget (cm s') l = mget (cm s) l.

(** A thread leaves the others alone; nodes move between the shared list and
    its own, and those that it gets from the C library become its own. *)
Record aguar (t : Z) (s s' : acfg) : Prop := {
  agu_rely u : u <> t -> arely u s s';
  agu_mine u : u <> t -> mine (cg s') u = mine (cg s) u;
  agu_new x : node (cm s') x -> node (cm s) x \/ x ∈ mine (cg s') t;
  agu_out x : x ∈ shared (cg s) \/ x ∈ mine (cg s) t -> x ∈ shared (cg s') \/ x ∈ mine (cg s') t;
  agu_in x : x ∈ shared (cg s') \/ x ∈ mine (cg s') t ->
    (x ∈ shared (cg s) \/ x ∈ mine (cg s) t) \/ ~ node (cm s) x }.

Lemma own_loc_sub t s s' l : mine (cg s) t ⊆ mine (cg s') t -> own_loc t s l -> own_loc t s' l.
Proof. intros Hm. destruct l; try done. apply Hm. Qed.

(** The same nodes, in the same hands. *)
Lemma aguar_still t s s' : (forall u, u <> t -> arely u s s') -> cg s' = cg s ->
  (forall x, node (cm s') x -> node (cm s) x) -> aguar t s s'.
Proof. intros Hr Hg Hn. split; [done|by rewrite Hg|auto|by rewrite Hg|rewrite Hg; auto]. Qed.

Lemma node_insert_inv (m : mem) l v x : is_Some (mget m l) -> node (<[l := v]> m) x -> node m x.
Proof.
  intros Hl [H0 Hx]. split; [done|]. rewrite Forall_forall in Hx |- *. intros f Hf. specialize (Hx f Hf).
  destruct (decide (l = f x)) as [->|Hne]; [|by rewrite lookup_insert_ne in Hx].
  unfold mget in Hl. destruct (m !! f x) eqn:He; [eauto|]. unfold node_fields in Hf. set_unfold in Hf.
  destruct_or! Hf; subst f; by destruct Hl.
Qed.

#[export] Instance arely_preorder t : PreOrder (arely t).
Proof.
  split; [by intros s H|]. intros s1 s2 s3 H12 H23 H1.
  destruct (H12 H1) as (H2 & Hm2 & Hl2). destruct (H23 H2) as (H3 & Hm3 & Hl3).
  split; [done|]. split; [by etrans|]. intros l Hl. rewrite Hl3, Hl2; [done..|]. by eapply own_loc_sub.
Qed.

Abbreviation awp t := (wp (fun e => e = OutOfFuel) (arely t) (aguar t)).

Lemma own_mapped t s l : ainv s -> own_loc t s l -> is_Some (mget (cm s) l).
Proof.
  intros Hi Hl. destruct l; try done; [|by apply mget_static].
  destruct (ai_mine _ Hi _ _ Hl) as [[_ Hn] _]. rewrite Forall_forall in Hn.
  destruct (Hn LMrNext) as [v Hv]; [set_solver|]. exists v. by apply mget_lookup.
Qed.

(** ** Steps *)

Lemma arely_same t s tr : arely t s (Cfg (cm s) tr (cg s)).
Proof. intros Hi. split; [|done]. by destruct Hi. Qed.

Lemma aguar_same t s tr : aguar t s (Cfg (cm s) tr (cg s)).
Proof. apply aguar_still; [|done|done]. intros u _. apply arely_same. Qed.

Lemma a_load {A} t l (k : Z -> prog A) Q s : ainv s -> own_loc t s l \/ l = LGlob Gfreelist ->
  (forall s1 v, arely t s s1 -> ainv s1 -> mget (cm s1) l = Some v -> awp t (k v) Q s1) ->
  awp t (load l ≫= k) Q s.
Proof.
  intros Hi Hl Hk s1 R. destruct (R Hi) as (Hi1 & Hm & Hv). cbn.
  assert (Hs : is_Some (mget (cm s1) l)).
  { destruct Hl as [Hl| ->]; [|by apply mget_static]. rewrite Hv by done. by eapply own_mapped. }
  destruct Hs as [v Hs]. rewrite Hs. cbn. exists (cg s1). split; [apply aguar_same|].
  eapply wp_rely; [apply _|by apply Hk|apply arely_same].
Qed.

Lemma a_fence {A} t b (k : unit -> prog A) Q s : (forall s1, arely t s s1 -> awp t (k tt) Q s1) ->
  awp t (fence b ≫= k) Q s.
Proof.
  intros Hk s1 R. cbn. exists (cg s1). split; [apply aguar_same|].
  eapply wp_rely; [apply _|by apply Hk|apply arely_same].
Qed.

(** Writes of a thread to what it owns. *)
Lemma own_insert t s l v tr : ainv s -> own_loc t s l -> ainv (Cfg (<[l := v]> (cm s)) tr (cg s)).
Proof.
  intros [Hp Hn Hs Hm Hd] Hl. assert (Hnode : forall x, node (cm s) x -> node (<[l := v]> (cm s)) x).
  { intros x [H0 Hx]. split; [done|]. eapply Forall_impl; [exact Hx|]. intros f Hf. rewrite lookup_insert_is_Some'. by right. }
  split; cbn [cm cg]; [|done| | |done].
  - eapply path_agree; [|exact Hp]. intros l' Hl'. apply mget_insert_ne. intros <-.
    destruct Hl' as [->|(x & Hx & ->)]; [done|]. by apply (Hm t x).
  - intros x Hx. destruct (Hs x Hx). split; [by apply Hnode|done].
  - intros u x Hx. split; [|by eapply Hm]. by eapply Hnode, Hm.
Qed.

Lemma own_insert_rely t u s l v tr : own_loc t s l -> u <> t -> arely u s (Cfg (<[l := v]> (cm s)) tr (cg s)).
Proof.
  intros Hl Hu Hi. split; [by eapply own_insert|]. split; [done|]. intros l' Hl'. cbn [cm]. apply mget_insert_ne.
  intros <-. destruct l; try done; cbn in *; [|congruence]. apply Hu. by eapply ai_disj.
Qed.

Lemma own_insert_guar t s l v tr : is_Some (mget (cm s) l) -> own_loc t s l -> aguar t s (Cfg (<[l := v]> (cm s)) tr (cg s)).
Proof. intros Hs Hl. apply aguar_still; [intros u Hu; by apply (own_insert_rely t)|done|]. intros x. by apply node_insert_inv. Qed.

Lemma a_store {A} t l v (k : unit -> prog A) Q s : ainv s -> own_loc t s l ->
  (forall s1 s2, arely t s s1 -> ainv s1 -> ainv s2 -> cm s2 = <[l := v]> (cm s1) -> cg s2 = cg s1 -> awp t (k tt) Q s2) ->
  awp t (store l v ≫= k) Q s.
Proof.
  intros Hi Hl Hk s1 R. destruct (R Hi) as (Hi1 & Hm & _).
  pose proof (own_loc_sub _ _ _ _ Hm Hl) as Hl1.
  destruct (own_mapped t s1 l Hi1 Hl1) as [w Hw]. cbn. rewrite Hw. cbn. exists (cg s1).
  split; [by apply own_insert_guar|]. eapply Hk; [exact R|done|by eapply own_insert|done|done].
Qed.

Lemma a_incr_tls {A} t x (k : unit -> prog A) Q s : ainv s ->
  (forall s1 s2 v, arely t s s1 -> ainv s1 -> ainv s2 -> cm s2 = <[LTls t x := v]> (cm s1) -> cg s2 = cg s1 -> awp t (k tt) Q s2) ->
  awp t (incr_tls t x ≫= k) Q s.
Proof.
  intros Hi Hk. unfold incr_tls. apply wp_bind; [apply _|]. apply a_load; [done|by left|]. intros s1 v R1 Hi1 Hv.
  intros s2 R2. destruct (R2 Hi1) as (Hi2 & _ & _). destruct (mget_static (cm s2) (LTls t x) eq_refl) as [w Hw].
  cbn. rewrite Hw. cbn. exists (cg s2). split; [by apply own_insert_guar|].
  intros s3 R3. eapply wp_rely; [apply _| |exact R3]. eapply Hk; [etrans; [exact R1|exact R2]|done|by eapply own_insert|done|done].
Qed.

(** A node from the C library. *)
Lemma a_calloc {A} t (k : Z -> prog A) Q s : ainv s ->
  (forall s1 s2 p, arely t s s1 -> ainv s1 -> ainv s2 -> p ∉ mine (cg s1) t -> p <> NULL ->
     (forall l, own_loc t s1 l -> mget (cm s2) l = mget (cm s1) l) ->
     cg s2 = Ast (shared (cg s1)) (fun u => if decide (u = t) then {[p]} ∪ mine (cg s1) u else mine (cg s1) u) ->
     awp t (k p) Q s2) ->
  awp t (do_op CallocNode ≫= k) Q s.
Proof.
  intros Hi Hk s1 R. destruct (R Hi) as (Hi1 & _ & _). cbn. destruct (calloc_total (cm s1)) as (Hp & _ & Hfr).
  set (p := calloc_addr (cm s1)) in *. rewrite decide_False by lia.
  set (m' := calloc_block p (cm s1)).
  assert (Hnew : forall x, node (cm s1) x -> x <> p).
  { intros x [_ Hx] ->. unfold fresh_block in Hfr. rewrite Forall_forall in Hx, Hfr.
    destruct (Hx LKey) as [v Hv]; [set_solver|]. rewrite Hfr in Hv; [done|set_solver]. }
  assert (Hkeep : forall l, (forall x, loc_addr l = x -> x <> p) -> mget m' l = mget (cm s1) l).
  { intros l Hl. unfold mget, m'. rewrite calloc_block_lookup_ne; [done|]. intros f Hf ->. eapply Hl; [|done].
    unfold node_fields in Hf. set_unfold in Hf. by destruct_or! Hf; subst. }
  assert (Hn' : forall x, node (cm s1) x -> node m' x).
  { intros x [H0 Hx]. split; [done|]. eapply Forall_impl; [exact Hx|]. intros f Hf. unfold m', calloc_block, node_fields. simpl.
    rewrite !lookup_insert_is_Some'. tauto. }
  assert (Hpn : node m' p).
  { split; [lia|]. unfold m', calloc_block, node_fields. simpl. repeat constructor; simplify_map_eq; done. }
  assert (Hown : forall u l, own_loc u s1 l -> mget m' l = mget (cm s1) l).
  { intros u l Hl. apply Hkeep. intros x Hx. destruct l; try done; cbn in Hx; subst; [|lia].
    by eapply Hnew, (ai_mine _ Hi1). }
  assert (Hback : forall x, node m' x -> node (cm s1) x \/ x = p).
  { intros x [H0 Hx]. destruct (decide (x = p)) as [->|Hne]; [by right|]. left. split; [done|].
    rewrite Forall_forall in Hx |- *. intros f Hf. specialize (Hx f Hf). unfold m' in Hx.
    rewrite calloc_block_lookup_ne in Hx; [done|]. intros f' Hf' Heq. by apply (field_loc_inj f f') in Heq. }
  set (g' := Ast (shared (cg s1)) (fun u => if decide (u = t) then {[p]} ∪ mine (cg s1) u else mine (cg s1) u)).
  assert (Hi' : ainv (next_cfg s1 m' g')).
  { destruct Hi1 as [Hpa Hnd Hsh Hmi Hdi]. split; cbn [next_cfg cm cg g' shared mine]; [|done|intros x Hx; destruct (Hsh x Hx); by auto| |].
    - eapply path_agree; [|exact Hpa]. intros l' [->|(x & Hx & ->)]; apply Hkeep; intros y <-; cbn; [lia|]. by apply Hnew, (Hsh x).
    - intros u x Hx. destruct (decide (u = t)) as [->|]; [|destruct (Hmi u x Hx); split; [by apply Hn'|done]].
      apply elem_of_union in Hx as [->%elem_of_singleton|Hx]; [|destruct (Hmi t x Hx); split; [by apply Hn'|done]].
      split; [done|]. intros Hx. by apply (Hnew p); [apply (Hsh p)|].
    - intros u w x. repeat case_decide; subst; try done; rewrite ?elem_of_union, ?elem_of_singleton; [intros [->|Hx] Hy|intros Hx [->|Hy]|]; try by eauto.
      + exfalso. by eapply Hnew; [eapply Hmi|].
      + exfalso. by eapply Hnew; [eapply Hmi|]. }
  exists g'. split.
  - split; cbn [next_cfg cm cg mine shared g'].
    + intros u Hu _. split; [done|]. cbn [next_cfg cg mine g']. rewrite decide_False by done. split; [done|]. apply Hown.
    + intros u Hu. by rewrite decide_False.
    + intros x [?| ->]%Hback; [by left|right]. rewrite decide_True by done. set_solver.
    + intros x. rewrite decide_True by done. set_solver.
    + intros x. rewrite decide_True by done. rewrite elem_of_union, elem_of_singleton.
      intros [?|[->|?]]; [by left; left|right; intros Hx; by eapply Hnew|by left; right].
  - eapply Hk; [exact R|done|done| |lia|intros l; apply Hown|done]. intros Hx.
    destruct (ai_mine _ Hi1 _ _ Hx) as [Hn _]. by apply Hnew in Hn.
Qed.

(** Taking over the shared list, and pushing a chain onto it. *)
Lemma a_cas {A} t old new g' (k : bool -> prog A) Q s : ainv s ->
  (forall s1, arely t s s1 -> ainv s1 -> mget (cm s1) (LGlob Gfreelist) = Some old ->
     let s2 := next_cfg s1 (<[LGlob Gfreelist := new]> (cm s1)) (g' (cg s1)) in
     ainv s2 /\ (forall u, u <> t -> mine (cg s2) u = mine (cg s1) u) /\
     (forall x, x ∈ shared (cg s2) \/ x ∈ mine (cg s2) t <-> x ∈ shared (cg s1) \/ x ∈ mine (cg s1) t) /\
     (ainv s2 -> awp t (k true) Q s2)) ->
  (forall s1, arely t s s1 -> ainv s1 -> awp t (k false) Q s1) ->
  awp t (CAS (LGlob Gfreelist) old new ≫= k) Q s.
Proof.
  intros Hi Ht Hf s1 R. destruct (R Hi) as (Hi1 & _ & _). destruct (mget_static (cm s1) (LGlob Gfreelist) eq_refl) as [v Hv].
  cbn. rewrite Hv. cbn. destruct (decide (v = old)) as [->|Hne].
  - rewrite Z.eqb_refl. destruct (Ht s1 R Hi1 Hv) as (Hi2 & Hm & Hx & Hw). exists (g' (cg s1)). split; [|by apply Hw].
    split; cbn [next_cfg cm cg]; [|done| |intros x; apply Hx|intros x H; left; by apply Hx].
    + intros u Hu _. split; [done|]. split; [by rewrite Hm|]. intros l Hl. apply mget_insert_ne. by intros <-.
    + intros x Hn. left. eapply node_insert_inv; [|exact Hn]. by rewrite Hv.
  - rewrite (proj2 (Z.eqb_neq v old)) by done. exists (cg s1). split; [apply aguar_same|].
    eapply wp_rely; [apply _|by apply Hf|apply arely_same].
Qed.

(** ** The state of a thread

    Its local list [F] and the nodes [held] that it holds or has still to
    free; [h] is the pointer at the end of the list. *)
Definition local_at (t : Z) (F held : list Z) (h : Z) (s : acfg) : Prop :=
  ainv s /\ chain (cm s) (LTls t Vlfl) F h /\ NoDup (F ++ held) /\ (forall x, x ∈ F ++ held -> x ∈ mine (cg s) t).

Lemma local_stable t F held h s s' : arely t s s' -> local_at t F held h s -> local_at t F held h s'.
Proof.
  intros R (Hi & Hc & Hn & Hm). destruct (R Hi) as (Hi' & Hme & Hl). split; [done|]. split.
  - eapply chain_agree; [|exact Hc]. intros l' [->|(x & Hx & ->)]; apply Hl; [done|]. apply Hm. set_solver.
  - split; [done|]. intros x Hx. by apply Hme, Hm.
Qed.

(** Another location of the thread changes. *)
Lemma local_store t F held h s s' l v : local_at t F held h s -> ainv s' -> cm s' = <[l := v]> (cm s) -> cg s' = cg s ->
  l <> LTls t Vlfl -> (forall x, x ∈ F -> l <> LMrNext x) -> local_at t F held h s'.
Proof.
  intros (Hi & Hc & Hn & Hm) Hi' Hcm Hcg Hl HF. split; [done|]. split; [|by rewrite Hcg].
  eapply chain_agree; [|exact Hc]. intros l' Hl'. rewrite Hcm. apply mget_insert_ne. intros ->.
  destruct Hl' as [->|(x & Hx & ->)]; [done|]. by apply (HF x).
Qed.

(** A read of the head of the local list. *)
Lemma local_head t F held h s : local_at t F held h s ->
  mget (cm s) (LTls t Vlfl) = Some (match F with [] => h | x :: _ => x end).
Proof. intros (_ & Hc & _). by apply chain_hd in Hc. Qed.

(** ** A thread that allocates *)

Lemma hd0_shared s v : ainv s -> mget (cm s) (LGlob Gfreelist) = Some v -> v = hd0 (shared (cg s)).
Proof. intros Hi Hv. pose proof (path_hd _ _ _ _ (ai_path _ Hi)). congruence. Qed.

(** The shared list changes hands. *)
Definition steal (t : Z) (g : ast) : ast :=
  Ast [] (fun u => if decide (u = t) then list_to_set (shared g) ∪ mine g u else mine g u).

Lemma steal_ok t held h s : local_at t [] held h s -> mget (cm s) (LGlob Gfreelist) = Some h ->
  let s' := next_cfg s (<[LGlob Gfreelist := NULL]> (cm s)) (steal t (cg s)) in
  ainv s' /\ local_at t (shared (cg s)) held NULL s'.
Proof.
  intros (Hi & Hc & Hn & Hm) Hh s'. pose proof (hd0_shared _ _ Hi Hh) as Hhd. rewrite app_nil_l in *. cbn [chain] in Hc.
  assert (Hnode : forall x, node (cm s) x -> node (cm s') x).
  { intros x [H0 Hx]. split; [done|]. eapply Forall_impl; [exact Hx|]. intros f Hf. cbn. rewrite lookup_insert_is_Some'. by right. }
  assert (Hi' : ainv s').
  { destruct Hi as [Hpa Hnd Hsh Hmi Hdi]. split; cbn [s' next_cfg cm cg steal shared mine]; [apply mget_insert|constructor|set_solver| |].
    - intros u x Hx. split; [|set_solver]. apply Hnode. case_decide; [|by eapply Hmi].
      apply elem_of_union in Hx as [Hx%elem_of_list_to_set|Hx]; [by apply Hsh|by eapply Hmi].
    - intros u w x. repeat case_decide; subst; try done; rewrite ?elem_of_union, ?elem_of_list_to_set;
        [intros [Hx|Hx] Hy|intros Hx [Hy|Hy]|]; try (by eauto).
      + exfalso. by eapply (Hmi w x).
      + exfalso. by eapply (Hmi u x). }
  split; [done|]. split; [done|]. split.
  - apply chain_path, path_alt. cbn [s' next_cfg cm]. split; [rewrite mget_insert_ne by done; by rewrite Hc, Hhd|].
    pose proof (ai_path _ Hi) as Hp. apply path_alt in Hp as [_ Hp]. eapply tail_path_agree; [|exact Hp].
    intros x _. by apply mget_insert_ne.
  - split.
    + apply NoDup_app. split; [apply Hi|]. split; [|done]. intros x Hx Hy. by apply (ai_mine _ Hi t x); [apply Hm|].
    + intros x Hx. cbn. rewrite decide_True by done. apply elem_of_union. rewrite elem_of_list_to_set.
      apply elem_of_app in Hx as [Hx|Hx]; [by left|right; by apply Hm].
Qed.

Lemma a_steal t held fuel : forall s h, local_at t [] held h s ->
  awp t (steal_freelist fuel t) (fun _ s' => exists F, local_at t F held NULL s' /\ forall x, x ∈ F -> D x) s.
Proof.
  induction fuel as [|fuel IH]; intros s h0 Hs; cbn [steal_freelist]; [done|].
  apply a_load; [apply Hs|by right|]. intros s1 h R1 Hi1 Hh. apply (local_stable _ _ _ _ _ _ R1) in Hs.
  apply a_store; [done|done|]. intros s2 s3 R2 Hi2 Hi3 Hc3 Hg3. apply (local_stable _ _ _ _ _ _ R2) in Hs.
  assert (Hs3 : local_at t [] held h s3).
  { destruct Hs as (_ & _ & Hn & Hm). split; [done|]. split; [|by rewrite Hg3]. simpl. rewrite Hc3. apply mget_insert. }
  destruct (Z.eqb_spec h NULL) as [->|Hne].
  { apply wp_ret. intros s4 R4. exists []. split; [by eapply local_stable|set_solver]. }
  apply a_load; [done|by left|]. intros s4 lfl R4 Hi4 Hlfl. apply (local_stable _ _ _ _ _ _ R4) in Hs3.
  pose proof (local_head _ _ _ _ _ Hs3) as Hlfl'. rewrite Hlfl in Hlfl'. injection Hlfl' as ->.
  apply (a_cas t h NULL (steal t)); [done| |].
  - intros s5 R5 Hi5 Hf5 s6. apply (local_stable _ _ _ _ _ _ R5) in Hs3.
    destruct (steal_ok t held h s5 Hs3 Hf5) as [Hi6 Hs6]. split; [done|]. split.
    { intros u Hu. cbn. by rewrite decide_False. }
    split; [intros x; cbn; rewrite decide_True by done; set_solver|].
    intros _. apply wp_ret. intros s7 R7. exists (shared (cg s5)). split; [by eapply local_stable|].
    intros x Hx. by apply (ai_shared _ Hi5).
  - intros s5 R5 Hi5. eapply IH. by eapply local_stable.
Qed.

(** The first node of a local list goes to the client. *)
Lemma a_pop t x F held s : local_at t (x :: F) held NULL s ->
  awp t (pop_lfl t) (fun r s' => r = x /\ local_at t F (x :: held) NULL s') s.
Proof.
  intros Hs. unfold pop_lfl. apply a_load; [apply Hs|by left|]. intros s1 v R1 Hi1 Hv.
  apply (local_stable _ _ _ _ _ _ R1) in Hs. pose proof (local_head _ _ _ _ _ Hs) as Hv'. rewrite Hv in Hv'. injection Hv' as ->.
  assert (Hx : x ∈ mine (cg s1) t) by (apply Hs; set_solver).
  apply a_load; [done|by left|]. intros s2 nx R2 Hi2 Hnx. apply (local_stable _ _ _ _ _ _ R2) in Hs.
  destruct (R2 Hi1) as (_ & Hm2 & _).
  apply a_store; [done|done|]. intros s3 s4 R3 Hi3 Hi4 Hc4 Hg4. destruct (R3 Hi2) as (_ & Hm3 & Hl3).
  rewrite <- Hl3 in Hnx by (by apply Hm2). apply (local_stable _ _ _ _ _ _ R3) in Hs.
  apply wp_ret. intros s5 R5. split; [done|]. eapply local_stable; [exact R5|].
  destruct Hs as (_ & (_ & Hx0 & Hc) & Hn & Hm). split; [done|]. split.
  - apply chain_path in Hc. apply path_alt in Hc as [Hh Ht]. assert (nx = hd0 F) as -> by congruence.
    apply chain_path, path_alt. rewrite Hc4. split; [apply mget_insert|]. eapply tail_path_agree; [|exact Ht].
    intros y _. by apply mget_insert_ne.
  - rewrite Hg4. split; [|intros y Hy; apply Hm; set_solver]. simpl in Hn. by rewrite <- Permutation_middle.
Qed.

Lemma a_get_free t F held fuel s : local_at t F held NULL s ->
  awp t (get_free fuel t) (fun r s' => (r = NULL /\ local_at t [] held NULL s') \/
    r <> NULL /\ exists F', local_at t F' (r :: held) NULL s' /\ forall x, x ∈ F' -> x ∈ F \/ D x) s.
Proof.
  intros Hs. unfold get_free.
  assert (Hpop : forall s x F1, local_at t (x :: F1) held NULL s -> (forall y, y ∈ F1 -> y ∈ F \/ D y) ->
    awp t (pop_lfl t) (fun r s' => (r = NULL /\ local_at t [] held NULL s') \/
      r <> NULL /\ exists F', local_at t F' (r :: held) NULL s' /\ forall x, x ∈ F' -> x ∈ F \/ D x) s).
  { intros s' x F' Hs' HF. eapply wp_post; [by apply a_pop|]. cbn beta. intros r s'' [-> Hs'']. right. split; [|by exists F'].
    destruct Hs' as (_ & (_ & ? & _) & _). done. }
  apply a_load; [apply Hs|by left|]. intros s1 v R1 Hi1 Hv. apply (local_stable _ _ _ _ _ _ R1) in Hs.
  pose proof (local_head _ _ _ _ _ Hs) as Hv'. rewrite Hv in Hv'. injection Hv' as ->.
  destruct F as [|x F].
  - rewrite Z.eqb_refl. apply wp_bind; [apply _|]. eapply wp_post; [by eapply a_steal|]. cbn beta.
    intros _ s2 (F2 & Hs2 & HD). apply a_load; [apply Hs2|by left|]. intros s3 w R3 Hi3 Hw. apply (local_stable _ _ _ _ _ _ R3) in Hs2.
    pose proof (local_head _ _ _ _ _ Hs2) as Hw'. rewrite Hw in Hw'. injection Hw' as ->.
    destruct F2 as [|x F2].
    + rewrite Z.eqb_refl. apply wp_ret. intros s4 R4. left. split; [done|]. by eapply local_stable.
    + rewrite (proj2 (Z.eqb_neq x NULL)) by apply Hs2. eapply Hpop; [exact Hs2|]. intros y Hy. right. apply HD. set_solver.
  - rewrite (proj2 (Z.eqb_neq x NULL)) by apply Hs. eapply Hpop; [exact Hs|]. intros y Hy. left. set_solver.
Qed.

Lemma a_new_node t F held fuel s : local_at t F held NULL s ->
  awp t (new_node fuel t) (fun r s' => exists F', local_at t F' (r :: held) NULL s' /\ forall x, x ∈ F' -> x ∈ F \/ D x) s.
Proof.
  intros Hs. unfold new_node. apply wp_bind; [apply _|]. eapply wp_post; [by eapply a_get_free|]. cbn beta.
  intros r s1 [[-> Hs1]|[Hr HF]].
  - rewrite Z.eqb_refl. apply a_calloc; [apply Hs1|]. intros s2 s3 p R2 Hi2 Hi3 Hp Hp0 Hl Hg.
    apply (local_stable _ _ _ _ _ _ R2) in Hs1.
    assert (Hs3 : local_at t [] (p :: held) NULL s3).
    { destruct Hs1 as (_ & Hc & Hn & Hm). split; [done|]. split; [simpl in *; by rewrite Hl|]. split.
      - simpl. constructor; [|done]. intros Hin. by apply Hp, Hm.
      - intros x Hx. rewrite Hg. cbn [mine]. rewrite decide_True by done. simpl in *. set_solver. }
    apply a_incr_tls; [done|]. intros s4 s5 v R4 Hi4 Hi5 Hc5 Hg5. apply wp_ret. intros s6 R6. exists [].
    split; [|set_solver]. apply (local_stable _ _ _ _ _ _ R4) in Hs3. eapply local_stable; [exact R6|].
    eapply local_store; [exact Hs3|done|exact Hc5|done|done|set_solver].
  - rewrite (proj2 (Z.eqb_neq r NULL)) by done. apply wp_ret. intros s2 R2. destruct HF as (F' & HF & HD). exists F'.
    split; [by eapply local_stable|done].
Qed.

(** ** A thread that frees *)

Lemma a_load_own {A} t l v (k : Z -> prog A) Q s : ainv s -> own_loc t s l -> mget (cm s) l = Some v ->
  (forall s1, arely t s s1 -> ainv s1 -> awp t (k v) Q s1) -> awp t (load l ≫= k) Q s.
Proof.
  intros Hi Hl Hv Hk. apply a_load; [done|by left|]. intros s1 w R Hi1 Hw. destruct (R Hi) as (_ & _ & Hs).
  rewrite Hs, Hv in Hw by done. injection Hw as <-. by apply Hk.
Qed.

Definition tail_of (F : list Z) : Z := default NULL (last F).

(** The local list ends with [h], and [lfl_tail] is its last node. *)
Definition freer_at (t : Z) (F held : list Z) (h : Z) (s : acfg) : Prop :=
  local_at t F held h s /\ mget (cm s) (LTls t Vlfl_tail) = Some (tail_of F).

Lemma freer_stable t F held h s s' : arely t s s' -> freer_at t F held h s -> freer_at t F held h s'.
Proof.
  intros R [Hs Ht]. split; [by eapply local_stable|]. destruct (R (proj1 Hs)) as (_ & _ & Hl). by rewrite Hl.
Qed.

Lemma freer_store t F held h s s' l v : freer_at t F held h s -> ainv s' -> cm s' = <[l := v]> (cm s) -> cg s' = cg s ->
  l <> LTls t Vlfl -> l <> LTls t Vlfl_tail -> (forall x, x ∈ F -> l <> LMrNext x) -> freer_at t F held h s'.
Proof.
  intros [Hs Ht] Hi Hc Hg H1 H2 HF. split; [by eapply local_store|]. rewrite Hc. by rewrite mget_insert_ne.
Qed.

Lemma freer_own t F held h s x : freer_at t F held h s -> x ∈ F ++ held -> own_loc t s (LMrNext x).
Proof. intros [(_ & _ & _ & Hm) _] Hx. by apply Hm. Qed.

(** The last node of the local list points to [h]. *)
Lemma freer_last t pre x held h s : freer_at t (pre ++ [x]) held h s ->
  tail_of (pre ++ [x]) = x /\ own_loc t s (LMrNext x) /\ mget (cm s) (LMrNext x) = Some h.
Proof.
  intros Hs. unfold tail_of. rewrite last_snoc. split; [done|]. split; [eapply freer_own; [exact Hs|set_solver]|].
  destruct Hs as [(_ & Hc & _) _]. revert Hc. generalize (LTls t Vlfl). induction pre as [|y pre IH]; intros l; simpl; naive_solver.
Qed.

(** Redirecting it. *)
Lemma freer_redirect t pre x held h h' s s' : freer_at t (pre ++ [x]) held h s -> ainv s' ->
  cm s' = <[LMrNext x := h']> (cm s) -> cg s' = cg s -> freer_at t (pre ++ [x]) held h' s'.
Proof.
  intros [(Hi & Hc & Hn & Hm) Ht] Hi' Hcm Hcg. split; [|by rewrite Hcm, mget_insert_ne]. split; [done|].
  split; [|by rewrite Hcg]. rewrite Hcm, <- (cell_snoc LMrNext (LTls t Vlfl) pre x). eapply chain_set; [exact Hc|].
  apply NoDup_cons. split; [by intros (y & ? & _)%list_elem_of_fmap|]. apply NoDup_fmap; [apply _|]. by apply NoDup_app in Hn as (? & _).
Qed.

Section frees.
Context (HD : forall x, D x).

(** A chain becomes part of the shared list. *)
Definition push (t : Z) (F : list Z) (g : ast) : ast :=
  Ast (F ++ shared g) (fun u => if decide (u = t) then mine g u ∖ list_to_set F else mine g u).

Definition holds_at (t : Z) (held : list Z) (s : acfg) : Prop :=
  ainv s /\ NoDup held /\ forall x, x ∈ held -> x ∈ mine (cg s) t.

Lemma holds_stable t held s s' : arely t s s' -> holds_at t held s -> holds_at t held s'.
Proof. intros R (Hi & Hn & Hm). destruct (R Hi) as (Hi' & Hme & _). split; [done|]. split; [done|]. intros x Hx. by apply Hme, Hm. Qed.

Lemma push_ok t F held h s : F <> [] -> local_at t F held h s -> mget (cm s) (LGlob Gfreelist) = Some h ->
  let s' := next_cfg s (<[LGlob Gfreelist := hd0 F]> (cm s)) (push t F (cg s)) in ainv s' /\ holds_at t held s'.
Proof.
  intros HF (Hi & Hc & Hn & Hm) Hh s'. pose proof (hd0_shared _ _ Hi Hh) as Hhd. apply NoDup_app in Hn as (HnF & Hd & Hnh).
  assert (Hnode : forall x, node (cm s) x -> node (cm s') x).
  { intros x [H0 Hx]. split; [done|]. eapply Forall_impl; [exact Hx|]. intros f Hf. cbn. rewrite lookup_insert_is_Some'. by right. }
  assert (Hmine : forall u x, x ∈ mine (push t F (cg s)) u -> x ∈ mine (cg s) u /\ x ∉ F).
  { intros u x. cbn. case_decide; subst.
    - rewrite elem_of_difference, elem_of_list_to_set. done.
    - intros Hx. split; [done|]. intros HxF. apply H. eapply (ai_disj _ Hi); [exact Hx|]. apply Hm. set_solver. }
  assert (Hi' : ainv s').
  { destruct Hi as [Hpa Hnd Hsh Hmi Hdi]. split; cbn [s' next_cfg cm cg].
    - cbn [push shared]. apply chain_app.
      + rewrite <- Hhd. destruct F as [|x F]; [done|]. destruct Hc as (_ & Hx & Hc). split; [apply mget_insert|].
        split; [done|]. eapply chain_agree; [|exact Hc]. intros l' [->|(y & _ & ->)]; by apply mget_insert_ne.
      + apply path_alt in Hpa as [_ Hpa]. eapply tail_path_agree; [|exact Hpa]. intros x _. by apply mget_insert_ne.
    - cbn [push shared]. apply NoDup_app. split; [done|]. split; [|done]. intros x Hx. apply (Hmi t). apply Hm. set_solver.
    - cbn [push shared]. intros x [Hx|Hx]%elem_of_app; (split; [apply Hnode|done]); [|by apply Hsh]. apply (Hmi t). apply Hm. set_solver.
    - intros u x [Hx HxF]%Hmine. destruct (Hmi u x Hx). split; [by apply Hnode|]. cbn [push shared]. set_solver.
    - intros u w x [Hx _]%Hmine [Hy _]%Hmine. by eapply Hdi. }
  split; [done|]. split; [done|]. split; [done|]. intros x Hx. cbn. rewrite decide_True by done.
  apply elem_of_difference. split; [apply Hm; set_solver|]. rewrite elem_of_list_to_set. intros HxF. by apply (Hd x).
Qed.

(** No node is lost. *)
Lemma push_same t F held h s : local_at t F held h s -> forall x,
  x ∈ shared (push t F (cg s)) \/ x ∈ mine (push t F (cg s)) t <-> x ∈ shared (cg s) \/ x ∈ mine (cg s) t.
Proof.
  intros (_ & _ & _ & Hm) x. cbn. rewrite decide_True by done. rewrite elem_of_app, elem_of_difference, elem_of_list_to_set.
  specialize (Hm x). rewrite elem_of_app in Hm. destruct (decide (x ∈ F)); tauto.
Qed.

Lemma a_push t pre y held fuel : forall s h, freer_at t (pre ++ [y]) held h s ->
  awp t (push_freelist fuel t) (fun _ s' => holds_at t held s') s.
Proof.
  induction fuel as [|fuel IH]; intros s h Hs; cbn [push_freelist]; [done|].
  destruct (freer_last _ _ _ _ _ _ Hs) as [Hty _]. pose proof Hs as [_ Htl]. rewrite Hty in Htl.
  eapply a_load_own; [apply Hs|done|exact Htl|]. intros s1 R1 Hi1. apply (freer_stable _ _ _ _ _ _ R1) in Hs.
  destruct (freer_last _ _ _ _ _ _ Hs) as (_ & Ho & Hy).
  eapply a_load_own; [done|exact Ho|exact Hy|]. intros s2 R2 Hi2. apply (freer_stable _ _ _ _ _ _ R2) in Hs.
  pose proof (local_head _ _ _ _ _ (proj1 Hs)) as Hhd.
  replace (match pre ++ [y] with [] => h | x :: _ => x end) with (hd0 (pre ++ [y])) in Hhd by (by destruct pre).
  eapply a_load_own; [done|done|exact Hhd|]. intros s3 R3 Hi3. apply (freer_stable _ _ _ _ _ _ R3) in Hs.
  apply (a_cas t h _ (push t (pre ++ [y]))); [done| |].
  - intros s4 R4 Hi4 Hf4 s5. apply (freer_stable _ _ _ _ _ _ R4) in Hs.
    destruct (push_ok t (pre ++ [y]) held h s4) as [Hi5 Hs5]; [by destruct pre|apply Hs|done|]. split; [done|].
    split; [intros u Hu; cbn; by rewrite decide_False|].
    split; [eapply push_same, Hs|]. intros _. apply wp_ret. intros s6 R6. by eapply holds_stable.
  - intros s4 R4 Hi4. apply (freer_stable _ _ _ _ _ _ R4) in Hs.
    apply a_load; [done|by right|]. intros s5 h' R5 Hi5 _. apply (freer_stable _ _ _ _ _ _ R5) in Hs.
    pose proof Hs as [_ Htl']. rewrite Hty in Htl'.
    eapply a_load_own; [done|done|exact Htl'|]. intros s6 R6 Hi6. apply (freer_stable _ _ _ _ _ _ R6) in Hs.
    apply a_store; [done|by apply (freer_last _ _ _ _ _ _ Hs)|]. intros s7 s8 R7 Hi7 Hi8 Hc8 Hg8.
    apply (freer_stable _ _ _ _ _ _ R7) in Hs. eapply IH. by eapply freer_redirect.
Qed.

Lemma a_flush t pre y held fuel s : freer_at t (pre ++ [y]) held NULL s ->
  awp t (flush_lfl fuel t) (fun _ s' => freer_at t [] held NULL s') s.
Proof.
  intros Hs. unfold flush_lfl, compiler_barrier. destruct (freer_last _ _ _ _ _ _ Hs) as [Hty _]. pose proof Hs as [_ Htl]. rewrite Hty in Htl.
  eapply a_load_own; [apply Hs|done|exact Htl|]. intros s1 R1 Hi1. apply (freer_stable _ _ _ _ _ _ R1) in Hs.
  apply a_load; [done|by right|]. intros s2 h R2 Hi2 _. apply (freer_stable _ _ _ _ _ _ R2) in Hs.
  apply a_store; [done|by apply (freer_last _ _ _ _ _ _ Hs)|]. intros s3 s4 R3 Hi3 Hi4 Hc4 Hg4.
  apply (freer_stable _ _ _ _ _ _ R3) in Hs. pose proof (freer_redirect _ _ _ _ _ _ _ _ Hs Hi4 Hc4 Hg4) as Hs4.
  apply a_fence. intros s5 R5. apply (freer_stable _ _ _ _ _ _ R5) in Hs4.
  apply a_fence. intros s6 R6. apply (freer_stable _ _ _ _ _ _ R6) in Hs4.
  apply wp_bind; [apply _|]. eapply wp_post; [by eapply a_push|]. cbn beta. intros _ s7 H7.
  apply a_fence. intros s8 R8. apply (holds_stable _ _ _ _ R8) in H7.
  apply a_store; [apply H7|done|]. intros s9 s10 R9 _ Hi10 Hc10 Hg10. apply (holds_stable _ _ _ _ R9) in H7.
  apply a_store; [done|done|]. intros s11 s12 R11 _ Hi12 Hc12 Hg12. destruct (R11 Hi10) as (_ & Hm11 & Hl11).
  pose proof (Hl11 (LTls t Vlfl_tail) eq_refl) as Ht11. rewrite Hc10, mget_insert in Ht11.
  assert (Hs12 : freer_at t [] held NULL s12).
  { destruct H7 as (_ & Hn & Hm). split; [|rewrite Hc12; by rewrite mget_insert_ne]. split; [done|].
    split; [simpl; rewrite Hc12; apply mget_insert|]. split; [done|]. rewrite Hg12. intros x Hx. apply Hm11. rewrite Hg10. by apply Hm. }
  change (store (LTls t Vlcnt) 0) with (store (LTls t Vlcnt) 0 ≫= Ret (A := unit)).
  apply a_store; [done|done|]. intros s13 s14 R13 _ Hi14 Hc14 Hg14. apply (freer_stable _ _ _ _ _ _ R13) in Hs12.
  apply wp_ret. intros s15 R15. eapply freer_stable; [exact R15|].
  eapply freer_store; [exact Hs12|done|exact Hc14|done|done|done|set_solver].
Qed.

Lemma freer_new t F held p h s : freer_at t F (p :: held) h s -> p <> NULL /\ p ∉ F.
Proof.
  intros [(Hi & _ & Hn & Hm) _]. split; [apply (ai_mine _ Hi t p), Hm; set_solver|].
  apply NoDup_app in Hn as (_ & Hd & _). intros Hp. by eapply Hd; [|left].
Qed.

(** [if (!lfl_tail) lfl_tail = p;] *)
Lemma a_set_tail t F held p s : freer_at t F (p :: held) NULL s ->
  awp t (if tail_of F =? NULL then store (LTls t Vlfl_tail) p else Ret tt)
    (fun _ s' => local_at t F (p :: held) NULL s' /\ mget (cm s') (LTls t Vlfl_tail) = Some (tail_of (p :: F))) s.
Proof.
  intros Hs. destruct (Z.eqb_spec (tail_of F) NULL) as [He|Hne].
  - assert (F = []) as ->.
    { destruct F as [|x F _] using rev_ind; [done|]. unfold tail_of in He. rewrite last_snoc in He. simpl in He. subst x.
      destruct Hs as [(Hi & _ & _ & Hm) _]. destruct (ai_mine _ Hi t NULL) as [[? _] _]; [apply Hm; set_solver|done]. }
    change (store (LTls t Vlfl_tail) p) with (store (LTls t Vlfl_tail) p ≫= Ret (A := unit)).
    apply a_store; [apply Hs|done|]. intros s2 s3 R2 Hi2 Hi3 Hc3 Hg3. apply (freer_stable _ _ _ _ _ _ R2) in Hs.
    assert (Ht3 : mget (cm s3) (LTls t Vlfl_tail) = Some p) by (rewrite Hc3; apply mget_insert).
    apply wp_ret. intros s4 R4. destruct (R4 Hi3) as (_ & _ & Hl4). split; [|by rewrite Hl4].
    eapply local_stable; [exact R4|]. eapply local_store; [apply Hs|done|exact Hc3|done|done|set_solver].
  - apply wp_ret. intros s2 R2. apply (freer_stable _ _ _ _ _ _ R2) in Hs. destruct Hs as [Hl Ht]. split; [done|].
    rewrite Ht. f_equal. unfold tail_of in *. rewrite last_cons. by destruct (last F).
Qed.

(** [lfl = p], where [p->mr_next] is the old head. *)
Lemma freer_cons t F held p s s' : local_at t F (p :: held) NULL s -> p <> NULL ->
  mget (cm s) (LMrNext p) = Some (hd0 F) -> mget (cm s) (LTls t Vlfl_tail) = Some (tail_of (p :: F)) ->
  ainv s' -> cm s' = <[LTls t Vlfl := p]> (cm s) -> cg s' = cg s -> freer_at t (p :: F) held NULL s'.
Proof.
  intros (_ & Hc & Hn & Hm) Hp0 Hp Ht Hi' Hcm Hcg. split; [|rewrite Hcm; by rewrite mget_insert_ne]. split; [done|]. split.
  - simpl. rewrite Hcm. split; [apply mget_insert|]. split; [done|]. apply chain_path in Hc. apply path_alt in Hc as [_ Hc].
    apply chain_path, path_alt. split; [by rewrite mget_insert_ne|]. eapply tail_path_agree; [|exact Hc].
    intros x _. by apply mget_insert_ne.
  - rewrite Hcg. split; [|intros x Hx; apply Hm; set_solver]. simpl. by rewrite Permutation_middle.
Qed.

Lemma a_add_free t F held p fuel s : freer_at t F (p :: held) NULL s ->
  awp t (add_free fuel t p) (fun _ s' => exists F', freer_at t F' held NULL s') s.
Proof.
  intros Hs. unfold add_free. destruct (freer_new _ _ _ _ _ _ Hs) as [Hp0 HpF]. pose proof Hs as [Hl Htl].
  eapply a_load_own; [apply Hl|done|exact Htl|]. intros s1 R1 Hi1. apply (freer_stable _ _ _ _ _ _ R1) in Hs. clear Hl Htl.
  apply wp_bind; [apply _|]. eapply wp_post; [by apply a_set_tail|]. cbn beta. intros _ s2 [Hl Ht].
  pose proof (local_head _ _ _ _ _ Hl) as Hhd.
  replace (match F with [] => NULL | x :: _ => x end) with (hd0 F) in Hhd by (by destruct F).
  eapply a_load_own; [apply Hl|done|exact Hhd|]. intros s3 R3 Hi3. destruct (R3 (proj1 Hl)) as (_ & _ & Hl3).
  rewrite <- Hl3 in Ht by done. apply (local_stable _ _ _ _ _ _ R3) in Hl.
  assert (Hpm : p ∈ mine (cg s3) t) by (apply Hl; set_solver).
  apply a_store; [done|done|]. intros s4 s5 R4 Hi4 Hi5 Hc5 Hg5. destruct (R4 Hi3) as (_ & Hm4 & Hl4).
  rewrite <- Hl4 in Ht by done. apply (local_stable _ _ _ _ _ _ R4) in Hl.
  assert (Hl5 : local_at t F (p :: held) NULL s5) by (eapply local_store; [exact Hl|done|exact Hc5|done|done|intros x Hx [= ->]; done]).
  assert (Hp5 : mget (cm s5) (LMrNext p) = Some (hd0 F)) by (rewrite Hc5; apply mget_insert).
  assert (Ht5 : mget (cm s5) (LTls t Vlfl_tail) = Some (tail_of (p :: F))) by (rewrite Hc5; by rewrite mget_insert_ne).
  apply a_store; [done|done|]. intros s6 s7 R6 Hi6 Hi7 Hc7 Hg7. destruct (R6 Hi5) as (_ & Hm6 & Hl6).
  rewrite <- Hl6 in Hp5 by (cbn; rewrite Hg5; by apply Hm4). rewrite <- Hl6 in Ht5 by done. apply (local_stable _ _ _ _ _ _ R6) in Hl5.
  assert (Hs7 : freer_at t (p :: F) held NULL s7) by (by eapply freer_cons).
  apply a_incr_tls; [done|]. intros s8 s9 c R8 Hi8 Hi9 Hc9 Hg9. apply (freer_stable _ _ _ _ _ _ R8) in Hs7.
  assert (Hs9 : freer_at t (p :: F) held NULL s9) by (eapply freer_store; [exact Hs7|done|exact Hc9|done|done|done|done]).
  apply a_load; [done|by left|]. intros s10 w R10 Hi10 _. apply (freer_stable _ _ _ _ _ _ R10) in Hs9.
  destruct (AMORT_FREE_ON <=? w).
  - destruct (exists_last (l := p :: F)) as (pre & y & Heq); [done|]. rewrite Heq in Hs9.
    eapply wp_post; [by eapply a_flush|]. cbn beta. intros _ s11 H11. by exists [].
  - apply wp_ret. intros s11 R11. exists (p :: F). by eapply freer_stable.
Qed.

Lemma a_free_node t F held p fuel s : freer_at t F (p :: held) NULL s ->
  awp t (free_node fuel t p) (fun _ s' => exists F', freer_at t F' held NULL s') s.
Proof.
  intros Hs. unfold free_node. apply wp_bind; [apply _|].
  eapply wp_post; [exact (a_add_free t F held p fuel s Hs)|]. cbn beta. intros _ s1 [F' Hs1].
  change (incr_tls t Vnbfl) with (incr_tls t Vnbfl ≫= Ret (A := unit)).
  apply a_incr_tls; [apply Hs1|]. intros s2 s3 v R2 Hi2 Hi3 Hc3 Hg3. apply (freer_stable _ _ _ _ _ _ R2) in Hs1.
  apply wp_ret. intros s4 R4. exists F'. eapply freer_stable; [exact R4|].
  eapply freer_store; [exact Hs1|done|exact Hc3|done|done|done|done].
Qed.

(** ** The clients *)

Lemma freer_perm t F held held' h s : held ≡ₚ held' -> freer_at t F held h s -> freer_at t F held' h s.
Proof.
  intros Hp [(Hi & Hc & Hn & Hm) Ht]. split; [|done]. split; [done|]. split; [done|].
  split; [by rewrite <- Hp|]. intros x. rewrite <- Hp. apply Hm.
Qed.

Lemma local_holds t F held h s : local_at t F held h s -> holds_at t held s.
Proof. intros (Hi & _ & Hn & Hm). split; [done|]. split; [by apply NoDup_app in Hn as (_ & _ & ?)|]. set_solver. Qed.

Lemma a_allocs t fuel ops : Forall (eq Alloc) ops -> forall F held s, local_at t F held NULL s ->
  awp t (session fuel t ops held) (holds_at t) s.
Proof.
  induction ops as [|b ops IH]; intros Ho F held s Hs; cbn [session].
  - apply wp_ret. intros s' R. eapply holds_stable; [exact R|]. by eapply local_holds.
  - apply Forall_cons in Ho as [<- Ho]. apply wp_bind; [apply _|]. eapply wp_post; [by eapply a_new_node|]. cbn beta.
    intros r s1 (F' & Hs1 & _). by eapply IH.
Qed.

Lemma a_frees t fuel ops : Forall (fun o => o <> Alloc) ops -> forall F held s, freer_at t F held NULL s ->
  awp t (session fuel t ops held) (holds_at t) s.
Proof.
  induction ops as [|[|i] ops IH]; intros Ho F held s Hs; cbn [session].
  - apply wp_ret. intros s' R. eapply holds_stable; [exact R|]. eapply local_holds. apply Hs.
  - by apply Forall_cons in Ho as [? _].
  - apply Forall_cons in Ho as [_ Ho]. destruct (held !! i) as [p|] eqn:Hl; [|by eapply IH].
    apply wp_bind; [apply _|]. eapply wp_post; [apply (a_free_node t F (delete i held) p)|].
    + eapply freer_perm; [|exact Hs]. by apply delete_Permutation.
    + cbn beta. intros _ s1 [F' Hs1]. by eapply IH.
Qed.

End frees.
End roles.

Arguments ainv D s : rename.
Arguments ai_path {D s}.
Arguments ai_nodup {D s}.
Arguments ai_shared {D s}.
Arguments ai_mine {D s}.
Arguments ai_disj {D s}.

(** ** Any number of threads *)

(** The threads: what each asks the allocator, and the nodes it starts with. *)
Abbreviation workers := (list (list alloc_op * list Z)).

Definition work (fuel : nat) (ws : workers) : list (prog (list Z)) :=
  imap (fun i w => session fuel (Z.of_nat i) w.1 w.2) ws.

(** It only allocates, or it only frees, in any order. *)
Definition one_role (w : list alloc_op * list Z) : Prop :=
  Forall (eq Alloc) w.1 \/ Forall (fun o => o <> Alloc) w.1.

(** What the threads that have ended hold. *)
Definition results (ps : list (prog (list Z))) : list Z :=
  concat (omap (fun p => match p with Ret r => Some r | _ => None end) ps).

Lemma concat_elem (ls : list (list Z)) i a x : ls !! i = Some a -> x ∈ a -> x ∈ concat ls.
Proof.
  intros Hi Hx. apply list_elem_of_In, in_concat. exists a. split; apply list_elem_of_In; [by eapply list_elem_of_lookup_2|done].
Qed.

Lemma concat_nodup (ls : list (list Z)) : NoDup (concat ls) -> forall i a, ls !! i = Some a -> NoDup a.
Proof.
  induction ls as [|l ls IH]; [done|]. simpl. intros (Hl & _ & Hn)%NoDup_app [|i] a Hi; simplify_eq/=; [done|by eapply IH].
Qed.

Lemma concat_disj (ls : list (list Z)) : NoDup (concat ls) -> forall i j a b x,
  ls !! i = Some a -> ls !! j = Some b -> x ∈ a -> x ∈ b -> i = j.
Proof.
  induction ls as [|l ls IH]; [done|]. simpl. intros (_ & Hd & Hn)%NoDup_app.
  pose proof (concat_elem ls) as Hin.
  intros [|i] [|j] a b x Hi Hj Ha Hb; simplify_eq/=; [done| | |f_equal; by eapply IH]; exfalso; by eapply Hd; [|by eapply Hin].
Qed.

(** Nothing is known of the shared nodes. *)
Definition any_node (x : Z) : Prop := True.

Section pool.
Context `{HC : Calloc} {HT : CallocTotal}.

Lemma results_nodup s ps : forall k, (forall i r, ps !! i = Some (Ret r) -> holds_at any_node (Z.of_nat (k + i)) r s) ->
  NoDup (results ps) /\ forall x, x ∈ results ps -> exists i r, ps !! i = Some (Ret r) /\ x ∈ r.
Proof.
  induction ps as [|p ps IH]; intros k Hh; [split; [constructor|set_solver]|].
  destruct (IH (S k)) as [Hn Hin]. { intros i r Hi. replace (S k + i)%nat with (k + S i)%nat by lia. by apply Hh. }
  destruct p as [r|e|o c]; unfold results in *; simpl;
    try (split; [done|]; intros x Hx; destruct (Hin x Hx) as (i & r' & Hi & Hr); by exists (S i), r').
  pose proof (Hh 0%nat r eq_refl) as (Hi & Hnr & Hm). split.
  - apply NoDup_app. split; [done|]. split; [|done]. intros x Hx Hx'. destruct (Hin x Hx') as (i & r' & Hir & Hr).
    destruct (Hh (S i) r' Hir) as (_ & _ & Hm'). pose proof (ai_disj Hi _ _ _ (Hm x Hx) (Hm' x Hr)). lia.
  - intros x [Hx|Hx]%elem_of_app; [by exists 0%nat, r|]. destruct (Hin x Hx) as (i & r' & Hir & Hr). by exists (S i), r'.
Qed.

Section start.
Context (fuel : nat) (ws : workers) (gl : list Z) (m : mem).
Context (Hp : path LMrNext m (LGlob Gfreelist) gl) (Hn : NoDup (gl ++ concat (snd <$> ws))).
Context (Hnode : forall x, x ∈ gl ++ concat (snd <$> ws) -> node m x).
Context (Ht : forall t, mget m (LTls t Vlfl) = Some NULL /\ mget m (LTls t Vlfl_tail) = Some NULL).

Definition start_ghost : ast :=
  Ast gl (fun t => if decide (0 <= t) then list_to_set (default [] ((snd <$> ws) !! Z.to_nat t)) else ∅).
Definition start_cfg : cfg ast := Cfg m [m] start_ghost.

Definition role_spec (i : nat) : thread_spec ast (list Z) :=
  ThreadSpec (list Z) (fun e => e = OutOfFuel) (arely any_node (Z.of_nat i)) (aguar any_node (Z.of_nat i)) (holds_at any_node (Z.of_nat i)).

Lemma start_mine t x : x ∈ mine start_ghost t -> 0 <= t /\ exists a, (snd <$> ws) !! Z.to_nat t = Some a /\ x ∈ a.
Proof.
  cbn. case_decide; [|set_solver]. rewrite elem_of_list_to_set. intros Hx. split; [done|].
  destruct ((snd <$> ws) !! Z.to_nat t) as [a|]; [by exists a|by apply not_elem_of_nil in Hx].
Qed.

Lemma start_inv : ainv any_node start_cfg.
Proof.
  pose proof Hn as Hn'. apply NoDup_app in Hn' as (Hgl & Hdis & Hcon). split; cbn [start_cfg cm cg start_ghost shared].
  - done.
  - done.
  - intros x Hx. split; [apply Hnode; set_solver|done].
  - intros t x (H0 & a & Ha & Hx)%start_mine. pose proof (concat_elem _ _ _ _ Ha Hx). split; [apply Hnode; set_solver|].
    intros Hg. by apply (Hdis x).
  - intros t u x (H0 & a & Ha & Hx)%start_mine (H1 & b & Hb & Hy)%start_mine.
    pose proof (concat_disj _ Hcon _ _ _ _ x Ha Hb Hx Hy). lia.
Qed.

Lemma start_wp : Forall one_role ws ->
  Forall2 (fun t p => ts_wp t p start_cfg) (imap (fun i _ => role_spec i) ws) (work fuel ws).
Proof.
  intros Hr. pose proof Hn as Hn'. apply NoDup_app in Hn' as (_ & _ & Hcon).
  apply Forall2_same_length_lookup. unfold work. rewrite !length_imap. split; [done|]. intros i t p Hti Hpi.
  rewrite list_lookup_imap in Hti. rewrite list_lookup_imap in Hpi. destruct (ws !! i) as [w|] eqn:Hw; [|done]. simplify_eq/=.
  assert (Hh : (snd <$> ws) !! i = Some w.2) by (by rewrite list_lookup_fmap, Hw). destruct (Ht (Z.of_nat i)) as [H1 H2].
  assert (Hl : freer_at any_node (Z.of_nat i) [] w.2 NULL start_cfg).
  { split; [|done]. split; [apply start_inv|]. split; [done|]. split; [by eapply concat_nodup|]. intros x Hx. cbn.
    rewrite decide_True by lia. rewrite Nat2Z.id, Hh. by apply elem_of_list_to_set. }
  rewrite Forall_lookup in Hr. destruct (Hr i w Hw) as [Ho|Ho]; unfold ts_wp; cbn; [by eapply a_allocs; [done..|apply Hl]|by eapply a_frees].
Qed.

Lemma roles_run tr ps m' : Forall one_role ws -> psteps (work fuel ws, m) tr (ps, m') ->
  exists s', cm s' = m' /\ forall i p, ps !! i = Some p -> ts_wp (role_spec i) p s'.
Proof.
  intros Hr Hst. change m with (cm start_cfg) in Hst.
  destruct (wp_pool (fun _ _ => True) (imap (fun i _ => role_spec i) ws) (work fuel ws) ps start_cfg tr m') as (g' & _ & Hf).
  - by split.
  - done.
  - intros i j ti tj Hti Htj Hne s s' Hg. rewrite list_lookup_imap in Hti. rewrite list_lookup_imap in Htj.
    destruct (ws !! i), (ws !! j); simplify_eq/=. by apply Hg; lia.
  - intros t Hin. apply list_elem_of_lookup in Hin as [i Hi]. rewrite list_lookup_imap in Hi.
    destruct (ws !! i); simplify_eq/=. apply _.
  - intros t Hin. apply list_elem_of_lookup in Hin as [i Hi]. rewrite list_lookup_imap in Hi.
    destruct (ws !! i); by simplify_eq/=.
  - by apply start_wp.
  - exact Hst.
  - eexists. split; [|intros i p Hi; destruct (Forall2_lookup_r _ _ _ _ _ Hf Hi) as (t & Hti & Hw)].
    2:{ rewrite list_lookup_imap in Hti. destruct (ws !! i); [|done]. simplify_eq/=. exact Hw. }
    done.
Qed.

End start.

(** C22: when every thread either only allocates or only frees, no
    interleaving hands out a node twice: the nodes that the threads hold at
    their end are pairwise distinct and allocated, and no thread stops but for
    want of fuel. *)
Theorem roles_no_double_allocation fuel ws gl m tr ps m' :
  Forall one_role ws ->
  path LMrNext m (LGlob Gfreelist) gl -> NoDup (gl ++ concat (snd <$> ws)) ->
  (forall x, x ∈ gl ++ concat (snd <$> ws) -> node m x) ->
  (forall t, mget m (LTls t Vlfl) = Some NULL /\ mget m (LTls t Vlfl_tail) = Some NULL) ->
  psteps (work fuel ws, m) tr (ps, m') ->
  (forall i e, ps !! i = Some (Crash e) -> e = OutOfFuel) /\
  NoDup (results ps) /\ (forall x, x ∈ results ps -> node m' x).
Proof.
  intros Hr Hp Hn Hnode Ht Hst. destruct (roles_run fuel ws gl m Hp Hn Hnode Ht tr ps m' Hr Hst) as (s' & <- & Hall).
  split; [intros i e Hi; exact (Hall i _ Hi)|].
  assert (Hret : forall i r, ps !! i = Some (Ret r) -> holds_at any_node (Z.of_nat i) r s') by (intros i r Hi; by apply (Hall i _ Hi)).
  destruct (results_nodup s' ps 0 Hret) as [Hnd Hin]. split; [done|]. intros x Hx.
  destruct (Hin x Hx) as (i & r & Hir & Hxr). destruct (Hret i r Hir) as (Hi' & _ & Hm). by apply (ai_mine Hi' (Z.of_nat i)), Hm.
Qed.

End pool.

(** One thread frees a hundred nodes, which flushes its list; another one
    allocates three. *)
Definition hundred : list Z := (fun i => 64 * i) <$> seqZ 1 100.
Definition hundred_store : mem := foldr calloc_block ∅ hundred.
Definition two_roles : workers := [(free_all 100, hundred); (repeat Alloc 3, [])].
Definition two_sched : list nat := repeat 0%nat 950 ++ repeat 1%nat 50.

Lemma hundred_store_tls t x : mget hundred_store (LTls t x) = Some 0.
Proof.
  unfold mget, hundred_store. induction hundred as [|p ps IH]; [done|]. simpl. rewrite calloc_block_lookup_ne; [exact IH|].
  intros f Hf. unfold node_fields in Hf. set_unfold in Hf. by destruct_or! Hf; subst.
Qed.

Lemma roles_no_double_allocation_witness : exists tr ps m',
  psteps (work 3 two_roles, hundred_store) tr (ps, m') /\ ps !! 1%nat = Some (Ret [192; 128; 64]) /\
  NoDup (results ps) /\ (forall x, x ∈ results ps -> node m' x).
Proof.
  pose proof (sched_trace_psteps two_sched (work 3 two_roles, hundred_store) _ [] (psteps_refl _)) as Hps.
  assert (Hc : returned ((sched_trace two_sched (work 3 two_roles, hundred_store) []).1.1 !! 1%nat) [192; 128; 64] = true)
    by (vm_compute; reflexivity).
  apply returned_spec in Hc.
  destruct (sched_trace two_sched (work 3 two_roles, hundred_store) []) as [[ps m'] tr]. exists tr, ps, m'.
  split; [exact Hps|]. split; [exact Hc|].
  apply (roles_no_double_allocation 3 two_roles [] hundred_store tr ps m').
  - constructor; [right|constructor; [left|constructor]]; repeat constructor; discriminate.
  - done.
  - apply (bool_decide_unpack _). vm_compute. reflexivity.
  - intros x Hx. assert (Hb : forallb (fun p => negb (p =? NULL) &&
      forallb (fun f => bool_decide (is_Some (hundred_store !! f p))) node_fields) hundred = true) by (vm_compute; reflexivity).
    rewrite forallb_forall in Hb. apply list_elem_of_In in Hx.
    change ([] ++ concat (snd <$> two_roles)) with (hundred ++ []) in Hx. rewrite app_nil_r in Hx.
    apply Hb, andb_true_iff in Hx as [Hx Hf]. apply node_b; [|exact Hf]. intros ->. discriminate Hx.
  - intros t. split; apply hundred_store_tls.
  - exact Hps.
Defined.
