(* ===== verification/ListOps.v ===== *)
(** * The interface of the list operations

    mrow.c calls [insert], [delete] and [search], and each build links it with
    files that define them.  [ListOps] is what the driver calls to update the
    table; [ListOpsSpec] is what it relies on: each operation refines the
    operation of the abstract set on its bucket.  [DriverSpec] adds that the
    operations leave the driver's own counters alone. *)
From S2P Require Import Prelude Mem RG SWP Table TableFacts Allocator.

(** [insert] and [delete]; the first argument is the fuel of the traversal, the
    second the running thread. *)
Class ListOps := {
  op_insert : nat -> Z -> Z -> loc -> loc -> prog Z;
  op_delete : nat -> Z -> Z -> loc -> loc -> prog Z }.

(** [return (cur_key == key)], at the end of every search. *)
Definition found (cur_key key : Z) : Z := if cur_key =? key then 1 else 0.

(** A local variable that may be uninitialised; using it then is undefined. *)
Definition use {A} (x : option Z) (k : Z -> prog A) : prog A :=
  match x with Some v => k v | None => Crash Indeterminate end.

(** The table between two operations: well formed, no node unlinked and not
    yet retired, and the used nodes are exactly those of the lists and those the
    scheme still keeps. *)
Definition table_ok (own : option Z -> gset Z -> mem -> Prop) (m : mem) (g : gst) : Prop :=
  Inv m g /\ pend g = None /\ exists U, own None U m /\ (forall n, n ∈ U <-> kept g n).

(** [r] and the new table are those of the abstract operation on bucket [i]. *)
Definition refines_op (spec : Z -> gset Z -> Z * gset Z) (key i : Z)
    (own : option Z -> gset Z -> mem -> Prop) (m : mem) (g : gst)
    (r : Z) (m' : mem) (g' : gst) : Prop :=
  exists S, abs_table m g !! i = Some S /\ r = (spec key S).1 /\
    abs_table m' g' = <[i := (spec key S).2]> (abs_table m g) /\ table_ok own m' g'.

Class ListOpsSpec `{ListOps} (self : Z) (SG : mem -> gst -> mem -> gst -> Prop)
    (own : option Z -> gset Z -> mem -> Prop) : Prop := {
  lo_silent m g : SG m g m g;
  lo_insert E fuel key i m g xs :
    table_ok own m g -> bk g !! i = Some xs -> (length xs < fuel)%nat ->
    swp (foreign self) E SG (op_insert fuel self key (LHead i) (LLock i))
      (refines_op spec_insert key i own m g) m g;
  lo_delete E fuel key i m g xs :
    table_ok own m g -> bk g !! i = Some xs -> (length xs < fuel)%nat ->
    swp (foreign self) E SG (op_delete fuel self key (LHead i) (LLock i))
      (refines_op spec_delete key i own m g) m g }.

(** An updater that gives every node back at once. *)
Class Eager (SG : mem -> gst -> mem -> gst -> Prop) : Prop :=
  eager m g m' g' : SG m g m' g' -> old g' ⊆ old g.

Lemma eager_rtc SG {HE : Eager SG} c c' :
  rtc (fun c c' : mem * gst => SG c.1 c.2 c'.1 c'.2) c c' -> old c'.2 ⊆ old c.2.
Proof. induction 1 as [|c c1 c2 Hs _ IH]; [done|]. etrans; [exact IH|]. by eapply eager. Qed.

Definition eager_step (m : mem) (g : gst) (m' : mem) (g' : gst) : Prop := old g' ⊆ old g.
#[export] Instance eager_step_eager : Eager eager_step.
Proof. by intros m g m' g'. Qed.
#[export] Instance eager_step_alloc self : AllocGuar self eager_step.
Proof. split; by unfold eager_step. Qed.

#[export] Hint Extern 0 (eager_step _ _ _ _) => (unfold eager_step; reflexivity) : core.

(** The counters that mrow.c keeps for an updater, with their values. *)
Definition driver_vars : list tlsvar := [Vthd_seed; Vthd_ins; Vthd_del].
Definition driver_at (self : Z) (d : tlsvar -> Z) (m : mem) : Prop :=
  forall x, x ∈ driver_vars -> mget m (LTls self x) = Some (d x).
(** Those it only resets, at its start. *)
Definition reset_vars : list tlsvar :=
  [Vthd_sea; Vnbmallocs; Vnbretry; Vnbrelink; Vnbreprev; Vnbfl; Vthread; Vthd_nbupdaters].
Definition set_var (x : tlsvar) (v : Z) (d : tlsvar -> Z) : tlsvar -> Z :=
  fun y => if decide (y = x) then v else d y.

(** Operations that leave these counters alone, with a state that does not
    depend on them. *)
Class DriverSpec `{ListOps} (self : Z) (SG : mem -> gst -> mem -> gst -> Prop)
    (own : (tlsvar -> Z) -> option Z -> gset Z -> mem -> Prop) : Prop := {
  ds_ops :: forall d, ListOpsSpec self SG (own d);
  ds_read d h U m : own d h U m -> driver_at self d m;
  ds_store m g x v : x ∈ driver_vars ++ reset_vars -> SG m g (<[LTls self x := v]> m) g;
  ds_own d h U m x v : x ∈ driver_vars -> own d h U m ->
    own (set_var x v d) h U (<[LTls self x := v]> m);
  ds_reset d h U m x v : x ∈ reset_vars -> own d h U m -> own d h U (<[LTls self x := v]> m) }.

(** Locations outside the two arrays of [struct hash]. *)
Definition off_arrays (l : loc) : bool :=
  match l with LHead _ | LLock _ => false | _ => true end.
