(* ===== verification/Lock.v ===== *)
(** * Locks (lock.h): code

    The branches of lock.h.  A build chooses one by a macro and [ONE_WRITER]
    chooses a cheaper version for a single updater; each is a module here, and
    [LockOps] is what list_lock.c and list_writer.c use of it.  The readers'
    operations work on a local variable [__loc_val] and may jump to the label
    [search_retry]: [lock_rlock] returns the variable, [lock_runlock] and
    [lock_validate] return false for the jump. *)
From S2P Require Import Prelude Mem.

Class LockOps := {
  lock_init : loc -> prog unit;
  lock_rlock : nat -> loc -> prog Z;
  lock_runlock : loc -> Z -> prog bool;
  lock_validate : loc -> Z -> prog bool;
  lock_wlock : nat -> loc -> prog unit;
  lock_wunlock : loc -> prog unit }.

(** The default: [#define lock_validate(sl) /**/]. *)
Definition no_validate (l : loc) (loc_val : Z) : prog bool := Ret true.

(** ** [RWLOCK], [LSPIN]: the C library's locks *)

Class Pthread := {
  pthread_rwlock_init : loc -> prog unit;
  pthread_rwlock_rdlock : loc -> prog unit;
  pthread_rwlock_wrlock : loc -> prog unit;
  pthread_rwlock_unlock : loc -> prog unit;
  pthread_spin_init : loc -> prog unit;
  pthread_spin_lock : loc -> prog unit;
  pthread_spin_unlock : loc -> prog unit }.

Definition rw_lock `{Pthread} : LockOps := {|
  lock_init := pthread_rwlock_init;
  lock_rlock := fun _ l => pthread_rwlock_rdlock l;; Ret 0;
  lock_runlock := fun l _ => pthread_rwlock_unlock l;; Ret true;
  lock_validate := no_validate;
  lock_wlock := fun _ l => pthread_rwlock_wrlock l;
  lock_wunlock := pthread_rwlock_unlock |}.

Definition spin_lock `{Pthread} : LockOps := {|
  lock_init := pthread_spin_init;
  lock_rlock := fun _ l => pthread_spin_lock l;; Ret 0;
  lock_runlock := fun l _ => pthread_spin_unlock l;; Ret true;
  lock_validate := no_validate;
  lock_wlock := fun _ l => pthread_spin_lock l;
  lock_wunlock := pthread_spin_unlock |}.

(** The locks as events; [Locking] says whom they stop.  [init] prepares the
    memory of a lock. *)
Definition event_locks (init : loc -> prog unit) : Pthread := {|
  pthread_rwlock_init := init;
  pthread_rwlock_rdlock := fun l => lib_call (LockAcquire false l);
  pthread_rwlock_wrlock := fun l => lib_call (LockAcquire true l);
  pthread_rwlock_unlock := fun l => lib_call (LockRelease l);
  pthread_spin_init := init;
  pthread_spin_lock := fun l => lib_call (LockAcquire true l);
  pthread_spin_unlock := fun l => lib_call (LockRelease l) |}.

(** [L] takes these locks, to read in the way [b] says. *)
Class EventLock (b : bool) (L : LockOps) : Prop := {
  el_rlock fuel l : lock_rlock fuel l = (lib_call (LockAcquire b l);; Ret 0);
  el_runlock l v : lock_runlock l v = (lib_call (LockRelease l);; Ret true);
  el_validate l v : lock_validate l v = Ret true;
  el_wlock fuel l : lock_wlock fuel l = lib_call (LockAcquire true l);
  el_wunlock l : lock_wunlock l = lib_call (LockRelease l) }.

#[export] Instance event_rw init : EventLock false (@rw_lock (event_locks init)).
Proof. by split. Qed.
#[export] Instance event_spin init : EventLock true (@spin_lock (event_locks init)).
Proof. by split. Qed.

(** ** [LOCK_CLASSIC] *)

Module Classic.

Definition lock_init (exclusion : loc) : prog unit :=
  store exclusion 0;;
  memory_barrier.

(** [while (__sync_lock_test_and_set(exclusion, 1));] *)
Fixpoint lock_lock (fuel : nat) (exclusion : loc) : prog unit :=
  match fuel with
  | O => Crash OutOfFuel
  | S fuel =>
      v ← do_op (Xchg exclusion 1);
      if v =? 0 then Ret tt else lock_lock fuel exclusion
  end.

(** [__sync_lock_release] stores 0. *)
Definition lock_unlock (exclusion : loc) : prog unit :=
  v ← load exclusion;
  if negb (v =? 1) then Crash Aborted else store exclusion 0.

End Classic.

(** [*sl += 1] on a volatile [unsigned long]. *)
Definition add_one (sl : loc) : prog unit := incr64 sl.

(** [__sync_bool_compare_and_swap] *)
Definition sync_bool_cas (sl : loc) (oldval newval : Z) : prog bool := CAS sl oldval newval.

(** ** [SEQLOCK]: odd while an updater is at work *)

Module Seq.

Definition lock_init (sl : loc) : prog unit := store sl 0;; memory_barrier.

(** [do { ... } while (__loc_val & 0x1);], [__loc_val] being a [long]. *)
Fixpoint rlock_loop (fuel : nat) (sl : loc) : prog Z :=
  match fuel with
  | O => Crash OutOfFuel
  | S fuel =>
      v ← load sl;
      read_read_barrier;;
      if Z.odd (i64 v) then rlock_loop fuel sl else Ret (i64 v)
  end.

Definition lock_rlock (fuel : nat) (sl : loc) : prog Z :=
  loc_val ← rlock_loop fuel sl;
  read_read_barrier;;
  Ret loc_val.

Definition lock_runlock (sl : loc) (loc_val : Z) : prog bool :=
  read_read_barrier;;
  sqtmp ← load sl;
  Ret (loc_val =? i64 sqtmp).

(** With [ONE_WRITER]. *)
Definition lock_wlock (sl : loc) : prog unit :=
  read_read_barrier;;
  add_one sl;;
  write_write_barrier.

Definition lock_wunlock (no_wr_br : bool) (sl : loc) : prog unit :=
  read_read_barrier;;
  add_one sl;;
  (if no_wr_br then write_read_barrier else write_write_barrier).

(** With several writers: [continue] tests [!__sqsucc], which is still 0. *)
Fixpoint wlock_loop (fuel : nat) (sl : loc) : prog unit :=
  match fuel with
  | O => Crash OutOfFuel
  | S fuel =>
      v ← load sl;
      let sqold := i64 v in
      if Z.odd sqold then wlock_loop fuel sl else
      sqsucc ← sync_bool_cas sl (u64 sqold) (u64 (sqold + 1));
      if (sqsucc : bool) then Ret tt else wlock_loop fuel sl
  end.

Definition lock_wlock_mw (fuel : nat) (sl : loc) : prog unit :=
  wlock_loop fuel sl;;
  v ← load sl;
  c_assert (Z.odd v).

Definition lock_wunlock_mw (sl : loc) : prog unit :=
  _ ← atomic_xadd4 sl 1;
  Ret tt.

Definition ops (one_writer no_wr_br : bool) : LockOps := {|
  Lock.lock_init := lock_init;
  Lock.lock_rlock := lock_rlock;
  Lock.lock_runlock := lock_runlock;
  lock_validate := lock_runlock;
  Lock.lock_wlock := fun fuel l => if one_writer then lock_wlock l else lock_wlock_mw fuel l;
  Lock.lock_wunlock := if one_writer then lock_wunlock no_wr_br else lock_wunlock_mw |}.

End Seq.

(** ** [GCLOCK]: a generation counter, above a lock bit when there are several
    writers *)

Module Gc.

Definition lock_init (sl : loc) : prog unit := store sl 0;; memory_barrier.

(** With [ONE_WRITER]; the loop [while (0)] runs once. *)
Definition lock_rlock (sl : loc) : prog Z :=
  v ← load sl;
  read_read_barrier;;
  read_read_barrier;;
  Ret (i64 v).

Definition lock_runlock (sl : loc) (loc_val : Z) : prog bool :=
  read_read_barrier;;
  sqtmp ← load sl;
  Ret (loc_val =? i64 sqtmp).

Definition lock_wunlock (no_wr_br : bool) (sl : loc) : prog unit :=
  add_one sl;;
  (if no_wr_br then write_write_barrier else write_read_barrier).

(** With several writers. *)
Definition lock_rlock_mw (sl : loc) : prog Z :=
  v ← load sl;
  Ret (i64 (Z.shiftr v 1)).

Definition lock_runlock_mw (sl : loc) (loc_val : Z) : prog bool :=
  read_read_barrier;;
  v ← load sl;
  Ret (loc_val =? i64 (Z.shiftr v 1)).

Fixpoint wlock_loop (fuel : nat) (sl : loc) : prog unit :=
  match fuel with
  | O => Crash OutOfFuel
  | S fuel =>
      v ← load sl;
      let oldv := i64 v in
      if Z.odd oldv then wlock_loop fuel sl else
      sqsucc ← sync_bool_cas sl (u64 oldv) (u64 (Z.lor oldv 1));
      if (sqsucc : bool) then Ret tt else wlock_loop fuel sl
  end.

Definition lock_wlock_mw (fuel : nat) (sl : loc) : prog unit :=
  wlock_loop fuel sl;;
  v ← load sl;
  c_assert (Z.odd v).

Definition lock_wunlock_mw (sl : loc) : prog unit :=
  _ ← atomic_xadd4 sl 1;
  Ret tt.

(** [lock_validate] is redefined only under [ONE_WRITER]. *)
Definition ops (one_writer no_wr_br : bool) : LockOps := {|
  Lock.lock_init := lock_init;
  Lock.lock_rlock := fun _ l => if one_writer then lock_rlock l else lock_rlock_mw l;
  Lock.lock_runlock := if one_writer then lock_runlock else lock_runlock_mw;
  lock_validate := if one_writer then lock_runlock else no_validate;
  Lock.lock_wlock := fun fuel l => if one_writer then Ret tt else lock_wlock_mw fuel l;
  Lock.lock_wunlock := if one_writer then lock_wunlock no_wr_br else lock_wunlock_mw |}.

End Gc.

(** ** The last branch, for one updater

    With [ONE_WRITER], as in the Makefile: no lock, a barrier at the end of the
    operations. *)

Module OneWriter.

Definition lock_wlock (l : loc) : prog unit := Ret tt.
Definition lock_wunlock (no_wr_br : bool) (l : loc) : prog unit :=
  if no_wr_br then write_write_barrier else write_read_barrier.

End OneWriter.
