(* ===== verification/Stamp.v ===== *)
(** * Readers among updaters: stamps

    The schemes with generation counters let the readers run without locks:
    the updater increments a counter when it has unlinked a node, and a reader
    that finds the counter unchanged knows that the node is still in its list.
    [Stamp] tells which counter guards a node of a bucket (the node's own in
    GECOS, the bucket's in SGECOS); [stamp_step] is what an updater may do.
    This file holds what a reader may assume of the other threads ([grely]),
    what it does itself ([rguar]), and the invariant its traversal keeps: as
    long as the counter of [cur] has not moved since it was read, [cur] was
    reached from a list of the bucket at some moment of the search. *)
From S2P Require Import Prelude Mem RG SWP Table TableFacts Frozen Allocator ListOps.

(** Locations of counters. *)
Abbreviation counter_loc l := (match l with LLock _ | LGc _ => True | _ => False end).

(** The stamp of the node [n] of bucket [i], read off a counter of the store; the
    stamps a reader may trust (a sequence lock is odd while an updater is at
    work); the stores whose counters can move without wrapping around; whether
    updaters keep every node they retire, so that readers need no stamps. *)
Class Stamp := {
  st : mem -> Z -> Z -> option Z;
  trusted : Z -> Prop;
  counters_ok : mem -> Prop;
  deferred : bool;
  st_mono m m' i n v : (forall l w, counter_loc l -> m !! l = Some w -> m' !! l = Some w) ->
    st m i n = Some v -> st m' i n = Some v;
  st_live m g i n : Inv m g -> live_in g i n -> exists v, st m i n = Some v;
  counters_ok_ext m m' : (forall l, counter_loc l -> m' !! l = m !! l) ->
    counters_ok m -> counters_ok m' }.

(** ** The updater *)

Section updater.
Context `{Stamp}.

(** Stores with the same counters. *)
Lemma st_ext m m' i n : (forall l, counter_loc l -> m' !! l = m !! l) -> st m' i n = st m i n.
Proof.
  intros Hm. apply option_eq. intros v. split; apply st_mono; intros l w Hl; by rewrite Hm.
Qed.

(** One step of the updater, as a reader sees it: a node whose stamp is
    trusted and did not move still is where it was, with the same key. *)
Record stamp_step (m : mem) (g : gst) (m' : mem) (g' : gst) : Prop := {
  gs_inv : Inv m' g';
  gs_node p : node m p -> node m' p;
  gs_gc i n v : st m i n = Some v ->
    exists v', st m' i n = Some v' /\ (counters_ok m -> v <= v');
  gs_live i n v : live_in g i n -> st m i n = Some v -> trusted v -> st m' i n = Some v ->
    live_in g' i n /\ nkey m' n = nkey m n;
  gs_dom i : is_Some (bk g !! i) -> is_Some (bk g' !! i);
  gs_frozen : deferred = true -> frozen m g m' g' }.

Definition stamp_guar (m : mem) (g : gst) (m' : mem) (g' : gst) : Prop :=
  (deferred = false -> old g' ⊆ old g) /\ (Inv m g -> stamp_step m g m' g').

Lemma stamp_eager : deferred = false -> Eager stamp_guar.
Proof. intros Hd m g m' g' [? _]. auto. Qed.

Lemma stamp_guar_step m g m' g' : old g' = old g -> (Inv m g -> stamp_step m g m' g') -> stamp_guar m g m' g'.
Proof. intros Ho Hs. split; [by rewrite Ho|done]. Qed.

Lemma st_keep (m m' : mem) : (forall l w, counter_loc l -> m !! l = Some w -> m' !! l = Some w) ->
  forall i n v, st m i n = Some v -> exists v', st m' i n = Some v' /\ (counters_ok m -> v <= v').
Proof. intros Hm i n v Hv. exists v. split; [by eapply st_mono|lia]. Qed.

Lemma stamp_step_grows m m' g : Inv m g -> grows off_list m m' ->
  (forall l w, counter_loc l -> m !! l = Some w -> m' !! l = Some w) -> stamp_step m g m' g.
Proof.
  intros HI Hg Hgc. split; [by eapply Inv_grows|apply (gr_node _ _ _ Hg)|by apply st_keep| |done|intros _; by apply frozen_grows].
  intros i n v Hl _ _ _. split; [done|]. eapply grows_nkey; [done|]. by eapply live_node.
Qed.

#[export] Instance stamp_alloc_guar self : AllocGuar self stamp_guar.
Proof.
  split.
  - intros m g. apply stamp_guar_step; [done|]. intros HI. by apply stamp_step_grows.
  - intros m g l v Hl. apply stamp_guar_step; [done|]. intros HI. apply stamp_step_grows; [done| |].
    + apply grows_store; [by eapply alloc_loc_off_list|]. by rewrite (alloc_loc_off_list self).
    + intros l' w Hl'. rewrite lookup_insert_ne; [done|]. intros ->. by destruct l'.
  - intros m g p Hp Ha Hf. apply stamp_guar_step; [done|]. intros HI. apply stamp_step_grows; [done|by apply grows_calloc|].
    intros l w _. by apply calloc_block_lookup_old.
Qed.

Lemma live_in_store_dead m g i n l p v : Inv m g -> live_in g i n -> ~ live g p ->
  (forall q, l = LKey q -> q = p) -> nkey (<[l:=v]> m) n = nkey m n.
Proof.
  intros HI Hl Hp Hk. unfold nkey. rewrite lookup_insert_ne; [done|].
  intros ->. specialize (Hk n eq_refl). subst. apply Hp. by exists i.
Qed.

Lemma st_store_list (m : mem) l v : list_loc l = true ->
  forall i n w, st m i n = Some w ->
    exists w', st (<[l:=v]> m) i n = Some w' /\ (counters_ok m -> w <= w').
Proof.
  intros Hl. apply st_keep. intros l' w Hl'. rewrite lookup_insert_ne; [done|]. intros ->.
  by destruct l'.
Qed.

(** What an updater writes to the lists keeps a node live until its stamp
    moves. *)
Lemma stamp_list_step m g m' g' : Inv m g -> list_step m g m' g' -> stamp_step m g m' g'.
Proof.
  intros HI Hs. pose proof (list_step_inv m g HI _ _ Hs) as HI'.
  pose proof (frozen_list_step m g HI m' g' Hs) as HF.
  destruct Hs as [p v Hp Hl|p q Hp Hl Hq|i pre suf p Hi Hpd Hp Hl Hx H1 H2|i pre d suf Hi Hpd];
    try apply not_kept_live in Hl;
    (split; [done|intros; by apply node_insert|
      by apply st_store_list; first [done|apply cell_list_loc]| | |intros _; exact HF]).
  - intros j n ? Hj _ _ _. split; [done|]. eapply live_in_store_dead; [done..|]. by intros ? [= ->].
  - done.
  - intros j n ? Hj _ _ _. split; [done|]. eapply live_in_store_dead; [done..|]. by intros ? [=].
  - done.
  - intros j n ? Hj _ _ _. rewrite cell_nkey. split; [|done]. destruct Hj as [(xs & Hj & Hn)|Hj]; [|congruence].
    left. simpl. destruct (decide (i = j)) as [<-|Hne]; simplify_map_eq; [|eauto].
    eexists. split; [done|]. set_solver.
  - intros j Hj. simpl. apply lookup_insert_is_Some. destruct (decide (i = j)); auto.
  - intros j n ? Hj _ _ _. rewrite cell_nkey. split; [|done]. destruct Hj as [(xs & Hj & Hn)|Hj]; [|congruence].
    destruct (decide (n = d)) as [->|Hnd].
    + right. simpl. do 2 f_equal. eapply (inv_disj _ _ HI i j _ _ d Hi Hj); [set_solver|done].
    + left. simpl. destruct (decide (i = j)) as [<-|Hne]; simplify_map_eq; [|eauto].
      eexists. split; [done|]. set_solver.
  - intros j Hj. simpl. apply lookup_insert_is_Some. destruct (decide (i = j)); auto.
Qed.

(** Writing a counter. *)
Lemma grows_counter (m : mem) l v : counter_loc l -> grows off_list m (<[l:=v]> m).
Proof. intros Hl. apply grows_store; by destruct l. Qed.

Lemma nkey_counter (m : mem) l v n : counter_loc l -> nkey (<[l:=v]> m) n = nkey m n.
Proof. intros Hl. unfold nkey. rewrite lookup_insert_ne; [done|]. by intros ->. Qed.

Lemma stamp_counter_step m g l v : Inv m g -> counter_loc l ->
  (forall i n w, st m i n = Some w ->
     exists w', st (<[l:=v]> m) i n = Some w' /\ (counters_ok m -> w <= w')) ->
  stamp_step m g (<[l:=v]> m) g.
Proof.
  intros HI Hl Hst. pose proof (grows_counter m l v Hl) as Hg.
  split; [by eapply Inv_grows|apply (gr_node _ _ _ Hg)|done| |done|intros _; by apply frozen_grows].
  intros i n w Hn _ _ _. split; [done|by apply nkey_counter].
Qed.

(** The step after which an unlinked node may be reclaimed: its stamp moved, or
    nobody trusts it. *)
Lemma stamp_retire_step m m' g d i : deferred = false -> stamp_step m g m' g -> pend g = Some (d, i) ->
  (forall v, st m i d = Some v -> trusted v -> st m' i d <> Some v) ->
  stamp_step m g m' (Gst (bk g) None (old g)).
Proof.
  intros Hd [S1 S2 S3 S4 S5 _] Hp Hmv.
  split; [eapply Inv_retire; [done|exact Hp|set_solver]|done|done| |done|by rewrite Hd].
  intros j n v Hl Hv Ht Hv'. destruct (S4 j n v Hl Hv Ht Hv') as [_ Hk]. split; [|done].
  destruct Hl as [Hl|Hl]; [by left|]. exfalso. simplify_eq. by eapply Hmv.
Qed.

(** Keeping the node instead, when nobody trusts the stamps. *)
Lemma stamp_keep_step m m' g d i : (forall v, ~ trusted v) -> stamp_step m g m' g -> pend g = Some (d, i) ->
  stamp_step m g m' (Gst (bk g) None ({[d]} ∪ old g)).
Proof.
  intros Hd [S1 S2 S3 S4 S5 S6] Hp.
  split; [by eapply Inv_retire|done|done| |done|intros Ht; eapply frozen_retire; [by apply S6|done]].
  intros j n v _ _ Ht. by destruct (Hd v).
Qed.

End updater.

(** ** What readers rely on *)

Section stamp.
Context `{Stamp}.

(** No counter reached its last value in the stores [tr]. *)
Definition nowrap (tr : list mem) : Prop := forall w, w ∈ tr -> counters_ok w.

Definition gwf (s : gcfg) : Prop := trace_ok s /\ Inv (cm s) (cg s).

Record evolve (s s' : gcfg) : Prop := {
  ev_trace : trace_ok s';
  ev_inv : Inv (cm s') (cg s');
  ev_node p : node (cm s) p -> node (cm s') p;
  ev_gc i n v : nowrap (ctr s') -> st (cm s) i n = Some v ->
    exists v', st (cm s') i n = Some v' /\ v <= v';
  ev_live i n v : nowrap (ctr s') -> live_in (cg s) i n -> st (cm s) i n = Some v -> trusted v ->
    st (cm s') i n = Some v ->
    live_in (cg s') i n /\ nkey (cm s') n = nkey (cm s) n;
  ev_dom i : is_Some (bk (cg s) !! i) -> is_Some (bk (cg s') !! i);
  ev_ksteps : deferred = true -> ksteps s s' }.

Definition grely (s s' : gcfg) : Prop :=
  suffix (ctr s) (ctr s') /\ (gwf s -> evolve s s').

(** A reader loads, or writes one of its own thread-local variables, or takes
    part in the start and the end of the test. *)
Definition reader_loc (self : Z) (l : loc) : bool :=
  match l with
  | LTls t _ => t =? self
  | LGlob (Ggo | Gdone | Gready) => true
  | _ => false
  end.

Definition rguar (self : Z) (s s' : gcfg) : Prop :=
  ctr s' = cm s' :: ctr s /\ cg s' = cg s /\
  (cm s' = cm s \/ exists l v, reader_loc self l = true /\ cm s' = <[l := v]> (cm s)).

Lemma nowrap_suffix tr tr' : suffix tr tr' -> nowrap tr' -> nowrap tr.
Proof. intros [k ->] Hn w Hw. apply Hn. set_solver. Qed.

Lemma grely_gwf s s' : grely s s' -> gwf s -> gwf s'.
Proof. intros [_ He] Hw. destruct (He Hw). by split. Qed.

#[export] Instance grely_preorder : PreOrder grely.
Proof.
  split.
  - intros s. split; [done|]. intros [Ht HI]. split; [done..|eauto| |done|].
    + intros i n v _ Hv. exists v. split; [done|lia].
    + auto.
    + done.
  - intros s1 s2 s3 [Hs12 He12] [Hs23 He23]. split; [by etrans|]. intros Hw1.
    pose proof (grely_gwf s1 s2 (conj Hs12 He12) Hw1) as Hw2.
    specialize (He12 Hw1). specialize (He23 Hw2).
    destruct He12 as [T1 I1 N1 G1 L1 D1 K1], He23 as [T2 I2 N2 G2 L2 D2 K2].
    assert (Hgc : forall i n v, nowrap (ctr s3) -> st (cm s1) i n = Some v ->
      exists v2 v3, st (cm s2) i n = Some v2 /\ st (cm s3) i n = Some v3 /\ v <= v2 /\ v2 <= v3).
    { intros i n v Hnw Hv. destruct (G1 i n v) as (v2 & Hv2 & ?); [by eapply nowrap_suffix|done|].
      destruct (G2 i n v2) as (v3 & Hv3 & ?); [done..|]. eauto 10. }
    split; [done|done|auto| | |auto|intros Hd; etrans; auto].
    + intros i n v Hnw Hv. destruct (Hgc i n v Hnw Hv) as (v2 & v3 & ? & ? & ? & ?).
      exists v3. split; [done|lia].
    + intros i n v Hnw Hl Hv Ht Hv3. destruct (Hgc i n v Hnw Hv) as (v2 & v3 & Hv2 & Hv3' & ? & ?).
      rewrite Hv3 in Hv3'. injection Hv3' as <-. assert (v2 = v) as -> by lia.
      destruct (L1 i n v) as [Hl2 Hk2]; [by eapply nowrap_suffix|done..|].
      destruct (L2 i n v) as [Hl3 Hk3]; [done..|]. split; [done|congruence].
Qed.

(** ** Compatibility of the threads *)

(** Two stores that agree outside the thread-local variables satisfy the same
    invariant. *)
Lemma Inv_tls m m' g : (forall l, heap_loc l -> m' !! l = m !! l) ->
  Inv m g -> Inv m' g.
Proof.
  intros Hm. apply Inv_grows. split.
  - intros l v Hl. unfold mget. rewrite Hm; [done|]. by destruct l.
  - intros p [Hp Hf]. split; [done|]. rewrite Forall_forall in Hf |- *. intros f Hin.
    rewrite Hm; [auto|]. unfold node_fields in Hin. set_unfold in Hin. by destruct_or! Hin; subst.
  - intros l Hl. rewrite Hm; [done|]. by destruct l.
  - intros n q. rewrite Hm by done. by left.
  - intros n v _. rewrite Hm by done. by left.
  - intros i _. by apply Hm.
Qed.

Lemma node_ext m m' p : (forall f, f ∈ node_fields -> m' !! f p = m !! f p) -> node m p -> node m' p.
Proof.
  intros Hm [Hp Hf]. split; [done|]. rewrite Forall_forall in Hf |- *. intros f Hin.
  rewrite Hm by done. auto.
Qed.

Lemma rguar_grely self s s' : rguar self s s' -> grely s s'.
Proof.
  intros (Ht & Hg & Hm).
  assert (Hm' : forall l, heap_loc l -> cm s' !! l = cm s !! l).
  { intros l Hl. destruct Hm as [->|(l' & v & Hl' & ->)]; [done|]. rewrite lookup_insert_ne; [done|].
    intros ->. by destruct l as [| | | | | | |[]| | | |]. }
  split; [rewrite Ht; by exists [cm s']|]. intros [Hok HI]. split.
  - unfold trace_ok. by rewrite Ht.
  - rewrite Hg. by eapply Inv_tls.
  - intros p. apply node_ext. intros f Hf. unfold node_fields in Hf. set_unfold in Hf.
    destruct_or! Hf; subst f; by apply Hm'.
  - intros i n v _ Hv. exists v. rewrite (st_ext (cm s)) by (intros l Hl; apply Hm'; by destruct l). split; [done|lia].
  - intros i n v _ Hl _ _ _. rewrite Hg. split; [done|]. unfold nkey. by rewrite Hm'.
  - by rewrite Hg.
  - intros _. apply rtc_once. rewrite <- Hg in HI. split; [rewrite Ht; by exists [cm s']|unfold trace_ok; by rewrite Ht| |].
    + by eapply Inv_tls.
    + rewrite Hg. by apply frozen_ext.
Qed.

Lemma rguar_wrely self w s s' : self <> w -> rguar self s s' -> wrely (foreign w) s s'.
Proof.
  intros Hne (Ht & Hg & Hm). split; [done|]. split; [rewrite Ht; by exists [cm s']|].
  intros l Hl. destruct Hm as [->|(l' & v & Hl' & ->)]; [done|]. rewrite lookup_insert_ne; [done|].
  intros ->. destruct l as [| | | | | | |[]|t x| | |]; try done. simpl in Hl, Hl'.
  apply negb_false_iff in Hl. apply Z.eqb_eq in Hl, Hl'. congruence.
Qed.

Lemma private_tls w m l : heap_loc l ->
  private_part (foreign w) m !! l = m !! l.
Proof. intros Hl. apply private_lookup. by destruct l. Qed.

Lemma wguar_grely w s s' : wguar (foreign w) stamp_guar s s' -> grely s s'.
Proof.
  intros (Ht & _ & HS). split; [rewrite Ht; by exists [cm s']|]. intros [Hok HI].
  destruct HS as [_ HS]. destruct HS as [S1 S2 S3 S4 S5 S6].
  { eapply Inv_tls; [|done]. intros l Hl. by apply private_tls. }
  assert (Hk : forall m n, nkey (private_part (foreign w) m) n = nkey m n).
  { intros m n. unfold nkey. by rewrite private_tls. }
  assert (Hst : forall m i n, st (private_part (foreign w) m) i n = st m i n).
  { intros m i n. apply st_ext. intros l Hl. apply private_tls. by destruct l. }
  split.
  - unfold trace_ok. by rewrite Ht.
  - eapply Inv_tls; [|done]. intros l Hl. symmetry. by apply private_tls.
  - intros p Hp. eapply node_ext; [|apply S2; eapply node_ext; [|done]];
      intros f Hf; [symmetry|]; apply private_lookup; by apply foreign_node_field.
  - intros i n v Hnw Hn. destruct (S3 i n v) as (v' & Hv' & Hle); [by rewrite Hst|].
    rewrite Hst in Hv'. exists v'. split; [done|]. apply Hle.
    apply (counters_ok_ext (cm s)); [intros l Hl; apply private_tls; by destruct l|].
    apply Hnw. rewrite Ht. apply elem_of_cons. right. by apply head_Some_elem_of.
  - intros i n v _ Hl Hv Htr Hv'. rewrite <- (Hk (cm s') n), <- (Hk (cm s) n).
    apply (S4 i n v); [done|by rewrite Hst|done|by rewrite Hst].
  - done.
  - intros Hd. apply rtc_once. split; [rewrite Ht; by exists [cm s']|unfold trace_ok; by rewrite Ht| |].
    { eapply Inv_tls; [|done]. intros l Hl. symmetry. by apply private_tls. }
    specialize (S6 Hd). eapply frozen_equiv; [| |exact S6]; intros l Hl; symmetry; by apply private_tls.
Qed.

(** ** What the traversal knows *)

(** [w] is a store of the search: the one it started in or a later one. *)
Definition since (s0 s : gcfg) (w : mem) : Prop :=
  exists new, ctr s = new ++ ctr s0 /\ (w ∈ new \/ w = cm s0).

(** The answer [b] was right at some moment of the search. *)
Definition lin (s0 s : gcfg) (i key b : Z) : Prop :=
  exists w xs, since s0 s w /\ path LNext w (LHead i) xs /\ b = spec_search key (kset w xs).

(** [cur] once was in bucket [i], after smaller keys only, with its present
    key. *)
Definition cand (s0 s : gcfg) (i key cur : Z) : Prop :=
  exists w pre suf, since s0 s w /\ path LNext w (LHead i) (pre ++ cur :: suf) /\
    incr (keys w (pre ++ cur :: suf)) /\ (forall x, x ∈ pre -> nkey w x < key) /\
    nkey w cur = nkey (cm s) cur.

(** The loop invariant at the node [cur] whose stamp was read as [cur_gc]. *)
Definition at_cur (s0 s : gcfg) (i key cur : Z) (cur_gc : option Z) : Prop :=
  (cur = NULL -> lin s0 s i key 0) /\
  (cur <> NULL -> exists g0 v, cur_gc = Some g0 /\ st (cm s) i cur = Some v /\ g0 <= v /\
     (v = g0 -> trusted v -> live_in (cg s) i cur /\ cand s0 s i key cur)).

(** What keeps the traversal from faulting, wrapped counters or not. *)
Definition safe_cur (s : gcfg) (cur : Z) (cur_gc : option Z) : Prop :=
  cur <> NULL -> node (cm s) cur /\ is_Some cur_gc.

Lemma since_mono s0 s s' w : suffix (ctr s) (ctr s') -> since s0 s w -> since s0 s' w.
Proof.
  intros [k Hk] (new & Hc & Hw). exists (k ++ new). rewrite Hk, Hc, app_assoc.
  split; [done|]. set_solver.
Qed.

Lemma since_now s0 s : suffix (ctr s0) (ctr s) -> trace_ok s0 -> trace_ok s -> since s0 s (cm s).
Proof.
  intros [k Hk] Ht0 Ht. exists k. split; [done|].
  destruct k as [|w k]; unfold trace_ok in *; rewrite Hk in Ht; simpl in *.
  - right. congruence.
  - left. simplify_eq. set_solver.
Qed.

Lemma since_here s0 s : grely s0 s -> gwf s0 -> gwf s -> since s0 s (cm s).
Proof. intros [Hs _] [? _] [? _]. by apply since_now. Qed.

Lemma lin_mono s0 s s' i key b : grely s s' -> lin s0 s i key b -> lin s0 s' i key b.
Proof. intros [Hr _] (w & xs & Hw & ?). exists w, xs. split; [by eapply since_mono|done]. Qed.

Lemma safe_cur_mono s s' cur cur_gc : grely s s' -> gwf s ->
  safe_cur s cur cur_gc -> safe_cur s' cur cur_gc.
Proof.
  intros [_ He] Hw Hs Hn. destruct (Hs Hn) as [? ?]. split; [|done]. by apply (ev_node _ _ (He Hw)).
Qed.

Lemma at_cur_mono s0 s s' i key cur cur_gc : nowrap (ctr s') -> grely s s' -> gwf s ->
  at_cur s0 s i key cur cur_gc -> at_cur s0 s' i key cur cur_gc.
Proof.
  intros Hnw Hr Hw [H0 H1]. split; [intros; eapply lin_mono; eauto|]. intros Hn.
  destruct (H1 Hn) as (g0 & v & -> & Hv & Hle & Hc). pose proof Hr as [Hs He].
  destruct (ev_gc _ _ (He Hw) i cur v Hnw Hv) as (v' & Hv' & Hle').
  exists g0, v'. split_and!; [done|done|lia|]. intros -> Ht.
  assert (v = g0) as -> by lia. destruct (Hc eq_refl Ht) as [Hl Hcand].
  destruct (ev_live _ _ (He Hw) i cur g0 Hnw Hl Hv Ht Hv') as [Hl' Hk']. split; [done|].
  destruct Hcand as (w & pre & suf & Hw0 & Hp & Hi & Hlt & Hk). exists w, pre, suf.
  split_and!; [eapply since_mono; [apply Hr|done]|done..|congruence].
Qed.

(** Reading [*head] when it still is [cur]. *)
Lemma at_cur_head s0 s i key cur g0 v xs :
  gwf s0 -> grely s0 s -> gwf s -> bk (cg s) !! i = Some xs ->
  mget (cm s) (LHead i) = Some cur -> cur <> NULL -> st (cm s) i cur = Some v -> g0 <= v ->
  at_cur s0 s i key cur (Some g0).
Proof.
  intros Hw0 Hr Hw Hi Hh Hn Hv Hle. pose proof Hw as [_ HI]. split; [done|]. intros _.
  exists g0, v. split_and!; [done..|]. intros _ _.
  pose proof (inv_path _ _ HI _ _ Hi) as Hp. pose proof (path_hd _ _ _ _ Hp) as Hh'.
  rewrite Hh in Hh'. destruct xs as [|x xs]; [by simplify_eq/=|]. simpl in Hh'. simplify_eq.
  split; [left; eexists; split; [done|set_solver]|].
  exists (cm s), [], xs. split_and!; [by apply since_here|done|by eapply inv_incr|set_solver|done].
Qed.

Lemma lin_head_null s0 s i key xs :
  gwf s0 -> grely s0 s -> gwf s -> bk (cg s) !! i = Some xs ->
  mget (cm s) (LHead i) = Some NULL -> lin s0 s i key 0.
Proof.
  intros Hw0 Hr Hw Hi Hh. pose proof Hw as [_ HI]. exists (cm s), [].
  split_and!; [by apply since_here| |done].
  destruct xs as [|x xs]; [by eapply inv_path|]. exfalso.
  pose proof (inv_path _ _ HI _ _ Hi) as (Hh' & Hx & _). congruence.
Qed.

(** Moving to the next node: its stamp was read before the pointer to it
    was read again from a live node. *)
Lemma at_cur_next s0 s i key cur next next_gc :
  gwf s0 -> grely s0 s -> gwf s -> live_in (cg s) i cur ->
  mget (cm s) (LNext cur) = Some next -> nkey (cm s) cur < key ->
  (next <> NULL -> exists g0 v, next_gc = Some g0 /\ st (cm s) i next = Some v /\ g0 <= v) ->
  at_cur s0 s i key next next_gc.
Proof.
  intros Hw0 Hr Hw Hl Hnx Hk Hgc. pose proof Hw as [_ HI].
  destruct (live_next _ _ HI i cur Hl) as (pre & suf & Hi & Hnx' & Hpre & Hsuf).
  rewrite mget_list_loc, Hnx' in Hnx by done. injection Hnx as <-.
  pose proof (inv_path _ _ HI _ _ Hi) as Hp.
  assert (Hlt : forall x, x ∈ pre -> nkey (cm s) x < key).
  { intros x Hx. specialize (Hpre x Hx). lia. }
  destruct suf as [|y suf]; simpl.
  - split; [intros _|done]. exists (cm s), (pre ++ []). split_and!; [by apply since_here|done|].
    unfold spec_search. rewrite decide_False; [done|]. eapply kset_gap; [done|done|set_solver].
  - assert (Hyn : y <> NULL) by (eapply path_nonnull; [done|set_solver]).
    split; [done|]. intros _. destruct (Hgc Hyn) as (g0 & v & -> & Hv & Hle).
    exists g0, v. split_and!; [done..|]. intros _ _. split.
    + left. eexists. split; [done|set_solver].
    + exists (cm s), pre, suf. split_and!; [by apply since_here|done|by eapply inv_incr|done..].
Qed.

(** Stopping at a node whose key is not below [key]. *)
Lemma cand_answer s0 s i key cur : cand s0 s i key cur -> key <= nkey (cm s) cur ->
  lin s0 s i key (found (nkey (cm s) cur) key).
Proof.
  intros (w & pre & suf & Hw & Hp & Hi & Hlt & Hk) Hle. rewrite <- Hk in *.
  exists w, (pre ++ cur :: suf). split_and!; [done..|]. unfold found, spec_search.
  assert (Hkey : key ∈ kset w (pre ++ cur :: suf) <-> nkey w cur = key).
  { unfold keys in Hi. rewrite fmap_app in Hi. apply incr_app in Hi as (_ & Hi & _).
    simpl in Hi. apply incr_cons in Hi as [_ Hi]. unfold kset, keys.
    rewrite elem_of_list_to_set, list_elem_of_fmap. split.
    - intros (x & -> & [Hx|[->|Hx]%elem_of_cons]%elem_of_app); [|done|].
      + specialize (Hlt x Hx). lia.
      + specialize (Hi (nkey w x) ltac:(by apply list_elem_of_fmap_2)). lia.
    - intros <-. exists cur. set_solver. }
  destruct (Z.eqb_spec (nkey w cur) key) as [He|He]; case_decide; naive_solver.
Qed.

(** An iteration whose two checks succeed: [cur] was live and kept its key
    [k] from the moment its key was read to the moment its counter was
    compared, so it leads to [next] or answers the search. *)
Lemma iteration_ok s0 s1 s3 s5 s6 i key k cur g0 next next_gc :
  gwf s0 -> gwf s1 -> grely s0 s1 -> grely s1 s3 -> grely s3 s5 -> grely s5 s6 ->
  nowrap (ctr s6) -> cur <> NULL -> trusted g0 -> at_cur s0 s1 i key cur (Some g0) ->
  (st (cm s1) i cur = Some g0 -> nkey (cm s1) cur = k) ->
  mget (cm s5) (LNext cur) = Some next -> st (cm s6) i cur = Some g0 ->
  (next <> NULL -> exists v, next_gc = Some v /\ st (cm s3) i next = Some v) ->
  nkey (cm s6) cur = k /\ cand s0 s6 i key cur /\
  (k < key -> at_cur s0 s6 i key next next_gc).
Proof.
  intros W0 W1 R01 R13 R35 R56 Hnw Hn Ht Hat Hk Hnx Hg Hng.
  assert (W3 : gwf s3) by (by eapply grely_gwf). assert (W5 : gwf s5) by (by eapply grely_gwf).
  assert (R15 : grely s1 s5) by (by etrans). assert (R16 : grely s1 s6) by (by etrans).
  assert (Hnw5 : nowrap (ctr s5)) by (eapply nowrap_suffix; [apply R56|done]).
  pose proof (at_cur_mono _ _ _ _ _ _ _ Hnw R16 W1 Hat) as [_ Hat6].
  destruct (Hat6 Hn) as (? & v6 & [= <-] & Hv6 & _ & Hc6). rewrite Hg in Hv6. injection Hv6 as <-.
  destruct (Hc6 eq_refl Ht) as [Hl6 Hcand].
  pose proof (at_cur_mono _ _ _ _ _ _ _ Hnw5 R15 W1 Hat) as [_ Hat5].
  destruct (Hat5 Hn) as (? & v5 & [= <-] & Hv5 & Hle5 & Hc5).
  destruct (ev_gc _ _ (proj2 R56 W5) i cur v5 Hnw Hv5) as (v6 & Hv6 & Hle6).
  rewrite Hg in Hv6. injection Hv6 as <-. assert (v5 = g0) as -> by lia.
  destruct (Hc5 eq_refl Ht) as [Hl5 _]. destruct Hat as [_ Hat1].
  destruct (Hat1 Hn) as (? & v1 & [= <-] & Hv1 & Hle1 & Hc1).
  destruct (ev_gc _ _ (proj2 R15 W1) i cur v1 Hnw5 Hv1) as (v5' & Hv5' & Hle1').
  rewrite Hv5 in Hv5'. injection Hv5' as <-. assert (v1 = g0) as -> by lia.
  destruct (Hc1 eq_refl Ht) as [Hl1 _]. specialize (Hk Hv1).
  destruct (ev_live _ _ (proj2 R15 W1) i cur g0 Hnw5 Hl1 Hv1 Ht Hv5) as [_ Hk5].
  destruct (ev_live _ _ (proj2 R56 W5) i cur g0 Hnw Hl5 Hv5 Ht Hg) as [_ Hk6].
  split; [congruence|]. split; [done|]. intros Hlt.
  eapply at_cur_mono; [done|exact R56|done|].
  eapply at_cur_next; [done|by etrans|done|exact Hl5|done|lia|].
  intros Hnn. destruct (Hng Hnn) as (v & -> & Hv3).
  destruct (ev_gc _ _ (proj2 R35 W3) i next v Hnw5 Hv3) as (v' & Hv' & Hle). eauto.
Qed.

(** ** Rules for readers *)

Section reader.
Context `{Calloc} (self : Z) (E : err -> Prop).
Implicit Types Q : Z -> gcfg -> Prop.

Abbreviation rwp := (wp E grely (rguar self)).

Lemma r_ret {A} (a : A) (Q : A -> gcfg -> Prop) s :
  gwf s -> (forall s1, grely s s1 -> gwf s1 -> Q a s1) -> rwp (Ret a) Q s.
Proof. intros Hw HQ s1 Hr. apply HQ; [done|]. by eapply grely_gwf. Qed.

Lemma rguar_same s : rguar self s (next_cfg s (cm s) (cg s)).
Proof. split_and!; [done|done|by left]. Qed.

Lemma r_load {A} l (k : Z -> prog A) (Q : A -> gcfg -> Prop) s :
  gwf s -> (forall s1, grely s s1 -> gwf s1 ->
    exists v, mget (cm s1) l = Some v /\ rwp (k v) Q s1) ->
  rwp (load l ≫= k) Q s.
Proof.
  intros Hw Hk s1 Hr. pose proof (rguar_same s1) as Hg.
  pose proof (rguar_grely _ _ _ Hg) as Hr1. assert (Hr2 : grely s (next_cfg s1 (cm s1) (cg s1))) by (by etrans).
  destruct (Hk _ Hr2 (grely_gwf _ _ Hr2 Hw)) as (v & Hv & Hwp). cbn in Hv |- *. rewrite Hv. cbn.
  by exists (cg s1).
Qed.

Lemma r_fence {A} b (k : unit -> prog A) (Q : A -> gcfg -> Prop) s :
  gwf s -> (forall s1, grely s s1 -> gwf s1 -> rwp (k tt) Q s1) -> rwp (fence b ≫= k) Q s.
Proof.
  intros Hw Hk s1 Hr. pose proof (rguar_same s1) as Hg.
  pose proof (rguar_grely _ _ _ Hg) as Hr1. assert (Hr2 : grely s (next_cfg s1 (cm s1) (cg s1))) by (by etrans).
  cbn. exists (cg s1). split; [done|]. apply Hk; [done|]. by eapply grely_gwf.
Qed.

Lemma r_quiet {A B} (p : prog A) (k : A -> prog B) (Q : B -> gcfg -> Prop) : quiet p -> forall s,
  gwf s -> (forall a s1, grely s s1 -> gwf s1 -> rwp (k a) Q s1) -> rwp (p ≫= k) Q s.
Proof.
  induction p as [a|e|o k' IH]; intros Hq s W Hk; [by apply Hk|done|].
  assert (Ho : forall m, op_exec o m = Some (0, m)) by (by destruct o). assert (Hq' : forall r, quiet (k' r)) by (by destruct o).
  intros s1 R1. rewrite Ho. cbn. exists (cg s1). pose proof (rguar_same s1) as Hg. split; [done|].
  pose proof (rguar_grely _ _ _ Hg) as R2. assert (R : grely s (next_cfg s1 (cm s1) (cg s1))) by (by etrans).
  apply IH; [apply Hq'|by eapply grely_gwf|]. intros a s3 R3 W3. apply Hk; [by etrans|done].
Qed.

Lemma r_store_tls {A} x v (k : unit -> prog A) (Q : A -> gcfg -> Prop) s :
  gwf s -> (forall s1, grely s s1 -> gwf s1 -> rwp (k tt) Q s1) ->
  rwp (store (LTls self x) v ≫= k) Q s.
Proof.
  intros Hw Hk s1 Hr.
  assert (Hg : rguar self s1 (next_cfg s1 (<[LTls self x := v]> (cm s1)) (cg s1))).
  { split_and!; [done|done|right]. exists (LTls self x), v. split; [apply Z.eqb_refl|done]. }
  pose proof (rguar_grely _ _ _ Hg) as Hr1. cbn.
  destruct (mget_static (cm s1) (LTls self x) eq_refl) as [w ->]. cbn.
  exists (cg s1). split; [done|]. assert (grely s (next_cfg s1 (<[LTls self x:=v]> (cm s1)) (cg s1))) by (by etrans).
  apply Hk; [done|]. by eapply grely_gwf.
Qed.

Lemma r_incr {A} x (k : unit -> prog A) (Q : A -> gcfg -> Prop) s :
  gwf s -> (forall s1, grely s s1 -> gwf s1 -> rwp (k tt) Q s1) ->
  rwp (incr_tls self x ≫= k) Q s.
Proof.
  intros Hw Hk. change (incr_tls self x ≫= k) with
    (load (LTls self x) ≫= fun v => store (LTls self x) (tls_succ x v) ≫= k).
  apply r_load; [done|]. intros s1 R1 W1.
  destruct (mget_static (cm s1) (LTls self x) eq_refl) as [v Hv]. exists v. split; [done|].
  apply r_store_tls; [done|]. intros s2 R2 W2. apply Hk; [by etrans|done].
Qed.

Lemma grely_node s s' p : grely s s' -> gwf s -> node (cm s) p -> node (cm s') p.
Proof. intros [_ He] Hw. apply (ev_node _ _ (He Hw)). Qed.

(** Sequencing: what the first part promises holds when the second starts. *)
Lemma r_bind {A B} (p : prog A) (f : A -> prog B) (Q : A -> gcfg -> Prop) (Q' : B -> gcfg -> Prop) s :
  gwf s -> rwp p Q s ->
  (forall a s', grely s s' -> gwf s' -> Q a s' -> rwp (f a) Q' s') -> rwp (p ≫= f) Q' s.
Proof.
  intros W Hp Hf. eapply wp_bind; [apply _|]. eapply wp_post.
  { eapply wp_track; [apply _|apply rguar_grely|exact Hp]. }
  cbn beta. intros a s' [R HQ]. apply Hf; [done| |done]. by eapply grely_gwf.
Qed.

End reader.
End stamp.

(** Chains of rely steps. *)
Ltac rely_trans :=
  match goal with
  | |- grely ?a ?a => reflexivity
  | H : grely ?a ?c |- grely ?a ?c => exact H
  | H : grely ?b ?c |- grely ?a ?c => transitivity b; [clear H; rely_trans | exact H]
  end.
