(* ===== verification/ListWriter.v ===== *)
(** * The updaters' list operations (list_writer.c)

    [insert] and [delete] on a sorted list, written once in list_writer.c and
    linked with one reclamation scheme at a time.  The scheme is the class
    [Scheme]; what it promises to the updater is [SchemeSpec]; the theorems of
    this file are proved against that interface and every scheme of the
    repository that satisfies it inherits them. *)
From S2P Require Import Prelude Mem RG SWP Table TableFacts Allocator ListOps.

(** ** The interface of a reclamation scheme

    [lock_wlock] and [lock_wunlock] come from lock.h, [init_new_node] and
    [free_node_later] from the file linked with list_writer.c.  The first
    argument of the last two is the running thread.  [insert] only needs the
    first part. *)
Class Inserter := {
  lock_wlock : loc -> prog unit;
  lock_wunlock : loc -> prog unit;
  init_new_node : Z -> prog Z }.

Class Scheme := {
  scheme_inserter :: Inserter;
  unlock_before_free : bool;   (* GCLOCK *)
  free_node_later : Z -> Z -> Z -> prog unit }.

(** ** Code *)

Section insert.
Context `{Inserter}.

(** The end of [insert]: a new node is filled, then published. *)
Definition insert_link (self key : Z) (prev : loc) (cur : Z) (lock : loc) : prog Z :=
  new ← init_new_node self;
  store (LKey new) key;;
  store (LNext new) cur;;
  write_write_barrier;;
  store prev new;;
  lock_wunlock lock;;
  Ret 1.

Fixpoint insert_loop (fuel : nat) (self key : Z) (prev : loc) (cur : Z) (lock : loc) : prog Z :=
  match fuel with
  | O => Crash OutOfFuel
  | S fuel =>
      if cur =? NULL then insert_link self key prev cur lock else
      k ← load (LKey cur);
      if key <=? k then
        k' ← load (LKey cur);
        if k' =? key then lock_wunlock lock;; Ret 0
        else insert_link self key prev cur lock
      else
        cur' ← load (LNext cur);
        insert_loop fuel self key (LNext cur) cur' lock
  end.

Definition insert (fuel : nat) (self key : Z) (head lock : loc) : prog Z :=
  lock_wlock lock;;
  cur ← load head;
  insert_loop fuel self key head cur lock.

End insert.

Section delete.
Context `{Scheme}.

(** The end of [delete]: the node is unlinked, it is retired, before or after
    the lock is released. *)
Definition delete_end (self : Z) (lock : loc) (cur : Z) : prog Z :=
  (if unlock_before_free then lock_wunlock lock else Ret tt);;
  thread ← load (LTls self Vthread);
  free_node_later self thread cur;;
  (if unlock_before_free then Ret tt else lock_wunlock lock);;
  Ret 1.

(** The loop of [delete]; [prev] is the address of the pointer to [cur]. *)
Fixpoint delete_loop (fuel : nat) (self key : Z) (prev : loc) (cur : Z) (lock : loc) : prog Z :=
  match fuel with
  | O => Crash OutOfFuel
  | S fuel =>
      if cur =? NULL then lock_wunlock lock;; Ret 0 else
      k ← load (LKey cur);
      if key <=? k then
        k' ← load (LKey cur);
        if negb (k' =? key) then lock_wunlock lock;; Ret 0 else
        nx ← load (LNext cur);
        store prev nx;;
        delete_end self lock cur
      else
        cur' ← load (LNext cur);
        delete_loop fuel self key (LNext cur) cur' lock
  end.

Definition delete (fuel : nat) (self key : Z) (head lock : loc) : prog Z :=
  h ← load head;
  if h =? NULL then Ret 0 else
  lock_wlock lock;;
  cur ← load head;
  delete_loop fuel self key head cur lock.

End delete.

#[export] Instance writer_ops `{Scheme} : ListOps := {|
  op_insert := insert;
  op_delete := delete |}.

(** ** What a scheme promises

    [own h U m]: the reclamation state of the thread [self] is well formed, it
    holds the lock of bucket [h] if any, and the nodes [U] belong to the lists
    or to the caller. *)
Class InserterSpec `{Inserter} (self : Z) (SG : mem -> gst -> mem -> gst -> Prop)
    (own : option Z -> gset Z -> mem -> Prop) : Prop := {
  ss_silent m g : SG m g m g;
  ss_list m g m' g' : Inv m g -> list_step m g m' g' -> SG m g m' g';
  ss_own_list h U m m' : own h U m ->
    (forall l, list_loc l = false -> mget m' l = mget m l) ->
    (forall i, m' !! LLock i = m !! LLock i) ->
    (forall p, node m p -> node m' p) -> own h U m';
  ss_own_node h U m n : own h U m -> n ∈ U -> node m n;
  ss_wlock E U m g i xs : Inv m g -> own None U m -> bk g !! i = Some xs ->
    swp (foreign self) E SG (lock_wlock (LLock i))
      (fun _ m' g' => g' = g /\ grows off_list m m' /\ own (Some i) U m') m g;
  ss_wunlock E U m g i xs : Inv m g -> own (Some i) U m -> bk g !! i = Some xs ->
    swp (foreign self) E SG (lock_wunlock (LLock i))
      (fun _ m' g' => g' = g /\ grows off_list m m' /\ own None U m') m g;
  ss_new E h U m g : Inv m g -> own h U m ->
    swp (foreign self) E SG (init_new_node self)
      (fun p m' g' => g' = g /\ grows off_list m m' /\ (p ∉ U) /\ own h ({[p]} ∪ U) m') m g }.

(** The node [d] was given to the scheme, which keeps the nodes [O] of those it
    has and has given back the others. *)
Definition retired (own : gset Z -> mem -> Prop) (d : Z) (U : gset Z) (g : gst) (m' : mem) (g' : gst) : Prop :=
  exists O, O ⊆ {[d]} ∪ old g /\ g' = Gst (bk g) None O /\ own (U ∖ (({[d]} ∪ old g) ∖ O)) m'.

Class SchemeSpec `{Scheme} (self : Z) (SG : mem -> gst -> mem -> gst -> Prop)
    (own : option Z -> gset Z -> mem -> Prop) : Prop := {
  ss_inserter :: InserterSpec self SG own;
  ss_retire E U m g d i xs : Inv m g -> own (Some i) U m -> (forall n, live g n -> n ∈ U) ->
    pend g = Some (d, i) -> bk g !! i = Some xs ->
    swp (foreign self) E SG (delete_end self (LLock i) d)
      (fun r m' g' => r = 1 /\ grows off_list m m' /\ retired (own None) d U g m' g') m g }.

(** ** The logic the proofs are made in

    The operations of an updater are proved once for any logic [J] with the
    rules below: symbolic execution ([swp]) is one, an updater among callbacks
    that free nodes at the same time ([GraceWriter]) and one among readers that
    take its locks ([PthreadWriter]) are others.  [permit m i xs]: the updater
    may make [xs] the list of bucket [i]. *)
Abbreviation judge := (forall A : Type, prog A -> (A -> mem -> gst -> Prop) -> mem -> gst -> Prop).

Class WriterLogic (J : judge) (permit : mem -> Z -> list Z -> Prop) : Prop := {
  wj_mono {A} (p : prog A) (Q Q' : A -> mem -> gst -> Prop) m g :
    J A p Q m g -> (forall a m' g', Q a m' g' -> Q' a m' g') -> J A p Q' m g;
  wj_bind {A B} (p : prog A) (f : A -> prog B) Q m g :
    J A p (fun a m' g' => J B (f a) Q m' g') m g -> J B (p ≫= f) Q m g;
  wj_ret {A} (a : A) (Q : A -> mem -> gst -> Prop) m g : Q a m g -> J A (Ret a) Q m g;
  wj_load {A} l v (k : Z -> prog A) Q m g :
    mget m l = Some v -> list_loc l = true -> J A (k v) Q m g -> J A (load l ≫= k) Q m g;
  wj_store {A} l v w (k : unit -> prog A) Q m g g' :
    mget m l = Some w -> list_loc l = true -> Inv m g -> list_step m g (<[l:=v]> m) g' ->
    (forall i xs, bk g' !! i = Some xs -> bk g !! i = Some xs \/ permit m i xs) ->
    J A (k tt) Q (<[l:=v]> m) g' -> J A (store l v ≫= k) Q m g;
  wj_fence {A} b (k : unit -> prog A) Q m g : J A (k tt) Q m g -> J A (fence b ≫= k) Q m g }.

(** The new node [p]: the scheme may have given back some of the nodes it had
    since, and keeps [O] of them. *)
Definition renewed (own : gset Z -> mem -> Prop) (U : gset Z) (g : gst) (p : Z) (m' : mem) (g' : gst) : Prop :=
  exists O, O ⊆ old g /\ g' = Gst (bk g) (pend g) O /\ p ∉ U ∖ (old g ∖ O) /\ own ({[p]} ∪ (U ∖ (old g ∖ O))) m'.

(** The lists have at most [cap] nodes. *)
Class InserterJ `{Inserter} (J : judge) (permit : mem -> Z -> list Z -> Prop) (cap : nat) (self : Z)
    (own : option Z -> gset Z -> mem -> Prop) : Prop := {
  ij_logic :: WriterLogic J permit;
  ij_permit U m i xs : own (Some i) U m -> (length xs <= cap)%nat -> permit m i xs;
  ij_own_list h U m m' : own h U m ->
    (forall l, list_loc l = false -> mget m' l = mget m l) ->
    (forall i, m' !! LLock i = m !! LLock i) ->
    (forall p, node m p -> node m' p) -> own h U m';
  ij_own_node h U m n : own h U m -> n ∈ U -> node m n;
  ij_wlock U m g i xs : Inv m g -> own None U m -> bk g !! i = Some xs ->
    J _ (lock_wlock (LLock i)) (fun _ m' g' => g' = g /\ grows off_list m m' /\ own (Some i) U m') m g;
  ij_wunlock U m g i xs : Inv m g -> own (Some i) U m -> bk g !! i = Some xs ->
    J _ (lock_wunlock (LLock i)) (fun _ m' g' => g' = g /\ grows off_list m m' /\ own None U m') m g;
  ij_new h U m g : Inv m g -> own h U m -> (forall n, n ∈ U -> kept g n) ->
    J _ (init_new_node self) (fun p m' g' => grows off_list m m' /\ renewed (own h) U g p m' g') m g }.

Class SchemeJ `{Scheme} (J : judge) (permit : mem -> Z -> list Z -> Prop) (cap : nat) (self : Z)
    (own : option Z -> gset Z -> mem -> Prop) : Prop := {
  sj_inserter :: InserterJ J permit cap self own;
  sj_retire U m g d i xs : Inv m g -> own (Some i) U m -> (forall n, live g n -> n ∈ U) ->
    pend g = Some (d, i) -> bk g !! i = Some xs ->
    J _ (delete_end self (LLock i) d)
      (fun r m' g' => r = 1 /\ grows off_list m m' /\ retired (own None) d U g m' g') m g }.

Lemma foreign_list_loc self l : list_loc l = true -> foreign self l = false.
Proof. by destruct l. Qed.

(** Symbolic execution is such a logic, and a scheme that keeps its promises in
    it keeps them here. *)
Section symbolic.
Context (self : Z) (SG : mem -> gst -> mem -> gst -> Prop) (own : option Z -> gset Z -> mem -> Prop) (E : err -> Prop).

Abbreviation swp_judge := (fun A => swp (A := A) (foreign self) E SG).

#[export] Instance swp_inserter `{IS : InserterSpec self SG own} cap : InserterJ swp_judge (fun _ _ _ => True) cap self own.
Proof.
  split.
  - split.
    + intros A p Q Q' m g. apply swp_mono.
    + intros A B p f Q m g. apply swp_bind.
    + intros A a Q m g. apply swp_ret.
    + intros A l v k Q m g Hl Hll. apply swp_load; [done|by apply foreign_list_loc|apply ss_silent].
    + intros A l v w k Q m g g' Hl Hll HI Hs _. eapply swp_store_gh; [done|by apply foreign_list_loc|by apply ss_list].
    + intros A b k Q m g Hk. apply swp_fence; [apply ss_silent|done].
  - done.
  - apply ss_own_list.
  - apply ss_own_node.
  - intros U m g i xs. apply ss_wlock.
  - intros U m g i xs. apply ss_wunlock.
  - intros h U m g HI Ho _. eapply swp_mono; [by apply ss_new|]. cbn beta. intros p m' g' (-> & Hg & Hp & Ho').
    split; [done|]. exists (old g). rewrite difference_diag_L, difference_empty_L. by destruct g.
Qed.

#[export] Instance swp_scheme `{SS : SchemeSpec self SG own} cap : SchemeJ swp_judge (fun _ _ _ => True) cap self own.
Proof.
  split; [apply swp_inserter|]. intros U m g d i xs. apply ss_retire.
Qed.

End symbolic.

Lemma delete_found key (S : gset Z) : key ∈ S -> spec_delete key S = (1, S ∖ {[key]}).
Proof. intros Hk. unfold spec_delete. by rewrite decide_True. Qed.

Lemma delete_missing key (S : gset Z) : key ∉ S -> spec_delete key S = (0, S).
Proof. intros Hk. unfold spec_delete. rewrite decide_False by done. f_equal. set_solver. Qed.

Section traversal.
Context (own : option Z -> gset Z -> mem -> Prop).

(** What the traversals know at the node [cur]. *)
Record at_node (key i : Z) (U : gset Z) (m : mem) (g : gst) (pre suf : list Z) : Prop := {
  an_inv : Inv m g;
  an_pend : pend g = None;
  an_own : own (Some i) U m;
  an_used n : n ∈ U <-> kept g n;
  an_split : bk g !! i = Some (pre ++ suf);
  an_before x : x ∈ pre -> nkey m x < key }.

Lemma at_node_next key i U m g pre c suf :
  at_node key i U m g pre (c :: suf) -> nkey m c < key -> at_node key i U m g (pre ++ [c]) suf.
Proof.
  intros [H1 H2 H3 H4 H5 H6] Hk. split; [done..| |].
  - by rewrite <- app_assoc.
  - intros x [Hx| ->%list_elem_of_singleton]%elem_of_app; auto.
Qed.

Lemma at_node_cur key i U m g pre c suf :
  at_node key i U m g pre (c :: suf) ->
  node m c /\ mget m (LKey c) = Some (nkey m c) /\ mget m (LNext c) = Some (hd0 suf).
Proof.
  intros [H1 H2 H3 H4 H5 H6]. assert (Hn : node m c).
  { eapply inv_node; [done|done|set_solver]. }
  split; [done|]. split; [by apply mget_lookup, node_key|].
  apply mget_lookup. by eapply inv_next.
Qed.

Lemma at_node_beyond key i U m g pre c suf :
  at_node key i U m g pre (c :: suf) -> key < nkey m c ->
  forall x, x ∈ c :: suf -> key < nkey m x.
Proof.
  intros [H1 H2 H3 H4 H5 H6] Hk x [->|Hx]%elem_of_cons; [done|].
  assert (H5' : bk g !! i = Some ((pre ++ [c]) ++ suf)) by by rewrite <- app_assoc.
  pose proof (inv_keys_split m g H1 i _ suf c x H5' ltac:(set_solver) Hx). lia.
Qed.

Lemma at_node_found key i U m g pre c suf :
  at_node key i U m g pre (c :: suf) -> key <= nkey m c ->
  key ∈ kset m (pre ++ c :: suf) <-> nkey m c = key.
Proof. intros [H1 H2 H3 H4 H5 H6] Hk. by eapply kset_first. Qed.

Lemma at_node_start key i m g xs U : Inv m g -> pend g = None -> own (Some i) U m ->
  (forall n, n ∈ U <-> kept g n) -> bk g !! i = Some xs -> at_node key i U m g [] xs.
Proof. intros. split; [done..|]. set_solver. Qed.

End traversal.

Lemma live_retire m g i pre d suf n O : Inv m g -> pend g = None ->
  bk g !! i = Some (pre ++ d :: suf) ->
  live (Gst (<[i := pre ++ suf]> (bk g)) None O) n <-> live g n /\ n <> d.
Proof.
  intros HI Hp Hi. pose proof (Inv_unlink m g HI i pre d suf Hi Hp) as HI'.
  destruct (inv_pend _ _ HI' d i eq_refl) as (_ & Hni & _). simpl in Hni.
  rewrite <- (live_unlink g i pre d suf n Hp Hi). unfold live, live_in. simpl. split.
  - intros (j & [(xs & Hj & Hn)|[=]]). split; [eauto 10|]. intros ->. by eapply Hni.
  - intros ((j & [(xs & Hj & Hn)|[= -> ->]]) & Hne); [eauto 10|done].
Qed.

(** [c] was unlinked and retired: the deletion is done. *)
Lemma delete_done own key i U m0 m g pre c suf m2 g2 :
  at_node own key i U m g pre (c :: suf) -> abs_table m g = abs_table m0 g -> nkey m c = key ->
  grows off_list (<[cell LNext (LHead i) pre := hd0 suf]> m) m2 ->
  retired (own None) c U (Gst (<[i := pre ++ suf]> (bk g)) (Some (c, i)) (old g)) m2 g2 ->
  refines_op spec_delete key i own m0 g 1 m2 g2.
Proof.
  intros Han Ha Heq Hg2 (O & HO & -> & Ho2). cbn [bk old] in *.
  pose proof (at_node_found _ _ _ _ _ _ _ _ _ Han ltac:(lia)) as Hfd.
  destruct Han as [H1 H2 H3 H4 H5 H6].
  pose proof (list_step_inv m g H1 _ _ (ls_unlink m g i pre c suf H5 H2)) as HI1.
  exists (kset m (pre ++ c :: suf)). rewrite <- Ha.
  split; [by apply abs_lookup|]. rewrite delete_found by (by apply Hfd).
  split; [done|]. simpl. pose proof (Inv_retire _ _ O c i HI1 eq_refl HO) as HI2. simpl in HI2. split.
  - rewrite (abs_table_grows _ m2 _ Hg2 HI2).
    rewrite <- Heq, <- (abs_unlink m g H1 i pre c suf (hd0 suf)) by done. done.
  - split; [exact (Inv_grows _ _ _ Hg2 HI2)|]. split; [done|]. eexists.
    split; [done|]. intros n. unfold kept. cbn [old]. rewrite (live_retire m g) by done.
    rewrite !elem_of_difference, elem_of_union, elem_of_singleton, H4. unfold kept.
    assert (Hlc : live g c) by (exists i; left; eexists; split; [done|set_solver]).
    specialize (HO n). rewrite elem_of_union, elem_of_singleton in HO.
    pose proof (inv_old _ _ H1 n) as Hold.
    destruct (decide (n ∈ O)), (decide (n ∈ old g)), (decide (n = c)) as [->|]; tauto.
Qed.

Section insert_proofs.
Context `{HIns : Inserter} (J : judge) (permit : mem -> Z -> list Z -> Prop) (cap : nat) (self : Z).
Context (own : option Z -> gset Z -> mem -> Prop) {IS : InserterJ J permit cap self own}.

Lemma own_store_list h U m l v : list_loc l = true -> own h U m -> own h U (<[l:=v]> m).
Proof.
  intros Hl Ho. eapply ij_own_list; [done| | |intros p; apply node_insert].
  - intros l' Hl'. rewrite mget_insert_ne; [done|]. intros ->. congruence.
  - intros i. apply lookup_insert_ne. by destruct l.
Qed.

Lemma off_list_key m m' x : grows off_list m m' -> node m x -> nkey m' x = nkey m x.
Proof. apply grows_nkey. Qed.

(** A store that changes one list. *)
Lemma permit_bucket U m g i xs : own (Some i) U m -> (length xs <= cap)%nat ->
  forall j ys, <[i := xs]> (bk g) !! j = Some ys -> bk g !! j = Some ys \/ permit m j ys.
Proof.
  intros Ho Hl j ys Hj. destruct (decide (i = j)) as [<-|Hne]; [|rewrite lookup_insert_ne in Hj by done; by left].
  rewrite lookup_insert_eq in Hj. injection Hj as <-. right. by eapply ij_permit.
Qed.

(** Releasing the lock at the end of an operation that changed nothing. *)
Lemma unlock_unchanged spec key i U m0 m g pre suf r :
  at_node own key i U m g pre suf -> abs_table m g = abs_table m0 g ->
  spec key (kset m (pre ++ suf)) = (r, kset m (pre ++ suf)) ->
  J _ (lock_wunlock (LLock i);; Ret r)
    (refines_op spec key i own m0 g) m g.
Proof.
  intros [H1 H2 H3 H4 H5 H6] Ha Hs. apply wj_bind.
  eapply wj_mono; [by eapply ij_wunlock|]. cbn beta. intros _ m' g' (-> & Hg & Ho).
  apply wj_ret. exists (kset m (pre ++ suf)). rewrite Hs. simpl.
  rewrite <- Ha. split; [by eapply abs_lookup|]. split; [done|]. split.
  - rewrite (abs_table_grows m m') by done. symmetry. apply insert_id. by apply abs_lookup.
  - split; [by eapply Inv_grows|]. split; [done|]. by exists U.
Qed.

(** The end of [insert]: the node [p] is filled; [m] is the store before it was. *)
Lemma publish_spec key i U m0 m g pre suf p m2 :
  Inv m g -> pend g = None -> (forall n, n ∈ U <-> kept g n) -> bk g !! i = Some (pre ++ suf) ->
  (forall x, x ∈ pre -> nkey m x < key) -> abs_table m g = abs_table m0 g -> (forall x, x ∈ suf -> key < nkey m x) ->
  ~ kept g p -> Inv m2 g -> node m2 p -> m2 !! LNext p = Some (hd0 suf) -> nkey m2 p = key ->
  (forall x, x ∈ pre ++ suf -> nkey m2 x = nkey m x) -> own (Some i) ({[p]} ∪ U) m2 -> abs_table m2 g = abs_table m0 g ->
  (length (pre ++ suf) < cap)%nat ->
  J _
    (write_write_barrier;; store (cell LNext (LHead i) pre) p;; lock_wunlock (LLock i);; Ret 1)
    (refines_op spec_insert key i own m0 g) m2 g.
Proof.
  intros H1 H2 H4 H5 H6 Ha Hafter Hpk HI2 Hp2 Hn2 Hk2 Hb2 Ho2 Ha2 Hcap.
  pose proof (not_kept_live g p Hpk) as Hpl.
  apply wj_fence.
  assert (Hls : list_step m2 g (<[cell LNext (LHead i) pre := p]> m2)
                  (Gst (<[i := pre ++ p :: suf]> (bk g)) None (old g))).
  { apply ls_link; [exact H5|exact H2|exact Hp2|exact Hpk|exact Hn2| |]; intros x Hx.
    - rewrite Hk2, Hb2 by (apply elem_of_app; by left). by apply H6.
    - rewrite Hk2, Hb2 by (apply elem_of_app; by right). by apply Hafter. }
  eapply wj_store; [by eapply inv_cell_get|apply cell_list_loc|exact HI2|exact Hls| |].
  { eapply permit_bucket; [exact Ho2|]. rewrite length_app in *. simpl. lia. }
  pose proof (list_step_inv m2 g HI2 _ _ Hls) as HI3. apply wj_bind.
  eapply wj_mono; [eapply ij_wunlock; [done|by apply own_store_list; [apply cell_list_loc|]|]|].
  { apply lookup_insert_eq. }
  cbn beta. intros _ m3 g3 (-> & Hg3 & Ho3). apply wj_ret.
  assert (Hs2 : kset m2 (pre ++ suf) = kset m (pre ++ suf)).
  { unfold kset. f_equal. apply nkey_ext. intros x Hx. by apply Hb2. }
  exists (kset m (pre ++ suf)). rewrite <- Ha. split; [by apply abs_lookup|].
  assert (Hnin : key ∉ kset m (pre ++ suf)) by (by eapply kset_gap).
  unfold spec_insert. rewrite decide_False by done. simpl. split; [done|]. split.
  - rewrite (abs_table_grows _ _ _ Hg3 HI3), abs_link, Ha2, <- Ha by done.
    by rewrite Hk2, Hs2.
  - split; [by eapply Inv_grows|]. split; [done|]. exists ({[p]} ∪ U). split; [done|].
    intros n. unfold kept. rewrite live_link by done. rewrite elem_of_union, elem_of_singleton, H4.
    unfold kept. tauto.
Qed.

(** After the allocation of [p]. *)
Lemma fill_spec key i U m0 m g pre suf p m1 :
  Inv m g -> pend g = None -> (forall n, n ∈ U <-> kept g n) -> bk g !! i = Some (pre ++ suf) ->
  (forall x, x ∈ pre -> nkey m x < key) -> abs_table m g = abs_table m0 g -> (forall x, x ∈ suf -> key < nkey m x) ->
  grows off_list m m1 -> p ∉ U -> own (Some i) ({[p]} ∪ U) m1 -> (length (pre ++ suf) < cap)%nat ->
  J _ (store (LKey p) key;; store (LNext p) (hd0 suf);;
       write_write_barrier;; store (cell LNext (LHead i) pre) p;; lock_wunlock (LLock i);; Ret 1)
    (refines_op spec_insert key i own m0 g) m1 g.
Proof.
  intros H1 H2 H4 H5 H6 Ha Hafter Hg1 Hpu Ho1 Hcap.
  pose proof (Inv_grows _ _ _ Hg1 H1) as HI1.
  assert (Hp1 : node m1 p) by (eapply ij_own_node; [done|set_solver]).
  assert (Hpk : ~ kept g p) by (by rewrite <- H4).
  pose proof (not_kept_live g p Hpk) as Hpl.
  assert (Hnk : forall x, x ∈ pre ++ suf -> nkey m1 x = nkey m x).
  { intros x Hx. eapply grows_nkey; [done|]. by eapply inv_node. }
  assert (Hxp : forall x, x ∈ pre ++ suf -> x <> p).
  { intros x Hx. exact (not_live_bk g p i _ x Hpl H5 Hx). }
  (* new->key = key *)
  eapply wj_store; [by eapply mget_lookup, node_key|done|done|by apply ls_key|by left|].
  pose proof (Inv_store_key m1 g HI1 p key Hpl) as HI2.
  pose proof (node_insert m1 p (LKey p) key Hp1) as Hp2.
  assert (Hk2 : nkey (<[LKey p:=key]> m1) p = key) by (unfold nkey; by rewrite lookup_insert_eq).
  assert (Hb2 : forall x, x ∈ pre ++ suf -> nkey (<[LKey p:=key]> m1) x = nkey m x).
  { intros x Hx. rewrite nkey_store_ne by auto. auto. }
  apply (own_store_list _ _ _ (LKey p) key eq_refl) in Ho1.
  assert (Ha2 : abs_table (<[LKey p:=key]> m1) g = abs_table m0 g).
  { rewrite abs_key by done. rewrite (abs_table_grows m m1) by done. done. }
  revert HI2 Hp2 Hk2 Hb2 Ho1 Ha2. generalize (<[LKey p:=key]> m1).
  clear m1 Hg1 HI1 Hp1 Hnk. intros m1 HI1 Hp1 Hk1 Hb1 Ho1 Ha1.
  (* new->next = cur *)
  destruct (node_mget m1 p LNext Hp1 ltac:(set_solver)) as [w Hw].
  assert (Hq : node_or_null m1 (hd0 suf)) by (by eapply inv_suf_node).
  eapply wj_store; [done|done|done|by apply ls_next|by left|].
  pose proof (Inv_store_next m1 g HI1 p (hd0 suf) Hpl Hq) as HI2.
  pose proof (node_insert m1 p (LNext p) (hd0 suf) Hp1) as Hp2.
  assert (Hn2 : (<[LNext p := hd0 suf]> m1) !! LNext p = Some (hd0 suf)) by apply lookup_insert_eq.
  assert (Hb2 : forall x, nkey (<[LNext p := hd0 suf]> m1) x = nkey m1 x).
  { intros x. by rewrite nkey_store_other. }
  apply (own_store_list _ _ _ (LNext p) (hd0 suf) eq_refl) in Ho1.
  assert (Ha2 : abs_table (<[LNext p := hd0 suf]> m1) g = abs_table m0 g) by (by rewrite abs_next).
  revert HI2 Hp2 Hn2 Hb2 Ho1 Ha2. generalize (<[LNext p := hd0 suf]> m1).
  intros m2 HI2 Hp2 Hn2 Hb2 Ho2 Ha2.
  apply (publish_spec key i U m0 m g pre suf p m2); [done..|exact Hp2|exact Hn2|by rewrite Hb2| |exact Ho2|by rewrite Ha2|exact Hcap].
  intros x Hx. rewrite Hb2. by apply Hb1.
Qed.

Lemma insert_link_spec key i U m0 m g pre suf :
  at_node own key i U m g pre suf -> abs_table m g = abs_table m0 g ->
  (forall x, x ∈ suf -> key < nkey m x) -> (length (pre ++ suf) < cap)%nat ->
  J _ (insert_link self key (cell LNext (LHead i) pre) (hd0 suf) (LLock i))
    (refines_op spec_insert key i own m0 g) m g.
Proof.
  intros [H1 H2 H3 H4 H5 H6] Ha Hafter Hcap. unfold insert_link. apply wj_bind.
  eapply wj_mono; [eapply ij_new; [done|done|intros n; apply H4]|]. cbn beta. intros p m1 g1 (Hg1 & O & HO & -> & Hpu & Ho1).
  apply (fill_spec key i (U ∖ (old g ∖ O)) m0 m (Gst (bk g) (pend g) O)); [by apply Inv_shrink|done| |done..].
  intros n. unfold kept. cbn [old]. rewrite elem_of_difference, elem_of_difference, H4. unfold kept.
  change (live (Gst (bk g) (pend g) O) n) with (live g n).
  pose proof (inv_old _ _ H1 n). specialize (HO n). destruct (decide (n ∈ O)); tauto.
Qed.

Lemma insert_found key (S : gset Z) : key ∈ S -> spec_insert key S = (0, S).
Proof. intros Hk. unfold spec_insert. rewrite decide_True by done. f_equal. set_solver. Qed.

Lemma insert_loop_spec key i U m0 m g suf : forall fuel pre,
  (length suf < fuel)%nat -> at_node own key i U m g pre suf ->
  abs_table m g = abs_table m0 g -> (length (pre ++ suf) < cap)%nat ->
  J _
    (insert_loop fuel self key (cell LNext (LHead i) pre) (hd0 suf) (LLock i))
    (refines_op spec_insert key i own m0 g) m g.
Proof.
  induction suf as [|c suf IH]; intros [|fuel] pre Hf Han Ha Hcap; simpl in Hf; try lia;
    cbn [insert_loop hd0].
  - rewrite Z.eqb_refl. apply (insert_link_spec key i U m0 m g pre []); [done|done|set_solver|done].
  - destruct (at_node_cur _ _ _ _ _ _ _ _ _ Han) as (Hn & Hk & Hx).
    rewrite (proj2 (Z.eqb_neq c NULL)) by (by eapply node_nonnull).
    eapply wj_load; [done|done|].
    destruct (Z.leb_spec key (nkey m c)) as [Hle|Hgt].
    + eapply wj_load; [done|done|].
      destruct (Z.eqb_spec (nkey m c) key) as [Heq|Hne].
      * eapply unlock_unchanged; [done|done|]. apply insert_found.
        by eapply at_node_found.
      * apply (insert_link_spec key i U m0 m g pre (c :: suf)); [done|done| |done].
        eapply at_node_beyond; [done|lia].
    + eapply wj_load; [done|done|].
      rewrite <- (cell_snoc LNext (LHead i) pre c). apply IH; [lia|by apply at_node_next|done|].
      by rewrite <- app_assoc.
Qed.

(** Entering an operation: the lock, then the first node. *)
Lemma insert_spec fuel key i m g xs :
  table_ok own m g -> bk g !! i = Some xs -> (length xs < fuel)%nat -> (length xs < cap)%nat ->
  J _ (insert fuel self key (LHead i) (LLock i))
    (refines_op spec_insert key i own m g) m g.
Proof.
  intros (HI & Hp & U & Ho & HU) Hi Hf Hcap. unfold insert. apply wj_bind.
  eapply wj_mono; [by eapply ij_wlock|]. cbn beta. intros _ m1 g1 (-> & Hg1 & Ho1).
  pose proof (Inv_grows _ _ _ Hg1 HI) as HI1.
  eapply wj_load; [by eapply path_hd, inv_path|done|].
  apply (insert_loop_spec key i U m m1 g xs fuel []); [done|by apply at_node_start|by apply abs_table_grows|done].
Qed.

(** The rest of a scheme. *)
Section delete_proofs.
Context (ubf : bool) (fnl : Z -> Z -> Z -> prog unit).
#[local] Instance HS : Scheme := Build_Scheme HIns ubf fnl.
Context {SS : SchemeJ J permit cap self own}.

Lemma delete_loop_spec key i U m0 m g suf : forall fuel pre,
  (length suf < fuel)%nat -> at_node own key i U m g pre suf ->
  abs_table m g = abs_table m0 g -> (length (pre ++ suf) <= cap)%nat ->
  J _
    (delete_loop fuel self key (cell LNext (LHead i) pre) (hd0 suf) (LLock i))
    (refines_op spec_delete key i own m0 g) m g.
Proof.
  induction suf as [|c suf IH]; intros [|fuel] pre Hf Han Ha Hcap; simpl in Hf; try lia;
    cbn [delete_loop hd0].
  - rewrite Z.eqb_refl. eapply unlock_unchanged; [done|done|]. apply delete_missing.
    destruct Han. eapply kset_gap; [done|done|set_solver].
  - destruct (at_node_cur _ _ _ _ _ _ _ _ _ Han) as (Hn & Hk & Hx).
    rewrite (proj2 (Z.eqb_neq c NULL)) by (by eapply node_nonnull).
    eapply wj_load; [done|done|].
    destruct (Z.leb_spec key (nkey m c)) as [Hle|Hgt].
    + eapply wj_load; [done|done|].
      pose proof (at_node_found _ _ _ _ _ _ _ _ _ Han Hle) as Hfd.
      destruct (Z.eqb_spec (nkey m c) key) as [Heq|Hne]; cbn [negb].
      2:{ eapply unlock_unchanged; [done|done|]. apply delete_missing. by rewrite Hfd. }
      eapply wj_load; [done|done|].
      pose proof Han as [H1 H2 H3 H4 H5 H6].
      pose proof (ls_unlink m g i pre c suf H5 H2) as Hls.
      eapply wj_store; [by eapply inv_cell_get|apply cell_list_loc|exact H1|exact Hls| |].
      { eapply permit_bucket; [exact H3|]. rewrite length_app in *. simpl in Hcap. lia. }
      eapply wj_mono.
      * eapply (sj_retire U); [eapply list_step_inv; [exact H1|exact Hls]|by apply own_store_list; [apply cell_list_loc|]| |done|].
        { intros n. rewrite live_unlink by done. intros Hnl. apply H4. by left. }
        simpl. apply lookup_insert_eq.
      * cbn beta. intros ? m2 ? (-> & Hg2 & Ho2). by eapply delete_done.
    + eapply wj_load; [done|done|].
      rewrite <- (cell_snoc LNext (LHead i) pre c). apply IH; [lia|by apply at_node_next|done|].
      by rewrite <- app_assoc.
Qed.

Lemma delete_spec fuel key i m g xs :
  table_ok own m g -> bk g !! i = Some xs -> (length xs < fuel)%nat -> (length xs <= cap)%nat ->
  J _ (delete fuel self key (LHead i) (LLock i))
    (refines_op spec_delete key i own m g) m g.
Proof.
  intros (HI & Hp & U & Ho & HU) Hi Hf Hcap. unfold delete.
  eapply wj_load; [by eapply path_hd, inv_path|done|].
  destruct (Z.eqb_spec (hd0 xs) NULL) as [H0|H0].
  { apply wj_ret. assert (xs = []) as ->.
    { destruct xs as [|x xs]; [done|]. exfalso. simpl in H0. subst x.
      eapply (node_nonnull m NULL); [eapply inv_node; [done|done|set_solver]|done]. }
    pose proof (abs_lookup m g i [] Hi) as Hab.
    exists (kset m []). split; [exact Hab|].
    rewrite delete_missing by (rewrite elem_of_kset; set_solver).
    split; [done|]. split; [symmetry; by apply insert_id|].
    split; [done|]. split; [done|]. by exists U. }
  apply wj_bind. eapply wj_mono; [by eapply ij_wlock|]. cbn beta.
  intros _ m1 g1 (-> & Hg1 & Ho1). pose proof (Inv_grows _ _ _ Hg1 HI) as HI1.
  eapply wj_load; [by eapply path_hd, inv_path|done|].
  apply (delete_loop_spec key i U m m1 g xs fuel []); [done|by apply at_node_start|by apply abs_table_grows|done].
Qed.

End delete_proofs.

End insert_proofs.

(** A scheme that gives the node back at once. *)
Lemma retired_free own d U m g i m' : Inv m g -> pend g = Some (d, i) -> own (U ∖ {[d]}) m' ->
  retired own d U g m' (Gst (bk g) None (old g)).
Proof.
  intros HI Hp Ho. exists (old g). split; [set_solver|]. split; [done|].
  assert (Hd : d ∉ old g) by (intros Hd; apply (inv_old _ _ HI d Hd); exists i; by right).
  replace (U ∖ (({[d]} ∪ old g) ∖ old g)) with (U ∖ {[d]}); [done|]. set_solver.
Qed.

(** A scheme that keeps the node for later. *)
Lemma retired_keep (own : gset Z -> mem -> Prop) d U g m' : own U m' ->
  retired own d U g m' (Gst (bk g) None ({[d]} ∪ old g)).
Proof.
  intros Ho. exists ({[d]} ∪ old g). split; [done|]. split; [done|].
  by rewrite difference_diag_L, difference_empty_L.
Qed.

(** A scheme that retires the node while the lock is held. *)
Lemma retire_in_lock `{HS : Scheme} self SG own {IS : InserterSpec self SG own} :
  unlock_before_free = false ->
  (forall E U m g t d i, Inv m g -> own (Some i) U m -> (forall n, live g n -> n ∈ U) ->
    pend g = Some (d, i) ->
    swp (foreign self) E SG (free_node_later self t d)
      (fun _ m' g' => grows off_list m m' /\ retired (own (Some i)) d U g m' g') m g) ->
  SchemeSpec self SG own.
Proof.
  intros Hu Hfree. split; [done|]. intros E U m g d i xs HI Ho HU Hp Hi.
  unfold delete_end. rewrite Hu. destruct (mget_static m (LTls self Vthread) eq_refl) as [tv Htv].
  apply swp_bind, swp_ret. eapply swp_load; [done|apply foreign_self|apply ss_silent|]. apply swp_bind.
  eapply swp_mono; [by eapply Hfree|]. cbn beta. intros _ m1 g1 (Hg1 & O & HO & -> & Ho1).
  apply swp_bind. eapply swp_mono; [eapply (ss_wunlock _ _ _ _ _ xs); [|exact Ho1|done]|].
  - by eapply (Inv_grows _ _ _ Hg1), Inv_retire.
  - cbn beta. intros _ m2 g2 (-> & Hg2 & Ho2). apply swp_ret. split_and!; [done|by etrans|].
    by exists O.
Qed.

#[export] Instance writer_ops_spec `{SS : SchemeSpec self SG own} : ListOpsSpec self SG own.
Proof.
  destruct H as [HIns ubf fnl]. pose proof (@ss_inserter _ _ _ _ SS) as IS. cbn in IS. split.
  - apply (ss_silent (InserterSpec := IS)).
  - intros E fuel key i m g xs Ht Hi Hf.
    by apply (insert_spec (fun A => swp (foreign self) E SG) (fun _ _ _ => True) fuel self own fuel key i m g xs).
  - intros E fuel key i m g xs Ht Hi Hf.
    apply (delete_spec (fun A => swp (foreign self) E SG) (fun _ _ _ => True) fuel self own ubf fnl
      (SS := swp_scheme self SG own E (SS := SS) fuel) fuel key i m g xs); [done..|lia].
Qed.
