(* ===== verification/AllocState.v ===== *)
(** * The state of an updater that only keeps the allocator's lists

    Most schemes give a deleted node to the allocator at once: what an updater
    [self] owns is the allocator's two free lists, the counters of mrow.c, which
    the list operations leave alone, and the locks of the buckets. *)
From S2P Require Import Prelude Mem RG SWP Table TableFacts Frozen Allocator ListOps Stamp ListWriter.

(** What is known of the lock of a bucket that the updater holds, or not. *)
Definition lock_pred := bool -> Z -> Prop.
Definition any_lock : lock_pred := fun _ _ => True.
(** It is 1 when held. *)
Definition classic_lock : lock_pred := fun held v => v = if held then 1 else 0.
(** The lowest bit tells whether it is held. *)
Definition odd_lock : lock_pred := fun held v => 0 <= v < word64 /\ Z.odd v = held.

Definition held (h : option Z) (i : Z) : bool :=
  match h with Some j => j =? i | None => false end.

Definition locks_ok (ok : lock_pred) (h : option Z) (m : mem) : Prop :=
  forall i v, m !! LLock i = Some v -> ok (held h i) v.

(** The allocator's lists, the driver's counters [d] and the locks, of which [h]
    is held. *)
Definition alloc_state (ok : lock_pred) (self : Z) (d : tlsvar -> Z) (h : option Z)
    (U : gset Z) (m : mem) : Prop :=
  alloc_own self U m /\ driver_at self d m /\ locks_ok ok h m.

Lemma held_some i : held (Some i) i = true.
Proof. apply Z.eqb_refl. Qed.

(** Taking or releasing the lock of [i] leaves the others. *)
Lemma held_take i j : j <> i -> held (Some i) j = held None j.
Proof. intros Hne. apply Z.eqb_neq. congruence. Qed.

Lemma locks_ok_ext ok h m m' : (forall i, m' !! LLock i = m !! LLock i) ->
  locks_ok ok h m -> locks_ok ok h m'.
Proof. intros Hm Hl i v. rewrite Hm. apply Hl. Qed.

Lemma driver_at_keep self d m m' :
  (forall x, x ∈ driver_vars -> mget m' (LTls self x) = mget m (LTls self x)) ->
  driver_at self d m -> driver_at self d m'.
Proof. intros Hm Hd x Hx. rewrite Hm by done. auto. Qed.

Lemma driver_at_grows self d m m' : grows (alloc_loc self) m m' ->
  driver_at self d m -> driver_at self d m'.
Proof.
  intros Hg Hd x Hx. apply (gr_keep _ _ _ Hg); [|by apply Hd].
  unfold driver_vars in Hx. set_unfold in Hx. by destruct_or! Hx; subst.
Qed.

Lemma alloc_own_store_tls self U m x v : x ∈ driver_vars ++ reset_vars ->
  alloc_own self U m -> alloc_own self U (<[LTls self x := v]> m).
Proof.
  intros Hx. apply alloc_own_grows with (W := fun l => bool_decide (l = LTls self x)).
  - apply grows_store; [done|]. by apply bool_decide_eq_true.
  - intros l Hl. apply bool_decide_eq_false. intros ->.
    unfold driver_vars, reset_vars in Hx. set_unfold in Hx. by destruct_or! Hx; subst.
Qed.

(** The scheme's state does not mention the arrays of the table, nor what
    other threads write. *)
Lemma alloc_own_ext self U m m' :
  (forall l, alloc_inv_loc self l = true -> m' !! l = m !! l) ->
  (forall p, node m p -> node m' p) -> alloc_own self U m -> alloc_own self U m'.
Proof.
  intros Hm Hn (fl & gl & [H1 H2 H3 H4 H5 H6 (t & Ht1 & Ht2)]). exists fl, gl.
  assert (Hg : forall l, alloc_inv_loc self l = true -> mget m' l = mget m l).
  { intros l Hl. unfold mget. by rewrite Hm. }
  split; [| |done|auto|done|auto|].
  - eapply path_agree; [|done]. intros l [->|(x & _ & ->)]; apply Hg; [apply Z.eqb_refl|done].
  - eapply path_agree; [|done]. intros l [->|(x & _ & ->)]; by apply Hg.
  - exists t. rewrite Hg by apply Z.eqb_refl. naive_solver.
Qed.

Lemma alloc_state_arrays ok self d U m m' :
  (forall l, off_arrays l = true -> foreign self l = false -> m' !! l = m !! l) ->
  (forall i v, m' !! LLock i = Some v -> m !! LLock i = Some v \/ ok false v) ->
  alloc_state ok self d None U m -> alloc_state ok self d None U m'.
Proof.
  intros Hm Hl [Ho [Hd Hk]]. split; [|split].
  - eapply alloc_own_ext; [| |exact Ho].
    + intros l Hi. apply Hm; destruct l as [| | | | | | |[]|? []| | |]; try done;
        cbn in *; by rewrite Hi.
    + intros p. apply node_ext. intros f Hf. apply Hm; [|by apply foreign_node_field].
      unfold node_fields in Hf. set_unfold in Hf. by destruct_or! Hf; subst f.
  - eapply driver_at_keep; [|exact Hd]. intros x _. unfold mget. rewrite Hm; [done|done|].
    apply foreign_self.
  - intros i v [Hv|Hv]%Hl; [by apply Hk|done].
Qed.

Lemma alloc_state_ext ok self d h U m m' :
  (forall l, foreign self l = false -> m' !! l = m !! l) ->
  alloc_state ok self d h U m -> alloc_state ok self d h U m'.
Proof.
  intros Hm [Ho [Hd Hk]].
  destruct (alloc_state_arrays any_lock self d U m m') as [Ho' [Hd' _]]; [auto|by right|done|].
  split; [done|split; [done|]]. eapply locks_ok_ext; [|done]. auto.
Qed.

(** ** From the main thread to the updater

    [hash_init] runs in the main thread; the updater starts with its own empty
    free list. *)
Lemma alloc_state_empty ok self d h : (forall x, d x = 0) -> alloc_state ok self d h ∅ ∅.
Proof.
  intros Hd. split; [|split; [|done]].
  - exists [], []. split; [done|done|constructor|set_solver|set_solver|set_solver|].
    exists NULL. split; [done|by left].
  - intros x _. by rewrite Hd.
Qed.

Lemma alloc_state_switch ok main self d d' U m m' :
  (forall x, m' !! LTls self x = None) -> mget m' (LGlob Gfreelist) = Some NULL ->
  (forall p, node m p -> node m' p) -> (forall i, m' !! LLock i = m !! LLock i) ->
  (forall x, d' x = 0) ->
  alloc_state ok main d None U m -> alloc_state ok self d' None U m'.
Proof.
  intros Hm Hfl Hn Hl Hd [(fl & gl & [H1 H2 H3 H4 H5 H6 H7]) [_ Hk]].
  assert (Hz : forall x, mget m' (LTls self x) = Some 0) by (intros x; unfold mget; by rewrite Hm).
  split; [|split; [intros x _; by rewrite Hz, Hd|by eapply locks_ok_ext]]. exists [], [].
  split; [apply Hz|done|constructor|set_solver|set_solver|auto|].
  exists NULL. split; [apply Hz|by left].
Qed.

(** ** The interfaces *)

Section specs.
Context `{HS : Stamp} (ok : lock_pred) (self : Z).

(** The driver's counters come for free. *)
Lemma alloc_state_store_tls d h U m x v : x ∈ driver_vars -> alloc_state ok self d h U m ->
  alloc_state ok self (set_var x v d) h U (<[LTls self x := v]> m).
Proof.
  intros Hx [Ho [Hd Hk]]. split; [apply alloc_own_store_tls; [set_solver|done]|]. split.
  - intros y Hy. unfold set_var. destruct (decide (y = x)) as [->|Hne].
    + by rewrite mget_insert.
    + rewrite mget_insert_ne by congruence. auto.
  - eapply locks_ok_ext; [|done]. intros i. by apply lookup_insert_ne.
Qed.

Lemma alloc_state_reset_tls d h U m x v : x ∈ reset_vars -> alloc_state ok self d h U m ->
  alloc_state ok self d h U (<[LTls self x := v]> m).
Proof.
  intros Hx [Ho [Hd Hk]]. split; [apply alloc_own_store_tls; [set_solver|done]|]. split.
  - apply (driver_at_keep self d m); [|done]. intros y Hy. apply mget_insert_ne.
    intros [= ->]. unfold driver_vars, reset_vars in *. set_unfold in Hx. set_unfold in Hy.
    by destruct_or! Hx; subst; destruct_or! Hy.
  - eapply locks_ok_ext; [|done]. intros i. by apply lookup_insert_ne.
Qed.

Lemma stamp_store_tls m g x v : stamp_guar m g (<[LTls self x := v]> m) g.
Proof.
  apply stamp_guar_step; [done|]. intros HI. apply stamp_step_grows; [done| |].
  - by apply grows_store.
  - intros l w Hl. rewrite lookup_insert_ne; [done|]. by intros <-.
Qed.

Lemma alloc_state_driver `{HO : ListOps} :
  (forall d, ListOpsSpec self stamp_guar (alloc_state ok self d)) ->
  DriverSpec self stamp_guar (alloc_state ok self).
Proof.
  intros Hops. split; [exact Hops| | | |].
  - by intros d h U m (_ & Hd & _).
  - intros m g x v _. apply stamp_store_tls.
  - intros d h U m x v. apply alloc_state_store_tls.
  - intros d h U m x v. apply alloc_state_reset_tls.
Qed.

(** Steps of the allocator. *)
Lemma alloc_state_grows d h U U' m m' : grows (alloc_loc self) m m' -> alloc_own self U' m' ->
  alloc_state ok self d h U m -> alloc_state ok self d h U' m'.
Proof.
  intros Hg Ho' [_ [Hd Hk]]. split; [done|]. split; [by eapply driver_at_grows|].
  eapply locks_ok_ext; [|done]. intros i. by apply (gr_lock _ _ _ Hg).
Qed.

Lemma alloc_state_new E fuel d h U m g : alloc_state ok self d h U m ->
  swp (foreign self) E stamp_guar (new_node (S fuel) self)
    (fun p m' g' => g' = g /\ grows off_list m m' /\ (p ∉ U) /\
       alloc_state ok self d h ({[p]} ∪ U) m') m g.
Proof.
  intros Ha. eapply swp_mono; [apply (new_node_spec self stamp_guar E _ U), Ha|].
  cbn beta. intros p m' g' (-> & Hg & Hp & Ho'). split_and!; [done|by eapply grows_alloc_off_list|done|].
  by eapply alloc_state_grows.
Qed.

(** Giving a node back. *)
Lemma alloc_state_free E fuel d h U m g p : alloc_state ok self d h U m -> p ∈ U ->
  swp (foreign self) E stamp_guar (free_node (S fuel) self p)
    (fun _ m' g' => g' = g /\ grows off_list m m' /\ alloc_state ok self d h (U ∖ {[p]}) m') m g.
Proof.
  intros Ha Hp. eapply swp_mono; [apply (free_node_spec self stamp_guar E _ U); [apply Ha|done]|].
  cbn beta. intros _ m' g' (-> & Hg & Ho'). split_and!; [done|by eapply grows_alloc_off_list|].
  by eapply alloc_state_grows.
Qed.

Lemma alloc_state_node d h U m n : alloc_state ok self d h U m -> n ∈ U -> node m n.
Proof. intros [(fl & gl & Ha) _] Hn. by apply (al_used _ _ _ _ _ Ha). Qed.

Lemma alloc_state_list d h U m m' : alloc_state ok self d h U m ->
  (forall l, list_loc l = false -> mget m' l = mget m l) ->
  (forall i, m' !! LLock i = m !! LLock i) ->
  (forall p, node m p -> node m' p) -> alloc_state ok self d h U m'.
Proof.
  intros [(fl & gl & Ha) [Hd Hk]] Hm Hl Hn. split; [|split; [apply (driver_at_keep _ _ m); auto|by eapply locks_ok_ext]].
  exists fl, gl. destruct Ha as [H1 H2 H3 H4 H5 H6 (t & Ht1 & Ht2)]. split; [| |done|auto|done|auto|].
  - eapply path_agree; [|done]. intros l [->|(x & _ & ->)]; by apply Hm.
  - eapply path_agree; [|done]. intros l [->|(x & _ & ->)]; by apply Hm.
  - exists t. rewrite Hm by done. naive_solver.
Qed.

(** Writing a counter. *)
Lemma alloc_state_counter d h h' U m l v :
  match l with LRc _ => True | _ => counter_loc l end ->
  locks_ok ok h' (<[l:=v]> m) -> alloc_state ok self d h U m ->
  alloc_state ok self d h' U (<[l:=v]> m).
Proof.
  intros Hl Hk [Ho [Hd _]]. split; [|split; [|done]].
  - revert Ho. apply alloc_own_grows with (W := fun l' => bool_decide (l' = l)).
    + apply grows_store; [by destruct l|]. by apply bool_decide_eq_true.
    + intros l' Hl'. apply bool_decide_eq_false. intros ->. by destruct l.
  - revert Hd. apply driver_at_keep. intros x _. apply mget_insert_ne. by destruct l.
Qed.

(** The lock of bucket [i] is taken or released. *)
Lemma locks_ok_set h h' m i v : locks_ok ok h m -> ok (held h' i) v ->
  (forall j, j <> i -> held h' j = held h j) -> locks_ok ok h' (<[LLock i := v]> m).
Proof.
  intros Hk Hv Hh j w. destruct (decide (i = j)) as [<-|Hne].
  - rewrite lookup_insert_eq. by intros [= <-].
  - rewrite lookup_insert_ne by congruence. intros Hj. rewrite Hh by done. by apply Hk.
Qed.

(** An updater that gets its nodes from the allocator. *)
Lemma alloc_state_inserter `{HIns : Inserter} d fuel :
  (forall E U m g i xs, Inv m g -> alloc_state ok self d None U m -> bk g !! i = Some xs ->
    swp (foreign self) E stamp_guar (lock_wlock (LLock i))
      (fun _ m' g' => g' = g /\ grows off_list m m' /\ alloc_state ok self d (Some i) U m') m g) ->
  (forall E U m g i xs, Inv m g -> alloc_state ok self d (Some i) U m -> bk g !! i = Some xs ->
    swp (foreign self) E stamp_guar (lock_wunlock (LLock i))
      (fun _ m' g' => g' = g /\ grows off_list m m' /\ alloc_state ok self d None U m') m g) ->
  init_new_node self = new_node (S fuel) self ->
  InserterSpec self stamp_guar (alloc_state ok self d).
Proof.
  intros Hlock Hunlock Hnew. split; [| | | |exact Hlock|exact Hunlock|].
  - intros. apply (ag_silent (self:=self)).
  - intros m g m' g' HI Hs. apply stamp_guar_step; [by eapply list_step_old|]. intros _. by apply stamp_list_step.
  - intros h U m m' Ha Hm Hl Hn. by eapply alloc_state_list.
  - intros h U m n. apply alloc_state_node.
  - intros E h U m g HI Ha. rewrite Hnew. by apply alloc_state_new.
Qed.

End specs.
