(* ===== verification/ListGecos.v ===== *)
(** * GECOS (list_gecos.c): code

    The readers' [search] in its three compile-time variants and the
    reclamation of a deleted node.  A reader takes no lock and announces
    nothing: it reads the generation counter [gc] of a node before following
    the pointer to it, and checks, after reading the node, that the counter
    did not move; the updater increments the counter of a node it has unlinked
    before giving it to the allocator. *)
From S2P Require Import Prelude Mem RG SWP Table TableFacts Allocator ListOps Lock ListWriter.

(** The labels at which an iteration of [search] starts: [retry], the top of
    [while (cur)] and [relink], with the variables that are live there. *)
Inductive label :=
  | Retry
  | Loop (cur : Z) (cur_gc : option Z)
  | Relink (cur : Z) (cur_gc : option Z) (cur_key : Z).

(** The code between [retry] and the loop, common to the variants. *)
Definition start_search (head : loc) (continue : label -> prog Z) : prog Z :=
  cur ← load head;
  if cur =? NULL then Ret 0 else
  cur_gc ← load (LGc cur);
  compiler_barrier;;
  h ← load head;
  if negb (cur =? h) then continue Retry else continue (Loop cur (Some cur_gc)).

(** [if (next != NULL) next_gc = next->gc;] *)
Definition read_gc (next : Z) (next_gc : option Z) : prog (option Z) :=
  if next =? NULL then Ret next_gc else v ← load (LGc next); Ret (Some v).

(** ** The default variant *)

Fixpoint search_loop (fuel : nat) (self key : Z) (head : loc) (pc : label)
    (next_gc : option Z) : prog Z :=
  match fuel with
  | O => Crash OutOfFuel
  | S fuel =>
      match pc with
      | Retry => start_search head (fun pc => search_loop fuel self key head pc next_gc)
      | Loop cur cur_gc | Relink cur cur_gc _ =>
          if cur =? NULL then Ret 0 else
          cur_key ← load (LKey cur);
          next ← load (LNext cur);
          next_gc' ← read_gc next next_gc;
          compiler_barrier;;
          next2 ← load (LNext cur);
          if negb (next =? next2) then
            incr_tls self Vnbretry;;
            search_loop fuel self key head Retry next_gc'
          else
          gc2 ← load (LGc cur);
          use cur_gc (fun gc1 =>
          if negb (gc1 =? gc2) then
            incr_tls self Vnbretry;;
            search_loop fuel self key head Retry next_gc'
          else if key <=? cur_key then Ret (found cur_key key)
          else search_loop fuel self key head (Loop next next_gc') next_gc')
      end
  end.

Definition search (fuel : nat) (self key : Z) (head lock : loc) : prog Z :=
  search_loop fuel self key head Retry None.

(** ** The [GECOS_R] variant: re-read [next] before starting over *)

Module Relinking.

Fixpoint search_loop (fuel : nat) (self key : Z) (head : loc) (pc : label)
    (next_gc : option Z) : prog Z :=
  match fuel with
  | O => Crash OutOfFuel
  | S fuel =>
      match pc with
      | Retry => start_search head (fun pc => search_loop fuel self key head pc next_gc)
      | Loop cur cur_gc =>
          if cur =? NULL then Ret 0 else
          cur_key ← load (LKey cur);
          search_loop fuel self key head (Relink cur cur_gc cur_key) next_gc
      | Relink cur cur_gc cur_key =>
          next ← load (LNext cur);
          next_gc' ← read_gc next next_gc;
          compiler_barrier;;
          next2 ← load (LNext cur);
          if negb (next =? next2) then
            incr_tls self Vnbrelink;;
            search_loop fuel self key head (Relink cur cur_gc cur_key) next_gc'
          else
          gc2 ← load (LGc cur);
          use cur_gc (fun gc1 =>
          if negb (gc1 =? gc2) then
            incr_tls self Vnbretry;;
            search_loop fuel self key head Retry next_gc'
          else if key <=? cur_key then Ret (found cur_key key)
          else search_loop fuel self key head (Loop next next_gc') next_gc')
      end
  end.

Definition search (fuel : nat) (self key : Z) (head lock : loc) : prog Z :=
  search_loop fuel self key head Retry None.

End Relinking.

(** ** The [GECOS_B] variant: step back to [prev] before starting over *)

Module Back.

Fixpoint search_loop (fuel : nat) (self key : Z) (head : loc) (pc : label)
    (next_gc prev prev_gc : option Z) : prog Z :=
  match fuel with
  | O => Crash OutOfFuel
  | S fuel =>
      match pc with
      | Retry =>
          start_search head (fun pc => search_loop fuel self key head pc next_gc prev prev_gc)
      | Loop cur cur_gc =>
          if cur =? NULL then Ret 0 else
          cur_key ← load (LKey cur);
          search_loop fuel self key head (Relink cur cur_gc cur_key) next_gc prev prev_gc
      | Relink cur cur_gc cur_key =>
          next ← load (LNext cur);
          next_gc' ← read_gc next next_gc;
          compiler_barrier;;
          next2 ← load (LNext cur);
          if negb (next =? next2) then
            incr_tls self Vnbrelink;;
            search_loop fuel self key head (Relink cur cur_gc cur_key) next_gc' prev prev_gc
          else
          gc2 ← load (LGc cur);
          use cur_gc (fun gc1 =>
          if negb (gc1 =? gc2) then
            use prev (fun p =>
            pgc ← load (LGc p);
            use prev_gc (fun pg =>
            if pg =? pgc then
              incr_tls self Vnbreprev;;
              search_loop fuel self key head (Loop p prev_gc) next_gc' prev prev_gc
            else
              incr_tls self Vnbretry;;
              search_loop fuel self key head Retry next_gc' prev prev_gc))
          else if key <=? cur_key then Ret (found cur_key key)
          else search_loop fuel self key head (Loop next next_gc') next_gc' (Some cur) cur_gc)
      end
  end.

Definition search (fuel : nat) (self key : Z) (head lock : loc) : prog Z :=
  search_loop fuel self key head Retry None None None.

End Back.

(** ** Reclamation *)

Definition free_node_later (fuel : nat) (self thread n : Z) : prog unit :=
  incr64 (LGc n);;
  free_node fuel self n.

(** [OSA_BEST]: the previous node is freed, the counter of this one moves. *)
Definition free_node_later_osa_best (fuel : nat) (self thread n : Z) : prog unit :=
  fl ← load (LTls self Vfree_later);
  (if fl =? NULL then Ret tt else
   fl ← load (LTls self Vfree_later);
   free_node fuel self fl;;
   incr64 (LGc n));;
  store (LTls self Vfree_later) n.

Definition osa_new_node (fuel : nat) (self : Z) : prog Z := new_node fuel self.
Definition init_new_node (fuel : nat) (self : Z) : prog Z := osa_new_node fuel self.

Definition gecos_inserter (fuel : nat) : Inserter := {|
  lock_wlock := OneWriter.lock_wlock;
  lock_wunlock := OneWriter.lock_wunlock false;
  ListWriter.init_new_node := init_new_node fuel |}.

Definition gecos_scheme (fuel : nat) : Scheme := {|
  scheme_inserter := gecos_inserter fuel;
  unlock_before_free := false;
  ListWriter.free_node_later := free_node_later fuel |}.
