(* ===== verification/GecosWriter.v ===== *)
(** * The GECOS updater

    The scheme of list_gecos.c keeps the promises of [SchemeSpec] with the
    guarantee [stamp_guar]: whatever an updater does, a node whose counter did
    not move still is where it was, with the same key. *)
From S2P Require Import Prelude Mem RG SWP Table TableFacts Frozen Allocator ListOps Lock Stamp ListWriter AllocState ListGecos.

(** In GECOS a node is guarded by its own counter, an [unsigned long]. *)
Definition gecos_stamp : Stamp.
Proof.
  refine {| st := fun m _ n => m !! LGc n; trusted := fun _ => True;
    counters_ok := fun m => forall n v, m !! LGc n = Some v -> v < word64 - 1;
    deferred := false |}.
  - intros m m' i n v Hm. by apply Hm.
  - intros m g i n HI Hl. pose proof (live_node m g HI i n Hl) as Hn.
    destruct (node_field m n LGc Hn ltac:(set_solver)) as [v Hv]. eauto.
  - intros m m' Hm Hok n v. rewrite Hm by done. apply Hok.
Defined.
#[local] Existing Instance gecos_stamp.

Lemma gecos_retire_step m g n i v : Inv m g -> pend g = Some (n, i) -> m !! LGc n = Some v ->
  stamp_step m g (<[LGc n := u64 (v + 1)]> m) (Gst (bk g) None (old g)).
Proof.
  intros HI Hp Hv. apply (stamp_retire_step m _ g n i); [done| |done|].
  - apply stamp_counter_step; [done|done|]. intros j p w Hw. cbn in *.
    destruct (decide (n = p)) as [<-|Hne].
    + rewrite lookup_insert_eq. eexists. split; [done|]. intros Hok.
      rewrite Hv in Hw. injection Hw as <-. by apply u64_succ_le, (Hok n).
    + rewrite lookup_insert_ne by congruence. exists w. split; [done|lia].
  - intros w Hw _. cbn in *. rewrite lookup_insert_eq, Hv in *. intros [=].
    by apply (u64_succ_ne v); congruence.
Qed.

#[export] Instance gecos_scheme_spec fuel self d :
  @SchemeSpec (gecos_scheme (S fuel)) self stamp_guar (alloc_state any_lock self d).
Proof.
  assert (IS : @InserterSpec (gecos_inserter (S fuel)) self stamp_guar (alloc_state any_lock self d)).
  { apply (alloc_state_inserter (HIns := gecos_inserter (S fuel)) any_lock self d fuel); [| |done].
    - intros E U m g i xs _ Ho _. split_and!; [done..|exact Ho].
    - intros E U m g i xs _ Ho _. cbn [ListWriter.lock_wunlock gecos_inserter].
      unfold OneWriter.lock_wunlock, write_read_barrier.
      apply swp_bind_ret, swp_fence; [apply (ag_silent (self:=self))|].
      split_and!; [done..|exact Ho]. }
  apply (@retire_in_lock (gecos_scheme (S fuel)) self stamp_guar _ IS); [done|].
  intros E U m g t n i HI Ho HU Hp. cbn [ListWriter.free_node_later gecos_scheme].
  unfold free_node_later, incr64. apply swp_bind.
  destruct (inv_pend _ _ HI _ _ Hp) as [Hn _].
  destruct (node_field _ _ LGc Hn ltac:(set_solver)) as [v Hv].
  eapply swp_load; [by apply mget_lookup|done|apply (ag_silent (self:=self))|]. apply swp_bind_ret.
  eapply swp_store_gh; [by apply mget_lookup|done|apply (stamp_guar_step _ _ _ (Gst (bk g) None (old g))); [done|]; intros _; by apply gecos_retire_step with (i := i)|].
  apply swp_ret. eapply swp_mono; [apply (alloc_state_free any_lock self E fuel d (Some i) U)|].
  - apply alloc_state_counter with (h := Some i); [done|by intros ? ?|done].
  - apply HU. exists i. by right.
  - cbn beta. intros _ m' g' (-> & Hg & Ho'). split; [|by eapply retired_free].
    etrans; [|exact Hg]. by apply grows_counter.
Qed.

#[export] Instance gecos_spec fuel self :
  @DriverSpec (@writer_ops (gecos_scheme (S fuel))) self stamp_guar (alloc_state any_lock self).
Proof.
  apply alloc_state_driver. intros d. apply (@writer_ops_spec (gecos_scheme (S fuel))), gecos_scheme_spec.
Qed.
