(* ===== verification/GecosReader.v ===== *)
(** * The GECOS reader among updaters

    The reads of a search that rely on generation counters: from the head to
    the first node ([r_start]) and from a node to the next ([r_read_next]). *)
From S2P Require Import Prelude Mem RG SWP Table TableFacts Frozen Allocator ListOps Stamp ListWriter ListGecos GecosWriter.

#[local] Existing Instance gecos_stamp.
Abbreviation gc s n := (cm s !! LGc n).

(** ** Rules *)

Section reader.
Context `{Calloc} (self : Z) (E : err -> Prop).
Implicit Types Q : Z -> gcfg -> Prop.

Abbreviation rwp := (wp E grely (rguar self)).

Lemma node_gc (s : gcfg) p : node (cm s) p -> exists v, mget (cm s) (LGc p) = Some v /\ gc s p = Some v.
Proof.
  intros Hn. destruct (node_field _ _ LGc Hn ltac:(set_solver)) as [v Hv].
  exists v. split; [by apply mget_lookup|done].
Qed.

(** The reads of an iteration after the key: [next], its counter, [next]. *)
Lemma r_read_next {A} cur next_gc (K : Z -> option Z -> Z -> prog A) (Q : A -> gcfg -> Prop) s :
  gwf s -> node (cm s) cur ->
  (forall s3 s5 next ng next2, grely s s3 -> grely s3 s5 -> gwf s5 ->
     (next <> NULL -> node (cm s5) next /\ exists v, ng = Some v /\ gc s3 next = Some v) ->
     mget (cm s5) (LNext cur) = Some next2 -> rwp (K next ng next2) Q s5) ->
  rwp (next ← load (LNext cur); ng ← read_gc next next_gc; compiler_barrier;;
       next2 ← load (LNext cur); K next ng next2) Q s.
Proof.
  intros Hw Hn HK. apply r_load; [done|]. intros s2 R2 W2.
  pose proof (grely_node _ _ _ R2 Hw Hn) as Hn2.
  destruct (node_field _ _ LNext Hn2 ltac:(set_solver)) as [next Hnx].
  exists next. split; [by apply mget_lookup|].
  pose proof (inv_ptr _ _ (proj2 W2) _ _ Hnx) as Hp.
  (* the common end *)
  assert (Hend : forall s3 ng, grely s2 s3 -> gwf s3 ->
    (next <> NULL -> exists v, ng = Some v /\ gc s3 next = Some v) ->
    rwp (compiler_barrier;; next2 ← load (LNext cur); K next ng next2) Q s3).
  { intros s3 ng R3 W3 Hng. apply r_fence; [done|]. intros s4 R4 W4.
    apply r_load; [done|]. intros s5 R5 W5.
    assert (R25 : grely s2 s5) by (etrans; [done|]; by etrans).
    pose proof (grely_node _ _ _ R25 W2 Hn2) as Hn5.
    destruct (node_mget _ _ LNext Hn5 ltac:(set_solver)) as [next2 Hnx2].
    exists next2. split; [done|]. eapply (HK s3); [by etrans|by etrans|done| |done].
    intros Hnn. split; [|auto]. destruct Hp as [?|Hp]; [done|]. by eapply grely_node. }
  unfold read_gc. destruct (Z.eqb_spec next NULL) as [->|Hnn].
  - apply Hend; [done|done|done].
  - destruct Hp as [?|Hp]; [done|]. apply r_load; [done|]. intros s3 R3 W3.
    destruct (node_gc s3 next (grely_node _ _ _ R3 W2 Hp)) as (v & Hv & Hv').
    exists v. split; [done|]. apply Hend; [done|done|eauto].
Qed.

(** [retry]: from the head to the first node. *)
Lemma r_start i key (continue : label -> prog Z) Q s0 s :
  gwf s0 -> grely s0 s -> gwf s -> is_Some (bk (cg s0) !! i) ->
  (forall s', grely s s' -> gwf s' -> (nowrap (ctr s') -> lin s0 s' i key 0) -> Q 0 s') ->
  (forall s', grely s s' -> gwf s' -> rwp (continue Retry) Q s') ->
  (forall s' cur g, grely s s' -> gwf s' -> safe_cur s' cur (Some g) ->
     (nowrap (ctr s') -> at_cur s0 s' i key cur (Some g)) ->
     rwp (continue (Loop cur (Some g))) Q s') ->
  rwp (start_search (LHead i) continue) Q s.
Proof.
  intros W0 R0 W Hi HQ Hretry Hloop.
  assert (Hbk : forall s', grely s s' -> exists xs, bk (cg s') !! i = Some xs).
  { intros s' Hr. destruct (ev_dom s0 s' (proj2 (transitivity R0 Hr) W0) i Hi) as [xs ?]. eauto. }
  unfold start_search. apply r_load; [done|]. intros s1 R1 W1.
  destruct (Hbk s1 R1) as [xs Hxs]. pose proof (path_hd _ _ _ _ (inv_path _ _ (proj2 W1) _ _ Hxs)) as Hh.
  exists (hd0 xs). split; [done|]. destruct (Z.eqb_spec (hd0 xs) NULL) as [H0|H0].
  { rewrite H0 in Hh. apply r_ret; [done|]. intros s2 R2 W2. apply HQ; [by etrans|done|].
    intros _. eapply lin_mono; [done|]. eapply lin_head_null; [done|by etrans|done..]. }
  assert (Hn : node (cm s1) (hd0 xs)).
  { destruct xs as [|x xs]; [done|]. eapply inv_node; [apply W1|done|set_solver]. }
  apply r_load; [done|]. intros s2 R2 W2.
  destruct (node_gc s2 (hd0 xs) (grely_node _ _ _ R2 W1 Hn)) as (g0 & Hg & Hg').
  exists g0. split; [done|]. apply r_fence; [done|]. intros s3 R3 W3.
  apply r_load; [done|]. intros s4 R4 W4.
  assert (R14 : grely s1 s4) by (etrans; [done|]; by etrans).
  assert (R24 : grely s2 s4) by (by etrans).
  assert (R04 : grely s s4) by (by etrans).
  destruct (Hbk s4 R04) as [ys Hys]. pose proof (path_hd _ _ _ _ (inv_path _ _ (proj2 W4) _ _ Hys)) as Hh4.
  exists (hd0 ys). split; [done|]. destruct (Z.eqb_spec (hd0 xs) (hd0 ys)) as [Heq|Hne]; cbn [negb].
  2:{ by apply Hretry. }
  apply Hloop; [done|done| |].
  - intros _. split; [exact (grely_node _ _ _ R14 W1 Hn)|done].
  - intros Hnw. destruct (ev_gc _ _ (proj2 R24 W2) i _ _ Hnw Hg') as (v & Hv & Hle).
    eapply at_cur_head; [done|exact (transitivity R0 R04)|done|exact Hys|by rewrite Heq|done|exact Hv|done].
Qed.

End reader.
