(* ===== verification/GecosSearch.v ===== *)
(** * The GECOS searches are linearizable

    For each variant of [search] (list_gecos.c): among other threads that
    respect [grely], it never touches unmapped memory, and the answer it
    returns was right at some moment between its call and its return. *)
From S2P Require Import Prelude Mem RG SWP Table TableFacts Frozen Allocator ListOps Stamp ListWriter ListGecos GecosWriter GecosReader.

#[local] Existing Instance gecos_stamp.

Section searches.
Context `{Calloc} (self : Z) (E : err -> Prop) (HE : E OutOfFuel).
Context (s0 : gcfg) (i key : Z) (W0 : gwf s0) (Hi : is_Some (bk (cg s0) !! i)).

Abbreviation rwp := (wp E grely (rguar self)).

(** The answer was right at some moment since [s0]. *)
Definition answer (b : Z) (s : gcfg) : Prop := nowrap (ctr s) -> lin s0 s i key b.

(** What holds at each label. *)
Definition node_ok (s : gcfg) (cur : Z) (cur_gc : option Z) : Prop :=
  safe_cur s cur cur_gc /\ (nowrap (ctr s) -> at_cur s0 s i key cur cur_gc).

Definition label_ok (s : gcfg) (pc : label) : Prop :=
  match pc with
  | Retry => True
  | Loop cur cur_gc => node_ok s cur cur_gc
  | Relink cur cur_gc k => cur <> NULL /\ node_ok s cur cur_gc /\
      (nowrap (ctr s) -> forall g, cur_gc = Some g -> st (cm s) i cur = Some g -> nkey (cm s) cur = k)
  end.

Lemma node_ok_mono s s' cur cur_gc : grely s s' -> gwf s -> node_ok s cur cur_gc -> node_ok s' cur cur_gc.
Proof.
  intros R W [H1 H2]. split; [by eapply safe_cur_mono|]. intros Hnw.
  eapply at_cur_mono; [done|exact R|done|]. apply H2. eapply nowrap_suffix; [apply R|done].
Qed.

Lemma answer_mono b s s' : grely s s' -> answer b s -> answer b s'.
Proof.
  intros R Ha Hnw. eapply lin_mono; [done|]. apply Ha. eapply nowrap_suffix; [apply R|done].
Qed.

Lemma relink_ok_mono s s' cur cur_gc k : grely s s' -> gwf s ->
  label_ok s (Relink cur cur_gc k) -> label_ok s' (Relink cur cur_gc k).
Proof.
  intros R W (Hn & Hok & Hk). split_and!; [done|by eapply node_ok_mono|].
  intros Hnw g0 -> Hg. assert (Hnws : nowrap (ctr s)) by (eapply nowrap_suffix; [apply R|done]).
  destruct (proj2 Hok Hnws) as [_ Hat]. destruct (Hat Hn) as (? & v & [= <-] & Hv & Hle & Hc).
  destruct (ev_gc _ _ (proj2 R W) i cur v Hnw Hv) as (v' & Hv' & Hle').
  assert (v = g0) as -> by (rewrite Hg in Hv'; injection Hv' as <-; lia).
  destruct (Hc eq_refl I) as [Hl _].
  destruct (ev_live _ _ (proj2 R W) i cur g0 Hnw Hl Hv I Hg) as [_ ->]. by apply (Hk Hnws g0).
Qed.

(** The checks of an iteration at the node [cur], whose key was read as [k]
    when the configuration was [s1]. *)
Lemma r_iteration s1 cur cur_gc k next_gc (KM KG : option Z -> prog Z) (KN : Z -> option Z -> prog Z) :
  grely s0 s1 -> gwf s1 -> label_ok s1 (Relink cur cur_gc k) ->
  (forall s' ng, grely s1 s' -> gwf s' -> rwp (KM ng) answer s') ->
  (forall s' ng, grely s1 s' -> gwf s' -> rwp (KG ng) answer s') ->
  (forall s' next ng, grely s1 s' -> gwf s' -> node_ok s' next ng -> rwp (KN next ng) answer s') ->
  rwp (next ← load (LNext cur);
       ng ← read_gc next next_gc;
       compiler_barrier;;
       next2 ← load (LNext cur);
       if negb (next =? next2) then KM ng else
       gc2 ← load (LGc cur);
       use cur_gc (fun gc1 =>
       if negb (gc1 =? gc2) then KG ng
       else if key <=? k then Ret (found k key) else KN next ng)) answer s1.
Proof.
  intros R01 W1 (Hn & [Hsafe Hat] & Hk) HKM HKG HKN.
  destruct (Hsafe Hn) as [Hnode [g0 ->]].
  apply r_read_next; [done..|]. intros s3 s5 next ng next2 R13 R35 W5 Hnext Hnx.
  assert (R15 : grely s1 s5) by (rely_trans).
  destruct (Z.eqb_spec next next2) as [<-|Hne]; cbn [negb]; [|by apply HKM].
  apply r_load; [done|]. intros s6 R56 W6. assert (R16 : grely s1 s6) by (rely_trans).
  destruct (node_gc s6 cur (grely_node _ _ _ R16 W1 Hnode)) as (v & Hv & Hv').
  exists v. split; [done|]. cbn [use].
  destruct (Z.eqb_spec g0 v) as [<-|Hne]; cbn [negb]; [|by apply HKG].
  assert (Hok : nowrap (ctr s6) -> nkey (cm s6) cur = k /\ cand s0 s6 i key cur /\
            (k < key -> at_cur s0 s6 i key next ng)).
  { intros Hnw. assert (Hnw1 : nowrap (ctr s1)) by (eapply nowrap_suffix; [apply R16|done]).
    eapply (iteration_ok s0 s1 s3 s5 s6); try done; [by apply Hat|by apply Hk|].
    intros Hnn. by destruct (Hnext Hnn). }
  destruct (Z.leb_spec key k) as [Hle|Hlt].
  - apply r_ret; [done|]. intros s7 R67 W7. apply (answer_mono _ s6); [done|]. intros Hnw.
    destruct (Hok Hnw) as (Hk6 & Hc & _). rewrite <- Hk6. apply cand_answer; [done|lia].
  - apply HKN; [done..|]. split.
    + intros Hnn. destruct (Hnext Hnn) as (Hnode' & v & -> & _). split; [|done].
      by apply (grely_node _ _ _ R56 W5).
    + intros Hnw. by apply Hok.
Qed.

(** The end of the list. *)
Lemma r_end s cur_gc : gwf s -> node_ok s NULL cur_gc -> rwp (Ret 0) answer s.
Proof.
  intros W [_ Hat]. apply r_ret; [done|]. intros s1 R W1. apply (answer_mono _ s); [done|].
  intros Hnw. by apply (Hat Hnw).
Qed.

(** Reading the key of a node: the iteration may start. *)
Lemma r_key {A} s cur cur_gc (K : Z -> prog A) (Q : A -> gcfg -> Prop) :
  gwf s -> cur <> NULL -> node_ok s cur cur_gc ->
  (forall s1 k, grely s s1 -> gwf s1 -> label_ok s1 (Relink cur cur_gc k) -> rwp (K k) Q s1) ->
  rwp (k ← load (LKey cur); K k) Q s.
Proof.
  intros W Hn Hok HK. apply r_load; [done|]. intros s1 R W1.
  pose proof (node_ok_mono _ _ _ _ R W Hok) as Hok1. destruct (proj1 Hok1 Hn) as [Hnode _].
  exists (nkey (cm s1) cur). split; [by apply mget_lookup, node_key|].
  apply HK; [done..|]. by split_and!.
Qed.

(** ** The default variant *)

Lemma search_loop_ok fuel : forall pc next_gc s,
  grely s0 s -> gwf s -> label_ok s pc ->
  rwp (search_loop fuel self key (LHead i) pc next_gc) answer s.
Proof.
  induction fuel as [|fuel IH]; intros pc next_gc s R W Hpc; [exact HE|].
  assert (Hnode : forall cur cur_gc, node_ok s cur cur_gc ->
    rwp (search_loop (S fuel) self key (LHead i) (Loop cur cur_gc) next_gc) answer s).
  { intros cur cur_gc Hok. cbn [search_loop].
    destruct (Z.eqb_spec cur NULL) as [->|Hn]; [by eapply r_end|].
    eapply r_key; [done..|]. intros s1 k R1 W1 Hl.
    assert (R01 : grely s0 s1) by (rely_trans).
    apply r_iteration; [done..| | |].
    - intros s' ng R' W'. apply r_incr; [done|]. intros s2 R2 W2.
      apply IH; [rely_trans|done..].
    - intros s' ng R' W'. apply r_incr; [done|]. intros s2 R2 W2.
      apply IH; [rely_trans|done..].
    - intros s' next ng R' W' Hok'. apply IH; [rely_trans|done..]. }
  destruct pc as [|cur cur_gc|cur cur_gc k]; [|by apply Hnode|apply Hnode, Hpc].
  cbn [search_loop]. eapply (r_start self E i key _ _ s0 s); [done..| | |].
  - intros s' R' W' Ha. exact Ha.
  - intros s' R' W'. apply IH; [rely_trans|done..].
  - intros s' cur g R' W' Hs Ha. apply IH; [rely_trans|done..].
Qed.

(** ** The relinking variant *)

Lemma relinking_search_loop_ok fuel : forall pc next_gc s,
  grely s0 s -> gwf s -> label_ok s pc ->
  rwp (Relinking.search_loop fuel self key (LHead i) pc next_gc) answer s.
Proof.
  induction fuel as [|fuel IH]; intros pc next_gc s R W Hpc; [exact HE|].
  destruct pc as [|cur cur_gc|cur cur_gc k]; cbn [Relinking.search_loop].
  - eapply (r_start self E i key _ _ s0 s); [done..| | |].
    + intros s' R' W' Ha. exact Ha.
    + intros s' R' W'. apply IH; [rely_trans|done..].
    + intros s' cur g R' W' Hs Ha. apply IH; [rely_trans|done..].
  - destruct (Z.eqb_spec cur NULL) as [->|Hn]; [by eapply r_end|].
    eapply r_key; [done..|]. intros s1 k R1 W1 Hl. apply IH; [rely_trans|done..].
  - apply r_iteration; [done..| | |].
    + intros s' ng R' W'. apply r_incr; [done|]. intros s2 R2 W2.
      assert (R02 : grely s s2) by (rely_trans). apply IH; [rely_trans|done|].
      by eapply relink_ok_mono.
    + intros s' ng R' W'. apply r_incr; [done|]. intros s2 R2 W2.
      apply IH; [rely_trans|done..].
    + intros s' next ng R' W' Hok'. apply IH; [rely_trans|done..].
Qed.


(** ** The stepping-back variant

    The first iteration may compare [prev_gc] before it was ever assigned:
    the error [Indeterminate] has to be allowed. *)

Definition prev_ok (s : gcfg) (prev prev_gc : option Z) : Prop :=
  forall p, prev = Some p -> p <> NULL /\ node_ok s p prev_gc.

Lemma prev_ok_mono s s' prev prev_gc : grely s s' -> gwf s -> prev_ok s prev prev_gc ->
  prev_ok s' prev prev_gc.
Proof. intros R W Hp p Hpr. destruct (Hp p Hpr) as [? ?]. split; [done|by eapply node_ok_mono]. Qed.

(** Stepping back to [prev], or starting over. *)
Lemma r_step_back (HU : E Indeterminate) s prev prev_gc (KB : Z -> prog Z) (KR : prog Z) :
  gwf s -> prev_ok s prev prev_gc ->
  (forall s' p, grely s s' -> gwf s' -> node_ok s' p prev_gc -> rwp (KB p) answer s') ->
  (forall s', grely s s' -> gwf s' -> rwp KR answer s') ->
  rwp (use prev (fun p =>
       pgc ← load (LGc p);
       use prev_gc (fun pg =>
       if pg =? pgc then incr_tls self Vnbreprev;; KB p
       else incr_tls self Vnbretry;; KR))) answer s.
Proof.
  intros W Hp HKB HKR. destruct prev as [p|]; [|exact HU]. cbn [use].
  destruct (Hp p eq_refl) as [Hn Hok]. destruct (proj1 Hok Hn) as [Hnode [pg ->]].
  apply r_load; [done|]. intros s1 R1 W1.
  destruct (node_gc s1 p (grely_node _ _ _ R1 W Hnode)) as (v & Hv & _). exists v. split; [done|].
  cbn [use]. destruct (Z.eqb_spec pg v).
  - apply r_incr; [done|]. intros s2 R2 W2. assert (grely s s2) by rely_trans.
    apply HKB; [done..|]. by eapply node_ok_mono.
  - apply r_incr; [done|]. intros s2 R2 W2. apply HKR; [rely_trans|done].
Qed.

Lemma back_search_loop_ok (HU : E Indeterminate) fuel : forall pc next_gc prev prev_gc s,
  grely s0 s -> gwf s -> label_ok s pc -> prev_ok s prev prev_gc ->
  rwp (Back.search_loop fuel self key (LHead i) pc next_gc prev prev_gc) answer s.
Proof.
  induction fuel as [|fuel IH]; intros pc next_gc prev prev_gc s R W Hpc Hprev; [exact HE|].
  assert (Hpm : forall s', grely s s' -> prev_ok s' prev prev_gc).
  { intros s' R'. by eapply prev_ok_mono. }
  destruct pc as [|cur cur_gc|cur cur_gc k]; cbn [Back.search_loop].
  - eapply (r_start self E i key _ _ s0 s); [done..| | |].
    + intros s' R' W' Ha. exact Ha.
    + intros s' R' W'. apply IH; [rely_trans|done|done|auto].
    + intros s' cur g R' W' Hs Ha. apply IH; [rely_trans|done|done|auto].
  - destruct (Z.eqb_spec cur NULL) as [->|Hn]; [by eapply r_end|].
    eapply r_key; [done..|]. intros s1 k R1 W1 Hl. apply IH; [rely_trans|done|done|auto].
  - apply r_iteration; [done..| | |].
    + intros s' ng R' W'. apply r_incr; [done|]. intros s2 R2 W2.
      assert (R02 : grely s s2) by rely_trans. apply IH; [rely_trans|done| |auto].
      by eapply relink_ok_mono.
    + intros s' ng R' W'. apply r_step_back; [done|done|auto| |].
      * intros s2 p R2 W2 Hok. assert (grely s s2) by rely_trans.
        apply IH; [rely_trans|done|done|auto].
      * intros s2 R2 W2. assert (grely s s2) by rely_trans.
        apply IH; [rely_trans|done|done|auto].
    + intros s' next ng R' W' Hok'. apply IH; [rely_trans|done|done|].
      intros p [= <-]. destruct Hpc as (Hn & Hok & _). split; [done|].
      by eapply node_ok_mono.
Qed.

End searches.
