(* ===== verification/ListSgecos.v ===== *)
(** * SGECOS (list_sgecos.c): code

    One generation counter per bucket, kept in its lock: the updater increments
    it when it has unlinked a node, and a reader that meets another value than
    the one it started with starts over.  list_sgecos.c brings its own [insert]
    and [delete], for one updater that takes no lock. *)
From S2P Require Import Prelude Mem RG SWP Table TableFacts Frozen Allocator ListOps Stamp ListWriter.

(** The labels of [search]; [lgc] is an [unsigned long]. *)
Inductive slabel :=
  | SRetry
  | SLoop (cur lgc : Z).

Fixpoint search_loop (fuel : nat) (self key : Z) (head lock : loc) (pc : slabel) : prog Z :=
  match fuel with
  | O => Crash OutOfFuel
  | S fuel =>
      match pc with
      | SRetry =>
          lgc ← load lock;
          compiler_barrier;;
          cur ← load head;
          search_loop fuel self key head lock (SLoop cur (u64 lgc))
      | SLoop cur lgc =>
          if cur =? NULL then Ret 0 else
          cur_key ← load (LKey cur);
          next ← load (LNext cur);
          compiler_barrier;;
          lgc' ← load lock;
          if negb (lgc =? u64 lgc') then
            incr_tls self Vnbretry;;
            search_loop fuel self key head lock SRetry
          else
          compiler_barrier;;
          if key <=? cur_key then Ret (found cur_key key)
          else search_loop fuel self key head lock (SLoop next lgc)
      end
  end.

Definition search (fuel : nat) (self key : Z) (head lock : loc) : prog Z :=
  search_loop fuel self key head lock SRetry.

(** [( *lock)++], on a [long]. *)
Definition incr_long (l : loc) : prog unit := v ← load l; store l (i64 (v + 1)).

Section updates.
Context (afuel : nat).   (* of the allocator's loops *)

Fixpoint delete_loop (fuel : nat) (self key : Z) (prev : loc) (cur : Z) (lock : loc) : prog Z :=
  match fuel with
  | O => Crash OutOfFuel
  | S fuel =>
      if cur =? NULL then Ret 0 else
      k ← load (LKey cur);
      if key <=? k then
        k' ← load (LKey cur);
        if negb (k' =? key) then Ret 0 else
        nx ← load (LNext cur);
        store prev nx;;
        write_write_barrier;;
        incr_long lock;;
        write_read_barrier;;
        free_node afuel self cur;;
        Ret 1
      else
        cur' ← load (LNext cur);
        delete_loop fuel self key (LNext cur) cur' lock
  end.

Definition delete (fuel : nat) (self key : Z) (head lock : loc) : prog Z :=
  cur ← load head;
  delete_loop fuel self key head cur lock.

(** The end of [insert], from the allocation of the node. *)
Definition insert_link (self key : Z) (prev : loc) (cur : Z) (lock : loc) : prog Z :=
  new ← new_node afuel self;
  store (LKey new) key;;
  store (LNext new) cur;;
  write_write_barrier;;
  store prev new;;
  Ret 1.

Fixpoint insert_loop (fuel : nat) (self key : Z) (prev : loc) (cur : Z) (lock : loc) : prog Z :=
  match fuel with
  | O => Crash OutOfFuel
  | S fuel =>
      if cur =? NULL then insert_link self key prev cur lock else
      k ← load (LKey cur);
      if key <=? k then
        k' ← load (LKey cur);
        if k' =? key then Ret 0 else insert_link self key prev cur lock
      else
        cur' ← load (LNext cur);
        insert_loop fuel self key (LNext cur) cur' lock
  end.

Definition insert (fuel : nat) (self key : Z) (head lock : loc) : prog Z :=
  cur ← load head;
  insert_loop fuel self key head cur lock.

Definition sgecos_ops : ListOps := {|
  op_insert := insert;
  op_delete := delete |}.

(** [insert] is that of list_writer.c, without lock. *)
Definition sgecos_inserter : Inserter := {|
  lock_wlock := fun _ => Ret tt;
  lock_wunlock := fun _ => Ret tt;
  init_new_node := new_node afuel |}.

Lemma insert_eq : insert = @ListWriter.insert sgecos_inserter.
Proof. reflexivity. Qed.

End updates.

(** lock.h: [lock_init] under [SGECOS]. *)
Definition lock_init (l : loc) : prog unit := store l 0.
