(* ===== verification/SgecosWriter.v ===== *)
(** * The SGECOS updater

    [insert] and [delete] of list_sgecos.c keep the promises of [ListOpsSpec]
    with the guarantee [stamp_guar], for the bucket's counter as the stamp of
    all its nodes. *)
From S2P Require Import Prelude Mem RG SWP Table TableFacts Frozen Allocator ListOps Stamp ListWriter AllocState ListSgecos.

(** The counter of a bucket is a [long] that starts at zero. *)
Definition sgecos_stamp : Stamp.
Proof.
  refine {| st := fun m i _ => m !! LLock i; trusted := fun _ => True;
    counters_ok := fun m => forall i v, m !! LLock i = Some v -> 0 <= v < 2 ^ 63 - 1;
    deferred := false |}.
  - intros m m' i n v Hm. by apply Hm.
  - intros m g i n HI Hl. apply (Inv_live_lock m g HI i n Hl).
  - intros m m' Hm Hok i v. rewrite Hm by done. apply Hok.
Defined.
#[local] Existing Instance sgecos_stamp.

(** [( *lock)++] really moves the counter, even when it wraps around. *)
Lemma i64_succ_ne v : i64 (v + 1) <> v.
Proof.
  unfold i64, word64. intros Hv. pose proof (Z.mod_pos_bound (v + 1 + 2 ^ 63) (2 ^ 64) ltac:(lia)).
  destruct (decide (v = 2 ^ 63 - 1)) as [->|Hne]; [by vm_compute in Hv|].
  rewrite Z.mod_small in Hv by lia. lia.
Qed.

Lemma sgecos_retire_step m g d i v : Inv m g -> pend g = Some (d, i) -> m !! LLock i = Some v ->
  stamp_step m g (<[LLock i := i64 (v + 1)]> m) (Gst (bk g) None (old g)).
Proof.
  intros HI Hp Hv. apply (stamp_retire_step m _ g d i); [done| |done|].
  - apply stamp_counter_step; [done|done|]. intros j p w Hw. cbn in *.
    destruct (decide (i = j)) as [<-|Hne].
    + rewrite lookup_insert_eq. eexists. split; [done|]. intros Hok. specialize (Hok i v Hv).
      rewrite Hv in Hw. injection Hw as <-. rewrite i64_small; lia.
    + rewrite lookup_insert_ne by congruence. exists w. split; [done|lia].
  - intros w Hw _. cbn in *. rewrite lookup_insert_eq, Hv in *. intros [=].
    by apply (i64_succ_ne v); congruence.
Qed.

#[local] Instance sgecos_inserter_spec fuel self d :
  @InserterSpec (sgecos_inserter (S fuel)) self stamp_guar (alloc_state any_lock self d).
Proof.
  apply (alloc_state_inserter (HIns := sgecos_inserter (S fuel)) any_lock self d fuel); [| |done];
    intros E U m g i xs _ Ho _; (split_and!; [done..|exact Ho]).
Qed.

Section delete.
Context (self : Z) (d : tlsvar -> Z) (afuel : nat) (E : err -> Prop).
Abbreviation own := (alloc_state any_lock self d).

(** The end of [delete]: the node is linked nowhere, then counted, then freed. *)
Lemma retire_run i U m g n (Q : Z -> mem -> gst -> Prop) :
  Inv m g -> own None U m -> n ∈ U -> pend g = Some (n, i) ->
  (forall m', grows off_list m m' -> own None (U ∖ {[n]}) m' -> Q 1 m' (Gst (bk g) None (old g))) ->
  swp (foreign self) E stamp_guar
    (write_write_barrier;; incr_long (LLock i);; write_read_barrier;; free_node (S afuel) self n;; Ret 1)
    Q m g.
Proof.
  intros HI Ho HU Hp HQ. apply swp_fence; [apply (ag_silent (self:=self))|].
  destruct (Inv_live_lock m g HI i n) as [v Hv]; [by right|].
  unfold incr_long. apply swp_bind.
  eapply swp_load; [by apply mget_lookup|done|apply (ag_silent (self:=self))|]. apply swp_bind_ret.
  eapply swp_store_gh; [by apply mget_lookup|done|apply (stamp_guar_step _ _ _ (Gst (bk g) None (old g))); [done|]; intros _; by apply sgecos_retire_step with (d := n)|].
  apply swp_ret, swp_fence; [apply (ag_silent (self:=self))|]. apply swp_bind.
  eapply swp_mono; [apply (alloc_state_free any_lock self E afuel d None U); [|done]|].
  { apply alloc_state_counter with (h := None); [done|by intros ? ?|done]. }
  cbn beta. intros _ m' g' (-> & Hg & Ho'). apply swp_ret, HQ; [|done].
  etrans; [|exact Hg]. by apply grows_store.
Qed.

(** Ending without having changed anything. *)
Lemma return_unchanged key i U m0 m g pre suf : at_node own key i U m g pre suf ->
  abs_table m g = abs_table m0 g -> key ∉ kset m (pre ++ suf) ->
  swp (foreign self) E stamp_guar (Ret 0) (refines_op spec_delete key i own m0 g) m g.
Proof.
  intros Han Ha Hk. pose proof (sgecos_inserter_spec afuel self d) as IS.
  apply (unlock_unchanged (HIns := sgecos_inserter (S afuel)) (fun A => swp (foreign self) E stamp_guar) (fun _ _ _ => True) 0 self own
    spec_delete key i U m0 m g pre suf 0 Han Ha).
  by apply delete_missing.
Qed.

Lemma sgecos_delete_loop_spec key i U m0 m g suf : forall fuel pre,
  (length suf < fuel)%nat -> at_node own key i U m g pre suf ->
  abs_table m g = abs_table m0 g ->
  swp (foreign self) E stamp_guar
    (delete_loop (S afuel) fuel self key (cell LNext (LHead i) pre) (hd0 suf) (LLock i))
    (refines_op spec_delete key i own m0 g) m g.
Proof.
  pose proof (fun m g => ag_silent (self:=self) (SG:=stamp_guar) m g) as Hsil.
  induction suf as [|c suf IH]; intros [|fuel] pre Hf Han Ha; simpl in Hf; try lia;
    cbn [delete_loop hd0].
  - rewrite Z.eqb_refl. eapply return_unchanged; [done|done|].
    destruct Han. eapply kset_gap; [done|done|set_solver].
  - destruct (at_node_cur _ _ _ _ _ _ _ _ _ Han) as (Hn & Hk & Hx).
    rewrite (proj2 (Z.eqb_neq c NULL)) by (by eapply node_nonnull).
    eapply swp_load; [done|done|apply Hsil|].
    destruct (Z.leb_spec key (nkey m c)) as [Hle|Hgt].
    + eapply swp_load; [done|done|apply Hsil|].
      pose proof (at_node_found _ _ _ _ _ _ _ _ _ Han Hle) as Hfd.
      destruct (Z.eqb_spec (nkey m c) key) as [Heq|Hne]; cbn [negb].
      2:{ eapply return_unchanged; [done|done|]. by rewrite Hfd. }
      eapply swp_load; [done|done|apply Hsil|].
      pose proof Han as [H1 H2 H3 H4 H5 H6].
      pose proof (ls_unlink m g i pre c suf H5 H2) as Hls.
      pose proof (sgecos_inserter_spec afuel self d) as IS.
      eapply swp_store_gh; [by eapply inv_cell_get|by apply foreign_list_loc, cell_list_loc|
        eapply stamp_guar_step; [by eapply list_step_old|]; intros _; by apply stamp_list_step|].
      eapply (retire_run i U); [by eapply list_step_inv| | |done|].
      * apply (own_store_list (HIns := sgecos_inserter (S afuel)) (fun A => swp (foreign self) E stamp_guar) (fun _ _ _ => True) 0 self own None); [|done].
        apply cell_list_loc.
      * apply H4. left. exists i. left. eexists. split; [done|set_solver].
      * intros m2 Hg2 Ho2. eapply delete_done; [done..|].
        eapply retired_free; [by eapply list_step_inv|done|exact Ho2].
    + eapply swp_load; [done|done|apply Hsil|].
      rewrite <- (cell_snoc LNext (LHead i) pre c). apply IH; [lia| |done].
      by apply at_node_next.
Qed.

End delete.

#[export] Instance sgecos_ops_spec fuel self d :
  @ListOpsSpec (sgecos_ops (S fuel)) self stamp_guar (alloc_state any_lock self d).
Proof.
  pose proof (sgecos_inserter_spec fuel self d) as IS. split.
  - intros. apply (ag_silent (self:=self)).
  - intros E n key i m g xs Ht Hi Hf. cbn [op_insert sgecos_ops]. rewrite insert_eq.
    by apply (ListWriter.insert_spec (HIns := sgecos_inserter (S fuel)) (fun A => swp (foreign self) E stamp_guar) (fun _ _ _ => True) n self _ (IS := swp_inserter self stamp_guar _ E (IS := IS) n) n key i m g xs).
  - intros E n key i m g xs (HI & Hp & U & Ho & HU) Hi Hf. cbn [op_delete sgecos_ops]. unfold delete.
    eapply swp_load; [by eapply path_hd, inv_path|done|apply (ag_silent (self:=self))|].
    apply (sgecos_delete_loop_spec self d fuel E key i U m m g xs n []); [done| |done]. by apply at_node_start.
Qed.

#[export] Instance sgecos_driver_spec fuel self :
  @DriverSpec (sgecos_ops (S fuel)) self stamp_guar (alloc_state any_lock self).
Proof. apply alloc_state_driver. intros d. apply sgecos_ops_spec. Qed.
