(* ===== verification/SgecosSearch.v ===== *)
(** * The SGECOS search is linearizable

    Among updaters whose steps satisfy [stamp_step] for the bucket's counter,
    [search] of list_sgecos.c never touches unmapped memory, and the answer it
    returns was right at some moment between its call and its return. *)
From S2P Require Import Prelude Mem RG SWP Table TableFacts Frozen Allocator ListOps Stamp ListSgecos SgecosWriter.

#[local] Existing Instance sgecos_stamp.

Section search.
Context `{HC : Calloc} (self : Z) (E : err -> Prop) (HE : E OutOfFuel).
Context (s0 : gcfg) (i key : Z) (W0 : gwf s0) (Hi : is_Some (bk (cg s0) !! i)).

Abbreviation rwp := (wp E grely (rguar self)).

Definition answer (b : Z) (s : gcfg) : Prop := nowrap (ctr s) -> lin s0 s i key b.

(** What holds at a label: the value of the counter that [lgc] comes from still
    guards [cur]. *)
Definition label_ok (s : gcfg) (pc : slabel) : Prop :=
  match pc with
  | SRetry => True
  | SLoop cur lgc => (cur <> NULL -> node (cm s) cur) /\
      (nowrap (ctr s) -> exists l0, lgc = u64 l0 /\ 0 <= l0 < 2 ^ 63 - 1 /\
         at_cur s0 s i key cur (Some l0))
  end.

Lemma sgecos_answer_mono b s s' : grely s s' -> answer b s -> answer b s'.
Proof.
  intros R Ha Hnw. eapply lin_mono; [done|]. apply Ha. eapply nowrap_suffix; [apply R|done].
Qed.

(** The counter of the bucket is allocated, and in range. *)
Lemma lock_mapped s : grely s0 s -> gwf s -> exists v, cm s !! LLock i = Some v /\
  (nowrap (ctr s) -> 0 <= v < 2 ^ 63 - 1).
Proof.
  intros R [Ht HI]. destruct (ev_dom _ _ (proj2 R W0) i Hi) as [xs Hxs].
  destruct (inv_head _ _ HI _ _ Hxs) as [_ [v Hv]]. exists v. split; [done|]. intros Hnw.
  apply (Hnw (cm s)) in Hv; [done|]. by apply head_Some_elem_of.
Qed.

(** The lock is read before the head. *)
Lemma label_ok_start s1 s3 l0 : grely s0 s1 -> gwf s1 -> grely s1 s3 -> gwf s3 ->
  cm s1 !! LLock i = Some l0 -> (nowrap (ctr s1) -> 0 <= l0 < 2 ^ 63 - 1) ->
  exists cur, mget (cm s3) (LHead i) = Some cur /\ label_ok s3 (SLoop cur (u64 l0)).
Proof.
  intros R1 W1 R13 W3 Hl Hr. assert (R3 : grely s0 s3) by (by etrans).
  destruct (ev_dom _ _ (proj2 R3 W0) i Hi) as [xs Hxs]. pose proof (proj2 W3) as HI.
  pose proof (path_hd _ _ _ _ (inv_path _ _ HI _ _ Hxs)) as Hh. exists (hd0 xs). split; [done|]. split.
  - intros Hn. destruct xs as [|x xs]; [done|]. eapply inv_node; [done|done|set_solver].
  - intros Hnw. exists l0. split; [done|]. split; [apply Hr; eapply nowrap_suffix; [apply R13|done]|].
    destruct (decide (hd0 xs = NULL)) as [H0|Hn].
    + rewrite H0 in Hh |- *. split; [intros _; by eapply lin_head_null|done].
    + destruct (ev_gc _ _ (proj2 R13 W1) i NULL l0 Hnw Hl) as (v & Hv & Hle).
      by eapply at_cur_head.
Qed.

(** An iteration that found the counter unchanged. *)
Lemma iteration_unchanged s1 s2 s4 cur k next l0 v4 :
  grely s0 s1 -> gwf s1 -> grely s1 s2 -> gwf s2 -> grely s2 s4 -> gwf s4 -> nowrap (ctr s4) ->
  cur <> NULL -> at_cur s0 s1 i key cur (Some l0) -> nkey (cm s1) cur = k ->
  mget (cm s2) (LNext cur) = Some next -> cm s4 !! LLock i = Some v4 ->
  0 <= l0 < 2 ^ 63 - 1 -> u64 l0 = u64 v4 ->
  nkey (cm s4) cur = k /\ cand s0 s4 i key cur /\ (k < key -> at_cur s0 s4 i key next (Some l0)).
Proof.
  intros R1 W1 R12 W2 R24 W4 Hnw Hn Hat Hk Hnx Hv4 Hr Heq.
  assert (Hr4 : 0 <= v4 < 2 ^ 63 - 1).
  { apply (Hnw (cm s4)) in Hv4; [done|]. apply head_Some_elem_of, W4. }
  rewrite !u64_small in Heq by (unfold word64; lia). subst v4.
  assert (Hnw2 : nowrap (ctr s2)) by (eapply nowrap_suffix; [apply R24|done]).
  destruct Hat as [Hat0 Hat1]. destruct (Hat1 Hn) as (? & v1 & [= <-] & Hv1 & Hle1 & _). cbn in Hv1.
  destruct (ev_gc _ _ (proj2 R12 W1) i NULL v1 Hnw2 Hv1) as (v2 & Hv2 & Hle2). cbn in Hv2.
  destruct (ev_gc _ _ (proj2 R24 W2) i NULL v2 Hnw Hv2) as (v4 & Hv4' & Hle4). cbn in Hv4'.
  assert (v2 = l0) as -> by (rewrite Hv4 in Hv4'; injection Hv4' as <-; lia).
  apply (iteration_ok s0 s1 s2 s2 s4 i key k cur l0 next (Some l0)); try done.
  intros _. exists l0. by split.
Qed.

Lemma sgecos_search_loop_ok fuel : forall pc s, grely s0 s -> gwf s -> label_ok s pc ->
  rwp (search_loop fuel self key (LHead i) (LLock i) pc) answer s.
Proof.
  induction fuel as [|fuel IH]; intros pc s R W Hpc; [exact HE|].
  destruct pc as [|cur lgc]; cbn [search_loop].
  - apply r_load; [done|]. intros s1 R1 W1. assert (R01 : grely s0 s1) by rely_trans.
    destruct (lock_mapped s1 R01 W1) as (l0 & Hl & Hr). exists l0. split; [by apply mget_lookup|].
    apply r_fence; [done|]. intros s2 R2 W2. apply r_load; [done|]. intros s3 R3 W3.
    destruct (label_ok_start s1 s3 l0 R01 W1) as (cur & Hh & Hok); [rely_trans|done..|].
    exists cur. split; [done|]. apply IH; [rely_trans|done|done].
  - destruct Hpc as [Hnode Hat]. destruct (Z.eqb_spec cur NULL) as [->|Hn].
    { apply r_ret; [done|]. intros s1 R1 W1. apply (sgecos_answer_mono _ s); [done|]. intros Hnw.
      destruct (Hat Hnw) as (l0 & _ & _ & [H0 _]). by apply H0. }
    specialize (Hnode Hn). apply r_load; [done|]. intros s1 R1 W1.
    pose proof (grely_node _ _ _ R1 W Hnode) as Hn1. exists (nkey (cm s1) cur).
    split; [by apply mget_lookup, node_key|]. apply r_load; [done|]. intros s2 R2 W2.
    destruct (node_field _ _ LNext (grely_node _ _ _ R2 W1 Hn1) ltac:(set_solver)) as [next Hnx].
    pose proof (inv_ptr _ _ (proj2 W2) _ _ Hnx) as Hq. exists next. split; [by apply mget_lookup|].
    apply r_fence; [done|]. intros s3 R3 W3. apply r_load; [done|]. intros s4 R4 W4.
    assert (R24 : grely s2 s4) by rely_trans. assert (R04 : grely s0 s4) by rely_trans.
    destruct (lock_mapped s4 R04 W4) as (l4 & Hl4 & _). exists l4. split; [by apply mget_lookup|].
    destruct (Z.eqb_spec lgc (u64 l4)) as [Heq|Hne]; cbn [negb].
    2:{ apply r_incr; [done|]. intros s5 R5 W5. apply IH; [rely_trans|done|done]. }
    assert (Hok : nowrap (ctr s4) -> exists l0, lgc = u64 l0 /\ 0 <= l0 < 2 ^ 63 - 1 /\
      nkey (cm s4) cur = nkey (cm s1) cur /\ cand s0 s4 i key cur /\
      (nkey (cm s1) cur < key -> at_cur s0 s4 i key next (Some l0))).
    { intros Hnw. assert (R14 : grely s1 s4) by rely_trans.
      assert (Hnw1 : nowrap (ctr s1)) by (eapply nowrap_suffix; [apply R14|done]).
      assert (Hnws : nowrap (ctr s)) by (eapply nowrap_suffix; [apply R1|done]).
      destruct (Hat Hnws) as (l0 & Hlgc & Hr & Hat0). exists l0. split; [done|]. split; [done|].
      eapply (iteration_unchanged s1 s2 s4); try done; [rely_trans|by eapply at_cur_mono| |congruence].
      by apply mget_lookup. }
    apply r_fence; [done|]. intros s5 R5 W5.
    destruct (Z.leb_spec key (nkey (cm s1) cur)) as [Hle|Hlt].
    + apply r_ret; [done|]. intros s6 R6 W6. apply (sgecos_answer_mono _ s4); [rely_trans|]. intros Hnw.
      destruct (Hok Hnw) as (l0 & _ & _ & Hk & Hc & _). rewrite <- Hk. apply cand_answer; [done|lia].
    + apply IH; [rely_trans|done|]. split.
      * intros Hnn. destruct Hq as [?|Hq]; [done|]. assert (R25 : grely s2 s5) by rely_trans.
        by apply (grely_node _ _ _ R25 W2).
      * intros Hnw. assert (Hnw4 : nowrap (ctr s4)) by (eapply nowrap_suffix; [apply R5|done]).
        destruct (Hok Hnw4) as (l0 & Hlgc & Hr & _ & _ & Hnext). exists l0. split; [done|].
        split; [done|]. eapply at_cur_mono; [done|exact R5|done|]. by apply Hnext.
Qed.

End search.
