(* ===== verification/ListLock.v ===== *)
(** * The locked search (list_lock.c): code

    [search] takes the bucket's lock for reading.  With a sequence lock or a
    generation lock it runs while an updater is at work, and starts over when
    the lock tells that it may have met a change. *)
From S2P Require Import Prelude Mem RG SWP Table TableFacts Allocator ListOps ListWriter Lock.

Section search.
(** [vld] is the macro [SEQLOCK_VLD]; [lfuel] bounds the loop of [lock_rlock]. *)
Context `{LockOps} (vld : bool) (lfuel : nat).

Definition validate_cur (lock : loc) (loc_val : Z) : prog bool :=
  if vld then lock_runlock lock loc_val else Ret true.

(** [None] is the label [search_retry], [Some (cur, loc_val)] the loop. *)
Fixpoint search_loop (fuel : nat) (key : Z) (head lock : loc) (pc : option (Z * Z)) : prog Z :=
  match fuel with
  | O => Crash OutOfFuel
  | S fuel =>
      let search_retry := search_loop fuel key head lock None in
      match pc with
      | None =>
          loc_val ← lock_rlock lfuel lock;
          cur ← load head;
          search_loop fuel key head lock (Some (cur, loc_val))
      | Some (cur, loc_val) =>
          if cur =? NULL then
            ok ← lock_runlock lock loc_val;
            if (ok : bool) then Ret 0 else search_retry
          else
          ok ← lock_validate lock loc_val;
          if negb ok then search_retry else
          cur_key ← load (LKey cur);
          if key <=? cur_key then
            ok ← lock_runlock lock loc_val;
            if (ok : bool) then Ret (found cur_key key) else search_retry
          else
          cur' ← load (LNext cur);
          ok ← validate_cur lock loc_val;
          if (ok : bool) then search_loop fuel key head lock (Some (cur', loc_val))
          else search_retry
      end
  end.

Definition search (fuel : nat) (self key : Z) (head lock : loc) : prog Z :=
  search_loop fuel key head lock None.

End search.

(** ** Reclamation *)

Definition free_node_later (fuel : nat) (self thread n : Z) : prog unit := free_node fuel self n.

(** [GCLOCK_NONEED]: the previous node is freed. *)
Definition free_node_later_noneed (fuel : nat) (self thread n : Z) : prog unit :=
  fl ← load (LTls self Vfree_later);
  (if fl =? NULL then Ret tt else
   fl ← load (LTls self Vfree_later);
   free_node fuel self fl);;
  store (LTls self Vfree_later) n.

Definition init_new_node (fuel : nat) (self : Z) : prog Z := new_node fuel self.

(** list_writer.c with the locks of lock.h; under [GCLOCK] the lock is released
    before the node is freed. *)
Definition lock_inserter (L : LockOps) (fuel : nat) : Inserter := {|
  ListWriter.lock_wlock := Lock.lock_wlock fuel;
  ListWriter.lock_wunlock := Lock.lock_wunlock;
  ListWriter.init_new_node := init_new_node fuel |}.

Definition lock_scheme (L : LockOps) (gclock : bool) (fuel : nat) : Scheme := {|
  scheme_inserter := lock_inserter L fuel;
  unlock_before_free := gclock;
  ListWriter.free_node_later := free_node_later fuel |}.
