(* ===== verification/LockWriter.v ===== *)
(** * The updater under a sequence lock or a generation lock

    list_writer.c with the locks of lock.h under [SEQLOCK] and [GCLOCK]: the
    scheme keeps the promises of [SchemeSpec], with the bucket's lock as the
    stamp of its nodes.  Under [SEQLOCK] a node is freed while the lock is odd
    and no reader trusts what it reads; under [GCLOCK] the lock is incremented
    before the node is freed. *)
From S2P Require Import Prelude Mem RG SWP Table TableFacts Frozen Allocator ListOps Stamp ListWriter AllocState Lock ListLock.

(** ** Stamps *)

(** The stamp is [stv] of the lock's value; the locks are [unsigned long]s. *)
Definition lock_stamp (stv : Z -> Z) (tr : Z -> Prop) : Stamp.
Proof.
  refine {| st := fun m i _ => stv <$> m !! LLock i; trusted := tr;
    counters_ok := fun m => forall i v, m !! LLock i = Some v -> 0 <= v < word64 - 1;
    deferred := false |}.
  - intros m m' i n v Hm (w & Hw & ->)%fmap_Some. apply fmap_Some. exists w. split; [by apply Hm|done].
  - intros m g i n HI Hl. destruct (Inv_live_lock m g HI i n Hl) as [v ->]. by exists (stv v).
  - intros m m' Hm Hok i v. rewrite Hm by done. apply Hok.
Defined.

(** The whole value, trusted when it is even. *)
Definition seq_stamp : Stamp := lock_stamp (fun v => v) (fun v => Z.odd v = false).
(** The whole value, or the bits above the lock bit. *)
Definition gen (one_writer : bool) (v : Z) : Z := if one_writer then v else Z.shiftr v 1.
Definition gc_stamp (one_writer : bool) : Stamp := lock_stamp (gen one_writer) (fun _ => True).

Section steps.
Context (stv : Z -> Z) (tr : Z -> Prop).
#[local] Instance ls : Stamp := lock_stamp stv tr.

(** The lock of bucket [i] moves from [v] to [w]. *)
Lemma lock_step m g i v w : Inv m g -> m !! LLock i = Some v ->
  (0 <= v < word64 - 1 -> stv v <= stv w) -> stamp_step m g (<[LLock i := w]> m) g.
Proof.
  intros HI Hv Hle. apply stamp_counter_step; [done|done|]. intros j n u Hu. cbn in *.
  destruct (decide (i = j)) as [<-|Hne].
  - rewrite lookup_insert_eq. eexists. split; [done|]. intros Hok.
    rewrite Hv in Hu. injection Hu as <-. by apply Hle, (Hok i).
  - rewrite lookup_insert_ne by congruence. exists u. split; [done|lia].
Qed.

Lemma lock_retire_step m g i v w d : Inv m g -> m !! LLock i = Some v -> pend g = Some (d, i) ->
  (0 <= v < word64 - 1 -> stv v <= stv w) -> stv w <> stv v ->
  stamp_step m g (<[LLock i := w]> m) (Gst (bk g) None (old g)).
Proof.
  intros HI Hv Hp Hle Hne. apply (stamp_retire_step m _ g d i); [done|by eapply lock_step|done|].
  intros u Hu _. cbn in *. rewrite Hv in Hu. injection Hu as <-. rewrite lookup_insert_eq.
  intros [=]. by apply Hne.
Qed.

(** Nobody trusts the stamp. *)
Lemma untrusted_retire_step m g i v d : Inv m g -> m !! LLock i = Some v -> pend g = Some (d, i) ->
  ~ tr (stv v) -> stamp_step m g m (Gst (bk g) None (old g)).
Proof.
  intros HI Hv Hp Hn. apply (stamp_retire_step m _ g d i); [done|by apply stamp_step_grows|done|].
  intros u Hu Ht. cbn in *. rewrite Hv in Hu. injection Hu as <-. done.
Qed.

End steps.

(** ** Integers *)

Lemma odd_u64 v : Z.odd (u64 v) = Z.odd v.
Proof.
  unfold u64, word64. rewrite <- !Z.bit0_odd. change (2 ^ 64) with (2 ^ 64).
  rewrite Z.mod_pow2_bits_low by lia. done.
Qed.

Lemma odd_i64 v : Z.odd (i64 v) = Z.odd v.
Proof.
  unfold i64. replace ((v + 2 ^ 63) mod word64) with (u64 (v + 2 ^ 63)) by done.
  rewrite Z.odd_sub, odd_u64, Z.odd_add. change (Z.odd (2 ^ 63)) with false. by destruct (Z.odd v).
Qed.

Lemma u64_i64 v d : u64 (i64 v + d) = u64 (v + d).
Proof.
  unfold i64, u64. rewrite <- Z.add_opp_r, <- Z.add_assoc, Z.add_mod_idemp_l by done.
  f_equal. lia.
Qed.

Lemma i64_inj a b : 0 <= a < word64 -> 0 <= b < word64 -> i64 a = i64 b -> a = b.
Proof.
  intros Ha Hb He. pose proof (u64_i64 a 0) as H1. rewrite He, u64_i64, !Z.add_0_r in H1.
  rewrite !u64_small in H1 by done. done.
Qed.

(** The lock bit of an even value. *)
Lemma lor_1_even v : Z.odd v = false -> Z.lor v 1 = v + 1.
Proof.
  intros Hv. rewrite Z.add_nocarry_lxor.
  - symmetry. apply Z.lxor_lor. apply Z.bits_inj'. intros n Hn. rewrite Z.land_spec, Z.bits_0.
    destruct (decide (n = 0)) as [->|Hne]; [by rewrite Z.bit0_odd, Hv|].
    rewrite (Z.bits_above_log2 1) by (simpl; lia). apply andb_false_r.
  - apply Z.bits_inj'. intros n Hn. rewrite Z.land_spec, Z.bits_0.
    destruct (decide (n = 0)) as [->|Hne]; [by rewrite Z.bit0_odd, Hv|].
    rewrite (Z.bits_above_log2 1) by (simpl; lia). apply andb_false_r.
Qed.

(** ** Executing the lock operations *)

Section ops.
Context (stv : Z -> Z) (tr : Z -> Prop).
#[local] Instance ls' : Stamp := lock_stamp stv tr.
Context (self : Z) (E : err -> Prop).

Abbreviation swp' := (swp (foreign self) E stamp_guar).

Lemma guar_silent m g : stamp_guar m g m g.
Proof. apply (ag_silent (self:=self)). Qed.

Lemma swp_rfence {A} b (k : unit -> prog A) Q m g : swp' (k tt) Q m g -> swp' (fence b ≫= k) Q m g.
Proof. apply swp_fence, guar_silent. Qed.

Lemma swp_lock_load {A} i v (k : Z -> prog A) Q m g : m !! LLock i = Some v ->
  swp' (k v) Q m g -> swp' (load (LLock i) ≫= k) Q m g.
Proof. intros Hv. eapply swp_load; [by apply mget_lookup|done|apply guar_silent]. Qed.

Lemma swp_add_one {A} i v (k : unit -> prog A) Q m g g' : m !! LLock i = Some v ->
  stamp_guar m g (<[LLock i := u64 (v + 1)]> m) g' ->
  swp' (k tt) Q (<[LLock i := u64 (v + 1)]> m) g' -> swp' (add_one (LLock i) ≫= k) Q m g.
Proof.
  intros Hv Hg Hk. unfold add_one, incr64. apply swp_bind. eapply swp_lock_load; [done|].
  apply swp_bind_ret. eapply swp_store_gh; [by apply mget_lookup|done|exact Hg|]. by apply swp_ret.
Qed.

Lemma swp_lock_cas {A} i v w (k : bool -> prog A) Q m g g' : m !! LLock i = Some v ->
  stamp_guar m g (<[LLock i := w]> m) g' ->
  swp' (k true) Q (<[LLock i := w]> m) g' -> swp' (sync_bool_cas (LLock i) v w ≫= k) Q m g.
Proof. intros Hv. eapply swp_cas; [by apply mget_lookup|done]. Qed.

Lemma swp_lock_xadd {A} i v (k : Z -> prog A) Q m g g' : m !! LLock i = Some v ->
  stamp_guar m g (<[LLock i := u64 (v + 1)]> m) g' ->
  swp' (k v) Q (<[LLock i := u64 (v + 1)]> m) g' -> swp' (atomic_xadd4 (LLock i) 1 ≫= k) Q m g.
Proof. intros Hv. eapply swp_xadd; [by apply mget_lookup|done]. Qed.

(** The updater's state after a step of the lock. *)
Lemma lock_state ok d h h' U m i v : alloc_state ok self d h U m -> ok (held h' i) v ->
  (forall j, j <> i -> held h' j = held h j) ->
  grows off_list m (<[LLock i := v]> m) /\ alloc_state ok self d h' U (<[LLock i := v]> m).
Proof.
  intros Ha Hv Hh. split; [by apply grows_counter|].
  apply alloc_state_counter with (h := h); [done| |done].
  destruct Ha as (_ & _ & Hk). by eapply locks_ok_set.
Qed.

End ops.

Lemma lock_value ok self d h U m g i xs : Inv m g -> alloc_state ok self d h U m -> bk g !! i = Some xs ->
  exists v, m !! LLock i = Some v /\ ok (held h i) v.
Proof.
  intros HI (_ & _ & Hk) Hi. destruct (inv_head _ _ HI _ _ Hi) as [_ [v Hv]]. exists v. split; [done|].
  by apply Hk.
Qed.

(** Incrementing a lock flips its lowest bit. *)
Lemma odd_lock_succ held v : odd_lock held v -> odd_lock (negb held) (u64 (v + 1)).
Proof.
  intros [Hr Hv]. split; [apply u64_range|]. rewrite odd_u64, Z.odd_add, Hv. by destruct held.
Qed.

(** Locking and unlocking touch only the lock. *)
Definition wlock_post (ok : lock_pred) self d (h : option Z) U m (g : gst) (_ : unit) (m' : mem) (g' : gst) : Prop :=
  g' = g /\ grows off_list m m' /\ alloc_state ok self d h U m'.

(** ** [SEQLOCK] *)

Section seq.
Context (one_writer no_wr_br : bool) (self : Z) (d : tlsvar -> Z) (fuel : nat) (E : err -> Prop).
#[local] Instance seq_st : Stamp := seq_stamp.
#[local] Instance seq_ops : LockOps := Seq.ops one_writer no_wr_br.

Lemma seq_wlock_spec U m g i xs : Inv m g -> alloc_state odd_lock self d None U m -> bk g !! i = Some xs ->
  swp (foreign self) E stamp_guar (lock_wlock (S fuel) (LLock i))
    (wlock_post odd_lock self d (Some i) U m g) m g.
Proof.
  intros HI Ha Hi. destruct (lock_value _ _ _ _ _ _ _ _ _ HI Ha Hi) as (v & Hv & Hok).
  change (held None i) with false in Hok. pose proof (odd_lock_succ _ _ Hok) as Hok'. destruct Hok as [Hr Ho].
  assert (Hg : stamp_guar m g (<[LLock i := u64 (v + 1)]> m) g).
  { apply stamp_guar_step; [done|]. intros _. apply (lock_step (fun v => v) _ m g i v); [done|done|].
    intros Hlt. apply u64_succ_le. lia. }
  assert (Hp : wlock_post odd_lock self d (Some i) U m g tt (<[LLock i := u64 (v + 1)]> m) g).
  { split; [done|]. apply lock_state with (h := None); [done|by rewrite held_some|apply held_take]. }
  cbn [lock_wlock seq_ops Seq.ops]. destruct one_writer.
  - unfold Seq.lock_wlock, read_read_barrier, write_write_barrier, compiler_barrier.
    apply swp_rfence. eapply swp_add_one; [exact Hv|exact Hg|]. apply swp_bind_ret, swp_rfence.
    by apply swp_ret.
  - unfold Seq.lock_wlock_mw. apply swp_bind. cbn [Seq.wlock_loop]. eapply swp_lock_load; [exact Hv|].
    cbv zeta. rewrite odd_i64, Ho. rewrite <- (Z.add_0_r (i64 v)), u64_i64, Z.add_0_r, u64_small by done.
    rewrite Z.add_0_r, u64_i64. eapply swp_lock_cas; [exact Hv|exact Hg|]. apply swp_ret.
    eapply swp_lock_load; [by apply lookup_insert_eq|]. rewrite (proj2 Hok'). by apply swp_ret.
Qed.

Lemma seq_wunlock_spec U m g i xs : Inv m g -> alloc_state odd_lock self d (Some i) U m -> bk g !! i = Some xs ->
  swp (foreign self) E stamp_guar (lock_wunlock (LLock i))
    (wlock_post odd_lock self d None U m g) m g.
Proof.
  intros HI Ha Hi. destruct (lock_value _ _ _ _ _ _ _ _ _ HI Ha Hi) as (v & Hv & Hok).
  rewrite held_some in Hok. pose proof (odd_lock_succ _ _ Hok) as Hok'.
  assert (Hg : stamp_guar m g (<[LLock i := u64 (v + 1)]> m) g).
  { apply stamp_guar_step; [done|]. intros _. apply (lock_step (fun v => v) _ m g i v); [done|done|].
    intros Hlt. apply u64_succ_le. lia. }
  assert (Hp : wlock_post odd_lock self d None U m g tt (<[LLock i := u64 (v + 1)]> m) g).
  { split; [done|]. apply lock_state with (h := Some i); [done|done|intros; symmetry; by apply held_take]. }
  cbn [lock_wunlock seq_ops Seq.ops]. destruct one_writer.
  - unfold Seq.lock_wunlock, read_read_barrier, write_write_barrier, write_read_barrier, compiler_barrier.
    apply swp_rfence. eapply swp_add_one; [exact Hv|exact Hg|].
    destruct no_wr_br; apply swp_bind_ret, swp_rfence; by apply swp_ret.
  - unfold Seq.lock_wunlock_mw. eapply swp_lock_xadd; [exact Hv|exact Hg|]. by apply swp_ret.
Qed.

End seq.

#[export] Instance seq_scheme_spec one_writer no_wr_br fuel self d :
  @SchemeSpec (lock_scheme (Seq.ops one_writer no_wr_br) false (S fuel)) self
    (stamp_guar (H := seq_stamp)) (alloc_state odd_lock self d).
Proof.
  assert (IS : @InserterSpec (lock_inserter (Seq.ops one_writer no_wr_br) (S fuel)) self
    (stamp_guar (H := seq_stamp)) (alloc_state odd_lock self d)).
  { apply (alloc_state_inserter (HS := seq_stamp) (HIns := lock_inserter _ _) odd_lock self d fuel); [| |done].
    - intros E U m g i xs HI Ho Hi. by apply (seq_wlock_spec one_writer no_wr_br self d fuel E U m g i xs).
    - intros E U m g i xs HI Ho Hi. by apply (seq_wunlock_spec one_writer no_wr_br self d E U m g i xs). }
  split; [exact IS|]. intros E U m g n i xs HI Ho HU Hp Hi. unfold delete_end.
  destruct (lock_value _ _ _ _ _ _ _ _ _ HI Ho Hi) as (v & Hv & [_ Hodd]). rewrite held_some in Hodd.
  destruct (mget_static m (LTls self Vthread) eq_refl) as [tv Htv].
  apply swp_bind, swp_ret. eapply swp_load_gh; [done|apply foreign_self| |].
  { apply (stamp_guar_step _ _ _ (Gst (bk g) None (old g))); [done|]. intros _. apply (untrusted_retire_step (fun v => v) _ m g i v n HI Hv Hp). by rewrite Hodd. }
  apply swp_bind. eapply swp_mono.
  { apply (alloc_state_free (HS := seq_stamp) odd_lock self E fuel d (Some i) U); [done|].
    apply HU. exists i. by right. }
  cbn beta. intros _ m1 g1 (-> & Hg1 & Ho1). apply swp_bind. eapply swp_mono.
  { apply (seq_wunlock_spec one_writer no_wr_br self d E (U ∖ {[n]}) m1 _ i xs); [|done|done].
    eapply (Inv_grows _ _ _ Hg1), Inv_retire; [done|done|set_solver]. }
  cbn beta. intros _ m2 g2 (-> & Hg2 & Ho2). apply swp_ret.
  split_and!; [done|by etrans|by eapply retired_free].
Qed.

(** ** [GCLOCK] *)

(** The lock bit is used when there are several writers. *)
Definition gc_lock_pred (one_writer : bool) : lock_pred := if one_writer then any_lock else odd_lock.

Lemma shiftr_1_succ v : Z.odd v = true -> Z.shiftr (v + 1) 1 = Z.shiftr v 1 + 1.
Proof.
  intros Hv. rewrite !Z.shiftr_div_pow2 by lia. change (2 ^ 1) with 2.
  rewrite Zodd_mod in Hv. apply Z.eqb_eq in Hv.
  pose proof (Z.div_mod v 2 ltac:(lia)). replace (v + 1) with (0 + (v / 2 + 1) * 2) by lia.
  rewrite Z.div_add by lia. change (0 / 2) with 0. lia.
Qed.

(** Releasing the lock moves the generation. *)
Lemma gen_unlock one_writer v : gc_lock_pred one_writer true v ->
  (0 <= v < word64 - 1 -> gen one_writer v <= gen one_writer (u64 (v + 1))) /\
  gen one_writer (u64 (v + 1)) <> gen one_writer v.
Proof.
  destruct one_writer; cbn [gc_lock_pred gen].
  - intros _. split; [intros; by apply u64_succ_le; lia|]. apply u64_succ_ne.
  - intros [Hr Hv]. assert (Hne : v + 1 < word64 -> u64 (v + 1) = v + 1) by (intros; apply u64_small; lia).
    pose proof (shiftr_1_succ v Hv) as Hs. split.
    + intros Hlt. rewrite Hne, Hs by lia. lia.
    + destruct (decide (v + 1 < word64)) as [Hlt|Hge]; [rewrite Hne, Hs by done; lia|].
      assert (v = word64 - 1) as -> by lia. by vm_compute.
Qed.

(** Taking the lock does not. *)
Lemma gen_lock v : Z.odd v = false -> 0 <= v < word64 -> gen false (u64 (v + 1)) = gen false v.
Proof.
  intros Hv Hr. cbn [gen]. rewrite Zeven.Zodd_even_bool in Hv. apply negb_false_iff, Z.even_spec in Hv as [k ->].
  unfold word64 in *. rewrite u64_small by (unfold word64; lia).
  rewrite !Z.shiftr_div_pow2 by lia. change (2 ^ 1) with 2.
  rewrite (Z.mul_comm 2 k), Z.div_mul, Z.div_add_l by lia. change (1 / 2) with 0. lia.
Qed.

Lemma gc_held_succ one_writer h v : gc_lock_pred one_writer h v ->
  gc_lock_pred one_writer (negb h) (u64 (v + 1)).
Proof. destruct one_writer; [done|]. apply odd_lock_succ. Qed.

Section gc.
Context (one_writer no_wr_br : bool) (self : Z) (d : tlsvar -> Z) (fuel : nat) (E : err -> Prop).
#[local] Instance gc_st : Stamp := gc_stamp one_writer.
#[local] Instance gc_ops : LockOps := Gc.ops one_writer no_wr_br.
Abbreviation own := (alloc_state (gc_lock_pred one_writer) self d).

Lemma gc_wlock_spec U m g i xs : Inv m g -> own None U m -> bk g !! i = Some xs ->
  swp (foreign self) E stamp_guar (lock_wlock (S fuel) (LLock i))
    (wlock_post (gc_lock_pred one_writer) self d (Some i) U m g) m g.
Proof.
  intros HI Ha Hi. destruct (lock_value _ _ _ _ _ _ _ _ _ HI Ha Hi) as (v & Hv & Hok).
  change (held None i) with false in Hok. pose proof (gc_held_succ _ _ _ Hok) as Hok'.
  cbn [lock_wlock gc_ops Gc.ops]. unfold gc_st. destruct one_writer.
  { split; [done|]. split; [done|]. destruct Ha as (? & ? & _). by split_and!. }
  destruct Hok as [Hr Ho].
  assert (Hg : stamp_guar (H := gc_stamp false) m g (<[LLock i := u64 (v + 1)]> m) g).
  { apply stamp_guar_step; [done|]. intros _. apply (lock_step (gen false) _ m g i v); [done|done|].
    intros _. by rewrite gen_lock. }
  assert (Hp : wlock_post odd_lock self d (Some i) U m g tt (<[LLock i := u64 (v + 1)]> m) g).
  { split; [done|]. apply lock_state with (h := None); [done|by rewrite held_some|apply held_take]. }
  unfold Gc.lock_wlock_mw. apply swp_bind. cbn [Gc.wlock_loop]. eapply swp_lock_load; [exact Hv|].
  cbv zeta. rewrite odd_i64, Ho, lor_1_even by (by rewrite odd_i64).
  rewrite u64_i64. rewrite <- (Z.add_0_r (i64 v)), u64_i64, Z.add_0_r, u64_small by done.
  eapply swp_lock_cas; [exact Hv|exact Hg|]. apply swp_ret.
  eapply swp_lock_load; [by apply lookup_insert_eq|]. rewrite (proj2 Hok'). by apply swp_ret.
Qed.

(** Releasing the lock, with what it means for the ghost state. *)
Lemma gc_wunlock_run U m g g' i v : m !! LLock i = Some v -> own (Some i) U m ->
  gc_lock_pred one_writer true v -> stamp_guar m g (<[LLock i := u64 (v + 1)]> m) g' ->
  swp (foreign self) E stamp_guar (lock_wunlock (LLock i))
    (fun _ m1 g1 => g1 = g' /\ grows off_list m m1 /\ own None U m1) m g.
Proof.
  intros Hv Ha Hok Hg. pose proof (gc_held_succ _ _ _ Hok) as Hok'.
  assert (Hp : grows off_list m (<[LLock i := u64 (v + 1)]> m) /\ own None U (<[LLock i := u64 (v + 1)]> m)).
  { apply lock_state with (h := Some i); [done|done|intros; symmetry; by apply held_take]. }
  cbn [lock_wunlock gc_ops Gc.ops]. unfold gc_st in *. destruct one_writer.
  - unfold Gc.lock_wunlock, write_write_barrier, write_read_barrier, compiler_barrier.
    eapply swp_add_one; [exact Hv|exact Hg|]. destruct no_wr_br; apply swp_rfence; by apply swp_ret.
  - unfold Gc.lock_wunlock_mw. eapply swp_lock_xadd; [exact Hv|exact Hg|]. by apply swp_ret.
Qed.

Lemma gc_wunlock_spec U m g i xs : Inv m g -> own (Some i) U m -> bk g !! i = Some xs ->
  swp (foreign self) E stamp_guar (lock_wunlock (LLock i))
    (wlock_post (gc_lock_pred one_writer) self d None U m g) m g.
Proof.
  intros HI Ha Hi. destruct (lock_value _ _ _ _ _ _ _ _ _ HI Ha Hi) as (v & Hv & Hok).
  rewrite held_some in Hok. apply (gc_wunlock_run U m g g i v Hv Ha Hok).
  apply stamp_guar_step; [done|]. intros _. apply lock_step with (v := v); [done|done|]. by apply gen_unlock.
Qed.

Lemma gc_retire_spec U m g n i xs : Inv m g -> own (Some i) U m -> n ∈ U ->
  pend g = Some (n, i) -> bk g !! i = Some xs ->
  swp (foreign self) E stamp_guar
    (@delete_end (lock_scheme (Gc.ops one_writer no_wr_br) true (S fuel)) self (LLock i) n)
    (fun r m' g' => r = 1 /\ grows off_list m m' /\ retired (own None) n U g m' g') m g.
Proof.
  intros HI Ha HU Hp Hi. destruct (lock_value _ _ _ _ _ _ _ _ _ HI Ha Hi) as (v & Hv & Hok).
  rewrite held_some in Hok. unfold delete_end. apply swp_bind. eapply swp_mono.
  { apply (gc_wunlock_run U m g (Gst (bk g) None (old g)) i v Hv Ha Hok).
    apply stamp_guar_step; [done|]. intros _. destruct (gen_unlock _ _ Hok) as [? ?]. by eapply lock_retire_step. }
  cbn beta. intros _ m1 g1 (-> & Hg1 & Ho1). destruct (mget_static m1 (LTls self Vthread) eq_refl) as [tv Htv].
  eapply swp_load; [done|apply foreign_self|apply (guar_silent _ _ self)|]. apply swp_bind.
  eapply swp_mono; [by apply (alloc_state_free (HS := gc_st) _ self E fuel d None U m1 _ n Ho1)|].
  cbn beta. intros _ m2 g2 (-> & Hg2 & Ho2). apply swp_bind_ret, swp_ret.
  split_and!; [done|by etrans|by eapply retired_free].
Qed.

End gc.

#[export] Instance gc_scheme_spec one_writer no_wr_br fuel self d :
  @SchemeSpec (lock_scheme (Gc.ops one_writer no_wr_br) true (S fuel)) self
    (stamp_guar (H := gc_stamp one_writer)) (alloc_state (gc_lock_pred one_writer) self d).
Proof.
  assert (IS : @InserterSpec (lock_inserter (Gc.ops one_writer no_wr_br) (S fuel)) self
    (stamp_guar (H := gc_stamp one_writer)) (alloc_state (gc_lock_pred one_writer) self d)).
  { apply (alloc_state_inserter (HS := gc_stamp one_writer) (HIns := lock_inserter _ _) _ self d fuel); [| |done].
    - intros E U m g i xs HI Ho Hi. by apply (gc_wlock_spec one_writer no_wr_br self d fuel E U m g i xs).
    - intros E U m g i xs HI Ho Hi. by apply (gc_wunlock_spec one_writer no_wr_br self d E U m g i xs). }
  split; [exact IS|]. intros E U m g n i xs HI Ho HU Hp Hi.
  apply (gc_retire_spec one_writer no_wr_br self d fuel E U m g n i xs); [done|done| |done|done].
  apply HU. exists i. by right.
Qed.

(** ** The driver's operations *)

#[export] Instance seq_driver_spec one_writer no_wr_br fuel self :
  @DriverSpec (@writer_ops (lock_scheme (Seq.ops one_writer no_wr_br) false (S fuel))) self
    (stamp_guar (H := seq_stamp)) (alloc_state odd_lock self).
Proof.
  apply alloc_state_driver. intros d. apply (@writer_ops_spec (lock_scheme _ false _)), seq_scheme_spec.
Qed.

#[export] Instance gc_driver_spec one_writer no_wr_br fuel self :
  @DriverSpec (@writer_ops (lock_scheme (Gc.ops one_writer no_wr_br) true (S fuel))) self
    (stamp_guar (H := gc_stamp one_writer)) (alloc_state (gc_lock_pred one_writer) self).
Proof.
  apply alloc_state_driver. intros d. apply (@writer_ops_spec (lock_scheme _ true _)), gc_scheme_spec.
Qed.
