(* ===== verification/LockSearch.v ===== *)
(** * The locked search is linearizable

    [search] of list_lock.c under [SEQLOCK] and [GCLOCK] takes no lock that
    excludes the updater: it walks through lists that may change under it, and
    checks the lock before it returns.  Among updaters whose steps satisfy
    [stamp_step] it never touches unmapped memory, and the answer it returns was
    right at some moment between its call and its return. *)
From S2P Require Import Prelude Mem RG SWP Table TableFacts Frozen Allocator ListOps Stamp ListWriter Lock ListLock LockWriter.

(** ** What a search needs of an optimistic lock

    [dec v] is what a reader keeps of the value [v] of the lock. *)
Section interface.
Context `{HC : Calloc} (stv : Z -> Z) (tr : Z -> Prop) (dec : Z -> Z) (L : LockOps) (lfuel : nat).
#[local] Instance iface_stamp : Stamp := lock_stamp stv tr.
Context (self : Z) (E : err -> Prop).

Abbreviation rwp := (wp E grely (rguar self)).

Definition lock_at (s : gcfg) (i v : Z) : Prop := cm s !! LLock i = Some v.

(** The lock was read as [v], on the way from [s] to [s2]. *)
Definition lock_read (s s2 : gcfg) (i v : Z) : Prop :=
  exists s1, grely s s1 /\ gwf s1 /\ grely s1 s2 /\ lock_at s1 i v.

Class OptLock : Prop := {
  ol_dec v w : 0 <= v < word64 - 1 -> 0 <= w < word64 - 1 -> dec v = dec w -> stv v = stv w;
  ol_rlock i s : gwf s -> is_Some (bk (cg s) !! i) ->
    rwp (lock_rlock lfuel (LLock i))
      (fun lv s2 => exists v, lock_read s s2 i v /\ tr (stv v) /\ lv = dec v) s;
  ol_runlock i lv s : gwf s -> is_Some (bk (cg s) !! i) ->
    rwp (lock_runlock (LLock i) lv)
      (fun b s2 => exists v, lock_read s s2 i v /\ b = (lv =? dec v)) s;
  ol_validate i lv s : gwf s -> is_Some (bk (cg s) !! i) ->
    rwp (lock_validate (LLock i) lv) (fun _ _ => True) s }.

End interface.

(** ** The search *)

Section search.
Context `{HC : Calloc} (stv : Z -> Z) (tr : Z -> Prop) (dec : Z -> Z) (L : LockOps) (lfuel : nat).
#[local] Instance search_stamp : Stamp := lock_stamp stv tr.
Context (self : Z) (E : err -> Prop) (HE : E OutOfFuel).
Context {OL : OptLock stv tr dec L lfuel self E} (vld : bool).
Context (s0 : gcfg) (i key : Z) (W0 : gwf s0) (Hi : is_Some (bk (cg s0) !! i)).

Abbreviation rwp := (wp E grely (rguar self)).

Definition answer (b : Z) (s : gcfg) : Prop := nowrap (ctr s) -> lin s0 s i key b.

(** As long as the stamp is still [g0], the walk is at [cur] for good reasons. *)
Definition at_snap (s : gcfg) (cur g0 : Z) : Prop :=
  exists v, st (cm s) i cur = Some v /\ g0 <= v /\ (v = g0 -> at_cur s0 s i key cur (Some g0)).

Definition label_ok (s : gcfg) (pc : option (Z * Z)) : Prop :=
  match pc with
  | None => True
  | Some (cur, lv) => (cur <> NULL -> node (cm s) cur) /\
      (nowrap (ctr s) -> exists v0, lv = dec v0 /\ 0 <= v0 < word64 - 1 /\ tr (stv v0) /\
         at_snap s cur (stv v0))
  end.

Lemma lock_answer_mono b s s' : grely s s' -> answer b s -> answer b s'.
Proof.
  intros R Ha Hnw. eapply lin_mono; [done|]. apply Ha. eapply nowrap_suffix; [apply R|done].
Qed.

Lemma bucket_here s : grely s0 s -> is_Some (bk (cg s) !! i).
Proof. intros R. exact (ev_dom _ _ (proj2 R W0) i Hi). Qed.

Lemma lock_range s v : gwf s -> lock_at s i v -> nowrap (ctr s) -> 0 <= v < word64 - 1.
Proof. intros [Ht _] Hv Hnw. apply (Hnw (cm s)) in Hv; [done|]. by apply head_Some_elem_of. Qed.

Lemma lock_st s v n : lock_at s i v -> st (cm s) i n = Some (stv v).
Proof. unfold lock_at. cbn. by intros ->. Qed.

Lemma at_snap_mono s s' cur g0 : nowrap (ctr s') -> grely s s' -> gwf s ->
  at_snap s cur g0 -> at_snap s' cur g0.
Proof.
  intros Hnw R W (v & Hv & Hle & Hat). destruct (ev_gc _ _ (proj2 R W) i cur v Hnw Hv) as (v' & Hv' & Hle').
  exists v'. split; [done|]. split; [lia|]. intros ->. eapply at_cur_mono; [done..|]. apply Hat. lia.
Qed.

(** A stamp that still is [g0] now was so before. *)
Lemma at_snap_here s s' cur g0 n : nowrap (ctr s') -> grely s s' -> gwf s ->
  at_snap s cur g0 -> st (cm s') i n = Some g0 ->
  st (cm s) i cur = Some g0 /\ at_cur s0 s i key cur (Some g0).
Proof.
  intros Hnw R W (v & Hv & Hle & Hat) Hv'.
  destruct (ev_gc _ _ (proj2 R W) i cur v Hnw Hv) as (v' & Hv'' & Hle').
  change (st (cm s') i cur) with (st (cm s') i n) in Hv''. rewrite Hv' in Hv''. injection Hv'' as <-.
  assert (v = g0) as -> by lia. auto.
Qed.

Lemma lock_label_start s1 s3 v0 : grely s0 s1 -> gwf s1 -> grely s1 s3 -> gwf s3 ->
  lock_at s1 i v0 -> tr (stv v0) ->
  exists cur, mget (cm s3) (LHead i) = Some cur /\ label_ok s3 (Some (cur, dec v0)).
Proof.
  intros R1 W1 R13 W3 Hl Ht. assert (R3 : grely s0 s3) by (by etrans).
  destruct (bucket_here s3 R3) as [xs Hxs]. pose proof (proj2 W3) as HI.
  pose proof (path_hd _ _ _ _ (inv_path _ _ HI _ _ Hxs)) as Hh. exists (hd0 xs). split; [done|]. split.
  - intros Hn. destruct xs as [|x xs]; [done|]. eapply inv_node; [done|done|set_solver].
  - intros Hnw. exists v0. split; [done|].
    split; [apply (lock_range s1); [done|done|eapply nowrap_suffix; [apply R13|done]]|]. split; [done|].
    destruct (ev_gc _ _ (proj2 R13 W1) i (hd0 xs) (stv v0) Hnw) as (v & Hv & Hle); [by apply lock_st|].
    exists v. split; [done|]. split; [done|]. intros _. destruct (decide (hd0 xs = NULL)) as [H0|Hn].
    + rewrite H0 in Hh |- *. split; [intros _; by eapply lin_head_null|done].
    + by eapply at_cur_head.
Qed.

(** [cur] is live and keeps its key while the stamp does not move. *)
Lemma snap_live s1 s2 cur g0 n : nowrap (ctr s2) -> grely s1 s2 -> gwf s1 -> cur <> NULL -> tr g0 ->
  at_snap s1 cur g0 -> st (cm s2) i n = Some g0 ->
  live_in (cg s2) i cur /\ nkey (cm s2) cur = nkey (cm s1) cur /\ at_cur s0 s2 i key cur (Some g0).
Proof.
  intros Hnw R W Hn Ht Hs Hv2. destruct (at_snap_here s1 s2 cur g0 n) as [Hv1 Hat]; [done..|].
  pose proof (at_cur_mono _ _ _ _ _ _ _ Hnw R W Hat) as Hat2. pose proof Hat as [_ H1].
  destruct (H1 Hn) as (? & v & [= <-] & Hv & _ & Hc). rewrite Hv1 in Hv. injection Hv as <-.
  destruct (Hc eq_refl Ht) as [Hl _].
  change (st (cm s2) i n) with (st (cm s2) i cur) in Hv2.
  destruct (ev_live _ _ (proj2 R W) i cur g0 Hnw Hl Hv1 Ht Hv2) as [Hl2 Hk]. done.
Qed.

(** The lock kept its value until the answer. *)
Lemma label_ok_unlock s s1 cur lv v : gwf s -> grely s s1 -> gwf s1 ->
  label_ok s (Some (cur, lv)) -> lock_at s1 i v -> lv = dec v -> nowrap (ctr s1) ->
  exists g0, tr g0 /\ at_snap s cur g0 /\ st (cm s1) i cur = Some g0.
Proof.
  intros W R W1 [_ Hl] Hv -> Hnw. destruct Hl as (v0 & Hd & Hr & Ht & Hs).
  { eapply nowrap_suffix; [apply R|done]. }
  exists (stv v0). split; [done|]. split; [done|]. rewrite (lock_st s1 v) by done. f_equal.
  apply (ol_dec stv tr dec L lfuel self E); [by eapply lock_range|done|done].
Qed.

Lemma answer_null s s1 lv v : gwf s -> grely s s1 -> gwf s1 -> label_ok s (Some (NULL, lv)) ->
  lock_at s1 i v -> lv = dec v -> answer 0 s1.
Proof.
  intros W R W1 Hl Hv He Hnw. destruct (label_ok_unlock s s1 NULL lv v) as (g0 & Ht & Hs & Hg); [done..|].
  destruct (at_snap_here s s1 NULL g0 NULL) as [_ [H0 _]]; [done..|]. eapply lin_mono; [done|]. auto.
Qed.

Lemma answer_found s s1 cur lv v : gwf s -> grely s s1 -> gwf s1 -> cur <> NULL ->
  label_ok s (Some (cur, lv)) -> key <= nkey (cm s) cur ->
  lock_at s1 i v -> lv = dec v -> answer (found (nkey (cm s) cur) key) s1.
Proof.
  intros W R W1 Hn Hl Hk Hv He Hnw. destruct (label_ok_unlock s s1 cur lv v) as (g0 & Ht & Hs & Hg); [done..|].
  destruct (snap_live s s1 cur g0 cur) as (_ & Hk1 & [_ Hat]); [done..|].
  destruct (Hat Hn) as (? & w & [= <-] & Hw & _ & Hc). rewrite Hg in Hw. injection Hw as <-.
  rewrite <- Hk1 in Hk |- *. apply cand_answer; [|done]. by apply Hc.
Qed.

Lemma label_ok_mono s s' pc : grely s s' -> gwf s -> label_ok s pc -> label_ok s' pc.
Proof.
  intros R W. destruct pc as [[cur lv]|]; [|done]. intros [Hn Hs]. split.
  - intros H. eapply grely_node; eauto.
  - intros Hnw. destruct Hs as (v0 & ? & ? & ? & ?); [eapply nowrap_suffix; [apply R|done]|].
    exists v0. do 3 (split; [done|]). by eapply at_snap_mono.
Qed.

(** From a node to the next one. *)
Lemma label_ok_next s1 s2 cur next lv : grely s0 s1 -> gwf s1 -> grely s1 s2 -> gwf s2 -> cur <> NULL ->
  label_ok s1 (Some (cur, lv)) -> nkey (cm s1) cur < key -> mget (cm s2) (LNext cur) = Some next ->
  label_ok s2 (Some (next, lv)).
Proof.
  intros R1 W1 R W2 Hn Hl Hk Hnx. assert (R2 : grely s0 s2) by (by etrans). split.
  - intros Hnn. pose proof (label_ok_mono _ _ _ R W1 Hl) as [Hn2 _].
    destruct (node_field _ _ LNext (Hn2 Hn) ltac:(set_solver)) as [q Hq].
    rewrite (mget_lookup _ _ _ Hq) in Hnx. injection Hnx as ->.
    by destruct (inv_ptr _ _ (proj2 W2) _ _ Hq).
  - intros Hnw. destruct (proj2 Hl) as (v0 & Hd & Hr & Ht & Hs); [eapply nowrap_suffix; [apply R|done]|].
    exists v0. split; [done|]. split; [done|]. split; [done|].
    destruct (at_snap_mono _ _ _ _ Hnw R W1 Hs) as (v & Hv & Hle & _).
    exists v. split; [done|]. split; [done|]. intros ->.
    destruct (snap_live s1 s2 cur (stv v0) cur) as (Hl2 & Hk2 & _); [done..|].
    eapply at_cur_next; [exact W0|exact R2|exact W2|exact Hl2|exact Hnx|lia|].
    intros _. exists (stv v0), (stv v0). split; [done|]. split; [exact Hv|lia].
Qed.

Lemma lock_search_loop_ok fuel : forall pc s, grely s0 s -> gwf s -> label_ok s pc ->
  rwp (search_loop vld lfuel fuel key (LHead i) (LLock i) pc) answer s.
Proof.
  induction fuel as [|fuel IH]; intros pc s R W Hpc; [exact HE|].
  assert (Hretry : forall s', grely s s' -> gwf s' ->
    rwp (search_loop vld lfuel fuel key (LHead i) (LLock i) None) answer s').
  { intros s' R' W'. apply IH; [by etrans|done|done]. }
  destruct pc as [[cur lv]|]; cbn [search_loop].
  2:{ eapply r_bind; [done|by apply (ol_rlock stv tr dec L lfuel self E), bucket_here|].
      intros ? s2 R2 W2 (v0 & (s1 & R1 & W1 & R12 & Hv) & Ht & ->).
      apply r_load; [done|]. intros s3 R3 W3. assert (R13 : grely s1 s3) by (by etrans).
      destruct (lock_label_start s1 s3 v0) as (cur & Hh & Hl); [by etrans|done..|]. exists cur. split; [done|].
      apply IH; [|done|done]. etrans; [done|]. by etrans. }
  destruct (Z.eqb_spec cur NULL) as [->|Hn].
  { eapply r_bind; [done|by apply (ol_runlock stv tr dec L lfuel self E), bucket_here|].
    intros ? s2 R2 W2 (v & (s1 & R1 & W1 & R12 & Hv) & ->).
    destruct (Z.eqb_spec lv (dec v)) as [He|He]; [|by apply Hretry].
    apply r_ret; [done|]. intros s3 R3 W3. apply (lock_answer_mono _ s1); [by etrans|].
    by apply (answer_null s s1 lv v). }
  eapply r_bind; [done|by apply (ol_validate stv tr dec L lfuel self E), bucket_here|].
  intros b s1 R1 W1 _. destruct b; cbn [negb]; [|by apply Hretry].
  apply (label_ok_mono s s1) in Hpc; [|done|done]. assert (R01 : grely s0 s1) by (by etrans).
  apply r_load; [done|]. intros s2 R2 W2. apply (label_ok_mono s1 s2) in Hpc; [|done|done].
  pose proof (proj1 Hpc Hn) as Hnode. exists (nkey (cm s2) cur). split; [by apply mget_lookup, node_key|].
  assert (R02 : grely s0 s2) by (by etrans). assert (Rs2 : grely s s2) by (by etrans).
  destruct (Z.leb_spec key (nkey (cm s2) cur)) as [Hle|Hlt].
  - eapply r_bind; [done|by apply (ol_runlock stv tr dec L lfuel self E), bucket_here|].
    intros ? s4 R4 W4 (v & (s3 & R3 & W3 & R34 & Hv) & ->).
    destruct (Z.eqb_spec lv (dec v)) as [He|He]; [|by apply Hretry; [etrans|]].
    apply r_ret; [done|]. intros s5 R5 W5. apply (lock_answer_mono _ s3); [by etrans|].
    by apply (answer_found s2 s3 cur lv v).
  - apply r_load; [done|]. intros s3 R3 W3. pose proof (label_ok_mono _ _ _ R3 W2 Hpc) as [Hn3 _].
    destruct (node_field _ _ LNext (Hn3 Hn) ltac:(set_solver)) as [next Hnx]. apply mget_lookup in Hnx.
    exists next. split; [done|]. assert (Hl3 : label_ok s3 (Some (next, lv))) by (by eapply label_ok_next).
    assert (R03 : grely s0 s3) by (by etrans). assert (Rs3 : grely s s3) by (by etrans).
    unfold validate_cur. destruct vld.
    + eapply r_bind; [done|by apply (ol_runlock stv tr dec L lfuel self E), bucket_here|].
      intros b s4 R4 W4 _. destruct b; [|by apply Hretry; [etrans|]].
      apply IH; [by etrans|done|]. by eapply label_ok_mono.
    + by apply IH.
Qed.

End search.

(** ** The two locks *)

Section locks.
Context `{HC : Calloc} (stv : Z -> Z) (tr : Z -> Prop) (dec : Z -> Z) (lfuel : nat).
#[local] Instance locks_stamp : Stamp := lock_stamp stv tr.
Context (self : Z) (E : err -> Prop) (HE : E OutOfFuel).

Abbreviation rwp := (wp E grely (rguar self)).

(** Reading the lock of a bucket. *)
Lemma r_lock {A} i (k : Z -> prog A) (Q : A -> gcfg -> Prop) s :
  gwf s -> is_Some (bk (cg s) !! i) ->
  (forall s1 v, grely s s1 -> gwf s1 -> lock_at s1 i v -> rwp (k v) Q s1) ->
  rwp (load (LLock i) ≫= k) Q s.
Proof.
  intros W Hi Hk. apply r_load; [done|]. intros s1 R W1.
  destruct (ev_dom _ _ (proj2 R W) i Hi) as [xs Hxs].
  destruct (inv_head _ _ (proj2 W1) _ _ Hxs) as [_ [v Hv]]. exists v.
  split; [by apply mget_lookup|]. auto.
Qed.

(** Fence, load, compare: [lock_runlock]. *)
Lemma r_check (f : Z -> Z) b i lv s : gwf s -> is_Some (bk (cg s) !! i) ->
  rwp (fence b;; sqtmp ← load (LLock i); Ret (lv =? f sqtmp))
    (fun b s2 => exists v, lock_read stv tr s s2 i v /\ b = (lv =? f v)) s.
Proof.
  intros W Hi. apply r_fence; [done|]. intros s1 R1 W1.
  apply r_lock; [done|exact (ev_dom _ _ (proj2 R1 W) i Hi)|].
  intros s2 v R2 W2 Hv. apply r_ret; [done|]. intros s3 R3 W3. exists v. split; [|done].
  exists s2. split_and!; [by etrans|done..].
Qed.

End locks.

Lemma i64_dec v w : 0 <= v < word64 - 1 -> 0 <= w < word64 - 1 -> i64 v = i64 w -> v = w.
Proof. intros ? ?. apply i64_inj; lia. Qed.

(** The loop of [lock_rlock] ends on an even value. *)
Lemma seq_rlock_loop `{HC : Calloc} self (E : err -> Prop) i : E OutOfFuel -> forall n s,
  gwf s -> is_Some (bk (cg s) !! i) ->
  wp E (grely (H := seq_stamp)) (rguar self) (Seq.rlock_loop n (LLock i))
    (fun lv s2 => exists v, lock_read (fun v => v) (fun v => Z.odd v = false) s s2 i v /\
       Z.odd v = false /\ lv = i64 v) s.
Proof.
  intros HE. induction n as [|n IH]; intros s W Hi; [exact HE|]. cbn [Seq.rlock_loop].
  apply r_lock; [done|done|]. intros s1 v R1 W1 Hv. apply r_fence; [done|]. intros s2 R2 W2.
  destruct (Z.odd (i64 v)) eqn:Ho.
  - assert (R : grely s s2) by (by etrans).
    eapply wp_post; [apply IH; [done|exact (ev_dom _ _ (proj2 R W) i Hi)]|].
    cbn beta. intros lv s3 (w & (s4 & R4 & ?) & Hw). exists w. split; [|done].
    exists s4. split; [by etrans|done].
  - apply r_ret; [done|]. intros s3 R3 W3. exists v. rewrite odd_i64 in Ho. split; [|done].
    exists s1. split_and!; [done|done|by etrans|done].
Qed.

#[export] Instance seq_opt_lock `{HC : Calloc} one_writer no_wr_br lfuel self (E : err -> Prop) : E OutOfFuel ->
  OptLock (fun v => v) (fun v => Z.odd v = false) i64 (Seq.ops one_writer no_wr_br) lfuel self E.
Proof.
  intros HE. split; [exact i64_dec| | |].
  - intros i s W Hi. cbn [lock_rlock Seq.ops]. unfold Seq.lock_rlock.
    eapply r_bind; [done|by apply seq_rlock_loop|]. cbn beta.
    intros lv s1 R1 W1 (v & (s2 & R2 & W2 & R21 & Hv) & Ht & ->).
    apply r_fence; [done|]. intros s3 R3 W3. apply r_ret; [done|]. intros s4 R4 W4.
    exists v. split; [|done]. exists s2. split_and!; [done|done| |done]. etrans; [done|]. by etrans.
  - intros i lv s W Hi. by apply (r_check _ _ self E i64).
  - intros i lv s W Hi. eapply wp_post; [by apply (r_check _ _ self E i64)|done].
Qed.

(** What a reader keeps of a generation lock. *)
Definition gc_dec (one_writer : bool) (v : Z) : Z := i64 (gen one_writer v).

Lemma gc_dec_inj one_writer v w : 0 <= v < word64 - 1 -> 0 <= w < word64 - 1 ->
  gc_dec one_writer v = gc_dec one_writer w -> gen one_writer v = gen one_writer w.
Proof.
  assert (Hr : forall v, 0 <= v < word64 - 1 -> 0 <= gen one_writer v < word64).
  { intros u Hu. destruct one_writer; cbn [gen]; [lia|]. rewrite Z.shiftr_div_pow2 by lia.
    change (2 ^ 1) with 2. split; [apply Z.div_pos; lia|apply Z.div_lt_upper_bound; lia]. }
  intros Hv Hw. apply i64_inj; auto.
Qed.

#[export] Instance gc_opt_lock `{HC : Calloc} one_writer no_wr_br lfuel self E :
  OptLock (gen one_writer) (fun _ => True) (gc_dec one_writer) (Gc.ops one_writer no_wr_br) lfuel self E.
Proof.
  split; [apply gc_dec_inj| | |].
  - intros i s W Hi. cbn [lock_rlock Gc.ops].
    destruct one_writer; unfold Gc.lock_rlock, Gc.lock_rlock_mw; (apply r_lock; [done|done|]);
      intros s1 v R1 W1 Hv.
    + apply r_fence; [done|]. intros s2 R2 W2. apply r_fence; [done|]. intros s3 R3 W3.
      apply r_ret; [done|]. intros s4 R4 W4. exists v. split; [|done]. exists s1.
      split_and!; [done|done| |done]. etrans; [done|]. by etrans.
    + apply r_ret; [done|]. intros s2 R2 W2. exists v. split; [|done]. by exists s1.
  - intros i lv s W Hi. cbn [lock_runlock Gc.ops].
    destruct one_writer; [by apply (r_check _ _ self E (gc_dec true))|by apply (r_check _ _ self E (gc_dec false))].
  - intros i lv s W Hi. cbn [lock_validate Gc.ops]. destruct one_writer; [|by apply wp_ret].
    eapply wp_post; [by apply (r_check _ _ self E (gc_dec true))|done].
Qed.

(** Every search is linearizable, at the stamp of its lock. *)
Lemma lock_search_ok `{HC : Calloc} stv tr dec L lfuel vld self E fuel key i s :
  E OutOfFuel -> OptLock stv tr dec L lfuel self E ->
  gwf s -> is_Some (bk (cg s) !! i) ->
  wp E (grely (H := lock_stamp stv tr)) (rguar self)
    (@ListLock.search L vld lfuel fuel self key (LHead i) (LLock i))
    (fun b s' => nowrap (H := lock_stamp stv tr) (ctr s') -> lin s s' i key b) s.
Proof.
  intros HE OL W Hi. exact (lock_search_loop_ok stv tr dec L lfuel self E HE vld s i key W Hi fuel None s
    (reflexivity s) W I).
Qed.
