(* ===== verification/Mutex.v ===== *)
(** * The write locks exclude each other

    The three locks of lock.h that are written with atomic operations,
    [LOCK_CLASSIC] and the ones of [SEQLOCK] and [GCLOCK] for several writers,
    taken around the increment of a shared variable by any number of threads:
    in every interleaving no increment is lost, the check of [lock_unlock] never
    aborts and the assertion of [lock_wlock] never fails. *)
From S2P Require Import Prelude Mem Concrete Schedules RG SWP Table TableFacts Frozen Allocator ListOps Stamp ListWriter AllocState Lock ListLock LockWriter.

(** A thread: [rounds] times the increment of [data] under the lock. *)
Fixpoint increments (lk ul : prog unit) (data : loc) (rounds : nat) : prog unit :=
  match rounds with
  | O => Ret tt
  | S rounds =>
      lk;;
      v ← load data;
      store data (v + 1);;
      ul;;
      increments lk ul data rounds
  end.

(** The ghost state: who holds the lock, and what everybody has added. *)
Record mst : Set := Mst { holder : option nat; cnt : nat -> Z }.

Definition total (n : nat) (g : mst) : Z := foldr (fun t a => cnt g t + a) 0 (seq 0 n).

Definition add_cnt (t : nat) (g : mst) : mst :=
  Mst None (fun u => if decide (u = t) then cnt g u + 1 else cnt g u).

Lemma total_add n t g : (t < n)%nat -> total n (add_cnt t g) = total n g + 1.
Proof.
  assert (H : forall k a, foldr (fun u acc => cnt (add_cnt t g) u + acc) 0 (seq a k) =
    foldr (fun u acc => cnt g u + acc) 0 (seq a k) + (if decide (a <= t < a + k)%nat then 1 else 0)).
  { induction k as [|k IH]; intros a; cbn [seq foldr].
    - rewrite decide_False by lia. lia.
    - rewrite IH. unfold add_cnt at 1. cbn [cnt]. repeat case_decide; lia. }
  intros Ht. unfold total. rewrite H, decide_True by lia. done.
Qed.

(** What is known of the value of a lock that is held, or not. *)
Class ExclusivePred (lp : lock_pred) : Prop := lp_excl v : lp true v -> lp false v -> False.

Section mutex.
Context `{HC : Calloc} (lp : lock_pred) {EX : ExclusivePred lp} (L D : loc) (n : nat) (base : Z).
Context (HLD : L <> D) (E : err -> Prop).
Abbreviation mcfg := (cfg mst).

Definition minv (s : mcfg) : Prop :=
  exists v d, cm s !! L = Some v /\ lp (bool_decide (is_Some (holder (cg s)))) v /\
    cm s !! D = Some d /\ (holder (cg s) = None -> d = base + total n (cg s)) /\
    (forall t, holder (cg s) = Some t -> (t < n)%nat).

Definition mrely (t : nat) (s s' : mcfg) : Prop :=
  minv s -> minv s' /\ cnt (cg s') t = cnt (cg s) t /\
    (holder (cg s') = Some t <-> holder (cg s) = Some t) /\
    (holder (cg s) = Some t -> cm s' !! L = cm s !! L /\ cm s' !! D = cm s !! D /\
       total n (cg s') = total n (cg s)).

Definition mguar (t : nat) (s s' : mcfg) : Prop :=
  (minv s -> minv s') /\ forall u, u <> t -> mrely u s s'.

#[export] Instance mrely_preorder t : PreOrder (mrely t).
Proof.
  split; [by intros s H|]. intros s1 s2 s3 H12 H23 H1.
  destruct (H12 H1) as (H2 & Hc2 & Hh2 & Hk2). destruct (H23 H2) as (H3 & Hc3 & Hh3 & Hk3).
  split; [done|]. split; [congruence|]. split; [by rewrite Hh3|]. intros Hh.
  destruct (Hk2 Hh) as (-> & -> & ->) in Hk3 |- *. apply Hk3. by apply Hh2.
Qed.

(** The lock is mine and [data] is [k] ahead of the count. *)
Definition mine (t : nat) (k : Z) (s : mcfg) : Prop :=
  minv s /\ holder (cg s) = Some t /\ cm s !! D = Some (base + total n (cg s) + k).

(** The lock is not mine, and I have counted [c]. *)
Definition outside (t : nat) (c : Z) (s : mcfg) : Prop :=
  minv s /\ holder (cg s) <> Some t /\ cnt (cg s) t = c.

Lemma mine_stable t k s s' : mrely t s s' -> mine t k s -> mine t k s' /\ cm s' !! L = cm s !! L.
Proof.
  intros R (Hi & Hh & Hd). destruct (R Hi) as (Hi' & _ & Hh' & Hk). destruct (Hk Hh) as (HL & HD & HT).
  split; [|done]. split; [done|]. split; [by apply Hh'|]. by rewrite HD, HT.
Qed.

Lemma outside_stable t c s s' : mrely t s s' -> outside t c s -> outside t c s'.
Proof.
  intros R (Hi & Hh & Hc). destruct (R Hi) as (Hi' & Hc' & Hh' & _).
  split; [done|]. split; [by rewrite Hh'|congruence].
Qed.

(** ** Steps *)

Lemma mguar_same t s : mguar t s (next_cfg s (cm s) (cg s)).
Proof. split; [done|]. by intros u _ H. Qed.

Abbreviation mwp t := (wp E (mrely t) (mguar t)).

Lemma m_load {A} t l (k : Z -> prog A) (Q : A -> mcfg -> Prop) s : minv s -> (l = L \/ l = D) ->
  (forall s1 v, mrely t s s1 -> minv s1 -> cm s1 !! l = Some v -> mwp t (k v) Q s1) ->
  mwp t (load l ≫= k) Q s.
Proof.
  intros Hi Hl Hk s1 R. destruct (R Hi) as [Hi1 _]. pose proof Hi1 as (v & d & HL & _ & HD & _ & _).
  assert (Hv : exists w, cm s1 !! l = Some w) by (destruct Hl as [-> | ->]; eauto).
  destruct Hv as [w Hw]. cbn. rewrite (mget_lookup _ _ _ Hw). cbn. exists (cg s1).
  split; [apply mguar_same|]. by apply Hk.
Qed.

(** What a thread may do to the lock and the count at once. *)
Lemma mguar_lock t s v g' : minv s -> lp (bool_decide (is_Some (holder g'))) v ->
  (holder g' = None -> cm s !! D = Some (base + total n g')) ->
  (t < n)%nat -> (forall u, u <> t -> cnt g' u = cnt (cg s) u) ->
  (holder (cg s) = None /\ holder g' = Some t \/ holder (cg s) = Some t /\ holder g' = None) ->
  mguar t s (next_cfg s (<[L := v]> (cm s)) g').
Proof.
  intros Hi Hv Hd Ht Hc Hh. pose proof Hi as (w & d & HL & _ & HD & _ & _).
  assert (Hi' : minv (next_cfg s (<[L := v]> (cm s)) g')).
  { exists v, d. cbn. split; [apply lookup_insert_eq|]. split; [done|].
    split; [by rewrite lookup_insert_ne|]. split.
    - intros Hn. specialize (Hd Hn). congruence.
    - intros u Hu. destruct Hh as [[_ Hh]|[_ Hh]]; congruence. }
  split; [done|]. intros u Hu _. split; [done|]. split; [by apply Hc|]. cbn [cg next_cfg].
  destruct Hh as [[-> ->]|[-> ->]]; split; (split; congruence) || congruence.
Qed.

(** Taking the lock. *)
Lemma m_take t c s v w : (t < n)%nat -> outside t c s -> cm s !! L = Some v -> lp false v -> lp true w ->
  let s' := next_cfg s (<[L := w]> (cm s)) (Mst (Some t) (cnt (cg s))) in
  mguar t s s' /\ mine t 0 s' /\ cnt (cg s') t = c.
Proof.
  intros Ht (Hi & Hh & Hc) HL Hf Hw. pose proof Hi as (v' & d & HL' & Hlp & HD & Hd & _).
  rewrite HL in HL'. injection HL' as <-.
  assert (Hnone : holder (cg s) = None).
  { destruct (holder (cg s)); [|done]. exfalso. by eapply lp_excl. }
  specialize (Hd Hnone). set (g' := Mst (Some t) (cnt (cg s))).
  assert (Hg : mguar t s (next_cfg s (<[L := w]> (cm s)) g')) by (apply mguar_lock; auto; by intros ? ).
  split; [exact Hg|]. split; [|done]. split; [by apply Hg|]. split; [done|]. cbn.
  rewrite lookup_insert_ne by done. rewrite HD, Hd. f_equal. unfold total, g'. cbn. lia.
Qed.

(** Releasing it. *)
Lemma m_release t s v : (t < n)%nat -> mine t 1 s -> lp false v ->
  let s' := next_cfg s (<[L := v]> (cm s)) (add_cnt t (cg s)) in
  mguar t s s' /\ outside t (cnt (cg s) t + 1) s'.
Proof.
  intros Ht (Hi & Hh & Hd) Hv s'.
  assert (Hg : mguar t s s').
  { apply mguar_lock; [done|done| |done| |by right].
    - intros _. rewrite Hd, total_add by done. f_equal. lia.
    - intros u Hu. cbn. by rewrite decide_False. }
  split; [exact Hg|]. split; [by apply Hg|]. split; [done|]. cbn. by rewrite decide_True.
Qed.

(** Writing [data]. *)
Lemma m_store {A} t (k : unit -> prog A) (Q : A -> mcfg -> Prop) s c :
  mine t 0 s -> cnt (cg s) t = c ->
  (forall s1, mine t 1 s1 -> cnt (cg s1) t = c -> mwp t (k tt) Q s1) ->
  mwp t (v ← load D; store D (v + 1) ≫= k) Q s.
Proof.
  intros Hm Hc Hk. apply m_load; [apply Hm|by right|]. intros s1 v R1 Hi1 Hv.
  destruct (mine_stable _ _ _ _ R1 Hm) as [Hm1 _]. destruct (R1 (proj1 Hm)) as (_ & Hc1 & _).
  pose proof Hm1 as (_ & _ & Hd). rewrite Hv in Hd. injection Hd as ->.
  intros s2 R2. destruct (mine_stable _ _ _ _ R2 Hm1) as [Hm2 _]. destruct (R2 Hi1) as (Hi2 & Hc2 & _).
  pose proof Hm2 as (_ & Hh2 & Hd2). cbn. rewrite (mget_lookup _ _ _ Hd2). cbn.
  set (w := _ + 0 + 1). set (s3 := next_cfg s2 (<[D := w]> (cm s2)) (cg s2)).
  assert (Hi3 : minv s3).
  { destruct Hi2 as (v & d & HL & Hlp & _ & _ & Hn). exists v, w. cbn.
    split; [by rewrite lookup_insert_ne|]. split; [done|]. split; [apply lookup_insert_eq|]. split; [congruence|done]. }
  exists (cg s2). split; [split; [done|]|].
  - intros u Hu _. split; [done|]. split; [done|]. split; [done|]. cbn. congruence.
  - apply Hk; [|cbn; congruence]. split; [done|]. split; [done|]. cbn. rewrite lookup_insert_eq.
    f_equal. unfold w. destruct (R2 Hi1) as (_ & _ & _ & Hk2). destruct Hm1 as (_ & Hh1 & _).
    destruct (Hk2 Hh1) as (_ & _ & ->). lia.
Qed.

(** ** The interface of a lock, and its client *)

Class Mutex (lk ul : prog unit) : Prop := {
  mx_lock t c s : (t < n)%nat -> outside t c s -> mwp t lk (fun _ s' => mine t 0 s' /\ cnt (cg s') t = c) s;
  mx_unlock t c s : (t < n)%nat -> mine t 1 s -> cnt (cg s) t = c ->
    mwp t ul (fun _ s' => outside t (c + 1) s') s }.

Lemma increments_ok lk ul `{!Mutex lk ul} t : (t < n)%nat -> forall rounds c s, outside t c s ->
  mwp t (increments lk ul D rounds) (fun _ s' => outside t (c + Z.of_nat rounds) s') s.
Proof.
  intros Ht. induction rounds as [|r IH]; intros c s Ho; cbn [increments].
  { intros s' R. rewrite Z.add_0_r. by eapply outside_stable. }
  eapply wp_bind; [apply _|]. eapply wp_post; [by apply mx_lock|]. cbn beta. intros _ s1 [Hm Hc].
  apply m_store with (c := c); [done|done|]. intros s2 Hm2 Hc2.
  eapply wp_bind; [apply _|]. eapply wp_post; [by apply mx_unlock|]. cbn beta. intros _ s3 Ho3.
  replace (c + Z.of_nat (S r)) with (c + 1 + Z.of_nat r) by lia. by apply IH.
Qed.

End mutex.

(** ** The three locks *)

#[export] Instance classic_excl : ExclusivePred classic_lock.
Proof. intros v H1 H2. unfold classic_lock in *. congruence. Qed.

#[export] Instance odd_excl : ExclusivePred odd_lock.
Proof. intros v [_ H1] [_ H2]. congruence. Qed.

Section locks.
Context `{HC : Calloc} (L D : loc) (n : nat) (base : Z) (HLD : L <> D) (E : err -> Prop) (HE : E OutOfFuel).

#[export] Instance classic_mutex fuel :
  Mutex classic_lock L D n base E (Classic.lock_lock fuel L) (Classic.lock_unlock L).
Proof.
  split.
  - intros t c s Ht. revert s. induction fuel as [|fuel IH]; intros s Ho; [exact HE|].
    cbn [Classic.lock_lock]. intros s1 R. pose proof (outside_stable _ _ _ _ _ _ _ _ _ R Ho) as Ho1.
    pose proof Ho1 as ((v & d & HL & Hv & _) & _). cbn. rewrite (mget_lookup _ _ _ HL). cbn.
    destruct (Z.eqb_spec v 0) as [->|Hne].
    + destruct (m_take classic_lock L D n base HLD t c s1 0 1) as (Hg & Hm & Hc); [done..|].
      eexists. split; [exact Hg|]. intros s2 R2. split; [by eapply mine_stable|].
      destruct (R2 (proj1 Hm)) as (_ & -> & _). done.
    + assert (v = 1) as -> by (unfold classic_lock in Hv; by case_bool_decide).
      exists (cg s1). rewrite insert_id by done. split; [apply mguar_same|]. by apply IH.
  - intros t c s Ht Hm Hc. unfold Classic.lock_unlock.
    apply m_load; [apply Hm|by left|]. intros s1 v R1 Hi1 Hv.
    destruct (mine_stable _ _ _ _ _ _ _ _ _ R1 Hm) as [Hm1 _]. destruct (R1 (proj1 Hm)) as (_ & Hc1 & _).
    pose proof Hm1 as ((v' & d & HL & Hlp & _) & Hh & _). rewrite Hv in HL. injection HL as <-.
    rewrite Hh in Hlp. assert (v = 1) as -> by exact Hlp. cbn [Z.eqb negb].
    intros s2 R2. destruct (mine_stable _ _ _ _ _ _ _ _ _ R2 Hm1) as [Hm2 HL2].
    destruct (R2 Hi1) as (_ & Hc2 & _). cbn. rewrite (mget_lookup _ _ 1) by congruence. cbn.
    destruct (m_release classic_lock L D n base HLD t s2 0) as [Hg Ho]; [done..|].
    eexists. split; [exact Hg|]. intros s3 R3. eapply outside_stable; [exact R3|].
    by rewrite <- Hc, <- Hc1, <- Hc2.
Qed.

(** Reading the lock, then taking it with a compare-and-swap; the assertion
    holds. *)
Lemma m_cas t c v s1 s2 : (t < n)%nat -> outside odd_lock L D n base t c s1 -> cm s1 !! L = Some v ->
  Z.odd v = false -> mrely odd_lock L D n base t s1 s2 ->
  exists w, op_exec (CmpXchg L v (u64 (v + 1))) (cm s2) =
      Some (w, if decide (w = v) then <[L := u64 (v + 1)]> (cm s2) else cm s2) /\
    (w = v -> let s3 := next_cfg s2 (<[L := u64 (v + 1)]> (cm s2)) (Mst (Some t) (cnt (cg s2))) in
       mguar odd_lock L D n base t s2 s3 /\ mine odd_lock L D n base t 0 s3 /\ cnt (cg s3) t = c) /\
    outside odd_lock L D n base t c s2.
Proof.
  intros Ht Ho HL Hodd R. pose proof (outside_stable _ _ _ _ _ _ _ _ _ R Ho) as Ho2.
  pose proof Ho2 as ((w & d & HL2 & [Hr Hw] & _) & _). exists w. cbn. rewrite (mget_lookup _ _ _ HL2).
  split; [done|]. split; [|done]. intros ->.
  assert (Hf : odd_lock false v) by (by split).
  apply (m_take odd_lock L D n base HLD t c s2 v); [done|done|done|done|exact (odd_lock_succ _ _ Hf)].
Qed.

Lemma m_assert_odd t c s : mine odd_lock L D n base t 0 s -> cnt (cg s) t = c ->
  wp E (mrely odd_lock L D n base t) (mguar odd_lock L D n base t)
    (v ← load L; c_assert (Z.odd v))
    (fun _ s' => mine odd_lock L D n base t 0 s' /\ cnt (cg s') t = c) s.
Proof.
  intros Hm Hc. apply m_load; [apply Hm|by left|]. intros s1 v R1 Hi1 Hv.
  destruct (mine_stable _ _ _ _ _ _ _ _ _ R1 Hm) as [Hm1 _]. destruct (R1 (proj1 Hm)) as (_ & Hc1 & _).
  pose proof Hm1 as ((v' & d & HL & [_ Hlp] & _) & Hh & _). rewrite Hv in HL. injection HL as <-.
  rewrite Hh in Hlp. cbn in Hlp. rewrite Hlp. intros s2 R2. split; [by eapply mine_stable|].
  destruct (R2 Hi1) as (_ & -> & _). congruence.
Qed.

Lemma m_xadd_unlock t c s : (t < n)%nat -> mine odd_lock L D n base t 1 s -> cnt (cg s) t = c ->
  wp E (mrely odd_lock L D n base t) (mguar odd_lock L D n base t)
    (_ ← atomic_xadd4 L 1; Ret tt) (fun _ s' => outside odd_lock L D n base t (c + 1) s') s.
Proof.
  intros Ht Hm Hc s1 R1. destruct (mine_stable _ _ _ _ _ _ _ _ _ R1 Hm) as [Hm1 _].
  destruct (R1 (proj1 Hm)) as (_ & Hc1 & _). pose proof Hm1 as ((v & d & HL & Hlp & _) & Hh & _).
  rewrite Hh in Hlp. cbn. rewrite (mget_lookup _ _ _ HL). cbn.
  destruct (m_release odd_lock L D n base HLD t s1 (u64 (v + 1))) as [Hg Ho]; [done|done|exact (odd_lock_succ _ _ Hlp)|].
  eexists. split; [exact Hg|]. intros s2 R2. eapply outside_stable; [exact R2|]. by rewrite <- Hc, <- Hc1.
Qed.

(** One turn of the loop of [lock_wlock]. *)
Lemma m_try (f : Z -> Z) t c s (again : prog unit) (Q : unit -> cfg mst -> Prop) : (t < n)%nat ->
  (forall z, Z.odd z = false -> f z = z + 1) -> outside odd_lock L D n base t c s ->
  (forall s', outside odd_lock L D n base t c s' ->
     wp E (mrely odd_lock L D n base t) (mguar odd_lock L D n base t) again Q s') ->
  (forall s', mine odd_lock L D n base t 0 s' -> cnt (cg s') t = c -> Q tt s') ->
  wp E (mrely odd_lock L D n base t) (mguar odd_lock L D n base t)
    (v ← load L;
     if Z.odd (i64 v) then again else
     sqsucc ← sync_bool_cas L (u64 (i64 v)) (u64 (f (i64 v)));
     if (sqsucc : bool) then Ret tt else again) Q s.
Proof.
  intros Ht Hf Ho Hagain HQ. apply m_load; [apply Ho|by left|]. intros s1 v R1 Hi1 Hv.
  pose proof (outside_stable _ _ _ _ _ _ _ _ _ R1 Ho) as Ho1. rewrite odd_i64.
  destruct (Z.odd v) eqn:Hodd; [by apply Hagain|].
  assert (Hr : 0 <= v < word64).
  { destruct Hi1 as (v' & d & HL & [Hr _] & _). rewrite Hv in HL. by injection HL as <-. }
  rewrite Hf, u64_i64 by (by rewrite odd_i64). rewrite <- (Z.add_0_r (i64 v)), u64_i64, Z.add_0_r, u64_small by done.
  intros s2 R2. destruct (m_cas t c v s1 s2) as (w & -> & Htake & Ho2); [done..|].
  destruct (Z.eqb_spec w v) as [->|Hne].
  - destruct (Htake eq_refl) as (Hg & Hm & Hc). rewrite decide_True by done. eexists. split; [exact Hg|].
    cbn. rewrite Z.eqb_refl. intros s3 R3. apply HQ; [by eapply mine_stable|].
    destruct (R3 (proj1 Hm)) as (_ & -> & _). done.
  - rewrite decide_False by done. exists (cg s2). split; [apply mguar_same|].
    cbn. rewrite (proj2 (Z.eqb_neq w v)) by done. by apply Hagain.
Qed.

#[export] Instance seq_mutex fuel :
  Mutex odd_lock L D n base E (Seq.lock_wlock_mw fuel L) (Seq.lock_wunlock_mw L).
Proof.
  split; [|intros; by apply m_xadd_unlock].
  intros t c s Ht Ho. unfold Seq.lock_wlock_mw. eapply wp_bind; [apply _|].
  revert s Ho. induction fuel as [|fuel IH]; intros s Ho; [exact HE|]. cbn [Seq.wlock_loop].
  apply (m_try (fun z => z + 1) t c); [done|done|done|exact IH|]. intros. by apply m_assert_odd.
Qed.

#[export] Instance gc_mutex fuel :
  Mutex odd_lock L D n base E (Gc.lock_wlock_mw fuel L) (Gc.lock_wunlock_mw L).
Proof.
  split; [|intros; by apply m_xadd_unlock].
  intros t c s Ht Ho. unfold Gc.lock_wlock_mw. eapply wp_bind; [apply _|].
  revert s Ho. induction fuel as [|fuel IH]; intros s Ho; [exact HE|]. cbn [Gc.wlock_loop].
  apply (m_try (fun z => Z.lor z 1) t c); [done|exact lor_1_even|done|exact IH|]. intros. by apply m_assert_odd.
Qed.

End locks.

(** ** The theorem *)

Inductive write_lock := ClassicLock | SeqLock | GcLock.

Definition wl_init (k : write_lock) : loc -> prog unit :=
  match k with ClassicLock => Classic.lock_init | SeqLock => Seq.lock_init | GcLock => Gc.lock_init end.
Definition wl_lock (k : write_lock) : nat -> loc -> prog unit :=
  match k with ClassicLock => Classic.lock_lock | SeqLock => Seq.lock_wlock_mw | GcLock => Gc.lock_wlock_mw end.
Definition wl_unlock (k : write_lock) : loc -> prog unit :=
  match k with ClassicLock => Classic.lock_unlock | SeqLock => Seq.lock_wunlock_mw | GcLock => Gc.lock_wunlock_mw end.
Definition wl_pred (k : write_lock) : lock_pred :=
  match k with ClassicLock => classic_lock | _ => odd_lock end.

(** A thread for each element of [rounds]. *)
Definition counting (k : write_lock) (fuel : nat) (lock data : loc) (rounds : list nat) : list (prog unit) :=
  increments (wl_lock k fuel lock) (wl_unlock k lock) data <$> rounds.

#[export] Instance wl_excl k : ExclusivePred (wl_pred k).
Proof. destruct k; apply _. Qed.

Lemma wl_mutex `{HC : Calloc} k L D n base (E : err -> Prop) fuel : L <> D -> E OutOfFuel ->
  Mutex (wl_pred k) L D n base E (wl_lock k fuel L) (wl_unlock k L).
Proof. intros ? ?. destruct k; [by apply classic_mutex|by apply seq_mutex|by apply gc_mutex]. Qed.

Lemma wl_init_run `{HC : Calloc} k L m m0 : run (wl_init k L) m = Ok tt m0 ->
  m0 = <[L := 0]> m /\ wl_pred k false 0.
Proof.
  intros Hr. split; [|destruct k; by vm_compute].
  assert (H : run (store L 0;; memory_barrier) m = Ok tt m0) by (by destruct k).
  cbn in H. destruct (mget m L); [|done]. cbn in H. congruence.
Qed.

(** A sum over the threads. *)
Lemma total_rounds g rounds : (forall t r, rounds !! t = Some r -> cnt g t = Z.of_nat r) ->
  total (length rounds) g = Z.of_nat (sum_list rounds).
Proof.
  assert (H : forall l a, (forall t r, l !! t = Some r -> cnt g (a + t)%nat = Z.of_nat r) ->
    foldr (fun u acc => cnt g u + acc) 0 (seq a (length l)) = Z.of_nat (sum_list l)).
  { induction l as [|r l IH]; intros a Hl; [done|]. cbn [length seq foldr sum_list].
    rewrite IH; [|intros t r' Ht; rewrite <- (Hl (S t) r' Ht); f_equal; lia].
    rewrite <- (Nat.add_0_r a) at 1. rewrite (Hl 0%nat r eq_refl). cbn. lia. }
  intros Hc. exact (H rounds 0%nat Hc).
Qed.

Section theorem.
Context `{HC : Calloc} (k : write_lock) (fuel : nat) (L D : loc) (HLD : L <> D) (rounds : list nat) (base : Z).
Abbreviation E0 := (fun e => e = OutOfFuel).
Abbreviation n := (length rounds).

Definition count_ts (t r : nat) : thread_spec mst unit :=
  ThreadSpec _ E0 (mrely (wl_pred k) L D n base t) (mguar (wl_pred k) L D n base t)
    (fun _ s => outside (wl_pred k) L D n base t (Z.of_nat r) s).

Lemma counting_run m m0 tr ps m' : m !! D = Some base -> run (wl_init k L) m = Ok tt m0 ->
  psteps (counting k fuel L D rounds, m0) tr (ps, m') ->
  exists g, let s := Cfg m' (tr ++ [m0]) g in
    minv (wl_pred k) L D n base s /\ Forall2 (fun ts p => ts_wp ts p s) (imap count_ts rounds) ps.
Proof.
  intros HD Hr Hps. destruct (wl_init_run k L m m0 Hr) as [-> Hfree].
  set (s0 := Cfg (<[L:=0]> m) [<[L:=0]> m] (Mst None (fun _ => 0))).
  assert (Hi : minv (wl_pred k) L D n base s0).
  { exists 0, base. cbn. split; [apply lookup_insert_eq|]. split; [done|].
    split; [by rewrite lookup_insert_ne|]. split; [|done]. intros _.
    assert (H0 : forall l, foldr (fun (u : nat) (a : Z) => 0 + a) 0 l = 0) by (induction l; [done|by cbn in *; lia]).
    unfold total. cbn [cnt]. rewrite H0. lia. }
  destruct (wp_pool (fun s s' => minv (wl_pred k) L D n base s -> minv (wl_pred k) L D n base s')
    (imap count_ts rounds) (counting k fuel L D rounds) ps s0 tr m') as (g & HR & Hf).
  - split; [by intros s|]. intros s1 s2 s3 H12 H23 H. auto.
  - intros ts (t & Hts)%list_elem_of_lookup_1 s1 s2 Hg.
    rewrite list_lookup_imap in Hts. destruct (rounds !! t); simplify_eq/=. apply Hg.
  - intros i j ti tj Hti Htj Hne s1 s2 Hg. rewrite list_lookup_imap in Hti, Htj.
    destruct (rounds !! i), (rounds !! j); simplify_eq/=. apply Hg. congruence.
  - intros ts (t & Hts)%list_elem_of_lookup_1. rewrite list_lookup_imap in Hts.
    destruct (rounds !! t); simplify_eq/=. apply mrely_preorder.
  - intros ts (t & Hts)%list_elem_of_lookup_1. rewrite list_lookup_imap in Hts.
    by destruct (rounds !! t); simplify_eq/=.
  - apply Forall2_same_length_lookup. unfold counting. rewrite length_imap, length_fmap. split; [done|].
    intros t ts p Hts Hp. rewrite list_lookup_imap in Hts. rewrite list_lookup_fmap in Hp.
    destruct (rounds !! t) as [r|] eqn:Hrt; simplify_eq/=. unfold ts_wp. cbn.
    pose proof (lookup_lt_Some _ _ _ Hrt).
    eapply wp_post; [apply (increments_ok (wl_pred k) L D n base HLD E0 _ _
      (Mutex0 := wl_mutex k L D n base E0 fuel HLD eq_refl) t ltac:(done) r 0)|].
    + by split_and!.
    + done.
  - exact Hps.
  - exists g. cbv zeta. split; [by apply HR|done].
Qed.

(** C19: threads that increment a variable under one of the write locks
    lose no increment, whatever the interleaving; [lock_unlock] never aborts
    and the assertion after the loop of [lock_wlock] never fails. *)
Theorem write_locks_exclude m m0 tr ps m' : m !! D = Some base -> run (wl_init k L) m = Ok tt m0 ->
  psteps (counting k fuel L D rounds, m0) tr (ps, m') ->
  (forall t e, ps !! t = Some (Crash e) -> e = OutOfFuel) /\
  (Forall (fun p => p = Ret tt) ps -> m' !! D = Some (base + Z.of_nat (sum_list rounds))).
Proof.
  intros HD Hr Hps. destruct (counting_run _ _ _ _ _ HD Hr Hps) as (g & Hi & Hf). split.
  - intros t e He. destruct (Forall2_lookup_r _ _ _ _ _ Hf He) as (ts & Hts & Hw).
    rewrite list_lookup_imap in Hts. by destruct (rounds !! t); simplify_eq/=.
  - intros Hall. assert (Hout : forall t r, rounds !! t = Some r ->
      outside (wl_pred k) L D n base t (Z.of_nat r) (Cfg m' (tr ++ [m0]) g)).
    { intros t r Ht. assert (Hts : imap count_ts rounds !! t = Some (count_ts t r)) by (by rewrite list_lookup_imap, Ht).
      destruct (Forall2_lookup_l _ _ _ _ _ Hf Hts) as (p & Hp & Hw).
      rewrite Forall_lookup in Hall. rewrite (Hall _ _ Hp) in Hw. by apply Hw. }
    destruct Hi as (v & d & _ & _ & Hd & Hb & Hn). cbn in Hd, Hb, Hn. rewrite Hd, Hb.
    + rewrite (total_rounds g rounds); [done|]. intros t r Ht. by destruct (Hout t r Ht) as (_ & _ & Hc).
    + destruct (holder g) as [t|] eqn:Hh; [|done]. specialize (Hn t eq_refl).
      apply lookup_lt_is_Some_2 in Hn as [r Ht]. by destruct (Hout t r Ht) as (_ & Hne & _).
Qed.

End theorem.

(** Two threads that take turns. *)
Definition turns : list nat := concat (repeat [0%nat; 1%nat] 60).

Lemma write_locks_exclude_witness :
  let m := {[LLock 0 := 5; LHead 0 := 7]} : mem in
  let m0 := <[LLock 0 := 0]> m in
  exists tr ps m', psteps (counting GcLock 30 (LLock 0) (LHead 0) [2%nat; 1%nat], m0) tr (ps, m') /\
    Forall (fun p => p = Ret tt) ps /\ m' !! LHead 0 = Some (7 + 3).
Proof.
  intros m m0. set (ps0 := counting GcLock 30 (LLock 0) (LHead 0) [2%nat; 1%nat]).
  pose proof (sched_trace_psteps turns (ps0, m0) _ [] (psteps_refl _)) as Hps.
  assert (Hc : length (sched_trace turns (ps0, m0) []).1.1 = 2%nat /\
    returned ((sched_trace turns (ps0, m0) []).1.1 !! 0%nat) tt = true /\
    returned ((sched_trace turns (ps0, m0) []).1.1 !! 1%nat) tt = true) by (vm_compute; done).
  destruct (sched_trace turns (ps0, m0) []) as [[ps m'] tr]. cbn [fst snd] in Hc.
  destruct Hc as (Hl & H0%returned_spec & H1%returned_spec). exists tr, ps, m'.
  assert (Hall : Forall (fun p => p = Ret tt) ps).
  { destruct ps as [|p [|q [|]]]; try done. cbn in H0, H1. repeat constructor; congruence. }
  split; [exact Hps|]. split; [exact Hall|].
  destruct (write_locks_exclude GcLock 30 (LLock 0) (LHead 0) ltac:(done) [2%nat; 1%nat] 7 m m0 tr ps m'
    ltac:(vm_compute; reflexivity) ltac:(vm_compute; reflexivity) Hps) as [_ Hd]. by apply Hd.
Defined.
