(* ===== verification/ListHp.v ===== *)
(** * Hazard pointers (hp.c, hp.h, list_hp.c): code

    A reader announces the node it is about to use in one of its slots of [HP];
    an updater keeps the nodes it has unlinked in a list of zombies and, when
    there are enough of them, frees those that no slot announces ([scan]).
    [qsort] and [bsearch] are the C library's: [StdSort] is what [scan] uses of
    them, [StdSortOk] what the C standard promises. *)
From S2P Require Import Prelude Mem RG SWP Table TableFacts Allocator ListOps Lock ListWriter.

(** ** Parameters of the algorithm (hp.h) *)

Module Param.

Definition K : Z := 3.
Definition H : Z := K * MAX_THREAD.
(** [R (100 + (2 * (nbthreads * K)))], or 0 with [DIRECT_SCAN]; an
    [unsigned long] like [nbthreads]. *)
Definition R (direct_scan : bool) (nbthreads : Z) : Z :=
  if direct_scan then 0 else u64 (100 + 2 * (nbthreads * K)).

End Param.

(** ** The C library *)

Class StdSort := {
  qsort : (Z -> Z -> Z) -> list Z -> list Z;
  bsearch : (Z -> Z -> Z) -> Z -> list Z -> bool }.

(** [cmp] is a total order on the elements of [l]. *)
Definition orders (cmp : Z -> Z -> Z) (l : list Z) : Prop :=
  exists f : Z -> Z, forall a b, a ∈ l -> b ∈ l ->
    (cmp a b < 0 <-> f a < f b) /\ (cmp a b = 0 <-> f a = f b).

Definition sorted_by (cmp : Z -> Z -> Z) (l : list Z) : Prop :=
  StronglySorted (fun a b => cmp a b <= 0) l.

Class StdSortOk `{StdSort} : Prop := {
  qsort_ok cmp l : orders cmp l -> qsort cmp l ≡ₚ l /\ sorted_by cmp (qsort cmp l);
  bsearch_ok cmp x l : orders cmp (x :: l) -> sorted_by cmp l ->
    bsearch cmp x l = true <-> exists y, y ∈ l /\ cmp x y = 0 }.

(** ** hp.c *)

(** The difference of two [node_t *] counts nodes, of [CACHESIZE] bytes, and is
    returned as an [int]: it orders two nodes only when they are less than
    [2^37] bytes (128 GiB) apart. *)
Definition compare (a b : Z) : Z := i32 ((a - b) / CACHESIZE).

Section scan.
Context `{StdSort} (direct_scan : bool) (nbthreads : Z).

(** The cells of [malloc(sizeof(node_t * ) * K * nbthreads)]. *)
Definition cells : Z := u64 (8 * Param.K * nbthreads) / 8.

(** Stage 1 of [scan]: the non-null slots, from the slot [H - rest] on; a store
    past the last cell of [plist] is an error.  The slot is read twice. *)
Fixpoint collect (rest : nat) (plist : list Z) : prog (list Z) :=
  match rest with
  | O => Ret plist
  | S rest =>
      let i := Param.H - Z.of_nat (S rest) in
      p ← load (LHP i);
      if negb (p =? NULL) then
        p ← load (LHP i);
        if Z.of_nat (length plist) <? cells then collect rest (plist ++ [p])
        else Crash Segfault
      else collect rest plist
  end.

(** Stage 3: the zombies that are announced go back to the list. *)
Fixpoint free_zombies (afuel fuel : nat) (self thread : Z) (plist : list Z) (tmplist : Z) : prog unit :=
  match fuel with
  | O => Crash OutOfFuel
  | S fuel =>
      if tmplist =? NULL then Ret tt else
      let cur := tmplist in
      tmplist ← load (LMrNext tmplist);
      (if bsearch compare cur plist then
         p ← load (LZlistP thread);
         store (LMrNext cur) p;;
         store (LZlistP thread) cur;;
         number ← load (LZlistN thread);
         store (LZlistN thread) (i32 (number + 1))
       else free_node afuel self cur);;
      free_zombies afuel fuel self thread plist tmplist
  end.

Definition scan (fuel : nat) (self thread : Z) : prog unit :=
  store (LTls self Vnbblockeds) (Param.R direct_scan nbthreads);;
  write_write_barrier;;
  plist ← collect (Z.to_nat Param.H) [];
  let plist := qsort compare plist in
  tmplist ← load (LZlistP thread);
  store (LZlistP thread) NULL;;
  store (LZlistN thread) 0;;
  free_zombies fuel fuel self thread plist tmplist.

(** [++zl->number > R]: the [int] is converted to [unsigned long]. *)
Definition free_node_later (fuel : nat) (self thread node : Z) : prog unit :=
  p ← load (LZlistP thread);
  store (LMrNext node) p;;
  store (LZlistP thread) node;;
  number ← load (LZlistN thread);
  let number := i32 (number + 1) in
  store (LZlistN thread) number;;
  if Param.R direct_scan nbthreads <? u64 number then scan fuel self thread else Ret tt.

End scan.

Definition init_new_node (fuel : nat) (self : Z) : prog Z := new_node fuel self.

(** ** list_hp.c *)

Inductive hlabel :=
  | TryAgain (off : Z)
  | Loop (prev : loc) (cur off : Z).

Fixpoint search_loop (fuel : nat) (self base key : Z) (head : loc) (pc : hlabel) : prog Z :=
  match fuel with
  | O => Crash OutOfFuel
  | S fuel =>
      match pc with
      | TryAgain off =>
          cur ← load head;
          search_loop fuel self base key head (Loop head cur off)
      | Loop prev cur off =>
          if cur =? NULL then Ret 0 else
          store (LHP (base + off)) cur;;
          write_read_barrier;;
          v ← load prev;
          if negb (v =? cur) then
            incr_tls self Vnbretry;;
            search_loop fuel self base key head (TryAgain off)
          else
          c_assert (negb (Z.odd cur));;
          next ← load (LNext cur);
          k ← load (LKey cur);
          if key <=? k then
            k' ← load (LKey cur);
            Ret (found k' key)
          else
          let off := if off =? 0 then 1 else 0 in
          search_loop fuel self base key head (Loop (LNext cur) (clean_pointer next) off)
      end
  end.

Definition search (fuel : nat) (self key : Z) (head lock : loc) : prog Z :=
  thread ← load (LTls self Vthread);
  let base := i32 (thread * Param.K) in
  search_loop fuel self base key head (TryAgain 0).

(** ** The scheme of list_writer.c *)

Definition hp_inserter (fuel : nat) : Inserter := {|
  lock_wlock := OneWriter.lock_wlock;
  lock_wunlock := OneWriter.lock_wunlock false;
  ListWriter.init_new_node := init_new_node fuel |}.

Definition hp_scheme `{StdSort} (direct_scan : bool) (nbthreads : Z) (fuel : nat) : Scheme := {|
  scheme_inserter := hp_inserter fuel;
  unlock_before_free := false;
  ListWriter.free_node_later := free_node_later direct_scan nbthreads fuel |}.
