(* ===== verification/HpScan.v ===== *)
(** * What [scan] frees

    [scan] of hp.c frees the zombies that no hazard pointer announces and keeps
    the others.  Two assumptions are stated where they are needed: the nodes
    lie within 128 GiB of each other, as far as [compare] can tell them apart,
    and the slots in use are at most the [K * nbthreads] cells of the array
    [scan] copies them to ([scan_overflow] is what happens otherwise). *)
From S2P Require Import Prelude Mem RG SWP Table TableFacts Frozen Allocator ListOps Lock Stamp ListWriter ListHp.

(** ** The order of the hazard pointers *)

(** The address of a node, in a heap of which all nodes lie between [base] and
    128 GiB further up. *)
Definition addr_ok (base p : Z) : Prop := base <= p < base + 2 ^ 37 /\ p mod CACHESIZE = 0.

Lemma compare_addr base a b : addr_ok base a -> addr_ok base b ->
  (compare a b < 0 <-> a < b) /\ (compare a b = 0 <-> a = b).
Proof.
  unfold addr_ok, compare, CACHESIZE. intros [Ha Ha'] [Hb Hb'].
  pose proof (Z.div_mod a 64 ltac:(lia)). pose proof (Z.div_mod b 64 ltac:(lia)).
  replace (a - b) with ((a / 64 - b / 64) * 64) by lia. rewrite Z.div_mul by lia.
  rewrite i32_small by lia. lia.
Qed.

Lemma compare_orders base l : (forall p, p ∈ l -> addr_ok base p) -> orders compare l.
Proof. intros Hl. exists (fun a => a). intros a b Ha Hb. apply (compare_addr base); auto. Qed.

(** [bsearch] in the sorted list finds the addresses of the list. *)
Lemma in_plist `{StdSortOk} base x l : addr_ok base x -> (forall p, p ∈ l -> addr_ok base p) ->
  bsearch compare x (qsort compare l) = bool_decide (x ∈ l).
Proof.
  intros Hx Hl. destruct (qsort_ok compare l (compare_orders base l Hl)) as [Hp Hs].
  assert (Hq : forall p, p ∈ x :: qsort compare l -> addr_ok base p).
  { intros p [->|Hin]%elem_of_cons; [done|]. apply Hl. by rewrite <- Hp. }
  pose proof (bsearch_ok compare x (qsort compare l) (compare_orders base _ Hq) Hs) as Hb.
  case_bool_decide as Hin.
  - apply Hb. exists x. split; [by rewrite Hp|]. by apply (compare_addr base).
  - apply not_true_is_false. rewrite Hb. intros (y & Hy & Hc). rewrite Hp in Hy.
    apply (proj2 (compare_addr base x y Hx (Hl y Hy))) in Hc. by subst y.
Qed.

(** ** The zombies *)

(** The zombies of thread [t]; the allocator keeps track of them, of the nodes
    [U] of the table and of the nodes [F] that were given back to it. *)
Record hp_at (self t base : Z) (U : gset Z) (F : list Z) (m : mem) (zs : list Z) : Prop := {
  hz_own : alloc_tidy self (list_to_set zs ∪ U) F m;
  hz_path : path LMrNext m (LZlistP t) zs;
  hz_nodup : NoDup zs;
  hz_out n : n ∈ zs -> n ∉ U;
  hz_addr n : n ∈ zs -> addr_ok base n;
  hz_num : mget m (LZlistN t) = Some (Z.of_nat (length zs)) }.

(** The loop of stage 3: [xs] is still to do, [ks] was kept. *)
Record zombies_at (self t : Z) (U : gset Z) (F : list Z) (m : mem) (xs ks : list Z) : Prop := {
  za_own : alloc_tidy self (list_to_set (xs ++ ks) ∪ U) F m;
  za_todo : tail_path LMrNext m xs;
  za_path : path LMrNext m (LZlistP t) ks;
  za_nodup : NoDup (xs ++ ks);
  za_out n : n ∈ xs ++ ks -> n ∉ U;
  za_num : mget m (LZlistN t) = Some (Z.of_nat (length ks)) }.

Section scan.
Context (self t : Z) (Ht : 0 <= t < MAX_THREAD) (E : err -> Prop).
Abbreviation swp' := (swp (foreign self) E any_step).

Lemma zlist_mapped m : (exists p, mget m (LZlistP t) = Some p) /\ exists n, mget m (LZlistN t) = Some n.
Proof.
  assert (Hs : (0 <=? t) && (t <? MAX_THREAD) = true) by (apply andb_true_iff; split; [apply Z.leb_le|apply Z.ltb_lt]; lia).
  split; apply mget_static; exact Hs.
Qed.

Lemma alloc_tidy_node U F m n : alloc_tidy self U F m -> n ∈ U -> node m n.
Proof. intros (fl & gl & Ha & _). by apply (al_used _ _ _ _ _ Ha). Qed.

(** Writing outside of the allocator's own data. *)
Lemma alloc_tidy_store U F m l v : (match l with LMrNext q => q ∈ U | LZlistP _ | LZlistN _ => True | _ => False end) ->
  alloc_tidy self U F m -> alloc_tidy self U F (<[l:=v]> m).
Proof.
  intros Hl (fl & gl & [H1 H2 H3 H4 H5 H6 (t' & Ht1 & Ht2)] & (t2 & Ht3 & Ht4) & HF). exists fl, gl.
  assert (Hk : forall l', (l' = LTls self Vlfl \/ l' = LGlob Gfreelist \/ l' = LTls self Vlfl_tail \/
      exists x, x ∈ fl ++ gl /\ l' = LMrNext x) -> mget (<[l:=v]> m) l' = mget m l').
  { intros l' Hl'. apply mget_insert_ne. intros ->. destruct_or! Hl'; subst; try done.
    destruct Hl' as (x & Hx & ->). by apply (H5 x). }
  split; [split; [| |done| |done| |]|split].
  - eapply path_agree; [|done]. intros l' [->|(x & Hx & ->)]; apply Hk; set_solver.
  - eapply path_agree; [|done]. intros l' [->|(x & Hx & ->)]; apply Hk; set_solver.
  - intros n Hn. by apply node_insert, H4.
  - intros n Hn. by apply node_insert, H6.
  - exists t'. rewrite Hk by auto. split; [done|]. destruct Ht2 as [?|[? ?]]; [by left|right].
    split; [by apply node_insert|done].
  - exists t2. by rewrite Hk by auto.
  - intros x Hx. destruct (HF x Hx) as (t3 & Ht5 & Hs). exists t3. by rewrite Hk by auto.
Qed.

(** Linking [c] in front of the zombies [ks]. *)
Lemma push_path m c ks v : c <> NULL -> c ∉ ks -> path LMrNext m (LZlistP t) ks ->
  path LMrNext (<[LZlistN t := v]> (<[LZlistP t := c]> (<[LMrNext c := hd0 ks]> m))) (LZlistP t) (c :: ks).
Proof.
  intros Hc Hn H3. split; [by rewrite mget_insert_ne, mget_insert|]. split; [done|].
  apply path_alt in H3 as [_ H3]. apply path_alt.
  split; [by rewrite !mget_insert_ne, mget_insert by done|].
  eapply tail_path_agree; [|exact H3]. intros x Hin. rewrite !mget_insert_ne; [done| |done..].
  intros [= ->]. done.
Qed.

(** Putting the zombie [c] back. *)
Lemma zombies_keep U F m c xs ks n' : zombies_at self t U F m (c :: xs) ks -> n' = Z.of_nat (S (length ks)) ->
  zombies_at self t U F (<[LZlistN t := n']> (<[LZlistP t := c]> (<[LMrNext c := hd0 ks]> m))) xs (c :: ks).
Proof.
  intros [H1 H2 H3 H4 H5 H6] ->. simpl in H2. destruct H2 as [Hc0 H2]. apply path_alt in H2 as [_ H2].
  assert (Hp : (c :: xs) ++ ks ≡ₚ xs ++ c :: ks) by apply Permutation_middle.
  assert (Hset : list_to_set ((c :: xs) ++ ks) =@{gset Z} list_to_set (xs ++ c :: ks)).
  { apply leibniz_equiv. by rewrite Hp. }
  assert (Hx : forall x, x ∈ xs ++ ks -> LMrNext c <> LMrNext x).
  { intros x Hx [= ->]. simpl in H4. apply NoDup_cons in H4 as [H4 _]. done. }
  split.
  - rewrite <- Hset. apply alloc_tidy_store; [done|]. apply alloc_tidy_store; [done|].
    apply alloc_tidy_store; [set_solver|done].
  - eapply tail_path_agree; [|exact H2]. intros x Hin. rewrite !mget_insert_ne; [done|apply Hx; set_solver|done..].
  - apply push_path; [done| |done]. simpl in H4. apply NoDup_cons in H4. set_solver.
  - by rewrite <- Hp.
  - intros n. rewrite <- Hp. apply H5.
  - by rewrite mget_insert.
Qed.

(** Freeing the zombie [c]. *)
Lemma zombies_free afuel U F m (g : gst) c xs ks : zombies_at self t U F m (c :: xs) ks ->
  swp' (free_node (S afuel) self c)
    (fun _ m' g' => g' = g /\ grows off_list m m' /\ zombies_at self t U (c :: F) m' xs ks) m g.
Proof.
  intros [H1 H2 H3 H4 H5 H6]. simpl in H2, H4. destruct H2 as [Hc0 H2]. apply path_alt in H2 as [_ H2].
  apply NoDup_cons in H4 as [Hc H4].
  assert (Hset : (list_to_set ((c :: xs) ++ ks) ∪ U) ∖ {[c]} =@{gset Z} list_to_set (xs ++ ks) ∪ U).
  { apply set_eq. intros x. rewrite elem_of_difference, !elem_of_union, !elem_of_list_to_set, elem_of_singleton.
    specialize (H5 c ltac:(set_solver)). simpl. rewrite elem_of_cons. naive_solver. }
  eapply swp_mono; [apply (free_node_tidy self any_step E afuel _ F m g c H1); set_solver|]. cbn beta.
  rewrite Hset. intros _ m' g' (-> & Hg & Ho). split; [done|].
  assert (Hk : forall x, x ∈ xs ++ ks -> free_writes self (list_to_set (xs ++ ks) ∪ U) (LMrNext x) = false).
  { intros x Hx. cbn. apply bool_decide_eq_false. intros Hn. apply Hn. set_solver. }
  split.
  { eapply grows_weaken; [|exact Hg]. intros l Hl. by destruct l. }
  split; [done| | |done| |].
  - clear -H2 Hg Hk. induction xs as [|x xs IH]; [done|]. simpl in H2 |- *. destruct H2 as [Hx0 H2].
    split; [done|]. eapply grows_path; [exact Hg| |exact H2]. intros l [->|(y & Hy & ->)]; apply Hk; set_solver.
  - eapply grows_path; [exact Hg| |exact H3]. intros l [->|(y & Hy & ->)]; [done|apply Hk; set_solver].
  - intros n Hn. apply H5. set_solver.
  - by apply (gr_keep _ _ _ Hg).
Qed.

(** The loop: the zombies that satisfy [keep] are kept, in the opposite
    order, and the others are freed. *)
Lemma free_zombies_spec `{StdSort} afuel plist U (keep : Z -> bool) xs : forall fuel F ks m (g : gst),
  (forall x, x ∈ xs -> bsearch compare x (qsort compare plist) = keep x) ->
  zombies_at self t U F m xs ks -> (length xs < fuel)%nat -> Z.of_nat (length xs + length ks) < 2 ^ 31 ->
  swp' (free_zombies (S afuel) fuel self t (qsort compare plist) (hd0 xs))
    (fun _ m' g' => g' = g /\ grows off_list m m' /\
       zombies_at self t U (reverse (filter (fun x => keep x = false) xs) ++ F) m' []
         (reverse (filter (fun x => keep x = true) xs) ++ ks)) m g.
Proof.
  induction xs as [|c xs IH]; intros [|fuel] F ks m g Hkeep Hz Hf Hb; simpl in Hf, Hb; try lia;
    cbn [free_zombies hd0].
  { rewrite Z.eqb_refl. by apply swp_ret. }
  pose proof (za_todo _ _ _ _ _ _ _ Hz) as [Hc0 Hp]. rewrite (proj2 (Z.eqb_neq c NULL)) by done.
  eapply swp_load; [exact (path_hd _ _ _ _ Hp)|done|done|]. rewrite Hkeep by set_solver.
  rewrite !filter_cons. apply swp_bind. destruct (keep c) eqn:Hkc.
  - rewrite decide_False, decide_True by done. pose proof (za_path _ _ _ _ _ _ _ Hz) as Hks.
    pose proof (za_num _ _ _ _ _ _ _ Hz) as Hn.
    assert (Hcn : node m c).
    { eapply alloc_tidy_node; [exact (za_own _ _ _ _ _ _ _ Hz)|]. set_solver. }
    destruct (node_mget m c LMrNext Hcn ltac:(set_solver)) as [w Hw].
    eapply swp_load; [exact (path_hd _ _ _ _ Hks)|done|done|].
    eapply swp_store; [exact Hw|done|done|].
    eapply swp_store; [rewrite mget_insert_ne by done; exact (path_hd _ _ _ _ Hks)|done|done|].
    eapply swp_load; [rewrite !mget_insert_ne by done; exact Hn|done|done|]. apply swp_bind_ret.
    eapply swp_store; [rewrite !mget_insert_ne by done; exact Hn|done|done|]. apply swp_ret.
    rewrite i32_small by lia. eapply swp_mono; [apply (IH fuel F (c :: ks))|].
    + intros x Hx. apply Hkeep. set_solver.
    + apply zombies_keep; [done|lia].
    + lia.
    + simpl. lia.
    + cbn beta. intros _ m' g' (-> & Hg & Hz'). split; [done|]. split.
      * etrans; [|exact Hg]. do 3 (etrans; [|apply grows_store; done]). done.
      * rewrite reverse_cons, <- app_assoc. exact Hz'.
  - rewrite decide_True, decide_False by done. eapply swp_mono; [by apply zombies_free|]. cbn beta.
    intros _ m1 g1 (-> & Hg1 & Hz1). eapply swp_mono; [apply (IH fuel (c :: F) ks)|].
    + intros x Hx. apply Hkeep. set_solver.
    + done.
    + lia.
    + lia.
    + cbn beta. intros _ m' g' (-> & Hg & Hz'). split; [done|]. split; [by etrans|].
      rewrite reverse_cons, <- app_assoc. exact Hz'.
Qed.

End scan.

(** ** The scan *)

(** The slots that announce a node. *)
Definition slot (m : mem) (i : Z) : Z := default NULL (mget m (LHP i)).
Definition hazards_from (m : mem) (i : Z) (n : nat) : list Z :=
  filter (fun p => p <> NULL) (slot m <$> seqZ i (Z.of_nat n)).
Definition hazards (m : mem) : list Z := hazards_from m 0 (Z.to_nat Param.H).

Lemma slot_mapped m i : 0 <= i < Param.H -> mget m (LHP i) = Some (slot m i).
Proof.
  unfold Param.H, Param.K. intros Hi. unfold slot.
  destruct (mget_static m (LHP i)) as [v Hv]; [|by rewrite Hv].
  apply andb_true_iff. split; [apply Z.leb_le|apply Z.ltb_lt]; lia.
Qed.

(** What [collect] finds when the slots from [i] on fit in the cells left. *)
Lemma collect_run `{HC : Calloc} nbthreads m n : forall plist, Z.of_nat n <= Param.H ->
  let hs := hazards_from m (Param.H - Z.of_nat n) n in
  run (collect nbthreads n plist) m =
    (if decide (hs = [] \/ Z.of_nat (length (plist ++ hs)) <= cells nbthreads) then Ok (plist ++ hs) m
     else Err Segfault m).
Proof.
  induction n as [|n IH]; intros plist Hn hs.
  { subst hs. rewrite decide_True by (by left). by rewrite app_nil_r. }
  subst hs. cbn [collect].
  set (i := Param.H - Z.of_nat (S n)). pose proof (slot_mapped m i ltac:(lia)) as Hs.
  rewrite (run_load _ _ _ _ Hs). unfold hazards_from. rewrite Nat2Z.inj_succ, seqZ_cons by lia.
  rewrite fmap_cons, filter_cons. replace (Z.succ i) with (Param.H - Z.of_nat n) by lia.
  replace (Z.pred (Z.succ (Z.of_nat n))) with (Z.of_nat n) by lia.
  fold (hazards_from m (Param.H - Z.of_nat n) n) in *.
  destruct (Z.eqb_spec (slot m i) NULL) as [He|He]; cbn [negb].
  { rewrite (decide_False (P := _ <> _)) by (intros Hx; done). apply IH. lia. }
  rewrite (decide_True (P := _ <> _)) by done. rewrite (run_load _ _ _ _ Hs).
  specialize (IH (plist ++ [slot m i]) ltac:(lia)). cbv zeta in IH.
  set (hs := hazards_from m (Param.H - Z.of_nat n) n) in *.
  replace ((plist ++ [slot m i]) ++ hs) with (plist ++ slot m i :: hs) in IH by (by rewrite <- app_assoc).
  destruct (Z.ltb_spec (Z.of_nat (length plist)) (cells nbthreads)).
  - rewrite IH. apply decide_ext. split; [|intros [|?]; [done|by right]].
    intros [->|?]; [right; rewrite length_app; simpl; lia|by right].
  - rewrite decide_False; [done|]. rewrite length_app. simpl. intros [|?]; [done|lia].
Qed.

(** The nodes announced lie within 128 GiB of [base], and there are no more of
    them than the array of [scan] has cells. *)
Definition hazards_fit (nbthreads base : Z) (m : mem) : Prop :=
  (forall p, p ∈ hazards m -> addr_ok base p) /\ Z.of_nat (length (hazards m)) <= cells nbthreads.

Section spec.
Context `{HS : StdSortOk} (self t base : Z) (Ht : 0 <= t < MAX_THREAD).

(** Stages 2 and 3. *)
Definition sort_and_free (fuel : nat) (plist : list Z) : prog unit :=
  let plist := qsort compare plist in
  tmplist ← load (LZlistP t);
  store (LZlistP t) NULL;;
  store (LZlistN t) 0;;
  free_zombies fuel fuel self t plist tmplist.

Lemma hp_at_todo U F m zs : hp_at self t base U F m zs ->
  zombies_at self t U F (<[LZlistN t := 0]> (<[LZlistP t := NULL]> m)) zs [].
Proof.
  intros [H1 H2 H3 H4 H5 H6]. apply path_alt in H2 as [_ H2]. split.
  - rewrite app_nil_r. do 2 (apply (alloc_tidy_store self t Ht); [done|]). done.
  - eapply tail_path_agree; [|exact H2]. intros x _. by rewrite !mget_insert_ne.
  - simpl. by rewrite mget_insert_ne, mget_insert.
  - by rewrite app_nil_r.
  - intros n. rewrite app_nil_r. apply H4.
  - by rewrite mget_insert.
Qed.

Lemma hp_at_done U F m ks : (forall n, n ∈ ks -> addr_ok base n) ->
  zombies_at self t U F m [] ks -> hp_at self t base U F m ks.
Proof. intros Ha [H1 H2 H3 H4 H5 H6]. by split. Qed.

Lemma sort_and_free_spec E fuel plist U F zs m (g : gst) : (forall p, p ∈ plist -> addr_ok base p) ->
  hp_at self t base U F m zs -> (length zs < S fuel)%nat -> Z.of_nat (length zs) < 2 ^ 31 ->
  swp (foreign self) E any_step (sort_and_free (S fuel) plist)
    (fun _ m' g' => g' = g /\ grows off_list m m' /\
       hp_at self t base U (reverse (filter (fun z => z ∉ plist) zs) ++ F) m'
         (reverse (filter (fun z => z ∈ plist) zs))) m g.
Proof.
  intros Hpl Hz Hf Hb. unfold sort_and_free. cbv zeta.
  destruct (zlist_mapped t Ht m) as [_ [w Hw]].
  pose proof (path_hd _ _ _ _ (hz_path _ _ _ _ _ _ _ Hz)) as Hh.
  eapply swp_load; [exact Hh|done|done|]. eapply swp_store; [exact Hh|done|done|].
  eapply swp_store; [rewrite mget_insert_ne by done; exact Hw|done|done|].
  eapply swp_mono; [apply (free_zombies_spec self t Ht E fuel plist U (fun x => bool_decide (x ∈ plist)) zs (S fuel) F [])|].
  - intros x Hx. apply (in_plist base); [by apply (hz_addr _ _ _ _ _ _ _ Hz)|done].
  - by apply hp_at_todo.
  - done.
  - simpl. lia.
  - cbn beta. rewrite app_nil_r. intros _ m' g' (-> & Hg & Hz'). split; [done|].
    rewrite (list_filter_iff (fun x => bool_decide (x ∈ plist) = true) (fun z => z ∈ plist)) in Hz' by (intros x; by rewrite bool_decide_eq_true).
    rewrite (list_filter_iff (fun x => bool_decide (x ∈ plist) = false) (fun z => z ∉ plist)) in Hz' by (intros x; by rewrite bool_decide_eq_false).
    split.
    + etrans; [|exact Hg]. etrans; [|by apply grows_store]. by apply grows_store.
    + apply hp_at_done; [|done]. intros n Hn. apply elem_of_reverse, list_elem_of_filter in Hn as [_ Hn].
      by apply (hz_addr _ _ _ _ _ _ _ Hz).
Qed.

(** Other locations. *)
Lemma hp_at_ext U F zs m m' : (forall l, foreign self l = false -> l <> LTls self Vnbblockeds -> m' !! l = m !! l) ->
  hp_at self t base U F m zs -> hp_at self t base U F m' zs.
Proof.
  intros Hm [(fl & gl & [A1 A2 A3 A4 A5 A6 (u & Hu1 & Hu2)] & (tl & Ht1 & Ht2) & HF) H2 H3 H4 H5 H6].
  assert (Hg : forall l, foreign self l = false -> l <> LTls self Vnbblockeds -> mget m' l = mget m l).
  { intros l Hl Hn. unfold mget. by rewrite Hm. }
  assert (Hn : forall p, node m p -> node m' p).
  { intros p [Hp Hf]. split; [done|]. rewrite Forall_forall in Hf |- *. intros f Hin.
    rewrite Hm; [auto|by apply foreign_node_field|].
    unfold node_fields in Hin. set_unfold in Hin. by destruct_or! Hin; subst f. }
  assert (Hpath : forall l xs, foreign self l = false -> l <> LTls self Vnbblockeds -> path LMrNext m l xs -> path LMrNext m' l xs).
  { intros l xs Hl Hl' Hp. eapply path_agree; [|exact Hp]. intros l' [->|(x & _ & ->)]; by apply Hg. }
  split; [|by apply Hpath|done..|by rewrite Hg]. exists fl, gl. split.
  - split; [apply Hpath; [apply foreign_self|done..]|by apply Hpath|done|auto|done|auto|].
    exists u. rewrite Hg by (done || apply foreign_self). split; [done|]. destruct Hu2 as [?|[? ?]]; auto.
  - split; [exists tl; by rewrite Hg by (done || apply foreign_self)|]. intros x Hx.
    destruct (HF x Hx) as (t3 & Ht3 & Hs). exists t3. by rewrite Hg by (done || apply foreign_self).
Qed.

Lemma hp_at_store U F zs m v : hp_at self t base U F m zs ->
  hp_at self t base U F (<[LTls self Vnbblockeds := v]> m) zs.
Proof. apply hp_at_ext. intros l _ Hl. by apply lookup_insert_ne. Qed.

Lemma hazards_ext m m' : (forall i, mget m' (LHP i) = mget m (LHP i)) -> hazards m' = hazards m.
Proof. intros Hm. unfold hazards, hazards_from. f_equal. apply list_fmap_ext. intros k x _. unfold slot. by rewrite Hm. Qed.

(** [scan] up to the end of stage 1. *)
Lemma scan_collect `{HC : Calloc} direct_scan nbthreads fuel m :
  run (scan direct_scan nbthreads fuel self t) m =
    let m1 := <[LTls self Vnbblockeds := Param.R direct_scan nbthreads]> m in
    if decide (hazards m = [] \/ Z.of_nat (length (hazards m)) <= cells nbthreads)
    then run (sort_and_free fuel (hazards m)) m1 else Err Segfault m1.
Proof.
  unfold scan, write_write_barrier, compiler_barrier.
  destruct (mget_static m (LTls self Vnbblockeds) eq_refl) as [v Hv].
  rewrite run_store by eauto. rewrite run_fence, run_bind. cbv zeta.
  set (m1 := <[LTls self Vnbblockeds := _]> m).
  assert (Hs : hazards m1 = hazards m) by (apply hazards_ext; intros i; unfold m1; by rewrite mget_insert_ne).
  rewrite collect_run by (rewrite Z2Nat.id; unfold Param.H, Param.K, MAX_THREAD; lia). cbv zeta.
  rewrite Z2Nat.id, Z.sub_diag by (unfold Param.H, Param.K, MAX_THREAD; lia).
  fold (hazards m1). rewrite Hs. cbn [app]. by destruct (decide _).
Qed.

(** With more announced nodes than cells, [scan] writes past the end of its
    array. *)
Lemma scan_overflow `{HC : Calloc} direct_scan nbthreads fuel m :
  hazards m <> [] -> cells nbthreads < Z.of_nat (length (hazards m)) ->
  exists m', run (scan direct_scan nbthreads fuel self t) m = Err Segfault m'.
Proof.
  intros Hne Hlt. rewrite scan_collect. cbv zeta. rewrite decide_False by (intros [?|?]; [done|lia]). eauto.
Qed.

(** [scan] alone: the zombies that a slot announces are kept, the others are
    freed. *)
Lemma scan_run `{HC : Calloc} {HT : CallocTotal} direct_scan nbthreads fuel U F zs m :
  hp_at self t base U F m zs -> hazards_fit nbthreads base m ->
  (length zs <= fuel)%nat -> Z.of_nat (length zs) < 2 ^ 31 ->
  exists m', run (scan direct_scan nbthreads (S fuel) self t) m = Ok tt m' /\
    hp_at self t base U (reverse (filter (fun z => z ∉ hazards m) zs) ++ F) m'
      (reverse (filter (fun z => z ∈ hazards m) zs)) /\ grows off_list m m'.
Proof.
  intros Hz [Hh Hc] Hf Hb. rewrite scan_collect. cbv zeta. rewrite decide_True by (by right).
  set (m1 := <[LTls self Vnbblockeds := _]> m).
  assert (Hz1 : hp_at self t base U F m1 zs) by (by apply hp_at_store).
  pose proof (sort_and_free_spec (fun _ => False) fuel (hazards m) U F zs m1 (Gst ∅ None ∅) Hh Hz1 ltac:(lia) Hb) as Hp.
  apply swp_run in Hp; [|by apply foreign_node_field].
  destruct (run _ m1) as [[] m'|]; [|done]. destruct Hp as (_ & g' & (_ & Hg & Hz') & _).
  exists m'. split; [done|]. split; [done|]. etrans; [|exact Hg]. by apply grows_store.
Qed.


(** A node of the table becomes a zombie. *)
Lemma hp_at_push U F m zs n : hp_at self t base U F m zs -> n ∈ U -> addr_ok base n ->
  hp_at self t base (U ∖ {[n]}) F
    (<[LZlistN t := Z.of_nat (S (length zs))]> (<[LZlistP t := n]> (<[LMrNext n := hd0 zs]> m))) (n :: zs).
Proof.
  intros [H1 H2 H3 H4 H5 H6] Hn Ha. assert (Hnz : n ∉ zs) by (intros Hin; by apply (H4 n)).
  assert (Hset : list_to_set (n :: zs) ∪ U ∖ {[n]} =@{gset Z} list_to_set zs ∪ U).
  { apply set_eq. intros x. rewrite !elem_of_union, elem_of_difference, !elem_of_list_to_set, elem_of_singleton, elem_of_cons.
    destruct (decide (x = n)); naive_solver. }
  split.
  - rewrite Hset. do 2 (apply (alloc_tidy_store self t Ht); [done|]).
    apply (alloc_tidy_store self t Ht); [set_solver|done].
  - apply push_path; [|done|done]. eapply node_nonnull, (alloc_tidy_node self); [exact H1|set_solver].
  - by constructor.
  - intros x [->|Hx]%elem_of_cons; [set_solver|]. specialize (H4 x Hx). set_solver.
  - intros x [->|Hx]%elem_of_cons; auto.
  - by rewrite mget_insert.
Qed.

(** What [free_node_later] does with the node [n]. *)
Lemma free_node_later_run `{HC : Calloc} {HT : CallocTotal} direct_scan nbthreads fuel U F zs n m :
  hp_at self t base U F m zs -> n ∈ U -> addr_ok base n -> hazards_fit nbthreads base m ->
  (length zs < fuel)%nat -> Z.of_nat (length zs) < 2 ^ 31 - 1 ->
  let zs1 := n :: zs in
  let full := Param.R direct_scan nbthreads <? Z.of_nat (length zs1) in
  exists m', run (free_node_later direct_scan nbthreads (S fuel) self t n) m = Ok tt m' /\
    hp_at self t base (U ∖ {[n]})
      (if full then reverse (filter (fun z => z ∉ hazards m) zs1) ++ F else F) m'
      (if full then reverse (filter (fun z => z ∈ hazards m) zs1) else zs1) /\
    grows off_list m m'.
Proof.
  intros Hz Hn Ha Hh Hf Hb zs1 full. pose proof (hp_at_push U F m zs n Hz Hn Ha) as Hz1.
  pose proof (path_hd _ _ _ _ (hz_path _ _ _ _ _ _ _ Hz)) as Hp. pose proof (hz_num _ _ _ _ _ _ _ Hz) as Hnum.
  assert (Hnode : node m n) by (eapply (alloc_tidy_node self); [exact (hz_own _ _ _ _ _ _ _ Hz)|set_solver]).
  destruct (node_mget m n LMrNext Hnode ltac:(set_solver)) as [w Hw].
  unfold free_node_later. rewrite (run_load _ _ _ _ Hp), run_store by eauto.
  rewrite run_store by (rewrite mget_insert_ne by done; eauto).
  erewrite (run_load (LZlistN t)) by (rewrite !mget_insert_ne by done; exact Hnum).
  cbv zeta. rewrite run_store by (rewrite !mget_insert_ne by done; eauto).
  rewrite i32_small by lia. replace (Z.of_nat (length zs) + 1) with (Z.of_nat (length zs1)) by (simpl; lia).
  rewrite u64_small by (unfold word64; simpl; lia). fold full.
  set (m1 := <[LZlistN t := _]> _) in *.
  assert (Hg : grows off_list m m1) by (do 2 (etrans; [|by apply grows_store]); by apply grows_store).
  assert (Hhz : hazards m1 = hazards m) by (apply hazards_ext; intros i; unfold m1; by rewrite !mget_insert_ne).
  destruct full; [|by exists m1].
  unfold hazards_fit in Hh. rewrite <- Hhz in Hh |- *.
  destruct (scan_run direct_scan nbthreads fuel (U ∖ {[n]}) F zs1 m1 Hz1 Hh)
    as (m' & Hr & Hz' & Hg'); [simpl; lia|simpl; lia|].
  exists m'. split; [done|]. split; [done|]. by etrans.
Qed.


End spec.
