(* ===== verification/HpProtect.v ===== *)
(** * A hazard pointer protects its node

    [scan] among threads that write hazard pointers and their own thread-local
    variables, as the readers of list_hp.c do: a node that a slot announces from
    the start of the scan to its end is not freed, whatever the interleaving.
    A reader never clears a slot, so that what [scan] reads twice is not [NULL]
    the second time. *)
From S2P Require Import Prelude Mem Concrete Schedules RG SWP Table TableFacts Frozen Allocator ListOps Lock Stamp ListWriter ListHp HpScan.

(** ** A thread among programs that write little *)

(** The program writes only the values that [W] allows where it allows them,
    and leaves the C library's allocator alone. *)
Fixpoint writes_only {A} (W : loc -> Z -> Prop) (p : prog A) : Prop :=
  match p with
  | Ret _ | Crash _ => True
  | Vis o k =>
      match o with
      | CallocNode | FreeNode _ | CallocHeads _ | CallocLocks _ | FreeHeads | FreeLocks => False
      | Store l v | CmpXchg l _ v | Xchg l v => W l v
      | XAdd l _ => forall v, W l v
      | _ => True
      end /\ forall r, writes_only W (k r)
  end.

Lemma writes_only_bind {A B} W (p : prog A) (f : A -> prog B) :
  writes_only W p -> (forall a, writes_only W (f a)) -> writes_only W (p ≫= f).
Proof.
  intros Hp Hf. induction p as [a|e|o k IH]; [apply Hf|done|]. destruct Hp as [Ho Hk].
  split; [done|]. intros r. apply IH, Hk.
Qed.

(** What such programs do to a store. *)
Definition written (W : loc -> Z -> Prop) (m m' : mem) : Prop :=
  forall l, m' !! l = m !! l \/ exists v, W l v /\ m' !! l = Some v.

Lemma written_insert W m l v : W l v -> written W m (<[l:=v]> m).
Proof.
  intros Hw l'. destruct (decide (l = l')) as [<-|Hne]; [right|left].
  - exists v. split; [done|apply lookup_insert_eq].
  - by apply lookup_insert_ne.
Qed.

Section among.
Context `{HC : Calloc} {Gh : Set} (W : loc -> Z -> Prop) (ok : mem -> Prop).
Context (E : err -> Prop) (HE : ~ E Segfault) (R G : cfg Gh -> cfg Gh -> Prop) `{!PreOrder R}.
Context (HR : forall s m', ok (cm s) -> ok m' -> written W (cm s) m' ->
  R s (next_cfg s m' (cg s))).

Lemma writes_only_step {A} o (k : Z -> prog A) m r m' : writes_only W (Vis o k) ->
  op_exec o m = Some (r, m') -> written W m m'.
Proof.
  intros [Ho _] Hx. assert (Hsame : written W m m) by (intros l; by left).
  destruct o as [l'|l' v|l' a b|l' d|l' v| |p|n|n| | |b|c]; cbn in *; try done.
  1-5: destruct (mget m l') as [w|]; simplify_eq/=; try done; try case_decide; try done; by apply written_insert.
  all: by simplify_eq.
Qed.

Lemma wp_among {A} (Q : A -> cfg Gh -> Prop) p others s tr ps m' :
  wp E R G p Q s -> Forall (writes_only W) others ->
  psteps (p :: others, cm s) tr (ps, m') -> (forall w, w ∈ cm s :: tr -> ok w) ->
  exists p' others' g', ps = p' :: others' /\ wp E R G p' Q (Cfg m' (tr ++ ctr s) g') /\
    Forall (writes_only W) others'.
Proof.
  intros Hp Hothers Hst. remember (p :: others, cm s) as c0 eqn:Ec. remember (ps, m') as c eqn:Ec'.
  revert ps m' Ec'. induction Hst as [|c0 tr c1 ps2 m2 Hst IH Hstep]; intros ps m' Ec' Hok.
  { simplify_eq. exists p, others, (cg s). split; [done|]. destruct s. by split. }
  simplify_eq. destruct c1 as [ps1 m1]. destruct (IH eq_refl ps1 m1 eq_refl) as (p1 & others1 & g1 & -> & Hp1 & Ho1).
  { intros w Hw. apply Hok. set_solver. }
  cbn [snd] in *. set (s1 := Cfg m1 (tr ++ ctr s) g1) in *.
  assert (Hok1 : ok m1).
  { apply Hok. inversion Hst; subst; set_solver. }
  assert (Hok2 : ok m') by (apply Hok; set_solver).
  assert (Henv : forall m2, m2 = m' -> written W m1 m2 ->
    wp E R G p1 Q (Cfg m' ((m' :: tr) ++ ctr s) g1)).
  { intros m2 -> Hl. eapply wp_rely; [apply _|exact Hp1|]. by apply (HR s1). }
  inversion Hstep as [? ? i o k r ? Hi Hx|? ? i o k Hi Hx]; subst; destruct i as [|i]; simpl in Hi.
  - injection Hi as ->. specialize (Hp1 s1 (reflexivity s1)). cbn in Hp1. rewrite Hx in Hp1.
    destruct Hp1 as (g2 & _ & Hw). exists (k r), others1, g2. by split.
  - exists p1, (<[i:=k r]> others1), g1. split; [done|].
    rewrite Forall_lookup in Ho1. pose proof (Ho1 _ _ Hi) as Hw. split.
    + apply (Henv m'); [done|]. by apply (writes_only_step o k m1 r m').
    + apply Forall_insert; [by apply Forall_lookup|]. by apply Hw.
  - injection Hi as ->. specialize (Hp1 s1 (reflexivity s1)). cbn in Hp1. by rewrite Hx in Hp1.
  - exists p1, (<[i:=Crash Segfault]> others1), g1. split; [done|]. split; [apply (Henv m'); [done|]; intros l; by left|].
    by apply Forall_insert.
Qed.

End among.

Lemma wp_weaken `{HC : Calloc} {Gh : Set} E (R R' G G' : cfg Gh -> cfg Gh -> Prop) {A} (p : prog A) Q s :
  (forall s s', R' s s' -> R s s') -> (forall s s', G s s' -> G' s s') ->
  wp E R G p Q s -> wp E R' G' p Q s.
Proof.
  intros Hr Hg. revert s. induction p as [a|e|o k IH]; intros s Hp; cbn in *; [eauto..|].
  intros s' Hs. specialize (Hp s' (Hr _ _ Hs)). destruct (op_exec o (cm s')) as [[r m']|]; [|done].
  destruct Hp as (g' & Hg' & Hw). eauto.
Qed.

(** ** The readers of list_hp.c *)

(** What the threads other than [self] write: locations that are not its own,
    and never [NULL] to a slot. *)
Definition others_write (self : Z) (l : loc) (v : Z) : Prop :=
  foreign self l = true /\ match l with LHP _ => v <> NULL | _ => True end.

Lemma search_loop_writes_only self fuel : forall self' base key head pc, self' <> self ->
  writes_only (others_write self) (search_loop fuel self' base key head pc).
Proof.
  induction fuel as [|fuel IH]; intros self' base key head [off|prev cur off] Hne; [done..| |]; cbn [search_loop].
  - split; [done|]. intros v. by apply IH.
  - destruct (Z.eqb_spec cur NULL) as [|Hcur]; [done|]. cbn. split; [done|]. intros _. split; [done|]. intros _.
    split; [done|]. intros v. destruct (negb (v =? cur)); cbn.
    + split; [done|]. intros r. split; [split; [by apply negb_true_iff, Z.eqb_neq|done]|]. intros _. by apply IH.
    + destruct (negb (Z.odd cur)); [|done]. cbn. split; [done|]. intros next. split; [done|]. intros k.
      destruct (key <=? k); [by split|by apply IH].
Qed.

Lemma search_writes_only self fuel self' key head lock : self' <> self ->
  writes_only (others_write self) (search fuel self' key head lock).
Proof. intros Hne. split; [done|]. intros r. by apply search_loop_writes_only. Qed.

(** ** The scan among readers *)

(** Slot [j] announces the node [n]; the slots in use are among the first ones,
    as many as the array of [scan] has cells, and hold nodes that lie within
    128 GiB of [base]. *)
Definition announced (nbthreads base j n : Z) (m : mem) : Prop :=
  slot m j = n /\ forall i, 0 <= i < Param.H -> slot m i <> NULL ->
    i < cells nbthreads /\ addr_ok base (slot m i).

(** A slot in use stays in use. *)
Definition slots_stay (m m' : mem) : Prop := forall i, slot m i <> NULL -> slot m' i <> NULL.

Lemma written_slots_stay self m m' : written (others_write self) m m' -> slots_stay m m'.
Proof.
  intros Hw i Hi. unfold slot, mget in *. destruct (Hw (LHP i)) as [->|(v & [_ Hv] & ->)]; done.
Qed.

Section protect.
Context `{HS : StdSortOk} `{HC : Calloc} {HT : CallocTotal}.
Context (self t base nbthreads : Z) (Ht : 0 <= t < MAX_THREAD) (U : gset Z) (F zs : list Z).
Context (n j : Z) (Hj : 0 <= j < Param.H) (Hn : n ∈ zs).

Definition hrely (s s' : cfg gst) : Prop :=
  wrely (foreign self) s s' /\ slots_stay (cm s) (cm s') /\
  (announced nbthreads base j n (cm s) -> announced nbthreads base j n (cm s')).

#[local] Instance hrely_preorder : PreOrder hrely.
Proof.
  split.
  - intros s. split_and!; [done|by intros i|done].
  - intros s1 s2 s3 (H1 & H2 & H3) (H4 & H5 & H6). split_and!; [by etrans| |auto]. intros i Hi. auto.
Qed.

Definition scan_inv (s : cfg gst) : Prop :=
  hp_at self t base U F (cm s) zs /\ announced nbthreads base j n (cm s).

Lemma scan_inv_stable s s' : scan_inv s -> hrely s s' -> scan_inv s'.
Proof.
  intros [H1 H2] ((_ & _ & Hm) & _ & Hk). split; [|auto].
  eapply hp_at_ext; [|exact H1]. intros l Hl _. by apply Hm.
Qed.

Abbreviation hwp := (wp (fun _ => False) hrely (fun _ _ => True)).

(** A step that leaves the list of zombies and the slots alone. *)
Lemma hwp_op {A} o (k : Z -> prog A) Q s :
  scan_inv s ->
  (forall s', hrely s s' -> scan_inv s' -> exists r m', op_exec o (cm s') = Some (r, m') /\
     scan_inv (next_cfg s' m' (cg s')) /\
     (scan_inv (next_cfg s' m' (cg s')) -> hwp (k r) Q (next_cfg s' m' (cg s')))) ->
  hwp (Vis o k) Q s.
Proof.
  intros Hi Hk s' Hs. destruct (Hk s' Hs (scan_inv_stable _ _ Hi Hs)) as (r & m' & -> & Hi' & Hw). eauto.
Qed.

Lemma hwp_load {A} l (k : Z -> prog A) Q s : is_static l = true -> scan_inv s ->
  (forall s', hrely s s' -> scan_inv s' -> hwp (k (default 0 (mget (cm s') l))) Q s') -> hwp (load l ≫= k) Q s.
Proof.
  intros Hl Hi Hk. apply hwp_op; [done|]. intros s' Hs Hi'. destruct (mget_static (cm s') l Hl) as [v Hv].
  cbn. rewrite Hv. exists v, (cm s'). split; [done|]. split; [exact Hi'|]. intros Hi2.
  assert (Hs2 : hrely s (next_cfg s' (cm s') (cg s'))).
  { etrans; [exact Hs|]. split_and!; [|by intros i|done]. split_and!; [done|by exists [cm s']|done]. }
  specialize (Hk _ Hs2 Hi2). cbn in Hk. by rewrite Hv in Hk.
Qed.

Lemma hwp_collect rest : forall plist s, Z.of_nat rest <= Param.H -> scan_inv s ->
  Z.of_nat (length plist) <= Param.H - Z.of_nat rest ->
  (forall p, p ∈ plist -> addr_ok base p) -> (j < Param.H - Z.of_nat rest -> n ∈ plist) ->
  hwp (collect nbthreads rest plist)
    (fun plist' s' => scan_inv s' /\ n ∈ plist' /\ forall p, p ∈ plist' -> addr_ok base p) s.
Proof.
  induction rest as [|rest IH]; intros plist s Hr Hi Hlen Hp Hjn; cbn [collect].
  { intros s' Hs. split; [by eapply scan_inv_stable|]. split; [|done]. apply Hjn. lia. }
  set (i := Param.H - Z.of_nat (S rest)).
  assert (Hst : is_static (LHP i) = true).
  { subst i. unfold Param.H, Param.K in *. apply andb_true_iff. split; [apply Z.leb_le|apply Z.ltb_lt]; lia. }
  assert (Hnn : n <> NULL) by (destruct Hi as [Hi _]; eapply node_nonnull, (alloc_tidy_node self);
    [exact (hz_own _ _ _ _ _ _ _ Hi)|set_solver]).
  apply hwp_load; [done..|]. intros s1 _ Hi1. fold (slot (cm s1) i).
  destruct (Z.eqb_spec (slot (cm s1) i) NULL) as [He|He]; cbn [negb].
  - apply IH; [lia|done|lia|done|]. intros Hlt. apply Hjn. destruct (decide (j = i)) as [->|Hne]; [|lia].
    destruct Hi1 as [_ [Hs1 _]]. congruence.
  - apply hwp_load; [done..|]. intros s2 (_ & Hstay & _) Hi2. fold (slot (cm s2) i).
    destruct (proj2 (proj2 Hi2) i ltac:(lia) (Hstay i He)) as [Hcell Haddr].
    rewrite (proj2 (Z.ltb_lt _ _)) by lia.
    apply IH; [lia|done|rewrite length_app; simpl; lia| |].
    + intros p [Hin| ->%list_elem_of_singleton]%elem_of_app; auto.
    + intros Hlt. apply elem_of_app. destruct (decide (j = i)) as [Hji|Hne]; [right|left; apply Hjn; lia].
      destruct Hi2 as [_ [Hs _]]. rewrite Hji in Hs. rewrite Hs. by apply list_elem_of_singleton.
Qed.

Lemma hwp_scan direct_scan fuel s : scan_inv s ->
  (length zs <= fuel)%nat -> Z.of_nat (length zs) < 2 ^ 31 ->
  hwp (scan direct_scan nbthreads (S fuel) self t)
    (fun _ s' => exists F' zs', hp_at self t base U F' (cm s') zs' /\ n ∈ zs') s.
Proof.
  intros Hi Hf Hb. unfold scan, write_write_barrier, compiler_barrier. apply hwp_op; [done|].
  intros s1 _ Hi1. destruct (mget_static (cm s1) (LTls self Vnbblockeds) eq_refl) as [v Hv]. cbn [op_exec].
  rewrite Hv. eexists _, _. split; [done|].
  assert (Hi2 : scan_inv (next_cfg s1 (<[LTls self Vnbblockeds := Param.R direct_scan nbthreads]> (cm s1)) (cg s1))).
  { destruct Hi1 as [H1 H2]. split; [by apply hp_at_store|]. split; [by rewrite <- (proj1 H2); unfold slot; cbn; rewrite mget_insert_ne|].
    intros i Hi'. unfold slot. cbn. rewrite mget_insert_ne by done. by apply H2. }
  split; [done|]. intros _. apply hwp_op; [done|]. intros s3 _ Hi3. eexists _, _. split; [done|].
  split; [exact Hi3|]. intros Hi4. apply wp_bind; [apply _|]. eapply wp_post.
  { apply hwp_collect; [|done| |set_solver|]; cbn [length]; rewrite Z2Nat.id; unfold Param.H, Param.K, MAX_THREAD in *; lia. }
  cbn beta. intros plist s5 ([Hz _] & Hin & Hp). fold (sort_and_free self t (S fuel) plist).
  eapply wp_post; [eapply wp_weaken; [| |apply swp_wp; [by apply foreign_node_field|]]|].
  - by intros ? ? [? _].
  - done.
  - eapply (sort_and_free_spec self t base Ht _ fuel plist U F zs); [done| |lia|done].
    eapply hp_at_ext; [|exact Hz]. intros l Hl _. by apply private_lookup.
  - cbn beta. intros _ s6 (_ & _ & Hz'). do 2 eexists. split.
    + eapply hp_at_ext; [|exact Hz']. intros l Hl _. symmetry. by apply private_lookup.
    + apply elem_of_reverse, list_elem_of_filter. by split.
Qed.


End protect.
