(* ===== verification/ListRc.v ===== *)
(** * Reference counting (rc.c, rc.h, list_rc.c): code

    Every node counts the pointers to it that matter: one for being in a list,
    one per reader that uses it, and one from each node that was deleted while
    it was next to it.  The thread that takes the last one away gives the node
    back, after it has released the node behind it. *)
From S2P Require Import Prelude Mem RG SWP Table TableFacts Allocator ListOps Lock ListWriter.

(** ** rc.c

    [afuel] is the fuel of the allocator, [fuel] that of the function. *)

Fixpoint increment_if_not_zero (fuel : nat) (p : loc) : prog Z :=
  match fuel with
  | O => Crash OutOfFuel
  | S fuel =>
      old ← load p;
      if old =? 0 then Ret (-1) else
      let new := u64 (old + 1) in
      v ← atomic_cmpxchg4 p old new;
      if v =? old then Ret 0 else increment_if_not_zero fuel p
  end.

Definition rc_new_node (afuel : nat) (self : Z) : prog Z := new_node afuel self.
Definition rc_free_node (afuel : nat) (self n : Z) : prog unit := free_node afuel self n.

Fixpoint lfrc_refcnt_dec (afuel fuel : nat) (self p : Z) : prog unit :=
  match fuel with
  | O => Crash OutOfFuel
  | S fuel =>
      let p := clean_pointer p in
      if p =? NULL then Ret tt else
      memory_barrier;;
      rc ← load (LRc p);
      c_assert (0 <? rc);;
      old ← atomic_xadd4 (LRc p) (-1);
      if old =? 1 then
        incr64 (LGc p);;
        next ← load (LNext p);
        lfrc_refcnt_dec afuel fuel self next;;
        rc_free_node afuel self p
      else Ret tt
  end.

Definition lfrc_refcnt_inc (p : Z) : prog unit :=
  if p =? NULL then Ret tt else
  _ ← atomic_xadd4 (LRc p) 1;
  memory_barrier.

Fixpoint safe_read (afuel fuel : nat) (self : Z) (p : loc) : prog Z :=
  match fuel with
  | O => Crash OutOfFuel
  | S fuel =>
      q ← load p;
      let safe := clean_pointer q in
      if safe =? NULL then Ret q else
      inc ← increment_if_not_zero fuel (LRc safe);
      if negb (inc =? 0) then safe_read afuel fuel self p else
      memory_barrier;;
      q' ← load p;
      if q =? q' then Ret q else
      lfrc_refcnt_dec afuel fuel self safe;;
      safe_read afuel fuel self p
  end.

Definition lfrc_list_dec (afuel fuel : nat) (self nd : Z) : prog unit := lfrc_refcnt_dec afuel fuel self nd.
Definition lfrc_list2_dec (afuel fuel : nat) (self nd : Z) : prog unit := lfrc_refcnt_dec afuel fuel self nd.
Definition lfrc_list_inc (nd : Z) : prog unit := lfrc_refcnt_inc nd.
Definition lfrc_list2_inc (nd : Z) : prog unit := lfrc_refcnt_inc nd.

(** ** list_rc.c *)

(** The loop of [search], at the node [cur]. *)
Fixpoint search_loop (afuel rfuel fuel : nat) (self key cur : Z) : prog Z :=
  match fuel with
  | O => Crash OutOfFuel
  | S fuel =>
      if cur =? NULL then
        lfrc_refcnt_dec afuel rfuel self cur;;
        Ret 0
      else
      k ← load (LKey cur);
      if key <=? k then
        k' ← load (LKey cur);
        lfrc_refcnt_dec afuel rfuel self cur;;
        Ret (found k' key)
      else
      next ← safe_read afuel rfuel self (LNext cur);
      lfrc_refcnt_dec afuel rfuel self cur;;
      search_loop afuel rfuel fuel self key next
  end.

Definition search (afuel rfuel fuel : nat) (self key : Z) (head lock : loc) : prog Z :=
  cur ← safe_read afuel rfuel self head;
  search_loop afuel rfuel fuel self key cur.

Definition free_node_later (afuel fuel : nat) (self thread n : Z) : prog unit :=
  next ← load (LNext n);
  lfrc_refcnt_inc next;;
  lfrc_refcnt_dec afuel fuel self n.

Definition init_new_node (afuel : nat) (self : Z) : prog Z :=
  new ← new_node afuel self;
  _ ← atomic_xadd4 (LRc new) 1;
  Ret new.

(** ** The scheme of list_writer.c *)

Definition rc_inserter (afuel : nat) : Inserter := {|
  lock_wlock := OneWriter.lock_wlock;
  lock_wunlock := OneWriter.lock_wunlock false;
  ListWriter.init_new_node := init_new_node afuel |}.

Definition rc_scheme (afuel fuel : nat) : Scheme := {|
  scheme_inserter := rc_inserter afuel;
  unlock_before_free := false;
  ListWriter.free_node_later := free_node_later afuel fuel |}.
