(* ===== verification/RcWriter.v ===== *)
(** * The updater with reference counts

    list_writer.c with list_rc.c keeps the promises of [SchemeSpec].  The state
    of the updater adds to the allocator's lists the exact counts: a node in use
    counts one, every other node zero. *)
From S2P Require Import Prelude Mem RG SWP Table TableFacts Frozen Allocator ListOps Lock Stamp ListWriter AllocState ListRc.

(** ** The counts *)

(** The node [n] counts [cnt n]. *)
Definition counts (cnt : Z -> Z) (m : mem) : Prop :=
  forall n v, m !! LRc n = Some v -> v = cnt n /\ aligned n.

(** One for each node in use. *)
Definition one_each (U : gset Z) (n : Z) : Z := if decide (n ∈ U) then 1 else 0.

Lemma counts_grows cnt self m m' : grows (alloc_loc self) m m' ->
  (forall n, m !! LRc n = None -> cnt n = 0) -> counts cnt m -> counts cnt m'.
Proof.
  intros Hg H0 Hc n v Hv. destruct (gr_rc _ _ _ Hg n v eq_refl Hv) as [Hv'|[-> Ha]]; [by apply Hc|].
  split; [|done]. destruct (m !! LRc n) as [w|] eqn:Hw; [|by rewrite H0].
  pose proof (gr_keep _ _ _ Hg (LRc n) w eq_refl (mget_lookup _ _ _ Hw)) as Hk.
  rewrite (mget_lookup _ _ _ Hv) in Hk. injection Hk as <-. by destruct (Hc n 0 Hw).
Qed.

Lemma counts_store cnt n v m : counts cnt m -> is_Some (m !! LRc n) ->
  counts (fun x => if decide (x = n) then v else cnt x) (<[LRc n := v]> m).
Proof.
  intros Hc [w Hw] x u. destruct (decide (x = n)) as [->|Hne].
  - rewrite lookup_insert_eq. intros [= <-]. by destruct (Hc n w Hw).
  - rewrite lookup_insert_ne by congruence. apply Hc.
Qed.

Lemma counts_other cnt l v m : (forall n, l <> LRc n) -> counts cnt m -> counts cnt (<[l := v]> m).
Proof. intros Hl Hc n u. rewrite lookup_insert_ne by apply Hl. apply Hc. Qed.

Lemma counts_ext cnt cnt' m : (forall n, cnt n = cnt' n) -> counts cnt m -> counts cnt' m.
Proof. intros He Hc n v. rewrite <- He. apply Hc. Qed.

(** ** The state of the updater *)

Definition rc_state (self : Z) (d : tlsvar -> Z) (h : option Z) (U : gset Z) (m : mem) : Prop :=
  alloc_state any_lock self d h U m /\ counts (one_each U) m.

Section scheme.
Context (self : Z) (d : tlsvar -> Z) (E : err -> Prop).
Abbreviation swp' := (swp (foreign self) E eager_step).

Lemma rc_count U m n : counts (one_each U) m -> node m n -> n ∈ U ->
  mget m (LRc n) = Some 1 /\ clean_pointer n = n /\ n <> NULL.
Proof.
  intros Hc Hn Hu. destruct (node_field _ _ LRc Hn ltac:(set_solver)) as [v Hv].
  destruct (Hc n v Hv) as [-> Ha]. unfold one_each in Hv. rewrite decide_True in Hv by done.
  split; [by apply mget_lookup|]. split; [by apply aligned_even|by eapply node_nonnull].
Qed.

Lemma unmapped_count h U V m n : alloc_state any_lock self d h U m -> V ⊆ U -> m !! LRc n = None -> one_each V n = 0.
Proof.
  intros Ha HV Hm. unfold one_each. case_decide as Hin; [|done].
  pose proof (alloc_state_node _ _ _ _ _ _ _ Ha (HV _ Hin)) as Hn.
  destruct (node_field _ _ LRc Hn ltac:(set_solver)) as [v Hv]. congruence.
Qed.

Lemma rc_new afuel h U m (g : gst) : rc_state self d h U m ->
  swp' (init_new_node (S afuel) self)
    (fun p m' g' => g' = g /\ grows off_list m m' /\ (p ∉ U) /\ rc_state self d h ({[p]} ∪ U) m') m g.
Proof.
  intros [Ha Hc]. unfold init_new_node. apply swp_bind.
  eapply swp_mono; [apply (new_node_spec self eager_step E afuel U), Ha|].
  cbn beta. intros p m1 g1 (-> & Hg & Hp & Ho).
  assert (Hn : node m1 p) by (destruct Ho as (fl & gl & Ho); apply (al_used _ _ _ _ _ Ho); set_solver).
  assert (Hc1 : counts (one_each U) m1).
  { eapply counts_grows; [exact Hg| |exact Hc]. intros n. eapply unmapped_count; [exact Ha|done]. }
  destruct (node_field _ _ LRc Hn ltac:(set_solver)) as [v Hv]. destruct (Hc1 p v Hv) as [Hv0 _].
  unfold one_each in Hv0. rewrite decide_False in Hv0 by done. subst v.
  eapply swp_xadd; [by apply mget_lookup|done|done|]. apply swp_ret. split; [done|].
  rewrite u64_small by (unfold word64; lia). split.
  { etrans; [by eapply grows_alloc_off_list|]. by apply grows_store. }
  split; [done|]. split.
  - apply alloc_state_counter with (h := h); [done|by intros ? ?|].
    eapply alloc_state_grows; [exact Hg|exact Ho|exact Ha].
  - eapply counts_ext; [|apply counts_store; [exact Hc1|eauto]]. intros n. unfold one_each. cbn.
    destruct (decide (n = p)) as [->|Hne]; [by rewrite decide_True by set_solver|].
    destruct (decide (n ∈ U)) as [Hin|Hin]; [by rewrite decide_True by set_solver|].
    by rewrite decide_False by set_solver.
Qed.

(** Taking a count away that is not the last one. *)
Lemma dec_not_last afuel fuel n v (Q : unit -> mem -> gst -> Prop) m g :
  aligned n -> n <> NULL -> mget m (LRc n) = Some v -> 1 < v < word64 ->
  Q tt (<[LRc n := v - 1]> m) g -> swp' (lfrc_refcnt_dec afuel (S fuel) self n) Q m g.
Proof.
  intros Ha H0 Hv Hr HQ. cbn [lfrc_refcnt_dec]. cbv zeta. rewrite (proj2 (aligned_even n Ha)).
  rewrite (proj2 (Z.eqb_neq n NULL)) by done. unfold memory_barrier. apply swp_fence; [done|].
  eapply swp_load; [exact Hv|done|done|]. rewrite (proj2 (Z.ltb_lt 0 v)) by lia. apply swp_bind, swp_ret.
  eapply swp_xadd; [exact Hv|done|done|]. rewrite (proj2 (Z.eqb_neq v 1)) by lia. apply swp_ret.
  replace (v + -1) with (v - 1) by lia. by rewrite u64_small by lia.
Qed.

(** Taking the last one away: the node behind loses one, and the node is given
    back. *)
Lemma dec_last afuel fuel n nx v (Q : unit -> mem -> gst -> Prop) m g :
  aligned n -> n <> NULL -> mget m (LRc n) = Some 1 -> mget m (LGc n) = Some v -> mget m (LNext n) = Some nx ->
  swp' (lfrc_refcnt_dec (S afuel) fuel self nx;; rc_free_node (S afuel) self n) Q
    (<[LGc n := u64 (v + 1)]> (<[LRc n := 0]> m)) g ->
  swp' (lfrc_refcnt_dec (S afuel) (S fuel) self n) Q m g.
Proof.
  intros Ha H0 Hv Hg Hx HQ. cbn [lfrc_refcnt_dec]. cbv zeta. rewrite (proj2 (aligned_even n Ha)).
  rewrite (proj2 (Z.eqb_neq n NULL)) by done. unfold memory_barrier. apply swp_fence; [done|].
  eapply swp_load; [exact Hv|done|done|]. apply swp_bind, swp_ret.
  eapply swp_xadd; [exact Hv|done|done|]. cbn [Z.eqb Pos.eqb]. unfold incr64. apply swp_bind.
  eapply swp_load; [by rewrite mget_insert_ne|done|done|]. apply swp_bind_ret.
  eapply swp_store; [by rewrite mget_insert_ne|done|done|]. apply swp_ret.
  eapply swp_load; [by rewrite !mget_insert_ne|done|done|]. exact HQ.
Qed.

(** The counts when the node behind [n] has been counted twice and once again. *)
Lemma retire_counts U n nx v m : counts (one_each U) m -> n ∈ U -> nx ∈ U -> nx <> n -> node m n -> node m nx ->
  counts (one_each (U ∖ {[n]}))
    (<[LRc nx := 1]> (<[LGc n := v]> (<[LRc n := 0]> (<[LRc nx := 2]> m)))).
Proof.
  intros Hc Hn Hx Hne Hnn Hnx. destruct (node_field _ _ LRc Hnn ltac:(set_solver)) as [w Hw].
  destruct (node_field _ _ LRc Hnx ltac:(set_solver)) as [w' Hw'].
  eapply counts_ext; [|apply counts_store; [apply counts_other; [done|]; apply counts_store; [apply counts_store; [exact Hc|eauto]|]|]].
  - intros x. cbn. unfold one_each. destruct (decide (x = nx)) as [->|].
    + rewrite decide_True by set_solver. done.
    + destruct (decide (x = n)) as [->|]; [by rewrite decide_False by set_solver|].
      destruct (decide (x ∈ U)); [by rewrite decide_True by set_solver|by rewrite decide_False by set_solver].
  - rewrite lookup_insert_ne by congruence. eauto.
  - rewrite !lookup_insert_ne, lookup_insert_eq by congruence. eauto.
Qed.

Lemma retire_counts_last U n v m : counts (one_each U) m -> node m n ->
  counts (one_each (U ∖ {[n]})) (<[LGc n := v]> (<[LRc n := 0]> m)).
Proof.
  intros Hc Hnn. destruct (node_field _ _ LRc Hnn ltac:(set_solver)) as [w Hw].
  eapply counts_ext; [|apply counts_other; [done|]; apply counts_store; [exact Hc|eauto]].
  intros x. cbn. unfold one_each. destruct (decide (x = n)) as [->|]; [by rewrite decide_False by set_solver|].
  destruct (decide (x ∈ U)); [by rewrite decide_True by set_solver|by rewrite decide_False by set_solver].
Qed.

(** The end: [n] goes back to the allocator. *)
Lemma rc_free afuel h U n m m1 (g : gst) : alloc_state any_lock self d h U m1 -> n ∈ U ->
  grows off_list m m1 -> counts (one_each (U ∖ {[n]})) m1 ->
  swp' (rc_free_node (S afuel) self n)
    (fun _ m' g' => g' = g /\ grows off_list m m' /\ rc_state self d h (U ∖ {[n]}) m') m1 g.
Proof.
  intros Ha Hn Hg Hc. unfold rc_free_node.
  eapply swp_mono; [apply (free_node_spec self eager_step E afuel U); [apply Ha|done]|].
  cbn beta. intros _ m2 g2 (-> & Hg2 & Ho2). split; [done|]. split.
  { etrans; [exact Hg|by eapply grows_alloc_off_list]. }
  split; [by eapply alloc_state_grows|]. eapply counts_grows; [exact Hg2| |exact Hc].
  intros x. eapply unmapped_count; [exact Ha|set_solver].
Qed.

Lemma rc_retire afuel fuel U m g t n i : Inv m g -> rc_state self d (Some i) U m ->
  (forall x, live g x -> x ∈ U) -> pend g = Some (n, i) ->
  swp' (free_node_later (S afuel) (S (S fuel)) self t n)
    (fun _ m' g' => grows off_list m m' /\ retired (rc_state self d (Some i)) n U g m' g') m g.
Proof.
  intros HI [Ha Hc] HU Hp. destruct (inv_pend _ _ HI _ _ Hp) as (Hn & Hni & pre & suf & Hi & Hnx & _ & _).
  assert (Hun : n ∈ U) by (apply HU; exists i; by right).
  destruct (rc_count U m n Hc Hn Hun) as (Hr & _ & Hn0).
  assert (Han : aligned n) by (destruct (node_field _ _ LRc Hn ltac:(set_solver)) as [v Hv]; by apply (Hc n v)).
  destruct (node_mget m n LGc Hn ltac:(set_solver)) as [gc Hgc].
  eapply (swp_mono _ _ _ _ (fun _ m' g' => g' = Gst (bk g) None (old g) /\ grows off_list m m' /\
    rc_state self d (Some i) (U ∖ {[n]}) m')).
  2:{ intros _ m' g' (-> & Hg & Ho). split; [done|]. by eapply retired_free. }
  unfold free_node_later. eapply (swp_load_gh _ _ _ _ _ _ _ _ _ (Gst (bk g) None (old g))); [by apply mget_lookup|done|done|].
  assert (Hcs : forall l v m', match l with LRc _ => True | _ => counter_loc l end ->
    alloc_state any_lock self d (Some i) U m' -> alloc_state any_lock self d (Some i) U (<[l := v]> m')).
  { intros l v m' Hl Hs. apply alloc_state_counter with (h := Some i); [done|by intros ? ?|done]. }
  destruct suf as [|x suf]; cbn [hd0] in *.
  - unfold lfrc_refcnt_inc. cbn [Z.eqb]. apply swp_bind, swp_ret.
    eapply dec_last; [done|done|exact Hr|exact Hgc|by apply mget_lookup|].
    cbn [lfrc_refcnt_dec]. apply swp_bind, swp_ret. apply rc_free; [by do 2 (apply Hcs; [done|])|done| |].
    + etrans; [|by apply grows_counter]. by apply grows_store.
    + by apply retire_counts_last.
  - assert (Hx : x ∈ U) by (apply HU; exists i; left; eexists; split; [exact Hi|set_solver]).
    assert (Hnx' : node m x) by (eapply inv_node; [done|exact Hi|set_solver]).
    assert (Hxn : x <> n) by (intros ->; apply (Hni _ _ Hi); set_solver).
    destruct (rc_count U m x Hc Hnx' Hx) as (Hrx & _ & Hx0).
    assert (Hax : aligned x) by (destruct (node_field _ _ LRc Hnx' ltac:(set_solver)) as [v Hv]; by apply (Hc x v)).
    unfold lfrc_refcnt_inc. rewrite (proj2 (Z.eqb_neq x NULL)) by done. apply swp_bind.
    eapply swp_xadd; [exact Hrx|done|done|]. apply swp_bind_ret, swp_fence; [done|]. apply swp_ret.
    change (u64 (1 + 1)) with 2.
    eapply dec_last; [done|done|by rewrite mget_insert_ne by congruence|by rewrite mget_insert_ne|
      by rewrite mget_insert_ne; [apply mget_lookup|]|].
    apply swp_bind, (dec_not_last _ _ _ 2); [done|done|by rewrite !mget_insert_ne, mget_insert by congruence|done|].
    apply rc_free; [by do 4 (apply Hcs; [done|])|done| |].
    + do 3 (etrans; [|by apply grows_store]). by apply grows_store.
    + by apply retire_counts.
Qed.

End scheme.

#[export] Instance rc_scheme_spec afuel fuel self d :
  @SchemeSpec (rc_scheme (S afuel) (S (S fuel))) self eager_step (rc_state self d).
Proof.
  assert (IS : @InserterSpec (rc_inserter (S afuel)) self eager_step (rc_state self d)).
  { split.
    - done.
    - intros m g m' g' _ Hs. unfold eager_step. by erewrite list_step_old.
    - intros h U m m' [Ha Hc] Hm Hl Hn. split; [by eapply alloc_state_list|].
      intros n v Hv. apply Hc. specialize (Hm (LRc n) eq_refl). rewrite (mget_lookup _ _ _ Hv) in Hm.
      unfold mget in Hm. destruct (m !! LRc n); [congruence|done].
    - intros h U m n [Ha _]. by eapply alloc_state_node.
    - intros E U m g i xs _ [Ha Hc] _. split_and!; [done|done|by split].
    - intros E U m g i xs _ [Ha Hc] _. cbn [ListWriter.lock_wunlock rc_inserter].
      unfold OneWriter.lock_wunlock, write_read_barrier. apply swp_bind_ret, swp_fence; [done|].
      split_and!; [done|done|by split].
    - intros E h U m g _ Hs. by apply rc_new. }
  apply (@retire_in_lock (rc_scheme (S afuel) (S (S fuel))) self eager_step _ IS); [done|].
  intros E U m g t n i. apply rc_retire.
Qed.
