(* ===== verification/ListRcu.v ===== *)
(** * RCU (rcu.c, rcu.h, list_rcu.c): code

    Readers search between [rcu_read_lock] and [rcu_read_unlock]; an updater
    hands the node it unlinked to [call_rcu], and the library calls
    [free_node_cb] on it when every reader that was searching has ended.  The
    library, liburcu, is not in the repository: [RcuLib] is what the code uses
    of it, [RcuLibOk] what its documentation says. *)
From S2P Require Import Prelude Mem RG SWP Table TableFacts Allocator ListOps Lock ListWriter.

(** ** liburcu

    [call_rcu n f] registers the call [f n]; [n] stands for the [rcu_head] in
    the node. *)
Class RcuLib := {
  rcu_read_lock : prog unit;
  rcu_read_unlock : prog unit;
  rcu_register_thread : prog unit;
  rcu_unregister_thread : prog unit;
  rcu_dereference : loc -> prog Z;
  call_rcu : Z -> (Z -> prog unit) -> prog unit }.

(** The library works on data of its own; [rcu_dereference] is a load that the
    compiler and the processor keep in order. *)
Class RcuLibOk `{RcuLib} : Prop := {
  read_lock_quiet : quiet rcu_read_lock;
  read_unlock_quiet : quiet rcu_read_unlock;
  register_quiet : quiet rcu_register_thread;
  unregister_quiet : quiet rcu_unregister_thread;
  call_rcu_quiet n f : quiet (call_rcu n f);
  dereference_load l : exists before after : prog unit, quiet before /\ quiet after /\
    rcu_dereference l = (before;; v ← load l; after;; Ret v) }.

(** The calls as events that leave the program's data alone.  [call_rcu] is only
    ever given [free_node_cb]; when the library runs it is said in [Grace]. *)
Definition urcu : RcuLib := {|
  rcu_read_lock := lib_call RcuReadLock;
  rcu_read_unlock := lib_call RcuReadUnlock;
  rcu_register_thread := Ret tt;
  rcu_unregister_thread := Ret tt;
  rcu_dereference := load;
  call_rcu n f := lib_call (CallRcu n) |}.

Lemma urcu_ok : @RcuLibOk urcu.
Proof.
  split; try done. intros l. exists (Ret tt), (Ret tt). done.
Qed.

(** ** rcu.c

    [count_blc] and [count_atm] are the macros [RCU_COUNT_BLC] and
    [RCU_COUNT_ATM], which count the nodes that wait to be freed. *)
Definition AMORT_COUNT : Z := 16.

Section code.
Context (count_blc count_atm : bool) `{RcuLib}.

(** The counting part of [free_node_cb]. *)
Definition count_freed (self : Z) : prog unit :=
  tmp ← load (LGlob Gqsblockeds);
  rcublockeds ← load (LGlob Grcublockeds);
  (if u64 rcublockeds <? u64 tmp then
     store (LGlob Grcublockeds) (i64 tmp);;
     write_write_barrier
   else Ret tt);;
  (if count_atm then
     amort ← load (LTls self Vamort);
     store (LTls self Vamort) (i64 (amort + 1));;
     amort ← load (LTls self Vamort);
     if AMORT_COUNT <=? amort then
       c_assert (AMORT_COUNT <=? u64 tmp);;
       _ ← atomic_xadd4 (LGlob Gqsblockeds) (- AMORT_COUNT);
       store (LTls self Vamort) 0
     else Ret tt
   else
     v ← load (LGlob Gqsblockeds);
     store (LGlob Gqsblockeds) (i64 (v - 1)));;
  qsblockeds ← load (LGlob Gqsblockeds);
  c_assert (0 <=? i64 qsblockeds).

Definition free_node_cb (fuel : nat) (self node : Z) : prog unit :=
  (if count_blc then count_freed self else Ret tt);;
  free_node fuel self node;;
  thread ← load (LTls self Vthread);
  Ret tt.

(** The counting part of [free_node_later]. *)
Definition count_retired (self : Z) : prog unit :=
  if count_atm then
    amort ← load (LTls self Vamort);
    store (LTls self Vamort) (i64 (amort + 1));;
    amort ← load (LTls self Vamort);
    if AMORT_COUNT <=? amort then store (LTls self Vamort) 0 else
    amort ← load (LTls self Vamort);
    if amort =? 1 then _ ← atomic_xadd4 (LGlob Gqsblockeds) AMORT_COUNT; Ret tt else Ret tt
  else
    v ← load (LGlob Gqsblockeds);
    store (LGlob Gqsblockeds) (i64 (v + 1)).

(** The callback runs in a thread of the library's choice, [cb_thread]. *)
Definition free_node_later (fuel : nat) (cb_thread self thread node : Z) : prog unit :=
  call_rcu node (free_node_cb fuel cb_thread);;
  (if count_blc then count_retired self else Ret tt).

Definition init_new_node (fuel : nat) (self : Z) : prog Z := new_node fuel self.

(** ** list_rcu.c *)

Fixpoint search_loop (fuel : nat) (key cur : Z) : prog Z :=
  match fuel with
  | O => Crash OutOfFuel
  | S fuel =>
      if cur =? NULL then
        rcu_read_unlock;;
        Ret 0
      else
      cur_key ← load (LKey cur);
      if key <=? cur_key then
        rcu_read_unlock;;
        Ret (found cur_key key)
      else
      next ← rcu_dereference (LNext cur);
      search_loop fuel key next
  end.

Definition search (fuel : nat) (self key : Z) (head lock : loc) : prog Z :=
  rcu_read_lock;;
  cur ← rcu_dereference head;
  search_loop fuel key cur.

(** ** The scheme of list_writer.c *)

Definition rcu_inserter (fuel : nat) : Inserter := {|
  lock_wlock := OneWriter.lock_wlock;
  lock_wunlock := OneWriter.lock_wunlock false;
  ListWriter.init_new_node := init_new_node fuel |}.

Definition rcu_scheme (fuel : nat) (cb_thread : Z) : Scheme := {|
  scheme_inserter := rcu_inserter fuel;
  unlock_before_free := false;
  ListWriter.free_node_later := free_node_later fuel cb_thread |}.

End code.
