(* ===== verification/RcuWriter.v ===== *)
(** * The RCU updater

    list_writer.c with rcu.c keeps the promises of [SchemeSpec]: the nodes it
    retires stay in use, with their key and their pointer, until the library
    calls [free_node_cb] on them. *)
From S2P Require Import Prelude Mem RG SWP Table TableFacts Frozen Allocator ListOps Lock Stamp ListWriter AllocState ListRcu.

(** No counter guards a node: readers trust that it is kept. *)
Definition rcu_stamp : Stamp.
Proof.
  refine {| st := fun _ _ _ => Some 0; trusted := fun _ => False; counters_ok := fun _ => True; deferred := true |}.
  - done.
  - by exists 0.
  - done.
Defined.
#[local] Existing Instance rcu_stamp.

(** What counts the nodes that wait. *)
Definition count_loc (self : Z) (l : loc) : bool :=
  match l with
  | LGlob (Gqsblockeds | Grcublockeds) => true
  | LTls t Vamort => t =? self
  | _ => false
  end.

Lemma rcu_count_step self m g l v : count_loc self l = true -> stamp_guar m g (<[l := v]> m) g.
Proof.
  intros Hl. apply stamp_guar_step; [done|]. intros HI. apply stamp_step_grows; [done| |].
  - by apply grows_store; destruct l.
  - intros l' w Hl'. rewrite lookup_insert_ne; [done|]. intros ->. by destruct l'.
Qed.

Section updater.
Context `{HL : RcuLib} {HO : RcuLibOk} (self : Z) (d : tlsvar -> Z) (E : err -> Prop).
Abbreviation swp' := (swp (foreign self) E stamp_guar).
Abbreviation own := (alloc_state any_lock self d).

Lemma own_count h U m l v : count_loc self l = true -> own h U m -> own h U (<[l := v]> m).
Proof.
  intros Hl [Ho [Hd Hk]]. split; [|split].
  - revert Ho. apply alloc_own_grows with (W := fun l' => bool_decide (l' = l)).
    + apply grows_store; [by destruct l|by apply bool_decide_eq_true].
    + intros l' Hl'. apply bool_decide_eq_false. intros ->.
      destruct l as [| | | | | | |[]|? []| | |]; try done.
  - revert Hd. apply driver_at_keep. intros x Hx. apply mget_insert_ne. intros ->.
    unfold driver_vars in Hx. set_unfold in Hx. by destruct_or! Hx; subst.
  - eapply locks_ok_ext; [|done]. intros i. apply lookup_insert_ne. by destruct l.
Qed.

(** ** Rules for the counters *)

Section rules.
Context {A : Type} (l : loc) (Hl : count_loc self l = true).
Implicit Types (Q : A -> mem -> gst -> Prop).

Lemma count_static m : exists v, mget m l = Some v.
Proof. apply mget_static. by destruct l. Qed.

Lemma count_private : foreign self l = false.
Proof. destruct l as [| | | | | | |[]|? []| | |]; try done. cbn in *. by rewrite Hl. Qed.

Lemma c_load (k : Z -> prog A) Q m g : (forall v, swp' (k v) Q m g) -> swp' (load l ≫= k) Q m g.
Proof.
  intros Hk. destruct (count_static m) as [v Hv]. eapply swp_load; [done|apply count_private|apply (ag_silent (self:=self))|done].
Qed.

Lemma c_store v (k : unit -> prog A) Q m g : swp' (k tt) Q (<[l := v]> m) g -> swp' (store l v ≫= k) Q m g.
Proof.
  intros Hk. destruct (count_static m) as [w Hw].
  eapply swp_store; [done|apply count_private|by eapply rcu_count_step|done].
Qed.

Lemma c_xadd v (k : Z -> prog A) Q m g : (forall w x, swp' (k w) Q (<[l := x]> m) g) -> swp' (atomic_xadd4 l v ≫= k) Q m g.
Proof.
  intros Hk. destruct (count_static m) as [w Hw].
  eapply swp_xadd; [done|apply count_private|by eapply rcu_count_step|done].
Qed.

End rules.

(** ** The end of [delete] *)

Lemma count_retired_spec count_atm h U m g : own h U m ->
  swp' (count_retired count_atm self) (fun _ m' g' => g' = g /\ grows off_list m m' /\ own h U m') m g.
Proof.
  intros Ho. assert (Hst : forall l v m1, count_loc self l = true -> grows off_list m m1 /\ own h U m1 ->
    grows off_list m (<[l := v]> m1) /\ own h U (<[l := v]> m1)).
  { intros l v m1 Hl [Hg Ho1]. split; [etrans; [exact Hg|]; by apply grows_store; destruct l|by apply own_count]. }
  assert (Ham : count_loc self (LTls self Vamort) = true) by (cbn; apply Z.eqb_refl).
  unfold count_retired. destruct count_atm.
  - apply c_load; [done|]. intros v. apply c_store; [done|]. apply c_load; [done|]. intros v'.
    destruct (_ <=? _).
    + apply swp_bind_ret, c_store; [done|]. apply swp_ret. split; [done|]. apply Hst; [done|]. by apply Hst.
    + apply c_load; [done|]. intros w. destruct (_ =? _).
      * apply c_xadd; [done|]. intros _ x. apply swp_ret. split; [done|]. apply Hst; [done|]. by apply Hst.
      * apply swp_ret. split; [done|]. by apply Hst.
  - apply c_load; [done|]. intros v. apply swp_bind_ret, c_store; [done|]. apply swp_ret. split; [done|]. by apply Hst.
Qed.

End updater.

#[export] Instance rcu_inserter_spec fuel self d :
  @InserterSpec (rcu_inserter (S fuel)) self stamp_guar (alloc_state any_lock self d).
Proof.
  apply (alloc_state_inserter (HIns := rcu_inserter (S fuel)) any_lock self d fuel); [| |done].
  - intros E U m g i xs _ Ho _. split_and!; [done..|exact Ho].
  - intros E U m g i xs _ Ho _. cbn [ListWriter.lock_wunlock rcu_inserter].
    unfold OneWriter.lock_wunlock, write_read_barrier.
    apply swp_bind_ret, swp_fence; [apply (ag_silent (self:=self))|]. split_and!; [done..|exact Ho].
Qed.

#[export] Instance rcu_scheme_spec count_blc count_atm `{HL : RcuLib} {HO : RcuLibOk} fuel cb self d :
  @SchemeSpec (rcu_scheme count_blc count_atm (S fuel) cb) self stamp_guar (alloc_state any_lock self d).
Proof.
  refine (@Build_SchemeSpec (rcu_scheme count_blc count_atm (S fuel) cb) _ _ _ _ _).
  intros E U m g n i xs HI Ho HU Hp Hi. unfold delete_end. cbn [unlock_before_free rcu_scheme].
  apply swp_bind, swp_ret. destruct (mget_static m (LTls self Vthread) eq_refl) as [t Ht].
  set (g1 := Gst (bk g) None ({[n]} ∪ old g)).
  eapply (swp_load_gh _ _ _ _ _ _ _ _ _ g1); [done|apply foreign_self| |].
  { split; [done|]. intros _. eapply stamp_keep_step; [by intros ? ?|by apply stamp_step_grows|done]. }
  assert (HI1 : Inv m g1) by (by eapply Inv_retire).
  apply swp_bind. cbn [ListWriter.free_node_later rcu_scheme]. unfold free_node_later.
  apply swp_quiet; [apply call_rcu_quiet|apply (ag_silent (self:=self))|]. intros _.
  apply (swp_mono _ _ _ _ (fun _ m' g' => g' = g1 /\ grows off_list m m' /\ alloc_state any_lock self d (Some i) U m')).
  { destruct count_blc; [by apply count_retired_spec|]. by apply swp_ret. }
  cbn beta. intros _ m1 g' (-> & Hg1 & Ho1). apply swp_bind.
  eapply swp_mono; [eapply (ss_wunlock (InserterSpec := rcu_inserter_spec fuel self d) _ U m1 g1 i xs); [by eapply Inv_grows|exact Ho1|exact Hi]|].
  cbn beta. intros _ m2 g2 (-> & Hg2 & Ho2). apply swp_ret. split; [done|]. split; [by etrans|by apply retired_keep].
Qed.

#[export] Instance rcu_spec count_blc count_atm `{HL : RcuLib} {HO : RcuLibOk} fuel cb self :
  @DriverSpec (@writer_ops (rcu_scheme count_blc count_atm (S fuel) cb)) self stamp_guar (alloc_state any_lock self).
Proof.
  apply alloc_state_driver. intros d.
  apply (@writer_ops_spec (rcu_scheme count_blc count_atm (S fuel) cb)), rcu_scheme_spec, _.
Qed.
