(* ===== verification/RcuSearch.v ===== *)
(** * The RCU reader among updaters

    As long as the library frees nothing, the search of list_rcu.c never
    touches unmapped memory and answers what its bucket held at some moment of
    the search.  The nodes retired before the search began may be given back
    meanwhile: they are then no nodes of the ghost state it starts from. *)
From S2P Require Import Prelude Mem RG SWP Table TableFacts Frozen Allocator ListOps Stamp ListWriter ListRcu RcuWriter.

#[local] Existing Instance rcu_stamp.

Section reader.
Context `{HC : Calloc} `{HL : RcuLib} {HO : RcuLibOk} (self : Z) (E : err -> Prop).
Abbreviation rwp := (wp E grely (rguar self)).

Lemma r_deref {A} l (k : Z -> prog A) (Q : A -> gcfg -> Prop) s : gwf s ->
  (forall s1, grely s s1 -> gwf s1 -> exists v, mget (cm s1) l = Some v /\
     forall s2, grely s1 s2 -> gwf s2 -> rwp (k v) Q s2) ->
  rwp (rcu_dereference l ≫= k) Q s.
Proof.
  intros W Hk. destruct (dereference_load l) as (before & after & Hb & Ha & ->).
  eapply (r_bind self E _ k (fun v s2 => rwp (k v) Q s2)); [done| |].
  - apply r_quiet; [done..|]. intros _ s1 R1 W1. apply r_load; [done|]. intros s2 R2 W2.
    destruct (Hk s2 ltac:(by etrans) W2) as (v & Hv & Hkv). exists v. split; [done|].
    apply r_quiet; [done..|]. intros _ s3 R3 W3. apply r_ret; [done|]. intros s4 R4 W4. apply Hkv; [by etrans|done].
  - cbn beta. intros v s1 _ _ Hw. done.
Qed.

(** ** What the traversal knows *)

Section search.
Context (key i : Z) (s0 : gcfg) (W0 : gwf s0).

(** [cur] was in the bucket at some moment [s1] of the search, after smaller
    keys only. *)
Definition reached (s : gcfg) (cur : Z) : Prop :=
  exists s1 pre suf, ksteps s0 s1 /\ ksteps s1 s /\ bk (cg s1) !! i = Some (pre ++ cur :: suf) /\
    (forall x, x ∈ pre -> nkey (cm s1) x < key).

Definition at_node (s : gcfg) (cur : Z) : Prop :=
  (cur = NULL -> lin s0 s i key 0) /\ (cur <> NULL -> reached s cur).

Lemma grely_ksteps s s' : grely s s' -> gwf s -> ksteps s s'.
Proof. intros [_ He] W. by apply (ev_ksteps _ _ (He W)). Qed.

Lemma at_node_mono s s' cur : grely s s' -> gwf s -> at_node s cur -> at_node s' cur.
Proof.
  intros R W [H0 H1]. split; [intros; eapply lin_mono; eauto|]. intros Hn.
  destruct (H1 Hn) as (s1 & pre & suf & Ha & Hb & Hr). exists s1, pre, suf. split; [done|]. split; [|done].
  etrans; [done|]. by apply grely_ksteps.
Qed.

(** The node is kept, with the key it had. *)
Lemma reached_kept s cur : reached s cur -> kept (cg s) cur.
Proof.
  intros (s1 & pre & suf & Ha & Hb & Hbk & Hlt). eapply (ksteps_kept s1); [done|].
  eapply (linked_kept _ i). eexists. split; [done|]. set_solver.
Qed.

Lemma ksteps_since s1 s : ksteps s0 s1 -> ksteps s1 s -> since s0 s (cm s1).
Proof.
  intros H1 H2. destruct (ksteps_wf _ _ W0 H1) as [Ht _].
  apply (since_mono _ s1); [by apply ksteps_trace|]. apply since_now; [by apply ksteps_trace|apply W0|done].
Qed.

Lemma reached_cand s cur : reached s cur -> cand s0 s i key cur.
Proof.
  intros (s1 & pre & suf & Ha & Hb & Hbk & Hlt). destruct (ksteps_wf _ _ W0 Ha) as [_ HI].
  exists (cm s1), pre, suf. split_and!; [by apply ksteps_since|by eapply inv_path|by eapply inv_incr|done|].
  symmetry. eapply (ksteps_kept s1); [done|]. eapply (linked_kept _ i). eexists. split; [done|]. set_solver.
Qed.

(** The list of a store of the search, after a prefix of smaller keys. *)
Lemma at_node_hd s1 s pre suf : ksteps s0 s1 -> ksteps s1 s -> bk (cg s1) !! i = Some (pre ++ suf) ->
  (forall x, x ∈ pre -> nkey (cm s1) x < key) -> at_node s (hd0 suf).
Proof.
  intros Ha Hb Hbk Hlt. destruct (ksteps_wf _ _ W0 Ha) as [_ HI]. split.
  - destruct suf as [|y suf]; simpl.
    + intros _. exists (cm s1), (pre ++ []). split_and!; [by apply ksteps_since|by eapply inv_path|].
      unfold spec_search. rewrite decide_False; [done|]. eapply kset_gap; [done|done|set_solver].
    + intros ->. pose proof (path_nonnull _ _ _ _ NULL (inv_path _ _ HI _ _ Hbk)) as Hn. destruct Hn; [set_solver|done].
  - intros Hn. destruct suf as [|y suf]; [done|]. by exists s1, pre, suf.
Qed.

(** The next node: the pointer is the one [cur] had when it was last linked. *)
Lemma reached_next s cur : reached s cur -> nkey (cm s) cur < key ->
  exists nx, cm s !! LNext cur = Some nx /\ at_node s nx.
Proof.
  intros (s1 & pre & suf & Ha & Hb & Hbk & Hlt) Hk.
  assert (Hl : linked (cg s1) i cur) by (eexists; split; [done|]; set_solver).
  destruct (ksteps_linked _ _ _ _ Hb Hl) as (s2 & H1 & H2 & (xs & Hxs & Hin) & ->).
  apply list_elem_of_split in Hin as (pre2 & suf2 & ->).
  assert (H02 : ksteps s0 s2) by (by etrans). destruct (ksteps_wf _ _ W0 H02) as [_ HI].
  exists (hd0 suf2). split; [by eapply inv_next|].
  destruct (ksteps_kept _ _ cur H1 (linked_kept _ _ _ Hl)) as [Hk2 Hn2]. destruct (ksteps_kept _ _ cur H2 Hk2) as [_ Hn3].
  eapply (at_node_hd s2 s (pre2 ++ [cur])); [done|done|by rewrite <- app_assoc|].
  intros x [Hx| ->%list_elem_of_singleton]%elem_of_app; [|lia].
  pose proof (inv_keys_split _ _ HI i pre2 (cur :: suf2) x cur Hxs Hx ltac:(set_solver)). lia.
Qed.

(** ** The search *)

Abbreviation answer := (fun b s' => nowrap (ctr s') -> lin s0 s' i key b).

Lemma rcu_loop_ok fuel : E OutOfFuel -> forall cur s, grely s0 s -> gwf s -> at_node s cur ->
  rwp (ListRcu.search_loop fuel key cur) answer s.
Proof.
  intros HE. induction fuel as [|fuel IH]; intros cur s R W Hat; [exact HE|]. cbn [search_loop].
  destruct (Z.eqb_spec cur NULL) as [->|Hn].
  { apply r_quiet; [apply read_unlock_quiet|done|]. intros _ s1 R1 W1. apply r_ret; [done|]. intros s2 R2 W2 _.
    apply (lin_mono s0 s); [by etrans|]. by apply Hat. }
  apply r_load; [done|]. intros s1 R1 W1. pose proof (at_node_mono _ _ _ R1 W Hat) as Hat1.
  pose proof (proj2 Hat1 Hn) as Hr1. pose proof (reached_kept _ _ Hr1) as Hk1.
  pose proof (kept_node _ _ (proj2 W1) _ Hk1) as Hnode.
  exists (nkey (cm s1) cur). split; [by apply mget_lookup, node_key|].
  destruct (Z.leb_spec key (nkey (cm s1) cur)) as [Hle|Hlt].
  - apply r_quiet; [apply read_unlock_quiet|done|]. intros _ s2 R2 W2. apply r_ret; [done|]. intros s3 R3 W3 _.
    apply (lin_mono s0 s1); [by etrans|]. apply cand_answer; [by apply reached_cand|done].
  - apply r_deref; [done|]. intros s2 R2 W2. pose proof (at_node_mono _ _ _ R2 W1 Hat1) as Hat2.
    destruct (ksteps_kept _ _ cur (grely_ksteps _ _ R2 W1) Hk1) as [_ Hk2].
    destruct (reached_next s2 cur (proj2 Hat2 Hn) ltac:(lia)) as (nx & Hnx & Hat3). exists nx. split; [by apply mget_lookup|].
    intros s3 R3 W3. apply IH; [rely_trans|done|by eapply at_node_mono].
Qed.

Lemma rcu_search_ok fuel lock : E OutOfFuel -> is_Some (bk (cg s0) !! i) ->
  rwp (ListRcu.search fuel self key (LHead i) lock) answer s0.
Proof.
  intros HE Hi. unfold search. apply r_quiet; [apply read_lock_quiet|done|]. intros _ s1 R1 W1.
  apply r_deref; [done|]. intros s2 R2 W2. assert (R02 : grely s0 s2) by (by etrans).
  destruct (ev_dom _ _ (proj2 R02 W0) i Hi) as [xs Hxs]. exists (hd0 xs).
  split; [by eapply path_hd, inv_path; [apply W2|]|]. intros s3 R3 W3.
  apply rcu_loop_ok; [done|by etrans|done|].
  eapply at_node_mono; [exact R3|done|]. apply (at_node_hd s2 s2 []); [by apply grely_ksteps|done|done|].
  by intros ? ?%elem_of_nil.
Qed.

End search.
End reader.
