(* ===== verification/Grace.v ===== *)
(** * liburcu at work: grace periods and callbacks

    What liburcu promises, as a machine: [rcu_read_lock] and
    [rcu_read_unlock] delimit the readers' critical sections, [call_rcu]
    registers a node, and the library's thread runs the callback of a
    registered node once every critical section that was open when it was
    registered has ended (a grace period).  Threads, callbacks and library
    take their steps in any order. *)
From S2P Require Import Prelude Mem RG Events.

(** ** The library

    The threads that are inside a critical section, and the registered nodes,
    oldest first, each with the threads whose critical sections have to end. *)
Record lib : Set := Lib { inside : gset nat; waiting : list (Z * gset nat) }.

Definition lib_step (t : nat) (o : op) (L : lib) : lib :=
  match o with
  | LibCall RcuReadLock => Lib ({[t]} ∪ inside L) (waiting L)
  | LibCall RcuReadUnlock => Lib (inside L ∖ {[t]}) ((fun w => (w.1, w.2 ∖ {[t]})) <$> waiting L)
  | LibCall (CallRcu n) => Lib (inside L) (waiting L ++ [(n, inside L)])
  | _ => L
  end.

(** The nodes that wait. *)
Definition waits (L : lib) : gset Z := list_to_set (waiting L).*1.

(** Those that wait for the thread [i]. *)
Definition waits_for (i : nat) (L : lib) : gset Z := list_to_set (filter (fun w => i ∈ w.2) (waiting L)).*1.

(** ** The machine

    [callback] is what the library's thread is doing. *)
Record machine (A : Type) : Type := Machine {
  threads : list (prog A); callback : prog unit; library : lib; memory : mem }.
Arguments Machine {A} _ _ _ _.
Arguments threads {A} _.
Arguments callback {A} _.
Arguments library {A} _.
Arguments memory {A} _.

Section machine.
Context `{Calloc} {A : Type} (cb : Z -> prog unit).

(** A step, with the store it passes through. *)
Inductive mstep : machine A -> list mem -> machine A -> Prop :=
  | ms_op ps c L m i o k r m' : ps !! i = Some (Vis o k) -> op_exec o m = Some (r, m') ->
      mstep (Machine ps c L m) [m'] (Machine (<[i := k r]> ps) c (lib_step i o L) m')
  | ms_fault ps c L m i o k : ps !! i = Some (Vis o k) -> op_exec o m = None ->
      mstep (Machine ps c L m) [m] (Machine (<[i := Crash Segfault]> ps) c L m)
  | ms_cb_op ps L m o k r m' : op_exec o m = Some (r, m') ->
      mstep (Machine ps (Vis o k) L m) [m'] (Machine ps (k r) L m')
  | ms_cb_fault ps L m o k : op_exec o m = None ->
      mstep (Machine ps (Vis o k) L m) [m] (Machine ps (Crash Segfault) L m)
  | ms_cb_start ps L m n W1 W2 : waiting L = W1 ++ (n, ∅) :: W2 ->
      mstep (Machine ps (Ret tt) L m) [] (Machine ps (cb n) (Lib (inside L) (W1 ++ W2)) m).

(** A chosen execution: a thread's step, the callback's, or the start of the
    callback of the first node if its grace period is over. *)
Inductive event := Thread (i : nat) | Callback | Start.

Definition mach_do (e : event) (c : machine A) : option (list mem * machine A) :=
  let '(Machine ps p L m) := c in
  match e with
  | Thread i =>
      match ps !! i with
      | Some (Vis o k) =>
          match op_exec o m with
          | Some (r, m') => Some ([m'], Machine (<[i := k r]> ps) p (lib_step i o L) m')
          | None => Some ([m], Machine (<[i := Crash Segfault]> ps) p L m)
          end
      | _ => None
      end
  | Callback =>
      match p with
      | Vis o k =>
          match op_exec o m with
          | Some (r, m') => Some ([m'], Machine ps (k r) L m')
          | None => Some ([m], Machine ps (Crash Segfault) L m)
          end
      | _ => None
      end
  | Start =>
      match p, waiting L with
      | Ret tt, (n, W) :: ws =>
          if decide (W = ∅) then Some ([], Machine ps (cb n) (Lib (inside L) ws) m) else None
      | _, _ => None
      end
  end.

Lemma mach_do_step e c new c' : mach_do e c = Some (new, c') -> mstep c new c'.
Proof.
  destruct c as [ps p L m]. destruct e as [i| |]; simpl.
  - destruct (ps !! i) as [[|?|o k]|] eqn:Hi; try done.
    destruct (op_exec o m) as [[r m']|] eqn:Ho; intros [= <- <-]; [by eapply ms_op|by eapply ms_fault].
  - destruct p as [|?|o k]; try done. destruct (op_exec o m) as [[r m']|] eqn:Ho; intros [= <- <-]; [by eapply ms_cb_op|by eapply ms_cb_fault].
  - destruct p as [[]| |]; try done. destruct L as [ins [|[n W] ws]]; simpl; try done.
    destruct (decide (W = ∅)) as [->|]; [|done]. intros [= <- <-]. exact (ms_cb_start ps (Lib ins ((n, ∅) :: ws)) m n [] ws eq_refl).
Qed.

(** A callback that runs alone. *)
Lemma callback_alone p ps L : forall m a m', run p m = Ok a m' ->
  exists tr, runs mstep (Machine ps p L m) tr (Machine ps (Ret a) L m').
Proof.
  induction p as [b|e|o k IH]; intros m a m' Hr; simpl in Hr; [|done|].
  - injection Hr as -> ->. eexists. apply runs_refl.
  - destruct (op_exec o m) as [[r m1]|] eqn:Ho; [|done]. destruct (IH r m1 a m' Hr) as [tr Ht].
    exists (tr ++ [m1]). eapply runs_trans; [|exact Ht]. apply runs_step. by eapply ms_cb_op.
Qed.

End machine.

Abbreviation msteps cb := (runs (mstep cb)).
Abbreviation mach_run cb := (run_events (mach_do cb)).

(** ** Facts about the library *)

Lemma elem_of_waits n L : n ∈ waits L <-> exists W, (n, W) ∈ waiting L.
Proof.
  unfold waits. rewrite elem_of_list_to_set, list_elem_of_fmap. split; [intros ([? W] & -> & Hw); by exists W|].
  intros [W Hw]. by exists (n, W).
Qed.

Lemma elem_of_waits_for i n L : n ∈ waits_for i L <-> exists W, (n, W) ∈ waiting L /\ i ∈ W.
Proof.
  unfold waits_for. rewrite elem_of_list_to_set, list_elem_of_fmap. split.
  - intros ([? W] & -> & [Hi Hw]%list_elem_of_filter). by exists W.
  - intros (W & Hw & Hi). exists (n, W). split; [done|]. by apply list_elem_of_filter.
Qed.

Lemma waits_for_sub i L : waits_for i L ⊆ waits L.
Proof. intros n (W & Hw & _)%elem_of_waits_for. apply elem_of_waits. by exists W. Qed.

Lemma waits_unlock t L : waits (lib_step t (LibCall RcuReadUnlock) L) = waits L.
Proof. unfold waits. simpl. by rewrite <- list_fmap_compose. Qed.

Lemma waits_for_unlock i t L : i <> t -> waits_for i (lib_step t (LibCall RcuReadUnlock) L) = waits_for i L.
Proof.
  intros Hne. apply set_eq. intros n. rewrite !elem_of_waits_for. simpl. split.
  - intros (W & ([n' W'] & [= -> ->] & Hw)%list_elem_of_fmap & Hi). exists W'. split; [done|]. set_solver.
  - intros (W & Hw & Hi). exists (W ∖ {[t]}). split; [apply list_elem_of_fmap; by exists (n, W)|]. set_solver.
Qed.

Lemma waits_call t d L : waits (lib_step t (LibCall (CallRcu d)) L) = {[d]} ∪ waits L.
Proof. unfold waits. simpl. rewrite fmap_app, list_to_set_app_L. simpl. set_solver. Qed.

Lemma waits_for_call i t d L : waits_for i (lib_step t (LibCall (CallRcu d)) L) =
  if decide (i ∈ inside L) then {[d]} ∪ waits_for i L else waits_for i L.
Proof.
  apply set_eq. intros n. rewrite elem_of_waits_for. simpl. setoid_rewrite elem_of_app. setoid_rewrite list_elem_of_singleton.
  case_decide; rewrite ?elem_of_union, ?elem_of_singleton, elem_of_waits_for; naive_solver.
Qed.

Lemma waits_start ins L n W W1 W2 : waiting L = W1 ++ (n, W) :: W2 -> NoDup (waiting L).*1 ->
  waits L = {[n]} ∪ waits (Lib ins (W1 ++ W2)) /\ n ∉ waits (Lib ins (W1 ++ W2)).
Proof.
  unfold waits. intros -> Hn. rewrite fmap_app in Hn. simpl in *. apply NoDup_app in Hn as (Hn1 & Hd & [Hn2 _]%NoDup_cons).
  rewrite !fmap_app, !list_to_set_app_L. simpl. split; [set_solver|]. rewrite elem_of_union, !elem_of_list_to_set.
  intros [Hx|Hx]; [apply (Hd n Hx)|done]. by left.
Qed.

Lemma waits_for_start i ins L n W1 W2 : waiting L = W1 ++ (n, ∅) :: W2 ->
  waits_for i (Lib ins (W1 ++ W2)) = waits_for i L.
Proof.
  intros Hw. apply set_eq. intros x. rewrite !elem_of_waits_for, Hw. simpl.
  setoid_rewrite elem_of_app. setoid_rewrite elem_of_cons. naive_solver set_solver.
Qed.
