(* ===== verification/GraceLogic.v ===== *)
(** * A rely-guarantee logic for the machine with grace periods

    [lwp] is [ewp] with the library's data in the configuration: a program's
    library calls change them as [lib_step] says.  The invariant [jinv] joins
    that of the table ([Inv]), that of the allocator ([ainv]) and the library's
    data: who may touch a node at which moment of its life. *)
From S2P Require Import Prelude Mem RG Events SWP Table TableFacts Erase Frozen Allocator AllocRoles ListOps Stamp RcuWriter RcuSearch Grace.

#[local] Existing Instance rcu_stamp.

(** ** Configurations

    The library's data, the lists of the table, the node just unlinked, and
    whose the nodes are. *)
Record jst : Set := Jst { jl : lib; jbk : gmap Z (list Z); jpend : option (Z * Z); ja : ast }.
Abbreviation jcfg := (cfg jst).

(** The table, when the nodes [O] of those retired are still of interest. *)
Definition tab (O : gset Z) (g : jst) : gst := Gst (jbk g) (jpend g) O.

(** What the allocator sees of a configuration, and what the reader [i] does. *)
Definition alloc_part (s : jcfg) : cfg ast := Cfg (cm s) (ctr s) (ja (cg s)).
Definition view (i : nat) (s : jcfg) : gcfg := Cfg (cm s) (ctr s) (tab (waits_for i (jl (cg s))) (cg s)).

(** The library's part of a step. *)
Abbreviation lib_moves ls := (fun (o : op) (g g' : jst) => jl g' = ls o (jl g)).
Abbreviation lwp ls := (ewp (fun _ _ => True) (lib_moves ls)).

(** ** The invariant

    The updater is thread 0, callbacks run in thread [cbt]; the nodes that wait
    are put down to a thread [wt] of their own. *)
Section inv.
Context (cbt wt : Z) (Hcbt : cbt <> 0) (Hwt : wt <> 0) (Hcw : wt <> cbt).

(** The nodes that the updater does not have. *)
Definition unused (s : jcfg) (x : Z) : Prop :=
  x ∈ shared (ja (cg s)) \/ x ∈ mine (ja (cg s)) cbt \/ x ∈ mine (ja (cg s)) wt.

Record jinv (s : jcfg) : Prop := {
  ji_trace : head (ctr s) = Some (cm s);
  ji_table : Inv (cm s) (tab (waits (jl (cg s))) (cg s));
  ji_alloc : ainv any_node (alloc_part s);
  ji_nodup : NoDup (waiting (jl (cg s))).*1;
  ji_waits n : n ∈ waits (jl (cg s)) -> n ∈ mine (ja (cg s)) wt;
  ji_live n : live (tab ∅ (cg s)) n -> n ∈ mine (ja (cg s)) 0;
  ji_owned n : node (cm s) n -> n ∈ mine (ja (cg s)) 0 \/ unused s n;
  ji_inside n W i : (n, W) ∈ waiting (jl (cg s)) -> i ∈ W -> i ∈ inside (jl (cg s)) }.

(** What the updater, the reader [i] and the callbacks rely on. *)
Record stable_w (s s' : jcfg) : Prop := {
  sw_bk : jbk (cg s') = jbk (cg s);
  sw_pend : jpend (cg s') = jpend (cg s);
  sw_waits : waits (jl (cg s')) ⊆ waits (jl (cg s));
  sw_unused x : unused s' x -> unused s x;
  sw_erase : erase (cm s') = erase (cm s);
  sw_alloc : arely any_node 0 (alloc_part s) (alloc_part s') }.

Record stable_r (i : nat) (s s' : jcfg) : Prop := {
  sr_trace : suffix (ctr s) (ctr s');
  sr_dom j : is_Some (jbk (cg s) !! j) -> is_Some (jbk (cg s') !! j);
  sr_inside : i ∈ inside (jl (cg s')) <-> i ∈ inside (jl (cg s));
  sr_view : i ∈ inside (jl (cg s)) -> grely (view i s) (view i s') }.

(** The reader [i] only reads nodes that are kept for it. *)
Definition touches (i : nat) (o : op) (s : jcfg) : Prop :=
  match o with Load (LKey n) | Load (LNext n) => kept (cg (view i s)) n | _ => True end.
Definition anywhere (o : op) (s : jcfg) : Prop := True.

Definition stable_c (s s' : jcfg) : Prop := arely any_node cbt (alloc_part s) (alloc_part s').

Definition keeps (P : jcfg -> jcfg -> Prop) : jcfg -> jcfg -> Prop := preserves jinv P.

Abbreviation rely_w := (keeps stable_w).
Abbreviation rely_r i := (keeps (stable_r i)).
Abbreviation rely_c := (keeps stable_c).

#[export] Instance keeps_preorder P : PreOrder P -> PreOrder (keeps P).
Proof. unfold keeps. apply _. Qed.

#[export] Instance stable_w_preorder : PreOrder stable_w.
Proof.
  split; [intros s; split; auto; reflexivity|]. intros s1 s2 s3 [A1 A2 A3 A4 A5 A6] [B1 B2 B3 B4 B5 B6].
  split; [congruence..|by etrans|auto|congruence|by etrans].
Qed.

#[export] Instance stable_r_preorder i : PreOrder (stable_r i).
Proof.
  split; [intros s; split; auto; reflexivity|]. intros s1 s2 s3 [A1 A2 A3 A4] [B1 B2 B3 B4].
  split; [by etrans|auto|by rewrite B3|]. intros Hi. etrans; [by apply A4|]. apply B4. by apply A3.
Qed.

#[export] Instance stable_c_preorder : PreOrder stable_c.
Proof. split; [intros s; unfold stable_c; reflexivity|]. intros s1 s2 s3. unfold stable_c. by etrans. Qed.

(** The guarantees: each thread keeps the others' rely conditions. *)
Record guar_w (s s' : jcfg) : Prop := {
  gw_c : rely_c s s';
  gw_r i : i <> 0%nat -> rely_r i s s' }.
Record guar_r (j : nat) (s s' : jcfg) : Prop := {
  gr_w : rely_w s s';
  gr_c : rely_c s s';
  gr_r i : i <> 0%nat -> i <> j -> rely_r i s s' }.
Record guar_c (s s' : jcfg) : Prop := {
  gc_w : rely_w s s';
  gc_r i : i <> 0%nat -> rely_r i s s' }.

End inv.
