(* ===== verification/GraceSteps.v ===== *)
(** * The steps of the machine with grace periods

    Which step keeps which rely condition: operations without effect, library
    calls, the updater's writes to the lists, the allocator's writes, and the
    start of a callback. *)
From S2P Require Import Prelude Mem RG SWP Table TableFacts Erase Frozen Allocator AllocRoles ListOps Stamp RcuWriter RcuSearch Grace GraceLogic.

#[local] Existing Instance rcu_stamp.

Lemma grely_frozen (s s' : gcfg) : ctr s' = cm s' :: ctr s -> (forall p, node (cm s) p -> node (cm s') p) ->
  (forall j, is_Some (bk (cg s) !! j) -> is_Some (bk (cg s') !! j)) ->
  (Inv (cm s) (cg s) -> Inv (cm s') (cg s') /\ frozen (cm s) (cg s) (cm s') (cg s')) -> grely s s'.
Proof.
  intros Ht Hn Hd Hf. split; [rewrite Ht; by exists [cm s']|]. intros [_ HI]. destruct (Hf HI) as [HI' HF].
  assert (Hok : trace_ok s') by (unfold trace_ok; by rewrite Ht).
  split; [done|done|exact Hn| |by intros ? ? ? ? ? ? []|exact Hd|].
  - intros i n v _ Hv. by exists v.
  - intros _. apply rtc_once. split; [rewrite Ht; by exists [cm s']|done..].
Qed.

Section steps.
Context (cbt wt : Z) (Hcbt : cbt <> 0) (Hwt : wt <> 0) (Hcw : wt <> cbt).
Abbreviation jinv := (jinv cbt wt).
Abbreviation rely_w := (keeps cbt wt (stable_w cbt wt)).
Abbreviation rely_r i := (keeps cbt wt (stable_r i)).
Abbreviation rely_c := (keeps cbt wt (stable_c cbt)).
Abbreviation unused := (unused cbt wt).

Lemma view_wf i s : jinv s -> gwf (view i s).
Proof.
  intros Hi. split; [apply Hi|].
  exact (Inv_shrink _ _ (waits_for i (jl (cg s))) (ji_table _ _ _ Hi) (waits_for_sub i _)).
Qed.

(** ** Operations without effect on the store *)

(** The library's data change, but for what the thread [j] is doing. *)
Lemma lib_keeps s L j : waits L = waits (jl (cg s)) -> NoDup (waiting L).*1 ->
  (forall n W i, (n, W) ∈ waiting L -> i ∈ W -> i ∈ inside L) ->
  (forall i, i <> j -> waits_for i L = waits_for i (jl (cg s)) /\ (i ∈ inside L <-> i ∈ inside (jl (cg s)))) ->
  let s' := next_cfg s (cm s) (Jst L (jbk (cg s)) (jpend (cg s)) (ja (cg s))) in
  (jinv s -> jinv s') /\ guar_r cbt wt j s s'.
Proof.
  intros Hw Hn Hin Hj s'. assert (Hi' : jinv s -> jinv s').
  { intros [H1 H2 H3 H4 H5 H8 H6 H7]. split; cbn [s' next_cfg cm ctr cg jl jbk jpend ja]; [done| |by destruct H3|done| |exact H8|exact H6|exact Hin].
    - rewrite Hw. exact H2.
    - intros n. rewrite Hw. apply H5. }
  split; [done|]. split; [intros Hi|intros Hi|intros i _ Hne Hi]; (split; [auto|]).
  - split; cbn [s' next_cfg cm ctr cg jl jbk jpend ja]; [done|done|by rewrite Hw|done|done|apply arely_same].
  - exact (arely_same any_node cbt (alloc_part s) _).
  - destruct (Hj i Hne) as [Hv Hii]. split; cbn [s' next_cfg cm ctr cg jl jbk jpend ja]; [by exists [cm s]|done|exact Hii|].
    intros _. apply grely_frozen; [done..|]. unfold view. cbn. rewrite Hv. intros HI. split; [done|].
    by apply frozen_ext.
Qed.

(** A load or a barrier. *)
Lemma same_keeps s : let s' := next_cfg s (cm s) (cg s) in
  (jinv s -> jinv s' /\ stable_w cbt wt s s' /\ stable_c cbt s s' /\ (forall i, stable_r i s s')).
Proof.
  intros s' Hi. assert (Hi' : jinv s') by (destruct Hi; split; auto; by destruct ji_alloc).
  split; [done|]. split; [|split].
  - split; auto. apply arely_same.
  - exact (arely_same any_node cbt (alloc_part s) _).
  - intros i. split; [by exists [cm s]|done|done|]. intros _. apply grely_frozen; [done..|]. intros HI.
    split; [done|]. by apply frozen_ext.
Qed.

Lemma same_guar_w s : guar_w cbt wt s (next_cfg s (cm s) (cg s)).
Proof. split; [|intros i _]; intros Hi; destruct (same_keeps s Hi) as (? & ? & ? & ?); by split. Qed.

Lemma same_guar_r j s : guar_r cbt wt j s (next_cfg s (cm s) (cg s)).
Proof. split; [| |intros i _ _]; intros Hi; destruct (same_keeps s Hi) as (? & ? & ? & ?); by split. Qed.

(** A reader enters its critical section. *)
Lemma read_lock_keeps j s (s' := next_cfg s (cm s)
    (Jst (lib_step j (LibCall RcuReadLock) (jl (cg s))) (jbk (cg s)) (jpend (cg s)) (ja (cg s)))) :
  jinv s -> guar_r cbt wt j s s' /\ jinv s' /\ j ∈ inside (jl (cg s')).
Proof.
  intros Hi. destruct (lib_keeps s (lib_step j (LibCall RcuReadLock) (jl (cg s))) j) as [Hi' Hg]; [done|by apply Hi|..].
  - intros n W i Hw Hin. apply elem_of_union. right. by eapply (ji_inside _ _ _ Hi).
  - intros i Hne. split; [done|]. cbn. set_solver.
  - split; [done|]. split; [auto|]. cbn. set_solver.
Qed.

(** It leaves it: nobody waits for it any more. *)
Lemma read_unlock_keeps j s (s' := next_cfg s (cm s)
    (Jst (lib_step j (LibCall RcuReadUnlock) (jl (cg s))) (jbk (cg s)) (jpend (cg s)) (ja (cg s)))) :
  jinv s -> guar_r cbt wt j s s' /\ jinv s'.
Proof.
  intros Hi. destruct (lib_keeps s (lib_step j (LibCall RcuReadUnlock) (jl (cg s))) j) as [Hi' Hg].
  - apply waits_unlock.
  - cbn. rewrite <- list_fmap_compose. apply Hi.
  - intros n W i Hw Hin. cbn in *. apply list_elem_of_fmap in Hw as ([n' W'] & [= -> ->] & Hw). cbn in *.
    apply elem_of_difference in Hin as [Hin Hne]. apply elem_of_difference. split; [|done]. by eapply (ji_inside _ _ _ Hi).
  - intros i Hne. split; [by apply waits_for_unlock|]. cbn. set_solver.
  - split; [done|auto].
Qed.

(** ** A node changes hands *)

Definition move (a b d : Z) (g : ast) : ast :=
  Ast (shared g) (fun u => if decide (u = b) then {[d]} ∪ mine g u else if decide (u = a) then mine g u ∖ {[d]} else mine g u).

Lemma elem_of_move a b d g u x : a <> b -> x ∈ mine (move a b d g) u <->
  (u = b /\ x = d) \/ (x ∈ mine g u /\ (u = a -> x <> d)).
Proof.
  intros Hab. cbn. repeat case_decide; subst; rewrite ?elem_of_union, ?elem_of_difference, ?elem_of_singleton; naive_solver.
Qed.

Lemma move_ainv a b d s tr : a <> b -> d ∈ mine (cg s) a -> ainv any_node s ->
  ainv any_node (Cfg (cm s) tr (move a b d (cg s))).
Proof.
  intros Hab Hd [H1 H2 H3 H4 H5]. split; cbn [cm cg]; [done..| |].
  - intros u x [[-> ->]|[Hx _]]%elem_of_move; [by apply (H4 a)|by apply (H4 u)|done].
  - intros u w x. rewrite !elem_of_move by done. intros [[-> ->]|[Hx Hu]] [[-> ?]|[Hy Hw]]; [done|..].
    + destruct (Hw (H5 w a d Hy Hd)). done.
    + subst x. destruct (Hu (H5 u a d Hx Hd)). done.
    + by eapply H5.
Qed.

Lemma move_arely a b d s tr t : a <> b -> d ∈ mine (cg s) a -> t <> a ->
  arely any_node t s (Cfg (cm s) tr (move a b d (cg s))).
Proof.
  intros Hab Hd Ht Hi. split; [by apply move_ainv|]. split; [|done]. intros x Hx. apply elem_of_move; [done|]. by right.
Qed.

(** The updater hands the node it unlinked to [call_rcu]. *)
Lemma retire_keeps s d b (s' := next_cfg s (cm s)
    (Jst (lib_step 0 (LibCall (CallRcu d)) (jl (cg s))) (jbk (cg s)) None (move 0 wt d (ja (cg s))))) :
  jinv s -> jpend (cg s) = Some (d, b) -> d ∈ mine (ja (cg s)) 0 -> guar_w cbt wt s s' /\ jinv s'.
Proof.
  intros Hi Hp Hd. pose proof Hi as [H1 H2 H3 H4 H5 H8 H6 H7].
  assert (Hnw : d ∉ waits (jl (cg s))).
  { intros Hw. apply (inv_old _ _ H2 d Hw). exists b. by right. }
  assert (Hi' : jinv s').
  { split; cbn [s' next_cfg cm ctr cg jl jbk jpend ja].
    - done.
    - rewrite waits_call. by eapply (Inv_retire _ (tab _ (cg s))).
    - by apply (move_ainv 0 wt d (alloc_part s)).
    - cbn. rewrite fmap_app. apply NoDup_app. split; [done|]. split; [|apply NoDup_singleton].
      intros x Hx ->%list_elem_of_singleton. apply Hnw. unfold waits. by apply elem_of_list_to_set.
    - rewrite waits_call. intros n. rewrite elem_of_move by done. intros [->%elem_of_singleton|Hn]%elem_of_union; [by left|].
      right. split; [by apply H5|done].
    - intros n Hl. apply elem_of_move; [done|]. right. split; [|intros _ ->].
      + apply H8. destruct Hl as (i & [Hl|[=]]). exists i. by left.
      + apply (inv_old _ _ (Inv_retire _ (tab _ (cg s)) ({[d]} ∪ waits (jl (cg s))) d b H2 Hp ltac:(done)) d); [set_solver|exact Hl].
    - intros n Hn. unfold GraceLogic.unused. cbn [s' next_cfg cm ctr cg jl jbk jpend ja]. rewrite !elem_of_move by done.
      destruct (decide (n = d)) as [->|Hne]; [by right; right; right; left|].
      destruct (H6 n Hn) as [?|[?|[?|?]]]; [left; by right|right; by left|right; right; left; by right|right; right; right; by right].
    - cbn. intros n W i [Hw|[= -> ->]%list_elem_of_singleton]%elem_of_app Hin; [by eapply H7|done]. }
  split; [|done]. split; [intros _|intros i _ _]; (split; [done|]).
  - by apply (move_arely 0 wt d (alloc_part s)).
  - split; cbn [s' next_cfg cm ctr cg jl jbk jpend ja]; [by exists [cm s]|done|done|]. intros Hin.
    apply grely_frozen; [done..|]. unfold view. cbn [s' next_cfg cm ctr cg jl jbk jpend ja]. rewrite waits_for_call, decide_True by done.
    intros HI. split.
    + by eapply (Inv_retire _ (tab _ (cg s))).
    + eapply (frozen_retire _ (tab _ (cg s))); [|done]. by apply frozen_ext.
Qed.

(** The library's thread takes a node whose grace period is over. *)
Lemma start_keeps s n W1 W2 (s' := Cfg (cm s) (ctr s)
    (Jst (Lib (inside (jl (cg s))) (W1 ++ W2)) (jbk (cg s)) (jpend (cg s)) (move wt cbt n (ja (cg s))))) :
  waiting (jl (cg s)) = W1 ++ (n, ∅) :: W2 -> jinv s ->
  jinv s' /\ stable_w cbt wt s s' /\ (forall i, stable_r i s s') /\
  (forall F, freer_at any_node cbt F [] NULL (alloc_part s) -> freer_at any_node cbt F [n] NULL (alloc_part s')).
Proof.
  intros Hw Hi. pose proof Hi as [H1 H2 H3 H4 H5 H8 H6 H7].
  destruct (waits_start (inside (jl (cg s))) _ _ _ _ _ Hw H4) as [Hws Hnw].
  assert (Hn : n ∈ mine (ja (cg s)) wt) by (apply H5; rewrite Hws; set_solver).
  assert (Hi' : jinv s').
  { split; cbn [s' cm ctr cg jl jbk jpend ja].
    - done.
    - apply (Inv_shrink _ _ (waits (Lib (inside (jl (cg s))) (W1 ++ W2))) H2). simpl. rewrite Hws. set_solver.
    - by apply (move_ainv wt cbt n (alloc_part s)).
    - cbn. rewrite Hw, fmap_app in H4. rewrite fmap_app. simpl in H4. apply NoDup_app in H4 as (Ha & Hb & [_ Hc]%NoDup_cons).
      apply NoDup_app. split; [done|]. split; [|done]. intros x Hx Hx'. apply (Hb x Hx). by right.
    - intros x Hx. apply elem_of_move; [done|]. right. split; [apply H5; rewrite Hws; set_solver|]. intros _ ->. done.
    - intros x Hx. apply elem_of_move; [done|]. right. split; [by apply H8|congruence].
    - intros x Hx. unfold GraceLogic.unused. cbn [s' cm ctr cg jl jbk jpend ja]. rewrite !elem_of_move by done.
      destruct (decide (x = n)) as [->|Hne]; [right; right; left; by left|].
      destruct (H6 x Hx) as [?|[?|[?|?]]]; [left; right; split; [done|congruence]|right; by left|right; right; left; by right|right; right; right; by right].
    - cbn. intros x W i Hx. apply (H7 x). rewrite Hw. set_solver. }
  split; [done|]. split; [|split].
  - split; cbn [s' cm ctr cg jl jbk jpend ja]; [done|done|rewrite Hws; set_solver| |done|by apply (move_arely wt cbt n (alloc_part s))].
    intros x. unfold GraceLogic.unused. cbn [s' cm ctr cg jl jbk jpend ja]. rewrite !elem_of_move by done.
    intros [?|[[[_ ->]|[? _]]|[[_ ->]|[? _]]]]; auto.
  - intros i. split; cbn [s' cm ctr cg jl jbk jpend ja]; [done..|]. intros _. unfold view. cbn [s' cm ctr cg jl jbk jpend ja].
    by rewrite (waits_for_start _ (inside (jl (cg s))) _ _ _ _ Hw).
  - intros F [(Ha & Hc & Hnd & Hm) Ht]. rewrite app_nil_r in *. split; [|exact Ht]. split; [by apply (move_ainv wt cbt n (alloc_part s))|].
    split; [exact Hc|]. split.
    + apply NoDup_app. split; [done|]. split; [|apply NoDup_singleton]. intros x Hx ->%list_elem_of_singleton.
      apply Hcw. eapply (ai_disj H3); [exact Hn|]. by apply Hm.
    + intros x Hx. cbn [alloc_part cg s' ja]. apply elem_of_move; [done|]. apply elem_of_app in Hx as [Hx| ->%list_elem_of_singleton]; [right|by left].
      split; [by apply Hm|congruence].
Qed.

(** ** Writes *)

Lemma list_insert_ainv s l v tr : list_loc l = true -> ainv any_node s -> ainv any_node (Cfg (<[l := v]> (cm s)) tr (cg s)).
Proof.
  intros Hl [H1 H2 H3 H4 H5]. split; cbn [cm cg]; [|done| | |done].
  - eapply path_agree; [|exact H1]. intros l' [->|(x & _ & ->)]; apply mget_insert_ne; by destruct l.
  - intros x Hx. destruct (H3 x Hx). split; [by apply node_insert|done].
  - intros t x Hx. destruct (H4 t x Hx). split; [by apply node_insert|done].
Qed.

(** The updater writes to the lists. *)
Lemma list_keeps s l v g' (s' := next_cfg s (<[l := v]> (cm s)) (Jst (jl (cg s)) (bk g') (pend g') (ja (cg s)))) :
  jinv s -> list_loc l = true -> is_Some (mget (cm s) l) ->
  list_step (cm s) (tab (waits (jl (cg s))) (cg s)) (<[l := v]> (cm s)) g' ->
  (forall n, live g' n -> n ∈ mine (ja (cg s)) 0) -> guar_w cbt wt s s' /\ jinv s'.
Proof.
  intros Hi Hl Hm Hs Hlv. pose proof Hi as [H1 H2 H3 H4 H5 H8 H6 H7].
  assert (Hi' : jinv s').
  { split; cbn [s' next_cfg cm ctr cg jl jbk jpend ja]; [done| | |done|done|exact Hlv| |done].
    - pose proof (list_step_inv _ _ H2 _ _ Hs) as HI. pose proof (list_step_old _ _ _ _ Hs) as Ho. unfold tab. cbn in Ho.
      rewrite <- Ho. by destruct g'.
    - by apply (list_insert_ainv (alloc_part s)).
    - intros n Hn. apply H6. by eapply node_insert_inv. }
  split; [|done]. split; [intros _|intros i _ _]; (split; [done|]).
  - intros Ha. split; [apply Hi'|]. split; [done|]. intros l' Hl'. apply mget_insert_ne. intros <-. by destruct l.
  - split; cbn [s' next_cfg cm ctr cg jl jbk jpend ja]; [by eexists [_]| |done|].
    + intros j Hj. destruct Hs; cbn in *; try done; apply lookup_insert_is_Some; destruct (decide (i0 = j)); auto.
    + intros _. pose proof (list_step_sub _ _ _ _ (waits_for i (jl (cg s))) Hs (waits_for_sub _ _)) as Hsi.
      apply grely_frozen; [done|intros p; apply node_insert| |].
      * intros j Hj. destruct Hs; cbn in *; try done; apply lookup_insert_is_Some; destruct (decide (i0 = j)); auto.
      * intros HI. split; [by eapply list_step_inv|by eapply frozen_list_step].
Qed.

(** A thread of the allocator takes a step. *)
Lemma ainv_dom (D : Z -> Prop) s : ainv any_node s -> (forall x, x ∈ shared (cg s) -> D x) -> ainv D s.
Proof. intros [H1 H2 H3 H4 H5] HD. split; [done..| |done|done]. intros x Hx. split; [by apply H3|auto]. Qed.

Lemma ainv_any D s : ainv D s -> ainv any_node s.
Proof. intros [H1 H2 H3 H4 H5]. split; [done..| |done|done]. intros x Hx. split; [by apply H3|done]. Qed.

Lemma arely_any D t s s' : ainv D s -> arely D t s s' -> arely any_node t s s'.
Proof. intros Hi Hr _. destruct (Hr Hi) as (H1 & H2 & H3). split; [by eapply ainv_any|done]. Qed.

Lemma alloc_keeps `{HC : Calloc} {HT : CallocTotal} D t s o r m' a'
    (s' := next_cfg s m' (Jst (jl (cg s)) (jbk (cg s)) (jpend (cg s)) a')) :
  jinv s -> ainv D (alloc_part s) -> off_op o -> op_exec o (cm s) = Some (r, m') -> t = 0 \/ t = cbt ->
  aguar D t (alloc_part s) (alloc_part s') -> (t = 0 -> forall n, live (tab ∅ (cg s)) n -> ~ D n) ->
  jinv s' /\ ainv D (alloc_part s') /\ (forall i, stable_r i s s') /\ (t = 0 -> stable_c cbt s s') /\
  (t <> 0 -> o <> CallocNode -> stable_w cbt wt s s').
Proof.
  intros Hi HD Ho He Ht [G1 G2 G3 G4 G5] HLD. pose proof Hi as [H1 H2 H3 H4 H5 H8 H6 H7].
  destruct (off_op_exec o _ _ _ Ho He) as [Hg Her].
  assert (Htw : wt <> t) by (destruct Ht; congruence).
  destruct (G1 wt Htw HD) as (HD' & _ & _). pose proof (ainv_any _ _ HD') as Ha'.
  assert (Hi' : jinv s').
  { split; cbn [s' next_cfg cm ctr cg jl jbk jpend ja]; [done|by eapply Inv_grows|done|done| | | |done].
    - intros n Hn. pose proof (G2 wt Htw) as G. cbn [alloc_part cg ja s' next_cfg] in G. rewrite G. by apply H5.
    - intros n Hl. specialize (H8 n Hl). pose proof (G2 0) as G20. cbn [alloc_part cg ja s' next_cfg] in *.
      destruct Ht as [->| ->]; [|by rewrite G20]. destruct (G4 n) as [Hs|?]; [by right| |done].
      destruct (HLD eq_refl n Hl). by apply (ai_shared HD').
    - intros n Hn. unfold GraceLogic.unused. destruct (G3 n Hn) as [Hn0|Hn0]; [|destruct Ht as [->| ->]; auto].
      pose proof (G4 n) as Go. pose proof (G2 0) as G20. pose proof (G2 cbt) as G2c. pose proof (G2 wt Htw) as G2w.
      cbn [alloc_part cg ja s' next_cfg] in *. rewrite G2w.
      destruct Ht as [->| ->]; [rewrite G2c by done|rewrite G20 by done]; destruct (H6 n Hn0) as [?|[?|[?|?]]]; tauto. }
  split; [done|]. split; [done|]. split; [|split].
  - intros i. split; cbn [s' next_cfg cm ctr cg jl jbk jpend ja]; [by eexists [_]|done|done|]. intros _.
    apply grely_frozen; [done|apply Hg|done|]. intros HI. split; [by eapply Inv_grows|by apply frozen_grows].
  - intros ->. by eapply arely_any, G1.
  - intros Ht0 Hc. split; cbn [s' next_cfg cm ctr cg jl jbk jpend ja]; [done..| |by apply Her|by eapply arely_any, G1].
    intros x. destruct Ht as [->| ->]; [done|]. pose proof (G5 x) as Gi. pose proof (G2 wt Htw) as G2w.
    unfold GraceLogic.unused. cbn [alloc_part cg ja s' next_cfg] in *. rewrite G2w.
    assert (Hn : x ∈ shared a' \/ x ∈ mine a' cbt -> node (cm s) x).
    { intros Hx. apply (erase_eq_node _ m'); [by apply Her|]. destruct Hx as [Hx|Hx]; [by apply (ai_shared Ha')|by apply (ai_mine Ha' cbt)]. }
    tauto.
Qed.

End steps.
