(* ===== verification/GraceWriter.v ===== *)
(** * The RCU updater among callbacks

    list_writer.c with rcu.c, while the library's thread gives nodes back to
    the allocator: the logic [gj] of an updater that shares the allocator with
    the callbacks is one that list_writer.c is proved in ([WriterLogic]), and
    [new_node] and [call_rcu] keep their promises in it.  What the updater does
    not have - nodes that wait, are being freed or are in a free list - are
    nodes of the scheme for it, until [new_node] hands them out again. *)
From S2P Require Import Prelude Mem RG Events SWP Table TableFacts Erase Frozen Allocator AllocRoles ListOps Lock Stamp ListWriter ListRcu RcuWriter RcuSearch Grace GraceLogic GraceSteps.

Section writer.
Context `{HC : Calloc} {HT : CallocTotal} (cbt wt : Z) (Hcbt : cbt <> 0) (Hwt : wt <> 0) (Hcw : wt <> cbt).
Abbreviation jinv := (jinv cbt wt).
Abbreviation rely_w := (keeps cbt wt (stable_w cbt wt)).
Abbreviation guar_w := (guar_w cbt wt).
Abbreviation unused := (unused cbt wt).
Abbreviation uwp := (lwp (lib_step 0) anywhere (fun e => e = OutOfFuel) rely_w guar_w).

(** What the updater sees of a configuration: the erased store, and all the
    nodes that were retired and not handed out again as nodes of the scheme. *)
Record sees (s : jcfg) (m : mem) (g : gst) : Prop := {
  se_inv : jinv s;
  se_mem : m = erase (cm s);
  se_bk : bk g = jbk (cg s);
  se_pend : pend g = jpend (cg s);
  se_waits : waits (jl (cg s)) ⊆ old g;
  se_unused x : unused s x -> x ∈ old g;
  se_local : exists F, local_at any_node 0 F [] NULL (alloc_part s) /\ forall x, x ∈ F -> x ∈ old g }.

Lemma sees_stable s s' m g : rely_w s s' -> sees s m g -> sees s' m g.
Proof.
  intros R [V1 V2 V3 V4 V5 V6 (F & V7 & V8)]. destruct (R V1) as [Hi [W1 W2 W3 W4 W5 W6]].
  split; [done|congruence|congruence|congruence|set_solver|auto|]. exists F. split; [|done]. by eapply local_stable.
Qed.

Definition gj (A : Type) (p : prog A) (Q : A -> mem -> gst -> Prop) (m : mem) (g : gst) : Prop :=
  forall s, sees s m g -> uwp p (fun a s' => exists m' g', sees s' m' g' /\ Q a m' g') s.

(** ** Rules *)

(** A step that leaves the store and the ghost state alone. *)
Lemma gj_still {A} o (k : Z -> prog A) (Q : A -> mem -> gst -> Prop) m g :
  (forall L, lib_step 0 o L = L) ->
  (forall s, sees s m g -> exists r, op_exec o (cm s) = Some (r, cm s) /\ gj A (k r) Q m g) ->
  gj A (do_op o ≫= k) Q m g.
Proof.
  intros Hl Hk s Hs s' R. apply (sees_stable _ _ _ _ R) in Hs. destruct (Hk s' Hs) as (r & Ho & Hr). cbn. split; [done|]. rewrite Ho.
  exists (cg s'). split; [by rewrite Hl|]. split; [by apply same_guar_w|]. apply Hr.
  destruct Hs as [V1 V2 V3 V4 V5 V6 (F & V7 & V8)]. destruct (same_keeps cbt wt s' V1) as [Hi _].
  split; [done..|]. exists F. split; [|done]. exact (local_stable any_node 0 F [] NULL _ _ (arely_same any_node 0 (alloc_part s') _) V7).
Qed.

Lemma gj_fence {A} b (k : unit -> prog A) (Q : A -> mem -> gst -> Prop) m g : gj A (k tt) Q m g -> gj A (fence b ≫= k) Q m g.
Proof. intros Hk. apply (gj_still (Fence b) (fun _ => k tt)); [done|]. intros s _. by exists 0. Qed.

(** A thread-local variable or a global. *)
Lemma gj_load_static {A} l (k : Z -> prog A) (Q : A -> mem -> gst -> Prop) m g : is_static l = true ->
  (forall v, gj A (k v) Q m g) -> gj A (load l ≫= k) Q m g.
Proof.
  intros Hl Hk. apply (gj_still (Load l)); [done|]. intros s _. destruct (mget_static (cm s) l Hl) as [v Hv].
  exists v. cbn. by rewrite Hv.
Qed.

#[export] Instance gj_logic : WriterLogic gj (fun _ _ _ => True).
Proof.
  split.
  - intros A p Q Q' m g Hp HQ s Hs. eapply ewp_post; [by apply Hp|]. cbn beta. intros a s' (m' & g' & Hs' & Ha). eauto.
  - intros A B p f Q m g Hp s Hs. apply ewp_bind; [apply _|]. eapply ewp_post; [by apply Hp|]. cbn beta.
    intros a s' (m' & g' & Hs' & Ha). by apply Ha.
  - intros A a Q m g HQ s Hs s' R. exists m, g. split; [by eapply sees_stable|done].
  - intros A l v k Q m g Hv Hl Hk. apply (gj_still (Load l)); [done|]. intros s Hs. exists v. split; [|done].
    rewrite (se_mem _ _ _ Hs), mget_list_loc, erase_list, <- mget_list_loc in Hv by done. cbn. by rewrite Hv.
  - intros A l v w k Q m g g' Hv Hl HI Hst _ Hk s Hs s' R. apply (sees_stable _ _ _ _ R) in Hs.
    destruct Hs as [V1 V2 V3 V4 V5 V6 (F & V7 & V8)]. subst m.
    assert (Hm : mget (cm s') l = Some w) by (rewrite mget_list_loc, erase_list, <- mget_list_loc in Hv; done).
    pose proof (list_step_old _ _ _ _ Hst) as Ho.
    assert (Hst1 : list_step (cm s') g (<[l := v]> (cm s')) g').
    { apply (list_step_agree (erase (cm s'))); [intros x Hx; by rewrite erase_list|intros x; by rewrite node_erase|done|exact Hst]. }
    pose proof (list_step_sub _ _ _ _ (waits (jl (cg s'))) Hst1 V5) as Hst2. rewrite V3, V4 in Hst2.
    assert (Hlv : forall n, live g' n -> n ∈ mine (ja (cg s')) 0).
    { intros n Hn. pose proof (list_step_inv _ _ HI _ _ Hst) as HI'. assert (Hno : n ∉ old g) by (rewrite <- Ho; intros Hx; by apply (inv_old _ _ HI' n Hx)).
      destruct Hn as [i Hn]. pose proof (node_insert_inv _ _ _ _ ltac:(by rewrite Hv) (live_node _ _ HI' _ _ Hn)) as Hnode.
      destruct (ji_owned _ _ _ V1 n) as [?|Hu]; [by apply node_erase|done|]. by destruct Hno; apply V6. }
    destruct (list_keeps cbt wt s' l v _ V1 Hl ltac:(by rewrite Hm) Hst2 Hlv) as [Hg Hi]. cbn [bk pend] in *.
    cbn. split; [done|]. rewrite Hm. cbn. eexists. split; [|split; [exact Hg|]]; [done|]. apply Hk.
    split; cbn [next_cfg cm ctr cg jl jbk jpend ja]; [done|by rewrite erase_insert_list|done|done|by rewrite Ho|intros x Hx; rewrite Ho; by apply V6|].
    exists F. split; [|by rewrite Ho]. destruct V7 as (Ha & Hc & Hn & Hmi). split; [apply Hi|]. split; [|done].
    eapply chain_agree; [|exact Hc]. intros l' [->|(x & _ & ->)]; apply mget_insert_ne; by destruct l.
  - intros A b k Q m g. apply gj_fence.
Qed.

(** ** The allocator in this logic *)

Record same_table (s s' : jcfg) : Prop := {
  st_bk : jbk (cg s') = jbk (cg s);
  st_pend : jpend (cg s') = jpend (cg s);
  st_waits : waits (jl (cg s')) ⊆ waits (jl (cg s));
  st_grows : grows off_list (erase (cm s)) (erase (cm s')) }.

Lemma same_table_trans s1 s2 s3 : same_table s1 s2 -> same_table s2 s3 -> same_table s1 s3.
Proof. intros [A1 A2 A3 A4] [B1 B2 B3 B4]. split; [congruence..|by etrans|by etrans]. Qed.

(** What the allocator's logic proves of one of its functions. *)
Lemma lift_w (D : Z -> Prop) {A} (p : prog A) Q s0 : off_prog (fun _ => True) p -> forall s,
  wp (fun e => e = OutOfFuel) (arely D 0) (aguar D 0) p Q (alloc_part s) ->
  jinv s -> (forall x, unused s x -> D x) -> same_table s0 s -> (forall x, live (tab ∅ (cg s0)) x -> ~ D x) ->
  uwp p (fun a s' => Q a (alloc_part s') /\ jinv s' /\ (forall x, unused s' x -> D x) /\ same_table s0 s') s.
Proof.
  assert (Hst : forall s s', jinv s -> (forall x, unused s x -> D x) -> same_table s0 s -> rely_w s s' ->
    jinv s' /\ ainv D (alloc_part s') /\ arely D 0 (alloc_part s) (alloc_part s') /\
    (forall x, unused s' x -> D x) /\ same_table s0 s').
  { intros s s' Hi HD Ht R. destruct (R Hi) as [Hi' [W1 W2 W3 W4 W5 W6]].
    assert (HD' : forall x, unused s' x -> D x) by auto.
    assert (Ha' : ainv D (alloc_part s')) by (apply ainv_dom; [apply Hi'|intros x Hx; apply HD'; by left]).
    split; [done|]. split; [done|]. split; [|split; [done|]].
    - intros Ha. destruct (W6 (ainv_any _ _ Ha)) as [_ ?]. by split.
    - apply (same_table_trans _ s); [done|]. split; [done..|by rewrite W5]. }
  induction p as [a|e|o k IH]; intros Hoff s Hp Hi HD Ht HL; cbn in *; [|done|].
  - intros s' R. destruct (Hst s s' Hi HD Ht R) as (Hi' & _ & Ra & HD' & Ht'). split; [by apply Hp|done].
  - destruct Hoff as (Ho & _ & Hoff). intros s' R. destruct (Hst s s' Hi HD Ht R) as (Hi' & Ha' & Ra & HD' & Ht').
    assert (HLD : 0 = 0 -> forall x, live (tab ∅ (cg s')) x -> ~ D x).
    { intros _ x Hx. apply HL. destruct Hx as [i Hx]. exists i. unfold live_in in *. cbn in *. by rewrite <- (st_bk _ _ Ht'), <- (st_pend _ _ Ht'). }
    split; [done|]. specialize (Hp _ Ra). cbn [alloc_part cm] in Hp. destruct (op_exec o (cm s')) as [[r m']|] eqn:He; [|done].
    destruct Hp as (a' & Hg & Hw). set (g' := Jst (jl (cg s')) (jbk (cg s')) (jpend (cg s')) a').
    destruct (alloc_keeps cbt wt Hcbt Hwt Hcw D 0 s' o r m' a' Hi' Ha' Ho He ltac:(by left) Hg HLD) as (Hi2 & Ha2 & Hr2 & Hc2 & _).
    exists g'. split; [by destruct o|]. split.
    + split; [intros _|intros j _ _]; (split; [done|]); [by apply Hc2|by apply Hr2].
    + apply IH; [done|exact Hw|done| | |done].
      * intros x [Hx|Hx]; [by apply (ai_shared Ha2)|]. apply HD'. right.
        pose proof (agu_mine _ _ _ _ Hg cbt Hcbt) as Ec. pose proof (agu_mine _ _ _ _ Hg wt Hwt) as Ew.
        cbn in Ec, Ew, Hx. by rewrite Ec, Ew in Hx.
      * apply (same_table_trans _ s'); [done|]. split; [done..|]. apply erase_grows. by apply (off_op_exec o _ r).
Qed.

Lemma mine0_unused s x : jinv s -> x ∈ mine (ja (cg s)) 0 -> ~ unused s x.
Proof.
  intros Hi H0. pose proof (ji_alloc _ _ _ Hi) as Ha. intros [Hx|[Hx|Hx]].
  - by apply (ai_mine Ha 0 x).
  - apply Hcbt. symmetry. by eapply (ai_disj Ha).
  - apply Hwt. symmetry. by eapply (ai_disj Ha).
Qed.

(** A live node is the updater's. *)
Lemma live_mine s m g n : sees s m g -> Inv m g -> live g n -> n ∈ mine (ja (cg s)) 0 /\ n ∉ old g.
Proof.
  intros [V1 _ V3 V4 _ _ _] HI Hl. split; [|intros Ho; by apply (inv_old _ _ HI n Ho)].
  apply (ji_live _ _ _ V1). destruct Hl as [i Hl]. exists i. unfold live_in in *. cbn. by rewrite <- V3, <- V4.
Qed.

(** The nodes [U] are nodes. *)
Definition rcu_own (h : option Z) (U : gset Z) (m : mem) : Prop := forall n, n ∈ U -> node m n.

Lemma gj_new fuel h U m g : Inv m g -> rcu_own h U m -> (forall n, n ∈ U -> kept g n) ->
  gj Z (new_node fuel 0) (fun p m' g' => grows off_list m m' /\ renewed (rcu_own h) U g p m' g') m g.
Proof.
  intros HI Ho HU s Hs. pose proof Hs as [V1 V2 V3 V4 V5 V6 (F & V7 & V8)].
  set (D := fun x => x ∈ old g). set (held := elements (mine (ja (cg s)) 0 ∖ list_to_set F)).
  assert (Hl : local_at D 0 F held NULL (alloc_part s)).
  { destruct V7 as (Ha & Hc & Hn & Hm). rewrite app_nil_r in *. split; [apply ainv_dom; [done|]; intros x Hx; apply V6; by left|].
    split; [done|]. split.
    - apply NoDup_app. split; [done|]. split; [|apply NoDup_elements]. intros x Hx. unfold held. rewrite elem_of_elements. set_solver.
    - intros x [Hx|Hx]%elem_of_app; [by apply Hm|]. unfold held in Hx. rewrite elem_of_elements in Hx. cbn [alloc_part cg]. set_solver. }
  assert (HL : forall x, live (tab ∅ (cg s)) x -> ~ D x).
  { intros x Hx Ho'. apply (inv_old _ _ HI x Ho'). destruct Hx as [i Hx]. exists i. unfold live_in in *. cbn in *. by rewrite V3, V4. }
  pose proof (lift_w D _ _ s (off_new_node fuel 0) s (a_new_node D 0 F held fuel (alloc_part s) Hl) V1 V6
    ltac:(by split) HL) as Hw.
  eapply ewp_post; [exact Hw|].
  cbn beta. intros p s' ((F' & (Ha' & Hc' & Hn' & Hm') & HF') & Hi' & HD' & [T1 T2 T3 T4]).
  assert (Hp0 : p ∈ mine (ja (cg s')) 0) by (apply Hm'; set_solver).
  assert (Hpu : ~ unused s' p) by (by apply mine0_unused).
  assert (HpF : p ∉ F').
  { apply NoDup_app in Hn' as (_ & Hd & _). intros Hx. apply (Hd p Hx). by left. }
  assert (Hph : p ∉ held).
  { apply NoDup_app in Hn' as (_ & _ & [Hd _]%NoDup_cons). done. }
  assert (Hpl : ~ live g p).
  { intros Hlp. destruct (live_mine s m g p Hs HI Hlp) as [H0 Hno]. apply Hph. unfold held.
    rewrite elem_of_elements, elem_of_difference, elem_of_list_to_set. split; [done|]. intros HpF0. by apply Hno, V8. }
  exists (erase (cm s')), (Gst (bk g) (pend g) (old g ∖ {[p]})). split.
  - split; cbn [bk pend old]; [done|done|by rewrite T1|by rewrite T2| | |].
    + intros x Hx. assert (Hux : unused s' x) by (right; right; by apply (ji_waits _ _ _ Hi')).
      apply elem_of_difference. split; [by apply V5, T3|]. by intros ->%elem_of_singleton.
    + intros x Hx. apply elem_of_difference. split; [by apply HD'|]. by intros ->%elem_of_singleton.
    + exists F'. split.
      * split; [apply Hi'|]. split; [done|]. apply NoDup_app in Hn' as (Hnd & _ & _). rewrite app_nil_r. split; [done|].
        intros x Hx. apply Hm'. apply elem_of_app. by left.
      * intros x Hx. apply elem_of_difference. split; [|by intros ->%elem_of_singleton].
        destruct (HF' x Hx) as [?|?]; [by apply V8|done].
  - subst m. split; [exact T4|]. exists (old g ∖ {[p]}). split; [set_solver|]. split; [done|]. split.
    + intros [HpU Hpo]%elem_of_difference. destruct (HU p HpU) as [?|?]; [done|]. apply Hpo. set_solver.
    + intros n [->%elem_of_singleton|[Hn _]%elem_of_difference]%elem_of_union.
      * apply node_erase. by apply (ai_mine Ha' 0 p).
      * apply (gr_node _ _ _ T4). by apply Ho.
Qed.

(** ** [call_rcu] *)

Lemma gj_call_rcu {A} d i (k : unit -> prog A) (Q : A -> mem -> gst -> Prop) m g : Inv m g -> pend g = Some (d, i) ->
  gj A (k tt) Q m (Gst (bk g) None ({[d]} ∪ old g)) -> gj A (lib_call (CallRcu d) ≫= k) Q m g.
Proof.
  intros HI Hp Hk s Hs s' R. apply (sees_stable _ _ _ _ R) in Hs.
  destruct (live_mine s' m g d Hs HI) as [Hd Hdo]; [exists i; by right|].
  destruct Hs as [V1 V2 V3 V4 V5 V6 (F & V7 & V8)].
  destruct (retire_keeps cbt wt Hcbt Hwt Hcw s' d i V1 ltac:(by rewrite <- V4) Hd) as [Hg Hi].
  cbn. split; [done|]. eexists. split; [|split; [exact Hg|]]; [done|]. apply Hk.
  split; cbn [next_cfg cm ctr cg jl jbk jpend ja bk pend old]; [done|done|done|done| | |].
  - rewrite waits_call. set_solver.
  - intros x. unfold GraceLogic.unused. cbn [next_cfg cm ctr cg jl jbk jpend ja]. rewrite !elem_of_move by done.
    intros [Hx|[[[? _]|[Hx _]]|[[_ ->]|[Hx _]]]]; [|congruence| | |].
    + apply elem_of_union. right. apply V6. by left.
    + apply elem_of_union. right. apply V6. right. by left.
    + set_solver.
    + apply elem_of_union. right. apply V6. right. by right.
  - exists F. split; [|set_solver]. destruct V7 as (Ha & Hc & Hn & Hm). split; [apply Hi|]. split; [exact Hc|]. split; [done|].
    intros x Hx. cbn [alloc_part next_cfg cg ja]. apply elem_of_move; [done|]. right. split; [by apply Hm|].
    intros _ ->. apply Hdo, V8. by rewrite app_nil_r in Hx.
Qed.

(** ** list_writer.c with rcu.c *)

#[export] Instance gj_inserter fuel cap : @InserterJ (rcu_inserter fuel) gj (fun _ _ _ => True) cap 0 rcu_own.
Proof.
  refine (@Build_InserterJ (rcu_inserter fuel) _ _ _ _ _ _ _ _ _ _ _ _); [done|..].
  - intros h U m m' Ho _ _ Hn n HU. by apply Hn, Ho.
  - intros h U m n Ho HU. by apply Ho.
  - intros U m g i xs HI Ho Hi. apply (wj_ret (J := gj)). done.
  - intros U m g i xs HI Ho Hi. cbn [ListWriter.lock_wunlock rcu_inserter].
    unfold OneWriter.lock_wunlock, write_read_barrier.
    change (fence SFence) with (fence SFence ≫= Ret). apply gj_fence. by apply (wj_ret (J := gj)).
  - intros h U m g. apply gj_new.
Qed.

#[export] Instance gj_scheme count_atm fuel cb cap : @SchemeJ (@rcu_scheme false count_atm urcu fuel cb) gj (fun _ _ _ => True) cap 0 rcu_own.
Proof.
  refine (@Build_SchemeJ (@rcu_scheme false count_atm urcu fuel cb) _ _ _ _ _ (gj_inserter fuel cap) _).
  intros U m g d i xs HI Ho HU Hp Hi. unfold delete_end. cbn [unlock_before_free rcu_scheme].
  apply gj_load_static; [done|]. intros t. cbn [ListWriter.free_node_later rcu_scheme]. unfold free_node_later.
  apply (wj_bind (J := gj)), (gj_call_rcu d i (fun _ => Ret tt)); [done|done|]. apply (wj_ret (J := gj)).
  apply (gj_fence SFence). apply (wj_ret (J := gj)).
  split; [done|]. split; [done|]. by apply retired_keep.
Qed.

End writer.
