(* ===== verification/GraceReader.v ===== *)
(** * The RCU reader and the callbacks

    The search of list_rcu.c inside its critical section, among an updater
    and callbacks that give nodes back: the nodes it may stand on wait for it.
    Then the callback [free_node_cb], which is a thread of the allocator that
    only frees. *)
From S2P Require Import Prelude Mem RG Events SWP Table TableFacts Erase Frozen Allocator AllocMain AllocRoles ListOps Stamp ListRcu RcuWriter RcuSearch Grace GraceLogic GraceSteps GraceWriter.

#[local] Existing Instances rcu_stamp urcu urcu_ok.

(** [lin] speaks of the stores passed through only. *)
Lemma lin_later s0 s s' i key b : suffix (ctr s) (ctr s') -> lin s0 s i key b -> lin s0 s' i key b.
Proof. intros Hs (w & xs & Hw & Hr). exists w, xs. split; [by eapply since_mono|done]. Qed.

Lemma lin_earlier s0 s1 s i key b : suffix (ctr s0) (ctr s1) -> trace_ok s0 -> trace_ok s1 ->
  lin s1 s i key b -> lin s0 s i key b.
Proof.
  intros Hs H0 H1 (w & xs & Hw & Hr). exists w, xs. split; [|done].
  destruct Hw as (new & Hc & Hw). assert (Hsuf : suffix (ctr s1) (ctr s)) by (by exists new).
  assert (Hcm : since s0 s (cm s1)) by (apply (since_mono _ s1); [done|by apply since_now]).
  destruct Hw as [Hw| ->]; [|done]. destruct Hs as [k Hk]. exists (new ++ k).
  split; [by rewrite Hc, Hk, app_assoc|]. left. set_solver.
Qed.

Section reader.
Context `{HC : Calloc} {HT : CallocTotal} (cbt wt : Z) (Hcbt : cbt <> 0) (Hwt : wt <> 0) (Hcw : wt <> cbt).
Context (j : nat).
Abbreviation jinv := (jinv cbt wt).
Abbreviation rely_r i := (keeps cbt wt (stable_r i)).
Abbreviation rwp := (lwp (lib_step j) (touches j) (fun e => e = OutOfFuel) (rely_r j) (guar_r cbt wt j)).

(** Inside the critical section. *)
Definition inside_at (s : jcfg) : Prop := jinv s /\ j ∈ inside (jl (cg s)).

Lemma inside_stable s s' : rely_r j s s' -> inside_at s -> inside_at s' /\ grely (view j s) (view j s').
Proof.
  intros R [Hi Hin]. destruct (R Hi) as [Hi' [T1 T2 T3 T4]]. split; [|by apply T4]. split; [done|by apply T3].
Qed.

Lemma g_load {A} l (k : Z -> prog A) (Q : A -> jcfg -> Prop) s : inside_at s ->
  (forall s1, inside_at s1 -> grely (view j s) (view j s1) -> rely_r j s s1 -> exists v, mget (cm s1) l = Some v /\ touches j (Load l) s1 /\
     forall s2, inside_at s2 -> grely (view j s1) (view j s2) -> rwp (k v) Q s2) ->
  rwp (load l ≫= k) Q s.
Proof.
  intros Hs Hk s1 R. destruct (inside_stable _ _ R Hs) as [H1 R1]. destruct (Hk s1 H1 R1 R) as (v & Hv & Hto & Hw).
  cbn. split; [done|]. rewrite Hv. cbn. exists (cg s1). split; [done|]. split; [apply same_guar_r|].
  destruct (same_keeps cbt wt s1 (proj1 H1)) as (Hi2 & _ & _ & Hr2).
  destruct (inside_stable s1 (next_cfg s1 (cm s1) (cg s1)) ltac:(intros _; split; [done|apply Hr2]) H1). by apply Hw.
Qed.

(** [rcu_read_unlock(); return b;] *)
Lemma g_unlock b (Q : Z -> jcfg -> Prop) s : inside_at s ->
  (forall s', jinv s' -> suffix (ctr s) (ctr s') -> Q b s') -> rwp (lib_call RcuReadUnlock;; Ret b) Q s.
Proof.
  intros [Hi Hin] HQ s1 R. destruct (R Hi) as [Hi1 T1]. cbn. split; [done|].
  destruct (read_unlock_keeps cbt wt Hcbt Hwt Hcw j s1 Hi1) as [Hg Hi2]. eexists. split; [|split; [exact Hg|]]; [done|].
  intros s3 R3. destruct (R3 Hi2) as [Hi3 T3]. apply HQ; [done|]. etrans; [apply T1|]. etrans; [|apply T3]. by exists [cm s1].
Qed.

(** ** The search *)

Section search.
Context (key i : Z) (s0 : gcfg) (W0 : gwf s0).

Lemma grace_loop_ok fuel : forall cur s, inside_at s -> grely s0 (view j s) -> at_node key i s0 (view j s) cur ->
  rwp (@ListRcu.search_loop urcu fuel key cur) (fun b s' => jinv s' /\ lin s0 (view j s') i key b) s.
Proof.
  induction fuel as [|fuel IH]; intros cur s Hs R Hat; [done|]. cbn [search_loop].
  pose proof (view_wf cbt wt j s (proj1 Hs)) as W.
  destruct (Z.eqb_spec cur NULL) as [->|Hn].
  { apply g_unlock; [done|]. intros s' Hi' Ht. split; [done|]. apply (lin_later _ (view j s) (view j s')); [exact Ht|]. by apply Hat. }
  apply g_load; [done|]. intros s1 Hs1 R1 _. pose proof (view_wf cbt wt j s1 (proj1 Hs1)) as W1.
  pose proof (at_node_mono key i s0 _ _ _ R1 W Hat) as Hat1.
  pose proof (proj2 Hat1 Hn) as Hr1. pose proof (reached_kept key i s0 W0 _ _ Hr1) as Hk1.
  pose proof (kept_node _ _ (proj2 W1) _ Hk1) as Hnode.
  exists (nkey (cm s1) cur). split; [by apply mget_lookup, node_key|]. split; [exact Hk1|]. intros s2 Hs2 R2.
  pose proof (view_wf cbt wt j s2 (proj1 Hs2)) as W2. pose proof (at_node_mono key i s0 _ _ _ R2 W1 Hat1) as Hat2.
  destruct (ksteps_kept _ _ cur (grely_ksteps _ _ R2 W1) Hk1) as [Hk2 Hkey2]. cbn [view cm] in Hkey2.
  destruct (Z.leb_spec key (nkey (cm s1) cur)) as [Hle|Hlt].
  - apply g_unlock; [done|]. intros s' Hi' Ht. split; [done|]. apply (lin_later _ (view j s2) (view j s')); [exact Ht|]. rewrite <- Hkey2.
    apply (cand_answer s0 (view j s2)); [apply (reached_cand key i s0 W0); [by apply Hat2]|]. cbn [view cm]. lia.
  - apply g_load; [done|]. intros s3 Hs3 R3 _. pose proof (view_wf cbt wt j s3 (proj1 Hs3)) as W3.
    pose proof (at_node_mono key i s0 _ _ _ R3 W2 Hat2) as Hat3.
    destruct (ksteps_kept _ _ cur (grely_ksteps _ _ R3 W2) Hk2) as [Hk3 Hkey3]. cbn [view cm] in Hkey3.
    destruct (reached_next key i s0 W0 (view j s3) cur (proj2 Hat3 Hn)) as (nx & Hnx & Hat4); [cbn [view cm]; lia|].
    exists nx. split; [by apply mget_lookup|]. split; [exact Hk3|]. intros s4 Hs4 R4. apply IH; [done| |by eapply at_node_mono].
    do 3 (etrans; [|eassumption]). by etrans.
Qed.

End search.

Lemma grace_search_ok fuel self lock key i s : jinv s -> is_Some (jbk (cg s) !! i) ->
  rwp (@ListRcu.search urcu fuel self key (LHead i) lock) (fun b s' => jinv s' /\ lin (view j s) (view j s') i key b) s.
Proof.
  intros Hi Hd s1 R1. destruct (R1 Hi) as [Hi1 T1]. cbn. split; [done|].
  destruct (read_lock_keeps cbt wt Hcbt Hwt Hcw j s1 Hi1) as (Hg & Hi2 & Hin). eexists. split; [|split; [exact Hg|]]; [done|].
  set (s2 := next_cfg s1 _ _) in *. pose proof (view_wf cbt wt j s2 Hi2) as W2.
  assert (Hd2 : is_Some (jbk (cg s2) !! i)) by (by apply (sr_dom _ _ _ T1)).
  assert (Ht2 : suffix (ctr s) (ctr s2)) by (etrans; [apply T1|by exists [cm s1]]).
  assert (Hw : rwp (cur ← load (LHead i); @ListRcu.search_loop urcu fuel key cur)
    (fun b s' => jinv s' /\ lin (view j s2) (view j s') i key b) s2).
  { apply g_load; [done|]. intros s3 Hs3 R3 Rl3. destruct (Rl3 Hi2) as [Hi3 T3].
    destruct (sr_dom _ _ _ T3 i Hd2) as [xs Hxs]. exists (hd0 xs). pose proof (view_wf cbt wt j s3 Hi3) as W3.
    split; [by eapply path_hd, (inv_path _ _ (proj2 W3))|]. split; [done|]. intros s4 Hs4 R4.
    apply grace_loop_ok; [done|done|by etrans|]. eapply at_node_mono; [exact R4|done|].
    apply (at_node_hd key i (view j s2) W2 (view j s3) (view j s3) []); [by apply grely_ksteps|done|done|].
    by intros ? ?%elem_of_nil. }
  change (rwp (cur ← load (LHead i); @ListRcu.search_loop urcu fuel key cur)
    (fun b s' => jinv s' /\ lin (view j s) (view j s') i key b) s2).
  eapply ewp_post; [exact Hw|]. cbn beta. intros b s' [Hi' Hl]. split; [done|].
  apply (lin_earlier (view j s) (view j s2)); [exact Ht2|apply Hi|apply W2|exact Hl].
Qed.

End reader.

(** ** The callback *)

Section callback.
Context `{HC : Calloc} {HT : CallocTotal} (cbt wt : Z) (Hcbt : cbt <> 0) (Hwt : wt <> 0) (Hcw : wt <> cbt).
Abbreviation jinv := (jinv cbt wt).
Abbreviation cwp := (lwp (fun _ L => L) anywhere (fun e => e = OutOfFuel) (keeps cbt wt (stable_c cbt)) (guar_c cbt wt)).

(** What the allocator's logic proves of a program that allocates nothing. *)
Lemma lift_c {A} (p : prog A) Q : off_prog (fun o => o <> CallocNode) p -> forall s,
  wp (fun e => e = OutOfFuel) (arely any_node cbt) (aguar any_node cbt) p Q (alloc_part s) -> jinv s ->
  cwp p (fun a s' => Q a (alloc_part s') /\ jinv s') s.
Proof.
  induction p as [a|e|o k IH]; intros Hoff s Hp Hi; cbn in *; [|done|].
  - intros s' R. destruct (R Hi) as [Hi' Ra]. split; [by apply Hp|done].
  - destruct Hoff as (Ho & Hc & Hoff). intros s' R. destruct (R Hi) as [Hi' Ra]. specialize (Hp _ Ra).
    cbn [alloc_part cm] in Hp. split; [done|]. destruct (op_exec o (cm s')) as [[r m']|] eqn:He; [|done].
    destruct Hp as (a' & Hg & Hw). exists (Jst (jl (cg s')) (jbk (cg s')) (jpend (cg s')) a').
    destruct (alloc_keeps cbt wt Hcbt Hwt Hcw any_node cbt s' o r m' a' Hi' (ji_alloc _ _ _ Hi') Ho He ltac:(by right) Hg (fun H0 => False_ind _ (Hcbt H0)))
      as (Hi2 & _ & Hr2 & _ & Hw2).
    split; [done|]. split; [|by apply IH]. split; [intros _|intros j _ _]; (split; [done|auto]).
Qed.

Lemma off_free_node_cb count_atm fuel n : off_prog (fun o => o <> CallocNode) (free_node_cb false count_atm fuel cbt n).
Proof. unfold free_node_cb. cbn [mbind prog_bind]. apply off_bind; [apply off_free_node|]. intros _. cbn. off_steps. Qed.

Lemma free_node_cb_ok count_atm fuel n F s : jinv s -> freer_at any_node cbt F [n] NULL (alloc_part s) ->
  cwp (free_node_cb false count_atm fuel cbt n)
    (fun _ s' => (exists F', freer_at any_node cbt F' [] NULL (alloc_part s')) /\ jinv s') s.
Proof.
  intros Hi HF. apply (lift_c _ (fun _ a => exists F', freer_at any_node cbt F' [] NULL a)); [apply off_free_node_cb|clear Hi|done].
  unfold free_node_cb. cbn [mbind prog_bind].
  apply wp_bind; [apply _|]. eapply wp_post; [exact (a_free_node any_node (fun _ => I) cbt F [] n fuel _ HF)|]. cbn beta.
  intros _ s1 [F1 H1]. apply a_load; [apply H1|by left|]. intros s2 v R2 _ _. apply wp_ret. intros s3 R3. exists F1.
  eapply freer_stable; [exact R3|]. by eapply freer_stable.
Qed.

(** It ends when it runs alone. *)
Lemma free_node_cb_alone count_atm fuel n F s : freer_at any_node cbt F [n] NULL (alloc_part s) ->
  exists m', run (free_node_cb false count_atm (S fuel) cbt n) (cm s) = Ok tt m'.
Proof.
  clear dependent wt. clear Hcbt.
  intros [(Ha & Hc & Hn & Hm) Ht]. cbn [alloc_part cm cg] in *. apply NoDup_app in Hn as (Hnd & Hd & _).
  assert (Hs : forall x, x ∈ F ++ [n] -> node (cm s) x /\ x ∉ shared (ja (cg s))) by (intros x Hx; by apply (ai_mine Ha cbt), Hm).
  assert (Hat : alloc_at cbt {[n]} (cm s) F (shared (ja (cg s)))).
  { split; [by apply chain_path|exact (ai_path Ha)| | | | |].
    - apply NoDup_app. split; [done|]. split; [|exact (ai_nodup Ha)]. intros x Hx. apply Hs. set_solver.
    - intros x [Hx|Hx]%elem_of_app; [apply Hs; set_solver|by apply (ai_shared Ha)].
    - intros x [Hx|Hx]%elem_of_app ->%elem_of_singleton; [apply (Hd n Hx); set_solver|]. by apply (Hs n); [set_solver|].
    - intros x ->%elem_of_singleton. apply Hs. set_solver.
    - exists (tail_of F). split; [done|]. unfold tail_of. destruct (last F) as [x|] eqn:Hl; [right|by left].
      apply Hs. apply last_Some in Hl as [l ->]. set_solver. }
  destruct (free_node_run cbt fuel {[n]} (cm s) n) as (m' & Hr & _); [by eexists _, _|set_solver|].
  exists m'. unfold free_node_cb. cbn [mbind prog_bind]. change (prog_bind ?p ?f) with (p ≫= f). rewrite run_bind, Hr.
  destruct (mget_static m' (LTls cbt Vthread) eq_refl) as [w Hw]. cbn. by rewrite Hw.
Qed.

End callback.
