(* ===== verification/GracePool.v ===== *)
(** * Updater, readers and callbacks together

    The invariant of the machine whose thread 0 updates and whose other threads
    read, and that each of its steps keeps it. *)
From S2P Require Import Prelude Mem RG Events SWP Table TableFacts Erase Frozen Allocator AllocRoles ListOps Stamp ListRcu RcuWriter RcuSearch Grace GraceLogic GraceSteps GraceWriter GraceReader.

Section pool.
Context `{HC : Calloc} {HT : CallocTotal} (cbt wt : Z) (Hcbt : cbt <> 0) (Hwt : wt <> 0) (Hcw : wt <> cbt).
Context (count_atm : bool) (fuel : nat).
Abbreviation jinv := (jinv cbt wt).
Abbreviation rely_w := (keeps cbt wt (stable_w cbt wt)).
Abbreviation rely_r i := (keeps cbt wt (stable_r i)).
Abbreviation rely_c := (keeps cbt wt (stable_c cbt)).
Abbreviation only_fuel := (fun e => e = OutOfFuel).
Abbreviation uwp := (lwp (lib_step 0) anywhere only_fuel rely_w (guar_w cbt wt)).
Abbreviation rwp j := (lwp (lib_step j) (touches j) only_fuel (rely_r j) (guar_r cbt wt j)).
Abbreviation cwp := (lwp (fun _ L => L) anywhere only_fuel rely_c (guar_c cbt wt)).
Abbreviation cb := (free_node_cb false count_atm fuel cbt).

(** Between callbacks the library's thread has a list of free nodes. *)
Definition idle (s : jcfg) : Prop := exists F, freer_at any_node cbt F [] NULL (alloc_part s).

(** Time passes. *)
Record passes (s s' : jcfg) : Prop := {
  pa_trace : suffix (ctr s) (ctr s');
  pa_dom i : is_Some (jbk (cg s) !! i) -> is_Some (jbk (cg s') !! i) }.

#[export] Instance passes_preorder : PreOrder passes.
Proof. split; [by split|]. intros s1 s2 s3 [A1 A2] [B1 B2]. split; [by etrans|auto]. Qed.

Lemma rely_passes j s s' : keeps cbt wt (stable_r j) s s' -> keeps cbt wt passes s s'.
Proof. intros R Hi. destruct (R Hi) as [Hi' [H1 H2 _ _]]. done. Qed.

Lemma guar_passes j s s' : guar_r cbt wt j s s' -> keeps cbt wt passes s s'.
Proof. intros G. apply (rely_passes (S j)). apply (gr_r _ _ _ _ _ G); lia. Qed.

Section inv.
Context {A : Type} (Q0 : A -> jcfg -> Prop) (Qr : nat -> A -> jcfg -> Prop).

Record mach_inv (c : machine A) (s : jcfg) : Prop := {
  mi_mem : cm s = memory c;
  mi_lib : jl (cg s) = library c;
  mi_inv : jinv s;
  mi_upd p : threads c !! 0%nat = Some p -> uwp p Q0 s;
  mi_read j p : j <> 0%nat -> threads c !! j = Some p -> rwp j p (Qr j) s;
  mi_cb : cwp (callback c) (fun _ s' => idle s' /\ jinv s') s }.

Lemma upd_step ps c L m o k r m' s : mach_inv (Machine ps c L m) s -> ps !! 0%nat = Some (Vis o k) ->
  op_exec o m = Some (r, m') ->
  exists s', ctr s' = m' :: ctr s /\ passes s s' /\ mach_inv (Machine (<[0%nat := k r]> ps) c (lib_step 0 o L) m') s'.
Proof.
  intros [Hm HL Hi Hu Hr Hc] Hp Ho. cbn in *. subst m L. destruct (ewp_step _ _ _ _ _ _ _ _ _ _ (Hu _ Hp) I ltac:(done)) as (r0 & m0 & g' & Ho' & Hl & _ & HG & Hw).
  rewrite Ho in Ho'. injection Ho' as <- <-. exists (next_cfg s m' g'). split; [done|]. split; [apply (rely_passes 1 _ _ (gw_r _ _ _ _ HG 1 ltac:(done)) Hi)|].
  split; cbn [cm cg next_cfg memory library threads callback]; [done|done|by apply HG| | |].
  - rewrite list_lookup_insert_eq by (by apply lookup_lt_Some in Hp). by intros p [= <-].
  - intros j p Hj. rewrite list_lookup_insert_ne by done. intros Hp'. eapply ewp_rely; [apply _|by apply Hr|by apply HG].
  - eapply ewp_rely; [apply _|exact Hc|apply HG].
Qed.

Lemma read_step j ps c L m o k r m' s : mach_inv (Machine ps c L m) s -> j <> 0%nat -> ps !! j = Some (Vis o k) ->
  op_exec o m = Some (r, m') ->
  exists s', ctr s' = m' :: ctr s /\ passes s s' /\ mach_inv (Machine (<[j := k r]> ps) c (lib_step j o L) m') s'.
Proof.
  intros [Hm HL Hi Hu Hr Hc] Hj Hp Ho. cbn in *. subst m L. destruct (ewp_step _ _ _ _ _ _ _ _ _ _ (Hr _ _ Hj Hp) I ltac:(done)) as (r0 & m0 & g' & Ho' & Hl & _ & HG & Hw).
  rewrite Ho in Ho'. injection Ho' as <- <-. exists (next_cfg s m' g'). split; [done|]. split; [apply (guar_passes j _ _ HG Hi)|].
  split; cbn [cm cg next_cfg memory library threads callback]; [done|done|by apply HG| | |].
  - intros p. rewrite list_lookup_insert_ne by done. intros Hp'. eapply ewp_rely; [apply _|by apply Hu|apply HG].
  - intros i p Hi0. destruct (decide (i = j)) as [->|Hne].
    + rewrite list_lookup_insert_eq by (by apply lookup_lt_Some in Hp). by intros [= <-].
    + rewrite list_lookup_insert_ne by done. intros Hp'. eapply ewp_rely; [apply _|by apply Hr|by apply HG].
  - eapply ewp_rely; [apply _|exact Hc|apply HG].
Qed.

Lemma cb_step ps L m o k r m' s : mach_inv (Machine ps (Vis o k) L m) s -> op_exec o m = Some (r, m') ->
  exists s', ctr s' = m' :: ctr s /\ passes s s' /\ mach_inv (Machine ps (k r) L m') s'.
Proof.
  intros [Hm HL Hi Hu Hr Hc] Ho. cbn [memory library threads callback] in *. subst m L.
  destruct (ewp_step _ _ _ _ _ _ _ _ _ _ Hc I ltac:(done)) as (r0 & m0 & g' & Ho' & Hl & _ & HG & Hw).
  rewrite Ho in Ho'. injection Ho' as <- <-. exists (next_cfg s m' g'). split; [done|]. split; [apply (rely_passes 1 _ _ (gc_r _ _ _ _ HG 1 ltac:(done)) Hi)|].
  split; cbn [cm cg next_cfg memory library threads callback]; [done|done|by apply HG| | |done].
  - intros p Hp'. eapply ewp_rely; [apply _|by apply Hu|apply HG].
  - intros i p Hi0 Hp'. eapply ewp_rely; [apply _|by apply Hr|by apply HG].
Qed.

Lemma start_step ps L m n W1 W2 s : mach_inv (Machine ps (Ret tt) L m) s -> waiting L = W1 ++ (n, ∅) :: W2 ->
  exists s', ctr s' = ctr s /\ passes s s' /\ mach_inv (Machine ps (cb n) (Lib (inside L) (W1 ++ W2)) m) s'.
Proof.
  intros [Hm HL Hi Hu Hr Hc] Hw. cbn [memory library threads callback] in *. subst m L.
  destruct (Hc s ltac:(done)) as [[F HF] _].
  destruct (start_keeps cbt wt Hcbt Hwt Hcw s n W1 W2 Hw Hi) as (Hi' & Sw & Sr & Sc).
  eexists. split; [|split; [exact (proj2 (rely_passes 1 _ _ (fun _ => conj Hi' (Sr 1%nat)) Hi))|]; split; cbn [memory library threads callback]; [| |exact Hi'| | |]]; cbn [cm cg ctr jl]; [done..| | |].
  - intros p Hp. eapply ewp_rely; [apply _|by apply Hu|by intros _].
  - intros j p Hj Hp. eapply ewp_rely; [apply _|by apply Hr|intros _; split; [done|apply Sr]].
  - by eapply free_node_cb_ok, Sc.
Qed.

Lemma mach_step c new c' s : mach_inv c s -> mstep cb c new c' ->
  exists s', ctr s' = new ++ ctr s /\ passes s s' /\ mach_inv c' s'.
Proof.
  intros Hc Hs. destruct Hs as [ps c L m i o k r m' Hp Ho|ps c L m i o k Hp Ho|ps L m o k r m' Ho|ps L m o k Ho|ps L m n W1 W2 Hw].
  - destruct i as [|i]; [by eapply upd_step|by eapply read_step].
  - exfalso. destruct Hc as [Hm HL Hi Hu Hr Hc]. cbn in *. subst m.
    destruct i as [|i].
    + eapply (ewp_no_fault _ _ _ _ _ _ _ _ _ _ (Hu _ Hp)); [exact I|done|exact Ho].
    + eapply (ewp_no_fault _ _ _ _ _ _ _ _ _ _ (Hr (S i) _ (Nat.neq_succ_0 i) Hp)); [exact I|done|exact Ho].
  - by eapply cb_step.
  - exfalso. destruct Hc as [Hm HL Hi Hu Hr Hc]. cbn [memory callback] in *. subst m.
    eapply (ewp_no_fault _ _ _ _ _ _ _ _ _ _ Hc); [exact I|done|exact Ho].
  - by eapply start_step.
Qed.

Lemma mach_steps c tr c' s : mach_inv c s -> msteps cb c tr c' ->
  exists s', ctr s' = tr ++ ctr s /\ passes s s' /\ mach_inv c' s'.
Proof.
  intros Hc Hs. induction Hs as [c|c tr c1 new c2 _ IH Hs]; [by exists s; split; [|split]|].
  destruct (IH Hc) as (s1 & Ht & P1 & H1). destruct (mach_step _ _ _ _ H1 Hs) as (s2 & Ht2 & P2 & H2).
  exists s2. split; [by rewrite Ht2, Ht, app_assoc|]. split; [by etrans|done].
Qed.

(** ** What the invariant says of a state *)

(** Only a loop that was cut short stops early. *)
Lemma mach_no_crash c s : mach_inv c s ->
  (forall i e, threads c !! i = Some (Crash e) -> e = OutOfFuel) /\ (forall e, callback c = Crash e -> e = OutOfFuel).
Proof.
  intros [_ _ _ Hu Hr Hc]. split.
  - intros [|i] e Hp; [exact (Hu _ Hp)|exact (Hr (S i) _ ltac:(done) Hp)].
  - intros e He. by rewrite He in Hc.
Qed.

(** A node that a reader reads is not in the shared list of free nodes. *)
Lemma mach_no_free c s j l n k gl : mach_inv c s -> j <> 0%nat -> threads c !! j = Some (Vis (Load l) k) ->
  l = LKey n \/ l = LNext n -> path LMrNext (memory c) (LGlob Gfreelist) gl -> n ∉ gl.
Proof.
  intros [Hm _ Hi _ Hr _] Hj Hp Hl Hgl. pose proof (ji_alloc _ _ _ Hi) as Ha. rewrite <- Hm in Hgl.
  rewrite (path_det _ _ _ _ _ Hgl (ai_path Ha)).
  assert (Hk : kept (cg (view j s)) n) by (destruct (Hr j _ Hj Hp s ltac:(done)) as [Ht _]; by destruct Hl; subst l).
  intros Hn. destruct Hk as [Hk|Hk].
  - apply (ji_live _ _ _ Hi) in Hk. by apply (ai_mine Ha 0 n).
  - apply waits_for_sub in Hk. apply (ji_waits _ _ _ Hi) in Hk. by apply (ai_mine Ha wt n).
Qed.

End inv.
End pool.
