(* ===== verification/Util.v ===== *)
(** * Pseudo-random numbers (util.h) *)
From S2P Require Import Prelude Mem.

(** [thd_seed = thd_seed * 1103515245 + 12345], on an [unsigned int]. *)
Definition lcg (seed : Z) : Z := u32 (seed * 1103515245 + 12345).

(** [(unsigned) (thd_seed / 65536) % 32768] *)
Definition lcg_out (seed : Z) : Z := (seed / 65536) mod 32768.

Definition myrand (self : Z) : prog Z :=
  seed ← load (LTls self Vthd_seed);
  store (LTls self Vthd_seed) (lcg seed);;
  seed ← load (LTls self Vthd_seed);
  Ret (lcg_out seed).

Definition mysrand (self seed : Z) : prog unit := store (LTls self Vthd_seed) (u32 seed).

(** The [n]-th seed after [seed]. *)
Definition lcg_iter (n : nat) (seed : Z) : Z := Nat.iter n lcg seed.

Lemma lcg_range seed : 0 <= lcg seed < word32.
Proof. apply Z.mod_pos_bound. done. Qed.

Lemma lcg_out_range seed : 0 <= lcg_out seed < 32768.
Proof. apply Z.mod_pos_bound. lia. Qed.

(** The multiplier is odd: modulo [2^32] it has an inverse. *)
Lemma lcg_inj a b : 0 <= a < word32 -> 0 <= b < word32 -> lcg a = lcg b -> a = b.
Proof.
  intros Ha Hb Heq. unfold lcg, u32 in Heq.
  assert (Hm : ((a - b) * 1103515245) mod word32 = 0).
  { replace ((a - b) * 1103515245) with
      ((a * 1103515245 + 12345) - (b * 1103515245 + 12345)) by lia.
    rewrite Zminus_mod, Heq, Z.sub_diag. done. }
  assert (Hinv : (1103515245 * 4005161829) mod word32 = 1) by done.
  assert (Hd : (a - b) mod word32 = 0).
  { replace ((a - b) mod word32) with (((a - b) * (1103515245 * 4005161829)) mod word32).
    - rewrite Z.mul_assoc, Zmult_mod, Hm. done.
    - rewrite Zmult_mod, Hinv, Z.mul_1_r. by rewrite Zmod_mod. }
  unfold word32 in *. apply Z.mod_divide in Hd as [k Hk]; [|lia]. assert (k = 0) by lia. lia.
Qed.

(** ** The period of the generator

    [n] steps multiply the seed by [a^n] and add [lcg_const n]. *)
Definition lcg_mul : Z := 1103515245.
Definition lcg_add : Z := 12345.

Fixpoint lcg_const (n : nat) : Z :=
  match n with O => 0 | S n => lcg_const n * lcg_mul + lcg_add end.

Lemma lcg_iter_affine n seed : 0 <= seed < word32 ->
  lcg_iter n seed = (seed * lcg_mul ^ Z.of_nat n + lcg_const n) mod word32.
Proof.
  intros Hs. induction n as [|n IH].
  - cbn. rewrite Z.mul_1_r, Z.add_0_r, Z.mod_small; done.
  - unfold lcg_iter in *. simpl Nat.iter. rewrite IH. unfold lcg, u32.
    fold lcg_mul lcg_add. cbn [lcg_const].
    rewrite <- Z.add_mod_idemp_l, Z.mul_mod_idemp_l, Z.add_mod_idemp_l by done. f_equal.
    rewrite Nat2Z.inj_succ, Z.pow_succ_r by lia. lia.
Qed.

Lemma lcg_const_add n k : lcg_const (n + k) = lcg_const n * lcg_mul ^ Z.of_nat k + lcg_const k.
Proof.
  induction k as [|k IH].
  - rewrite Nat.add_0_r. cbn. lia.
  - rewrite Nat.add_succ_r. cbn [lcg_const]. rewrite IH, Nat2Z.inj_succ, Z.pow_succ_r by lia. lia.
Qed.

(** After [2^k] steps the multiplier is [1] modulo [2^(k+2)] and the constant
    an odd multiple of [2^k]. *)
Lemma lcg_pow2 k : exists t c, lcg_mul ^ (2 ^ Z.of_nat k) = 1 + 2 ^ (Z.of_nat k + 2) * t /\
  lcg_const (Nat.pow 2 k) = 2 ^ Z.of_nat k * (2 * c + 1).
Proof.
  induction k as [|k (t & c & Ht & Hc)].
  - exists 275878811, 6172. done.
  - rewrite Nat2Z.inj_succ. pose proof (Z.pow_pos_nonneg 2 (Z.of_nat k) ltac:(lia) ltac:(lia)) as Hp.
    rewrite Z.add_succ_l, !Z.pow_succ_r by lia.
    rewrite Z.pow_add_r in Ht by lia. rewrite Z.pow_add_r by lia. set (P := 2 ^ Z.of_nat k) in *.
    change (2 ^ 2) with 4 in *. exists (t + 2 * P * t * t), (c + (2 * c + 1) * (P * t)). split.
    + rewrite Z.mul_comm, Z.pow_mul_r, Ht by lia. lia.
    + replace (Nat.pow 2 (S k)) with (Nat.pow 2 k + Nat.pow 2 k)%nat by (simpl; lia).
      rewrite lcg_const_add, Nat2Z.inj_pow. change (Z.of_nat 2) with 2. fold P.
      rewrite Ht, Hc. lia.
Qed.

Lemma lcg_pow2_mul k j : exists t c,
  lcg_mul ^ Z.of_nat (Nat.pow 2 k * j) = 1 + 2 ^ (Z.of_nat k + 2) * t /\
  lcg_const (Nat.pow 2 k * j) = 2 ^ Z.of_nat k * (2 * c + Z.of_nat j).
Proof.
  induction j as [|j (t & c & Ht & Hc)].
  - exists 0, 0. rewrite Nat.mul_0_r. cbn [lcg_const]. change (Z.of_nat 0) with 0. split; [cbn; lia|lia].
  - destruct (lcg_pow2 k) as (t1 & c1 & Ht1 & Hc1).
    pose proof (Z.pow_pos_nonneg 2 (Z.of_nat k) ltac:(lia) ltac:(lia)) as Hp.
    replace (Nat.pow 2 k * S j)%nat with (Nat.pow 2 k * j + Nat.pow 2 k)%nat by lia.
    rewrite lcg_const_add, Nat2Z.inj_add, Z.pow_add_r, Ht by lia.
    rewrite (Nat2Z.inj_pow 2 k). change (Z.of_nat 2) with 2. rewrite Ht1, Hc, Hc1.
    rewrite Z.pow_add_r by lia. change (2 ^ 2) with 4. set (P := 2 ^ Z.of_nat k) in *.
    exists (t + t1 + 4 * P * t * t1), (c + c1 + (2 * c + Z.of_nat j) * (2 * P * t1)).
    split; [|rewrite Nat2Z.inj_succ]; lia.
Qed.

(** Modulo [2^k] the generator returns to its seed only after a multiple of
    [2^k] steps. *)
Lemma lcg_return k n seed : 0 <= seed < word32 -> (k <= 32)%nat ->
  (lcg_iter n seed mod 2 ^ Z.of_nat k = seed mod 2 ^ Z.of_nat k) -> exists j, n = (Nat.pow 2 k * j)%nat.
Proof.
  intros Hs. induction k as [|k IH]; intros Hk Heq.
  { exists n. simpl. lia. }
  pose proof (Z.pow_pos_nonneg 2 (Z.of_nat k) ltac:(lia) ltac:(lia)) as Hp.
  assert (Hw : (2 ^ Z.of_nat (S k) | word32)).
  { exists (2 ^ (32 - Z.of_nat (S k))). unfold word32. rewrite <- Z.pow_add_r by lia. f_equal. lia. }
  destruct IH as [j ->]; [lia| |].
  { rewrite Nat2Z.inj_succ, Z.pow_succ_r in Heq by lia.
    rewrite <- (Z.mod_mod_divide (lcg_iter n seed) (2 * 2 ^ Z.of_nat k)) by (exists 2; lia).
    rewrite Heq. apply Z.mod_mod_divide. exists 2. lia. }
  rewrite lcg_iter_affine, Z.mod_mod_divide in Heq by done.
  destruct (lcg_pow2_mul k j) as (t & c & Ht & Hc). rewrite Ht, Hc in Heq.
  rewrite Z.pow_add_r in Heq by lia. rewrite Nat2Z.inj_succ, Z.pow_succ_r in Heq by lia.
  set (P := 2 ^ Z.of_nat k) in *. change (2 ^ 2) with 4 in Heq.
  assert (Hd : (2 * P | P * Z.of_nat j)).
  { apply (Z.cong_iff_0 _ _ (2 * P)) in Heq. apply Z.mod_divide in Heq as [q Hq]; [|lia].
    exists (q - 2 * seed * t - c). lia. }
  destruct Hd as [q Hq]. assert (Hj : Z.of_nat j = 2 * q) by (apply (Z.mul_reg_l _ _ P); lia).
  exists (Z.to_nat q). simpl. replace j with (2 * Z.to_nat q)%nat by lia. lia.
Qed.

(** C35: [thd_seed] runs through all the [2^32] seeds before it repeats
    one. *)
Theorem lcg_period n seed : 0 <= seed < word32 ->
  lcg_iter n seed = seed <-> (word32 | Z.of_nat n).
Proof.
  intros Hs. split.
  - intros Heq. destruct (lcg_return 32 n seed Hs ltac:(lia)) as [j ->]; [by rewrite Heq|].
    exists (Z.of_nat j). rewrite Nat2Z.inj_mul, Nat2Z.inj_pow. unfold word32. simpl. lia.
  - intros [j Hj]. assert (Hn : n = (Nat.pow 2 32 * Z.to_nat j)%nat).
    { apply Nat2Z.inj. rewrite Nat2Z.inj_mul, Nat2Z.inj_pow, Hj. unfold word32 in *. rewrite Z2Nat.id by lia.
      change (Z.of_nat 2) with 2. change (Z.of_nat 32) with 32. lia. }
    rewrite Hn. rewrite lcg_iter_affine by done.
    destruct (lcg_pow2_mul 32 (Z.to_nat j)) as (t & c & -> & ->).
    rewrite <- (Z.mod_small seed word32) at 2 by done.
    change (2 ^ Z.of_nat 32) with word32. change (2 ^ (Z.of_nat 32 + 2)) with (4 * word32).
    replace (seed * (1 + 4 * word32 * t) + word32 * (2 * c + Z.of_nat (Z.to_nat j)))
      with (seed + (4 * seed * t + 2 * c + Z.of_nat (Z.to_nat j)) * word32) by lia.
    apply Z.mod_add. done.
Qed.

Lemma lcg_period_witness : lcg_iter 0 1 = 1 <-> (word32 | Z.of_nat 0).
Proof. apply (lcg_period 0 1). split; [discriminate|reflexivity]. Defined.
