(* ===== verification/Stats.v ===== *)
(** * The statistics of the driver (util.h)

    Sums, averages, maxima and minima of arrays of [double], in the binary64
    arithmetic of the Standard Library's [SpecFloat]. *)
From S2P Require Import Prelude.
From Stdlib Require Import SpecFloat.

Abbreviation prec := (53%Z).
Abbreviation emax := (1024%Z).

Definition fadd : spec_float -> spec_float -> spec_float := SFadd prec emax.
Definition fdiv : spec_float -> spec_float -> spec_float := SFdiv prec emax.
Definition flt : spec_float -> spec_float -> bool := SFltb.

(** [(double) n] *)
Definition of_int (n : Z) : spec_float := binary_normalize prec emax n 0 false.

Definition fzero : spec_float := S754_zero false.
Definition DBL_MAX : spec_float := S754_finite false 9007199254740991 971.

(** [for (i = 0; i < samples; i++) sum += data[i];] *)
Definition get_sum (data : list spec_float) : spec_float := foldl fadd fzero data.

Definition get_avg (data : list spec_float) : spec_float :=
  fdiv (foldl fadd fzero data) (of_int (Z.of_nat (length data))).

Definition get_max (data : list spec_float) : spec_float :=
  foldl (fun max d => if flt max d then d else max) fzero data.

Definition get_min (data : list spec_float) : spec_float :=
  foldl (fun min d => if flt d min then d else min) DBL_MAX data.

Definition get_cpw (data : list spec_float) (div : Z) : spec_float :=
  fdiv (fdiv (foldl fadd fzero data) (of_int (Z.of_nat (length data)))) (of_int div).

Definition get_cpu_work (data : list spec_float) (mtc : Z) : spec_float :=
  let samples := Z.of_nat (length data) in
  fdiv (foldl fadd fzero data) (of_int (samples + (samples - mtc))).

(** ** The order of the floats

    [rank] sends a number to a triple of integers whose lexicographic order is
    the order of the floats. *)
Definition rank (x : spec_float) : Z * Z * Z :=
  match x with
  | S754_zero _ | S754_nan => (0, 0, 0)
  | S754_infinity s => (if s then -2 else 2, 0, 0)
  | S754_finite s m e => if s then (-1, - e, - Z.pos m) else (1, e, Z.pos m)
  end.

Definition rank_lt (a b : Z * Z * Z) : Prop :=
  a.1.1 < b.1.1 \/ a.1.1 = b.1.1 /\ (a.1.2 < b.1.2 \/ a.1.2 = b.1.2 /\ a.2 < b.2).

Definition is_nan (x : spec_float) : bool := match x with S754_nan => true | _ => false end.

Lemma flt_rank x y : is_nan x = false -> is_nan y = false -> flt x y = true <-> rank_lt (rank x) (rank y).
Proof.
  intros Hx Hy. unfold flt, SFltb, rank_lt.
  destruct x as [[]|[]| |[] m1 e1], y as [[]|[]| |[] m2 e2]; try discriminate;
    cbn; try (split; [discriminate|lia]); try (split; [lia|done]).
  - destruct (Z.compare_spec e1 e2) as [->| |]; [|split; [discriminate|lia]|split; [lia|done]].
    change (PosDef.Pos.compare_cont Eq m1 m2) with (Pos.compare m1 m2).
    destruct (Pos.compare_spec m1 m2) as [->| |]; cbn; (split; [try discriminate; lia|try done; lia]).
  - destruct (Z.compare_spec e1 e2) as [->| |]; [|split; [lia|done]|split; [discriminate|lia]].
    change (PosDef.Pos.compare_cont Eq m1 m2) with (Pos.compare m1 m2).
    destruct (Pos.compare_spec m1 m2) as [->| |]; cbn; (split; [try discriminate; lia|try done; lia]).
Qed.

(** [x <= y] *)
Definition fle (x y : spec_float) : Prop := flt y x = false.

Lemma fle_rank x y : is_nan x = false -> is_nan y = false -> fle x y <-> ~ rank_lt (rank y) (rank x).
Proof.
  intros Hx Hy. unfold fle. rewrite <- (flt_rank y x) by done. destruct (flt y x); naive_solver.
Qed.

Lemma fle_refl x : fle x x.
Proof. destruct x as [[]|[]| |[] m e]; try done; unfold fle, flt, SFltb; cbn; rewrite Z.compare_refl;
  change (PosDef.Pos.compare_cont Eq m m) with (Pos.compare m m); by rewrite Pos.compare_refl. Qed.

Lemma fle_trans x y z : is_nan x = false -> is_nan y = false -> is_nan z = false ->
  fle x y -> fle y z -> fle x z.
Proof. intros Hx Hy Hz. rewrite !fle_rank by done. unfold rank_lt. lia. Qed.

Lemma fold_best (better : spec_float -> spec_float -> bool) data x0 :
  let r := foldl (fun x d => if better x d then d else x) x0 data in r = x0 \/ r ∈ data.
Proof.
  simpl. revert x0. induction data as [|d data IH]; intros x0; simpl; [by left|].
  destruct (IH (if better x0 d then d else x0)) as [->|H]; [destruct (better x0 d); set_solver|set_solver].
Qed.

Lemma max_ge data : forall x0, is_nan x0 = false -> Forall (fun d => is_nan d = false) data ->
  let r := foldl (fun x d => if flt x d then d else x) x0 data in
  is_nan r = false /\ fle x0 r /\ Forall (fun d => fle d r) data.
Proof.
  induction data as [|d data IH]; intros x0 H0 Hd; simpl.
  { split_and!; [done|apply fle_refl|constructor]. }
  apply Forall_cons in Hd as [Hd1 Hd]. set (x1 := if flt x0 d then d else x0).
  assert (H1 : is_nan x1 = false) by (unfold x1; by destruct (flt x0 d)).
  assert (Hle : fle x0 x1 /\ fle d x1).
  { unfold x1. destruct (flt x0 d) eqn:Hf; [|split; [apply fle_refl|exact Hf]].
    split; [|apply fle_refl]. apply fle_rank; [done..|]. apply flt_rank in Hf; [|done..].
    unfold rank_lt in *. lia. }
  destruct (IH x1 H1 Hd) as (Hr & Hx & Hall). set (r := foldl _ x1 data) in *.
  split_and!; [done| |constructor; [|done]]; eapply (fle_trans _ x1); tauto.
Qed.

Lemma min_le data : forall x0, is_nan x0 = false -> Forall (fun d => is_nan d = false) data ->
  let r := foldl (fun x d => if flt d x then d else x) x0 data in
  is_nan r = false /\ fle r x0 /\ Forall (fun d => fle r d) data.
Proof.
  induction data as [|d data IH]; intros x0 H0 Hd; simpl.
  { split_and!; [done|apply fle_refl|constructor]. }
  apply Forall_cons in Hd as [Hd1 Hd]. set (x1 := if flt d x0 then d else x0).
  assert (H1 : is_nan x1 = false) by (unfold x1; by destruct (flt d x0)).
  assert (Hle : fle x1 x0 /\ fle x1 d).
  { unfold x1. destruct (flt d x0) eqn:Hf; [|split; [apply fle_refl|exact Hf]].
    split; [|apply fle_refl]. apply fle_rank; [done..|]. apply flt_rank in Hf; [|done..].
    unfold rank_lt in *. lia. }
  destruct (IH x1 H1 Hd) as (Hr & Hx & Hall). set (r := foldl _ x1 data) in *.
  split_and!; [done| |constructor; [|done]]; eapply (fle_trans _ x1); tauto.
Qed.

(** [get_max] is the greatest sample, or [0] when no sample is
    positive. *)
Lemma get_max_spec data : Forall (fun d => is_nan d = false) data ->
  (get_max data = fzero \/ get_max data ∈ data) /\ fle fzero (get_max data) /\
  Forall (fun d => fle d (get_max data)) data.
Proof.
  intros Hd. split; [apply fold_best|]. destruct (max_ge data fzero eq_refl Hd) as (_ & ? & ?). done.
Qed.

(** [get_min] is the smallest sample, or [DBL_MAX]. *)
Lemma get_min_spec data : Forall (fun d => is_nan d = false) data ->
  (get_min data = DBL_MAX \/ get_min data ∈ data) /\ fle (get_min data) DBL_MAX /\
  Forall (fun d => fle (get_min data) d) data.
Proof.
  intros Hd. split; [apply (fold_best (fun x d => flt d x))|].
  destruct (min_le data DBL_MAX eq_refl Hd) as (_ & ? & ?). done.
Qed.

(** Without samples (a run with no updater) the average is not a
    number, and the extrema are the initial values of the loops. *)
Lemma no_samples : get_avg [] = S754_nan /\ get_max [] = fzero /\ get_min [] = DBL_MAX /\
  get_cpu_work [] 0 = S754_nan.
Proof. repeat split. Qed.

(** [get_avg] of one, two and three samples. *)
Example avg_123 : get_avg [of_int 1; of_int 2; of_int 6] = of_int 3.
Proof. vm_compute. reflexivity. Qed.
