(* ===== verification/Mrow.v ===== *)
(** * The benchmark driver (mrow.c): code

    The hash table over the list operations, and the loops of the reader and
    updater threads.  A build links mrow.c with the list operations of one
    scheme, a lock and a [search]: the class [Build].  Its threads may have to
    register with the library of the scheme ([rcu_register_thread]). *)
From S2P Require Import Prelude Mem Allocator ListOps Util.

Class Build := {
  build_ops :: ListOps;
  lock_init : loc -> prog unit;
  thread_register : prog unit;
  thread_unregister : prog unit;
  search : Z -> Z -> loc -> loc -> prog Z }.

(** [int i = key % nbbuckets]: [key] is converted to [unsigned long], the
    remainder to [int]. *)
Definition bucket_of (nbbuckets key : Z) : Z := i32 (u64 key mod nbbuckets).

Section code.
Context `{Build} (nbbuckets nbkeys : Z).

Definition get_buckets (key : Z) : prog (loc * loc) :=
  if nbbuckets =? 0 then Crash DivByZero else
  let i := bucket_of nbbuckets key in Ret (LHead i, LLock i).

(** ** Initialisation and destruction of the table *)

(** [i++] on an [int]. *)
Definition int_succ (i : Z) : prog Z :=
  if i <? 2 ^ 31 - 1 then Ret (i + 1) else Crash IntOverflow.

Fixpoint lock_init_loop (n : nat) (i : Z) : prog unit :=
  match n with
  | O => Ret tt
  | S n => lock_init (LLock i);; i' ← int_succ i; lock_init_loop n i'
  end.

(** [for (i = 0; i < nbkeys; i++) insert(i, ...)] *)
Fixpoint populate (n fuel : nat) (self i : Z) : prog unit :=
  match n with
  | O => Ret tt
  | S n =>
      b ← get_buckets i;
      _ ← op_insert fuel self i b.1 b.2;
      i' ← int_succ i;
      populate n fuel self i'
  end.

(** [hash_init]; [set_affinity] does not touch the program's state. *)
Definition hash_init (do_populate set_tail : bool) (fuel : nat) (self : Z) : prog unit :=
  _ ← do_op (CallocHeads nbbuckets);
  _ ← do_op (CallocLocks nbbuckets);
  lock_init_loop (Z.to_nat nbbuckets) 0;;
  (if do_populate then populate (Z.to_nat nbkeys) fuel self 0 else Ret tt);;
  (if set_tail then
     b ← get_buckets (if do_populate then nbkeys else nbbuckets);
     _ ← op_insert fuel self (i32 (nbkeys + 1)) b.1 b.2;
     Ret tt
   else Ret tt).

Fixpoint unpopulate (n fuel : nat) (self i : Z) : prog unit :=
  match n with
  | O => Ret tt
  | S n =>
      b ← get_buckets i;
      _ ← op_delete fuel self i b.1 b.2;
      i' ← int_succ i;
      unpopulate n fuel self i'
  end.

Definition hash_delete (set_tail : bool) (fuel : nat) (self : Z) : prog unit :=
  unpopulate (Z.to_nat nbkeys) fuel self 0;;
  (if set_tail then
     b ← get_buckets nbkeys;
     _ ← op_delete fuel self (i32 (nbkeys + 1)) b.1 b.2;
     Ret tt
   else Ret tt);;
  _ ← do_op FreeHeads;
  _ ← do_op FreeLocks;
  Ret tt.

(** ** The main loop of a thread *)

(** [x += d] on a thread-local counter. *)
Definition add_tls (self : Z) (x : tlsvar) (d : Z) : prog unit :=
  v ← load (LTls self x); store (LTls self x) (v + d).

(** [key = myrand() % nbkeys] *)
Definition random_key (self : Z) : prog Z :=
  r ← myrand self;
  if nbkeys =? 0 then Crash DivByZero else Ret (i32 (u64 r mod nbkeys)).

(** The [do ... while (++i)] of [run]; returns the last [i]. *)
Fixpoint run_loop (loops fuel : nat) (self : Z) (iamreader : bool) (i : Z) : prog Z :=
  match loops with
  | O => Crash OutOfFuel
  | S loops =>
      let next := let i' := u64 (i + 1) in
        if i' =? 0 then Ret i' else run_loop loops fuel self iamreader i' in
      key ← random_key self;
      b ← get_buckets key;
      if iamreader then
        r ← search self key b.1 b.2;
        add_tls self Vthd_sea r;;
        if NB_TEST <=? i then Ret i else next
      else
        (if i mod 2 =? 1 then
           r ← op_insert fuel self key b.1 b.2; add_tls self Vthd_ins r
         else
           r ← op_delete fuel self key b.1 b.2; add_tls self Vthd_del r);;
        done ← load (LGlob Gdone);
        if negb (done =? 0) then Ret i else next
  end.

(** ** A thread

    The first part of [run]: counters, identity, preallocation for an updater
    and seed; [now] is the result of [time(NULL)]. *)
Definition run_init (nbupdaters now : Z) (preallocat : bool) (fuel : nat) (t : Z) : prog unit :=
  store (LTls t Vthd_ins) 0;;
  store (LTls t Vthd_del) 0;;
  store (LTls t Vthd_sea) 0;;
  store (LTls t Vnbmallocs) 0;;
  store (LTls t Vnbretry) 0;;
  store (LTls t Vnbrelink) 0;;
  store (LTls t Vnbreprev) 0;;
  store (LTls t Vnbfl) 0;;
  store (LTls t Vthread) t;;
  store (LTls t Vthd_nbupdaters) (u32 nbupdaters);;
  (if nbupdaters <=? t then Ret tt else prealloc preallocat fuel t);;
  mysrand t (Z.lxor t now).

(** The barrier before the loop: [ready] counts the threads, [go] starts
    them. *)
Fixpoint wait_go (fuel : nat) : prog unit :=
  match fuel with
  | O => Crash OutOfFuel
  | S fuel =>
      go ← load (LGlob Ggo);
      if go =? 0 then memory_barrier;; wait_go fuel else Ret tt
  end.

Definition run_barrier (fuel : nat) : prog unit :=
  _ ← atomic_xadd4 (LGlob Gready) 1;
  wait_go fuel.

(** [run] up to its last iteration; [thd_ops[t]] is the value it returns. *)
Definition run_thread (nbupdaters now : Z) (preallocat : bool) (loops fuel : nat) (t : Z) : prog Z :=
  run_init nbupdaters now preallocat fuel t;;
  run_barrier fuel;;
  thread_register;;
  i ← run_loop loops fuel t (nbupdaters <=? t) 0;
  thread_unregister;;
  Ret i.

(** ** The main thread

    [test] until the threads exist, by the main thread [self]. *)
Definition test_start (do_populate set_tail preallocat : bool) (fuel : nat) (self : Z) : prog unit :=
  hash_init do_populate set_tail fuel self;;
  init_allocator preallocat fuel self;;
  store (LGlob Gdone) 0;;
  store (LGlob Ggo) 0;;
  store (LGlob Gready) 0;;
  memory_barrier.

(** [while (ready != nbthreads) memory_barrier();] *)
Fixpoint wait_ready (fuel : nat) (nbthreads : Z) : prog unit :=
  match fuel with
  | O => Crash OutOfFuel
  | S fuel =>
      ready ← load (LGlob Gready);
      if ready =? nbthreads then Ret tt else memory_barrier;; wait_ready fuel nbthreads
  end.

(** [for (i = nbthreads - 1; i >= 0; i--)]: the threads are joined from the
    last reader down; the updaters are stopped when the readers have ended. *)
Fixpoint join_loop (pthread_join : Z -> prog unit) (nbupdaters : Z) (n : nat) : prog unit :=
  match n with
  | O => Ret tt
  | S n =>
      let i := Z.of_nat n in
      pthread_join i;;
      (if i =? nbupdaters then store (LGlob Gdone) 1;; memory_barrier else Ret tt);;
      join_loop pthread_join nbupdaters n
  end.

(** [test] after the threads were created. *)
Definition test_rest (pthread_join : Z -> prog unit) (nbthreads nbupdaters : Z) (fuel : nat) : prog unit :=
  wait_ready fuel nbthreads;;
  store (LGlob Ggo) 1;;
  memory_barrier;;
  join_loop pthread_join nbupdaters (Z.to_nat nbthreads).

End code.

(** ** Command line *)

Record config := Config {
  nbthreads : Z; nbupdaters : Z; nbreaders : Z;
  nbbuckets : Z; pbnodes : Z; nbkeys : Z }.

(** [setup_test]: [args] are the values [strtoul] gives for [argv[1..]];
    [None] is the [exit(1)] of a wrong command line. *)
Definition setup_test (argc : Z) (args : list Z) : option config :=
  if argc <? 5 then None else
  let arg n := nth n args 0 in
  let nbthreads := arg 0%nat in
  let nbupdaters := arg 1%nat in
  if nbthreads <=? nbupdaters then None else
  let nbbuckets := if arg 2%nat =? 0 then 1 else arg 2%nat in
  let pbnodes := if arg 3%nat =? 0 then 1 else arg 3%nat in
  Some (Config nbthreads nbupdaters (nbthreads - nbupdaters) nbbuckets pbnodes
          (u64 (pbnodes * nbbuckets))).
