(* ===== verification/Report.v ===== *)
(** * The figures the program prints (mrow.c)

    The end of [run], in which a thread puts its results in the arrays of
    mrow.c, the end of [test], which condenses them, and [main], which prints
    averages and extrema over the tests. *)
From S2P Require Import Prelude Mem Util Stats Mrow.
From Stdlib Require Import SpecFloat.

Definition fsub : spec_float -> spec_float -> spec_float := SFsub prec emax.

(** [d_gettimeofday], in microseconds, from the [struct timeval]. *)
Definition d_gettimeofday (tv_sec tv_usec : Z) : spec_float :=
  fadd (of_int (tv_sec * 1000000)) (of_int tv_usec).

(** ** The results of a thread *)

(** The arrays of [MAX_THREAD] cells that [run] fills. *)
Inductive tstat :=
  | Avg_time | Thd_time | Suc_ins | Suc_del | Suc_sea | Thd_ops
  | Thd_mallocs | Thd_retry | Thd_relink | Thd_reprev | Thd_blockeds.

Definition arrays : Type := tstat -> list spec_float.

(** An assignment [array[t] = v]; [None] is a write out of the bounds. *)
Definition set_cell (t : Z) (v : spec_float) (l : list spec_float) : option (list spec_float) :=
  if (0 <=? t) && (t <? Z.of_nat (length l)) then Some (<[Z.to_nat t := v]> l) else None.

(** What [run] stores after its loop, which ended with [i]; [rcu] is the macro
    [RCU], [start] and [stop] are the times read before and after the loop. *)
Definition run_end (rcu : bool) (start stop : spec_float) (i t : Z) : prog (tstat -> spec_float) :=
  nbmallocs ← load (LTls t Vnbmallocs);
  nbretry ← load (LTls t Vnbretry);
  nbrelink ← load (LTls t Vnbrelink);
  nbreprev ← load (LTls t Vnbreprev);
  blockeds ← (if rcu : bool then atomic_read4 (LGlob Grcublockeds) else load (LTls t Vnbblockeds));
  ins ← load (LTls t Vthd_ins);
  sea ← load (LTls t Vthd_sea);
  del ← load (LTls t Vthd_del);
  Ret (fun s =>
    match s with
    | Thd_ops => of_int i
    | Thd_mallocs => of_int nbmallocs
    | Thd_retry => of_int nbretry
    | Thd_relink => of_int nbrelink
    | Thd_reprev => of_int nbreprev
    | Thd_blockeds => of_int blockeds
    | Avg_time => fdiv (fsub stop start) (of_int i)
    | Thd_time => fsub stop start
    | Suc_ins => of_int ins
    | Suc_sea => of_int sea
    | Suc_del => of_int del
    end).

(** The stores themselves: every array gets the thread's value. *)
Definition put (t : Z) (rep : tstat -> spec_float) (a : arrays) : option arrays :=
  if (0 <=? t) && (t <? MAX_THREAD) then Some (fun s => <[Z.to_nat t := rep s]> (a s)) else None.

(** ** The end of test *)

Inductive rstat :=
  | Run_avg_rd | Run_avg_wr | Run_max_rd | Run_max_wr | Run_min_rd | Run_min_wr
  | Run_retry | Run_relink | Run_reprev | Run_cput | Run_mallocs | Run_blockeds
  | Run_sea | Run_del | Run_ins | Trd_ops | Twr_ops.

#[export] Instance rstat_eq_dec : EqDecision rstat.
Proof. solve_decision. Defined.

(** The arrays that [test] fills, with the sizes of their declarations. *)
Definition runs : Type := rstat -> list spec_float.

Definition run_size (s : rstat) : Z :=
  match s with
  | Run_avg_rd | Run_avg_wr | Run_max_rd | Run_max_wr | Run_min_rd | Run_min_wr
  | Run_ins | Run_del | Run_sea => ITERATION
  | _ => MAX_THREAD
  end.

(** [&data[first]] with [samples]: the cells that a function of util.h reads. *)
Definition window (first samples : Z) (data : list spec_float) : option (list spec_float) :=
  if (0 <=? first) && (0 <=? samples) && (first + samples <=? Z.of_nat (length data))
  then Some (take (Z.to_nat samples) (drop (Z.to_nat first) data)) else None.

Section test.
Context (nbcores nbupdaters nbreaders : Z).

(** [nbcores < nbreaders ? nbcores : nbreaders] *)
Definition mtc : Z := if nbcores <? nbreaders then nbcores else nbreaders.

(** The expression that [test] assigns to each array. *)
Definition run_value (a : arrays) (s : rstat) : option spec_float :=
  let rd s := window nbupdaters nbreaders (a s) in
  let wr s := window 0 nbupdaters (a s) in
  match s with
  | Run_avg_rd => get_avg <$> rd Avg_time
  | Run_avg_wr => get_avg <$> wr Avg_time
  | Run_max_rd => get_max <$> rd Avg_time
  | Run_max_wr => get_max <$> wr Avg_time
  | Run_min_rd => get_min <$> rd Avg_time
  | Run_min_wr => get_min <$> wr Avg_time
  | Run_retry => get_sum <$> rd Thd_retry
  | Run_relink => get_sum <$> rd Thd_relink
  | Run_reprev => get_sum <$> rd Thd_reprev
  | Run_cput => d ← rd Thd_time; Some (fdiv (get_cpu_work d mtc) (of_int NB_TEST))
  | Run_mallocs => get_sum <$> wr Thd_mallocs
  | Run_blockeds => get_sum <$> wr Thd_blockeds
  | Run_sea => get_avg <$> rd Suc_sea
  | Run_del => get_avg <$> wr Suc_del
  | Run_ins => get_avg <$> wr Suc_ins
  | Trd_ops => time ← get_avg <$> rd Thd_time; o ← get_avg <$> rd Thd_ops; Some (fdiv o time)
  | Twr_ops => time ← get_avg <$> rd Thd_time; o ← get_avg <$> wr Thd_ops; Some (fdiv o time)
  end.

(** In the order of the code. *)
Definition run_order : list rstat :=
  [Run_avg_rd; Run_avg_wr; Run_max_rd; Run_max_wr; Run_min_rd; Run_min_wr;
   Run_retry; Run_relink; Run_reprev; Run_cput; Run_mallocs; Run_blockeds;
   Run_sea; Run_del; Run_ins; Trd_ops; Twr_ops].

Definition assign (s : rstat) (iteration : Z) (v : spec_float) (r : runs) : option runs :=
  l ← set_cell iteration v (r s);
  Some (fun s' => if decide (s' = s) then l else r s').

Definition test_stats (a : arrays) (iteration : Z) (r : runs) : option runs :=
  foldl (fun r s => r ← r; v ← run_value a s; assign s iteration v r) (Some r) run_order.

(** ** main *)

(** The figures, one constructor for each that [main] prints after the tests. *)
Inductive figure :=
  | Read_ops | Write_ops | Write_read
  | Nbmallocs | Nbretry | Nbrelink | Nbreprev | Nbblockeds
  | Sucess_search | Sucess_search_on | Sucess_insert | Sucess_insert_on | Sucess_delete | Sucess_delete_on
  | Avg_max_read | Avg_avg_read | Avg_min_read | Avg_max_write | Avg_avg_write | Avg_min_write
  | Max_read | Min_read | Max_write | Min_write.

(** [a] are the arrays after the last test. *)
Definition main_figure (a : arrays) (r : runs) (f : figure) : option spec_float :=
  let it s := window 0 ITERATION (r s) in
  let rd s := window nbupdaters nbreaders (a s) in
  let wr s := window 0 nbupdaters (a s) in
  match f with
  | Read_ops => get_avg <$> it Trd_ops
  | Write_ops => get_avg <$> it Twr_ops
  | Write_read => rops ← get_avg <$> it Trd_ops; wops ← get_avg <$> it Twr_ops; Some (fdiv wops rops)
  | Nbmallocs => get_avg <$> it Run_mallocs
  | Nbretry => get_avg <$> it Run_retry
  | Nbrelink => get_avg <$> it Run_relink
  | Nbreprev => get_avg <$> it Run_reprev
  | Nbblockeds => get_avg <$> it Run_blockeds
  | Sucess_search => get_avg <$> it Run_sea
  | Sucess_search_on => get_avg <$> rd Thd_ops
  | Sucess_insert => get_avg <$> it Run_ins
  | Sucess_delete => get_avg <$> it Run_del
  | Sucess_insert_on | Sucess_delete_on => o ← get_avg <$> wr Thd_ops; Some (fdiv o (of_int 2))
  | Avg_max_read => get_max <$> it Run_avg_rd
  | Avg_avg_read => get_avg <$> it Run_avg_rd
  | Avg_min_read => get_min <$> it Run_avg_rd
  | Avg_max_write => get_max <$> it Run_avg_wr
  | Avg_avg_write => get_avg <$> it Run_avg_wr
  | Avg_min_write => get_min <$> it Run_avg_wr
  | Max_read => get_max <$> it Run_max_rd
  | Min_read => get_min <$> it Run_min_rd
  | Max_write => get_max <$> it Run_max_wr
  | Min_write => get_min <$> it Run_min_wr
  end.

(** A test whose threads ended in the order [order] with the results [rep]. *)
Definition put_all (order : list Z) (rep : Z -> tstat -> spec_float) (a : arrays) : option arrays :=
  foldl (fun a t => a ← a; put t (rep t) a) (Some a) order.

(** [for (; i < ITERATION; i++) test(i);] *)
Fixpoint tests (n : nat) (order : Z -> list Z) (rep : Z -> Z -> tstat -> spec_float) (i : Z) (a : arrays) (r : runs) :
    option (arrays * runs) :=
  match n with
  | O => Some (a, r)
  | S n =>
      a ← put_all (order i) (rep i) a;
      r ← test_stats a i r;
      tests n order rep (i + 1) a r
  end.

(** From the zeroed arrays. *)
Definition main_tests (order : Z -> list Z) (rep : Z -> Z -> tstat -> spec_float) : option (arrays * runs) :=
  tests (Z.to_nat ITERATION) order rep 0 (fun _ => replicate (Z.to_nat MAX_THREAD) fzero)
    (fun s => replicate (Z.to_nat (run_size s)) fzero).

End test.

(** ** Proofs *)

Lemma window_spec first samples data : 0 <= first -> 0 <= samples -> first + samples <= Z.of_nat (length data) ->
  exists d, window first samples data = Some d /\
    forall x, x ∈ d <-> exists t, first <= t < first + samples /\ data !! Z.to_nat t = Some x.
Proof.
  intros H0 H1 H2. unfold window. rewrite (proj2 (Z.leb_le 0 first)), (proj2 (Z.leb_le 0 samples)), (proj2 (Z.leb_le _ _)) by lia.
  eexists. split; [done|]. intros x. rewrite list_elem_of_lookup. split.
  - intros [n Hn]. apply lookup_take_Some in Hn as [Hn Hlt]. rewrite lookup_drop in Hn.
    exists (first + Z.of_nat n). split; [lia|]. by replace (Z.to_nat (first + Z.of_nat n)) with (Z.to_nat first + n)%nat by lia.
  - intros (t & Ht & Hx). exists (Z.to_nat (t - first)). apply lookup_take_Some. split; [|lia].
    rewrite lookup_drop. by replace (Z.to_nat first + Z.to_nat (t - first))%nat with (Z.to_nat t) by lia.
Qed.

Definition sized (a : arrays) : Prop := forall s, Z.of_nat (length (a s)) = MAX_THREAD.
Definition runs_sized (r : runs) : Prop := forall s, Z.of_nat (length (r s)) = run_size s.

Lemma run_size_bound s : ITERATION <= run_size s.
Proof. destruct s; unfold run_size, ITERATION, MAX_THREAD; lia. Qed.

(** The threads' results, in whatever order they end. *)
Definition holds (a : arrays) (n : Z) (rep : Z -> tstat -> spec_float) : Prop :=
  forall t s, 0 <= t < n -> a s !! Z.to_nat t = Some (rep t s).

Lemma put_in t rep a : 0 <= t < MAX_THREAD -> put t rep a = Some (fun s => <[Z.to_nat t := rep s]> (a s)).
Proof. intros Ht. unfold put. by rewrite (proj2 (andb_true_iff _ _)) by (rewrite Z.leb_le, Z.ltb_lt; lia). Qed.

Lemma put_out t rep a : ~ 0 <= t < MAX_THREAD -> put t rep a = None.
Proof.
  intros Ht. unfold put. destruct (Z.leb_spec 0 t), (Z.ltb_spec t MAX_THREAD); cbn [andb]; try done. lia.
Qed.

Lemma put_all_none order rep : foldl (fun a t => a ← a; put t (rep t) a) None order = None.
Proof. by induction order. Qed.

Lemma put_all_spec rep order : forall a, sized a -> NoDup order -> Forall (fun t => 0 <= t < MAX_THREAD) order ->
  exists a', put_all order rep a = Some a' /\ sized a' /\
    (forall t s, t ∈ order -> a' s !! Z.to_nat t = Some (rep t s)) /\
    (forall t s, 0 <= t -> t ∉ order -> a' s !! Z.to_nat t = a s !! Z.to_nat t).
Proof.
  unfold put_all. induction order as [|t order IH]; intros a Ha Hn Hr; [exists a; split_and!; [done..|set_solver|done]|].
  apply NoDup_cons in Hn as [Ht Hn]. apply Forall_cons in Hr as [Hr0 Hr]. cbn [foldl mbind option_bind].
  rewrite put_in by done. destruct (IH (fun s => <[Z.to_nat t := rep t s]> (a s))) as (a' & He & Hs & Hin & Hout); [|done..|].
  { intros s. by rewrite length_insert. }
  exists a'. split; [exact He|]. split; [done|]. split.
  - intros t' s [->|Hi]%elem_of_cons; [|by apply Hin]. rewrite Hout by (lia || done).
    rewrite list_lookup_insert_eq; [done|]. specialize (Ha s). lia.
  - intros t' s H0 [Hne Hi]%not_elem_of_cons. rewrite Hout by done. rewrite list_lookup_insert_ne; [done|lia].
Qed.

(** A thread beyond the arrays. *)
Lemma put_all_overflow rep order : forall a t, t ∈ order -> ~ 0 <= t < MAX_THREAD -> put_all order rep a = None.
Proof.
  unfold put_all. induction order as [|t0 order IH]; intros a t Ht Hr; [set_solver|]. cbn [foldl mbind option_bind].
  destruct (decide (0 <= t0 < MAX_THREAD)) as [H0|H0]; [|rewrite put_out by done; apply put_all_none].
  rewrite put_in by done. apply elem_of_cons in Ht as [->|Ht]; [done|]. by eapply IH.
Qed.

Lemma assign_in s it v r : 0 <= it < Z.of_nat (length (r s)) ->
  assign s it v r = Some (fun s' => if decide (s' = s) then <[Z.to_nat it := v]> (r s) else r s').
Proof. intros Hi. unfold assign, set_cell. by rewrite (proj2 (andb_true_iff _ _)) by (rewrite Z.leb_le, Z.ltb_lt; lia). Qed.

Section stats.
Context (nbcores nbupdaters nbreaders : Z) (Hu : 0 <= nbupdaters) (Hr : 0 <= nbreaders).
Context (Hmax : nbupdaters + nbreaders <= MAX_THREAD).

Lemma rd_window a s : sized a -> exists d, window nbupdaters nbreaders (a s) = Some d /\
  forall x, x ∈ d <-> exists t, nbupdaters <= t < nbupdaters + nbreaders /\ a s !! Z.to_nat t = Some x.
Proof. intros Ha. apply window_spec; [lia|lia|]. by rewrite Ha. Qed.

Lemma wr_window a s : sized a -> exists d, window 0 nbupdaters (a s) = Some d /\
  forall x, x ∈ d <-> exists t, 0 <= t < 0 + nbupdaters /\ a s !! Z.to_nat t = Some x.
Proof. intros Ha. apply window_spec; [lia|lia|]. rewrite Ha. lia. Qed.

Lemma run_value_some a s : sized a -> is_Some (run_value nbcores nbupdaters nbreaders a s).
Proof.
  intros Ha. assert (Hrd : forall s, is_Some (window nbupdaters nbreaders (a s))).
  { intros s'. destruct (rd_window a s' Ha) as (d & -> & _). done. }
  assert (Hwr : forall s, is_Some (window 0 nbupdaters (a s))).
  { intros s'. destruct (wr_window a s' Ha) as (d & -> & _). done. }
  destruct s; cbn [run_value]; rewrite ?fmap_is_Some; try apply Hrd; try apply Hwr.
  - destruct (Hrd Thd_time) as [d ->]. done.
  - destruct (Hrd Thd_time) as [d ->], (Hrd Thd_ops) as [d' ->]. done.
  - destruct (Hrd Thd_time) as [d ->], (Hwr Thd_ops) as [d' ->]. done.
Qed.

Lemma run_order_all s : s ∈ run_order.
Proof. destruct s; unfold run_order; set_solver. Qed.

Lemma run_order_nodup : NoDup run_order.
Proof. apply (bool_decide_unpack _). reflexivity. Qed.

Lemma test_stats_spec a it r : sized a -> runs_sized r -> 0 <= it < ITERATION ->
  exists r', test_stats nbcores nbupdaters nbreaders a it r = Some r' /\ runs_sized r' /\
    forall s, exists v, run_value nbcores nbupdaters nbreaders a s = Some v /\ r' s = <[Z.to_nat it := v]> (r s).
Proof.
  intros Ha Hs Hi. unfold test_stats.
  assert (H : forall ss r, runs_sized r -> NoDup ss -> exists r',
    foldl (fun r s => r ← r; v ← run_value nbcores nbupdaters nbreaders a s; assign s it v r) (Some r) ss = Some r' /\ runs_sized r' /\
    (forall s, s ∈ ss -> exists v, run_value nbcores nbupdaters nbreaders a s = Some v /\ r' s = <[Z.to_nat it := v]> (r s)) /\
    (forall s, s ∉ ss -> r' s = r s)).
  { clear r Hs. induction ss as [|s ss IH]; intros r Hs Hn; [exists r; split_and!; [done..|set_solver|done]|].
    apply NoDup_cons in Hn as [Hns Hn]. cbn [foldl mbind option_bind].
    destruct (run_value_some a s Ha) as [v Hv]. rewrite Hv. cbn [mbind option_bind].
    pose proof (run_size_bound s). rewrite assign_in by (rewrite (Hs s); lia).
    edestruct IH as (r' & He & Hs' & Hin & Hout); [|done|exists r'; split; [exact He|]].
    { intros s'. cbv beta. destruct (decide (s' = s)) as [->|]; [rewrite length_insert|]; apply Hs. }
    split; [done|]. split.
    - intros s' [->|Hin']%elem_of_cons.
      + exists v. split; [done|]. rewrite Hout by done. cbv beta. by rewrite decide_True.
      + destruct (Hin s' Hin') as (v' & Hv' & Hr'). exists v'. split; [done|]. rewrite Hr'. cbv beta.
        rewrite decide_False; [done|]. by intros ->.
    - intros s' [Hne Hns']%not_elem_of_cons. rewrite Hout by done. cbv beta. by rewrite decide_False. }
  destruct (H run_order r Hs run_order_nodup) as (r' & He & Hs' & Hin & _). exists r'.
  split; [done|]. split; [done|]. intros s. apply Hin, run_order_all.
Qed.

Lemma tests_spec order rep n : forall i a r, sized a -> runs_sized r -> 0 <= i -> i + Z.of_nat n = ITERATION ->
  (forall j, order j ≡ₚ seqZ 0 (nbupdaters + nbreaders)) ->
  exists a' r', tests nbcores nbupdaters nbreaders n order rep i a r = Some (a', r') /\ sized a' /\ runs_sized r' /\
    (forall s j, 0 <= j < i -> r' s !! Z.to_nat j = r s !! Z.to_nat j) /\
    (forall j, i <= j < ITERATION -> exists aj, sized aj /\ holds aj (nbupdaters + nbreaders) (rep j) /\
       forall s, exists v, run_value nbcores nbupdaters nbreaders aj s = Some v /\ r' s !! Z.to_nat j = Some v).
Proof.
  induction n as [|n IH]; intros i a r Ha Hs H0 Hi Ho; cbn [tests].
  { exists a, r. split_and!; [done..|]. intros j Hj. lia. }
  destruct (put_all_spec (rep i) (order i) a Ha) as (a1 & -> & Ha1 & Hin & _).
  { rewrite Ho. apply NoDup_seqZ. }
  { rewrite Ho. apply Forall_forall. intros t Ht%elem_of_seqZ. lia. }
  cbn [mbind option_bind].
  destruct (test_stats_spec a1 i r Ha1 Hs) as (r1 & -> & Hs1 & Hv1); [lia|]. cbn [mbind option_bind].
  destruct (IH (i + 1) a1 r1 Ha1 Hs1) as (a' & r' & He & Ha' & Hs' & Hold & Hnew); [lia|lia|done|].
  exists a', r'. split; [done|]. split; [done|]. split; [done|]. split.
  - intros s j Hj. rewrite Hold by lia. destruct (Hv1 s) as (v & _ & ->). rewrite list_lookup_insert_ne; [done|lia].
  - intros j Hj. destruct (decide (j = i)) as [->|Hne]; [|apply Hnew; lia]. exists a1. split; [done|]. split.
    { intros t s Ht. apply Hin. rewrite Ho. apply elem_of_seqZ. lia. }
    intros s. destruct (Hv1 s) as (v & Hv & Hr1). exists v. split; [done|]. rewrite Hold by lia. rewrite Hr1.
    apply list_lookup_insert_eq. specialize (Hs s). pose proof (run_size_bound s). lia.
Qed.

End stats.

(** ** What is printed *)

Section main.
Context (nbcores nbupdaters nbreaders : Z) (Hu : 0 <= nbupdaters) (Hr : 0 <= nbreaders).
Context (order : Z -> list Z) (rep : Z -> Z -> tstat -> spec_float).
Context (Ho : forall j, order j ≡ₚ seqZ 0 (nbupdaters + nbreaders)).

Lemma main_tests_spec : nbupdaters + nbreaders <= MAX_THREAD ->
  exists a r, main_tests nbcores nbupdaters nbreaders order rep = Some (a, r) /\ sized a /\ runs_sized r /\
    forall j, 0 <= j < ITERATION -> exists aj, sized aj /\ holds aj (nbupdaters + nbreaders) (rep j) /\
      forall s, exists v, run_value nbcores nbupdaters nbreaders aj s = Some v /\ r s !! Z.to_nat j = Some v.
Proof.
  intros Hmax. edestruct (tests_spec nbcores nbupdaters nbreaders Hu Hr Hmax order rep (Z.to_nat ITERATION) 0)
    as (a & r & He & Ha & Hs & _ & Hj); [| | | |exact Ho|exists a, r; split_and!; [exact He|done..]].
  - intros s. by rewrite length_replicate.
  - intros s. rewrite length_replicate. by destruct s.
  - done.
  - done.
Qed.

Lemma main_figure_some a r f : nbupdaters + nbreaders <= MAX_THREAD -> sized a -> runs_sized r ->
  is_Some (main_figure nbupdaters nbreaders a r f).
Proof.
  intros Hmax Ha Hs. assert (Hrd : forall s, is_Some (window nbupdaters nbreaders (a s))).
  { intros s. destruct (rd_window nbupdaters nbreaders Hu Hr Hmax a s Ha) as (d & -> & _). done. }
  assert (Hwr : forall s, is_Some (window 0 nbupdaters (a s))).
  { intros s. destruct (wr_window nbupdaters nbreaders Hu Hr Hmax a s Ha) as (d & -> & _). done. }
  assert (Hit : forall s, is_Some (window 0 ITERATION (r s))).
  { intros s. pose proof (run_size_bound s). destruct (window_spec 0 ITERATION (r s)) as (d & -> & _); [done|done|rewrite Hs; lia|done]. }
  destruct f; cbn [main_figure]; rewrite ?fmap_is_Some; try apply Hrd; try apply Hwr; try apply Hit.
  - destruct (Hit Trd_ops) as [d ->], (Hit Twr_ops) as [d' ->]. done.
  - destruct (Hwr Thd_ops) as [d ->]. done.
  - destruct (Hwr Thd_ops) as [d ->]. done.
Qed.

End main.

(** [best] is the extremum of [le] on numbers. *)
Definition best_of (best : list spec_float -> spec_float) (le : spec_float -> spec_float -> Prop) : Prop :=
  forall data, Forall (fun d => is_nan d = false) data ->
    is_nan (best data) = false /\ Forall (fun d => le d (best data)) data.

Lemma get_max_best : best_of get_max fle.
Proof. intros data Hd. destruct (max_ge data fzero eq_refl Hd) as (? & _ & ?). done. Qed.

Lemma get_min_best : best_of get_min (fun x y => fle y x).
Proof. intros data Hd. destruct (min_le data DBL_MAX eq_refl Hd) as (? & _ & ?). done. Qed.

(** The best of the bests of five tests. *)
Lemma figure_bound best le (l : list spec_float) (data : Z -> list spec_float) :
  best_of best le -> (forall x y z, is_nan x = false -> is_nan y = false -> is_nan z = false -> le x y -> le y z -> le x z) ->
  ITERATION <= Z.of_nat (length l) ->
  (forall j, 0 <= j < ITERATION -> Forall (fun d => is_nan d = false) (data j) /\ l !! Z.to_nat j = Some (best (data j))) ->
  exists v, best <$> window 0 ITERATION l = Some v /\ forall j x, 0 <= j < ITERATION -> x ∈ data j -> le x v.
Proof.
  intros Hb Ht Hl Hd. destruct (window_spec 0 ITERATION l) as (d & -> & Hin); [done|done|lia|].
  exists (best d). split; [done|].
  destruct (Hb d) as [Hn Hall].
  { apply Forall_forall. intros x (t & Ht' & Hx)%Hin. destruct (Hd t) as [Hf Hv]; [lia|].
    assert (x = best (data t)) as -> by congruence. by apply Hb. }
  intros j x Hj Hx. destruct (Hd j Hj) as [Hf Hv]. destruct (Hb _ Hf) as [Hn' Hall'].
  rewrite Forall_forall in Hall, Hall', Hf. eapply (Ht _ (best (data j))); [by apply Hf|done|done|by apply Hall'|].
  apply Hall, Hin. exists j. split; [lia|done].
Qed.
