(* ===== verification/Hashtable.v ===== *)
(** * The hash table as one set of keys

    mrow.c spreads the keys over the buckets with [get_buckets]; list_writer.c
    works on one bucket.  Here the table as a whole refines one finite set:
    [shards] gives each bucket its part of the set, and the operations of an
    updater, reached through [get_buckets], act as the operations of the set. *)
From S2P Require Import Prelude Mem RG SWP Table TableFacts Allocator ListOps Util Mrow.

(** ** Bucket numbers *)

(** [nbbuckets] fits the [int] of [get_buckets]. *)
Definition nb_ok (nb : Z) : Prop := 1 <= nb <= 2 ^ 31.

Lemma bucket_of_range nb key : nb_ok nb -> 0 <= bucket_of nb key < nb.
Proof.
  intros Hnb. unfold bucket_of, nb_ok in *.
  pose proof (Z.mod_pos_bound (u64 key) nb ltac:(lia)). rewrite i32_small; lia.
Qed.

Lemma get_buckets_eq nb key : nb_ok nb ->
  get_buckets nb key = Ret (LHead (bucket_of nb key), LLock (bucket_of nb key)).
Proof. intros Hnb. unfold get_buckets, nb_ok in *. rewrite (proj2 (Z.eqb_neq nb 0)) by lia. done. Qed.

(** ** The set and its shards *)

Definition bucket_set (nb i : Z) (S : gset Z) : gset Z := filter (fun k => bucket_of nb k = i) S.

Definition shards (nb : Z) (S : gset Z) : gmap Z (gset Z) :=
  set_to_map (fun i => (i, bucket_set nb i S)) (list_to_set (seqZ 0 nb) : gset Z).

Lemma shards_lookup nb S i T :
  shards nb S !! i = Some T <-> 0 <= i < nb /\ T = bucket_set nb i S.
Proof.
  unfold shards. rewrite lookup_set_to_map by (intros; done). split.
  - intros (j & Hj & [= -> <-]). rewrite elem_of_list_to_set, elem_of_seqZ in Hj.
    split; [lia|done].
  - intros [Hi ->]. exists i. split; [|done]. rewrite elem_of_list_to_set, elem_of_seqZ. lia.
Qed.

(** The two updating operations. *)
Inductive uop := Ins | Del.

Definition spec_uop (u : uop) : Z -> gset Z -> Z * gset Z :=
  match u with Ins => spec_insert | Del => spec_delete end.

Lemma spec_uop_bucket u nb k S :
  (spec_uop u k (bucket_set nb (bucket_of nb k) S)).1 = (spec_uop u k S).1.
Proof.
  assert (k ∈ bucket_set nb (bucket_of nb k) S <-> k ∈ S).
  { unfold bucket_set. rewrite elem_of_filter. naive_solver. }
  destruct u; simpl; repeat case_decide; naive_solver.
Qed.

Lemma shards_update u nb k S : nb_ok nb ->
  <[bucket_of nb k := (spec_uop u k (bucket_set nb (bucket_of nb k) S)).2]> (shards nb S) =
  shards nb (spec_uop u k S).2.
Proof.
  intros Hnb. pose proof (bucket_of_range nb k Hnb) as Hr. apply map_eq. intros i.
  apply option_eq. intros T. rewrite shards_lookup.
  destruct (decide (i = bucket_of nb k)) as [->|Hne].
  - rewrite lookup_insert_eq. split.
    + intros [= <-]. split; [done|]. unfold bucket_set. destruct u; simpl; set_solver.
    + intros [_ ->]. f_equal. unfold bucket_set. destruct u; simpl; set_solver.
  - rewrite lookup_insert_ne by done. rewrite shards_lookup.
    assert (bucket_set nb i S = bucket_set nb i (spec_uop u k S).2) as <-; [|done].
    unfold bucket_set. destruct u; simpl; set_solver.
Qed.

(** ** The table holds a set *)

Definition hash_ok (own : option Z -> gset Z -> mem -> Prop) (nb : Z)
    (m : mem) (g : gst) (S : gset Z) : Prop :=
  table_ok own m g /\ abs_table m g = shards nb S.

(** The same in terms of the store alone: each bucket is a sorted list of
    exactly its keys. *)
Definition stores (nb : Z) (m : mem) (S : gset Z) : Prop :=
  forall i, 0 <= i < nb -> exists xs, path LNext m (LHead i) xs /\ incr (keys m xs) /\
    (forall k, k ∈ keys m xs <-> k ∈ S /\ bucket_of nb k = i).

(** It depends on the lists only. *)
Lemma stores_agree nb m m' S : (forall l, list_loc l = true -> m' !! l = m !! l) -> stores nb m' S <-> stores nb m S.
Proof.
  intros Hm. assert (Hkeys : forall xs, keys m' xs = keys m xs).
  { intros xs. apply nkey_ext. intros x _. unfold nkey. by rewrite Hm. }
  assert (Hp : forall i xs, path LNext m' (LHead i) xs <-> path LNext m (LHead i) xs).
  { intros i xs. split; apply path_agree; intros l [->|(x & _ & ->)]; by rewrite !mget_list_loc, Hm. }
  unfold stores. by setoid_rewrite Hkeys; setoid_rewrite Hp.
Qed.

Lemma hash_ok_bucket own nb m g S i : hash_ok own nb m g S -> 0 <= i < nb ->
  exists xs, bk g !! i = Some xs /\ kset m xs = bucket_set nb i S.
Proof.
  intros [_ Ha] Hi. assert (Hs : shards nb S !! i = Some (bucket_set nb i S)).
  { by apply shards_lookup. }
  rewrite <- Ha in Hs. unfold abs_table in Hs. rewrite lookup_fmap in Hs.
  destruct (bk g !! i) as [xs|]; [|done]. simpl in Hs. exists xs. split; [done|]. congruence.
Qed.

Lemma hash_ok_stores own nb m g S : hash_ok own nb m g S -> stores nb m S.
Proof.
  intros Hok i Hi. destruct (hash_ok_bucket _ _ _ _ _ _ Hok Hi) as (xs & Hxs & Hk).
  destruct Hok as [[HI _] _]. exists xs.
  split; [by eapply inv_path|]. split; [by eapply inv_incr|]. intros k.
  rewrite <- (elem_of_list_to_set (C:=gset Z)). fold (kset m xs). rewrite Hk.
  unfold bucket_set. rewrite elem_of_filter. naive_solver.
Qed.

Lemma hash_ok_length own nb m g S i xs : hash_ok own nb m g S ->
  0 <= i < nb -> bk g !! i = Some xs -> (length xs <= size S)%nat.
Proof.
  intros Hok Hi Hxs. destruct (hash_ok_bucket _ _ _ _ _ _ Hok Hi) as (ys & Hys & Hk). simplify_eq.
  destruct Hok as [[HI _] _]. pose proof (incr_NoDup _ (inv_incr _ _ HI _ _ Hxs)) as Hnd.
  assert (size (kset m xs) = length xs) as <-.
  { unfold kset. rewrite size_list_to_set by done. unfold keys. by rewrite length_fmap. }
  rewrite Hk. apply subseteq_size. unfold bucket_set. set_solver.
Qed.

(** An operation on its bucket is one on the table. *)
Lemma uop_refines own nb (Hnb : nb_ok nb) u key m g S r m' g' : hash_ok own nb m g S ->
  refines_op (spec_uop u) key (bucket_of nb key) own m g r m' g' ->
  r = (spec_uop u key S).1 /\ hash_ok own nb m' g' (spec_uop u key S).2.
Proof.
  intros [_ Ha] (T & HT & -> & Ha' & Ht').
  assert (T = bucket_set nb (bucket_of nb key) S) as -> by (rewrite Ha in HT; by apply shards_lookup in HT as [_ ->]).
  split; [apply spec_uop_bucket|]. split; [done|]. rewrite Ha', Ha. by apply shards_update.
Qed.

Section ops.
Context `{HO : ListOps} (self : Z) (SG : mem -> gst -> mem -> gst -> Prop).
Context (own : option Z -> gset Z -> mem -> Prop) {LS : ListOpsSpec self SG own}.
Context (E : err -> Prop) (nb : Z) (Hnb : nb_ok nb).

(** One operation of an updater, as [run], [hash_init] and [hash_delete] call
    it. *)
Definition do_uop (fuel : nat) (u : uop) (key : Z) : prog Z :=
  b ← get_buckets nb key;
  match u with
  | Ins => op_insert fuel self key b.1 b.2
  | Del => op_delete fuel self key b.1 b.2
  end.

Lemma do_uop_spec fuel u key m g S : hash_ok own nb m g S -> (size S < fuel)%nat ->
  swp (foreign self) E SG (do_uop fuel u key)
    (fun r m' g' => r = (spec_uop u key S).1 /\ hash_ok own nb m' g' (spec_uop u key S).2) m g.
Proof.
  intros Hok Hf. unfold do_uop. rewrite get_buckets_eq by done. cbn [mbind prog_bind fst snd].
  pose proof (bucket_of_range nb key Hnb) as Hr.
  destruct (hash_ok_bucket _ _ _ _ _ _ Hok Hr) as (xs & Hxs & Hk).
  pose proof (hash_ok_length _ _ _ _ _ _ _ Hok Hr Hxs) as Hlen. pose proof (proj1 Hok) as Ht.
  assert (Hop : swp (foreign self) E SG
    (match u with Ins => op_insert fuel self key (LHead (bucket_of nb key)) (LLock (bucket_of nb key))
     | Del => op_delete fuel self key (LHead (bucket_of nb key)) (LLock (bucket_of nb key)) end)
    (refines_op (spec_uop u) key (bucket_of nb key) own m g) m g).
  { destruct u; [eapply lo_insert|eapply lo_delete]; try done; clear -Hlen Hf; lia. }
  destruct u; (eapply swp_mono; [exact Hop|]); cbn beta; intros r m' g' Hrf; by apply (uop_refines own nb Hnb _ _ m g).
Qed.

End ops.

Lemma spec_uop_size u k S : (size (spec_uop u k S).2 <= size S + 1)%nat.
Proof.
  destruct u; simpl.
  - rewrite size_union_alt, size_singleton.
    pose proof (subseteq_size (S ∖ {[k]}) S ltac:(set_solver)). lia.
  - pose proof (subseteq_size (S ∖ {[k]}) S ltac:(set_solver)). lia.
Qed.
