(* ===== verification/Driver.v ===== *)
(** * The driver's loops over the table (mrow.c)

    [hash_init], [hash_delete] and the updater's side of the loop of [run],
    proved against the interface of the list operations: each computes on the
    table what a fold of the set operations computes on a finite set. *)
From S2P Require Import Prelude Mem RG SWP Table TableFacts Allocator ListOps Util Mrow Hashtable.

(** The keys [0 .. n-1]. *)
Definition key_range (n : Z) : gset Z := list_to_set (seqZ 0 n).

Lemma elem_of_key_range n k : k ∈ key_range n <-> 0 <= k < n.
Proof. unfold key_range. rewrite elem_of_list_to_set, elem_of_seqZ. lia. Qed.

Lemma size_key_range n : size (key_range n) = Z.to_nat n.
Proof.
  unfold key_range. rewrite size_list_to_set by apply NoDup_seqZ. apply length_seqZ.
Qed.

(** ** What the updater's loop computes

    The state of the abstract loop: the seed, the number of successful
    insertions and deletions, and the set. *)
Record tally := Tally { t_seed : Z; t_ins : Z; t_del : Z; t_set : gset Z }.

Definition spec_iter (nbkeys i : Z) (t : tally) : tally :=
  let seed := lcg (t_seed t) in
  let key := lcg_out seed mod nbkeys in
  if i mod 2 =? 1
  then Tally seed (t_ins t + (spec_insert key (t_set t)).1) (t_del t) (spec_insert key (t_set t)).2
  else Tally seed (t_ins t) (t_del t + (spec_delete key (t_set t)).1) (spec_delete key (t_set t)).2.

Fixpoint spec_iters (nbkeys : Z) (n : nat) (i : Z) (t : tally) : tally :=
  match n with
  | O => t
  | S n => spec_iters nbkeys n (u64 (i + 1)) (spec_iter nbkeys i t)
  end.

(** The counters [d] and the set [S], as a state of the abstract loop. *)
Definition tally_of (d : tlsvar -> Z) (S : gset Z) : tally :=
  Tally (d Vthd_seed) (d Vthd_ins) (d Vthd_del) S.

Lemma spec_iter_set nbkeys i t : 0 < nbkeys ->
  t_set t ⊆ key_range nbkeys -> t_set (spec_iter nbkeys i t) ⊆ key_range nbkeys.
Proof.
  intros Hn Hs. assert (Hk : lcg_out (lcg (t_seed t)) mod nbkeys ∈ key_range nbkeys).
  { apply elem_of_key_range, Z.mod_pos_bound. lia. }
  unfold spec_iter. destruct (i mod 2 =? 1); simpl; set_solver.
Qed.

(** ** Drawing a key *)

(** [rand() % nbkeys] never exceeds [32767]. *)
Lemma key_of_random nbkeys seed : 0 < nbkeys ->
  i32 (u64 (lcg_out seed) mod nbkeys) = lcg_out seed mod nbkeys.
Proof.
  intros Hn. pose proof (lcg_out_range seed). rewrite u64_small by (unfold word64; lia).
  pose proof (Z.mod_pos_bound (lcg_out seed) nbkeys Hn).
  pose proof (Z.mod_le (lcg_out seed) nbkeys ltac:(lia) Hn). rewrite i32_small; lia.
Qed.

Section driver.
Context `{HB : Build} (self : Z) (SG : mem -> gst -> mem -> gst -> Prop).
Context (own : (tlsvar -> Z) -> option Z -> gset Z -> mem -> Prop).
Context {DS : DriverSpec self SG own}.
Context (E : err -> Prop) (nb nbkeys : Z) (Hnb : nb_ok nb).

Lemma hash_ok_store x v d m g S : x ∈ driver_vars ->
  hash_ok (own d) nb m g S -> hash_ok (own (set_var x v d)) nb (<[LTls self x := v]> m) g S.
Proof.
  intros Hx [(HI & Hp & U & Ho & HU) Ha]. assert (Hg : grows off_list m (<[LTls self x := v]> m)).
  { by apply grows_store. }
  split; [|by rewrite (abs_table_grows m)]. split; [by eapply Inv_grows|]. split; [done|].
  exists U. split; [by apply ds_own|done].
Qed.

Lemma hash_ok_read x d m g S : x ∈ driver_vars -> hash_ok (own d) nb m g S ->
  mget m (LTls self x) = Some (d x).
Proof. intros Hx [(_ & _ & U & Ho & _) _]. by apply (ds_read _ _ _ _ Ho). Qed.

Lemma driver_silent m g : SG m g m g.
Proof. pose proof (ds_ops (fun _ => 0)) as Hs. apply lo_silent. Qed.

(** Assigning a counter. *)
Lemma store_var_spec {A} x v d m g S (k : unit -> prog A) Q :
  x ∈ driver_vars -> hash_ok (own d) nb m g S ->
  (forall m', hash_ok (own (set_var x v d)) nb m' g S -> swp (foreign self) E SG (k tt) Q m' g) ->
  swp (foreign self) E SG (store (LTls self x) v ≫= k) Q m g.
Proof.
  intros Hx Hok Hk. eapply swp_store; [by eapply hash_ok_read|apply foreign_self|apply ds_store; set_solver|].
  apply Hk. by apply hash_ok_store.
Qed.

Lemma load_var_spec {A} x d m g S (k : Z -> prog A) Q :
  x ∈ driver_vars -> hash_ok (own d) nb m g S ->
  swp (foreign self) E SG (k (d x)) Q m g ->
  swp (foreign self) E SG (load (LTls self x) ≫= k) Q m g.
Proof.
  intros Hx Hok Hk. eapply swp_load; [by eapply hash_ok_read|apply foreign_self|apply driver_silent|done].
Qed.

(** ** [add_tls], [myrand], [random_key] *)

Lemma add_tls_spec x r d m g S : x ∈ driver_vars -> hash_ok (own d) nb m g S ->
  swp (foreign self) E SG (add_tls self x r)
    (fun _ m' g' => hash_ok (own (set_var x (d x + r) d)) nb m' g' S) m g.
Proof.
  intros Hx Hok. unfold add_tls. eapply load_var_spec; [done..|]. apply swp_bind_ret.
  eapply store_var_spec; [done..|]. intros m' Hok'. by apply swp_ret.
Qed.

Lemma random_key_spec d m g S : 0 < nbkeys -> hash_ok (own d) nb m g S ->
  swp (foreign self) E SG (random_key nbkeys self)
    (fun key m' g' => key = lcg_out (lcg (d Vthd_seed)) mod nbkeys /\
       hash_ok (own (set_var Vthd_seed (lcg (d Vthd_seed)) d)) nb m' g' S) m g.
Proof.
  intros Hn Hok. unfold random_key, myrand. apply swp_bind.
  eapply load_var_spec; [set_solver|done|].
  eapply store_var_spec; [set_solver|done|]. intros m' Hok'.
  eapply load_var_spec; [set_solver|done|].
  apply swp_ret. rewrite (proj2 (Z.eqb_neq nbkeys 0)) by lia. apply swp_ret.
  unfold set_var at 1. rewrite decide_True by done. by rewrite key_of_random.
Qed.

(** ** The start of [run] *)

Lemma hash_ok_reset x v d m g S : x ∈ reset_vars ->
  hash_ok (own d) nb m g S -> hash_ok (own d) nb (<[LTls self x := v]> m) g S.
Proof.
  intros Hx [(HI & Hp & U & Ho & HU) Ha]. assert (Hg : grows off_list m (<[LTls self x := v]> m)).
  { by apply grows_store. }
  split; [|by rewrite (abs_table_grows m)]. split; [by eapply Inv_grows|]. split; [done|].
  exists U. split; [by apply ds_reset|done].
Qed.

Lemma reset_var_spec {A} x v d m g S (k : unit -> prog A) Q :
  x ∈ reset_vars -> hash_ok (own d) nb m g S ->
  (forall m', hash_ok (own d) nb m' g S -> swp (foreign self) E SG (k tt) Q m' g) ->
  swp (foreign self) E SG (store (LTls self x) v ≫= k) Q m g.
Proof.
  intros Hx Hok Hk. destruct (mget_static m (LTls self x) eq_refl) as [w Hw].
  eapply swp_store; [exact Hw|apply foreign_self|apply ds_store; set_solver|].
  apply Hk. by apply hash_ok_reset.
Qed.

(** The counters start at zero and the seed is the thread's. *)
Lemma run_init_spec fuel nbupdaters now d m g S : hash_ok (own d) nb m g S ->
  swp (foreign self) E SG (run_init nbupdaters now false fuel self)
    (fun _ m' g' => exists d', hash_ok (own d') nb m' g' S /\
       tally_of d' S = Tally (u32 (Z.lxor self now)) 0 0 S) m g.
Proof.
  intros Hok. unfold run_init.
  eapply store_var_spec; [set_solver|done|]. intros m1 H1.
  eapply store_var_spec; [set_solver|done|]. intros m2 H2.
  do 8 (eapply reset_var_spec; [set_solver|eassumption|]; intros ? ?).
  destruct (nbupdaters <=? self); apply swp_bind, swp_ret; unfold mysrand; apply swp_bind_ret;
    (eapply store_var_spec; [set_solver|eassumption|]); intros m11 H11; apply swp_ret;
    eexists; (split; [exact H11|done]).
Qed.

(** ** Filling and emptying the table *)

Lemma populate_spec n fuel : forall i d m g S,
  0 <= i -> i + Z.of_nat n < 2 ^ 31 -> (size S + n < fuel)%nat -> hash_ok (own d) nb m g S ->
  swp (foreign self) E SG (populate nb n fuel self i)
    (fun _ m' g' => hash_ok (own d) nb m' g' (S ∪ (key_range (i + Z.of_nat n) ∖ key_range i))) m g.
Proof.
  induction n as [|n IH]; intros i d m g S Hi Hlt Hf Hok; cbn [populate].
  - apply swp_ret. replace (S ∪ _) with S; [done|]. rewrite Z.add_0_r. set_solver.
  - pose proof (do_uop_spec self SG (own d) E nb Hnb fuel Ins i m g S Hok ltac:(lia)) as Hop.
    unfold do_uop in Hop. rewrite get_buckets_eq in Hop |- * by done. cbn [mbind prog_bind] in Hop |- *.
    apply swp_bind. eapply swp_mono; [exact Hop|]. cbn beta. intros r m1 g1 [_ Hok1].
    unfold int_succ. rewrite (proj2 (Z.ltb_lt i _)) by lia. cbn [mbind prog_bind].
    eapply swp_mono; [apply IH; [lia|lia| |exact Hok1]|].
    + pose proof (spec_uop_size Ins i S). lia.
    + cbn beta. intros _ m2 g2 Hok2. replace (S ∪ _) with
        ((spec_uop Ins i S).2 ∪ (key_range (i + 1 + Z.of_nat n) ∖ key_range (i + 1))); [done|].
      apply set_eq. intros k. simpl. rewrite !elem_of_union, !elem_of_difference, !elem_of_key_range, elem_of_singleton.
      assert (Hr : k = i \/ (0 <= k < i + 1 + Z.of_nat n /\ ~ 0 <= k < i + 1) <->
        0 <= k < i + Z.of_nat (Datatypes.S n) /\ ~ 0 <= k < i) by lia. tauto.
Qed.

Lemma unpopulate_spec n fuel : forall i d m g S,
  0 <= i -> i + Z.of_nat n < 2 ^ 31 -> (size S + n < fuel)%nat -> hash_ok (own d) nb m g S ->
  swp (foreign self) E SG (unpopulate nb n fuel self i)
    (fun _ m' g' => hash_ok (own d) nb m' g' (S ∖ (key_range (i + Z.of_nat n) ∖ key_range i))) m g.
Proof.
  induction n as [|n IH]; intros i d m g S Hi Hlt Hf Hok; cbn [unpopulate].
  - apply swp_ret. replace (S ∖ _) with S; [done|]. rewrite Z.add_0_r. set_solver.
  - pose proof (do_uop_spec self SG (own d) E nb Hnb fuel Del i m g S Hok ltac:(lia)) as Hop.
    unfold do_uop in Hop. rewrite get_buckets_eq in Hop |- * by done. cbn [mbind prog_bind] in Hop |- *.
    apply swp_bind. eapply swp_mono; [exact Hop|]. cbn beta. intros r m1 g1 [_ Hok1].
    unfold int_succ. rewrite (proj2 (Z.ltb_lt i _)) by lia. cbn [mbind prog_bind].
    eapply swp_mono; [apply IH; [lia|lia| |exact Hok1]|].
    + pose proof (spec_uop_size Del i S). lia.
    + cbn beta. intros _ m2 g2 Hok2. replace (S ∖ _) with
        ((spec_uop Del i S).2 ∖ (key_range (i + 1 + Z.of_nat n) ∖ key_range (i + 1))); [done|].
      apply set_eq. intros k. simpl. rewrite !elem_of_difference, !elem_of_key_range, elem_of_singleton.
      assert (Hr : k = i \/ (0 <= k < i + 1 + Z.of_nat n /\ ~ 0 <= k < i + 1) <->
        0 <= k < i + Z.of_nat (Datatypes.S n) /\ ~ 0 <= k < i) by lia. tauto.
Qed.

(** ** The updater's loop *)

(** One iteration up to the test of [done]. *)
Lemma run_iter_spec {A} fuel i d m g S (k : prog A) Q :
  0 < nbkeys -> hash_ok (own d) nb m g S -> (size S < fuel)%nat ->
  (forall d' m' g', tally_of d' (t_set (spec_iter nbkeys i (tally_of d S))) = spec_iter nbkeys i (tally_of d S) ->
     hash_ok (own d') nb m' g' (t_set (spec_iter nbkeys i (tally_of d S))) ->
     swp (foreign self) E SG k Q m' g') ->
  swp (foreign self) E SG
    (key ← random_key nbkeys self;
     b ← get_buckets nb key;
     (if i mod 2 =? 1 then
        r ← op_insert fuel self key b.1 b.2; add_tls self Vthd_ins r
      else
        r ← op_delete fuel self key b.1 b.2; add_tls self Vthd_del r);;
     k) Q m g.
Proof.
  intros Hn Hok Hf Hk. apply swp_bind. eapply swp_mono; [by apply random_key_spec|].
  cbn beta. intros key m1 g1 [-> Hok1]. set (key := lcg_out _ mod _) in *.
  set (d1 := set_var _ _ _) in *.
  rewrite get_buckets_eq by done. cbn [mbind prog_bind fst snd].
  unfold spec_iter in Hk. cbn [t_seed tally_of] in Hk. fold key in Hk.
  destruct (i mod 2 =? 1); cbn [t_set t_ins t_del] in Hk.
  - pose proof (do_uop_spec self SG (own d1) E nb Hnb fuel Ins key m1 g1 S Hok1 Hf) as Hop.
    unfold do_uop in Hop. rewrite get_buckets_eq in Hop by done.
    apply swp_bind, swp_bind. eapply swp_mono; [exact Hop|]. cbn beta.
    intros r m2 g2 [-> Hok2]. eapply swp_mono; [apply add_tls_spec; [set_solver|exact Hok2]|].
    cbn beta. intros _ m3 g3 Hok3. eapply Hk; [|exact Hok3]. done.
  - pose proof (do_uop_spec self SG (own d1) E nb Hnb fuel Del key m1 g1 S Hok1 Hf) as Hop.
    unfold do_uop in Hop. rewrite get_buckets_eq in Hop by done.
    apply swp_bind, swp_bind. eapply swp_mono; [exact Hop|]. cbn beta.
    intros r m2 g2 [-> Hok2]. eapply swp_mono; [apply add_tls_spec; [set_solver|exact Hok2]|].
    cbn beta. intros _ m3 g3 Hok3. eapply Hk; [|exact Hok3]. done.
Qed.

(** The loop returns after some number of iterations of the abstract loop. *)
Definition loop_post (i : Z) (d : tlsvar -> Z) (S : gset Z) (_ : Z) (m' : mem) (g' : gst) : Prop :=
  exists n d', (0 < n)%nat /\
    tally_of d' (t_set (spec_iters nbkeys n i (tally_of d S))) = spec_iters nbkeys n i (tally_of d S) /\
    hash_ok (own d') nb m' g' (t_set (spec_iters nbkeys n i (tally_of d S))).

Lemma run_loop_spec (HE : E OutOfFuel) fuel loops : forall i d m g S,
  0 < nbkeys -> (Z.to_nat nbkeys < fuel)%nat -> S ⊆ key_range nbkeys ->
  hash_ok (own d) nb m g S ->
  swp (foreign self) E SG (run_loop nb nbkeys loops fuel self false i) (loop_post i d S) m g.
Proof.
  induction loops as [|loops IH]; intros i d m g S Hn Hf HS Hok; [exact HE|].
  cbn [run_loop]. cbv zeta. apply run_iter_spec with (d := d) (S := S); [done..| |].
  { apply subseteq_size in HS. rewrite size_key_range in HS. lia. }
  intros d' m' g' Hd' Hok'.
  pose proof (spec_iter_set nbkeys i (tally_of d S) Hn HS) as HS'.
  assert (Hexit : forall r, loop_post i d S r m' g').
  { intros r. exists 1%nat, d'. split; [lia|]. done. }
  apply swp_load_vol; [done|done|apply driver_silent|]. intros v.
  destruct (negb (v =? 0)); [by apply swp_ret|].
  destruct (u64 (i + 1) =? 0); [by apply swp_ret|].
  eapply swp_mono; [by apply IH|]. cbn beta. intros r m2 g2 (n & d2 & Hpos & Ht & Hok2).
  rewrite Hd' in Ht, Hok2. exists (Datatypes.S n), d2. split; [lia|]. done.
Qed.

End driver.

(** ** Initialisation

    The store a run starts from: node pointers are well formed, the allocator's
    lists too, and no node is in use. *)

Definition heap_ok (own : option Z -> gset Z -> mem -> Prop) (m : mem) : Prop :=
  (forall n q, m !! LNext n = Some q -> node_or_null m q) /\ own None ∅ m.

(** The ghost state of a table of [nb] empty buckets. *)
Definition empty_table (nb : Z) : gst :=
  Gst (set_to_map (fun i => (i, [])) (list_to_set (seqZ 0 nb) : gset Z)) None ∅.

Lemma empty_table_lookup nb i xs :
  bk (empty_table nb) !! i = Some xs <-> 0 <= i < nb /\ xs = [].
Proof.
  unfold empty_table. simpl. rewrite lookup_set_to_map by (intros; done). split.
  - intros (j & Hj & [= -> <-]). rewrite elem_of_list_to_set, elem_of_seqZ in Hj. split; [lia|done].
  - intros [Hi ->]. exists i. split; [|done]. rewrite elem_of_list_to_set, elem_of_seqZ. lia.
Qed.

Lemma abs_empty_table nb m : abs_table m (empty_table nb) = shards nb ∅.
Proof.
  apply map_eq. intros i. apply option_eq. intros T. unfold abs_table.
  rewrite lookup_fmap, fmap_Some, shards_lookup. split.
  - intros (xs & Hxs & ->). apply empty_table_lookup in Hxs as [? ->]. split; [done|].
    unfold bucket_set. set_solver.
  - intros [Hi ->]. exists []. rewrite empty_table_lookup. split; [done|].
    unfold bucket_set. set_solver.
Qed.

(** The table that [hash_init] allocates, once its locks are initialised. *)
Lemma empty_table_ok own nb m : heap_ok own m ->
  (forall i, 0 <= i < nb -> m !! LHead i = Some NULL /\ is_Some (m !! LLock i)) ->
  hash_ok own nb m (empty_table nb) ∅.
Proof.
  intros [Hn Ho] Hm.
  assert (Hb : forall i xs, bk (empty_table nb) !! i = Some xs -> xs = [] /\
    m !! LHead i = Some NULL /\ is_Some (m !! LLock i)).
  { intros i xs [Hi ->]%empty_table_lookup. split; [done|]. by apply Hm. }
  split; [|apply abs_empty_table]. split; [split|].
  - intros i xs [-> [Hh _]]%Hb. by apply mget_lookup.
  - intros i xs [_ [Hh Hl]]%Hb. eauto.
  - intros i xs [-> _]%Hb. constructor.
  - intros i xs x [-> _]%Hb. set_solver.
  - intros i j xs ys x [-> _]%Hb. set_solver.
  - done.
  - done.
  - intros n Hno. set_solver.
  - split; [done|]. exists ∅. split; [done|]. intros n. split; [set_solver|].
    intros [(i & [(xs & [-> _]%Hb & Hx)|[=]])|?]; set_solver.
Qed.

Lemma calloc_array_ne f n m l : (forall i, l <> f i) -> calloc_array f n m !! l = m !! l.
Proof.
  intros Hl. unfold calloc_array. induction (seq 0 (Z.to_nat n)) as [|i js IH]; [done|]. cbn.
  rewrite lookup_insert_ne; [done|]. apply not_eq_sym, Hl.
Qed.

Lemma calloc_array_eq f n m i : 0 <= i < n -> calloc_array f n m !! f i = Some 0.
Proof.
  intros Hi. unfold calloc_array. assert (Hin : Z.to_nat i ∈ seq 0 (Z.to_nat n)).
  { apply elem_of_seq. lia. }
  induction (seq 0 (Z.to_nat n)) as [|j js IH]; [set_solver|]. cbn.
  destruct (decide (f (Z.of_nat j) = f i)) as [->|Hne]; [apply lookup_insert_eq|].
  rewrite lookup_insert_ne by done. apply IH. apply elem_of_cons in Hin as [<-|?]; [|done].
  rewrite Z2Nat.id in Hne by lia. done.
Qed.

#[export] Instance LLock_inj : Inj (=) (=) LLock.
Proof. intros ? ? [=]; done. Qed.

Lemma calloc_array_out f `{!Inj (=) (=) f} n m i : ~ 0 <= i < n -> calloc_array f n m !! f i = m !! f i.
Proof.
  intros Hi. unfold calloc_array. assert (Hin : forall j, j ∈ seq 0 (Z.to_nat n) -> Z.of_nat j <> i).
  { intros j Hj%elem_of_seq. lia. }
  induction (seq 0 (Z.to_nat n)) as [|j js IH]; [done|]. cbn.
  rewrite lookup_insert_ne; [apply IH; set_solver|]. intros Heq%(inj f). set_solver.
Qed.

(** What the initialisation of a build relies on: [lock_init] leaves a free
    lock, and the scheme's state does not depend on the table's arrays except
    for its locks being free. *)
Class InitSpec `{Build} (own : (tlsvar -> Z) -> option Z -> gset Z -> mem -> Prop) := {
  lock_free : Z -> Prop;
  lock_init_run `{Calloc} i m : is_Some (m !! LLock i) ->
    exists v, lock_free v /\ run (lock_init (LLock i)) m = Ok tt (<[LLock i := v]> m);
  own_arrays d U m m' : own d None U m ->
    (forall l, off_arrays l = true -> m' !! l = m !! l) ->
    (forall j v, m' !! LLock j = Some v -> m !! LLock j = Some v \/ v = 0 \/ lock_free v) ->
    own d None U m' }.

Section init.
Context `{HB : Build} (self : Z) (SG : mem -> gst -> mem -> gst -> Prop).
Context (own : (tlsvar -> Z) -> option Z -> gset Z -> mem -> Prop).
Context {DS : DriverSpec self SG own} {IS : InitSpec own}.
Context `{HC : Calloc} {HT : CallocTotal}.
Context (nb nbkeys : Z) (Hnb : nb_ok nb) (Hnb' : nb < 2 ^ 31) (Hkeys : 0 <= nbkeys < 2 ^ 31).

Lemma lock_init_loop_run n : forall i m, 0 <= i -> i + Z.of_nat n < 2 ^ 31 ->
  (forall j, i <= j < i + Z.of_nat n -> is_Some (m !! LLock j)) ->
  exists m', run (lock_init_loop n i) m = Ok tt m' /\
    (forall l, (forall j, l <> LLock j) -> m' !! l = m !! l) /\
    (forall j, m' !! LLock j = m !! LLock j \/ exists v, m' !! LLock j = Some v /\ lock_free v).
Proof.
  induction n as [|n IH]; intros i m Hi Hlt Hm; cbn [lock_init_loop].
  { exists m. split_and!; [done|done|by left]. }
  destruct (lock_init_run i m) as (v & Hv & Hr); [apply Hm; lia|].
  rewrite run_bind, Hr. unfold int_succ. rewrite (proj2 (Z.ltb_lt i _)) by lia.
  cbn [mbind prog_bind].
  destruct (IH (i + 1) (<[LLock i := v]> m)) as (m' & Hr' & Ho & Hl); [lia|lia| |].
  { intros j Hj. apply lookup_insert_is_Some. destruct (decide (i = j)); [left; congruence|right].
    split; [congruence|]. apply Hm. lia. }
  exists m'. split_and!; [done| |].
  - intros l Hne. rewrite Ho by done. rewrite lookup_insert_ne; [done|]. apply not_eq_sym, Hne.
  - intros j. destruct (Hl j) as [Hj|Hj]; [|by right]. rewrite Hj.
    destruct (decide (i = j)) as [<-|Hne]; [right; rewrite lookup_insert_eq; eauto|left].
    rewrite lookup_insert_ne; [done|]. congruence.
Qed.

Lemma hash_init_spec fuel d m : (Z.to_nat nbkeys < fuel)%nat -> heap_ok (own d) m ->
  exists m' g', run (hash_init nb nbkeys true false fuel self) m = Ok tt m' /\
    hash_ok (own d) nb m' g' (key_range nbkeys) /\
    (Eager SG -> old g' = ∅) /\
    (forall l, foreign self l = true -> m' !! l = m !! l).
Proof.
  intros Hf [Hn Ho]. unfold hash_init. cbn [run op_exec mbind prog_bind do_op].
  set (m1 := calloc_array LLock nb (calloc_array LHead nb m)).
  assert (Hheads : forall i, 0 <= i < nb -> m1 !! LHead i = Some NULL).
  { intros i Hi. unfold m1. rewrite calloc_array_ne by done. by apply calloc_array_eq. }
  assert (Hlocks : forall i, 0 <= i < nb -> m1 !! LLock i = Some 0).
  { intros i Hi. by apply calloc_array_eq. }
  assert (Hoff : forall l, off_arrays l = true -> m1 !! l = m !! l).
  { intros l Hl. unfold m1. rewrite !calloc_array_ne; [done|..]; by intros i ->. }
  destruct (lock_init_loop_run (Z.to_nat nb) 0 m1) as (m2 & Hr2 & Hoff2 & Hl2); [lia|lia| |].
  { intros j Hj. rewrite Hlocks by lia. done. }
  rewrite run_bind, Hr2.
  assert (Hok : hash_ok (own d) nb m2 (empty_table nb) ∅).
  { apply empty_table_ok; [split|].
    - intros n q. rewrite Hoff2, Hoff by done. intros [->|Hq]%Hn; [by left|right].
      destruct Hq as [Hq Hf']. split; [done|]. rewrite Forall_forall in Hf' |- *. intros f Hin.
      assert (Ho1 : off_arrays (f q) = true).
      { unfold node_fields in Hin. set_unfold in Hin. by destruct_or! Hin; subst f. }
      rewrite Hoff2, Hoff; [auto|done|]. intros j Hj. by rewrite Hj in Ho1.
    - apply (own_arrays d ∅ m m2 Ho).
      + intros l Hl. rewrite Hoff2 by (by intros j ->). by apply Hoff.
      + intros j v Hj. destruct (Hl2 j) as [Hj2|(w & Hj2 & Hw)]; [|right; right; congruence].
        destruct (decide (0 <= j < nb)) as [Hjn|Hjn].
        * right. left. rewrite Hj2, Hlocks in Hj by lia. congruence.
        * left. rewrite Hj2 in Hj. unfold m1 in Hj. rewrite (calloc_array_out LLock nb _ j Hjn) in Hj.
          rewrite calloc_array_ne in Hj by done. done.
    - intros i Hi. rewrite Hoff2, Hheads by done. split; [done|].
      destruct (Hl2 i) as [->|(v & -> & _)]; [rewrite Hlocks by done|]; eauto. }
  pose proof (populate_spec self SG own (fun _ => False) nb Hnb (Z.to_nat nbkeys) fuel 0 d m2
    (empty_table nb) ∅ ltac:(lia) ltac:(lia) ltac:(rewrite size_empty; lia) Hok) as Hp.
  apply swp_run in Hp; [|by apply foreign_node_field]. destruct (run (populate _ _ _ _ _) m2) as [u m3|e m3] eqn:Hr3; [|done].
  destruct Hp as (Hv3 & g3 & Hok3 & Hst). exists m3, g3. rewrite run_bind, Hr3. destruct u. split; [done|].
  split; [|split; [intros HE; apply (eager_rtc SG) in Hst; cbn in Hst; set_solver|intros l Hl; rewrite Hv3 by done; rewrite Hoff2 by (by intros j ->); apply Hoff; by destruct l]].
  replace (key_range nbkeys) with (∅ ∪ (key_range (0 + Z.of_nat (Z.to_nat nbkeys)) ∖ key_range 0)); [done|].
  apply set_eq. intros k. rewrite elem_of_union, elem_of_difference, !elem_of_key_range.
  split; [intros [?%elem_of_empty|?]; [done|lia]|intros; right; lia].
Qed.

Lemma hash_ok_empty d m g : hash_ok (own d) nb m g ∅ -> old g = ∅ -> heap_ok (own d) m.
Proof.
  intros [(HI & Hp & U & Ho & HU) Ha] Hold. split; [apply (inv_ptr _ _ HI)|].
  replace (∅ : gset Z) with U; [done|]. apply set_eq. intros n. rewrite HU. unfold kept. rewrite Hold.
  split; [|set_solver]. intros [(i & [(xs & Hi & Hn)|Hpd])|?]; [|congruence|done]. exfalso.
  pose proof (abs_lookup m g i xs Hi) as Hs. rewrite Ha in Hs. apply shards_lookup in Hs as [_ Hs].
  assert (Hk : nkey m n ∈ kset m xs) by (apply elem_of_kset; eauto).
  rewrite Hs in Hk. unfold bucket_set in Hk. set_solver.
Qed.

Lemma free_array_keep is_cell m l : is_cell l = false -> free_array is_cell m !! l = m !! l.
Proof.
  intros Hl. unfold free_array. rewrite map_lookup_filter. destruct (m !! l); [|done]. simpl.
  by rewrite option_guard_True.
Qed.

Lemma free_array_gone is_cell m l : is_cell l = true -> free_array is_cell m !! l = None.
Proof.
  intros Hl. unfold free_array. rewrite map_lookup_filter. destruct (m !! l); [|done]. simpl.
  rewrite option_guard_False by (simpl; congruence). done.
Qed.

(** [hash_delete] empties the table, gives every node back to the allocator
    and frees the two arrays. *)
Lemma hash_delete_spec fuel d m g S : (size S + Z.to_nat nbkeys < fuel)%nat ->
  hash_ok (own d) nb m g S -> S ⊆ key_range nbkeys -> Eager SG -> old g = ∅ ->
  exists m', run (hash_delete nb nbkeys false fuel self) m = Ok tt m' /\ heap_ok (own d) m' /\
    (forall i, m' !! LHead i = None) /\ (forall i, m' !! LLock i = None).
Proof.
  intros Hf Hok HS HE Hold. unfold hash_delete. rewrite run_bind.
  pose proof (unpopulate_spec self SG own (fun _ => False) nb Hnb (Z.to_nat nbkeys) fuel 0 d m
    g S ltac:(lia) ltac:(lia) Hf Hok) as Hp.
  apply swp_run in Hp; [|by apply foreign_node_field]. destruct (run (unpopulate _ _ _ _ _) m) as [u m1|e m1]; [|done].
  destruct Hp as (_ & g1 & Hok1 & Hst). apply (eager_rtc SG) in Hst.
  replace (S ∖ _) with (∅ : gset Z) in Hok1.
  2:{ apply set_eq. intros k. rewrite !elem_of_difference, !elem_of_key_range.
      split; [set_solver|]. intros [Hk Hn]. apply HS, elem_of_key_range in Hk. lia. }
  apply hash_ok_empty in Hok1 as [Hn Ho]; [|cbn in Hst; set_solver]. cbn [run op_exec mbind prog_bind do_op].
  eexists. split; [done|]. set (m2 := free_array _ (free_array _ m1)).
  assert (Hoff : forall l, off_arrays l = true -> m2 !! l = m1 !! l).
  { intros l Hl. unfold m2. by rewrite !free_array_keep by (by destruct l). }
  assert (Hlock : forall i, m2 !! LLock i = None) by (intros i; by apply free_array_gone).
  split_and!; [|intros i; unfold m2; rewrite free_array_keep by done; by apply free_array_gone|done].
  split.
  - intros n q. rewrite Hoff by done. intros [->|[Hq Hf']]%Hn; [by left|right]. split; [done|].
    rewrite Forall_forall in Hf' |- *. intros f Hin. rewrite Hoff; [auto|].
    unfold node_fields in Hin. set_unfold in Hin. by destruct_or! Hin; subst f.
  - apply (own_arrays d ∅ m1 m2 Ho Hoff). intros j v. by rewrite Hlock.
Qed.

End init.
