(* ===== verification/Pool.v ===== *)
(** * Updater and readers together

    One updater running the loop of [run], any number of readers searching the
    same table and the main thread, all of them interleaved operation by
    operation; for any build whose operations keep the promises of [OwnSpec]
    and [SearchSpec]. *)
From S2P Require Import Prelude Mem RG SWP Table TableFacts Frozen Allocator ListOps Stamp Util Mrow Hashtable Driver.

(** ** What a build promises

    [own self d h U m], the state of the updater [self]: it does not mention
    what other threads write, and it can start again in another thread. *)
Class OwnSpec `{HB : Build} `{HS : Stamp}
    (own : Z -> (tlsvar -> Z) -> option Z -> gset Z -> mem -> Prop) : Prop := {
  os_driver self :: DriverSpec self stamp_guar (own self);
  os_ext self d h U m m' :
    (forall l, foreign self l = false -> m' !! l = m !! l) ->
    own self d h U m -> own self d h U m';
  os_empty self d : (forall x, d x = 0) -> heap_ok (own self d) ∅;
  os_switch main self d d' U m m' :
    (forall x, m' !! LTls self x = None) -> mget m' (LGlob Gfreelist) = Some NULL ->
    (forall p, node m p -> node m' p) -> (forall i, m' !! LLock i = m !! LLock i) ->
    (forall x, d' x = 0) ->
    own main d None U m -> own self d' None U m' }.

(** A search among updaters: the errors [E] apart, it answers right. *)
Class SearchSpec `{HB : Build} `{HS : Stamp} (E : err -> Prop) : Prop :=
  search_spec `{HC : Calloc} self key i s : gwf s -> is_Some (bk (cg s) !! i) ->
    wp E grely (rguar self) (Mrow.search self key (LHead i) (LLock i))
      (fun b s' => nowrap (ctr s') -> lin s s' i key b) s.

(** Registering with the library of the scheme touches none of the data. *)
Class QuietThreads `{HB : Build} : Prop := {
  register_is_quiet : quiet thread_register;
  unregister_is_quiet : quiet thread_unregister }.

(** [m0] is the store as the threads find it: the main thread [main] of a
    fresh process ran [test] up to their creation. *)
Definition started `{Calloc} `{Build} (main nb nbkeys : Z) (fuel : nat) (m0 : mem) : Prop :=
  run (test_start nb nbkeys true false false fuel main) ∅ = Ok tt m0.

(** The bounds under which the driver's [int]s do not overflow, and enough
    fuel for the longest list. *)
Record sizes_ok (nb nbkeys : Z) (fuel : nat) : Prop := {
  so_nb : 1 <= nb < 2 ^ 31;
  so_keys : 1 <= nbkeys < 2 ^ 31;
  so_fuel : (Z.to_nat nbkeys < fuel)%nat }.

Section start.
Context `{HC : Calloc} {HT : CallocTotal}.
Context `{HB : Build} `{HS : Stamp} (own : Z -> (tlsvar -> Z) -> option Z -> gset Z -> mem -> Prop).
Context {OS : OwnSpec own} {IS : forall self, InitSpec (own self)}.
Context (main nb nbkeys : Z) (fuel : nat) (Hso : sizes_ok nb nbkeys fuel).
Context (Hmain : main < 0).

(** [test] up to the creation of the threads, a table without keys included. *)
Lemma test_start_ok self : 1 <= nb < 2 ^ 31 -> 0 <= nbkeys < 2 ^ 31 -> (Z.to_nat nbkeys < fuel)%nat -> 0 <= self ->
  exists m0 g0, started main nb nbkeys fuel m0 /\
    hash_ok (own self (fun _ => 0)) nb m0 g0 (key_range nbkeys) /\
    (forall t x, t <> main -> m0 !! LTls t x = None) /\
    mget m0 (LGlob Ggo) = Some 0 /\ mget m0 (LGlob Gready) = Some 0.
Proof.
  intros Hnb Hk Hf Hself.
  destruct (hash_init_spec main stamp_guar (own main) nb nbkeys ltac:(unfold nb_ok; lia) ltac:(lia) ltac:(lia)
    fuel (fun _ => 0) ∅ Hf (os_empty main (fun _ => 0) ltac:(done))) as (m1 & g1 & Hr & Hok & _ & Hfr).
  assert (Htls : forall t x, t <> main -> m1 !! LTls t x = None).
  { intros t x Ht. rewrite Hfr; [done|]. simpl. by apply negb_true_iff, Z.eqb_neq. }
  unfold started, test_start, init_allocator. rewrite run_bind, Hr.
  assert (Hst : forall m gv, exists w, mget m (LGlob gv) = Some w) by (intros; by apply mget_static).
  cbn [run mbind prog_bind store do_op prealloc memory_barrier fence].
  destruct (Hst m1 Gfreelist) as [w1 Hw1]. cbn [op_exec]. rewrite Hw1. cbn [mbind option_bind run].
  set (m2 := <[LGlob Gfreelist := _]> m1). destruct (Hst m2 Gfrct) as [w2 ->]. cbn [mbind option_bind run].
  set (m3 := <[LGlob Gfrct := _]> m2). cbn [op_exec]. destruct (Hst m3 Gdone) as [w3 ->]. cbn [mbind option_bind run].
  set (m4 := <[LGlob Gdone := _]> m3). cbn [op_exec]. destruct (Hst m4 Ggo) as [w4 ->]. cbn [mbind option_bind run].
  set (m5 := <[LGlob Ggo := _]> m4). cbn [op_exec]. destruct (Hst m5 Gready) as [w5 ->]. cbn [mbind option_bind run].
  set (m6 := <[LGlob Gready := _]> m5). cbn [op_exec]. exists m6, g1. split; [done|].
  assert (Hm6 : forall l, match l with LGlob _ => False | _ => True end -> m6 !! l = m1 !! l).
  { intros l Hl. unfold m6, m5, m4, m3, m2. rewrite !lookup_insert_ne; [done|..]; by intros <-. }
  split; [|split; [intros t x Ht; rewrite Hm6; auto|split; [unfold m6, m5; by mget_simpl|apply mget_insert]]].
  destruct Hok as [(HI & Hp & U & Ho & HU) Ha]. split.
  - split; [eapply Inv_tls; [|done]; intros l Hl; apply Hm6; by destruct l|]. split; [done|].
    exists U. split; [|done]. eapply (os_switch main self _ _ U m1); [| | | |done|exact Ho].
    + intros x. rewrite Hm6 by done. apply Htls. lia.
    + unfold m6, m5, m4, m3. mget_simpl. apply mget_insert.
    + intros p. apply node_ext. intros f Hin. apply Hm6.
      unfold node_fields in Hin. set_unfold in Hin. by destruct_or! Hin; subst f.
    + intros i. by apply Hm6.
  - rewrite <- Ha. apply abs_table_ext. intros i xs _. apply nkey_ext. intros x _. unfold nkey.
    by rewrite Hm6.
Qed.

Lemma started_ok self : 0 <= self ->
  exists m0 g0, started main nb nbkeys fuel m0 /\
    hash_ok (own self (fun _ => 0)) nb m0 g0 (key_range nbkeys) /\
    (forall t x, t <> main -> m0 !! LTls t x = None).
Proof.
  intros Hself. destruct Hso as [Hnb Hk Hf].
  destruct (test_start_ok self Hnb ltac:(lia) Hf Hself) as (m0 & g0 & ? & ? & ? & _). by exists m0, g0.
Qed.

End start.

(** ** The threads *)

(** A client of the table that searches several keys. *)
Fixpoint do_searches `{Build} (nb self : Z) (ks : list Z) : prog (list Z) :=
  match ks with
  | [] => Ret []
  | k :: ks =>
      b ← get_buckets nb k;
      r ← search self k b.1 b.2;
      rs ← do_searches nb self ks;
      Ret (r :: rs)
  end.

(** The answers [rs] to the searches of [ks] were right one after the other in
    the history [hist] (oldest store first): each search took effect in some
    store, and the following ones in that store or later. *)
Fixpoint explained (nb : Z) (hist : list mem) (ks rs : list Z) : Prop :=
  match ks, rs with
  | [], [] => True
  | k :: ks, r :: rs => exists t w xs, hist !! t = Some w /\
      path LNext w (LHead (bucket_of nb k)) xs /\ r = spec_search k (kset w xs) /\
      explained nb (drop t hist) ks rs
  | _, _ => False
  end.

Lemma explained_app_l nb h1 h2 ks rs : explained nb h2 ks rs -> explained nb (h1 ++ h2) ks rs.
Proof.
  destruct ks as [|k ks], rs as [|r rs]; simpl; [done..|].
  intros (t & w & xs & Ht & Hp & Hr & He). exists (length h1 + t)%nat, w, xs.
  split_and!; [|done|done|].
  - rewrite lookup_app_r by lia. by replace (length h1 + t - length h1)%nat with t by lia.
  - rewrite drop_app_ge by lia. by replace (length h1 + t - length h1)%nat with t by lia.
Qed.

Lemma explained_app_r nb h1 h2 : forall ks rs, explained nb h1 ks rs -> explained nb (h1 ++ h2) ks rs.
Proof.
  intros ks. revert h1. induction ks as [|k ks IH]; intros h1 [|r rs]; simpl; [done..|].
  intros (t & w & xs & Ht & Hp & Hr & He). exists t, w, xs.
  pose proof (lookup_lt_Some _ _ _ Ht). rewrite lookup_app_l by done. split_and!; [done..|].
  rewrite drop_app_le by lia. by apply IH.
Qed.

(** The stores between two configurations, oldest first. *)
Definition hist_from (s0 s : gcfg) (h : list mem) : Prop :=
  exists new, ctr s = new ++ ctr s0 /\ h = cm s0 :: reverse new.

Lemma hist_from_last s0 s h : gwf s0 -> gwf s -> hist_from s0 s h -> exists h1, h = h1 ++ [cm s].
Proof.
  intros [Ht0 _] [Ht _] (new & Hc & ->). unfold trace_ok in *. rewrite Hc in Ht.
  destruct new as [|w new]; simpl in *.
  - exists []. rewrite Ht0 in Ht. by injection Ht as ->.
  - exists (cm s0 :: reverse new). injection Ht as ->. by rewrite reverse_cons.
Qed.

Lemma hist_from_app s0 s1 s2 h1 h2 : gwf s1 -> hist_from s0 s1 (h1 ++ [cm s1]) -> hist_from s1 s2 h2 ->
  hist_from s0 s2 (h1 ++ h2).
Proof.
  intros W1 (n1 & Hc1 & Hh1) (n2 & Hc2 & ->). exists (n2 ++ n1). split; [by rewrite Hc2, Hc1, app_assoc|].
  rewrite reverse_app, app_comm_cons, <- Hh1, <- app_assoc. done.
Qed.

Lemma lin_explained s0 s1 nb k ks r rs h1 h2 :
  hist_from s0 s1 (h1 ++ [cm s1]) -> lin s0 s1 (bucket_of nb k) k r ->
  explained nb (cm s1 :: h2) ks rs -> explained nb (h1 ++ cm s1 :: h2) (k :: ks) (r :: rs).
Proof.
  intros (new & Hc & Hh) (w & xs & (new' & Hc' & Hw) & Hp & Hr) He.
  assert (new' = new) as ->.
  { rewrite Hc in Hc'. by apply app_inv_tail in Hc'. }
  assert (Hin : w ∈ h1 ++ [cm s1]).
  { rewrite Hh, elem_of_cons, elem_of_reverse. tauto. }
  apply list_elem_of_lookup_1 in Hin as [t Ht]. pose proof (lookup_lt_Some _ _ _ Ht) as Hlt.
  rewrite length_app in Hlt. simpl in Hlt. exists t, w, xs.
  split_and!; [|done|done|].
  - change (cm s1 :: h2) with ([cm s1] ++ h2). rewrite app_assoc. by apply lookup_app_l_Some.
  - rewrite drop_app_le by lia. by apply explained_app_l.
Qed.

(** The answers [rs] to the searches of [ks] are explained by the stores from
    [s0] to [s]. *)
Definition answers (nb : Z) (s0 : gcfg) (ks rs : list Z) (s : gcfg) : Prop :=
  exists h, hist_from s0 s h /\ explained nb h ks rs.

Lemma answers_nil nb s0 s : suffix (ctr s0) (ctr s) -> answers nb s0 [] [] s.
Proof. intros [new Hnew]. exists (cm s0 :: reverse new). split; [by exists new|done]. Qed.

Lemma answers_cons nb s0 s1 s2 s3 k r ks rs : gwf s0 -> gwf s1 -> suffix (ctr s0) (ctr s1) -> suffix (ctr s2) (ctr s3) ->
  lin s0 s1 (bucket_of nb k) k r -> answers nb s1 ks rs s2 -> answers nb s0 (k :: ks) (r :: rs) s3.
Proof.
  intros W0 W1 [n1 Hn1] [n3 Hn3] Hl (h2 & (n2 & Hc2 & ->) & He).
  assert (Hh1 : hist_from s0 s1 (cm s0 :: reverse n1)) by (by exists n1).
  destruct (hist_from_last _ _ _ W0 W1 Hh1) as [h1 Hh]. rewrite Hh in Hh1.
  exists (h1 ++ cm s1 :: reverse n2 ++ reverse n3). split.
  - rewrite <- reverse_app. apply (hist_from_app s0 s1); [done|done|]. exists (n3 ++ n2).
    split; [by rewrite Hn3, Hc2, app_assoc|done].
  - apply (lin_explained s0 s1); [done|done|]. by apply (explained_app_r nb (cm s1 :: reverse n2)).
Qed.

(** ** The readers *)

Section readers.
Context `{HC : Calloc} (E : err -> Prop) (HE : E OutOfFuel).
Context `{HB : Build} `{HS : Stamp} {SS : SearchSpec E}.

Definition bucket_dom (nb : Z) (s : gcfg) : Prop := forall i, 0 <= i < nb -> is_Some (bk (cg s) !! i).

Lemma bucket_dom_mono nb s s' : gwf s -> grely s s' -> bucket_dom nb s -> bucket_dom nb s'.
Proof. intros W [_ He] Hd i Hi. apply (ev_dom _ _ (He W)). auto. Qed.

(** Every sequence of searches is explained by the history it ran in. *)
Definition searches_post (s0 : gcfg) (nb : Z) (ks rs : list Z) (s : gcfg) : Prop :=
  nowrap (ctr s) -> answers nb s0 ks rs s.

Lemma do_searches_ok nb self ks : nb_ok nb -> forall s, gwf s -> bucket_dom nb s ->
  wp E grely (rguar self) (do_searches nb self ks) (searches_post s nb ks) s.
Proof.
  intros Hnb. induction ks as [|k ks IH]; intros s W Hd; cbn [do_searches].
  { apply wp_ret. intros s' [Hs' _] _. by apply answers_nil. }
  rewrite get_buckets_eq by done. cbn [mbind prog_bind fst snd].
  assert (Hi : is_Some (bk (cg s) !! bucket_of nb k)) by (by apply Hd, bucket_of_range).
  eapply r_bind; [done|by apply search_spec|]. cbn beta. intros r s1 R1 W1 Ha.
  eapply r_bind; [done|apply IH; [done|exact (bucket_dom_mono _ _ _ W R1 Hd)]|].
  cbn beta. intros rs s2 R2 W2 Hp. apply wp_ret. intros s3 R3 Hnw3.
  assert (Hnw2 : nowrap (ctr s2)) by (eapply nowrap_suffix; [apply R3|done]).
  assert (Hnw1 : nowrap (ctr s1)) by (eapply nowrap_suffix; [apply R2|done]).
  apply (answers_cons nb s s1 s2 s3); [done|done|apply R1|apply R3|by apply Ha|by apply Hp].
Qed.

(** A reader's loop: whatever keys it draws, it runs its [NB_TEST + 1]
    searches. *)
Lemma reader_loop_ok fuel nb nbkeys self : nb_ok nb -> 1 <= nbkeys ->
  forall loops i s, 0 <= i <= NB_TEST -> gwf s -> bucket_dom nb s ->
  wp E grely (rguar self) (run_loop nb nbkeys loops fuel self true i)
    (fun r _ => r = NB_TEST) s.
Proof.
  intros Hnb Hk. induction loops as [|loops IH]; intros i s Hi W Hd; [exact HE|].
  cbn [run_loop]. cbv zeta. unfold random_key, myrand.
  apply (r_bind self _ _ _ (fun _ _ => True)); [done| |].
  { apply (r_bind self _ _ _ (fun _ _ => True)); [done| |].
    { apply r_load; [done|]. intros s1 R1 W1.
      destruct (mget_static (cm s1) (LTls self Vthd_seed) eq_refl) as [x ->]. exists x. split; [done|].
      apply r_store_tls; [done|]. intros s2 R2 W2. apply r_load; [done|]. intros s3 R3 W3.
      destruct (mget_static (cm s3) (LTls self Vthd_seed) eq_refl) as [y ->]. exists y. split; [done|].
      by apply wp_ret. }
    intros x s1 R1 W1 _. rewrite (proj2 (Z.eqb_neq nbkeys 0)) by lia. by apply wp_ret. }
  intros key s1 R1 W1 _. rewrite get_buckets_eq by done. cbn [mbind prog_bind fst snd].
  pose proof (bucket_dom_mono _ _ _ W R1 Hd) as Hd1.
  apply (r_bind self _ _ _ (fun b s' => nowrap (ctr s') -> lin s1 s' (bucket_of nb key) key b)); [done| |].
  { apply search_spec; [done|]. by apply Hd1, bucket_of_range. }
  intros r s2 R2 W2 _. pose proof (bucket_dom_mono _ _ _ W1 R2 Hd1) as Hd2.
  apply (r_bind self _ _ _ (fun _ _ => True)); [done| |].
  { unfold add_tls. apply r_load; [done|]. intros s3 R3 W3.
    destruct (mget_static (cm s3) (LTls self Vthd_sea) eq_refl) as [x ->]. exists x. split; [done|].
    by eapply r_store_tls. }
  intros _ s3 R3 W3 _. pose proof (bucket_dom_mono _ _ _ W2 R3 Hd2) as Hd3.
  unfold NB_TEST in *. destruct (Z.leb_spec 2000000 i) as [Hle|Hlt].
  - apply wp_ret. intros. lia.
  - rewrite u64_small by (unfold word64; lia). rewrite (proj2 (Z.eqb_neq (i + 1) 0)) by lia.
    apply IH; [lia|done..].
Qed.

End readers.

(** ** The start of the threads *)

(** The flags of [test] and [run]. *)
Definition flag_loc (l : loc) : bool :=
  match l with LGlob (Ggo | Gdone | Gready) => true | _ => false end.

Definition bguar (s s' : gcfg) : Prop :=
  ctr s' = cm s' :: ctr s /\ cg s' = cg s /\
  (cm s' = cm s \/ exists l v, flag_loc l = true /\ cm s' = <[l := v]> (cm s)).

Lemma bguar_rguar self s s' : bguar s s' -> rguar self s s'.
Proof.
  intros (Ht & Hg & Hm). split_and!; [done..|].
  destruct Hm as [?|(l & v & Hl & ?)]; [by left|right]. exists l, v. split; [|done].
  by destruct l as [| | | | | | |[]| | | |].
Qed.

Lemma bguar_wrely w s s' : bguar s s' -> wrely (foreign w) s s'.
Proof.
  intros (Ht & Hg & Hm). split; [done|]. split; [rewrite Ht; by exists [cm s']|].
  intros l Hl. destruct Hm as [->|(l' & v & Hl' & ->)]; [done|]. rewrite lookup_insert_ne; [done|].
  intros ->. by destruct l as [| | | | | | |[]| | | |].
Qed.

Section barrier.
Context `{HC : Calloc} (E : err -> Prop) (HE : E OutOfFuel).
Context (R : gcfg -> gcfg -> Prop) {HR : PreOrder R} (HbR : forall s s', bguar s s' -> R s s').

Lemma b_load {A} l (k : Z -> prog A) Q s : is_static l = true ->
  (forall v s', R s s' -> wp E R bguar (k v) Q s') -> wp E R bguar (load l ≫= k) Q s.
Proof.
  intros Hl Hk s1 R1. cbn. destruct (mget_static (cm s1) l Hl) as [v ->]. cbn.
  assert (Hg : bguar s1 (next_cfg s1 (cm s1) (cg s1))) by (split_and!; [done|done|by left]).
  exists (cg s1). split; [done|]. apply Hk. etrans; [done|by apply HbR].
Qed.

Lemma b_fence {A} b (k : unit -> prog A) Q s :
  (forall s', R s s' -> wp E R bguar (k tt) Q s') -> wp E R bguar (fence b ≫= k) Q s.
Proof.
  intros Hk s1 R1. cbn.
  assert (Hg : bguar s1 (next_cfg s1 (cm s1) (cg s1))) by (split_and!; [done|done|by left]).
  exists (cg s1). split; [done|]. apply Hk. etrans; [done|by apply HbR].
Qed.

Lemma b_store {A} l v (k : unit -> prog A) Q s : flag_loc l = true ->
  (forall s', R s s' -> wp E R bguar (k tt) Q s') -> wp E R bguar (store l v ≫= k) Q s.
Proof.
  intros Hl Hk s1 R1. cbn.
  destruct (mget_static (cm s1) l) as [w ->]; [by destruct l|]. cbn.
  assert (Hg : bguar s1 (next_cfg s1 (<[l := v]> (cm s1)) (cg s1))).
  { split_and!; [done|done|right; eauto]. }
  exists (cg s1). split; [done|]. apply Hk. etrans; [done|by apply HbR].
Qed.

Lemma b_xadd {A} l d (k : Z -> prog A) Q s : flag_loc l = true ->
  (forall v s', R s s' -> wp E R bguar (k v) Q s') -> wp E R bguar (atomic_xadd4 l d ≫= k) Q s.
Proof.
  intros Hl Hk s1 R1. cbn.
  destruct (mget_static (cm s1) l) as [w ->]; [by destruct l|]. cbn.
  assert (Hg : bguar s1 (next_cfg s1 (<[l := u64 (w + d)]> (cm s1)) (cg s1))).
  { split_and!; [done|done|right; eauto]. }
  exists (cg s1). split; [done|]. apply Hk. etrans; [done|by apply HbR].
Qed.

Lemma wait_go_ok fuel : forall s, wp E R bguar (wait_go fuel) (fun _ _ => True) s.
Proof.
  induction fuel as [|fuel IH]; intros s; [exact HE|]. cbn [wait_go].
  apply b_load; [done|]. intros v s1 _. destruct (v =? 0); [|by apply wp_ret].
  apply b_fence. intros s2 _. apply IH.
Qed.

Lemma run_barrier_ok fuel s : wp E R bguar (run_barrier fuel) (fun _ _ => True) s.
Proof. apply b_xadd; [done|]. intros v s1 _. apply wait_go_ok. Qed.

Lemma wait_ready_ok fuel n : forall s, wp E R bguar (wait_ready fuel n) (fun _ _ => True) s.
Proof.
  induction fuel as [|fuel IH]; intros s; [exact HE|]. cbn [wait_ready].
  apply b_load; [done|]. intros v s1 _. destruct (v =? n); [by apply wp_ret|].
  apply b_fence. intros s2 _. apply IH.
Qed.

(** The main thread only writes the flags; [pthread_join] is the system's and
    touches none of the program's data. *)
Lemma test_rest_ok join nbthreads nbupdaters fuel s :
  (forall i s, wp E R bguar (join i) (fun _ _ => True) s) ->
  wp E R bguar (test_rest join nbthreads nbupdaters fuel) (fun _ _ => True) s.
Proof.
  intros Hj. unfold test_rest. eapply wp_bind; [apply _|]. eapply wp_post; [apply wait_ready_ok|].
  intros _ s1 _. apply b_store; [done|]. intros s2 _. apply b_fence. intros s3 _.
  generalize (Z.to_nat nbthreads) as n. intros n. revert s3.
  induction n as [|n IH]; intros s3; cbn [join_loop]; [by apply wp_ret|]. cbv zeta.
  eapply wp_bind; [apply _|]. eapply wp_post; [apply Hj|]. intros _ s4 _.
  eapply wp_bind; [apply _|]. destruct (Z.of_nat n =? nbupdaters).
  - apply b_store; [done|]. intros s5 _. apply (b_fence MFence (fun _ => Ret tt)).
    intros s6 _. apply wp_ret. intros s7 _. apply IH.
  - apply wp_ret. intros s5 _. apply IH.
Qed.

End barrier.

Lemma quiet_ok `{HC : Calloc} E (R : gcfg -> gcfg -> Prop) {A} (p : prog A) :
  quiet p -> forall s, wp E R bguar p (fun _ _ => True) s.
Proof.
  induction p as [a|e|o k IH]; intros Hq s; [done|done|].
  assert (Ho : forall m, op_exec o m = Some (0, m)) by (by destruct o). assert (Hq' : forall r, quiet (k r)) by (by destruct o).
  intros s1 R1. rewrite Ho. cbn. exists (cg s1). split; [split_and!; [done|done|by left]|]. by apply IH.
Qed.

(** ** The pool: one updater, thread 0, and any number of other threads *)

Section pool.
Context `{HS : Stamp}.

Definition uguar (s s' : gcfg) : Prop := wguar (foreign 0) stamp_guar s s' \/ bguar s s'.

Definition updater_ts {A : Set} (E : err -> Prop) (Q : A -> gcfg -> Prop) : thread_spec gst A :=
  ThreadSpec _ E (wrely (foreign 0)) uguar Q.
Definition reader_ts {A : Set} (E : err -> Prop) (r : Z * (A -> gcfg -> Prop)) : thread_spec gst A :=
  ThreadSpec _ E grely (rguar r.1) r.2.

Definition pool_ts {A : Set} (E0 E : err -> Prop) (Q0 : A -> gcfg -> Prop)
    (rs : list (Z * (A -> gcfg -> Prop))) : list (thread_spec gst A) :=
  updater_ts E0 Q0 :: (reader_ts E <$> rs).

Lemma uguar_grely s s' : uguar s s' -> grely s s'.
Proof. intros [H|H]; [by eapply wguar_grely|]. by apply (rguar_grely 0), bguar_rguar. Qed.

Lemma pool_ts_lookup {A : Set} E0 E (Q0 : A -> gcfg -> Prop) rs t ts :
  pool_ts E0 E Q0 rs !! t = Some ts ->
  t = 0%nat /\ ts = updater_ts E0 Q0 \/
  exists t' r, t = S t' /\ rs !! t' = Some r /\ ts = reader_ts E r.
Proof.
  destruct t as [|t]; simpl; [intros [= <-]; by left|]. rewrite list_lookup_fmap, fmap_Some.
  intros (r & Hr & ->). right. eauto.
Qed.

Lemma stamp_pool `{HC : Calloc} {A : Set} E0 E (Q0 : A -> gcfg -> Prop) rs ps ps' s tr m' :
  (forall r, r ∈ rs -> r.1 <> 0) -> ~ E0 Segfault -> ~ E Segfault ->
  Forall2 (fun t p => ts_wp t p s) (pool_ts E0 E Q0 rs) ps ->
  psteps (ps, cm s) tr (ps', m') ->
  exists g', grely s (Cfg m' (tr ++ ctr s) g') /\
    Forall2 (fun t p => ts_wp t p (Cfg m' (tr ++ ctr s) g')) (pool_ts E0 E Q0 rs) ps'.
Proof.
  intros Hrs HE0 HE Hps Hst.
  assert (Hg : forall t, t ∈ pool_ts E0 E Q0 rs -> forall s s', ts_guar t s s' -> grely s s').
  { intros t [k Hk]%list_elem_of_lookup_1 s1 s2 Hs.
    apply pool_ts_lookup in Hk as [[_ ->]|(k' & r & _ & _ & ->)]; [by apply uguar_grely|].
    exact (rguar_grely _ _ _ Hs). }
  eapply wp_pool; [apply _|exact Hg| | | |exact Hps|exact Hst].
  - intros i j ti tj Hi Hj Hne s1 s2 Hs.
    pose proof (Hg ti (list_elem_of_lookup_2 _ _ _ Hi) _ _ Hs) as Hgr.
    apply pool_ts_lookup in Hj as [[-> ->]|(j' & r & -> & _ & ->)]; [|exact Hgr].
    apply pool_ts_lookup in Hi as [[-> _]|(i' & r & _ & Hr & ->)]; [done|].
    apply (rguar_wrely r.1); [|exact Hs]. apply Hrs. by eapply list_elem_of_lookup_2.
  - intros t [k Hk]%list_elem_of_lookup_1.
    apply pool_ts_lookup in Hk as [[_ ->]|(k' & r & _ & _ & ->)]; apply _.
  - intros t [k Hk]%list_elem_of_lookup_1.
    by apply pool_ts_lookup in Hk as [[_ ->]|(k' & r & _ & _ & ->)].
Qed.

End pool.

(** ** The updater *)

Section updater.
Context `{HC : Calloc} {HT : CallocTotal} (E : err -> Prop) (HE : E OutOfFuel).
Context `{HB : Build} `{HS : Stamp} (own : Z -> (tlsvar -> Z) -> option Z -> gset Z -> mem -> Prop).
Context {OS : OwnSpec own} (fuel loops : nat) (nb nbkeys now : Z).
Context (Hso : sizes_ok nb nbkeys fuel).

Lemma private_hash_ok self d m g S :
  hash_ok (own self d) nb m g S <-> hash_ok (own self d) nb (private_part (foreign self) m) g S.
Proof.
  assert (Hgo : forall m1 m2, (forall l, foreign self l = false -> m2 !! l = m1 !! l) ->
    hash_ok (own self d) nb m1 g S -> hash_ok (own self d) nb m2 g S).
  { intros m1 m2 Hm [(HI & Hp & U & Ho & HU) Ha].
    assert (Hm' : forall l, heap_loc l -> m2 !! l = m1 !! l).
    { intros l Hl. apply Hm. by destruct l. }
    split.
    - split; [by eapply Inv_tls|]. split; [done|]. exists U. split; [|done].
      eapply os_ext; [|exact Ho]. auto.
    - rewrite <- Ha. apply abs_table_ext. intros i xs _. apply nkey_ext. intros x _. unfold nkey.
      by rewrite Hm'. }
  split; apply Hgo; intros l Hl; [|symmetry]; by apply private_lookup.
Qed.

(** What the updater has done when it returns: [n] iterations of the loop, on
    the keys its seed determines, starting from the full table. *)
Definition updater_post (m : mem) : Prop :=
  exists n, (0 < n)%nat /\
    let T := spec_iters nbkeys n 0 (Tally (u32 (Z.lxor 0 now)) 0 0 (key_range nbkeys)) in
    stores nb m (t_set T) /\ mget m (LTls 0 Vthd_ins) = Some (t_ins T) /\
    mget m (LTls 0 Vthd_del) = Some (t_del T).

(** What touches none of the updater's data leaves its state as it is. *)
Lemma updater_aside {A} (p : prog A) d S s :
  (forall s, wp E (wrely (foreign 0)) bguar p (fun _ _ => True) s) ->
  hash_ok (own 0 d) nb (private_part (foreign 0) (cm s)) (cg s) S ->
  wp E (wrely (foreign 0)) uguar p
    (fun _ s' => hash_ok (own 0 d) nb (private_part (foreign 0) (cm s')) (cg s') S) s.
Proof.
  intros Hp Hok. eapply wp_guar; [|intros ? ? H; right; exact H]. eapply wp_post.
  { apply (wp_track E (wrely (foreign 0)) bguar); [apply _|apply bguar_wrely|apply Hp]. }
  cbn beta. intros _ s2 [(Hg2 & _ & Hm2) _]. apply (private_ext (foreign 0)) in Hm2. by rewrite Hg2, Hm2.
Qed.

(** One part of the updater's thread, executed symbolically. *)
Lemma updater_part {A} (p : prog A) Q s :
  swp (foreign 0) E stamp_guar p Q (private_part (foreign 0) (cm s)) (cg s) ->
  wp E (wrely (foreign 0)) uguar p (fun a s' => Q a (private_part (foreign 0) (cm s')) (cg s')) s.
Proof.
  intros Hp. eapply wp_guar; [|intros ? ? H; left; exact H]. by apply (swp_wp (foreign 0) (foreign_node_field 0)).
Qed.

Lemma updater_post_ok n d s : (0 < n)%nat ->
  let T := spec_iters nbkeys n 0 (Tally (u32 (Z.lxor 0 now)) 0 0 (key_range nbkeys)) in
  tally_of d (t_set T) = T ->
  hash_ok (own 0 d) nb (private_part (foreign 0) (cm s)) (cg s) (t_set T) -> updater_post (cm s).
Proof.
  intros Hn T Ht Hok. exists n. split; [done|]. cbv zeta. fold T. apply private_hash_ok in Hok.
  split; [by eapply hash_ok_stores|]. rewrite <- Ht.
  split; (eapply (hash_ok_read 0 stamp_guar (own 0) nb); [|exact Hok]; set_solver).
Qed.

Lemma updater_ok {QT : QuietThreads} d s : hash_ok (own 0 d) nb (cm s) (cg s) (key_range nbkeys) ->
  wp E (wrely (foreign 0)) uguar
    (run_thread nb nbkeys 1 now false loops fuel 0)
    (fun _ s' => updater_post (cm s')) s.
Proof.
  intros Hok. unfold run_thread. assert (Hnb : nb_ok nb) by (destruct Hso; unfold nb_ok; lia).
  eapply wp_bind; [apply _|]. eapply wp_post.
  { apply updater_part. eapply (run_init_spec 0 stamp_guar (own 0)); [exact Hnb|]. by apply private_hash_ok in Hok. }
  cbn beta. intros _ s1 (d1 & Hok1 & Hd1). eapply wp_bind; [apply _|]. eapply wp_post.
  { eapply updater_aside; [|exact Hok1]. intros s'. apply run_barrier_ok; [done|apply _|apply bguar_wrely]. }
  cbn beta. intros _ s2 Hok2. eapply wp_bind; [apply _|]. eapply wp_post.
  { eapply updater_aside; [|exact Hok2]. apply quiet_ok, register_is_quiet. }
  cbn beta. intros _ s3 Hok3. eapply wp_bind; [apply _|]. eapply wp_post.
  { destruct Hso. apply updater_part.
    eapply (run_loop_spec 0 stamp_guar (own 0) E nb nbkeys Hnb HE); [lia|done|done|exact Hok3]. }
  cbn beta. intros i s4 (n & d4 & Hn & Ht & Hok4). rewrite Hd1 in Ht, Hok4. eapply wp_bind; [apply _|]. eapply wp_post.
  { eapply updater_aside; [|exact Hok4]. apply quiet_ok, unregister_is_quiet. }
  cbn beta. intros _ s5 Hok5. eapply wp_post; [eapply updater_aside; [|exact Hok5]; by apply quiet_ok|].
  cbn beta. intros _ s6 Hok6. by eapply updater_post_ok.
Qed.

End updater.
