(* ===== verification/Builds.v ===== *)
(** * The builds

    The programs one gets from the repository's macros: [gecos],
    [gecos_relink], [gecos_back] and [sigecos] of the Makefile (its target
    [gc_based]), list_lock.c with the sequence locks and the generation locks
    of lock.h, and list_rcu.c over any RCU library.  Every one keeps the promises that the theorems about the
    table and the benchmark rely on. *)
From S2P Require Import Prelude Mem Concrete RG SWP Table TableFacts Frozen Allocator ListOps Stamp ListWriter AllocState ListGecos GecosWriter GecosReader GecosSearch ListSgecos SgecosWriter SgecosSearch Lock ListLock LockWriter LockSearch ListRcu RcuWriter RcuSearch Util Mrow Hashtable Driver Pool.

(** liburcu, with its promises; its callbacks run in the thread [-2]. *)
Record rcu_lib := RcuLibrary { rl_lib :> RcuLib; rl_ok : RcuLibOk }.

Definition rcu_thread : Z := -2.

(** ** The builds

    [Seqlock] and [Gclock] carry the macros [ONE_WRITER], [NO_WR_BR] and
    [SEQLOCK_VLD], [Rcu] the macros [RCU_COUNT_BLC] and [RCU_COUNT_ATM] and the
    library. *)
Inductive variant :=
  | Plain | Relink_R | Back_B | Sigecos
  | Seqlock (one_writer no_wr_br vld : bool)
  | Gclock (one_writer no_wr_br vld : bool)
  | Rcu (count_blc count_atm : bool) (lib : rcu_lib).

Definition variant_search (v : variant) (fuel : nat) : Z -> Z -> loc -> loc -> prog Z :=
  match v with
  | Plain => ListGecos.search fuel
  | Relink_R => Relinking.search fuel
  | Back_B => Back.search fuel
  | Sigecos => ListSgecos.search fuel
  | Seqlock ow nw vld => @ListLock.search (Seq.ops ow nw) vld fuel fuel
  | Gclock ow nw vld => @ListLock.search (Gc.ops ow nw) vld fuel fuel
  | Rcu _ _ lib => @ListRcu.search lib fuel
  end.

Definition variant_ops (v : variant) (fuel : nat) : ListOps :=
  match v with
  | Sigecos => sgecos_ops fuel
  | Seqlock ow nw _ => @writer_ops (lock_scheme (Seq.ops ow nw) false fuel)
  | Gclock ow nw _ => @writer_ops (lock_scheme (Gc.ops ow nw) true fuel)
  | Rcu blc atm lib => @writer_ops (@rcu_scheme blc atm lib fuel rcu_thread)
  | _ => @writer_ops (gecos_scheme fuel)
  end.

(** [rcu_register_thread] and [rcu_unregister_thread], in RCU only. *)
Definition variant_register (v : variant) : prog unit :=
  match v with Rcu _ _ lib => @rcu_register_thread lib | _ => Ret tt end.
Definition variant_unregister (v : variant) : prog unit :=
  match v with Rcu _ _ lib => @rcu_unregister_thread lib | _ => Ret tt end.

(** GECOS and RCU never take their lock, which is the C library's. *)
Definition variant_lock_init (v : variant) (pthread_spin_init : loc -> prog unit) : loc -> prog unit :=
  match v with
  | Sigecos => ListSgecos.lock_init
  | Seqlock _ _ _ => Seq.lock_init
  | Gclock _ _ _ => Gc.lock_init
  | _ => pthread_spin_init
  end.

Definition variant_build (v : variant) (pthread_spin_init : loc -> prog unit) (fuel : nat) : Build := {|
  build_ops := variant_ops v fuel;
  lock_init := variant_lock_init v pthread_spin_init;
  thread_register := variant_register v;
  thread_unregister := variant_unregister v;
  Mrow.search := variant_search v fuel |}.

(** The counter that guards a node, if any. *)
#[export] Instance variant_stamp (v : variant) : Stamp :=
  match v with
  | Sigecos => sgecos_stamp
  | Seqlock _ _ _ => seq_stamp
  | Gclock ow _ _ => gc_stamp ow
  | Rcu _ _ _ => rcu_stamp
  | _ => gecos_stamp
  end.

(** What is known of the locks. *)
Definition variant_lock (v : variant) : lock_pred :=
  match v with
  | Seqlock _ _ _ => odd_lock
  | Gclock ow _ _ => gc_lock_pred ow
  | _ => any_lock
  end.

(** The updater's state. *)
Abbreviation variant_state v := (alloc_state (variant_lock v)).

(** The documented behaviour of [pthread_spin_init]: it initialises the lock
    it is given and nothing else. *)
Definition spin_init_ok (pthread_spin_init : loc -> prog unit) : Prop :=
  forall (HC : Calloc) l m, is_Some (m !! l) ->
    exists v, run (pthread_spin_init l) m = Ok tt (<[l := v]> m).

Lemma spin_init_zero_ok : spin_init_ok spin_init_zero.
Proof.
  intros HC l m [w Hl]. exists 0. unfold spin_init_zero, store. cbn.
  by rewrite (mget_lookup _ _ _ Hl).
Qed.

(** ** They keep the promises *)

#[export] Instance variant_driver v fuel self :
  @DriverSpec (variant_ops v (S fuel)) self (@stamp_guar (variant_stamp v)) (variant_state v self).
Proof.
  destruct v; [apply gecos_spec..|apply sgecos_driver_spec|apply seq_driver_spec|apply gc_driver_spec|].
  apply rcu_spec, rl_ok.
Qed.

#[export] Instance variant_quiet v sp fuel : QuietThreads (HB := variant_build v sp fuel).
Proof.
  destruct v as [| | | | | |blc atm lib]; try done.
  split; [apply (register_quiet (RcuLibOk := rl_ok lib))|apply (unregister_quiet (RcuLibOk := rl_ok lib))].
Qed.

(** The value a new lock may have. *)
Definition free_value (v : variant) (w : Z) : Prop :=
  match v with Seqlock _ _ _ | Gclock _ _ _ => w = 0 | _ => True end.

Lemma free_value_ok v w : w = 0 \/ free_value v w -> variant_lock v false w.
Proof.
  destruct v as [| | | | |[] ? ?|]; try done; intros [->| ->]; (split; [unfold word64; lia|done]).
Qed.

#[export] Instance variant_init v pthread_spin_init fuel self :
  spin_init_ok pthread_spin_init ->
  @InitSpec (variant_build v pthread_spin_init fuel) (variant_state v self).
Proof.
  intros Hs. refine (@Build_InitSpec (variant_build v pthread_spin_init fuel) _ (free_value v) _ _).
  - intros HC i m Hl. destruct v; try (destruct (Hs HC _ m Hl) as [w Hw]; exists w; by split);
      exists 0; (split; [done|]); destruct Hl as [w Hl]; cbn; by rewrite (mget_lookup _ _ _ Hl).
  - intros d U m m' Ho Hm Hl. eapply alloc_state_arrays; [auto| |exact Ho].
    intros i w Hw. destruct (Hl i w Hw) as [?|Hf]; [by left|right]. by apply free_value_ok.
Defined.

#[export] Instance variant_own_spec v sp fuel :
  OwnSpec (HB := variant_build v sp (S fuel)) (HS := variant_stamp v) (variant_state v).
Proof.
  split.
  - intros self. apply variant_driver.
  - intros self d h U m m'. apply alloc_state_ext.
  - intros self d Hd. split; [done|]. by apply alloc_state_empty.
  - intros main self d d' U m m'. apply alloc_state_switch.
Qed.

(** The errors the model admits: the fuel of its loops, and the read of an
    uninitialised variable in [GECOS_B]. *)
Definition reader_err (v : variant) (e : err) : Prop :=
  e = OutOfFuel \/ v = Back_B /\ e = Indeterminate.

#[export] Instance variant_search_spec v sp fuel :
  SearchSpec (HB := variant_build v sp fuel) (HS := variant_stamp v) (reader_err v).
Proof.
  intros HC self key i s W Hi. assert (HE : reader_err v OutOfFuel) by by left.
  destruct v; cbn [Mrow.search variant_build variant_search variant_stamp].
  - by apply search_loop_ok.
  - by apply relinking_search_loop_ok.
  - apply back_search_loop_ok; [done|done|done|by right|done|done|done|]. by intros p [=].
  - by apply sgecos_search_loop_ok.
  - by apply (lock_search_ok _ _ i64); [|apply seq_opt_lock|..].
  - by apply (lock_search_ok _ _ (gc_dec one_writer)); [|apply gc_opt_lock|..].
  - by apply (rcu_search_ok (HO := rl_ok lib)).
Qed.

(** ** A library for the examples: nothing but barriers *)

Definition fence_lib : RcuLib := {|
  rcu_read_lock := memory_barrier;
  rcu_read_unlock := memory_barrier;
  rcu_register_thread := Ret tt;
  rcu_unregister_thread := Ret tt;
  rcu_dereference l := (Ret tt;; v ← load l; compiler_barrier;; Ret v);
  call_rcu n f := memory_barrier |}.

Lemma fence_lib_ok : @RcuLibOk fence_lib.
Proof. split; try done. intros l. by exists (Ret tt), compiler_barrier. Qed.

Definition fences : rcu_lib := RcuLibrary fence_lib fence_lib_ok.

(** ** A table to start from *)

(** The store in which a table of the keys [0 .. nbkeys-1] in [nb] buckets was
    initialised by the main thread [-1], with the concrete library. *)
Definition start_store (b : Build) (nb nbkeys : Z) (fuel : nat) : mem :=
  match run (test_start nb nbkeys true false false fuel (-1)) ∅ with
  | Ok _ m => m
  | Err _ m => m
  end.

Lemma start_store_ok v nb nbkeys fuel : sizes_ok nb nbkeys (S fuel) ->
  let b := variant_build v spin_init_zero (S fuel) in
  started (H0 := b) (-1) nb nbkeys (S fuel) (start_store b nb nbkeys (S fuel)) /\
  exists g0, hash_ok (variant_state v 0 (fun _ => 0)) nb (start_store b nb nbkeys (S fuel)) g0 (key_range nbkeys).
Proof.
  intros Hso b. pose proof (fun self => variant_init v spin_init_zero (S fuel) self spin_init_zero_ok) as IS.
  destruct (started_ok (HB := b) (HS := variant_stamp v) (variant_state v) (-1) nb nbkeys (S fuel) Hso
    ltac:(lia) 0 ltac:(lia)) as (m0 & g0 & Hst & Hok & _).
  assert (Hm : start_store b nb nbkeys (S fuel) = m0).
  { unfold start_store, started in *. by rewrite Hst. }
  rewrite Hm. split; [done|]. by exists g0.
Qed.

