(* ===== verification/Typed.v ===== *)
(** * The program respects the types

    Every function that the threads of a test run, in every build, keeps the
    store well typed: the allocator, the list operations with each scheme and
    each lock, the searches, the driver's loops. *)
From S2P Require Import Prelude Mem Concrete RG SWP Table TableFacts Types Allocator ListOps Lock ListWriter ListGecos ListSgecos ListLock ListHp ListRc ListRcu Util Mrow Builds.

(** ** Automation

    [grow H] moves the typing facts along [H : N ⊆ N'];  [ty] runs through a
    function; the hint database [typed] has the types of the functions it
    calls. *)
Create HintDb typed.

(** A location of type [node_t *] that is a head or a [next] field, and the
    lock of a bucket. *)
Definition ptr_loc (nb : Z) (N : gset Z) (l : loc) : Prop :=
  match l with LHead i => 0 <= i < nb | LNext p => ptr N p | _ => False end.

Definition lock_loc (nb : Z) (l : loc) : Prop :=
  match l with LLock i => 0 <= i < nb | _ => False end.

Lemma ptr_loc_mono nb N N' l : N ⊆ N' -> ptr_loc nb N l -> ptr_loc nb N' l.
Proof. intros HN. destruct l; try done. by apply ptr_mono. Qed.

Lemma ptr_loc_typed nb N l : ptr_loc nb N l -> loc_typed nb N l.
Proof. by destruct l. Qed.

Lemma ptr_loc_val nb N N' l v : ptr_loc nb N l -> val_typed N' l v <-> ptr N' v.
Proof. by destruct l. Qed.

Lemma lock_loc_typed nb N l : lock_loc nb l -> loc_typed nb N l.
Proof. by destruct l. Qed.

Lemma lock_loc_word nb l : lock_loc nb l -> word_loc l.
Proof. by destruct l. Qed.

Lemma lock_loc_val nb N l v : lock_loc nb l -> - 2 ^ 63 <= v < word64 -> val_typed N l v.
Proof. by destruct l. Qed.

Lemma i32_range v : int_range (i32 v).
Proof. unfold int_range, i32. pose proof (Z.mod_pos_bound (v + 2 ^ 31) word32 ltac:(done)). unfold word32 in *. lia. Qed.

Lemma i64_range v : - 2 ^ 63 <= i64 v < word64.
Proof. unfold i64. pose proof (Z.mod_pos_bound (v + 2 ^ 63) word64 ltac:(done)). unfold word64 in *. lia. Qed.

Lemma u64_long v : - 2 ^ 63 <= u64 v < word64.
Proof. pose proof (u64_range v). lia. Qed.

Lemma u32_range v : 0 <= u32 v < word32.
Proof. by apply Z.mod_pos_bound. Qed.

(** A pointer that may be uninitialised. *)
Definition opt_ptr (N : gset Z) (p : option Z) : Prop :=
  match p with Some p => ptr N p | None => True end.

Lemma opt_ptr_mono N N' p : N ⊆ N' -> opt_ptr N p -> opt_ptr N' p.
Proof. intros HN. destruct p; [by apply ptr_mono|done]. Qed.

Ltac grow H :=
  match type of H with ?N ⊆ ?N' =>
    repeat match goal with
    | X : ptr N _ |- _ => apply (ptr_mono _ _ _ H) in X
    | X : opt_ptr N _ |- _ => apply (opt_ptr_mono _ _ _ H) in X
    | X : ptr_loc ?nb N _ |- _ => apply (ptr_loc_mono nb _ _ _ H) in X
    end; clear H
  end.

Ltac ty_side :=
  first
    [ exact I | assumption | reflexivity | apply ptr_null
    | exact (val_typed_zero _ _)
    | progress cbn [loc_typed word_loc]; ty_side
    | progress unfold val_typed; ty_side
    | apply i32_range | apply i64_range | apply u64_range | apply u64_long | apply u32_range
    | apply ptr_loc_typed; assumption
    | eapply lock_loc_typed; eassumption
    | eapply lock_loc_word; eassumption
    | eapply lock_loc_val; [eassumption|ty_side]
    | match goal with X : ptr_loc ?nb ?N ?l |- val_typed _ ?l _ => apply (ptr_loc_val nb N _ _ _ X); assumption end
    | match goal with |- _ <= _ < word64 => unfold word64; lia end
    | solve [eauto with typed] ].

(** The result of a load, as its type. *)
Ltac ty_open V :=
  match type of V with
  | val_typed _ ?l _ =>
      first
        [ match goal with X : ptr_loc ?nb ?N l |- _ => apply (ptr_loc_val nb N _ _ _ X) in V end
        | progress unfold val_typed in V
        | idtac ]
  | any _ _ => clear V
  | _ => idtac
  end.

Ltac ty_prim :=
  first
    [ apply ty_load; ty_side | apply ty_cas; ty_side | apply ty_cmpxchg; ty_side
    | apply ty_store; ty_side | apply ty_xadd; ty_side | apply ty_incr64; ty_side | apply ty_fence
    | solve [eauto with typed] ].

Ltac ty :=
  repeat match goal with
  | |- typed _ _ (if ?b then _ else _) _ => destruct b
  | |- typed _ _ (use ?x _) _ => destruct x; cbn [use]
  | |- typed _ _ (Crash _) _ => exact I
  | |- typed _ _ (c_assert ?b) _ => destruct b; exact I
  | |- typed _ _ (Ret _) _ => cbn [typed any]; try exact I
  | |- typed _ _ (@mbind _ _ unit _ _ _) _ =>
      eapply (typed_bind _ any); [first [ty_prim | ty] | let N := fresh "N" in let H := fresh "HN" in intros N ? H _; grow H]
  | |- typed _ _ (@mbind _ _ _ _ _ _) _ =>
      eapply typed_bind; [ty_prim | let N := fresh "N" in let H := fresh "HN" in let V := fresh "V" in intros N ? H V; grow H; cbv beta in V; ty_open V]
  | |- typed _ _ _ _ => ty_prim
  end.

Section allocator.
Context (nb : Z).

(** The variables the code increments. *)
Definition counter (x : tlsvar) : bool :=
  match x with
  | Vlcnt | Vnbfl | Vnbretry | Vnbrelink | Vnbreprev | Vnbmallocs | Vnbblockeds | Vthd_ins | Vthd_del | Vthd_sea => true
  | _ => false
  end.

Lemma wrap_succ_range bits v : 0 <= bits -> - 2 ^ bits <= v < 2 ^ bits ->
  - 2 ^ bits <= wrap_succ bits v < 2 ^ bits.
Proof. intros Hb Hv. unfold wrap_succ. destruct (Z.eqb_spec v (2 ^ bits - 1)); lia. Qed.

Lemma tls_succ_typed N self x v : counter x = true -> val_typed N (LTls self x) v ->
  val_typed N (LTls self x) (tls_succ x v).
Proof. destruct x; try done; intros _; apply wrap_succ_range; done. Qed.

Lemma ty_incr_tls N self x : counter x = true -> typed nb any (incr_tls self x) N.
Proof.
  intros Hx. unfold incr_tls. eapply typed_bind; [by apply ty_load|]. intros N' v HN Hv.
  apply ty_store; [done|]. by apply tls_succ_typed.
Qed.
#[local] Hint Extern 1 (typed _ _ (incr_tls _ _) _) => (apply ty_incr_tls; reflexivity) : typed.

Lemma ty_steal fuel self : forall N, typed nb any (steal_freelist fuel self) N.
Proof. induction fuel as [|fuel IH]; intros N; cbn [steal_freelist]; ty. Qed.
#[local] Hint Resolve ty_steal : typed.

Lemma ty_pop self N : typed nb ptr (pop_lfl self) N.
Proof. unfold pop_lfl. ty. assumption. Qed.
#[local] Hint Resolve ty_pop : typed.

Lemma ty_get_free fuel self N : typed nb ptr (get_free fuel self) N.
Proof. unfold get_free. ty. apply ptr_null. Qed.
#[local] Hint Resolve ty_get_free : typed.

Lemma ty_push fuel self : forall N, typed nb any (push_freelist fuel self) N.
Proof. induction fuel as [|fuel IH]; intros N; cbn [push_freelist]; ty. Qed.
#[local] Hint Resolve ty_push : typed.

Lemma ty_flush fuel self N : typed nb any (flush_lfl fuel self) N.
Proof. unfold flush_lfl. ty. Qed.
#[local] Hint Resolve ty_flush : typed.

Lemma ty_calloc N : typed nb ptr (do_op CallocNode) N.
Proof. by split. Qed.
#[local] Hint Resolve ty_calloc : typed.

Lemma ty_free_node fuel self n N : ptr N n -> typed nb any (free_node fuel self n) N.
Proof. intros Hn. unfold free_node, add_free. ty. Qed.

Lemma ty_new_node fuel self N : typed nb ptr (new_node fuel self) N.
Proof. unfold new_node. ty; assumption. Qed.
#[local] Hint Resolve ty_free_node : typed.

Lemma ty_prealloc_loop n fuel self : forall N, typed nb any (prealloc_loop n fuel self) N.
Proof. induction n as [|n IH]; intros N; cbn [prealloc_loop]; ty. Qed.

Lemma ty_prealloc pre fuel self N : typed nb any (prealloc pre fuel self) N.
Proof. destruct pre; [apply ty_prealloc_loop|exact I]. Qed.

End allocator.

#[export] Hint Resolve ty_free_node ty_new_node ty_prealloc : typed.
#[export] Hint Extern 1 (typed _ _ (incr_tls _ _) _) => (apply ty_incr_tls; reflexivity) : typed.

(** ** Locks *)

Class LockTyped (nb : Z) (L : LockOps) : Prop := {
  lt_rlock fuel l N : lock_loc nb l -> typed nb any (lock_rlock fuel l) N;
  lt_runlock l v N : lock_loc nb l -> typed nb any (lock_runlock l v) N;
  lt_validate l v N : lock_loc nb l -> typed nb any (lock_validate l v) N;
  lt_wlock fuel l N : lock_loc nb l -> typed nb any (Lock.lock_wlock fuel l) N;
  lt_wunlock l N : lock_loc nb l -> typed nb any (Lock.lock_wunlock l) N }.
#[export] Hint Resolve lt_rlock lt_runlock lt_validate lt_wlock lt_wunlock : typed.

Section locks.
Context (nb : Z) (l : loc) (Hl : lock_loc nb l).

Lemma ty_seq_rlock fuel : forall N, typed nb any (Seq.rlock_loop fuel l) N.
Proof. induction fuel as [|fuel IH]; intros N; cbn [Seq.rlock_loop]; unfold read_read_barrier, compiler_barrier; ty. Qed.

Lemma ty_seq_wlock fuel : forall N, typed nb any (Seq.wlock_loop fuel l) N.
Proof. induction fuel as [|fuel IH]; intros N; cbn [Seq.wlock_loop]; cbv zeta; unfold sync_bool_cas; ty. Qed.

Lemma ty_gc_wlock fuel : forall N, typed nb any (Gc.wlock_loop fuel l) N.
Proof. induction fuel as [|fuel IH]; intros N; cbn [Gc.wlock_loop]; cbv zeta; unfold sync_bool_cas; ty. Qed.

End locks.
#[export] Hint Resolve ty_seq_rlock ty_seq_wlock ty_gc_wlock : typed.

#[export] Instance seq_typed nb ow nw : LockTyped nb (Seq.ops ow nw).
Proof.
  split; cbn [lock_rlock lock_runlock lock_validate Lock.lock_wlock Lock.lock_wunlock Seq.ops]; intros; destruct ow;
    unfold Seq.lock_rlock, Seq.lock_runlock, Seq.lock_wlock, Seq.lock_wunlock, Seq.lock_wlock_mw, Seq.lock_wunlock_mw,
      add_one, read_read_barrier, write_write_barrier, write_read_barrier, compiler_barrier; ty.
Qed.

#[export] Instance gc_typed nb ow nw : LockTyped nb (Gc.ops ow nw).
Proof.
  split; cbn [lock_rlock lock_runlock lock_validate Lock.lock_wlock Lock.lock_wunlock Gc.ops]; intros; destruct ow;
    unfold Gc.lock_rlock, Gc.lock_runlock, Gc.lock_rlock_mw, Gc.lock_runlock_mw, Gc.lock_wunlock, Gc.lock_wlock_mw,
      Gc.lock_wunlock_mw, no_validate, add_one, read_read_barrier, write_write_barrier, write_read_barrier, compiler_barrier; ty.
Qed.

(** ** Updates *)

(** What a build promises of its operations; [thread] is a thread's number. *)
Class InserterTyped (nb : Z) (I : Inserter) : Prop := {
  it_wlock l N : lock_loc nb l -> typed nb any (ListWriter.lock_wlock l) N;
  it_wunlock l N : lock_loc nb l -> typed nb any (ListWriter.lock_wunlock l) N;
  it_new self N : typed nb ptr (ListWriter.init_new_node self) N }.

Class SchemeTyped (nb : Z) (S : Scheme) : Prop := {
  sty_inserter :: InserterTyped nb scheme_inserter;
  sty_free self thread n N : 0 <= thread < MAX_THREAD -> ptr N n -> typed nb any (ListWriter.free_node_later self thread n) N }.
#[export] Hint Resolve it_wlock it_wunlock it_new sty_free : typed.
#[export] Hint Extern 0 (InserterTyped _ _) => (apply _) : typed.
#[export] Hint Extern 0 (SchemeTyped _ _) => (apply _) : typed.
#[export] Hint Extern 0 (LockTyped _ _) => (apply _) : typed.

Class OpsTyped (nb : Z) (O : ListOps) : Prop := {
  ot_insert fuel self key h l N : int_range key -> ptr_loc nb N h -> lock_loc nb l ->
    typed nb any (op_insert fuel self key h l) N;
  ot_delete fuel self key h l N : int_range key -> ptr_loc nb N h -> lock_loc nb l ->
    typed nb any (op_delete fuel self key h l) N }.

Section insert.
Context (nb : Z) (I : Inserter) {IT : InserterTyped nb I}.

Lemma ty_insert_link self key prev cur lock N : int_range key -> ptr_loc nb N prev -> ptr N cur -> lock_loc nb lock ->
  typed nb any (ListWriter.insert_link self key prev cur lock) N.
Proof. intros Hk Hp Hc Hl. unfold ListWriter.insert_link, write_write_barrier, compiler_barrier. ty. Qed.
#[local] Hint Resolve ty_insert_link : typed.

Lemma ty_insert_loop self key lock fuel : int_range key -> lock_loc nb lock -> forall N prev cur,
  ptr_loc nb N prev -> ptr N cur -> typed nb any (ListWriter.insert_loop fuel self key prev cur lock) N.
Proof.
  intros Hk Hl. induction fuel as [|fuel IH]; intros N prev cur Hp Hc; cbn [ListWriter.insert_loop]; ty.
Qed.
#[local] Hint Resolve ty_insert_loop : typed.

Lemma ty_insert fuel self key h l N : int_range key -> ptr_loc nb N h -> lock_loc nb l ->
  typed nb any (ListWriter.insert fuel self key h l) N.
Proof. intros Hk Hh Hl. unfold ListWriter.insert. ty. Qed.

End insert.
#[export] Hint Resolve ty_insert : typed.

Section delete.
Context (nb : Z) (S : Scheme) {ST : SchemeTyped nb S}.

Lemma ty_delete_end self lock cur N : ptr N cur -> lock_loc nb lock -> typed nb any (delete_end self lock cur) N.
Proof. intros Hc Hl. unfold delete_end. ty. Qed.
#[local] Hint Resolve ty_delete_end : typed.

Lemma ty_delete_loop self key lock fuel : lock_loc nb lock -> forall N prev cur,
  ptr_loc nb N prev -> ptr N cur -> typed nb any (ListWriter.delete_loop fuel self key prev cur lock) N.
Proof.
  intros Hl. induction fuel as [|fuel IH]; intros N prev cur Hp Hc; cbn [ListWriter.delete_loop]; ty.
Qed.
#[local] Hint Resolve ty_delete_loop : typed.

#[export] Instance writer_typed : OpsTyped nb writer_ops.
Proof.
  split; intros fuel self key h l N Hk Hh Hl; cbn [op_insert op_delete writer_ops]; [ty|].
  unfold ListWriter.delete. ty.
Qed.

End delete.

(** ** The schemes *)

Ltac ty_inserter :=
  split; intros; cbn [ListWriter.lock_wlock ListWriter.lock_wunlock ListWriter.init_new_node
    gecos_inserter lock_inserter hp_inserter rc_inserter rcu_inserter sgecos_inserter];
  unfold OneWriter.lock_wlock, OneWriter.lock_wunlock, write_read_barrier; ty.

#[export] Instance gecos_inserter_typed nb fuel : InserterTyped nb (gecos_inserter fuel).
Proof. unfold gecos_inserter, ListGecos.init_new_node, osa_new_node. ty_inserter. Qed.

#[export] Instance gecos_scheme_typed nb fuel : SchemeTyped nb (gecos_scheme fuel).
Proof.
  split; [apply gecos_inserter_typed|]. intros self thread n N Ht Hn.
  change (typed nb any (ListGecos.free_node_later fuel self thread n) N). unfold ListGecos.free_node_later. ty.
Qed.

#[export] Instance lock_inserter_typed nb L fuel : LockTyped nb L -> InserterTyped nb (lock_inserter L fuel).
Proof. intros HL. unfold lock_inserter, ListLock.init_new_node. ty_inserter. Qed.

#[export] Instance lock_scheme_typed nb L gclock fuel : LockTyped nb L -> SchemeTyped nb (lock_scheme L gclock fuel).
Proof.
  intros HL. split; [by apply lock_inserter_typed|]. intros self thread n N Ht Hn.
  change (typed nb any (ListLock.free_node_later fuel self thread n) N). unfold ListLock.free_node_later. ty.
Qed.

(** Hazard pointers: a thread's slots and its list of zombies exist. *)
Section hazard.
Context (nb : Z) `{StdSort} (direct_scan : bool) (nbthreads : Z).

Lemma slot_typed N i : 0 <= i < 3 * MAX_THREAD -> loc_typed nb N (LHP i).
Proof.
  intros Hi. change ((0 <=? i) && (i <? 3 * MAX_THREAD) = true). rewrite andb_true_iff, Z.leb_le, Z.ltb_lt. lia.
Qed.

Lemma zlist_typed N t : 0 <= t < MAX_THREAD -> loc_typed nb N (LZlistP t) /\ loc_typed nb N (LZlistN t).
Proof.
  intros Hi. change ((0 <=? t) && (t <? MAX_THREAD) = true /\ (0 <=? t) && (t <? MAX_THREAD) = true).
  rewrite andb_true_iff, Z.leb_le, Z.ltb_lt. lia.
Qed.

Lemma ty_collect rest : (rest <= Z.to_nat Param.H)%nat -> forall N plist, typed nb any (collect nbthreads rest plist) N.
Proof.
  induction rest as [|rest IH]; intros Hr N plist; cbn [collect]; [exact I|]. cbv zeta.
  assert (Hs : forall N, loc_typed nb N (LHP (Param.H - Z.of_nat (S rest)))).
  { intros N'. apply slot_typed. unfold Param.H, Param.K, MAX_THREAD in *. lia. }
  assert (Hc : forall N plist, typed nb any (collect nbthreads rest plist) N) by (intros; apply IH; lia). clear IH Hr. ty.
Qed.
#[local] Hint Resolve ty_collect : typed.

Lemma ty_zombies afuel self thread plist fuel : 0 <= thread < MAX_THREAD -> forall N tmplist, ptr N tmplist ->
  typed nb any (free_zombies afuel fuel self thread plist tmplist) N.
Proof.
  intros Ht. assert (Hp : forall N, loc_typed nb N (LZlistP thread)) by (intros N; by apply zlist_typed).
  assert (Hn : forall N, loc_typed nb N (LZlistN thread)) by (intros N; by apply zlist_typed).
  induction fuel as [|fuel IH]; intros N tmplist Hl; cbn [free_zombies]; cbv zeta; ty.
Qed.
#[local] Hint Resolve ty_zombies : typed.

Lemma ty_scan fuel self thread N : 0 <= thread < MAX_THREAD -> typed nb any (scan direct_scan nbthreads fuel self thread) N.
Proof.
  intros Ht. assert (Hp : forall N, loc_typed nb N (LZlistP thread)) by (intros N'; by apply zlist_typed).
  assert (Hn : forall N, loc_typed nb N (LZlistN thread)) by (intros N'; by apply zlist_typed).
  unfold scan, write_write_barrier, compiler_barrier. ty.
Qed.
#[local] Hint Resolve ty_scan : typed.

#[export] Instance hp_inserter_typed fuel : InserterTyped nb (hp_inserter fuel).
Proof. unfold hp_inserter, ListHp.init_new_node. ty_inserter. Qed.

#[export] Instance hp_scheme_typed fuel : SchemeTyped nb (hp_scheme direct_scan nbthreads fuel).
Proof.
  split; [apply hp_inserter_typed|]. intros self thread n N Ht Hn.
  change (typed nb any (ListHp.free_node_later direct_scan nbthreads fuel self thread n) N).
  assert (Hp : forall N, loc_typed nb N (LZlistP thread)) by (intros N'; by apply zlist_typed).
  assert (Hc : forall N, loc_typed nb N (LZlistN thread)) by (intros N'; by apply zlist_typed).
  unfold ListHp.free_node_later. cbv zeta. ty.
Qed.

End hazard.

(** Reference counts. *)
Section counts.
Context (nb : Z).

Lemma clean_typed N p : ptr N p -> ptr N (clean_pointer p).
Proof. intros Hp. by rewrite (ptr_clean N). Qed.
#[local] Hint Resolve clean_typed : typed.

Lemma ty_increment p fuel : forall N, ptr N p -> typed nb any (increment_if_not_zero fuel (LRc p)) N.
Proof. induction fuel as [|fuel IH]; intros N Hp; cbn [increment_if_not_zero]; cbv zeta; ty. Qed.
#[local] Hint Resolve ty_increment : typed.

Lemma ty_refcnt_dec afuel self fuel : forall N p, ptr N p -> typed nb any (lfrc_refcnt_dec afuel fuel self p) N.
Proof.
  induction fuel as [|fuel IH]; intros N p Hp; cbn [lfrc_refcnt_dec]; cbv zeta; [exact I|].
  rewrite (ptr_clean N p Hp). unfold memory_barrier, rc_free_node. ty.
Qed.
#[local] Hint Resolve ty_refcnt_dec : typed.

Lemma ty_refcnt_inc N p : ptr N p -> typed nb any (lfrc_refcnt_inc p) N.
Proof. intros Hp. unfold lfrc_refcnt_inc, memory_barrier. ty. Qed.
#[local] Hint Resolve ty_refcnt_inc : typed.

Lemma ty_safe_read afuel self l fuel : forall N, ptr_loc nb N l -> typed nb ptr (safe_read afuel fuel self l) N.
Proof.
  induction fuel as [|fuel IH]; intros N Hl; cbn [safe_read]; cbv zeta; [exact I|].
  unfold memory_barrier. eapply typed_bind; [ty_prim|]. intros N1 q HN V. grow HN. ty_open V.
  rewrite (ptr_clean N1 q) by (by apply (ptr_loc_val nb N1 _ l)). apply (ptr_loc_val nb N1 _ l) in V; [|done]. ty; assumption.
Qed.
#[local] Hint Resolve ty_safe_read : typed.

Lemma ty_rc_loop afuel rfuel self key fuel : forall N cur, ptr N cur ->
  typed nb any (ListRc.search_loop afuel rfuel fuel self key cur) N.
Proof. induction fuel as [|fuel IH]; intros N cur Hc; cbn [ListRc.search_loop]; ty. Qed.
#[local] Hint Resolve ty_rc_loop : typed.

Lemma ty_rc_search afuel rfuel fuel self key h l N : ptr_loc nb N h ->
  typed nb any (ListRc.search afuel rfuel fuel self key h l) N.
Proof. intros Hh. unfold ListRc.search. ty. Qed.

#[export] Instance rc_inserter_typed fuel : InserterTyped nb (rc_inserter fuel).
Proof. unfold rc_inserter, ListRc.init_new_node. ty_inserter; assumption. Qed.

#[export] Instance rc_scheme_typed afuel fuel : SchemeTyped nb (rc_scheme afuel fuel).
Proof.
  split; [apply rc_inserter_typed|]. intros self thread n N Ht Hn.
  change (typed nb any (ListRc.free_node_later afuel fuel self thread n) N). unfold ListRc.free_node_later. ty.
Qed.

End counts.

(** RCU. *)
Section rcu.
Context (nb : Z) `{HL : RcuLib} {HO : RcuLibOk} (count_blc count_atm : bool).

Lemma ty_dereference l N : ptr_loc nb N l -> typed nb ptr (rcu_dereference l) N.
Proof.
  intros Hl. destruct (dereference_load l) as (before & after & Hb & Ha & ->).
  pose proof (ty_quiet nb before Hb) as Tb. pose proof (ty_quiet nb after Ha) as Ta. ty. assumption.
Qed.
#[local] Hint Resolve ty_dereference : typed.

Lemma ty_rcu_loop key fuel : forall N cur, ptr N cur -> typed nb any (ListRcu.search_loop fuel key cur) N.
Proof.
  pose proof (ty_quiet nb _ read_unlock_quiet) as Tu. induction fuel as [|fuel IH]; intros N cur Hc; cbn [ListRcu.search_loop]; ty.
Qed.
#[local] Hint Resolve ty_rcu_loop : typed.

Lemma ty_rcu_search fuel self key h l N : ptr_loc nb N h -> typed nb any (ListRcu.search fuel self key h l) N.
Proof. intros Hh. pose proof (ty_quiet nb _ read_lock_quiet) as Tu. unfold ListRcu.search. ty. Qed.

Lemma ty_count_retired self N : typed nb any (count_retired count_atm self) N.
Proof. unfold count_retired. ty. Qed.
#[local] Hint Resolve ty_count_retired : typed.

#[export] Instance rcu_inserter_typed fuel : InserterTyped nb (rcu_inserter fuel).
Proof. unfold rcu_inserter, ListRcu.init_new_node. ty_inserter. Qed.

#[export] Instance rcu_scheme_typed fuel cb : SchemeTyped nb (rcu_scheme count_blc count_atm fuel cb).
Proof.
  split; [apply rcu_inserter_typed|]. intros self thread n N Ht Hn.
  change (typed nb any (ListRcu.free_node_later count_blc count_atm fuel cb self thread n) N).
  pose proof (ty_quiet nb _ (call_rcu_quiet n (free_node_cb count_blc count_atm fuel cb))) as Tc.
  unfold ListRcu.free_node_later. ty.
Qed.

End rcu.

(** ** SGECOS *)
Section sgecos.
Context (nb : Z).

#[export] Instance sgecos_inserter_typed fuel : InserterTyped nb (sgecos_inserter fuel).
Proof. unfold sgecos_inserter. split; intros; [exact I|exact I|]. by apply ty_new_node. Qed.

Lemma ty_incr_long l N : lock_loc nb l -> typed nb any (incr_long l) N.
Proof. intros Hl. unfold incr_long. ty. Qed.
#[local] Hint Resolve ty_incr_long : typed.

Lemma ty_sgecos_delete_loop afuel self key lock fuel : lock_loc nb lock -> forall N prev cur,
  ptr_loc nb N prev -> ptr N cur -> typed nb any (ListSgecos.delete_loop afuel fuel self key prev cur lock) N.
Proof.
  intros Hl. induction fuel as [|fuel IH]; intros N prev cur Hp Hc; cbn [ListSgecos.delete_loop];
    unfold write_write_barrier, write_read_barrier, compiler_barrier; ty.
Qed.
#[local] Hint Resolve ty_sgecos_delete_loop : typed.

#[export] Instance sgecos_typed afuel : OpsTyped nb (sgecos_ops afuel).
Proof.
  split; intros fuel self key h l N Hk Hh Hl; cbn [op_insert op_delete sgecos_ops].
  - rewrite insert_eq. apply ty_insert; [apply _|done..].
  - unfold ListSgecos.delete. ty.
Qed.

Lemma ty_sgecos_loop self key h l fuel : lock_loc nb l -> forall N pc, ptr_loc nb N h ->
  match pc with SRetry => True | SLoop cur _ => ptr N cur end ->
  typed nb any (ListSgecos.search_loop fuel self key h l pc) N.
Proof.
  intros Hl. induction fuel as [|fuel IH]; intros N [|cur lgc] Hh Hc; cbn [ListSgecos.search_loop]; try exact I;
    unfold compiler_barrier; ty; by apply IH.
Qed.

End sgecos.

(** ** GECOS *)
Section gecos.
Context (nb : Z).

Definition label_typed (N : gset Z) (pc : label) : Prop :=
  match pc with Retry => True | ListGecos.Loop cur _ | Relink cur _ _ => ptr N cur end.

Lemma ty_start h prev (f : label -> prog Z) N : ptr_loc nb N h -> opt_ptr N prev ->
  (forall N' pc, ptr_loc nb N' h -> opt_ptr N' prev -> label_typed N' pc -> typed nb any (f pc) N') ->
  typed nb any (start_search h f) N.
Proof. intros Hh Hp Hf. unfold start_search, compiler_barrier. ty; by apply Hf. Qed.

Lemma ty_read_gc next next_gc N : ptr N next -> typed nb any (read_gc next next_gc) N.
Proof. intros Hn. unfold read_gc. ty. Qed.
#[local] Hint Resolve ty_read_gc : typed.

Section loops.
Context (self key : Z) (h : loc).

Lemma ty_gecos_loop fuel : forall N pc next_gc, ptr_loc nb N h -> label_typed N pc ->
  typed nb any (ListGecos.search_loop fuel self key h pc next_gc) N.
Proof.
  induction fuel as [|fuel IH]; intros N pc next_gc Hh Hc; cbn [ListGecos.search_loop]; [exact I|].
  destruct pc; cbn [label_typed] in Hc; [apply (ty_start h None); [done|done|]; intros; by apply IH|..];
    unfold compiler_barrier; ty; by apply IH.
Qed.

Lemma ty_relinking_loop fuel : forall N pc next_gc, ptr_loc nb N h -> label_typed N pc ->
  typed nb any (Relinking.search_loop fuel self key h pc next_gc) N.
Proof.
  induction fuel as [|fuel IH]; intros N pc next_gc Hh Hc; cbn [Relinking.search_loop]; [exact I|].
  destruct pc; cbn [label_typed] in Hc; [apply (ty_start h None); [done|done|]; intros; by apply IH|..];
    unfold compiler_barrier; ty; by apply IH.
Qed.

Lemma ty_back_loop fuel : forall N pc next_gc prev prev_gc, ptr_loc nb N h -> label_typed N pc -> opt_ptr N prev ->
  typed nb any (Back.search_loop fuel self key h pc next_gc prev prev_gc) N.
Proof.
  induction fuel as [|fuel IH]; intros N pc next_gc prev prev_gc Hh Hc Hp; cbn [Back.search_loop]; [exact I|].
  destruct pc; cbn [label_typed] in Hc.
  - apply (ty_start h prev); [done|done|]. intros. by apply IH.
  - unfold compiler_barrier; ty; by apply IH.
  - unfold compiler_barrier; ty; by apply IH.
Qed.

End loops.
End gecos.

(** ** The other searches *)

Section searches.
Context (nb : Z).

Lemma ty_validate_cur (L : LockOps) {LT : LockTyped nb L} vld l v N : lock_loc nb l ->
  typed nb any (validate_cur vld l v) N.
Proof. intros Hl. unfold validate_cur. ty. Qed.
#[local] Hint Resolve ty_validate_cur : typed.

Lemma ty_lock_loop (L : LockOps) {LT : LockTyped nb L} vld lfuel key h l fuel : lock_loc nb l -> forall N pc,
  ptr_loc nb N h -> match pc with Some (cur, _) => ptr N cur | None => True end ->
  typed nb any (ListLock.search_loop vld lfuel fuel key h l pc) N.
Proof.
  intros Hl. induction fuel as [|fuel IH]; intros N [[cur v]|] Hh Hc; cbn [ListLock.search_loop]; cbv zeta; try exact I;
    ty; by apply IH.
Qed.

Lemma ty_hp_loop self base key h fuel : 0 <= base -> base + 1 < 3 * MAX_THREAD -> forall N pc, ptr_loc nb N h ->
  match pc with TryAgain off => off = 0 \/ off = 1 | ListHp.Loop prev cur off => ptr_loc nb N prev /\ ptr N cur /\ (off = 0 \/ off = 1) end ->
  typed nb any (ListHp.search_loop fuel self base key h pc) N.
Proof.
  intros H0 H1. assert (Hs : forall N off, off = 0 \/ off = 1 -> loc_typed nb N (LHP (base + off))).
  { intros N off Ho. apply slot_typed. lia. }
  induction fuel as [|fuel IH]; intros N [off|prev cur off] Hh Hc; cbn [ListHp.search_loop]; cbv zeta; try exact I;
    unfold write_read_barrier.
  - ty; by apply IH.
  - destruct Hc as (Hp & Hc & Ho). pose proof (fun N => Hs N off Ho) as Hso. ty.
    apply IH; [done|]. erewrite ptr_clean by eassumption. split; [done|]. split; [done|]. destruct (off =? 0); tauto.
Qed.

End searches.

(** ** The driver *)

Class BuildTyped (nb : Z) (B : Build) : Prop := {
  bt_ops :: OpsTyped nb build_ops;
  bt_search self key h l N : int_range key -> ptr_loc nb N h -> lock_loc nb l ->
    typed nb any (Mrow.search self key h l) N;
  bt_register N : typed nb any thread_register N;
  bt_unregister N : typed nb any thread_unregister N }.

Section driver.
Context (nb nbkeys : Z) `{HB : Build} {BT : BuildTyped nb HB} (Hnb : 0 < nb < 2 ^ 31).

(** [get_buckets] returns cells of the two arrays. *)
Definition cells_typed (N : gset Z) (b : loc * loc) : Prop := ptr_loc nb N b.1 /\ lock_loc nb b.2.

Lemma ty_get_buckets key N : typed nb cells_typed (get_buckets nb key) N.
Proof.
  unfold get_buckets. rewrite (proj2 (Z.eqb_neq nb 0)) by lia. cbn [typed].
  pose proof (Z.mod_pos_bound (u64 key) nb ltac:(lia)). unfold cells_typed, bucket_of, ptr_loc, lock_loc.
  cbn [fst snd]. rewrite i32_small by lia. lia.
Qed.

Lemma ty_random_key self N : typed nb (fun _ => int_range) (random_key nbkeys self) N.
Proof.
  unfold random_key, myrand. eapply (typed_bind _ any).
  - ty.
  - intros N' r _ _. destruct (nbkeys =? 0); [exact I|]. apply i32_range.
Qed.

Lemma ty_add_tls self x d N : (forall v, val_typed N (LTls self x) v) -> typed nb any (add_tls self x d) N.
Proof.
  intros Hx. unfold add_tls. eapply typed_bind; [by apply ty_load|]. intros N' v HN _.
  apply ty_store; [done|]. eapply val_typed_mono; [exact HN|apply Hx].
Qed.

#[local] Hint Extern 1 (typed _ _ (add_tls _ _ _) _) => (apply ty_add_tls; intros; exact I) : typed.
#[local] Hint Resolve bt_search ot_insert ot_delete bt_register bt_unregister : typed.
#[local] Hint Extern 0 (OpsTyped _ _) => (apply _) : typed.

Lemma ty_run_loop loops fuel self iamreader : forall N i, typed nb any (run_loop nb nbkeys loops fuel self iamreader i) N.
Proof.
  induction loops as [|loops IH]; intros N i; cbn [run_loop]; cbv zeta; [exact I|].
  eapply typed_bind; [apply ty_random_key|]. intros N1 key _ Hk. cbv beta in Hk.
  eapply typed_bind; [apply ty_get_buckets|]. intros N2 b _ [Hb Hl]. ty.
Qed.

Lemma ty_run_init nbupdaters now pre fuel t N : 0 <= t < MAX_THREAD ->
  typed nb any (run_init nbupdaters now pre fuel t) N.
Proof. intros Ht. unfold run_init, mysrand. ty. Qed.

Lemma ty_wait_go fuel : forall N, typed nb any (wait_go fuel) N.
Proof. induction fuel as [|fuel IH]; intros N; cbn [wait_go]; unfold memory_barrier; ty. Qed.

Lemma ty_wait_ready n fuel : forall N, typed nb any (wait_ready fuel n) N.
Proof. induction fuel as [|fuel IH]; intros N; cbn [wait_ready]; unfold memory_barrier; ty. Qed.
#[local] Hint Resolve ty_run_loop ty_run_init ty_wait_go ty_wait_ready : typed.

Lemma ty_run_thread nbupdaters now pre loops fuel t N : 0 <= t < MAX_THREAD ->
  typed nb any (run_thread nb nbkeys nbupdaters now pre loops fuel t) N.
Proof. intros Ht. unfold run_thread, run_barrier. ty. Qed.

Lemma ty_join_loop join nbupdaters n : (forall i, quiet (join i)) -> forall N, typed nb any (join_loop join nbupdaters n) N.
Proof.
  intros Hj. pose proof (fun i => ty_quiet nb _ (Hj i)) as Tj.
  induction n as [|n IH]; intros N; cbn [join_loop]; cbv zeta; unfold memory_barrier; ty.
Qed.

Lemma ty_test_rest join nbthreads nbupdaters fuel N : (forall i, quiet (join i)) ->
  typed nb any (test_rest join nbthreads nbupdaters fuel) N.
Proof. intros Hj. pose proof ty_join_loop as Tj. unfold test_rest, memory_barrier. ty. Qed.

(** [hash_init] after the allocation of the arrays, and the allocator. *)
Context (Hlk : forall l N, lock_loc nb l -> typed nb any (Mrow.lock_init l) N).

Lemma ty_int_succ i N : int_range i -> typed nb (fun _ => int_range) (int_succ i) N.
Proof. intros Hi. unfold int_succ. destruct (Z.ltb_spec i (2 ^ 31 - 1)); [|exact I]. cbn [typed]. unfold int_range in *. lia. Qed.

Lemma ty_lock_init_loop n : forall i N, 0 <= i -> i + Z.of_nat n <= nb -> typed nb any (lock_init_loop n i) N.
Proof.
  induction n as [|n IH]; intros i N H0 Hi; cbn [lock_init_loop]; [exact I|].
  eapply (typed_bind _ any); [apply Hlk; cbn; lia|]. intros N1 _ _ _. unfold int_succ.
  destruct (Z.ltb_spec i (2 ^ 31 - 1)); [|exact I]. cbn [mbind prog_bind]. apply IH; lia.
Qed.

Lemma ty_populate fuel self n : forall i N, int_range i -> typed nb any (populate nb n fuel self i) N.
Proof.
  induction n as [|n IH]; intros i N Hi; cbn [populate]; [exact I|].
  eapply typed_bind; [apply ty_get_buckets|]. intros N1 b _ [Hb Hl].
  eapply typed_bind; [by apply ot_insert|]. intros N2 r _ _.
  eapply typed_bind; [by apply ty_int_succ|]. intros N3 i' _ Hi'. by apply IH.
Qed.

Lemma ty_insert_key fuel self key k N : int_range key ->
  typed nb any (b ← get_buckets nb k; _ ← op_insert fuel self key b.1 b.2; Ret tt) N.
Proof.
  intros Hk. eapply typed_bind; [apply ty_get_buckets|]. intros N1 b _ [Hb Hl].
  eapply typed_bind; [by apply ot_insert|]. done.
Qed.

Lemma ty_init_allocator pre fuel self N : typed nb any (init_allocator pre fuel self) N.
Proof. unfold init_allocator. ty. Qed.

End driver.
