(* ===== verification/GecosSeq.v ===== *)
(** * A search alone

    Without concurrent updates the searches terminate: with fuel for the
    list they return the abstract answer at the first attempt and leave the
    store unchanged. *)
From S2P Require Import Prelude Mem Concrete RG SWP Table TableFacts Allocator ListOps ListWriter AllocState ListGecos GecosWriter ListSgecos Lock ListLock LockWriter ListRcu Util Mrow Hashtable Driver Pool Builds.

Section seq.
Context `{HC : Calloc} (self key : Z).

(** A sorted list of nodes at rest, from the node [hd0 xs] on. *)
Record rest_list (m : mem) (xs : list Z) : Prop := {
  rl_node x : x ∈ xs -> node m x;
  rl_tail : tail_path LNext m xs;
  rl_incr : incr (keys m xs) }.

Lemma rest_list_cons m x xs : rest_list m (x :: xs) ->
  rest_list m xs /\ node m x /\ mget m (LNext x) = Some (hd0 xs) /\
  (forall y, y ∈ xs -> nkey m x < nkey m y).
Proof.
  intros [Hn Ht Hi]. unfold keys in Hi. simpl in Hi. apply incr_cons in Hi as [Hi Hlt].
  simpl in Ht. destruct Ht as [_ Ht]. pose proof (path_hd _ _ _ _ Ht) as Hh.
  apply path_alt in Ht as [_ Ht].
  split; [split; [intros y Hy; apply Hn; set_solver|done|done]|].
  split; [apply Hn; set_solver|]. split; [done|]. intros y Hy. apply Hlt, list_elem_of_fmap. eauto.
Qed.

(** The answer at the first node. *)
Lemma rest_answer m x xs : rest_list m (x :: xs) ->
  (key <= nkey m x -> found (nkey m x) key = spec_search key (kset m (x :: xs))) /\
  (nkey m x < key -> spec_search key (kset m (x :: xs)) = spec_search key (kset m xs)).
Proof.
  intros Hr. destruct (rest_list_cons _ _ _ Hr) as (_ & _ & _ & Hlt). rewrite kset_cons.
  unfold found, spec_search. split.
  - intros Hk. destruct (Z.eqb_spec (nkey m x) key) as [Heq|Hne].
    + rewrite decide_True by set_solver. done.
    + rewrite decide_False; [done|]. rewrite elem_of_union, elem_of_singleton, elem_of_kset.
      intros [?|(y & Hy & ->)]; [congruence|]. apply Hlt in Hy. lia.
  - intros Hk. assert (key ∈ {[nkey m x]} ∪ kset m xs <-> key ∈ kset m xs) as Heq.
    { rewrite elem_of_union, elem_of_singleton. split; [intros [->|?]; [lia|done]|tauto]. }
    destruct (decide (key ∈ kset m xs)) as [Hin|Hin].
    + rewrite !decide_True; tauto.
    + rewrite !decide_False; tauto.
Qed.

Lemma rest_gc m xs : (forall x, x ∈ xs -> node m x) -> hd0 xs <> NULL ->
  exists v, mget m (LGc (hd0 xs)) = Some v.
Proof.
  intros Hn Hx. destruct xs as [|x xs]; [done|]. apply node_mget; [apply Hn; set_solver|set_solver].
Qed.

Lemma run_read_gc {A} m xs ng (k : option Z -> prog A) : (forall x, x ∈ xs -> node m x) ->
  exists ng', run (read_gc (hd0 xs) ng ≫= k) m = run (k ng') m /\
    (hd0 xs <> NULL -> ng' = mget m (LGc (hd0 xs))).
Proof.
  intros Hn. unfold read_gc. destruct (Z.eqb_spec (hd0 xs) NULL) as [Hz|Hz].
  - exists ng. split; [done|]. by intros [].
  - destruct (rest_gc m xs Hn Hz) as [v Hv]. exists (Some v). split; [|by rewrite Hv]. cbn. by rewrite Hv.
Qed.

(** The checks of one iteration all pass. *)
Lemma run_iteration m x xs ng (KM KG : option Z -> prog Z) (KN : Z -> option Z -> prog Z) :
  rest_list m (x :: xs) ->
  exists ng', (hd0 xs <> NULL -> ng' = mget m (LGc (hd0 xs))) /\
  run (next ← load (LNext x);
       ng ← read_gc next ng;
       compiler_barrier;;
       next2 ← load (LNext x);
       if negb (next =? next2) then KM ng else
       gc2 ← load (LGc x);
       use (mget m (LGc x)) (fun gc1 =>
       if negb (gc1 =? gc2) then KG ng
       else if key <=? nkey m x then Ret (found (nkey m x) key) else KN next ng)) m =
  if key <=? nkey m x then Ok (spec_search key (kset m (x :: xs))) m else run (KN (hd0 xs) ng') m.
Proof.
  intros Hr. destruct (rest_list_cons _ _ _ Hr) as (Hr' & Hx & Hnx & _).
  destruct (node_mget m x LGc Hx ltac:(set_solver)) as [v Hv].
  rewrite (run_load _ _ _ _ Hnx).
  match goal with |- exists ng', _ /\ run (read_gc _ _ ≫= ?k) m = _ =>
    destruct (run_read_gc m xs ng k (rl_node _ _ Hr')) as (ng' & -> & Hng) end.
  exists ng'. split; [done|]. unfold compiler_barrier. rewrite run_fence, (run_load _ _ _ _ Hnx), Z.eqb_refl. cbn [negb].
  rewrite (run_load _ _ _ _ Hv), Hv. cbn [use]. rewrite Z.eqb_refl. cbn [negb].
  destruct (Z.leb_spec key (nkey m x)) as [Hle|Hgt]; [|done]. simpl. f_equal. by apply (rest_answer m x xs Hr).
Qed.

Lemma loop_answer m x xs r : rest_list m (x :: xs) ->
  (nkey m x < key -> r = Ok (spec_search key (kset m xs)) m) ->
  (if key <=? nkey m x then Ok (spec_search key (kset m (x :: xs))) m else r) =
  Ok (spec_search key (kset m (x :: xs))) m.
Proof.
  intros Hr H. destruct (Z.leb_spec key (nkey m x)) as [|Hgt]; [done|].
  rewrite H by done. f_equal. symmetry. by apply (rest_answer m x xs Hr).
Qed.

Lemma search_loop_run head m xs : forall fuel ng gc, rest_list m xs -> (length xs < fuel)%nat ->
  (hd0 xs <> NULL -> gc = mget m (LGc (hd0 xs))) ->
  run (ListGecos.search_loop fuel self key head (Loop (hd0 xs) gc) ng) m = Ok (spec_search key (kset m xs)) m.
Proof.
  induction xs as [|x xs IH]; intros [|fuel] ng gc Hr Hf Hgc; simpl in Hf; try lia; [done|].
  destruct (rest_list_cons _ _ _ Hr) as (Hr' & Hx & Hnx & _). cbn [ListGecos.search_loop hd0] in *.
  rewrite (proj2 (Z.eqb_neq x NULL)) by (by eapply node_nonnull).
  rewrite (run_load _ _ _ _ (mget_lookup _ _ _ (node_key _ _ Hx))), Hgc by (by eapply node_nonnull).
  destruct (run_iteration m x xs ng (fun ng => incr_tls self Vnbretry;; ListGecos.search_loop fuel self key head Retry ng)
    (fun ng => incr_tls self Vnbretry;; ListGecos.search_loop fuel self key head Retry ng)
    (fun next ng => ListGecos.search_loop fuel self key head (Loop next ng) ng) Hr) as (ng' & Hng & Hrun).
  rewrite Hrun. apply loop_answer; [done|]. intros _. apply IH; [done|lia|done].
Qed.

Lemma relinking_loop_run head m xs : forall fuel ng gc, rest_list m xs -> (2 * length xs < fuel)%nat ->
  (hd0 xs <> NULL -> gc = mget m (LGc (hd0 xs))) ->
  run (Relinking.search_loop fuel self key head (Loop (hd0 xs) gc) ng) m = Ok (spec_search key (kset m xs)) m.
Proof.
  induction xs as [|x xs IH]; intros [|[|fuel]] ng gc Hr Hf Hgc; simpl in Hf; try lia; [done..|].
  destruct (rest_list_cons _ _ _ Hr) as (Hr' & Hx & Hnx & _). cbn [Relinking.search_loop hd0] in *.
  rewrite (proj2 (Z.eqb_neq x NULL)) by (by eapply node_nonnull).
  rewrite (run_load _ _ _ _ (mget_lookup _ _ _ (node_key _ _ Hx))), Hgc by (by eapply node_nonnull).
  destruct (run_iteration m x xs ng
    (fun ng => incr_tls self Vnbrelink;;
       Relinking.search_loop fuel self key head (Relink x (mget m (LGc x)) (nkey m x)) ng)
    (fun ng => incr_tls self Vnbretry;; Relinking.search_loop fuel self key head Retry ng)
    (fun next ng => Relinking.search_loop fuel self key head (Loop next ng) ng) Hr) as (ng' & Hng & Hrun).
  rewrite Hrun. apply loop_answer; [done|]. intros _. apply IH; [done|lia|done].
Qed.

Lemma back_loop_run head m xs : forall fuel ng gc prev prev_gc, rest_list m xs -> (2 * length xs < fuel)%nat ->
  (hd0 xs <> NULL -> gc = mget m (LGc (hd0 xs))) ->
  run (Back.search_loop fuel self key head (Loop (hd0 xs) gc) ng prev prev_gc) m = Ok (spec_search key (kset m xs)) m.
Proof.
  induction xs as [|x xs IH]; intros [|[|fuel]] ng gc prev prev_gc Hr Hf Hgc; simpl in Hf; try lia; [done..|].
  destruct (rest_list_cons _ _ _ Hr) as (Hr' & Hx & Hnx & _). cbn [Back.search_loop hd0] in *.
  rewrite (proj2 (Z.eqb_neq x NULL)) by (by eapply node_nonnull).
  rewrite (run_load _ _ _ _ (mget_lookup _ _ _ (node_key _ _ Hx))), Hgc by (by eapply node_nonnull).
  edestruct (run_iteration m x xs ng) as (ng' & Hng & Hrun); [exact Hr|].
  etrans; [apply Hrun|]. apply loop_answer; [done|]. intros _. apply IH; [done|lia|done].
Qed.

(** The first attempt succeeds. *)
Lemma start_search_run head m xs (continue : label -> prog Z) b :
  path LNext m head xs -> rest_list m xs ->
  (hd0 xs <> NULL -> run (continue (Loop (hd0 xs) (mget m (LGc (hd0 xs))))) m = Ok b m) ->
  (hd0 xs = NULL -> b = 0) ->
  run (start_search head continue) m = Ok b m.
Proof.
  intros Hp Hr Hc H0. unfold start_search. pose proof (path_hd _ _ _ _ Hp) as Hh.
  rewrite (run_load _ _ _ _ Hh). destruct (Z.eqb_spec (hd0 xs) NULL) as [Hz|Hz].
  { by rewrite H0. }
  destruct (rest_gc m xs (rl_node _ _ Hr) Hz) as [v Hv]. rewrite (run_load _ _ _ _ Hv).
  unfold compiler_barrier. rewrite run_fence, (run_load _ _ _ _ Hh), Z.eqb_refl. cbn [negb].
  rewrite <- Hv. by apply Hc.
Qed.

(** SGECOS: the lock keeps its value. *)
Lemma sgecos_loop_run head lock l0 m xs : mget m lock = Some l0 ->
  forall fuel, rest_list m xs -> (length xs < fuel)%nat ->
  run (ListSgecos.search_loop fuel self key head lock (SLoop (hd0 xs) (u64 l0))) m =
  Ok (spec_search key (kset m xs)) m.
Proof.
  intros Hl. induction xs as [|x xs IH]; intros [|fuel] Hr Hf; simpl in Hf; try lia; [done|].
  destruct (rest_list_cons _ _ _ Hr) as (Hr' & Hx & Hnx & _). cbn [ListSgecos.search_loop hd0].
  rewrite (proj2 (Z.eqb_neq x NULL)) by (by eapply node_nonnull).
  rewrite (run_load _ _ _ _ (mget_lookup _ _ _ (node_key _ _ Hx))), (run_load _ _ _ _ Hnx).
  unfold compiler_barrier. rewrite run_fence, (run_load _ _ _ _ Hl), Z.eqb_refl. cbn [negb].
  rewrite run_fence. pose proof (loop_answer m x xs (Ok (spec_search key (kset m xs)) m) Hr ltac:(done)) as Ha.
  destruct (Z.leb_spec key (nkey m x)) as [Hle|Hlt].
  - cbn [run]. f_equal. by apply (rest_answer m x xs Hr).
  - rewrite <- Ha. apply IH; [done|lia].
Qed.

(** list_lock.c: the reader gets the lock, and the checks pass. *)
Definition lock_passes (L : LockOps) (lfuel : nat) (lock : loc) (m : mem) (lv : Z) : Prop :=
  run (Lock.lock_rlock lfuel lock) m = Ok lv m /\
  run (Lock.lock_runlock lock lv) m = Ok true m /\ run (Lock.lock_validate lock lv) m = Ok true m.

Lemma lock_loop_run L vld lfuel head lock lv m xs : lock_passes L lfuel lock m lv ->
  forall fuel, rest_list m xs -> (length xs < fuel)%nat ->
  run (@ListLock.search_loop L vld lfuel fuel key head lock (Some (hd0 xs, lv))) m =
  Ok (spec_search key (kset m xs)) m.
Proof.
  intros (_ & Hu & Hv). induction xs as [|x xs IH]; intros [|fuel] Hr Hf; simpl in Hf; try lia;
    cbn [ListLock.search_loop hd0].
  { by rewrite Z.eqb_refl, run_bind, Hu. }
  destruct (rest_list_cons _ _ _ Hr) as (Hr' & Hx & Hnx & _).
  rewrite (proj2 (Z.eqb_neq x NULL)) by (by eapply node_nonnull). rewrite run_bind, Hv. cbn [negb].
  rewrite (run_load _ _ _ _ (mget_lookup _ _ _ (node_key _ _ Hx))).
  pose proof (loop_answer m x xs (Ok (spec_search key (kset m xs)) m) Hr ltac:(done)) as Ha.
  destruct (Z.leb_spec key (nkey m x)) as [Hle|Hlt].
  - rewrite run_bind, Hu. cbn [run]. f_equal. by apply (rest_answer m x xs Hr).
  - rewrite <- Ha, (run_load _ _ _ _ Hnx), run_bind. unfold validate_cur.
    destruct vld; rewrite ?Hu; cbn [run]; (apply IH; [done|lia]).
Qed.

Lemma lock_search_run L vld lfuel fuel i lock lv m xs : lock_passes L lfuel lock m lv ->
  path LNext m (LHead i) xs -> rest_list m xs -> (length xs + 1 < fuel)%nat ->
  run (@ListLock.search L vld lfuel fuel self key (LHead i) lock) m = Ok (spec_search key (kset m xs)) m.
Proof.
  intros Hl Hp Hr Hf. destruct fuel as [|fuel]; [lia|]. unfold ListLock.search. cbn [ListLock.search_loop].
  rewrite run_bind, (proj1 Hl), (run_load _ _ _ _ (path_hd _ _ _ _ Hp)). apply lock_loop_run; [done|done|lia].
Qed.

(** The lock is free when no update is under way. *)
Lemma seq_passes ow nw fuel lock m l0 : mget m lock = Some l0 -> odd_lock false l0 ->
  lock_passes (Seq.ops ow nw) (S fuel) lock m (i64 l0).
Proof.
  intros Hl [_ Ho]. assert (Hu : run (Seq.lock_runlock lock (i64 l0)) m = Ok true m).
  { unfold Seq.lock_runlock, read_read_barrier, compiler_barrier.
    rewrite run_fence, (run_load _ _ _ _ Hl), Z.eqb_refl. done. }
  split; [|done]. cbn [Lock.lock_rlock Seq.ops]. unfold Seq.lock_rlock. cbn [Seq.rlock_loop].
  unfold read_read_barrier, compiler_barrier. rewrite run_bind, (run_load _ _ _ _ Hl), run_fence, odd_i64, Ho. done.
Qed.

Lemma gc_passes ow nw fuel lock m l0 : mget m lock = Some l0 ->
  lock_passes (Gc.ops ow nw) fuel lock m (if ow then i64 l0 else i64 (Z.shiftr l0 1)).
Proof.
  intros Hl. unfold lock_passes. cbn [Lock.lock_rlock Lock.lock_runlock Lock.lock_validate Gc.ops].
  destruct ow; unfold Gc.lock_rlock, Gc.lock_runlock, Gc.lock_rlock_mw, Gc.lock_runlock_mw, read_read_barrier, compiler_barrier;
    rewrite ?run_fence, ?(run_load _ _ _ _ Hl), ?run_fence, ?Z.eqb_refl; done.
Qed.

(** list_rcu.c. *)
Section rcu.
Context `{HL : RcuLib} {HO : RcuLibOk}.

Lemma run_quiet_bind {A B} (p : prog A) (k : A -> prog B) m o : quiet p ->
  (forall a, run (k a) m = o) -> run (p ≫= k) m = o.
Proof. intros Hq Hk. destruct (run_quiet p m Hq) as [a Ha]. by rewrite run_bind, Ha. Qed.

Lemma run_deref {A} l v (k : Z -> prog A) m : mget m l = Some v -> run (rcu_dereference l ≫= k) m = run (k v) m.
Proof.
  intros Hl. destruct (dereference_load l) as (before & after & Hb & Ha & ->). rewrite run_bind.
  rewrite (run_quiet_bind before _ m (Ok v m)); [done|done|]. intros _. rewrite (run_load _ _ _ _ Hl).
  by apply run_quiet_bind.
Qed.

Lemma rcu_loop_run m xs : forall fuel, rest_list m xs -> (length xs < fuel)%nat ->
  run (ListRcu.search_loop fuel key (hd0 xs)) m = Ok (spec_search key (kset m xs)) m.
Proof.
  induction xs as [|x xs IH]; intros [|fuel] Hr Hf; simpl in Hf; try lia; cbn [ListRcu.search_loop hd0].
  { apply run_quiet_bind; [apply read_unlock_quiet|done]. }
  destruct (rest_list_cons _ _ _ Hr) as (Hr' & Hx & Hnx & _).
  rewrite (proj2 (Z.eqb_neq x NULL)) by (by eapply node_nonnull).
  rewrite (run_load _ _ _ _ (mget_lookup _ _ _ (node_key _ _ Hx))).
  destruct (rest_answer m x xs Hr) as [Hle Hgt]. destruct (Z.leb_spec key (nkey m x)) as [H|H].
  - apply run_quiet_bind; [apply read_unlock_quiet|]. intros _. cbn [run]. f_equal. by apply Hle.
  - rewrite (run_deref _ _ _ _ Hnx), Hgt by done. apply IH; [done|lia].
Qed.

Lemma rcu_search_run fuel i lock m xs : path LNext m (LHead i) xs -> rest_list m xs -> (length xs < fuel)%nat ->
  run (ListRcu.search fuel self key (LHead i) lock) m = Ok (spec_search key (kset m xs)) m.
Proof.
  intros Hp Hr Hf. unfold ListRcu.search. apply run_quiet_bind; [apply read_lock_quiet|]. intros _.
  rewrite (run_deref _ _ _ _ (path_hd _ _ _ _ Hp)). by apply rcu_loop_run.
Qed.

End rcu.

Lemma variant_search_run v fuel i lock l0 m xs : path LNext m (LHead i) xs -> rest_list m xs ->
  mget m lock = Some l0 -> variant_lock v false l0 ->
  (2 * length xs + 1 < fuel)%nat ->
  run (variant_search v fuel self key (LHead i) lock) m = Ok (spec_search key (kset m xs)) m.
Proof.
  intros Hp Hr Hl Hlock Hf. destruct fuel as [|fuel]; [lia|].
  assert (H0 : hd0 xs = NULL -> spec_search key (kset m xs) = 0).
  { destruct xs as [|x xs]; [done|]. simpl. intros ->. exfalso.
    apply (node_nonnull m NULL); [apply (rl_node _ _ Hr); set_solver|done]. }
  destruct v as [| | | |ow nw vld|ow nw vld|blc atm lib]; cbn [variant_search].
  - apply (start_search_run _ _ xs); [done|done| |done]. intros _. apply search_loop_run; [done|lia|done].
  - apply (start_search_run _ _ xs); [done|done| |done]. intros _. apply relinking_loop_run; [done|lia|done].
  - apply (start_search_run _ _ xs); [done|done| |done]. intros _. apply back_loop_run; [done|lia|done].
  - unfold ListSgecos.search. cbn [ListSgecos.search_loop]. unfold compiler_barrier.
    rewrite (run_load _ _ _ _ Hl), run_fence, (run_load _ _ _ _ (path_hd _ _ _ _ Hp)).
    apply sgecos_loop_run; [done|done|lia].
  - eapply lock_search_run; [by apply seq_passes|done|done|lia].
  - eapply lock_search_run; [by apply gc_passes|done|done|lia].
  - apply (rcu_search_run (HO := rl_ok lib)); [done|done|lia].
Qed.

End seq.

Lemma spec_search_bucket nb k S :
  spec_search k (bucket_set nb (bucket_of nb k) S) = spec_search k S.
Proof.
  unfold spec_search. assert (Hk : k ∈ bucket_set nb (bucket_of nb k) S <-> k ∈ S).
  { unfold bucket_set. rewrite elem_of_filter. naive_solver. }
  destruct (decide (k ∈ S)); [rewrite decide_True; tauto|rewrite decide_False; tauto].
Qed.

(** ** The table at rest *)

(** Every bucket is at rest and holds its part of [S]. *)
Definition at_rest (v : variant) (nb : Z) (m : mem) (S : gset Z) : Prop :=
  forall i, 0 <= i < nb -> exists xs l0, path LNext m (LHead i) xs /\ rest_list m xs /\
    kset m xs = bucket_set nb i S /\ (length xs <= size S)%nat /\
    mget m (LLock i) = Some l0 /\ variant_lock v false l0.

Lemma hash_ok_at_rest v w d nb m g S : hash_ok (variant_state v w d) nb m g S -> at_rest v nb m S.
Proof.
  intros Hok i Hi. destruct (hash_ok_bucket _ _ _ _ _ _ Hok Hi) as (xs & Hxs & Hk).
  pose proof (hash_ok_length _ _ _ _ _ _ _ Hok Hi Hxs) as Hlen.
  destruct Hok as [(HI & _ & U & (_ & _ & Hlk) & _) _].
  destruct (inv_head _ _ HI _ _ Hxs) as [_ [l0 Hl]]. exists xs, l0.
  split_and!; [by eapply inv_path| |done|done|by apply mget_lookup|exact (Hlk i l0 Hl)].
  split; [intros x; by eapply inv_node| |by eapply inv_incr]. eapply path_alt, inv_path; [done|exact Hxs].
Qed.

Lemma at_rest_search `{HC : Calloc} v nb m S fuel self k : nb_ok nb -> at_rest v nb m S ->
  (2 * size S + 1 < fuel)%nat ->
  run (variant_search v fuel self k (LHead (bucket_of nb k)) (LLock (bucket_of nb k))) m = Ok (spec_search k S) m.
Proof.
  intros Hnb Hr Hf. destruct (Hr _ (bucket_of_range nb k Hnb)) as (xs & l0 & Hp & Hrest & Hk & Hlen & Hl & Hlock).
  rewrite (variant_search_run self k v fuel _ _ l0 m xs) by (done || lia). by rewrite Hk, spec_search_bucket.
Qed.

(** C20: A sequence of searches run alone gives the answers of the set and changes
    nothing. *)
Theorem searches_alone `{HC : Calloc} v sp w d nb m g S fuel self ks :
  nb_ok nb -> hash_ok (variant_state v w d) nb m g S -> (2 * size S + 1 < fuel)%nat ->
  run (do_searches (H := variant_build v sp fuel) nb self ks) m = Ok ((fun k => spec_search k S) <$> ks) m.
Proof.
  intros Hnb Hok Hf. apply hash_ok_at_rest in Hok. induction ks as [|k ks IH]; [done|]. cbn [do_searches].
  rewrite get_buckets_eq by done. cbn [mbind prog_bind fst snd Mrow.search variant_build].
  by rewrite run_bind, (at_rest_search v nb m S), run_bind, IH.
Qed.

Lemma small_sizes : sizes_ok 2 5 9.
Proof. split; [lia|lia|]. change (Z.to_nat 5) with 5%nat. lia. Qed.

Lemma searches_alone_witness : exists m,
  run (do_searches (H := variant_build (Rcu true true fences) spin_init_zero 20) 2 1 [3; 7]) m = Ok ((fun k => spec_search k (key_range 5)) <$> [3; 7]) m.
Proof.
  destruct (start_store_ok (Rcu true true fences) 2 5 8 small_sizes) as (_ & g0 & Hok).
  exists (start_store (variant_build (Rcu true true fences) spin_init_zero 9) 2 5 9).
  apply (searches_alone (Rcu true true fences) spin_init_zero 0 (fun _ => 0) 2 _ g0 (key_range 5) 20 1 [3; 7]).
  - split; [done|]. lia.
  - exact Hok.
  - vm_compute. lia.
Defined.

(** ** A reader's whole loop, alone *)

(** The number of keys found by [n] draws from [seed]. *)
Fixpoint spec_hits (nbkeys : Z) (n : nat) (seed : Z) (S : gset Z) : Z :=
  match n with
  | O => 0
  | S n => spec_search (lcg_out (lcg seed) mod nbkeys) S + spec_hits nbkeys n (lcg seed) S
  end.

Lemma at_rest_tls w nb m S t x v : at_rest w nb m S -> at_rest w nb (<[LTls t x := v]> m) S.
Proof.
  intros Hr i Hi. destruct (Hr i Hi) as (xs & l0 & Hp & [Hn Ht Hin] & Hk & Hlen & Hl & Hlock). exists xs, l0.
  assert (Hkey : forall ys, keys (<[LTls t x := v]> m) ys = keys m ys).
  { intros ys. apply nkey_ext. intros y _. unfold nkey. by rewrite lookup_insert_ne. }
  split_and!; [|split|by unfold kset; rewrite Hkey|done|by rewrite mget_insert_ne|done].
  - eapply path_agree; [|done]. intros l [->|(y & _ & ->)]; by apply mget_insert_ne.
  - intros y Hy. by apply node_insert, Hn.
  - eapply tail_path_agree; [|done]. intros y _. by apply mget_insert_ne.
  - by rewrite Hkey.
Qed.

(** One iteration of the reader. *)
Lemma reader_iter_run `{HC : Calloc} v sp nb nbkeys fuel self m S seed sea (K' : prog Z) :
  nb_ok nb -> 0 < nbkeys -> at_rest v nb m S -> (2 * size S + 1 < fuel)%nat ->
  mget m (LTls self Vthd_seed) = Some seed -> mget m (LTls self Vthd_sea) = Some sea ->
  exists m', run (key ← random_key nbkeys self;
       b ← get_buckets nb key;
       r ← Mrow.search (Build := variant_build v sp fuel) self key b.1 b.2;
       add_tls self Vthd_sea r;;
       K') m = run K' m' /\ at_rest v nb m' S /\
    mget m' (LTls self Vthd_seed) = Some (lcg seed) /\
    mget m' (LTls self Vthd_sea) = Some (sea + spec_search (lcg_out (lcg seed) mod nbkeys) S).
Proof.
  intros Hnb Hk Hr Hf Hseed Hsea. rewrite run_bind. unfold random_key, myrand. rewrite run_bind.
  rewrite (run_load _ _ _ _ Hseed), run_store by eauto.
  rewrite (run_load _ _ _ _ (mget_insert _ _ _)). cbn [run].
  rewrite (proj2 (Z.eqb_neq nbkeys 0)) by lia. cbn [run]. rewrite key_of_random by done.
  rewrite get_buckets_eq by done. cbn [mbind prog_bind fst snd Mrow.search variant_build].
  set (m1 := <[LTls self Vthd_seed := lcg seed]> m).
  assert (Hr1 : at_rest v nb m1 S) by (by apply at_rest_tls).
  set (key := lcg_out (lcg seed) mod nbkeys).
  rewrite run_bind, (at_rest_search v nb m1 S fuel self key Hnb Hr1 Hf).
  assert (Hsea1 : mget m1 (LTls self Vthd_sea) = Some sea) by (unfold m1; by mget_simpl).
  rewrite run_bind. unfold add_tls. rewrite (run_load _ _ _ _ Hsea1). cbn [run store do_op mbind prog_bind op_exec].
  rewrite Hsea1. cbn [mbind option_bind run]. eexists. split; [done|]. split_and!.
  - by apply at_rest_tls.
  - unfold m1. by mget_simpl.
  - by mget_simpl.
Qed.

Lemma reader_loop_run `{HC : Calloc} v sp nb nbkeys fuel self S : nb_ok nb -> 0 < nbkeys ->
  (2 * size S + 1 < fuel)%nat ->
  forall n i m seed sea, 0 <= i -> i + Z.of_nat n = NB_TEST -> at_rest v nb m S ->
  mget m (LTls self Vthd_seed) = Some seed -> mget m (LTls self Vthd_sea) = Some sea ->
  exists m', run (run_loop (H := variant_build v sp fuel) nb nbkeys (Datatypes.S n) fuel self true i) m = Ok NB_TEST m' /\
    at_rest v nb m' S /\ mget m' (LTls self Vthd_sea) = Some (sea + spec_hits nbkeys (Datatypes.S n) seed S).
Proof.
  intros Hnb Hk Hf. induction n as [|n IH]; intros i m seed sea Hi0 Hi Hr Hseed Hsea.
  - destruct (reader_iter_run v sp nb nbkeys fuel self m S seed sea
      (if NB_TEST <=? i then Ret i else
       if u64 (i + 1) =? 0 then Ret (u64 (i + 1))
       else run_loop (H := variant_build v sp fuel) nb nbkeys 0 fuel self true (u64 (i + 1)))
      Hnb Hk Hr Hf Hseed Hsea) as (m1 & Hrun & Hr1 & Hseed1 & Hsea1).
    exists m1. split; [|split; [done|cbn [spec_hits]; by rewrite Z.add_0_r]].
    etrans; [exact Hrun|]. rewrite (proj2 (Z.leb_le _ i)) by lia. cbn. f_equal. lia.
  - destruct (reader_iter_run v sp nb nbkeys fuel self m S seed sea
      (if NB_TEST <=? i then Ret i else
       if u64 (i + 1) =? 0 then Ret (u64 (i + 1))
       else run_loop (H := variant_build v sp fuel) nb nbkeys (Datatypes.S n) fuel self true (u64 (i + 1)))
      Hnb Hk Hr Hf Hseed Hsea) as (m1 & Hrun & Hr1 & Hseed1 & Hsea1).
    destruct (IH (i + 1) m1 _ _ ltac:(lia) ltac:(lia) Hr1 Hseed1 Hsea1) as (m2 & Hrun2 & Hr2 & Hsea2).
    exists m2. split; [|split; [done|]].
    + etrans; [exact Hrun|]. rewrite (proj2 (Z.leb_gt _ i)) by lia.
      unfold NB_TEST in Hi. rewrite u64_small by (unfold word64; lia).
      rewrite (proj2 (Z.eqb_neq (i + 1) 0)) by lia. exact Hrun2.
    + rewrite Hsea2. f_equal. cbn [spec_hits]. lia.
Qed.

(** C24: alone, a reader's loop ends after its [NB_TEST + 1] searches and
    has counted the keys that are in the table. *)
Theorem reader_alone `{HC : Calloc} v sp w d nb nbkeys fuel self m g S seed :
  nb_ok nb -> 0 < nbkeys -> (2 * size S + 1 < fuel)%nat -> hash_ok (variant_state v w d) nb m g S ->
  mget m (LTls self Vthd_seed) = Some seed -> mget m (LTls self Vthd_sea) = Some 0 ->
  let n := Z.to_nat (NB_TEST + 1) in
  exists m', run (run_loop (H := variant_build v sp fuel) nb nbkeys n fuel self true 0) m = Ok NB_TEST m' /\
    mget m' (LTls self Vthd_sea) = Some (spec_hits nbkeys n seed S).
Proof.
  intros Hnb Hk Hf Hok Hseed Hsea n. apply hash_ok_at_rest in Hok.
  destruct (reader_loop_run v sp nb nbkeys fuel self S Hnb Hk Hf (Z.to_nat NB_TEST) 0 m seed 0
    ltac:(lia) ltac:(rewrite Z2Nat.id; unfold NB_TEST; lia) Hok Hseed Hsea) as (m' & Hr & _ & Hs).
  assert (Hn : n = Datatypes.S (Z.to_nat NB_TEST)).
  { unfold n. rewrite Z.add_1_r. apply Z2Nat.inj_succ. unfold NB_TEST. lia. }
  rewrite Hn. rewrite Z.add_0_l in Hs. exists m'. split; [exact Hr|exact Hs].
Qed.

Lemma reader_alone_witness :
  let m := start_store (variant_build Plain spin_init_zero 9) 2 5 9 in
  exists m', run (run_loop (H := variant_build Plain spin_init_zero 20) 2 5 (Z.to_nat (NB_TEST + 1)) 20 1 true 0) m
    = Ok NB_TEST m' /\
    mget m' (LTls 1 Vthd_sea) = Some (spec_hits 5 (Z.to_nat (NB_TEST + 1)) 0 (key_range 5)).
Proof.
  intros m. destruct (start_store_ok Plain 2 5 8 small_sizes) as (_ & g0 & Hok).
  apply (reader_alone Plain spin_init_zero 0 (fun _ => 0) 2 5 20 1 m g0 (key_range 5) 0).
  - split; [done|]. lia.
  - lia.
  - vm_compute. lia.
  - exact Hok.
  - vm_compute. reflexivity.
  - vm_compute. reflexivity.
Defined.
