(* ===== verification/TableMain.v ===== *)
(** * The table as a whole

    Theorems about the driver's use of the table, for every implementation
    of the list operations that keeps the promises of [ListOpsSpec]: sequences of operations refine
    operations on one finite set, and a table is created, used and destroyed
    without losing a node in use. *)
From S2P Require Import Prelude Mem Concrete RG SWP Table TableFacts Frozen Allocator ListOps Stamp ListWriter AllocState ListGecos GecosWriter ListSgecos SgecosWriter Util Mrow Hashtable Driver Pool Builds GecosSeq.

(** A sequence of updates by one thread, with its results. *)
Fixpoint do_uops `{ListOps} (fuel : nat) (nb self : Z) (ops : list (uop * Z)) : prog (list Z) :=
  match ops with
  | [] => Ret []
  | (u, k) :: ops =>
      r ← do_uop self nb fuel u k;
      rs ← do_uops fuel nb self ops;
      Ret (r :: rs)
  end.

Fixpoint spec_uops (ops : list (uop * Z)) (S : gset Z) : list Z * gset Z :=
  match ops with
  | [] => ([], S)
  | (u, k) :: ops =>
      let r := spec_uop u k S in
      let rs := spec_uops ops r.2 in
      (r.1 :: rs.1, rs.2)
  end.

Section table.
Context `{HS : ListOps} (self : Z) (SG : mem -> gst -> mem -> gst -> Prop).
Context (own : option Z -> gset Z -> mem -> Prop) {SS : ListOpsSpec self SG own}.
Context `{HC : Calloc} {HT : CallocTotal}.

Lemma do_uop_run fuel nb u k m g S : nb_ok nb -> hash_ok own nb m g S -> (size S < fuel)%nat ->
  exists m' g', run (do_uop self nb fuel u k) m = Ok (spec_uop u k S).1 m' /\
    hash_ok own nb m' g' (spec_uop u k S).2 /\ (Eager SG -> old g' ⊆ old g).
Proof.
  intros Hnb Hok Hf.
  pose proof (do_uop_spec self SG own (fun _ => False) nb Hnb fuel u k m g S Hok Hf) as Hp.
  apply swp_run in Hp; [|by apply foreign_node_field]. destruct (run _ m) as [r m'|]; [|done].
  destruct Hp as (_ & g' & [-> Hok'] & Hst). exists m', g'. split_and!; [done|done|].
  intros HE. by apply (eager_rtc SG) in Hst.
Qed.

Lemma do_uops_run fuel nb ops : forall m g S, nb_ok nb -> hash_ok own nb m g S ->
  (size S + length ops <= fuel)%nat ->
  exists m' g', run (do_uops fuel nb self ops) m = Ok (spec_uops ops S).1 m' /\
    hash_ok own nb m' g' (spec_uops ops S).2 /\ (Eager SG -> old g' ⊆ old g).
Proof.
  induction ops as [|[u k] ops IH]; intros m g S Hnb Hok Hf; simpl in Hf; cbn [do_uops].
  { exists m, g. done. }
  destruct (do_uop_run fuel nb u k m g S Hnb Hok) as (m1 & g1 & Hr1 & Hok1 & Ho1); [lia|].
  pose proof (spec_uop_size u k S).
  destruct (IH m1 g1 _ Hnb Hok1) as (m2 & g2 & Hr2 & Hok2 & Ho2); [lia|].
  exists m2, g2. split; [by rewrite run_bind, Hr1, run_bind, Hr2|]. split; [done|].
  intros HE. etrans; [by apply Ho2|by apply Ho1].
Qed.

(** C12: the table refines a finite set, for every sequence of insertions
    and deletions. *)
Theorem table_refines_set fuel nb ops m g S : nb_ok nb -> hash_ok own nb m g S ->
  (size S + length ops <= fuel)%nat ->
  exists m', run (do_uops fuel nb self ops) m = Ok (spec_uops ops S).1 m' /\
    stores nb m' (spec_uops ops S).2.
Proof.
  intros Hnb Hok Hf. destruct (do_uops_run fuel nb ops m g S Hnb Hok Hf) as (m' & g' & Hr & Hok' & _).
  exists m'. split; [done|]. by eapply hash_ok_stores.
Qed.

End table.

(** The same in any logic that list_writer.c is proved in. *)
Section logic.
Context `{HS : Scheme} (J : judge) (permit : mem -> Z -> list Z -> Prop) (cap : nat) (self : Z).
Context (own : option Z -> gset Z -> mem -> Prop) {SS : SchemeJ J permit cap self own}.
Context (nb : Z) (Hnb : nb_ok nb) (fuel : nat).

Lemma uop_spec u k m g S : hash_ok own nb m g S -> (size S < fuel)%nat -> (size S < cap)%nat ->
  J _ (do_uop self nb fuel u k) (fun r m' g' => r = (spec_uop u k S).1 /\ hash_ok own nb m' g' (spec_uop u k S).2) m g.
Proof.
  intros Hok Hf Hc. destruct HS as [HIns ubf fnl]. unfold do_uop. rewrite get_buckets_eq by done. cbn [mbind prog_bind fst snd].
  pose proof (bucket_of_range nb k Hnb) as Hr. destruct (hash_ok_bucket _ _ _ _ _ _ Hok Hr) as (xs & Hxs & _).
  pose proof (hash_ok_length _ _ _ _ _ _ _ Hok Hr Hxs) as Hlen. pose proof (@sj_inserter _ _ _ _ _ _ SS) as SI. cbn in SI.
  eapply (wj_mono (J := J) _ (refines_op (spec_uop u) k (bucket_of nb k) own m g)).
  - destruct u; [apply (insert_spec J permit cap self own fuel k _ m g xs)
      |apply (delete_spec J permit cap self own ubf fnl fuel k _ m g xs)]; try done; try apply Hok; lia.
  - cbn beta. intros r m' g' Hrf. by apply (uop_refines own nb Hnb u k m g).
Qed.

Lemma uops_spec ops : forall m g S, hash_ok own nb m g S -> (size S + length ops <= fuel)%nat -> (size S + length ops <= cap)%nat ->
  J _ (do_uops fuel nb self ops)
    (fun rs m' g' => rs = (spec_uops ops S).1 /\ hash_ok own nb m' g' (spec_uops ops S).2) m g.
Proof.
  induction ops as [|[u k] ops IH]; intros m g S Hok Hf Hc; simpl in Hf, Hc; cbn [do_uops]; [by apply (wj_ret (J := J))|].
  apply (wj_bind (J := J)). eapply (wj_mono (J := J)); [apply (uop_spec u k m g S Hok); lia|].
  cbn beta. intros r m1 g1 [-> Hok1]. pose proof (spec_uop_size u k S). apply (wj_bind (J := J)).
  eapply (wj_mono (J := J)); [apply IH; [exact Hok1|lia..]|].
  cbn beta. intros rs m2 g2 [-> Hok2]. by apply (wj_ret (J := J)).
Qed.

End logic.

Lemma table_refines_set_witness :
  let m := start_store (variant_build Plain spin_init_zero 9) 2 5 9 in
  let ops := [(Del, 3); (Ins, 3); (Ins, 4)] in
  exists m', run (do_uops (H := variant_ops Plain 9) 20 2 0 ops) m = Ok (spec_uops ops (key_range 5)).1 m' /\
    stores 2 m' (spec_uops ops (key_range 5)).2.
Proof.
  intros m ops. destruct (start_store_ok Plain 2 5 8 small_sizes) as (_ & g0 & Hok).
  apply (table_refines_set (HS := variant_ops Plain 9) 0 (stamp_guar (H := variant_stamp Plain)) (variant_state Plain 0 (fun _ => 0))
    (SS := ds_ops (fun _ => 0)) 20 2 ops m g0 (key_range 5)).
  - split; [done|]. lia.
  - exact Hok.
  - vm_compute. lia.
Defined.

(** Updates on the keys below [nbkeys] keep the set there. *)
Lemma spec_uops_range n ops S : S ⊆ key_range n -> Forall (fun o => 0 <= o.2 < n) ops ->
  (spec_uops ops S).2 ⊆ key_range n.
Proof.
  revert S. induction ops as [|[u k] ops IH]; intros S HS Hops; [done|].
  apply Forall_cons in Hops as [Hk Hops]. cbn. apply IH; [|done].
  apply elem_of_key_range in Hk. destruct u; simpl in *; set_solver.
Qed.

Section life.
Context `{HB : Build} (self : Z) (SG : mem -> gst -> mem -> gst -> Prop).
Context (own : (tlsvar -> Z) -> option Z -> gset Z -> mem -> Prop).
Context {DS : DriverSpec self SG own} {IS : InitSpec own} {HE : Eager SG}.
Context `{HC : Calloc} {HT : CallocTotal}.

(** C13: the life of a table.  [hash_init] puts the keys [0 .. nbkeys-1],
    each once, in their buckets; the updates give the answers of the set;
    [hash_delete] frees the arrays and leaves no node in use. *)
Theorem table_life nb nbkeys fuel d m ops :
  sizes_ok nb nbkeys fuel -> (2 * Z.to_nat nbkeys + length ops < fuel)%nat ->
  Forall (fun o => 0 <= o.2 < nbkeys) ops -> heap_ok (own d) m ->
  exists m1 m2 m3,
    run (hash_init nb nbkeys true false fuel self) m = Ok tt m1 /\ stores nb m1 (key_range nbkeys) /\
    run (do_uops fuel nb self ops) m1 = Ok (spec_uops ops (key_range nbkeys)).1 m2 /\
    run (hash_delete nb nbkeys false fuel self) m2 = Ok tt m3 /\ heap_ok (own d) m3 /\
    (forall i, m3 !! LHead i = None) /\ (forall i, m3 !! LLock i = None).
Proof.
  intros [Hnb Hk Hf] Hf2 Hops Hh. assert (Hnb' : nb_ok nb) by (unfold nb_ok; lia).
  destruct (hash_init_spec self SG own nb nbkeys Hnb' ltac:(lia) ltac:(lia) fuel d m Hf Hh)
    as (m1 & g1 & Hr1 & Hok1 & Ho1 & _).
  destruct (do_uops_run self SG (own d) fuel nb ops m1 g1 _ Hnb' Hok1) as (m2 & g2 & Hr2 & Hok2 & Ho2).
  { rewrite size_key_range. lia. }
  pose proof (spec_uops_range nbkeys ops (key_range nbkeys) ltac:(done) Hops) as Hs.
  pose proof (subseteq_size _ _ Hs) as Hsz. rewrite size_key_range in Hsz.
  destruct (hash_delete_spec self SG own nb nbkeys Hnb' ltac:(lia) ltac:(lia) fuel d m2 g2
    (spec_uops ops (key_range nbkeys)).2
    ltac:(lia) Hok2 Hs HE ltac:(specialize (Ho1 HE); specialize (Ho2 HE); set_solver)) as (m3 & Hr3 & Hh3 & Hd1 & Hd2).
  exists m1, m2, m3. split_and!; [done|by eapply hash_ok_stores|done..].
Qed.

End life.

Lemma table_life_witness : let ops := [(Del, 3); (Ins, 3); (Ins, 4)] in exists m1 m2 m3,
  run (hash_init (H := variant_build Sigecos spin_init_zero 20) 2 5 true false 20 0) ∅ = Ok tt m1 /\
  stores 2 m1 (key_range 5) /\
  run (do_uops (H := variant_ops Sigecos 20) 20 2 0 ops) m1 = Ok (spec_uops ops (key_range 5)).1 m2 /\
  run (hash_delete (H := variant_build Sigecos spin_init_zero 20) 2 5 false 20 0) m2 = Ok tt m3 /\
  heap_ok (variant_state Sigecos 0 (fun _ => 0)) m3 /\
  (forall i, m3 !! LHead i = None) /\ (forall i, m3 !! LLock i = None).
Proof.
  intros ops. apply (table_life (HB := variant_build Sigecos spin_init_zero 20) 0
    (stamp_guar (H := variant_stamp Sigecos)) (variant_state Sigecos 0)
    (DS := variant_driver Sigecos 19 0) (IS := variant_init Sigecos spin_init_zero 20 0 spin_init_zero_ok)
    (HE := stamp_eager (H := variant_stamp Sigecos) eq_refl)
    2 5 20 (fun _ => 0) ∅ ops).
  - split; [lia|lia|]. change (Z.to_nat 5) with 5%nat. lia.
  - change (Z.to_nat 5) with 5%nat. simpl. lia.
  - repeat constructor; simpl; lia.
  - split; [done|]. by apply alloc_state_empty.
Defined.
