(* ===== verification/Session.v ===== *)
(** * Sessions

    One thread inserts, deletes and searches in any order.  Whatever the build,
    the answers are those of one finite set ([Agree] has the builds). *)
From S2P Require Import Prelude Mem Concrete RG SWP Table TableFacts Frozen Allocator ListOps Stamp ListWriter AllocState Util Mrow Hashtable Driver Pool Builds GecosSeq TableMain.

(** ** Commands *)

Inductive cmd := Upd (u : uop) (k : Z) | Sea (k : Z).

Definition do_cmd `{HB : Build} (fuel : nat) (nb self : Z) (c : cmd) : prog Z :=
  match c with
  | Upd u k => do_uop self nb fuel u k
  | Sea k => b ← get_buckets nb k; search self k b.1 b.2
  end.

Fixpoint do_session `{HB : Build} (fuel : nat) (nb self : Z) (cs : list cmd) : prog (list Z) :=
  match cs with
  | [] => Ret []
  | c :: cs =>
      r ← do_cmd fuel nb self c;
      rs ← do_session fuel nb self cs;
      Ret (r :: rs)
  end.

(** The reference: a set. *)
Definition spec_cmd (c : cmd) (S : gset Z) : Z * gset Z :=
  match c with
  | Upd u k => spec_uop u k S
  | Sea k => (spec_search k S, S)
  end.

Fixpoint spec_session (cs : list cmd) (S : gset Z) : list Z * gset Z :=
  match cs with
  | [] => ([], S)
  | c :: cs =>
      let r := spec_cmd c S in
      let rs := spec_session cs r.2 in
      (r.1 :: rs.1, rs.2)
  end.

(** ** The interface of a search that runs alone

    It answers right on lists of [cap] nodes, and leaves the store as it was. *)
Class SearchAlone `{HB : Build} (own : option Z -> gset Z -> mem -> Prop) (cap : nat) : Prop :=
  search_alone `{HC : Calloc} self i k m g xs :
    table_ok own m g -> bk g !! i = Some xs -> (length xs <= cap)%nat ->
    run (search self k (LHead i) (LLock i)) m = Ok (spec_search k (kset m xs)) m.

Section session.
Context `{HB : Build} (self : Z) (SG : mem -> gst -> mem -> gst -> Prop).
Context (own : option Z -> gset Z -> mem -> Prop) {LS : ListOpsSpec self SG own}.
Context (cap : nat) {SA : SearchAlone own cap}.
Context `{HC : Calloc} {HT : CallocTotal}.

Lemma do_cmd_run fuel nb c m g S : nb_ok nb -> hash_ok own nb m g S -> (size S < fuel)%nat -> (size S <= cap)%nat ->
  exists m' g', run (do_cmd fuel nb self c) m = Ok (spec_cmd c S).1 m' /\
    hash_ok own nb m' g' (spec_cmd c S).2 /\ (Eager SG -> old g' ⊆ old g).
Proof.
  intros Hnb Hok Hf Hc. destruct c as [u k|k]; [by apply (do_uop_run self SG own)|].
  cbn [do_cmd spec_cmd fst snd]. rewrite get_buckets_eq by done. exists m, g. split; [|done].
  destruct (hash_ok_bucket _ _ _ _ _ _ Hok (bucket_of_range nb k Hnb)) as (xs & Hxs & Hk).
  pose proof (hash_ok_length _ _ _ _ _ _ _ Hok (bucket_of_range nb k Hnb) Hxs).
  cbn [mbind prog_bind fst snd].
  rewrite (search_alone self _ k m g xs (proj1 Hok) Hxs) by lia. by rewrite Hk, spec_search_bucket.
Qed.

Lemma spec_cmd_size c S : (size (spec_cmd c S).2 <= size S + 1)%nat.
Proof. destruct c as [u k|k]; [apply spec_uop_size|simpl; lia]. Qed.

(** A session refines the same commands on the set. *)
Lemma session_run fuel nb cs : forall m g S, nb_ok nb -> hash_ok own nb m g S ->
  (size S + length cs <= fuel)%nat -> (size S + length cs <= cap)%nat ->
  exists m' g', run (do_session fuel nb self cs) m = Ok (spec_session cs S).1 m' /\
    hash_ok own nb m' g' (spec_session cs S).2 /\ (Eager SG -> old g' ⊆ old g).
Proof.
  induction cs as [|c cs IH]; intros m g S Hnb Hok Hf Hc; simpl in Hf, Hc; cbn [do_session].
  { exists m, g. done. }
  destruct (do_cmd_run fuel nb c m g S Hnb Hok) as (m1 & g1 & Hr1 & Hok1 & Ho1); [lia|lia|].
  pose proof (spec_cmd_size c S).
  destruct (IH m1 g1 _ Hnb Hok1) as (m2 & g2 & Hr2 & Hok2 & Ho2); [lia|lia|].
  exists m2, g2. split; [by rewrite run_bind, Hr1, run_bind, Hr2|]. split; [done|].
  intros HE. etrans; [by apply Ho2|by apply Ho1].
Qed.

End session.

(** ** The builds with generation counters *)

Lemma table_ok_rest own m g i xs : table_ok own m g -> bk g !! i = Some xs ->
  path LNext m (LHead i) xs /\ rest_list m xs.
Proof.
  intros (HI & _) Hxs. split; [by eapply inv_path|].
  split; [intros x; by eapply inv_node| |by eapply inv_incr]. eapply path_alt, inv_path; [done|exact Hxs].
Qed.

#[export] Instance variant_alone v sp cap w d :
  SearchAlone (HB := variant_build v sp (S (S (2 * cap)))) (variant_state v w d) cap.
Proof.
  intros HC self i k m g xs Hok Hxs Hc. destruct (table_ok_rest _ _ _ _ _ Hok Hxs) as [Hp Hr].
  destruct Hok as (HI & _ & U & (_ & _ & Hlk) & _). destruct (inv_head _ _ HI _ _ Hxs) as [_ [l0 Hl]].
  apply (variant_search_run self k v _ i _ l0); [done|done|by apply mget_lookup|exact (Hlk i l0 Hl)|lia].
Qed.
