(* ===== verification/RcMain.v ===== *)
(** * The build with reference counts

    Sequential executions of list_rc.c and rc.c: the counts are exact between
    operations, a search gives back every count it took, and the table refines
    a set as in the other builds. *)
From S2P Require Import Prelude Mem Concrete RG SWP Table TableFacts Frozen Allocator ListOps Lock Stamp ListWriter AllocState ListGecos GecosWriter ListSgecos SgecosWriter ListRc RcWriter Util Mrow Hashtable Driver Pool Builds GecosSeq TableMain Session.

Definition rc_build (sp : loc -> prog unit) (fuel : nat) : Build := {|
  build_ops := @writer_ops (rc_scheme fuel fuel);
  lock_init := sp;
  thread_register := Ret tt;
  thread_unregister := Ret tt;
  Mrow.search := ListRc.search fuel fuel fuel |}.

(** ** The driver's interface *)

Lemma counts_tls cnt t x v m : counts cnt m -> counts cnt (<[LTls t x := v]> m).
Proof. by apply counts_other. Qed.

#[export] Instance rc_driver_spec afuel fuel self :
  @DriverSpec (@writer_ops (rc_scheme (S afuel) (S (S fuel)))) self eager_step (rc_state self).
Proof.
  split.
  - intros d. apply (@writer_ops_spec (rc_scheme (S afuel) (S (S fuel)))), rc_scheme_spec.
  - by intros d h U m [(_ & Hd & _) _].
  - done.
  - intros d h U m x v Hx [Ha Hc]. split; [by apply alloc_state_store_tls|by apply counts_tls].
  - intros d h U m x v Hx [Ha Hc]. split; [by apply alloc_state_reset_tls|by apply counts_tls].
Qed.

#[export] Instance rc_init_spec sp fuel self : spin_init_ok sp -> @InitSpec (rc_build sp fuel) (rc_state self).
Proof.
  intros Hs. refine (@Build_InitSpec (rc_build sp fuel) _ (fun _ => True) _ _).
  - intros HC i m Hl. destruct (Hs HC _ m Hl) as [w Hw]. by exists w.
  - intros d U m m' [Ha Hc] Hm Hl. split.
    + eapply alloc_state_arrays; [auto| |exact Ha]. intros i w _. by right.
    + intros n v. rewrite Hm by done. apply Hc.
Defined.

(** ** A search alone *)

Section alone.
Context `{HC : Calloc} (self key : Z).

(** The nodes are counted, and the next count fits. *)
Definition counted (m : mem) (x : Z) : Prop :=
  aligned x /\ exists v, m !! LRc x = Some v /\ 0 < v < word64 - 1.

(** The store in which the reader holds a count of the first node. *)
Definition hold (m : mem) (xs : list Z) : mem :=
  match xs with
  | [] => m
  | x :: _ => <[LRc x := default 0 (m !! LRc x) + 1]> m
  end.

Lemma run_inc {A} fuel p v (k : Z -> prog A) m : (0 < fuel)%nat -> mget m p = Some v -> 0 < v < word64 - 1 ->
  run (increment_if_not_zero fuel p ≫= k) m = run (k 0) (<[p := v + 1]> m).
Proof.
  intros Hf Hv Hr. destruct fuel as [|fuel]; [lia|]. cbn. rewrite Hv. cbn. rewrite (proj2 (Z.eqb_neq v 0)) by lia. cbn. rewrite Hv. cbn.
  rewrite decide_True by done. rewrite Z.eqb_refl, u64_small by lia. done.
Qed.

(** Reading a pointer takes a count of the node. *)
Lemma run_safe_read {A} afuel fuel l (k : Z -> prog A) m xs : (0 < fuel)%nat -> mget m l = Some (hd0 xs) ->
  (match l with LRc _ => False | _ => True end) -> (forall x, x ∈ xs -> counted m x /\ x <> NULL) ->
  run (safe_read afuel (S fuel) self l ≫= k) m = run (k (hd0 xs)) (hold m xs).
Proof.
  intros Hf Hl Hne Hx. cbn [safe_read]. destruct xs as [|x xs].
  { cbn. rewrite Hl. done. }
  destruct (Hx x ltac:(set_solver)) as [(Ha & v & Hv & Hr) H0]. cbn [hd0 hold] in *.
  rewrite run_bind, (run_load _ _ _ _ Hl). cbv beta zeta. rewrite (proj2 (aligned_even x Ha)).
  rewrite (proj2 (Z.eqb_neq x NULL)) by done. rewrite (run_inc _ _ v) by (lia || by apply mget_lookup).
  cbn [negb Z.eqb]. unfold memory_barrier. rewrite run_fence, (run_load l x).
  - by rewrite Z.eqb_refl, Hv.
  - rewrite mget_insert_ne; [done|]. by intros <-.
Qed.

(** Giving it back restores the store. *)
Lemma run_dec {A} afuel fuel x v w (k : unit -> prog A) m : aligned x -> x <> NULL -> m !! LRc x = Some w ->
  w = v + 1 -> 0 < v < word64 - 1 ->
  run (lfrc_refcnt_dec afuel (S fuel) self x ≫= k) m = run (k tt) (<[LRc x := v]> m).
Proof.
  intros Ha H0 Hw -> Hr. cbn [lfrc_refcnt_dec]. cbv zeta. rewrite (proj2 (aligned_even x Ha)).
  rewrite (proj2 (Z.eqb_neq x NULL)) by done. rewrite run_bind. unfold memory_barrier.
  rewrite run_fence, (run_load _ _ _ _ (mget_lookup _ _ _ Hw)). rewrite (proj2 (Z.ltb_lt 0 (v + 1))) by lia.
  cbn. rewrite (mget_lookup _ _ _ Hw). cbn. rewrite (proj2 (Z.eqb_neq (v + 1) 1)) by lia. cbn.
  replace (v + 1 + -1) with v by lia. by rewrite u64_small by lia.
Qed.

Lemma rc_loop_run afuel rfuel m xs : forall fuel, rest_list m xs ->
  (forall x, x ∈ xs -> counted m x) -> (length xs < fuel)%nat ->
  run (ListRc.search_loop afuel (S (S rfuel)) fuel self key (hd0 xs)) (hold m xs) =
  Ok (spec_search key (kset m xs)) m.
Proof.
  induction xs as [|x xs IH]; intros [|fuel] Hr Hc Hf; simpl in Hf; try lia; [done|].
  destruct (rest_list_cons _ _ _ Hr) as (Hr' & Hn & Hnx & Hlt). cbn [ListRc.search_loop hd0].
  pose proof (node_nonnull _ _ Hn) as Hx0. rewrite (proj2 (Z.eqb_neq x NULL)) by done.
  destruct (Hc x ltac:(set_solver)) as (Ha & v & Hv & Hvr).
  assert (Hk : mget (hold m (x :: xs)) (LKey x) = Some (nkey m x)).
  { cbn [hold]. rewrite mget_insert_ne by done. apply mget_lookup, node_key, Hn. }
  rewrite (run_load _ _ _ _ Hk). destruct (rest_answer key m x xs Hr) as [Hle Hgt].
  assert (Hhx : hold m (x :: xs) = <[LRc x := v + 1]> m) by (cbn [hold]; by rewrite Hv).
  destruct (Z.leb_spec key (nkey m x)) as [H|H].
  - rewrite (run_load _ _ _ _ Hk), Hhx, (run_dec _ _ x v (v + 1)); [|done|done|apply lookup_insert_eq|done|done].
    rewrite insert_insert_eq, insert_id by done. cbn [run]. f_equal. by apply Hle.
  - rewrite Hgt by done. rewrite (run_safe_read _ _ _ _ _ xs).
    2: lia.
    2: { rewrite Hhx, mget_insert_ne by done. exact Hnx. }
    2: done.
    2: { intros y Hy. destruct (Hc y ltac:(set_solver)) as (Hay & u & Hu & Hur).
      assert (Hne : LRc x <> LRc y) by (intros [= ->]; specialize (Hlt y Hy); lia).
      split; [|by eapply node_nonnull, (rl_node _ _ Hr')]. split; [done|]. exists u.
      by rewrite Hhx, lookup_insert_ne. }
    assert (Hsw : hold (hold m (x :: xs)) xs !! LRc x = Some (v + 1) /\
      <[LRc x := v]> (hold (hold m (x :: xs)) xs) = hold m xs).
    { rewrite Hhx. destruct xs as [|y ys]; cbn [hold].
      - split; [apply lookup_insert_eq|]. by rewrite insert_insert_eq, insert_id.
      - assert (Hne : LRc x <> LRc y) by (intros [= ->]; specialize (Hlt y ltac:(set_solver)); lia).
        rewrite !lookup_insert_ne, lookup_insert_eq by congruence. split; [done|].
        rewrite insert_insert_ne, insert_insert_eq, lookup_insert_ne by done. by rewrite (insert_id m). }
    destruct Hsw as [Hw Hm]. rewrite (run_dec _ _ x v (v + 1)); [|done..]. rewrite Hm.
    apply IH; [done|set_solver|lia].
Qed.

End alone.

(** A search that runs alone answers right and, having given back every
    count it took, leaves the store as it was. *)
Theorem rc_search_alone `{HC : Calloc} self key i lock fuel m xs :
  path LNext m (LHead i) xs -> rest_list m xs -> (forall x, x ∈ xs -> counted m x) -> (length xs + 1 < fuel)%nat ->
  run (ListRc.search fuel fuel fuel self key (LHead i) lock) m = Ok (spec_search key (kset m xs)) m.
Proof.
  intros Hp Hr Hc Hf. destruct fuel as [|[|fuel]]; [lia..|]. unfold ListRc.search.
  rewrite (run_safe_read _ _ _ _ _ _ xs); [|lia|by eapply path_hd|done|].
  - apply rc_loop_run; [done|done|lia].
  - intros x Hx. split; [by apply Hc|]. by eapply node_nonnull, (rl_node _ _ Hr).
Qed.

Lemma rc_counted self d m g i xs : table_ok (rc_state self d) m g -> bk g !! i = Some xs ->
  forall x, x ∈ xs -> counted m x.
Proof.
  intros (HI & _ & U & [_ Hcnt] & HU) Hxs x Hx. pose proof (inv_node _ _ HI i xs x Hxs Hx) as Hn.
  destruct (node_field _ _ LRc Hn ltac:(set_solver)) as [v Hv]. destruct (Hcnt x v Hv) as [-> Ha].
  split; [done|]. eexists. split; [exact Hv|]. unfold one_each. rewrite decide_True; [done|].
  apply HU. left. exists i. left. eauto.
Qed.

#[export] Instance rc_alone sp cap self d :
  SearchAlone (HB := rc_build sp (S (S (2 * cap)))) (rc_state self d) cap.
Proof.
  intros HC t i k m g xs Hok Hxs Hc. destruct (table_ok_rest _ _ _ _ _ Hok Hxs) as [Hp Hr].
  apply (rc_search_alone t k i); [done|done|by eapply rc_counted|lia].
Qed.

(** ** The table *)

Lemma rc_heap_ok self d : (forall x, d x = 0) -> heap_ok (rc_state self d) ∅.
Proof. intros Hd. split; [done|]. split; [by apply alloc_state_empty|done]. Qed.

(** A table of the keys [0 .. nbkeys-1]. *)
Definition rc_store (nb nbkeys : Z) (fuel : nat) : mem :=
  match run (hash_init (H := rc_build spin_init_zero fuel) nb nbkeys true false fuel 0) ∅ with
  | Ok _ m => m
  | Err _ m => m
  end.

Lemma rc_store_ok nb nbkeys fuel : sizes_ok nb nbkeys (S (S fuel)) ->
  exists g, hash_ok (rc_state 0 (fun _ => 0)) nb (rc_store nb nbkeys (S (S fuel))) g (key_range nbkeys) /\ old g = ∅.
Proof.
  intros [Hnb Hk Hf]. pose proof (rc_init_spec spin_init_zero (S (S fuel)) 0 spin_init_zero_ok) as IS.
  destruct (hash_init_spec (HB := rc_build spin_init_zero (S (S fuel))) 0 eager_step (rc_state 0) nb nbkeys
    ltac:(unfold nb_ok; lia) ltac:(lia) ltac:(lia) (S (S fuel)) (fun _ => 0) ∅ Hf (rc_heap_ok 0 _ ltac:(done)))
    as (m & g & Hr & Hok & Ho & _).
  exists g. unfold rc_store. rewrite Hr. split; [done|]. exact (Ho _).
Qed.

(** The count of every node of the table is 1, that of every other node 0. *)
Definition counts_exact (nb : Z) (m : mem) : Prop :=
  exists nodes : gset Z,
    (forall n, n ∈ nodes <-> exists i xs, 0 <= i < nb /\ path LNext m (LHead i) xs /\ n ∈ xs) /\
    (forall n v, m !! LRc n = Some v -> v = if decide (n ∈ nodes) then 1 else 0).

Lemma path_unique m l xs : forall ys, path LNext m l xs -> path LNext m l ys -> xs = ys.
Proof.
  revert l. induction xs as [|x xs IH]; intros l [|y ys]; simpl; [done|..].
  - intros H1 (H2 & H3 & _). congruence.
  - intros (H2 & H3 & _) H1. congruence.
  - intros (H1 & H2 & H3) (H4 & H5 & H6). assert (x = y) as -> by congruence. f_equal. by eapply IH.
Qed.

Lemma hash_ok_counts self d nb m g S : hash_ok (rc_state self d) nb m g S -> old g = ∅ -> counts_exact nb m.
Proof.
  intros Hok Hold. pose proof Hok as [(HI & Hp & U & [_ Hc] & HU) Ha]. exists U. split.
  - intros n. rewrite HU. unfold kept. rewrite Hold. split.
    + intros [(i & [(xs & Hi & Hn)|Hpd])|?]; [|congruence|set_solver]. exists i, xs. split; [|split; [by eapply inv_path|done]].
      pose proof (abs_lookup m g i xs Hi) as Hs. rewrite Ha in Hs. by apply shards_lookup in Hs as [? _].
    + intros (i & xs & Hi & Hpath & Hn). left. destruct (hash_ok_bucket _ _ _ _ _ _ Hok Hi) as (ys & Hys & _).
      exists i. left. exists ys. split; [done|]. by rewrite <- (path_unique m (LHead i) xs ys Hpath (inv_path _ _ HI _ _ Hys)).
  - intros n v Hv. by apply Hc.
Qed.

(** C18: after any session of insertions, deletions and searches the table
    holds the set of the reference and the counts are exact: 1 for each node of
    the table, 0 for every other one. *)
Theorem rc_counts_exact `{HC : Calloc} {HT : CallocTotal} sp cap nb cs m g S fuel self d :
  nb_ok nb -> hash_ok (rc_state self d) nb m g S -> old g = ∅ ->
  (size S + length cs <= fuel)%nat -> (size S + length cs <= cap)%nat ->
  exists m', run (do_session (HB := rc_build sp (Datatypes.S (Datatypes.S (2 * cap)))) fuel nb self cs) m =
    Ok (spec_session cs S).1 m' /\ stores nb m' (spec_session cs S).2 /\ counts_exact nb m'.
Proof.
  intros Hnb Hok Ho Hf Hc.
  destruct (session_run (HB := rc_build sp (Datatypes.S (Datatypes.S (2 * cap)))) self eager_step (rc_state self d)
    (LS := ds_ops (DriverSpec := rc_driver_spec _ _ self) d)
    cap fuel nb cs m g S Hnb Hok Hf Hc) as (m' & g' & Hr & Hok' & Hold).
  exists m'. split; [done|]. split; [by eapply hash_ok_stores|]. eapply hash_ok_counts; [done|].
  specialize (Hold _). set_solver.
Qed.

(** ** Examples *)

Definition small_session : list cmd := [Sea 3; Upd Del 3; Sea 3; Upd Ins 9; Upd Ins 4; Sea 9].

Lemma rc_search_alone_witness : exists m,
  run (ListRc.search 20 20 20 2 4 (LHead 0) (LLock 0)) m = Ok 1 m.
Proof.
  destruct (rc_store_ok 2 5 7 small_sizes) as (g & Hok & _). exists (rc_store 2 5 9).
  destruct (hash_ok_bucket _ _ _ _ _ 0 Hok ltac:(lia)) as (xs & Hxs & Hk).
  pose proof (hash_ok_length _ _ _ _ _ 0 xs Hok ltac:(lia) Hxs) as Hlen.
  assert (Hs : spec_search 4 (kset (rc_store 2 5 9) xs) = 1) by (rewrite Hk; by vm_compute).
  rewrite <- Hs. destruct Hok as [Hok _]. destruct (table_ok_rest _ _ _ _ _ Hok Hxs) as [Hp Hr].
  apply (rc_search_alone 2 4 0); [exact Hp|exact Hr|exact (rc_counted _ _ _ _ _ _ Hok Hxs)|].
  assert (Hz : size (key_range 5) = 5%nat) by by vm_compute. lia.
Defined.

Lemma rc_counts_exact_witness : exists m',
  run (do_session (HB := rc_build spin_init_zero 40) 20 2 0 small_session) (rc_store 2 5 9) =
    Ok [1; 1; 0; 1; 0; 1] m' /\ counts_exact 2 m'.
Proof.
  destruct (rc_store_ok 2 5 7 small_sizes) as (g & Hok & Ho).
  destruct (rc_counts_exact spin_init_zero 19 2 small_session (rc_store 2 5 9) g (key_range 5) 20 0 (fun _ => 0))
    as (m' & Hr & _ & Hc); [split; [done|lia]|exact Hok|exact Ho|apply Nat.leb_le; by vm_compute..|].
  exists m'. split; [|exact Hc]. exact (eq_trans Hr eq_refl).
Defined.
