(* ===== verification/MrowMain.v ===== *)
(** * Facts about the driver's parameters (mrow.c)

    The command line, the distribution of the keys over the buckets, and the
    keys the threads draw. *)
From S2P Require Import Prelude Mem Concrete Schedules RG SWP Table TableFacts Allocator ListOps ListWriter ListGecos GecosWriter Util Mrow Hashtable Driver Pool Builds.

(** ** The command line *)

(** The arguments are results of [strtoul]. *)
Definition args_ok (args : list Z) : Prop := Forall (fun a => 0 <= a < word64) args.

(** C39: an accepted command line has a reader, a bucket and a key per
    bucket; the number of keys is their product modulo [2^64]. *)
Theorem setup_test_ok argc args c : args_ok args -> setup_test argc args = Some c ->
  5 <= argc /\ 0 <= nbupdaters c < nbthreads c /\ nbreaders c = nbthreads c - nbupdaters c /\
  1 <= nbreaders c /\ 1 <= nbbuckets c /\ 1 <= pbnodes c /\
  (pbnodes c * nbbuckets c < word64 -> nbkeys c = pbnodes c * nbbuckets c /\ 1 <= nbkeys c).
Proof.
  intros Ha Hc. assert (Hn : forall n, 0 <= nth n args 0 < word64).
  { intros n. destruct (nth_in_or_default n args 0) as [Hin| ->]; [|done].
    unfold args_ok in Ha. rewrite Forall_forall in Ha. by apply Ha, list_elem_of_In. }
  pose proof (Hn 0%nat). pose proof (Hn 1%nat). pose proof (Hn 2%nat). pose proof (Hn 3%nat).
  unfold setup_test in Hc. destruct (Z.ltb_spec argc 5); [done|].
  destruct (Z.leb_spec (nth 0 args 0) (nth 1 args 0)); [done|].
  destruct (Z.eqb_spec (nth 2 args 0) 0); destruct (Z.eqb_spec (nth 3 args 0) 0);
    injection Hc as <-; cbn [Mrow.nbthreads Mrow.nbupdaters Mrow.nbreaders Mrow.nbbuckets Mrow.pbnodes Mrow.nbkeys] in *;
    (split_and!; [lia..|]); intros Hlt; rewrite u64_small by lia; lia.
Qed.

Lemma setup_test_ok_witness : exists c, setup_test 5 [8; 1; 100; 10] = Some c /\
  5 <= 5 /\ 0 <= nbupdaters c < nbthreads c /\ nbreaders c = nbthreads c - nbupdaters c /\
  1 <= nbreaders c /\ 1 <= nbbuckets c /\ 1 <= pbnodes c /\
  (pbnodes c * nbbuckets c < word64 -> nbkeys c = pbnodes c * nbbuckets c /\ 1 <= nbkeys c).
Proof.
  exists (Config 8 1 7 100 10 1000). split; [reflexivity|].
  apply (setup_test_ok 5 [8; 1; 100; 10]); [|reflexivity].
  repeat constructor; discriminate.
Defined.

(** With no key to draw from, a thread that has passed the barrier stops at its
    first draw. *)
Lemma draw_no_key `{HC : Calloc} `{HB : Build} nb loops fuel self iamreader m :
  exists m', run (run_loop nb 0 (S loops) fuel self iamreader 0) m = Err DivByZero m'.
Proof.
  cbn [run_loop]. rewrite run_bind. unfold random_key, myrand.
  destruct (mget_static m (LTls self Vthd_seed) eq_refl) as [s Hs].
  rewrite run_bind, (run_load _ _ _ _ Hs), run_store by eauto.
  rewrite (run_load _ _ _ _ (mget_insert _ _ _)). cbn. by eexists.
Qed.

Lemma run_init_run `{HC : Calloc} t now fuel m : 0 <= t ->
  exists m', run (run_init 0 now false fuel t) m = Ok tt m' /\
    forall x, mget m' (LGlob x) = mget m (LGlob x).
Proof.
  intros Ht. unfold run_init, mysrand. rewrite (proj2 (Z.leb_le 0 t)) by done.
  repeat (rewrite run_store by (by apply mget_static)). cbn [mbind prog_bind].
  match goal with |- context [run (store ?l ?v) ?m'] =>
    destruct (mget_static m' l eq_refl) as [w Hw]; exists (<[l:=v]> m'); split; [cbn; by rewrite Hw|] end.
  intros x. by mget_simpl.
Qed.

Lemma overflow_run `{HC : Calloc} v sp join now loops fuel m0 : let b := variant_build v sp (S fuel) in
  mget m0 (LGlob Ggo) = Some 0 -> mget m0 (LGlob Gready) = Some 0 ->
  exists tr ps m,
    psteps ([ run_thread (H := b) (2 ^ 30) 0 0 now false (S loops) (S fuel) 0;
              test_rest join 1 0 (S fuel) ;; Ret 0 ], m0) tr (ps, m) /\ ps !! 0%nat = Some (Crash DivByZero).
Proof.
  intros b Hgo Hready.
  set (main := test_rest join 1 0 (S fuel) ;; Ret 0 : prog Z).
  set (rest := thread_register (Build := b);;
    i ← run_loop (H := b) (2 ^ 30) 0 (S loops) (S fuel) 0 true 0; thread_unregister (Build := b);; Ret i).
  set (reader := run_thread (H := b) (2 ^ 30) 0 0 now false (S loops) (S fuel) 0).
  set (arriving := run_barrier (S fuel) ≫= (fun _ : unit => rest)).
  set (waiting := wait_go (S fuel) ≫= (fun _ : unit => rest)).
  set (started := (store (LGlob Ggo) 1;; memory_barrier;; join_loop join 0 1) : prog unit).
  set (start := (started;; Ret 0) : prog Z).
  set (repoll := (memory_barrier;; wait_ready fuel 1) : prog unit).
  set (poll := (fun r : Z => if r =? 1 then Ret tt else repoll) : Z -> prog unit).
  set (polled := fun r : Z => @mbind prog _ unit Z (fun _ => Ret 0) (@mbind prog _ unit unit (fun _ => started) (poll r))).
  set (joining := ((memory_barrier;; join_loop join 0 1);; Ret 0) : prog Z).
  (* the reader up to the barrier *)
  destruct (run_init_run 0 now (S fuel) m0 ltac:(lia)) as (m1 & Hr1 & Hm1).
  destruct (run_psteps (A := Z) (run_init 0 now false (S fuel) 0) (fun _ => arriving) 0%nat tt m1
    [reader; main] m0 eq_refl Hr1) as [tr1 H1].
  assert (Hready1 : mget m1 (LGlob Gready) = Some 0) by (by rewrite Hm1).
  set (m2 := <[LGlob Gready := 1]> m1) in *.
  destruct (run_psteps (A := Z) (do_op (XAdd (LGlob Gready) 1)) (fun _ => waiting) 0%nat 0 m2 [arriving; main] m1 eq_refl)
    as [tr2 H2]; [cbn; by rewrite Hready1|].
  (* the main thread starts it *)
  destruct (run_psteps (A := Z) (do_op (Load (LGlob Gready))) polled 1%nat 1 m2 [waiting; main] m2 eq_refl)
    as [tr3 H3]; [cbn; unfold m2; by rewrite mget_insert|].
  assert (Hgo2 : mget m2 (LGlob Ggo) = Some 0) by (unfold m2; mget_simpl; by rewrite Hm1).
  set (m4 := <[LGlob Ggo := 1]> m2) in *.
  destruct (run_psteps (A := Z) (do_op (Store (LGlob Ggo) 1)) (fun _ => joining) 1%nat 0 m4 [waiting; start] m2 eq_refl)
    as [tr4 H4]; [cbn; by rewrite Hgo2|].
  (* the reader draws its first key *)
  assert (Hc : exists m5, run waiting m4 = Err DivByZero m5).
  { unfold waiting. cbn [wait_go]. rewrite run_bind, (run_load _ 1) by apply mget_insert. cbn [run Z.eqb].
    destruct (run_quiet (thread_register (Build := b)) m4 (register_is_quiet (HB := b))) as [u Hu].
    unfold rest. rewrite run_bind, Hu. destruct (draw_no_key (HB := b) (2 ^ 30) loops (S fuel) 0 true m4) as [m5 Hm5].
    exists m5. by rewrite run_bind, Hm5. }
  destruct Hc as [m5 Hc].
  destruct (run_crash_psteps waiting 0%nat _ _ [waiting; joining] m4 eq_refl Hc) as [tr5 H5].
  do 3 eexists. split.
  - eapply psteps_trans; [exact H1|]. eapply psteps_trans; [exact H2|]. eapply psteps_trans; [exact H3|].
    eapply psteps_trans; [exact H4|exact H5].
  - reflexivity.
Qed.

(** C40: the command line [1 0 2^30 2^34] is accepted and the table of
    [2^30] buckets is created, but the number of keys wraps around to zero: the
    reader, once started, divides by it when it draws its first key. *)
Theorem setup_test_overflow `{HC : Calloc} {HT : CallocTotal} v sp join now loops fuel : spin_init_ok sp ->
  exists c m0 tr ps m, setup_test 5 [1; 0; 2 ^ 30; 2 ^ 34] = Some c /\ nbkeys c = 0 /\
    let b := variant_build v sp (S fuel) in
    run (test_start (H := b) (nbbuckets c) (nbkeys c) true false false (S fuel) (-1)) ∅ = Ok tt m0 /\
    psteps ([ run_thread (H := b) (nbbuckets c) (nbkeys c) (nbupdaters c) now false (S loops) (S fuel) 0;
              test_rest join (nbthreads c) (nbupdaters c) (S fuel) ;; Ret 0 ], m0) tr (ps, m) /\
    ps !! 0%nat = Some (Crash DivByZero).
Proof.
  intros Hsp. set (c := Config 1 0 1 (2 ^ 30) (2 ^ 34) 0). exists c.
  pose proof (fun self => variant_init v sp (S fuel) self Hsp) as IS.
  destruct (test_start_ok (HB := variant_build v sp (S fuel)) (HS := variant_stamp v) (variant_state v) (-1) (2 ^ 30) 0
    (S fuel) ltac:(lia) 0 ltac:(lia) ltac:(lia) ltac:(simpl; lia) ltac:(lia)) as (m0 & g0 & Hst & _ & _ & Hgo & Hready).
  destruct (overflow_run v sp join now loops fuel m0 Hgo Hready) as (tr & ps & m & Hps & H0).
  exists m0, tr, ps, m. split; [reflexivity|]. split; [reflexivity|]. split; [exact Hst|]. by split.
Qed.

Lemma setup_test_overflow_witness : spin_init_ok spin_init_zero /\
  exists c m0 tr ps m, setup_test 5 [1; 0; 2 ^ 30; 2 ^ 34] = Some c /\ nbkeys c = 0 /\
    let b := variant_build Plain spin_init_zero 2 in
    run (test_start (H := b) (nbbuckets c) (nbkeys c) true false false 2 (-1)) ∅ = Ok tt m0 /\
    psteps ([ run_thread (H := b) (nbbuckets c) (nbkeys c) (nbupdaters c) 7 false 1 2 0;
              test_rest (fun _ => Ret tt) (nbthreads c) (nbupdaters c) 2 ;; Ret 0 ], m0) tr (ps, m) /\
    ps !! 0%nat = Some (Crash DivByZero).
Proof. split; [apply spin_init_zero_ok|]. apply (setup_test_overflow Plain spin_init_zero (fun _ => Ret tt) 7 0 1 spin_init_zero_ok). Defined.

(** ** The buckets *)

Lemma bucket_of_key nb k : 1 <= nb -> 0 <= k < 2 ^ 31 -> bucket_of nb k = k mod nb.
Proof.
  intros Hnb Hk. unfold bucket_of. rewrite u64_small by (unfold word64; lia).
  pose proof (Z.mod_pos_bound k nb ltac:(lia)). pose proof (Z.mod_le k nb ltac:(lia) ltac:(lia)).
  rewrite i32_small; lia.
Qed.

(** [get_buckets] never leaves the two arrays, negative keys
    included. *)
Lemma get_buckets_in_range nb key hd lck : nb_ok nb -> get_buckets nb key = Ret (hd, lck) ->
  exists i, 0 <= i < nb /\ hd = LHead i /\ lck = LLock i.
Proof.
  intros Hnb. rewrite get_buckets_eq by done. intros [= <- <-].
  eexists. split; [by apply bucket_of_range|done].
Qed.

(** The keys of bucket [i] are [i], [i + nb], [i + 2 nb], ... *)
Lemma bucket_keys nb pb i : 1 <= nb -> 0 <= pb -> nb * pb < 2 ^ 31 -> 0 <= i < nb ->
  bucket_set nb i (key_range (nb * pb)) = list_to_set ((fun j => i + nb * j) <$> seqZ 0 pb).
Proof.
  intros Hnb Hpb Hlt Hi. apply set_eq. intros k. unfold bucket_set.
  rewrite elem_of_filter, elem_of_key_range, elem_of_list_to_set, list_elem_of_fmap. split.
  - intros [Hb Hk]. rewrite bucket_of_key in Hb by lia. exists (k / nb).
    pose proof (Z.div_mod k nb ltac:(lia)). split; [lia|]. apply elem_of_seqZ.
    split; [apply Z.div_pos; lia|]. apply Z.div_lt_upper_bound; lia.
  - intros (j & -> & Hj%elem_of_seqZ). assert (i + nb * j < nb * pb) by nia.
    split; [|nia]. rewrite bucket_of_key by nia. rewrite Z.mul_comm, Z.mod_add by lia.
    apply Z.mod_small. lia.
Qed.

(** [hash_init] puts [pbnodes] keys in every bucket. *)
Theorem buckets_balanced nb pb i : 1 <= nb -> 0 <= pb -> nb * pb < 2 ^ 31 -> 0 <= i < nb ->
  size (bucket_set nb i (key_range (nb * pb))) = Z.to_nat pb.
Proof.
  intros Hnb Hpb Hlt Hi. rewrite bucket_keys by done. rewrite size_list_to_set.
  - rewrite length_fmap. apply length_seqZ.
  - apply NoDup_fmap_2_strong; [|apply NoDup_seqZ]. intros x y _ _ Hxy. nia.
Qed.

Lemma buckets_balanced_witness : size (bucket_set 3 1 (key_range (3 * 4))) = Z.to_nat 4.
Proof. apply (buckets_balanced 3 4 1); lia. Defined.

(** ** The keys that are drawn *)

(** [myrand] has 15 bits: the loop of an updater touches no key from [2^15]
    on. *)
Lemma spec_iters_large nbkeys n i t k : 0 < nbkeys -> 32768 <= k ->
  k ∈ t_set (spec_iters nbkeys n i t) <-> k ∈ t_set t.
Proof.
  intros Hn Hk. revert i t. induction n as [|n IH]; intros i t; [done|]. simpl. rewrite IH.
  unfold spec_iter. set (key := lcg_out _ mod _).
  assert (key <> k).
  { unfold key. pose proof (lcg_out_range (lcg (t_seed t))).
    pose proof (Z.mod_le (lcg_out (lcg (t_seed t))) nbkeys ltac:(lia) ltac:(lia)). lia. }
  destruct (i mod 2 =? 1); simpl; set_solver.
Qed.

(** The counters of an updater count the growth of the set. *)
Theorem tally_balance nbkeys n i t :
  Z.of_nat (size (t_set (spec_iters nbkeys n i t))) - Z.of_nat (size (t_set t)) =
  (t_ins (spec_iters nbkeys n i t) - t_ins t) - (t_del (spec_iters nbkeys n i t) - t_del t).
Proof.
  revert i t. induction n as [|n IH]; intros i t; simpl; [lia|].
  specialize (IH (u64 (i + 1)) (spec_iter nbkeys i t)).
  assert (Hstep : Z.of_nat (size (t_set (spec_iter nbkeys i t))) - Z.of_nat (size (t_set t)) =
    (t_ins (spec_iter nbkeys i t) - t_ins t) - (t_del (spec_iter nbkeys i t) - t_del t)); [|lia].
  unfold spec_iter. set (key := lcg_out _ mod _). destruct (i mod 2 =? 1); simpl.
  - destruct (decide (key ∈ t_set t)).
    + replace ({[key]} ∪ t_set t) with (t_set t) by set_solver. lia.
    + rewrite size_union, size_singleton by set_solver. lia.
  - destruct (decide (key ∈ t_set t)).
    + rewrite size_difference, size_singleton by set_solver.
      assert (1 <= size (t_set t))%nat; [|lia].
      rewrite <- (size_singleton (C:=gset Z) key). apply subseteq_size. set_solver.
    + replace (t_set t ∖ {[key]}) with (t_set t) by set_solver. lia.
Qed.

(** ** The tail key *)

Definition tail_table : outcome unit :=
  run (hash_init (H := variant_build Plain spin_init_zero 10) 2 3 true true 10 0) ∅.

(** [SET_TAIL] puts the key [nbkeys + 1] in the bucket of the key
    [nbkeys], where no search looks for it. *)
Theorem set_tail_misplaced : exists m p, tail_table = Ok tt m /\
  path LNext m (LHead (bucket_of 2 3)) [64 * 2; p] /\ keys m [64 * 2; p] = [1; 4] /\
  bucket_of 2 4 <> bucket_of 2 3 /\
  run (do_searches (H := variant_build Plain spin_init_zero 10) 2 0 [4]) m = Ok [0] m.
Proof.
  assert (H : match tail_table with
    | Ok _ m => mget m (LHead 1) = Some 128 /\ mget m (LNext 128) = Some 256 /\
        mget m (LNext 256) = Some 0 /\ keys m [128; 256] = [1; 4] /\
        match run (do_searches (H := variant_build Plain spin_init_zero 10) 2 0 [4]) m with
        | Ok r m' => r = [0] /\ bool_decide (m' = m) = true | Err _ _ => False end
    | Err _ _ => False end) by (vm_compute; done).
  destruct tail_table as [[] m|]; [|done]. destruct H as (H1 & H2 & H3 & H4 & H5).
  exists m, 256. destruct (run _ m) as [r m'|]; [|done]. destruct H5 as [-> H5%bool_decide_eq_true]. subst m'.
  by split_and!.
Qed.
