(* ===== verification/ReportMain.v ===== *)
(** * What the printed figures mean (mrow.c)

    The arrays of mrow.c hold as many threads as [MAX_THREAD], a bound that the
    command line is not checked against; within it every figure is computed
    from initialised cells, and the extrema that [main] prints bound the times
    of every thread in every test. *)
From S2P Require Import Prelude Mem RG SWP Table TableFacts Allocator ListOps Util Stats Mrow Report Hashtable Driver Pool MrowMain.
From Stdlib Require Import SpecFloat.

(** The samples of a range of threads. *)
Lemma window_holds a n rep lo k s : holds a n rep -> 0 <= lo -> 0 <= k -> lo + k <= n -> n <= Z.of_nat (length (a s)) ->
  window lo k (a s) = Some ((fun t => rep t s) <$> seqZ lo k).
Proof.
  intros Ha H0 H1 H2 H3. unfold window.
  rewrite (proj2 (Z.leb_le 0 lo)), (proj2 (Z.leb_le 0 k)), (proj2 (Z.leb_le _ _)) by lia. cbn [andb]. f_equal.
  apply list_eq. intros i. rewrite list_lookup_fmap. destruct (decide (Z.of_nat i < k)) as [Hi|Hi].
  - rewrite lookup_take_lt, lookup_drop, lookup_seqZ_lt by lia. cbn [fmap option_fmap option_map].
    rewrite <- (Ha (lo + Z.of_nat i) s) by lia. f_equal. lia.
  - rewrite lookup_take_ge, lookup_seqZ_ge by lia. done.
Qed.

Section report.
Context (nbcores nbupdaters nbreaders : Z) (Hu : 0 <= nbupdaters) (Hr : 0 <= nbreaders).
Context (order : Z -> list Z) (rep : Z -> Z -> tstat -> spec_float).
Context (Ho : forall j, order j ≡ₚ seqZ 0 (nbupdaters + nbreaders)).

(** A figure that condenses the times of the threads [lo .. lo+k-1]. *)
Lemma extremum best le lo k s r : best_of best le ->
  (forall x y z, is_nan x = false -> is_nan y = false -> is_nan z = false -> le x y -> le y z -> le x z) ->
  0 <= lo -> 0 <= k -> lo + k <= nbupdaters + nbreaders -> nbupdaters + nbreaders <= MAX_THREAD -> runs_sized r ->
  (forall a, run_value nbcores nbupdaters nbreaders a s = best <$> window lo k (a Avg_time)) ->
  (forall j t, 0 <= j < ITERATION -> lo <= t < lo + k -> is_nan (rep j t Avg_time) = false) ->
  (forall j, 0 <= j < ITERATION -> exists aj, sized aj /\ holds aj (nbupdaters + nbreaders) (rep j) /\
     forall s, exists v, run_value nbcores nbupdaters nbreaders aj s = Some v /\ r s !! Z.to_nat j = Some v) ->
  exists v, best <$> window 0 ITERATION (r s) = Some v /\
    forall j t, 0 <= j < ITERATION -> lo <= t < lo + k -> le (rep j t Avg_time) v.
Proof.
  intros Hb Ht H0 H1 H2 Hmax Hs Hrv Hn Hj.
  destruct (figure_bound best le (r s) (fun j => (fun t => rep j t Avg_time) <$> seqZ lo k) Hb Ht) as (v & Hv & Hall).
  - rewrite Hs. apply run_size_bound.
  - intros j Hjr. split.
    + apply Forall_forall. intros x (t & -> & Hin%elem_of_seqZ)%list_elem_of_fmap. by apply Hn.
    + destruct (Hj j Hjr) as (aj & Ha & Hh & Hval). destruct (Hval s) as (w & Hw & ->).
      rewrite Hrv, (window_holds _ _ _ _ _ _ Hh) in Hw by (rewrite ?Ha; lia). done.
  - exists v. split; [done|]. intros j t Hjr Htr. apply (Hall j); [done|]. apply list_elem_of_fmap.
    exists t. split; [done|]. apply elem_of_seqZ. lia.
Qed.

(** The figure [lo], [hi] bound the average times of the threads from [first]
    on, in every test. *)
Definition bounds_times (first n : Z) (lo hi : option spec_float) : Prop :=
  exists l h, lo = Some l /\ hi = Some h /\
    forall j t, 0 <= j < ITERATION -> first <= t < first + n ->
      fle l (rep j t Avg_time) /\ fle (rep j t Avg_time) h.

(** C37: what [main] prints as max_read, min_read, max_write and min_write
    bounds the average time per operation of every reader, and of every
    updater, in each of the five tests, whatever the order in which the threads
    end: for at most [MAX_THREAD] threads, whose times are numbers. *)
Theorem report_extrema : nbupdaters + nbreaders <= MAX_THREAD ->
  (forall j t, 0 <= j < ITERATION -> 0 <= t < nbupdaters + nbreaders -> is_nan (rep j t Avg_time) = false) ->
  exists a r, main_tests nbcores nbupdaters nbreaders order rep = Some (a, r) /\
    let print := main_figure nbupdaters nbreaders a r in
    bounds_times nbupdaters nbreaders (print Min_read) (print Max_read) /\
    bounds_times 0 nbupdaters (print Min_write) (print Max_write).
Proof.
  intros Hmax Hn. destruct (main_tests_spec nbcores nbupdaters nbreaders Hu Hr order rep Ho Hmax) as (a & r & He & _ & Hs & Hj).
  exists a, r. split; [done|].
  assert (Htr : forall x y z, is_nan x = false -> is_nan y = false -> is_nan z = false -> fle y x -> fle z y -> fle z x).
  { intros x y z Hx Hy Hz H1 H2. by apply (fle_trans z y x). }
  split; unfold bounds_times; cbn [main_figure].
  - destruct (extremum get_min (fun x y => fle y x) nbupdaters nbreaders Run_min_rd r) as (l & -> & Hl); [apply get_min_best|exact Htr|done|done|lia|lia|done|done| |done|].
    { intros. apply Hn; lia. }
    destruct (extremum get_max fle nbupdaters nbreaders Run_max_rd r) as (h & -> & Hh); [apply get_max_best|exact fle_trans|done|done|lia|lia|done|done| |done|].
    { intros. apply Hn; lia. }
    exists l, h. split_and!; [done..|]. intros j t Hj' Ht. split; [by apply Hl|by apply Hh].
  - destruct (extremum get_min (fun x y => fle y x) 0 nbupdaters Run_min_wr r) as (l & -> & Hl); [apply get_min_best|exact Htr|lia|done|lia|lia|done|done| |done|].
    { intros. apply Hn; lia. }
    destruct (extremum get_max fle 0 nbupdaters Run_max_wr r) as (h & -> & Hh); [apply get_max_best|exact fle_trans|lia|done|lia|lia|done|done| |done|].
    { intros. apply Hn; lia. }
    exists l, h. split_and!; [done..|]. intros j t Hj' Ht. split; [by apply Hl|by apply Hh].
Qed.

(** C38: the reports fit the arrays exactly when there are at most
    [MAX_THREAD] threads; then every figure has a value.  With more, a thread
    writes beyond the arrays. *)
Theorem report_bounds :
  (nbupdaters + nbreaders <= MAX_THREAD -> exists a r,
     main_tests nbcores nbupdaters nbreaders order rep = Some (a, r) /\
     forall f, is_Some (main_figure nbupdaters nbreaders a r f)) /\
  (MAX_THREAD < nbupdaters + nbreaders -> main_tests nbcores nbupdaters nbreaders order rep = None).
Proof.
  split; intros Hmax.
  - destruct (main_tests_spec nbcores nbupdaters nbreaders Hu Hr order rep Ho Hmax) as (a & r & He & Ha & Hs & _).
    exists a, r. split; [done|]. intros f. by apply main_figure_some.
  - unfold main_tests. change (Z.to_nat ITERATION) with 5%nat. cbn [tests].
    rewrite (put_all_overflow _ _ _ MAX_THREAD); [done| |lia]. rewrite Ho. apply elem_of_seqZ. unfold MAX_THREAD in *. lia.
Qed.

End report.

(** The command line does not keep the number of threads within the bound. *)
Lemma too_many_threads : exists c, setup_test 5 [300; 1; 10; 10] = Some c /\ MAX_THREAD < nbupdaters c + nbreaders c.
Proof. eexists. split; [reflexivity|]. done. Qed.

(** Two readers and an updater that ends second. *)
Definition sample_report (j t : Z) (s : tstat) : spec_float := of_int (10 * j + t + 1).

Lemma report_extrema_witness : exists a r, main_tests 4 1 2 (fun _ => [2; 0; 1]) sample_report = Some (a, r) /\
  let print := main_figure 1 2 a r in
  bounds_times sample_report 1 2 (print Min_read) (print Max_read) /\
  bounds_times sample_report 0 1 (print Min_write) (print Max_write).
Proof.
  apply (report_extrema 4 1 2 ltac:(lia) ltac:(lia) (fun _ => [2; 0; 1]) sample_report).
  - intros _. apply (Permutation_trans (l' := [0; 2; 1])); [apply perm_swap|]. apply perm_skip, perm_swap.
  - unfold MAX_THREAD. lia.
  - intros j t Hj Ht. unfold ITERATION in Hj. assert (Hjs : j ∈ seqZ 0 5) by (apply elem_of_seqZ; lia).
    assert (Hts : t ∈ seqZ 0 3) by (apply elem_of_seqZ; lia). clear Hj Ht. revert t Hts. apply Forall_forall.
    revert j Hjs. apply Forall_forall. apply (bool_decide_unpack _). vm_compute. reflexivity.
Defined.

Lemma report_bounds_witness :
  (1 + 2 <= MAX_THREAD -> exists a r, main_tests 4 1 2 (fun _ => [2; 0; 1]) sample_report = Some (a, r) /\
     forall f, is_Some (main_figure 1 2 a r f)) /\
  (MAX_THREAD < 1 + 2 -> main_tests 4 1 2 (fun _ => [2; 0; 1]) sample_report = None).
Proof.
  apply (report_bounds 4 1 2 ltac:(lia) ltac:(lia) (fun _ => [2; 0; 1]) sample_report).
  intros _. apply (Permutation_trans (l' := [0; 2; 1])); [apply perm_swap|]. apply perm_skip, perm_swap.
Defined.

(** ** The end of run *)

(** [run] changes nothing after its loop: it reports the counters the thread
    kept. *)
Lemma run_end_report `{HC : Calloc} rcu start stop i t m : exists rep, run (run_end rcu start stop i t) m = Ok rep m /\
  (forall v, mget m (LTls t Vthd_ins) = Some v -> rep Suc_ins = of_int v) /\
  (forall v, mget m (LTls t Vthd_del) = Some v -> rep Suc_del = of_int v) /\
  (forall v, mget m (LTls t Vthd_sea) = Some v -> rep Suc_sea = of_int v) /\
  rep Thd_ops = of_int i /\ rep Avg_time = fdiv (rep Thd_time) (of_int i).
Proof.
  destruct (mget_static m (LTls t Vnbmallocs) eq_refl) as [v1 H1], (mget_static m (LTls t Vnbretry) eq_refl) as [v2 H2],
    (mget_static m (LTls t Vnbrelink) eq_refl) as [v3 H3], (mget_static m (LTls t Vnbreprev) eq_refl) as [v4 H4],
    (mget_static m (LTls t Vnbblockeds) eq_refl) as [v5 H5], (mget_static m (LGlob Grcublockeds) eq_refl) as [v6 H6],
    (mget_static m (LTls t Vthd_ins) eq_refl) as [v7 H7], (mget_static m (LTls t Vthd_sea) eq_refl) as [v8 H8],
    (mget_static m (LTls t Vthd_del) eq_refl) as [v9 H9].
  destruct rcu; (eexists; split;
    [unfold run_end; rewrite (run_load _ _ _ _ H1), (run_load _ _ _ _ H2), (run_load _ _ _ _ H3), (run_load _ _ _ _ H4)|]).
  1: unfold atomic_read4; rewrite (run_load _ _ _ _ H6).
  3: rewrite (run_load _ _ _ _ H5).
  1,3: rewrite (run_load _ _ _ _ H7), (run_load _ _ _ _ H8), (run_load _ _ _ _ H9); reflexivity.
  all: cbv beta; split_and!; congruence.
Qed.

(** The updater of the benchmark reports the successes of its abstract loop. *)
Lemma updater_report `{HC : Calloc} rcu start stop i nb nbkeys now m : updater_post nb nbkeys now m ->
  exists (n : nat) (rep : tstat -> spec_float), run (run_end rcu start stop i 0) m = Ok rep m /\
    let T := spec_iters nbkeys n 0 (Tally (u32 (Z.lxor 0 now)) 0 0 (key_range nbkeys)) in
    rep Suc_ins = of_int (t_ins T) /\ rep Suc_del = of_int (t_del T).
Proof.
  intros (n & _ & _ & Hi & Hd). destruct (run_end_report rcu start stop i 0 m) as (rep & Hr & H1 & H2 & _).
  exists n, rep. split; [done|]. split; [by apply H1|by apply H2].
Qed.
