(* ===== verification/Benchmark.v ===== *)
(** * What the benchmark guarantees

    The theorems about the whole program in the builds of [variant], GECOS,
    SGECOS, sequence locks, generation locks and RCU: safety, the state of the
    table, the updater's results and the linearizability of the searches, in
    every interleaving of one updater, the readers and the main thread. *)
From S2P Require Import Prelude Mem Concrete Schedules RG SWP Table TableFacts Frozen Allocator ListOps Stamp ListWriter AllocState ListGecos GecosWriter ListSgecos SgecosWriter Lock ListLock LockWriter Util Mrow Hashtable Driver Pool Builds GecosSeq MrowMain.

(** The threads of a test: thread 0 is the updater, threads [1 .. nreaders]
    the readers; the last of the list is the main thread. *)
Definition benchmark (v : variant) (sp : loc -> prog unit) (join : Z -> prog unit)
    (nb nbkeys : Z) (now : Z -> Z) (loops fuel : nat) (nreaders : Z) : list (prog Z) :=
  let b := variant_build v sp fuel in
  run_thread (H := b) nb nbkeys 1 (now 0) false loops fuel 0 ::
  ((fun t => run_thread (H := b) nb nbkeys 1 (now t) false loops fuel t) <$> seqZ 1 nreaders) ++
  [test_rest join (1 + nreaders) 1 fuel ;; Ret 0].

(** Every bucket is a finite sorted list of allocated nodes. *)
Definition lists_ok (nb : Z) (m : mem) : Prop :=
  forall i, 0 <= i < nb -> exists xs, path LNext m (LHead i) xs /\ incr (keys m xs) /\
    (forall x, x ∈ xs -> node m x).

Lemma Inv_lists_ok nb s : gwf s -> bucket_dom nb s -> lists_ok nb (cm s).
Proof.
  intros [_ HI] Hd i Hi. destruct (Hd i Hi) as [xs Hxs]. exists xs.
  split; [by eapply inv_path|]. split; [by eapply inv_incr|]. intros x. by eapply inv_node.
Qed.

Section benchmark.
Context `{HC : Calloc} {HT : CallocTotal}.
Context (v : variant) (sp : loc -> prog unit) (Hsp : spin_init_ok sp).
Context (nb nbkeys main : Z) (fuel : nat) (Hso : sizes_ok nb nbkeys (S fuel)) (Hmain : main < 0).

Abbreviation E0 := (fun e => e = OutOfFuel).
#[local] Instance bench_build : Build := variant_build v sp (S fuel).
#[local] Instance bench_stamp : Stamp := variant_stamp v.
#[local] Instance bench_own : OwnSpec (variant_state v) := variant_own_spec v sp fuel.
#[local] Instance bench_init self : InitSpec (variant_state v self) := variant_init v sp (S fuel) self Hsp.
#[local] Instance bench_quiet : QuietThreads := variant_quiet v sp (S fuel).
#[local] Instance bench_search : SearchSpec (reader_err v) := variant_search_spec v sp (S fuel).

Lemma started_cfg m0 : started (H0 := variant_build v sp (S fuel)) main nb nbkeys (S fuel) m0 ->
  exists g0, let s0 := Cfg m0 [m0] g0 in
    gwf s0 /\ bucket_dom nb s0 /\
    hash_ok (variant_state v 0 (fun _ => 0)) nb m0 g0 (key_range nbkeys).
Proof.
  intros Hst. destruct (started_ok (variant_state v) main nb nbkeys (S fuel) Hso Hmain 0 ltac:(lia))
    as (m & g0 & Hst' & Hok & _).
  unfold started, bench_build in *. rewrite Hst in Hst'. injection Hst' as <-. exists g0. cbv zeta.
  split; [|split; [|done]].
  - split; [done|]. by destruct Hok as [[HI _] _].
  - intros i Hi. destruct (hash_ok_bucket _ _ _ _ _ _ Hok Hi) as (xs & Hxs & _). simpl. eauto.
Qed.

(** The first part of a thread that is not the updater. *)
Lemma reader_prefix_ok {A} now self (p : prog A) (Q : A -> gcfg -> Prop) s : gwf s -> bucket_dom nb s ->
  1 <= self ->
  (forall s', gwf s' -> bucket_dom nb s' -> wp (reader_err v) grely (rguar self) p Q s') ->
  wp (reader_err v) grely (rguar self)
    (run_init 1 now false (S fuel) self;; run_barrier (S fuel);; thread_register;; p) Q s.
Proof.
  intros W Hd Hself Hp. assert (HE : reader_err v OutOfFuel) by by left.
  unfold run_init. rewrite (proj2 (Z.leb_le 1 self)) by lia.
  eapply (r_bind self _ _ _ (fun _ _ => True)); [done| |].
  { do 10 (apply r_store_tls; [done|]; intros ? _ ?). unfold mysrand.
    apply (r_store_tls self _ Vthd_seed (u32 (Z.lxor self now)) (fun _ => Ret tt)); [done|].
    intros. by apply wp_ret. }
  intros _ s1 R1 W1 _. pose proof (bucket_dom_mono _ _ _ W R1 Hd) as Hd1.
  eapply (r_bind self _ _ _ (fun _ _ => True)); [done| |].
  { eapply wp_guar; [|apply (bguar_rguar self)]. apply run_barrier_ok; [done|apply _|].
    intros s2 s3 H23. by eapply rguar_grely, (bguar_rguar self). }
  intros _ s2 R2 W2 _. pose proof (bucket_dom_mono _ _ _ W1 R2 Hd1) as Hd2.
  apply r_quiet; [apply register_is_quiet|done|]. intros _ s3 R3 W3.
  apply Hp; [done|]. exact (bucket_dom_mono _ _ _ W2 R3 Hd2).
Qed.

Lemma main_thread_ok {A} join n (a : A) s : (forall i, quiet (join i)) ->
  wp (reader_err v) grely (rguar main) (test_rest join n 1 (S fuel);; Ret a) (fun _ _ => True) s.
Proof.
  intros Hj. assert (HbR : forall s s', bguar s s' -> grely s s').
  { intros s1 s2 Hb. by apply (rguar_grely 0), bguar_rguar. }
  eapply wp_guar; [|apply (bguar_rguar main)].
  eapply wp_bind; [apply _|]. eapply wp_post.
  { apply test_rest_ok; [by left|apply _|done|]. intros i s1. apply quiet_ok, Hj. }
  intros. by apply wp_ret.
Qed.

Lemma reader_thread_ok now loops self s : 1 <= self -> gwf s -> bucket_dom nb s ->
  wp (reader_err v) grely (rguar self)
    (run_thread nb nbkeys 1 now false loops (S fuel) self)
    (fun r _ => r = NB_TEST) s.
Proof.
  intros Hself W Hd. unfold run_thread. apply reader_prefix_ok; [done..|].
  intros s' W' Hd'. rewrite (proj2 (Z.leb_le 1 self)) by lia. destruct Hso.
  eapply r_bind; [done| |].
  { apply reader_loop_ok; [by left|apply bench_search|unfold nb_ok; lia|lia|unfold NB_TEST; lia|done|done]. }
  cbn beta. intros i s1 R1 W1 ->. apply r_quiet; [apply unregister_is_quiet|done|]. intros _ s2 R2 W2. by apply r_ret.
Qed.

(** ** All the threads together *)

Definition others (nreaders : Z) : list (Z * (Z -> gcfg -> Prop)) :=
  ((fun t => (t, fun r _ => r = NB_TEST)) <$> seqZ 1 nreaders) ++ [(main, fun _ _ => True)].

Lemma benchmark_run join now loops nreaders m0 tr ps m : (forall i, quiet (join i)) ->
  started (H0 := variant_build v sp (S fuel)) main nb nbkeys (S fuel) m0 ->
  psteps (benchmark v sp join nb nbkeys now loops (S fuel) nreaders, m0) tr (ps, m) ->
  exists g, let s := Cfg m (tr ++ [m0]) g in gwf s /\ bucket_dom nb s /\
    Forall2 (fun t p => ts_wp t p s)
      (pool_ts E0 (reader_err v) (fun _ s => updater_post nb nbkeys (now 0) (cm s)) (others nreaders)) ps.
Proof.
  intros Hj Hst Hps. destruct (started_cfg m0 Hst) as (g0 & W0 & Hd0 & Hok).
  set (s0 := Cfg m0 [m0] g0) in *.
  assert (Hno : ~ reader_err v Segfault) by (by intros [?|[_ ?]]).
  destruct (stamp_pool E0 (reader_err v) (fun _ s => updater_post nb nbkeys (now 0) (cm s))
    (others nreaders) (benchmark v sp join nb nbkeys now loops (S fuel) nreaders) ps s0 tr m)
    as (g & Hr & Hps'); [| |exact Hno| |exact Hps|].
  - intros r. unfold others. rewrite elem_of_app, list_elem_of_fmap, list_elem_of_singleton.
    intros [(t & -> & Ht%elem_of_seqZ)| ->]; simpl; lia.
  - done.
  - constructor; [exact (updater_ok E0 eq_refl (variant_state v) (S fuel) loops nb nbkeys (now 0) Hso _ s0 Hok)|].
    unfold others. rewrite fmap_app. apply Forall2_app; [|constructor; [|constructor]].
    + rewrite <- list_fmap_compose. apply Forall2_fmap_2, Forall_Forall2_diag, Forall_forall.
      intros t Ht%elem_of_seqZ. apply reader_thread_ok; [lia|done|done].
    + unfold ts_wp. cbn [ts_err ts_rely ts_guar ts_post reader_ts fst snd]. by apply main_thread_ok.
  - exists g. cbv zeta. pose proof (grely_gwf _ _ Hr W0) as W. split; [done|]. split; [|done].
    exact (bucket_dom_mono _ _ _ W0 Hr Hd0).
Qed.

Section run.
Context (join : Z -> prog unit) (Hjoin : forall i, quiet (join i)).
Context (now : Z -> Z) (loops : nat) (nreaders : Z) (m0 : mem) (Hst : started (H0 := variant_build v sp (S fuel)) main nb nbkeys (S fuel) m0).
Context (tr : list mem) (ps : list (prog Z)) (m : mem).
Context (Hps : psteps (benchmark v sp join nb nbkeys now loops (S fuel) nreaders, m0) tr (ps, m)).

(** C4: no thread faults, whatever the interleaving: memory that was never
    allocated is not accessed, no division by zero occurs and no assertion
    fails; only the readers of GECOS_B may use an uninitialised variable. *)
Theorem benchmark_no_fault t e : ps !! t = Some (Crash e) -> reader_err v e.
Proof.
  intros Hp. destruct (benchmark_run _ _ _ _ _ _ _ _ Hjoin Hst Hps) as (g & _ & _ & Hf).
  destruct (Forall2_lookup_r _ _ _ _ _ Hf Hp) as (ts & Hts & Hw).
  apply pool_ts_lookup in Hts as [[_ ->]|(t' & r & _ & _ & ->)]; [by left|exact Hw].
Qed.

(** C7: at every moment, every bucket is a finite, acyclic, sorted list. *)
Theorem benchmark_lists : lists_ok nb m.
Proof.
  destruct (benchmark_run _ _ _ _ _ _ _ _ Hjoin Hst Hps) as (g & W & Hd & _).
  exact (Inv_lists_ok _ _ W Hd).
Qed.

Lemma updater_ended r : ps !! 0%nat = Some (Ret r) -> updater_post nb nbkeys (now 0) m.
Proof.
  intros Hp. destruct (benchmark_run _ _ _ _ _ _ _ _ Hjoin Hst Hps) as (g & _ & _ & Hf).
  destruct (Forall2_lookup_r _ _ _ _ _ Hf Hp) as (ts & [= <-] & Hw).
  apply (Hw (Cfg m (tr ++ [m0]) g)). done.
Qed.

(** C8: the updater's result does not depend on the interleaving. *)
Theorem benchmark_updater r : ps !! 0%nat = Some (Ret r) -> updater_post nb nbkeys (now 0) m.
Proof. apply updater_ended. Qed.

(** C36: [myrand] has 15 bits.  Whatever the interleaving, when the updater has
    ended every key from [2^15] on is in the table if and only if it was put
    there at the start: in a table of more than [2^15] keys it never inserts
    nor deletes the others. *)
Theorem large_keys_untouched r : ps !! 0%nat = Some (Ret r) ->
  exists S, stores nb m S /\ forall k, 32768 <= k -> (k ∈ S <-> k < nbkeys).
Proof.
  intros Hr. destruct (updater_ended r Hr) as (n & _ & Hs & _). eexists. split; [exact Hs|].
  intros k Hk. destruct Hso. rewrite spec_iters_large by lia. cbn [t_set]. rewrite elem_of_key_range. lia.
Qed.

End run.

(** ** Linearizability *)

(** A reader whose keys are given instead of drawn. *)
Definition client (now : Z) (ks : list Z) (t : Z) : prog (list Z) :=
  run_init 1 now false (S fuel) t;;
  run_barrier (S fuel);;
  thread_register;;
  do_searches nb t ks.

(** The updater's thread, threads that search given keys, the main thread. *)
Definition searchers (join : Z -> prog unit) (now : Z) (loops : nat) (kss : list (list Z)) :
    list (prog (list Z)) :=
  (run_thread nb nbkeys 1 now false loops (S fuel) 0 ;; Ret []) ::
  imap (fun j ks => client now ks (Z.of_nat (S j))) kss ++
  [test_rest join (1 + Z.of_nat (length kss)) 1 (S fuel) ;; Ret []].

Definition client_specs (Q : nat -> list Z -> gcfg -> Prop) (n : nat) :
    list (Z * (list Z -> gcfg -> Prop)) :=
  ((fun j => (Z.of_nat (S j), Q j)) <$> seq 0 n) ++ [(main, fun _ _ => True)].

Lemma client_specs_lookup Q n j : (j < n)%nat ->
  (reader_ts (reader_err v) <$> client_specs Q n) !! j =
  Some (reader_ts (reader_err v) (Z.of_nat (S j), Q j)).
Proof.
  intros Hj. unfold client_specs. rewrite list_lookup_fmap, lookup_app_l by
    (rewrite length_fmap, length_seq; done).
  rewrite list_lookup_fmap, lookup_seq_lt by done. done.
Qed.

Lemma client_specs_length Q n : length (reader_ts (reader_err v) <$> client_specs Q n) = S n.
Proof. unfold client_specs. rewrite length_fmap, length_app, length_fmap, length_seq. simpl. lia. Qed.

(** The specifications agree on the other threads. *)
Lemma client_specs_other Q Q' n j : j <> n -> (forall j', j' <> j -> Q j' = Q' j') ->
  forall j', j' <> j -> client_specs Q n !! j' = client_specs Q' n !! j'.
Proof.
  intros _ HQ j' Hne. unfold client_specs. destruct (decide (j' < n)%nat) as [Hlt|Hge].
  - rewrite !lookup_app_l, !list_lookup_fmap, lookup_seq_lt by (rewrite ?length_fmap, ?length_seq; done).
    simpl. by rewrite HQ.
  - rewrite !lookup_app_r by (rewrite length_fmap, length_seq; lia).
    by rewrite !length_fmap.
Qed.

Lemma client_specs_pool (Q : nat -> list Z -> gcfg -> Prop) n ps s tr ps' m' :
  Forall2 (fun t p => ts_wp t p s) (pool_ts E0 (reader_err v) (fun _ _ => True) (client_specs Q n)) ps ->
  psteps (ps, cm s) tr (ps', m') ->
  exists g', grely s (Cfg m' (tr ++ ctr s) g') /\
    Forall2 (fun t p => ts_wp t p (Cfg m' (tr ++ ctr s) g'))
      (pool_ts E0 (reader_err v) (fun _ _ => True) (client_specs Q n)) ps'.
Proof.
  intros Hps Hst. eapply stamp_pool; [| | |exact Hps|exact Hst].
  - intros r. unfold client_specs. rewrite elem_of_app, list_elem_of_fmap, list_elem_of_singleton.
    intros [(j & -> & _)| ->]; simpl; lia.
  - done.
  - by intros [?|[_ ?]].
Qed.

Lemma searchers_start join now loops kss m0 g0 : (forall i, quiet (join i)) ->
  let s0 := Cfg m0 [m0] g0 in
  gwf s0 -> bucket_dom nb s0 -> hash_ok (variant_state v 0 (fun _ => 0)) nb m0 g0 (key_range nbkeys) ->
  Forall2 (fun t p => ts_wp t p s0)
    (pool_ts E0 (reader_err v) (fun _ _ => True) (client_specs (fun _ _ _ => True) (length kss)))
    (searchers join now loops kss).
Proof.
  intros Hj s0 W Hd Hok. constructor.
  { unfold ts_wp. cbn [ts_err ts_rely ts_guar ts_post updater_ts]. eapply wp_bind; [apply _|]. eapply wp_post.
    { exact (updater_ok E0 eq_refl (variant_state v) (S fuel) loops nb nbkeys now Hso _ s0 Hok). }
    intros. by apply wp_ret. }
  unfold client_specs. rewrite fmap_app. apply Forall2_app.
  2:{ constructor; [|constructor]. unfold ts_wp. cbn [ts_err ts_rely ts_guar ts_post reader_ts fst snd].
      by apply main_thread_ok. }
  apply Forall2_same_length_lookup. rewrite !length_fmap, length_seq, length_imap. split; [done|].
  intros j ts p Hts Hp. rewrite list_lookup_fmap, list_lookup_fmap in Hts.
  rewrite list_lookup_imap in Hp. destruct (kss !! j) as [ks|] eqn:Hks; [|done].
  pose proof (lookup_lt_Some _ _ _ Hks). rewrite lookup_seq_lt in Hts by done. simplify_eq/=.
  unfold ts_wp. cbn [ts_err ts_rely ts_guar ts_post reader_ts fst snd].
  apply reader_prefix_ok; [done|done|lia|]. intros s1 W1 Hd1. destruct Hso.
  eapply wp_post; [apply do_searches_ok; [apply bench_search|unfold nb_ok; lia|done..]|]. done.
Qed.

(** The specification of client [j] can be restarted in any configuration in
    which its searches have not begun. *)
Lemma client_restart join now loops kss m0 tr1 ps1 m1 j ks : (forall i, quiet (join i)) ->
  started (H0 := variant_build v sp (S fuel)) main nb nbkeys (S fuel) m0 ->
  psteps (searchers join now loops kss, m0) tr1 (ps1, m1) ->
  ps1 !! S j = Some (do_searches (H := variant_build v sp (S fuel)) nb (Z.of_nat (S j)) ks) -> (j < length kss)%nat ->
  exists s1 Q, cm s1 = m1 /\ ctr s1 = tr1 ++ [m0] /\ Q j = searches_post s1 nb ks /\
    Forall2 (fun t p => ts_wp t p s1)
      (pool_ts E0 (reader_err v) (fun _ _ => True) (client_specs Q (length kss))) ps1.
Proof.
  intros Hjoin Hst H1 Hj Hlt. destruct (started_cfg m0 Hst) as (g0 & W0 & Hd0 & Hok).
  destruct (client_specs_pool _ _ _ (Cfg m0 [m0] g0) _ _ _
    (searchers_start join now loops kss m0 g0 Hjoin W0 Hd0 Hok) H1) as (g1 & R1 & Hf1).
  set (s1 := Cfg m1 (tr1 ++ [m0]) g1) in *.
  pose proof (grely_gwf _ _ R1 W0) as W1. pose proof (bucket_dom_mono _ _ _ W0 R1 Hd0) as Hd1.
  set (Q := fun j' => if decide (j' = j) then searches_post s1 nb ks else fun _ _ => True).
  exists s1, Q. assert (HQ : Q j = searches_post s1 nb ks) by (unfold Q; by rewrite decide_True).
  split_and!; [done|done|done|].
  inversion Hf1 as [|ts0 p0 tss pss Hp0 Hrest Ets Eps]; subst ts0 tss. subst ps1.
  constructor; [done|]. simpl in Hj.
  rewrite Forall2_same_length_lookup in Hrest |- *. rewrite !client_specs_length in *.
  destruct Hrest as [Hlen Hrest]. split; [done|].
  intros j' ts p Hts Hp. destruct (decide (j' = j)) as [->|Hne].
  - rewrite client_specs_lookup, HQ in Hts by done. simplify_eq.
    unfold ts_wp. cbn [ts_err ts_rely ts_guar ts_post reader_ts fst snd].
    destruct Hso. apply do_searches_ok; [apply bench_search|unfold nb_ok; lia|done|done].
  - apply (Hrest j'); [|done]. rewrite list_lookup_fmap in Hts |- *.
    rewrite (client_specs_other (fun _ _ _ => True) Q (length kss) j); [done|lia| |done].
    intros j0 Hj0. unfold Q. by rewrite decide_False.
Qed.

(** C1: linearizability.  A client that has not begun in the pool [ps1] and has
    ended in the pool [ps2] got answers that were right, one after the other,
    in stores the execution went through between the two. *)
Theorem search_linearizable join now loops kss m0 tr1 ps1 m1 tr2 ps2 m2 j ks rs :
  (forall i, quiet (join i)) ->
  started (H0 := variant_build v sp (S fuel)) main nb nbkeys (S fuel) m0 ->
  psteps (searchers join now loops kss, m0) tr1 (ps1, m1) ->
  ps1 !! S j = Some (do_searches (H := variant_build v sp (S fuel)) nb (Z.of_nat (S j)) ks) -> (j < length kss)%nat ->
  psteps (ps1, m1) tr2 (ps2, m2) ->
  ps2 !! S j = Some (Ret rs) ->
  nowrap (H := variant_stamp v) (tr2 ++ tr1 ++ [m0]) ->
  explained nb (m1 :: reverse tr2) ks rs.
Proof.
  intros Hjoin Hst H1 Hj Hlt H2 Hr Hnw.
  destruct (client_restart _ _ _ _ _ _ _ _ _ _ Hjoin Hst H1 Hj Hlt) as (s1 & Q & <- & Ht1 & HQ & Hf1).
  destruct (client_specs_pool _ _ _ s1 _ _ _ Hf1 H2) as (g2 & R2 & Hf2).
  destruct (Forall2_lookup_r _ _ _ _ _ Hf2 Hr) as (ts & Hts & Hw).
  unfold pool_ts in Hts. simpl in Hts. rewrite client_specs_lookup, HQ in Hts by done. injection Hts as <-.
  destruct (Hw (Cfg m2 (tr2 ++ ctr s1) g2)) as (h & (new & Hnew & ->) & He); [done|by rewrite Ht1|].
  simpl in Hnew. by apply app_inv_tail in Hnew as ->.
Qed.

End benchmark.

(** ** Executions the theorems apply to *)

Definition demo_store : mem := start_store (variant_build Plain spin_init_zero 9) 2 5 9.

(** The whole program: updater, one reader, main thread. *)
Definition demo_pool : list (prog Z) :=
  benchmark Plain spin_init_zero join_now 2 5 (fun t => t) 3 9 1.

(** Everybody starts, the main thread stops the updater at once. *)
Definition demo_sched : list nat :=
  repeat 0%nat 13 ++ repeat 1%nat 13 ++ repeat 2%nat 12 ++ repeat 0%nat 60 ++ repeat 1%nat 200.

Lemma join_now_quiet i : quiet (join_now i).
Proof. intros r. exact I. Qed.

(** The reader of the schedule ran out of the three iterations it was given. *)
Lemma benchmark_no_fault_witness : exists tr ps m, psteps (demo_pool, demo_store) tr (ps, m) /\
  ps !! 1%nat = Some (Crash OutOfFuel) /\ reader_err Plain OutOfFuel.
Proof.
  destruct (start_store_ok Plain 2 5 8 small_sizes) as [Hst _].
  pose proof (sched_trace_psteps demo_sched (demo_pool, demo_store) _ [] (psteps_refl _)) as Hps.
  assert (Hc : crashed ((sched_trace demo_sched (demo_pool, demo_store) []).1.1 !! 1%nat) OutOfFuel = true) by (vm_compute; reflexivity).
  apply crashed_spec in Hc.
  destruct (sched_trace demo_sched (demo_pool, demo_store) []) as [[ps m] tr]. exists tr, ps, m.
  split; [exact Hps|]. split; [exact Hc|].
  apply (benchmark_no_fault Plain spin_init_zero spin_init_zero_ok 2 5 (-1) 8 small_sizes ltac:(lia)
    join_now join_now_quiet (fun t => t) 3 1 demo_store Hst tr ps m Hps 1 OutOfFuel Hc).
Defined.

Lemma benchmark_lists_witness : exists tr ps m, psteps (demo_pool, demo_store) tr (ps, m) /\ lists_ok 2 m.
Proof.
  destruct (start_store_ok Plain 2 5 8 small_sizes) as [Hst _].
  pose proof (sched_trace_psteps demo_sched (demo_pool, demo_store) _ [] (psteps_refl _)) as Hps.
  destruct (sched_trace demo_sched (demo_pool, demo_store) []) as [[ps m] tr]. exists tr, ps, m.
  split; [exact Hps|].
  apply (benchmark_lists Plain spin_init_zero spin_init_zero_ok 2 5 (-1) 8 small_sizes ltac:(lia)
    join_now join_now_quiet (fun t => t) 3 1 demo_store Hst tr ps m Hps).
Defined.

Lemma benchmark_updater_witness : exists tr ps m, psteps (demo_pool, demo_store) tr (ps, m) /\
  ps !! 0%nat = Some (Ret 0) /\ updater_post 2 5 0 m.
Proof.
  destruct (start_store_ok Plain 2 5 8 small_sizes) as [Hst _].
  pose proof (sched_trace_psteps demo_sched (demo_pool, demo_store) _ [] (psteps_refl _)) as Hps.
  assert (Hc : returned ((sched_trace demo_sched (demo_pool, demo_store) []).1.1 !! 0%nat) 0 = true) by (vm_compute; reflexivity).
  apply returned_spec in Hc.
  destruct (sched_trace demo_sched (demo_pool, demo_store) []) as [[ps m] tr]. exists tr, ps, m.
  split; [exact Hps|]. split; [exact Hc|].
  apply (benchmark_updater Plain spin_init_zero spin_init_zero_ok 2 5 (-1) 8 small_sizes ltac:(lia)
    join_now join_now_quiet (fun t => t) 3 1 demo_store Hst tr ps m Hps 0 Hc).
Defined.

(** The updater of a table of five keys has ended: no large key is there. *)
Lemma large_keys_untouched_witness : exists tr ps m, psteps (demo_pool, demo_store) tr (ps, m) /\
  ps !! 0%nat = Some (Ret 0) /\ exists S, stores 2 m S /\ forall k, 32768 <= k -> (k ∈ S <-> k < 5).
Proof.
  destruct (start_store_ok Plain 2 5 8 small_sizes) as [Hst _].
  pose proof (sched_trace_psteps demo_sched (demo_pool, demo_store) _ [] (psteps_refl _)) as Hps.
  assert (Hc : returned ((sched_trace demo_sched (demo_pool, demo_store) []).1.1 !! 0%nat) 0 = true) by (vm_compute; reflexivity).
  apply returned_spec in Hc.
  destruct (sched_trace demo_sched (demo_pool, demo_store) []) as [[ps m] tr]. exists tr, ps, m.
  split; [exact Hps|]. split; [exact Hc|].
  apply (large_keys_untouched Plain spin_init_zero spin_init_zero_ok 2 5 (-1) 8 small_sizes ltac:(lia)
    join_now join_now_quiet (fun t => t) 3 1 demo_store Hst tr ps m Hps 0 Hc).
Defined.

(** Deciding [nowrap]. *)
Definition nowrap_b (tr : list mem) : bool :=
  forallb (fun w => forallb (fun lv : loc * Z => match lv.1 with LGc _ => lv.2 <? word64 - 1 | _ => true end)
    (map_to_list w)) tr.

Lemma nowrap_b_spec tr : nowrap_b tr = true -> nowrap (H := gecos_stamp) tr.
Proof.
  unfold nowrap_b. intros H w Hw n v Hv. rewrite forallb_forall in H.
  specialize (H w ltac:(by apply list_elem_of_In)). rewrite forallb_forall in H.
  specialize (H (LGc n, v)). simpl in H. apply Z.ltb_lt, H. apply list_elem_of_In.
  by apply elem_of_map_to_list.
Qed.

(** One updater, one client that searches 1, the main thread; the list holds
    0 and 1. *)
Definition pair_store : mem := start_store (variant_build Plain spin_init_zero 6) 1 2 6.
Definition client_pool : list (prog (list Z)) :=
  searchers Plain spin_init_zero 1 2 5 join_now 0 2 [[1]].

(** Everybody is ready, [go] is up and the client has seen it; then the client
    reads the first node while the updater deletes and inserts. *)
Definition client_sched1 : list nat :=
  repeat 0%nat 12 ++ repeat 1%nat 12 ++ repeat 2%nat 2 ++ repeat 1%nat 1.
Definition client_sched2 : list nat :=
  repeat 1%nat 6 ++ repeat 0%nat 30 ++ repeat 1%nat 40.

Lemma pair_sizes : sizes_ok 1 2 6.
Proof. split; [lia|lia|]. change (Z.to_nat 2) with 2%nat. lia. Qed.

Lemma search_linearizable_witness : exists tr1 ps1 m1 tr2 ps2 m2,
  psteps (client_pool, pair_store) tr1 (ps1, m1) /\
  ps1 !! 1%nat = Some (do_searches (H := variant_build Plain spin_init_zero 6) 1 1 [1]) /\
  psteps (ps1, m1) tr2 (ps2, m2) /\ ps2 !! 1%nat = Some (Ret [1]) /\
  explained 1 (m1 :: reverse tr2) [1] [1].
Proof.
  destruct (start_store_ok Plain 1 2 5 pair_sizes) as [Hst _].
  pose proof (sched_trace_psteps client_sched1 (client_pool, pair_store) _ [] (psteps_refl _)) as Hp1.
  assert (Hb : (sched_trace client_sched1 (client_pool, pair_store) []).1.1 !! 1%nat =
    Some (do_searches (H := variant_build Plain spin_init_zero 6) 1 1 [1])) by (vm_cast_no_check (eq_refl (Some (do_searches (H := variant_build Plain spin_init_zero 6) 1 1 [1])))).
  pose proof (sched_trace_psteps client_sched2
    (sched_trace client_sched1 (client_pool, pair_store) []).1 _ [] (psteps_refl _)) as Hp2.
  assert (Hc : returned ((sched_trace client_sched2
    (sched_trace client_sched1 (client_pool, pair_store) []).1 []).1.1 !! 1%nat) [1] = true)
    by (vm_compute; reflexivity).
  assert (Hn : nowrap_b ((sched_trace client_sched2
    (sched_trace client_sched1 (client_pool, pair_store) []).1 []).2 ++
    (sched_trace client_sched1 (client_pool, pair_store) []).2 ++ [pair_store]) = true)
    by (vm_compute; reflexivity).
  apply returned_spec in Hc. apply nowrap_b_spec in Hn.
  destruct (sched_trace client_sched1 (client_pool, pair_store) []) as [[ps1 m1] tr1].
  cbn [fst snd] in *.
  destruct (sched_trace client_sched2 (ps1, m1) []) as [[ps2 m2] tr2]. cbn [fst snd] in *.
  exists tr1, ps1, m1, tr2, ps2, m2.
  split; [exact Hp1|]. split; [exact Hb|]. split; [exact Hp2|]. split; [exact Hc|].
  apply (search_linearizable Plain spin_init_zero spin_init_zero_ok 1 2 (-1) 5 pair_sizes ltac:(lia)
    join_now 0 2 [[1]] pair_store tr1 ps1 m1 tr2 ps2 m2 0 [1] [1]
    join_now_quiet Hst Hp1 Hb ltac:(simpl; lia) Hp2 Hc Hn).
Defined.
