(* ===== verification/GecosFaults.v ===== *)
(** * Two executions of the GECOS variants

    [GECOS_B] compares an uninitialised variable when the first iteration
    meets a reclaimed node, and [OSA_BEST] lets a reader follow a recycled
    node. *)
From S2P Require Import Prelude Mem Concrete Schedules RG SWP Table TableFacts Allocator ListOps ListWriter ListGecos GecosWriter GecosReader Util Mrow Hashtable Driver Pool Builds TableMain Benchmark.

(** One updater that runs [ops] and one reader that searches [ks]. *)
Definition duel (S : ListOps) (v : variant) (fuel : nat) (nb : Z) (ops : list (uop * Z)) (ks : list Z) :
    list (prog (list Z)) :=
  [ do_uops fuel nb 0 ops;
    do_searches (H := variant_build v spin_init_zero fuel) nb 1 ks ].

(** ** [GECOS_B] *)

Definition back_store : mem := start_store (variant_build Back_B spin_init_zero 9) 1 1 9.
Definition back_pool : list (prog (list Z)) := duel (@writer_ops (gecos_scheme 9)) Back_B 9 1 [(Del, 0)] [0].
(** The reader reads the head and the counter of the node; the updater deletes
    the node; the reader goes on. *)
Definition back_sched : list nat := repeat 1%nat 4 ++ repeat 0%nat 40 ++ repeat 1%nat 10.

(** C31: [prev] and [prev_gc] are used uninitialised. *)
Theorem back_uninitialised : exists tr ps m,
  psteps (back_pool, back_store) tr (ps, m) /\ ps !! 1%nat = Some (Crash Indeterminate).
Proof.
  pose proof (sched_trace_psteps back_sched (back_pool, back_store) _ [] (psteps_refl _)) as Hst.
  assert (Hc : crashed ((sched_trace back_sched (back_pool, back_store) []).1.1 !! 1%nat) Indeterminate = true)
    by (vm_compute; reflexivity).
  apply crashed_spec in Hc.
  destruct (sched_trace back_sched (back_pool, back_store) []) as [[ps m] tr].
  exists tr, ps, m. by split.
Qed.

(** ** [OSA_BEST] *)

Definition osa_scheme (fuel : nat) : Scheme := {|
  scheme_inserter := gecos_inserter fuel;
  unlock_before_free := false;
  ListWriter.free_node_later := free_node_later_osa_best fuel |}.

Definition osa_store : mem := start_store (variant_build Plain spin_init_zero 9) 2 5 9.
Definition osa_pool : list (prog (list Z)) :=
  duel (@writer_ops (osa_scheme 9)) Plain 9 2 [(Del, 2); (Del, 1); (Ins, 1)] [4].
(** The reader moves to the node of key 2 and reads its counter; the updater
    deletes 2 and 1 and inserts 1 again, in the node of key 2. *)
Definition osa_sched : list nat := repeat 1%nat 10 ++ repeat 0%nat 120 ++ repeat 1%nat 40.

(** C30: the key 4 is in its bucket all along and the search of 4 answers
    no: the first node retired never had its counter moved. *)
Theorem osa_best_wrong_answer : exists tr ps m,
  psteps (osa_pool, osa_store) tr (ps, m) /\ ps !! 1%nat = Some (Ret [0]) /\
  forall w, w ∈ osa_store :: tr -> holds_key w (LHead (bucket_of 2 4)) 4.
Proof.
  pose proof (sched_trace_psteps osa_sched (osa_pool, osa_store) _ [] (psteps_refl _)) as Hst.
  assert (Hc : returned ((sched_trace osa_sched (osa_pool, osa_store) []).1.1 !! 1%nat) [0] = true)
    by (vm_compute; reflexivity).
  assert (Hw : forallb (fun w => holds_key_b 9 w (LHead (bucket_of 2 4)) 4)
    (osa_store :: (sched_trace osa_sched (osa_pool, osa_store) []).2) = true)
    by (vm_compute; reflexivity).
  apply returned_spec in Hc.
  destruct (sched_trace osa_sched (osa_pool, osa_store) []) as [[ps m] tr].
  exists tr, ps, m. split_and!; [done|done|]. intros w Hin.
  eapply holds_key_b_spec. rewrite forallb_forall in Hw. apply Hw. by apply list_elem_of_In.
Qed.
