(* ===== verification/HpMain.v ===== *)
(** * Hazard pointers at work

    A C library for the examples, the theorems of [HpScan] and [HpProtect] on
    concrete stores, and two executions in which the hazard pointers of
    list_hp.c do not protect. *)
From S2P Require Import Prelude Mem Concrete Schedules RG SWP Table TableFacts Frozen Allocator ListOps Lock Stamp ListWriter ListHp HpScan HpProtect Util Mrow Hashtable Driver Pool Builds GecosSeq TableMain.

(** ** [qsort] and [bsearch] *)

Section sort.
Context (cmp : Z -> Z -> Z).

Fixpoint insert_by (x : Z) (l : list Z) : list Z :=
  match l with
  | [] => [x]
  | y :: l => if cmp x y <=? 0 then x :: y :: l else y :: insert_by x l
  end.

Definition sort_by (l : list Z) : list Z := foldr insert_by [] l.

Lemma insert_by_perm x l : insert_by x l ≡ₚ x :: l.
Proof.
  induction l as [|y l IH]; [done|]. simpl. destruct (_ <=? _); [done|].
  rewrite IH. apply Permutation_swap.
Qed.

Lemma sort_by_perm l : sort_by l ≡ₚ l.
Proof. induction l as [|x l IH]; [done|]. simpl. by rewrite insert_by_perm, IH. Qed.

Lemma insert_by_sorted x l : orders cmp (x :: l) -> sorted_by cmp l -> sorted_by cmp (insert_by x l).
Proof.
  intros (f & Hf). induction l as [|y l IH]; intros Hs; simpl.
  { constructor; constructor. }
  assert (Hle : forall a b, a ∈ x :: y :: l -> b ∈ x :: y :: l -> (cmp a b <= 0 <-> f a <= f b)).
  { intros a b Ha Hb. specialize (Hf a b Ha Hb). lia. }
  apply StronglySorted_inv in Hs as [Hs Hy]. rewrite Forall_forall in Hy. destruct (Z.leb_spec (cmp x y) 0) as [Hxy|Hxy].
  - constructor; [by constructor; [|apply Forall_forall]|]. apply Forall_forall. intros z Hz.
    apply elem_of_cons in Hz as [->|Hz]; [done|]. apply (Hle x z); [set_solver..|].
    transitivity (f y); [by apply (Hle x y); [set_solver..|]|]. apply (Hle y z); [set_solver..|]. by apply Hy.
  - constructor; [apply IH; [|done]|].
    + intros a b Ha Hb. apply Hf; set_solver.
    + apply Forall_forall. intros z. rewrite insert_by_perm, elem_of_cons. intros [->|Hz]; [|by apply Hy].
      apply (Hle y x); [set_solver..|]. assert (~ f x <= f y); [|lia].
      intros Hc. apply (Hle x y) in Hc; [lia|set_solver..].
Qed.

Lemma sort_by_sorted l : orders cmp l -> sorted_by cmp (sort_by l).
Proof.
  induction l as [|x l IH]; intros Ho; [constructor|]. destruct Ho as (f & Hf).
  apply insert_by_sorted.
  - exists f. intros a b. rewrite sort_by_perm. apply Hf.
  - apply IH. exists f. intros a b Ha Hb. apply Hf; set_solver.
Qed.

End sort.

#[export] Instance insertion_sort : StdSort := {|
  qsort := sort_by;
  bsearch cmp x l := existsb (fun y => cmp x y =? 0) l |}.

#[export] Instance insertion_sort_ok : StdSortOk.
Proof.
  split.
  - intros cmp l Ho. split; [apply sort_by_perm|by apply sort_by_sorted].
  - intros cmp x l _ _. cbn. rewrite existsb_exists.
    split; intros (y & Hy & Hc); exists y; (split; [by apply list_elem_of_In|by apply Z.eqb_eq]).
Qed.

(** ** Two zombies *)

(** Thread 0 has the zombies 64 and 128; the table has the node 192, of key 5,
    in bucket 0; slot 6 announces 128. *)
Definition zombie_store : mem :=
  <[LHP 6 := 128]> (<[LZlistN 0 := 2]> (<[LZlistP 0 := 64]> (<[LMrNext 64 := 128]>
    (<[LHead 0 := 192]> (<[LKey 192 := 5]> (<[LTls 1 Vthread := 1]>
      (calloc_block 192 (calloc_block 128 (calloc_block 64 ∅))))))))).

Definition addr_ok_b (p : Z) : bool := (0 <=? p) && (p <? 2 ^ 37) && (p mod CACHESIZE =? 0).

Lemma addr_ok_b_spec p : addr_ok_b p = true -> addr_ok 0 p.
Proof. unfold addr_ok_b, addr_ok. rewrite !andb_true_iff, Z.leb_le, Z.ltb_lt, Z.eqb_eq. tauto. Qed.

Lemma zombie_store_hp : hp_at 0 0 0 {[192]} [] zombie_store [64; 128].
Proof.
  assert (Hn : forall n, n ∈ [64; 128; 192] -> node zombie_store n).
  { intros n Hin. set_unfold in Hin. destruct_or! Hin; try done; subst n; apply node_b; done. }
  split.
  - exists [], []. split; [split|split].
    + done.
    + done.
    + constructor.
    + set_solver.
    + set_solver.
    + intros n Hin. apply Hn. set_solver.
    + exists NULL. split; [done|by left].
    + exists NULL. split; [done|by left].
    + set_solver.
  - done.
  - by apply (bool_decide_unpack _).
  - intros n Hin. set_unfold in Hin. by destruct_or! Hin; subst n.
  - intros n Hin. apply addr_ok_b_spec. set_unfold in Hin. by destruct_or! Hin; subst n.
  - done.
Qed.

Definition slots_ok (nbthreads : Z) (m : mem) : bool :=
  forallb (fun lv => match lv.1 with
    | LHP i => (lv.2 =? NULL) || ((i <? cells nbthreads) && addr_ok_b lv.2) | _ => true end) (map_to_list m).

Lemma slots_ok_spec nbthreads m i : slots_ok nbthreads m = true -> slot m i <> NULL ->
  i < cells nbthreads /\ addr_ok 0 (slot m i).
Proof.
  unfold slots_ok. rewrite forallb_forall. intros Hs. unfold slot, mget.
  destruct (m !! LHP i) as [v|] eqn:Hv; [|by destruct (is_static (LHP i))].
  intros Hne. cbn in Hne. specialize (Hs (LHP i, v)). cbn in Hs. apply orb_true_iff in Hs as [Hs|Hs].
  - by apply Z.eqb_eq in Hs.
  - apply andb_true_iff in Hs as [Hi Ha]. split; [by apply Z.ltb_lt|by apply addr_ok_b_spec].
  - apply list_elem_of_In. by apply elem_of_map_to_list.
Qed.

(** ** The theorems on this store *)

Lemma zombie_store_hazards : hazards zombie_store = [128].
Proof. by vm_compute. Qed.

Lemma zombie_store_fit : hazards_fit 3 0 zombie_store.
Proof.
  unfold hazards_fit. rewrite zombie_store_hazards. split; [|done].
  intros p ->%list_elem_of_singleton. by apply addr_ok_b_spec.
Qed.



(** A reader searches while thread 0 scans. *)
Definition protect_readers : list (prog unit) :=
  [ _ ← ListHp.search 9 1 5 (LHead 0) (LLock 0); Ret tt ].
Definition protect_pool : pool unit := (scan false 3 9 0 0 :: protect_readers, zombie_store).
Definition protect_sched : list nat := concat (repeat [0; 1; 0; 0] 300)%nat.


(** ** A hazard pointer that does not protect *)

(** [list_hp.c] in the build of [ONE_WRITER]. *)
Definition hp_build `{StdSort} (direct_scan : bool) (nbthreads : Z) (sp : loc -> prog unit) (fuel : nat) : Build := {|
  build_ops := @writer_ops (hp_scheme direct_scan nbthreads fuel);
  lock_init := sp;
  thread_register := Ret tt;
  thread_unregister := Ret tt;
  Mrow.search := ListHp.search fuel |}.

(** The keys 0 to 7 in two buckets. *)
Definition race_store : mem := <[LTls 1 Vthread := 1]> (start_store (hp_build false 2 spin_init_zero 20) 2 8 20).

(** The updater deletes 2 and 4, then inserts and deletes 101 until it scans,
    and inserts 9 in the node of 4. *)
Definition race_ops : list (uop * Z) :=
  [(Del, 2); (Del, 4)] ++ concat (repeat [(Ins, 101); (Del, 101)] 111) ++ [(Ins, 9)].
Definition race_pool : pool (list Z) :=
  ([do_uops (H := build_ops (Build := hp_build false 2 spin_init_zero 400)) 20 2 0 race_ops;
    do_searches (H := hp_build false 2 spin_init_zero 20) 2 1 [6]], race_store).
(** The reader is about to announce the node of 4, after that of 2. *)
Definition race_sched : list nat := repeat 1%nat 12 ++ repeat 0%nat (120 * 100) ++ repeat 1%nat 40.

(** C27: the key 6 is in its bucket all along and the search of 6 answers
    no: the node that leads to the one announced was deleted, so the pointer
    the reader reads again does not tell that the node was deleted too. *)
Theorem hp_wrong_answer : exists tr ps m,
  psteps race_pool tr (ps, m) /\ ps !! 1%nat = Some (Ret [0]) /\
  forall w, w ∈ race_store :: tr -> holds_key w (LHead (bucket_of 2 6)) 6.
Proof.
  pose proof (sched_trace_psteps race_sched race_pool _ [] (psteps_refl _)) as Hst.
  assert (Hc : (let r := sched_trace race_sched race_pool [] in
    returned (r.1.1 !! 1%nat) [0] &&
    forallb (fun w => holds_key_b 20 w (LHead (bucket_of 2 6)) 6) (race_store :: r.2)) = true)
    by (vm_compute; reflexivity).
  destruct (sched_trace race_sched race_pool []) as [[ps m] tr]. cbv zeta in Hc.
  apply andb_true_iff in Hc as [Hc Hw]. apply returned_spec in Hc.
  exists tr, ps, m. split_and!; [done|done|]. intros w Hin.
  eapply holds_key_b_spec. rewrite forallb_forall in Hw. apply Hw. by apply list_elem_of_In.
Qed.

(** ** The order of the hazard pointers *)

(** [compare] truncates the difference to an [int]: two blocks that
    lie 256 GiB apart compare equal, and of two that lie 128 GiB apart each
    compares less than the other. *)
Theorem compare_truncates a :
  compare (a + 2 ^ 38) a = 0 /\ compare (a + 2 ^ 37) a < 0 /\ compare a (a + 2 ^ 37) < 0.
Proof.
  unfold compare. replace (a + 2 ^ 38 - a) with (2 ^ 38) by lia.
  replace (a + 2 ^ 37 - a) with (2 ^ 37) by lia. replace (a - (a + 2 ^ 37)) with (- 2 ^ 37) by lia. done.
Qed.

(** ** A search alone *)

(** The store, up to the slots from [base] on that one thread owns. *)
Definition same_but_slots (base : Z) (m m' : mem) : Prop :=
  forall l, l <> LHP base -> l <> LHP (base + 1) -> m' !! l = m !! l.

Section alone.
Context `{HC : Calloc} (self key base : Z) (Hb : 0 <= base < Param.H - 1) (head : loc).
Context (m : mem).

Lemma same_mget m' l : same_but_slots base m m' -> list_loc l = true -> mget m' l = mget m l.
Proof. intros Hs Hl. unfold mget. rewrite Hs; [done|by destruct l..]. Qed.

Lemma hp_search_loop_run xs : forall fuel prev off m', rest_list m xs -> (forall x, x ∈ xs -> aligned x) ->
  list_loc prev = true -> mget m prev = Some (hd0 xs) -> (off = 0 \/ off = 1) -> same_but_slots base m m' ->
  (length xs < fuel)%nat ->
  exists m2, run (ListHp.search_loop fuel self base key head (ListHp.Loop prev (hd0 xs) off)) m' =
    Ok (spec_search key (kset m xs)) m2 /\ same_but_slots base m m2.
Proof.
  induction xs as [|x xs IH]; intros [|fuel] prev off m' Hr Hx Hl Hp Hoff Hs Hf; simpl in Hf; try lia;
    cbn [ListHp.search_loop hd0]; [by exists m'|].
  destruct (rest_list_cons _ _ _ Hr) as (Hr' & Hn & Hnx & _).
  destruct (aligned_even x ltac:(apply Hx; set_solver)) as [Hodd _].
  rewrite (proj2 (Z.eqb_neq x NULL)) by (by eapply node_nonnull).
  set (m1 := <[LHP (base + off) := x]> m').
  assert (Hs1 : same_but_slots base m m1).
  { intros l H1 H2. unfold m1. rewrite lookup_insert_ne; [by apply Hs|]. destruct Hoff as [-> | ->]; [|done].
    rewrite Z.add_0_r. done. }
  rewrite run_store; fold m1.
  2: { destruct (mget_static m' (LHP (base + off))) as [v Hv]; [|by exists v].
    unfold Param.H, Param.K in Hb. apply andb_true_iff. split; [apply Z.leb_le|apply Z.ltb_lt]; lia. }
  unfold write_read_barrier. rewrite run_fence, (run_load prev x) by (by rewrite (same_mget m1)).
  rewrite Z.eqb_refl. cbn [negb]. rewrite Hodd. cbn [negb c_assert]. rewrite run_bind. cbn [run].
  rewrite (run_load (LNext x) (hd0 xs)) by (by rewrite (same_mget m1)).
  assert (Hk : mget m1 (LKey x) = Some (nkey m x)).
  { rewrite (same_mget m1) by done. apply mget_lookup, node_key, Hn. }
  rewrite (run_load _ _ _ _ Hk). destruct (rest_answer key m x xs Hr) as [Hle Hgt].
  destruct (Z.leb_spec key (nkey m x)) as [H|H].
  - rewrite (run_load _ _ _ _ Hk). exists m1. split; [|done]. cbn [run]. f_equal. by apply Hle.
  - rewrite (Hgt H). replace (clean_pointer (hd0 xs)) with (hd0 xs).
    + apply IH; [done|set_solver|done|done| |done|lia]. destruct Hoff as [-> | ->]; [by right|by left].
    + destruct xs as [|y ys]; [done|]. symmetry. apply aligned_even, Hx. set_solver.
Qed.

End alone.

(** Without concurrent updates the search of list_hp.c returns the
    abstract answer and writes nothing but the two slots of its thread. *)
Theorem hp_search_alone `{HC : Calloc} self t key i lock fuel m xs :
  mget m (LTls self Vthread) = Some t -> 0 <= t < MAX_THREAD ->
  path LNext m (LHead i) xs -> rest_list m xs -> (forall x, x ∈ xs -> aligned x) -> (length xs + 1 < fuel)%nat ->
  exists m', run (ListHp.search fuel self key (LHead i) lock) m = Ok (spec_search key (kset m xs)) m' /\
    same_but_slots (t * Param.K) m m'.
Proof.
  intros Ht Hr Hp Hl Hx Hf. destruct fuel as [|fuel]; [lia|]. unfold ListHp.search.
  rewrite (run_load _ _ _ _ Ht). unfold MAX_THREAD in Hr. rewrite i32_small by (unfold Param.K; lia).
  cbn [ListHp.search_loop]. pose proof (path_hd _ _ _ _ Hp) as Hh. rewrite (run_load _ _ _ _ Hh).
  apply hp_search_loop_run; [|done|done|done|done|by left|by intros ?|lia].
  unfold Param.H, Param.K, MAX_THREAD. lia.
Qed.

Lemma hp_search_alone_witness : exists m',
  run (ListHp.search 9 1 5 (LHead 0) (LLock 0)) zombie_store = Ok 1 m' /\
  same_but_slots 3 zombie_store m'.
Proof.
  assert (Hl : rest_list zombie_store [192]).
  { split.
    - intros x ->%list_elem_of_singleton. by apply node_b.
    - done.
    - repeat constructor. }
  assert (Ha : forall x, x ∈ [192] -> aligned x) by (by intros x ->%list_elem_of_singleton).
  destruct (hp_search_alone 1 1 5 0 (LLock 0) 9 zombie_store [192] eq_refl ltac:(done) ltac:(done) Hl Ha
    ltac:(repeat constructor)) as (m' & Hr & Hs).
  exists m'. split; [|exact Hs]. by rewrite Hr.
Defined.
