(* ===== verification/RcuCount.v ===== *)
(** * Counting the nodes that wait (rcu.c)

    With [RCU_COUNT_BLC] the program counts the nodes that were retired and not
    yet freed, one by one or, with [RCU_COUNT_ATM], sixteen by sixteen.
    Callbacks that run between two retirements count right; a callback that
    runs during one can lose it. *)
From S2P Require Import Prelude Mem Concrete Schedules RG SWP Table TableFacts Frozen Allocator ListOps Stamp ListWriter ListRcu RcuWriter Util Mrow Hashtable Driver Pool Builds GecosSeq.

(** ** Retirements and callbacks *)

Inductive event := Retire | Callback.

(** The updater is thread 0, the callbacks run in [rcu_thread]. *)
Definition count_event (atm : bool) (e : event) : prog unit :=
  match e with Retire => count_retired atm 0 | Callback => count_freed atm rcu_thread end.

Fixpoint count_all (atm : bool) (es : list event) : prog unit :=
  match es with [] => Ret tt | e :: es => count_event atm e;; count_all atm es end.

(** The number of nodes that wait after [es], if no callback comes too early,
    and the greatest number that waited when a callback started. *)
Fixpoint waiting (n peak : Z) (es : list event) : option (Z * Z) :=
  match es with
  | [] => Some (n, peak)
  | Retire :: es => waiting (n + 1) peak es
  | Callback :: es => if n =? 0 then None else waiting (n - 1) (Z.max peak n) es
  end.

(** What [RCU_COUNT_ATM] counts too much, when the updater's [amort] is [a] and
    the callbacks' [b]. *)
Definition slack (atm : bool) (a b : Z) : Z :=
  if atm then (if a =? 0 then 0 else AMORT_COUNT - a) + b else 0.

(** The four variables. *)
Record at_counts (q r a b : Z) (m : mem) : Prop := {
  ac_q : mget m (LGlob Gqsblockeds) = Some q;
  ac_r : mget m (LGlob Grcublockeds) = Some r;
  ac_a : mget m (LTls 0 Vamort) = Some a;
  ac_b : mget m (LTls rcu_thread Vamort) = Some b }.

Definition counts_at (atm : bool) (n peak : Z) (m : mem) : Prop :=
  exists r a b, at_counts (n + slack atm a b) r a b m /\ 0 <= a < AMORT_COUNT /\ 0 <= b < AMORT_COUNT /\
    peak <= r <= peak + (if atm then 2 * (AMORT_COUNT - 1) else 0).

Lemma slack_bounds atm a b : 0 <= a < AMORT_COUNT -> 0 <= b < AMORT_COUNT ->
  0 <= slack atm a b <= (if atm then 2 * (AMORT_COUNT - 1) else 0).
Proof. unfold slack, AMORT_COUNT. intros Ha Hb. destruct atm, (Z.eqb_spec a 0); lia. Qed.

Section count.
Context `{HC : Calloc}.

Lemma run_store_end l v m : is_Some (mget m l) -> run (store l v) m = Ok tt (<[l := v]> m).
Proof. intros Hl. change (store l v) with (store l v ≫= Ret). by rewrite run_store. Qed.

Lemma run_xadd {A} l d v (k : Z -> prog A) m : mget m l = Some v ->
  run (atomic_xadd4 l d ≫= k) m = run (k v) (<[l := u64 (v + d)]> m).
Proof. intros Hl. cbn. by rewrite Hl. Qed.

Lemma run_ret {A B} (a : A) (k : A -> prog B) m : run (Ret a ≫= k) m = run (k a) m.
Proof. done. Qed.

(** One operation on the counters. *)
Ltac count_step :=
  first
    [ erewrite run_load by (mget_simpl; first [eassumption | reflexivity])
    | rewrite run_store by (eexists; mget_simpl; first [eassumption | reflexivity])
    | rewrite run_store_end by (eexists; mget_simpl; first [eassumption | reflexivity])
    | erewrite run_xadd by (mget_simpl; first [eassumption | reflexivity]) ].
Ltac counts_done := split; mget_simpl; first [eassumption | reflexivity | done].

Lemma retire_one q r a b m : at_counts q r a b m -> 0 <= q < 2 ^ 62 ->
  exists m', run (count_retired false 0) m = Ok tt m' /\ at_counts (q + 1) r a b m'.
Proof.
  intros [Hq Hr Ha Hb] Hn. unfold count_retired. do 2 count_step. rewrite i64_small by lia.
  eexists. split; [done|]. counts_done.
Qed.

Lemma retire_sixteen q r a b m : at_counts q r a b m -> 0 <= q < 2 ^ 62 -> 0 <= a < AMORT_COUNT ->
  exists m', run (count_retired true 0) m = Ok tt m' /\
    at_counts (if a =? 0 then q + AMORT_COUNT else q) r (if a =? AMORT_COUNT - 1 then 0 else a + 1) b m'.
Proof.
  unfold AMORT_COUNT. intros [Hq Hr Ha Hb] Hn Hra. unfold count_retired, AMORT_COUNT. do 3 count_step.
  rewrite i64_small by lia. destruct (Z.leb_spec 16 (a + 1)) as [Hle|Hlt].
  - assert (a = 15) as -> by lia. count_step. eexists. split; [done|]. counts_done.
  - count_step. rewrite (proj2 (Z.eqb_neq a (16 - 1))) by lia.
    destruct (Z.eqb_spec a 0) as [->|Hne].
    + change (0 + 1 =? 1) with true. cbv iota. count_step.
      eexists. split; [done|]. rewrite u64_small by (unfold word64; lia). counts_done.
    + rewrite (proj2 (Z.eqb_neq (a + 1) 1)) by lia. eexists. split; [done|]. counts_done.
Qed.

(** The first part of [count_freed]. *)
Lemma freed_peak {A} q r a b m (k : Z -> prog A) : at_counts q r a b m -> 0 <= q < 2 ^ 63 -> 0 <= r < 2 ^ 63 ->
  exists m', at_counts q (Z.max r q) a b m' /\
    run (tmp ← load (LGlob Gqsblockeds);
         rcublockeds ← load (LGlob Grcublockeds);
         (if u64 rcublockeds <? u64 tmp then
            store (LGlob Grcublockeds) (i64 tmp);;
            write_write_barrier
          else Ret tt);; k tmp) m = run (k q) m'.
Proof.
  intros [Hq Hr Ha Hb] Hn Hrr. do 2 count_step. rewrite !u64_small by (unfold word64; lia).
  destruct (Z.ltb_spec r q) as [Hlt|Hge].
  - exists (<[LGlob Grcublockeds := q]> m). rewrite i64_small by lia. rewrite Z.max_r by lia.
    split; [counts_done|]. rewrite run_bind, run_store by eauto. done.
  - exists m. rewrite Z.max_l by lia. done.
Qed.

Lemma free_one q r a b m : at_counts q r a b m -> 0 < q < 2 ^ 62 -> 0 <= r < 2 ^ 63 ->
  exists m', run (count_freed false rcu_thread) m = Ok tt m' /\ at_counts (q - 1) (Z.max r q) a b m'.
Proof.
  intros Hc Hn Hr. unfold count_freed.
  match goal with |- context [run (load _ ≫= fun tmp => load _ ≫= fun x => _ ≫= fun _ => @?k tmp) m] =>
    destruct (freed_peak q r a b m k Hc ltac:(lia) Hr) as (m1 & [Hq Hr1 Ha Hb] & ->) end.
  rewrite run_bind. do 2 count_step. rewrite i64_small by lia. count_step.
  rewrite i64_small by lia. rewrite (proj2 (Z.leb_le 0 (q - 1))) by lia. eexists. split; [done|]. counts_done.
Qed.

Lemma free_sixteen q r a b m : at_counts q r a b m -> 0 < q < 2 ^ 62 -> 0 <= r < 2 ^ 63 -> 0 <= b < AMORT_COUNT ->
  (b = AMORT_COUNT - 1 -> AMORT_COUNT <= q) ->
  exists m', run (count_freed true rcu_thread) m = Ok tt m' /\
    at_counts (if b =? AMORT_COUNT - 1 then q - AMORT_COUNT else q) (Z.max r q) a
      (if b =? AMORT_COUNT - 1 then 0 else b + 1) m'.
Proof.
  unfold AMORT_COUNT. intros Hc Hn Hr Hrb Hbq. unfold count_freed, AMORT_COUNT.
  match goal with |- context [run (load _ ≫= fun tmp => load _ ≫= fun x => _ ≫= fun _ => @?k tmp) m] =>
    destruct (freed_peak q r a b m k Hc ltac:(lia) Hr) as (m1 & [Hq Hr1 Ha Hb] & ->) end.
  rewrite run_bind. do 3 count_step. rewrite i64_small by lia. destruct (Z.leb_spec 16 (b + 1)) as [Hle|Hlt].
  - assert (b = 15) as -> by lia. rewrite u64_small by (unfold word64; lia). rewrite (proj2 (Z.leb_le 16 q)) by lia.
    cbn [c_assert]. rewrite run_ret. do 3 count_step. rewrite u64_small, i64_small by (unfold word64; lia). rewrite (proj2 (Z.leb_le 0 (q + Z.opp 16))) by lia.
    eexists. split; [done|]. counts_done.
  - rewrite (proj2 (Z.eqb_neq b (16 - 1))) by lia. cbn [run]. count_step. rewrite i64_small by lia.
    rewrite (proj2 (Z.leb_le 0 q)) by lia. eexists. split; [done|]. counts_done.
Qed.

(** ** Any sequence of retirements and callbacks *)

Lemma count_event_run atm e n peak m : counts_at atm n peak m -> 0 <= n < 2 ^ 61 -> 0 <= peak < 2 ^ 61 ->
  (e = Callback -> n <> 0) ->
  exists m', run (count_event atm e) m = Ok tt m' /\
    match e with Retire => counts_at atm (n + 1) peak m' | Callback => counts_at atm (n - 1) (Z.max peak n) m' end.
Proof.
  intros (r & a & b & Hc & Ha & Hb & Hr) Hn Hp He. pose proof (slack_bounds atm a b Ha Hb) as Hs.
  unfold AMORT_COUNT in *. destruct e; cbn [count_event].
  - destruct atm; cbn [slack] in *.
    + destruct (retire_sixteen _ r a b m Hc ltac:(lia) Ha) as (m' & Hrun & Hc'). exists m'. split; [done|].
      exists r, (if a =? AMORT_COUNT - 1 then 0 else a + 1), b. unfold slack, AMORT_COUNT in *.
      split; [|split; [destruct (Z.eqb_spec a (16 - 1)); lia|by split]].
      match goal with H : at_counts ?x _ _ _ _ |- at_counts ?y _ _ _ _ => replace y with x; [exact H|] end.
      destruct (Z.eqb_spec a 0), (Z.eqb_spec a (16 - 1)), (Z.eqb_spec (a + 1) 0); simpl; lia.
    + destruct (retire_one _ r a b m Hc ltac:(lia)) as (m' & Hrun & Hc'). exists m'. split; [done|].
      exists r, a, b. split; [|done]. unfold slack in *. by replace (n + 1 + 0) with (n + 0 + 1) by lia.
  - specialize (He eq_refl). destruct atm; cbn [slack] in *.
    + set (q := n + slack true a b) in *. unfold slack, AMORT_COUNT in *.
      assert (Hq : n <= q <= n + 30) by (unfold q; lia).
      destruct (free_sixteen q r a b m Hc ltac:(lia) ltac:(lia) Hb) as (m' & Hrun & Hc').
      { unfold AMORT_COUNT, q. intros ->. destruct (Z.eqb_spec a 0); lia. }
      exists m'. split; [done|].
      exists (Z.max r q), a, (if b =? AMORT_COUNT - 1 then 0 else b + 1). unfold slack, AMORT_COUNT in *.
      split; [|split; [done|split; [destruct (Z.eqb_spec b (16 - 1)); lia|lia]]].
      match goal with H : at_counts ?x _ _ _ _ |- at_counts ?y _ _ _ _ => replace y with x; [exact H|] end.
      unfold q. destruct (Z.eqb_spec b (16 - 1)); lia.
    + destruct (free_one _ r a b m Hc ltac:(lia) ltac:(lia)) as (m' & Hrun & Hc'). exists m'. split; [done|].
      exists (Z.max r n), a, b. unfold slack in *. rewrite Z.add_0_r in *. split; [done|]. unfold AMORT_COUNT. lia.
Qed.

Lemma count_all_run atm es : forall n peak n' peak' m, counts_at atm n peak m -> 0 <= n -> 0 <= peak ->
  n + Z.of_nat (length es) < 2 ^ 61 -> peak < 2 ^ 61 -> waiting n peak es = Some (n', peak') ->
  exists m', run (count_all atm es) m = Ok tt m' /\ counts_at atm n' peak' m'.
Proof.
  induction es as [|e es IH]; intros n peak n' peak' m Hc Hn Hp Hl Hl' Hw; cbn [waiting] in Hw.
  { simplify_eq. by exists m. }
  cbn [count_all length] in *.
  assert (He : e = Callback -> n <> 0) by (intros ->; destruct (Z.eqb_spec n 0); [done|lia]).
  destruct (count_event_run atm e n peak m Hc ltac:(lia) ltac:(lia) He) as (m1 & Hr & Hc1). rewrite run_bind, Hr.
  destruct e; [apply (IH (n + 1) peak n' peak' m1); [exact Hc1|lia|lia|lia|lia|exact Hw]|].
  specialize (He eq_refl). rewrite (proj2 (Z.eqb_neq n 0)) in Hw by done.
  apply (IH (n - 1) (Z.max peak n) n' peak' m1); [exact Hc1|lia|lia|lia|lia|exact Hw].
Qed.

(** C23: as long as callbacks and retirements do not overlap, [qsblockeds] is
    the number of nodes that wait, up to thirty with [RCU_COUNT_ATM],
    [rcublockeds] is the greatest number that waited when a callback started,
    within the same thirty, and no assertion of [free_node_cb] fails. *)
Theorem rcu_counts_waiting atm es n peak m : at_counts 0 0 0 0 m -> Z.of_nat (length es) < 2 ^ 61 ->
  waiting 0 0 es = Some (n, peak) ->
  exists m' q r, run (count_all atm es) m = Ok tt m' /\
    mget m' (LGlob Gqsblockeds) = Some q /\ mget m' (LGlob Grcublockeds) = Some r /\
    n <= q <= n + (if atm then 30 else 0) /\ peak <= r <= peak + (if atm then 30 else 0).
Proof.
  intros Hc Hl Hw.
  assert (H0 : counts_at atm 0 0 m).
  { exists 0, 0, 0. unfold slack, AMORT_COUNT. split; [by destruct atm|]. split_and!; try done. by destruct atm. }
  destruct (count_all_run atm es 0 0 n peak m H0 ltac:(lia) ltac:(lia) ltac:(lia) ltac:(lia) Hw)
    as (m' & Hr & (r & a & b & [Hq Hr' _ _] & Ha & Hb & Hrr)).
  pose proof (slack_bounds atm a b Ha Hb). unfold AMORT_COUNT in *.
  exists m', (n + slack atm a b), r. split_and!; try done; destruct atm; lia.
Qed.

End count.

(** Twenty retirements and eighteen callbacks. *)
Definition some_events : list event := repeat Retire 17 ++ repeat Callback 17 ++ [Retire; Retire; Callback; Retire].

Lemma rcu_counts_waiting_witness : exists m' q r, run (count_all true some_events) ∅ = Ok tt m' /\
  mget m' (LGlob Gqsblockeds) = Some q /\ mget m' (LGlob Grcublockeds) = Some r /\
  2 <= q <= 2 + 30 /\ 17 <= r <= 17 + 30.
Proof.
  apply (rcu_counts_waiting true some_events 2 17 ∅); [by split|by vm_compute|by vm_compute].
Defined.

(** ** A callback during a retirement *)

(** One node waits. *)
Definition one_waiting : mem :=
  match run (count_retired false 0) ∅ with Ok _ m | Err _ m => m end.

(** The callback has read [qsblockeds]; the updater counts a second node; the
    callback writes. *)
Definition lost_sched : list nat := repeat 1%nat 5 ++ repeat 0%nat 2 ++ repeat 1%nat 2.

(** C28: without [RCU_COUNT_ATM] the increment of a retirement is lost when a
    callback runs at the same time; then the counter is 0 although a node
    waits, and the assertion of its callback fails. *)
Theorem rcu_count_race : exists tr ps m m',
  psteps ([count_retired false 0; count_freed false rcu_thread], one_waiting) tr (ps, m) /\
  ps !! 0%nat = Some (Ret tt) /\ ps !! 1%nat = Some (Ret tt) /\
  run (count_freed false rcu_thread) m = Err AssertFail m'.
Proof.
  set (c := ([count_retired false 0; count_freed false rcu_thread], one_waiting)).
  pose proof (sched_trace_psteps lost_sched c _ [] (psteps_refl _)) as Hst.
  assert (Hc : (let r := sched_trace lost_sched c [] in
    returned (r.1.1 !! 0%nat) tt && returned (r.1.1 !! 1%nat) tt &&
    match run (count_freed false rcu_thread) r.1.2 with Err AssertFail _ => true | _ => false end) = true)
    by (vm_compute; reflexivity).
  destruct (sched_trace lost_sched c []) as [[ps m] tr]. cbv zeta in Hc. cbn [fst snd] in *.
  apply andb_true_iff in Hc as [[H0 H1]%andb_true_iff Hr]. apply returned_spec in H0, H1.
  destruct (run (count_freed false rcu_thread) m) as [|[] m'] eqn:He; try done. by exists tr, ps, m, m'.
Qed.
