(* ===== verification/Progress.v ===== *)
(** * Progress

    What a thread can still do at any moment of any interleaving if it runs
    alone from then on: the updater finishes, whatever the readers do and in
    every build; a reader finishes in the builds without a read lock, and waits
    for ever where the updater stopped in the middle of a sequence lock. *)
From S2P Require Import Prelude Mem Concrete Schedules RG SWP Table TableFacts Frozen Allocator ListOps Stamp ListWriter AllocState Lock ListLock LockWriter Util Mrow Hashtable Driver Pool Builds GecosSeq TableMain Benchmark.

(** The builds whose readers take no lock. *)
Definition lock_free (v : variant) : Prop :=
  match v with Seqlock _ _ _ | Gclock _ _ _ => False | _ => True end.

Section updates.
Context `{HS : ListOps} (self : Z) (SG : mem -> gst -> mem -> gst -> Prop).
Context (own : option Z -> gset Z -> mem -> Prop) {SS : ListOpsSpec self SG own}.

Lemma do_uops_spec E fuel nb ops : forall m g S, nb_ok nb -> hash_ok own nb m g S ->
  (size S + length ops <= fuel)%nat ->
  swp (foreign self) E SG (do_uops fuel nb self ops)
    (fun rs m' g' => rs = (spec_uops ops S).1 /\ hash_ok own nb m' g' (spec_uops ops S).2) m g.
Proof.
  induction ops as [|[u k] ops IH]; intros m g S Hnb Hok Hf; simpl in Hf; cbn [do_uops]; [by apply swp_ret|].
  apply swp_bind. eapply swp_mono; [apply (do_uop_spec self SG own E nb Hnb); [exact Hok|lia]|].
  cbn beta. intros r m1 g1 [-> Hok1]. pose proof (spec_uop_size u k S).
  apply swp_bind. eapply swp_mono; [apply IH; [done|exact Hok1|lia]|].
  cbn beta. intros rs m2 g2 [-> Hok2]. by apply swp_ret.
Qed.

End updates.

Section progress.
Context `{HC : Calloc} {HT : CallocTotal}.
Context (v : variant) (sp : loc -> prog unit) (Hsp : spin_init_ok sp).
Context (nb nbkeys main : Z) (fuel : nat) (Hso : sizes_ok nb nbkeys (S fuel)) (Hmain : main < 0).

#[local] Instance prog_build : Build := variant_build v sp (S fuel).
#[local] Instance prog_stamp : Stamp := variant_stamp v.
#[local] Instance prog_own : OwnSpec (variant_state v) := variant_own_spec v sp fuel.
#[local] Instance prog_search : SearchSpec (reader_err v) := variant_search_spec v sp (S fuel).

(** Thread 0 updates; the threads [1 ..] search. *)
Definition mixed (ops : list (uop * Z)) (kss : list (list Z)) : list (prog (list Z)) :=
  do_uops (S fuel) nb 0 ops :: imap (fun j ks => do_searches nb (Z.of_nat (S j)) ks) kss.

Section run.
Context (ops : list (uop * Z)) (kss : list (list Z)) (m0 : mem).
Context (Hst : started (H0 := variant_build v sp (S fuel)) main nb nbkeys (S fuel) m0).
Context (Hops : (Z.to_nat nbkeys + length ops <= S fuel)%nat).
Context (tr : list mem) (ps : list (prog (list Z))) (m : mem).
Context (Hps : psteps (mixed ops kss, m0) tr (ps, m)).

Abbreviation done_post := (fun (rs : list Z) (s : gcfg) => rs = (spec_uops ops (key_range nbkeys)).1 /\
  hash_ok (variant_state v 0 (fun _ => 0)) nb (private_part (foreign 0) (cm s)) (cg s) (spec_uops ops (key_range nbkeys)).2).

Lemma mixed_run : exists g, let s := Cfg m (tr ++ [m0]) g in gwf s /\ bucket_dom nb s /\
  Forall2 (fun t p => ts_wp t p s)
    (pool_ts (fun _ => False) (reader_err v) done_post
      ((fun j => (Z.of_nat (S j), fun _ _ => True)) <$> seq 0 (length kss))) ps.
Proof.
  destruct (started_cfg v sp Hsp nb nbkeys main fuel Hso Hmain m0 Hst) as (g0 & W0 & Hd0 & Hok).
  set (s0 := Cfg m0 [m0] g0) in *. assert (Hnb : nb_ok nb) by (destruct Hso; unfold nb_ok; lia).
  destruct (stamp_pool (fun _ => False) (reader_err v) done_post
    ((fun j => (Z.of_nat (S j), fun _ _ => True)) <$> seq 0 (length kss)) (mixed ops kss) ps s0 tr m)
    as (g & Hr & Hps'); [|by intros []|by intros [?|[_ ?]]| |exact Hps|].
  - intros r (j & -> & _)%list_elem_of_fmap. simpl. lia.
  - constructor.
    + unfold ts_wp. cbn [ts_err ts_rely ts_guar ts_post updater_ts].
      apply (updater_part _ _ (fun rs m g => rs = (spec_uops ops (key_range nbkeys)).1 /\
        hash_ok (variant_state v 0 (fun _ => 0)) nb m g (spec_uops ops (key_range nbkeys)).2)).
      apply (do_uops_spec 0 stamp_guar (variant_state v 0 (fun _ => 0)) (SS := ds_ops (DriverSpec := variant_driver v fuel 0) _)); [done| |].
      * apply (private_hash_ok (variant_state v)) in Hok. exact Hok.
      * rewrite size_key_range. lia.
    + apply Forall2_same_length_lookup. rewrite !length_fmap, length_seq, length_imap. split; [done|].
      intros j ts p Hts Hp. rewrite !list_lookup_fmap in Hts. rewrite list_lookup_imap in Hp.
      destruct (kss !! j) as [ks|] eqn:Hks; [|done]. pose proof (lookup_lt_Some _ _ _ Hks).
      rewrite lookup_seq_lt in Hts by done. simplify_eq/=.
      unfold ts_wp. cbn [ts_err ts_rely ts_guar ts_post reader_ts fst snd].
      eapply wp_post; [apply do_searches_ok; [apply prog_search|done..]|done].
  - exists g. cbv zeta. pose proof (grely_gwf _ _ Hr W0) as W. split; [done|]. split; [|done].
    exact (bucket_dom_mono _ _ _ W0 Hr Hd0).
Qed.

(** C10: whatever point its operations have reached and whatever the readers
    have done, the updater that runs alone finishes, with the results of the
    set. *)
Theorem updates_nonblocking : exists p m', ps !! 0%nat = Some p /\
  run p m = Ok (spec_uops ops (key_range nbkeys)).1 m' /\ stores nb m' (spec_uops ops (key_range nbkeys)).2.
Proof.
  destruct mixed_run as (g & _ & _ & Hf). inversion Hf as [|ts0 p tss pss Hp Hrest Ets Eps]; subst. exists p.
  unfold ts_wp in Hp. cbn [ts_err ts_rely ts_guar ts_post updater_ts] in Hp.
  apply wp_run in Hp; [|apply _]. cbn [cm] in Hp. destruct (run p m) as [rs m'|]; [|done].
  destruct Hp as (tr' & g' & -> & Hok). exists m'. split; [done|]. split; [done|].
  apply (private_hash_ok (variant_state v)) in Hok. by eapply hash_ok_stores.
Qed.

(** C15: in the builds without a read lock, a search that starts at any moment
    of any interleaving and runs alone ends, given enough fuel, with the answer
    of the list that its bucket holds at that moment. *)
Theorem search_nonblocking self key : lock_free v ->
  exists xs, path LNext m (LHead (bucket_of nb key)) xs /\ forall n, (2 * length xs + 1 < n)%nat ->
    run (variant_search v n self key (LHead (bucket_of nb key)) (LLock (bucket_of nb key))) m =
    Ok (spec_search key (kset m xs)) m.
Proof.
  intros Hv. destruct mixed_run as (g & [_ HI] & Hd & _). cbn [cm cg] in *.
  destruct (Hd (bucket_of nb key)) as [xs Hxs]; [destruct Hso; apply bucket_of_range; unfold nb_ok; lia|].
  cbn [cg] in Hxs. destruct (inv_head _ _ HI _ _ Hxs) as [_ [l0 Hl]].
  exists xs. split; [by eapply inv_path|]. intros n Hn.
  apply (variant_search_run self key v n _ _ l0); [by eapply inv_path| |by apply mget_lookup| |done].
  - split; [intros x; by eapply inv_node| |by eapply inv_incr]. eapply path_alt, inv_path; [done|exact Hxs].
  - by destruct v.
Qed.

End run.
End progress.

(** ** A reader waits for the updater *)

Lemma rlock_waits `{HC : Calloc} n lock v m : mget m lock = Some v -> Z.odd v = true ->
  run (Seq.rlock_loop n lock) m = Err OutOfFuel m.
Proof.
  intros Hl Hv. induction n as [|n IH]; [done|]. cbn [Seq.rlock_loop]. unfold read_read_barrier, compiler_barrier.
  rewrite (run_load _ _ _ _ Hl), run_fence, odd_i64, Hv. exact IH.
Qed.

Lemma seq_search_waits `{HC : Calloc} ow nw vld n self key head lock v m : mget m lock = Some v -> Z.odd v = true ->
  run (variant_search (Seqlock ow nw vld) n self key head lock) m = Err OutOfFuel m.
Proof.
  intros Hl Hv. cbn [variant_search]. unfold ListLock.search. destruct n as [|n]; [done|].
  cbn [ListLock.search_loop Lock.lock_rlock Seq.ops]. unfold Seq.lock_rlock.
  by rewrite !run_bind, (rlock_waits _ _ v).
Qed.

(** ** Executions *)

(** The keys 0 to 4 in two buckets, with sequence locks; the updater deletes 3
    and inserts 7, a reader searches. *)
Definition seq_variant : variant := Seqlock true false false.
Definition seq_start : mem := start_store (variant_build seq_variant spin_init_zero 9) 2 5 9.
Definition seq_pool : pool (list Z) := (mixed seq_variant spin_init_zero 2 8 [(Del, 3); (Ins, 7)] [[4; 3]], seq_start).
(** The updater has taken the lock of bucket 1. *)
Definition seq_sched : list nat := repeat 1%nat 4 ++ repeat 0%nat 4.

(** C29: with a sequence lock there is an interleaving after which no reader
    that runs alone finishes a search in the bucket, however long it runs: the
    updater stopped between taking and releasing the lock. *)
Theorem seqlock_readers_wait : exists tr ps m, psteps seq_pool tr (ps, m) /\
  forall n self key, bucket_of 2 key = 1 ->
    run (variant_search seq_variant n self key (LHead (bucket_of 2 key)) (LLock (bucket_of 2 key))) m =
    Err OutOfFuel m.
Proof.
  pose proof (sched_trace_psteps seq_sched seq_pool _ [] (psteps_refl _)) as Hst.
  assert (Hl : (match mget (sched_trace seq_sched seq_pool []).1.2 (LLock 1) with Some v => Z.odd v | None => false end) = true)
    by (vm_compute; reflexivity).
  destruct (sched_trace seq_sched seq_pool []) as [[ps m] tr]. cbn [fst snd] in *. exists tr, ps, m. split; [done|].
  intros n self key ->. destruct (mget m (LLock 1)) as [v|] eqn:Hv; [|done]. by apply (seq_search_waits _ _ _ _ _ _ _ _ v).
Qed.

Lemma updates_nonblocking_witness : exists tr ps m p m', psteps seq_pool tr (ps, m) /\ ps !! 0%nat = Some p /\
  run p m = Ok [1; 1] m' /\ stores 2 m' {[0; 1; 2; 4; 7]}.
Proof.
  destruct (start_store_ok seq_variant 2 5 8 small_sizes) as [Hst _].
  pose proof (sched_trace_psteps seq_sched seq_pool _ [] (psteps_refl _)) as Hps.
  destruct (sched_trace seq_sched seq_pool []) as [[ps m] tr].
  destruct (updates_nonblocking seq_variant spin_init_zero spin_init_zero_ok 2 5 (-1) 8 small_sizes ltac:(lia)
    [(Del, 3); (Ins, 7)] [[4; 3]] seq_start Hst ltac:(apply Nat.leb_le; reflexivity) tr ps m Hps)
    as (p & m' & Hp & Hr & Hs).
  exists tr, ps, m, p, m'. split; [exact Hps|]. split; [exact Hp|]. split; [exact (eq_trans Hr eq_refl)|].
  assert (Heq : (spec_uops [(Del, 3); (Ins, 7)] (key_range 5)).2 = {[0; 1; 2; 4; 7]}) by (apply (bool_decide_unpack _); by vm_compute).
  rewrite <- Heq. exact Hs.
Defined.

Definition gecos_pool : pool (list Z) :=
  (mixed Plain spin_init_zero 2 8 [(Del, 3); (Ins, 7)] [[4; 3]], demo_store).

Lemma search_nonblocking_witness : exists tr ps m xs, psteps gecos_pool tr (ps, m) /\
  path LNext m (LHead 1) xs /\
  run (ListGecos.search (2 * length xs + 2) 5 3 (LHead 1) (LLock 1)) m = Ok (spec_search 3 (kset m xs)) m.
Proof.
  destruct (start_store_ok Plain 2 5 8 small_sizes) as [Hst _].
  pose proof (sched_trace_psteps seq_sched gecos_pool _ [] (psteps_refl _)) as Hps.
  destruct (sched_trace seq_sched gecos_pool []) as [[ps m] tr].
  destruct (search_nonblocking Plain spin_init_zero spin_init_zero_ok 2 5 (-1) 8 small_sizes ltac:(lia)
    [(Del, 3); (Ins, 7)] [[4; 3]] demo_store Hst ltac:(apply Nat.leb_le; reflexivity) tr ps m Hps 5 3 I)
    as (xs & Hp & Hr).
  exists tr, ps, m, xs. split; [exact Hps|]. split; [exact Hp|].
  apply (Hr (2 * length xs + 2)%nat). apply Nat.add_lt_mono_l. repeat constructor.
Defined.
