(* ===== verification/GraceMain.v ===== *)
(** * RCU with its library at work

    The table of list_rcu.c, list_writer.c and rcu.c from its creation on: one
    updater, any number of readers, and the library's thread, which gives nodes
    back to the allocator when the readers that might stand on them have left.
    Their steps come in any order. *)
From S2P Require Import Prelude Mem Concrete RG Events SWP Table TableFacts Erase Frozen Allocator AllocRoles ListOps Stamp ListWriter AllocState ListRcu RcuWriter RcuSearch Grace GraceLogic GraceSteps GraceWriter GraceReader GracePool Util Mrow Hashtable Driver Pool Builds GecosSeq TableMain Benchmark Progress.

(** The thread that the nodes in the library's list are put down to. *)
Definition wait_thread : Z := -3.

Definition event_lib : rcu_lib := RcuLibrary urcu urcu_ok.
Definition grace_variant (count_atm : bool) : variant := Rcu false count_atm event_lib.

(** ** The table at the start *)

(** The nodes of a store. *)
Definition nodes_of (m : mem) : gset Z :=
  list_to_set (filter (node m) ((fun lv => match lv.1 with LKey p => p | _ => NULL end) <$> map_to_list m)).

Lemma elem_of_nodes_of m n : n ∈ nodes_of m <-> node m n.
Proof.
  unfold nodes_of. rewrite elem_of_list_to_set, list_elem_of_filter, list_elem_of_fmap.
  split; [by intros [? _]|]. intros Hn. split; [done|]. exists (LKey n, nkey m n).
  split; [done|]. apply elem_of_map_to_list. by apply node_key.
Qed.

Lemma stores_erase nb m S : stores nb (erase m) S <-> stores nb m S.
Proof. apply stores_agree. intros l Hl. by rewrite erase_list. Qed.

Section start.
Context (nb : Z) (d : tlsvar -> Z) (m0 : mem) (g0 : gst) (S : gset Z).
Context (Hok : hash_ok (alloc_state any_lock 0 d) nb m0 g0 S).
Context (Htls : forall x, m0 !! LTls rcu_thread x = None).

(** The nodes are the updater's, those of the shared list apart. *)
Definition start_ast (gl : list Z) : ast :=
  Ast gl (fun t => if decide (t = 0) then nodes_of m0 ∖ list_to_set gl else ∅).

Lemma elem_of_start_ast gl t x : x ∈ mine (start_ast gl) t <-> t = 0 /\ node m0 x /\ x ∉ gl.
Proof. cbn. case_decide; rewrite ?elem_of_difference, ?elem_of_nodes_of, ?elem_of_list_to_set; set_solver. Qed.

Lemma grace_start : exists s0 g1, cm s0 = m0 /\ ctr s0 = [m0] /\ jl (cg s0) = Lib ∅ [] /\
  jbk (cg s0) = bk g0 /\ sees rcu_thread wait_thread s0 (erase m0) g1 /\ hash_ok rcu_own nb (erase m0) g1 S /\ idle rcu_thread s0.
Proof.
  destruct Hok as [(HI & Hp & U & (Ho & _) & HU) Ha]. destruct Ho as (fl & gl & [Hfl Hgl Hnd Hnode Hfree Hused _]).
  set (s0 := Cfg m0 [m0] (Jst (Lib ∅ []) (bk g0) None (start_ast gl)) : jcfg).
  set (g1 := Gst (bk g0) None (old g0 ∪ list_to_set (fl ++ gl))).
  assert (Hlive : forall x, live g0 x -> x ∈ U) by (intros x Hx; apply HU; by left).
  assert (Hbk : forall g x, bk g = bk g0 -> pend g = None -> live g x -> live g0 x).
  { intros g x Hb Hpn [i Hl]. exists i. unfold live_in in *. rewrite Hb, Hpn in Hl. by rewrite Hp. }
  assert (Hai : ainv any_node (alloc_part s0)).
  { split; cbn [alloc_part cm cg s0 ja shared].
    - done.
    - by apply NoDup_app in Hnd as (_ & _ & ?).
    - intros x Hx. split; [|done]. apply Hnode. set_solver.
    - intros t x (_ & ? & ?)%elem_of_start_ast. done.
    - intros t u x (-> & _)%elem_of_start_ast (-> & _)%elem_of_start_ast. done. }
  assert (Hinv : jinv rcu_thread wait_thread s0).
  { split; cbn [cm ctr cg s0 jl jbk jpend ja]; [done| |done|apply NoDup_nil_2| | | |].
    - pose proof (Inv_shrink m0 g0 ∅ HI ltac:(set_solver)) as H. by rewrite Hp in H.
    - intros n. cbn. set_solver.
    - intros n Hn. apply elem_of_start_ast. split; [done|]. apply Hbk in Hn; [|done..]. split.
      + destruct Hn as [i Hn]. by eapply live_node.
      + intros Hg. apply (Hfree n); [set_solver|]. by apply Hlive.
    - intros n Hn. destruct (decide (n ∈ gl)); [right; by left|]. left. by apply elem_of_start_ast.
    - cbn. set_solver. }
  assert (HI1 : Inv (erase m0) g1).
  { apply (Inv_grows m0); [apply grows_erase|]. unfold g1. rewrite <- Hp. apply Inv_old; [done|].
    intros n [Hn|Hn]%elem_of_union; [by apply (inv_old _ _ HI)|]. apply elem_of_list_to_set in Hn. split; [by apply Hnode|].
    intros Hl. by eapply Hfree, Hlive. }
  exists s0, g1. do 4 (split; [done|]). split; [|split].
  - split; cbn [bk pend old g1]; [done|done|done|done|cbn; set_solver| |].
    + intros x [Hx|[Hx|Hx]]; [cbn in Hx; set_solver|by apply elem_of_start_ast in Hx as [? _]..].
    + exists fl. split; [|intros x Hx; set_solver]. apply NoDup_app in Hnd as (Hndf & Hdis & _).
      split; [done|]. rewrite app_nil_r. split; [by apply chain_path|]. split; [done|]. intros x Hx. apply elem_of_start_ast.
      split; [done|]. split; [apply Hnode; set_solver|by apply Hdis].
  - split; [|change (abs_table (erase m0) g1) with (abs_table (erase m0) g0); rewrite (abs_table_grows m0); [done|apply grows_erase|done]].
    split; [done|]. split; [done|]. exists (U ∪ list_to_set (fl ++ gl)). split.
    + intros n [Hn|Hn]%elem_of_union; apply node_erase; [by apply Hused|]. apply Hnode. by apply elem_of_list_to_set in Hn.
    + intros n. rewrite elem_of_union, HU. unfold kept. cbn [old g1]. rewrite elem_of_union.
      assert (Hlg : live g1 n <-> live g0 n) by (unfold live, live_in; cbn [bk pend g1]; by rewrite Hp). rewrite Hlg. tauto.
  - assert (Hz : forall x, mget m0 (LTls rcu_thread x) = Some 0) by (intros x; unfold mget; by rewrite Htls).
    exists []. split; [|exact (Hz Vlfl_tail)]. split; [done|]. split; [exact (Hz Vlfl)|]. split; [constructor|]. by intros x ?%elem_of_nil.
Qed.

End start.

(** ** The updater *)

Section proofs.
Context `{HC : Calloc} {HT : CallocTotal} (count_atm : bool) (sp : loc -> prog unit) (fuel : nat) (nb : Z) (Hnb : nb_ok nb).
#[local] Instance grace_build : Build := variant_build (grace_variant count_atm) sp fuel.

Let Hcb : rcu_thread <> 0 := ltac:(done).
Let Hwt : wait_thread <> 0 := ltac:(done).
Let Hcw : wait_thread <> rcu_thread := ltac:(done).
Abbreviation gj := (gj rcu_thread wait_thread).

Lemma gj_uops ops : forall m g S, hash_ok rcu_own nb m g S -> (size S + length ops <= fuel)%nat ->
  gj _ (do_uops fuel nb 0 ops)
    (fun rs m' g' => rs = (spec_uops ops S).1 /\ hash_ok rcu_own nb m' g' (spec_uops ops S).2) m g.
Proof.
  intros m g S Hok Hf. apply (uops_spec (HS := rcu_scheme false count_atm fuel rcu_thread) gj (fun _ _ _ => True) fuel 0 rcu_own
    (SS := gj_scheme _ _ Hcb Hwt Hcw count_atm fuel rcu_thread fuel)); done.
Qed.

(** ** The readers *)

Abbreviation jinv := (jinv rcu_thread wait_thread).
Abbreviation rwp j := (lwp (lib_step j) (touches j) (fun e => e = OutOfFuel)
  (keeps rcu_thread wait_thread (stable_r j)) (guar_r rcu_thread wait_thread j)).

Definition has_buckets (s : jcfg) : Prop := forall i, 0 <= i < nb -> is_Some (jbk (cg s) !! i).

(** The answers [rs] to the searches of [ks] are explained by the stores since [s0]. *)
Definition answered (j : nat) (s0 : jcfg) (ks rs : list Z) (s : jcfg) : Prop :=
  jinv s /\ answers nb (view j s0) ks rs (view j s).

Lemma g_searches j self ks : forall s, jinv s -> has_buckets s -> rwp j (do_searches nb self ks) (answered j s ks) s.
Proof.
  induction ks as [|k ks IH]; intros s Hi Hd; cbn [do_searches].
  { intros s' R. destruct (rely_passes _ _ j _ _ R Hi) as [Hi' [Ht _]]. split; [done|]. by apply answers_nil. }
  rewrite get_buckets_eq by done. cbn [mbind prog_bind fst snd].
  pose proof (grace_search_ok rcu_thread wait_thread Hcb Hwt Hcw j fuel self (LLock (bucket_of nb k)) k (bucket_of nb k) s Hi
    (Hd _ (bucket_of_range nb k Hnb))) as Hs.
  apply (ewp_track _ _ _ _ _ _ _ _ _ (keeps rcu_thread wait_thread passes) (rely_passes _ _ j) (guar_passes _ _ j)) in Hs.
  apply ewp_bind; [apply _|]. eapply ewp_post; [exact Hs|].
  cbn beta. intros r s1 (R1 & Hi1 & Hl). destruct (R1 Hi) as [_ [Ht1 Hd1]].
  apply ewp_bind; [apply _|]. eapply ewp_post; [apply IH; [done|intros i Hr; by apply Hd1, Hd]|].
  cbn beta. intros rs s2 [Hi2 Ha] s3 R3. destruct (rely_passes _ _ j _ _ R3 Hi2) as [Hi3 [Ht3 _]]. split; [done|].
  apply (answers_cons nb (view j s) (view j s1) (view j s2)); [by eapply view_wf|by eapply view_wf|exact Ht1|exact Ht3|exact Hl|exact Ha].
Qed.

End proofs.

(** ** The machine from the start *)

Section main.
Context `{HC : Calloc} {HT : CallocTotal} (count_atm : bool) (sp : loc -> prog unit) (Hsp : spin_init_ok sp).
Context (nb nbkeys main : Z) (fuel : nat) (Hso : sizes_ok nb nbkeys (S fuel)) (Hmain : main < 0) (Hmt : main <> rcu_thread).
Abbreviation v := (grace_variant count_atm).
Abbreviation cb := (free_node_cb false count_atm (S fuel) rcu_thread).

(** The threads of [mixed], nobody in a critical section, no node waiting and
    the library's thread idle. *)
Definition grace_machine (ops : list (uop * Z)) (kss : list (list Z)) (m0 : mem) : machine (list Z) :=
  Machine (mixed v sp nb fuel ops kss) (Ret tt) (Lib ∅ []) m0.

Context (ops : list (uop * Z)) (kss : list (list Z)) (m0 : mem).
Context (Hst : started (H0 := variant_build v sp (S fuel)) main nb nbkeys (S fuel) m0).
Context (Hops : (Z.to_nat nbkeys + length ops <= S fuel)%nat).

(** What the updater leaves. *)
Definition updated (rs : list Z) (s : jcfg) : Prop :=
  rs = (spec_uops ops (key_range nbkeys)).1 /\ stores nb (cm s) (spec_uops ops (key_range nbkeys)).2.

Abbreviation grace_inv Qr := (mach_inv rcu_thread wait_thread updated Qr).

Lemma grace_nb : nb_ok nb.
Proof. destruct Hso. unfold nb_ok. lia. Qed.

Lemma grace_started : exists s0, ctr s0 = [m0] /\ has_buckets nb s0 /\
  grace_inv (fun _ _ _ => True) (grace_machine ops kss m0) s0.
Proof.
  destruct (started_ok (variant_state v) main nb nbkeys (S fuel) Hso Hmain 0 ltac:(lia) (OS := variant_own_spec v sp fuel)
    (IS := fun self => variant_init v sp (S fuel) self Hsp)) as (m & g0 & Hst' & Hok & Htls).
  unfold started in *. rewrite Hst in Hst'. injection Hst' as <-.
  destruct (grace_start nb _ m0 g0 _ Hok (fun x => Htls rcu_thread x (not_eq_sym Hmt))) as (s0 & g1 & Hm & Htr & Hl & Hb & Hs & Hok1 & Hidle).
  pose proof (se_inv _ _ _ _ _ Hs) as Hi.
  assert (Hd : has_buckets nb s0).
  { intros i Hr. rewrite Hb. destruct (hash_ok_bucket _ _ _ _ _ _ Hok Hr) as (xs & Hxs & _). eauto. }
  exists s0. split; [done|]. split; [done|]. split; cbn [memory library threads callback grace_machine]; [done|done|done| | |].
  - intros p [= <-]. eapply ewp_post.
    + apply (gj_uops count_atm sp (S fuel) nb grace_nb ops (erase m0) g1 (key_range nbkeys) Hok1); [|done].
      rewrite size_key_range. lia.
    + cbn beta. intros rs s (m & g & Hss & -> & Hokm). split; [done|]. apply stores_erase.
      rewrite <- (se_mem _ _ _ _ _ Hss). by eapply hash_ok_stores.
  - intros [|j] p Hj Hp; [done|]. unfold mixed in Hp. rewrite lookup_cons_ne_0, list_lookup_imap in Hp by done. cbn [pred] in Hp.
    destruct (kss !! j) as [ks|]; [|done]. injection Hp as <-.
    eapply ewp_post; [by apply (g_searches count_atm sp (S fuel) nb grace_nb)|done].
  - intros s R. destruct (R Hi) as [Hi' Ra]. split; [|done]. destruct Hidle as [F HF]. exists F. by eapply freer_stable.
Qed.

Lemma grace_run tr c : msteps cb (grace_machine ops kss m0) tr c ->
  exists s, ctr s = tr ++ [m0] /\ has_buckets nb s /\ grace_inv (fun _ _ _ => True) c s.
Proof.
  intros Hc. destruct grace_started as (s0 & Ht & Hd & H0).
  destruct (mach_steps rcu_thread wait_thread ltac:(done) ltac:(done) ltac:(done) count_atm (S fuel) _ _ _ _ _ _ H0 Hc)
    as (s & Hts & [_ Hds] & Hs).
  exists s. split; [by rewrite Hts, Ht|]. split; [|done]. intros i Hr. by apply Hds, Hd.
Qed.

(** C5: whatever the order of the steps of the updater, the readers and the
    library's thread, nobody touches memory that was never allocated, no node a reader reads is
    one the allocator may hand out, every bucket is a sorted list at every
    moment, and the updater's answers and final table are those of the set. *)
Theorem grace_safe tr c : msteps cb (grace_machine ops kss m0) tr c ->
  (forall i e, threads c !! i = Some (Crash e) -> e = OutOfFuel) /\
  (forall e, callback c = Crash e -> e = OutOfFuel) /\
  (forall j l n k gl, threads c !! S j = Some (Vis (Load l) k) -> l = LKey n \/ l = LNext n ->
     path LMrNext (memory c) (LGlob Gfreelist) gl -> n ∉ gl) /\
  (forall i, 0 <= i < nb -> exists xs, path LNext (memory c) (LHead i) xs /\ incr (keys (memory c) xs)) /\
  (forall rs, threads c !! 0%nat = Some (Ret rs) ->
     rs = (spec_uops ops (key_range nbkeys)).1 /\ stores nb (memory c) (spec_uops ops (key_range nbkeys)).2).
Proof.
  intros Hc. destruct (grace_run _ _ Hc) as (s & _ & Hd & Hs). destruct (mach_no_crash _ _ _ _ _ _ Hs) as [H1 H2].
  pose proof (mi_mem _ _ _ _ _ _ Hs) as Hm. pose proof (mi_inv _ _ _ _ _ _ Hs) as Hi.
  split; [exact H1|]. split; [exact H2|]. split; [|split].
  - intros j l n k gl Hp. exact (mach_no_free _ _ _ _ _ _ (S j) l n k gl Hs ltac:(done) Hp).
  - intros i Hr. destruct (Hd i Hr) as [xs Hxs]. exists xs. rewrite <- Hm. pose proof (ji_table _ _ _ Hi) as HI.
    split; [by eapply (inv_path _ _ HI)|by eapply (inv_incr _ _ HI)].
  - intros rs Hp. rewrite <- Hm. exact (mi_upd _ _ _ _ _ _ Hs _ Hp s ltac:(done)).
Qed.

(** C2: the searches of a reader, taken from any moment before its first
    step to any moment after its last, took effect one after the other between
    the two: each answer is that of the list of its bucket in some store passed
    through, while nodes are retired, freed and handed out again. *)
Theorem grace_linearizable tr c tr' c' j ks rs : msteps cb (grace_machine ops kss m0) tr c ->
  threads c !! S j = Some (do_searches (H := variant_build v sp (S fuel)) nb (Z.of_nat (S j)) ks) ->
  msteps cb c tr' c' -> threads c' !! S j = Some (Ret rs) ->
  explained nb (memory c :: reverse tr') ks rs.
Proof.
  intros Hc Hp Hc' Hr. destruct (grace_run _ _ Hc) as (s & _ & Hd & Hs). destruct Hs as [Hm HL Hi Hu Hre Hcb].
  assert (Hs : grace_inv (fun i rs s' => i = S j -> answered nb (S j) s ks rs s') c s).
  { split; try done. intros i p Hne Hpi. destruct (decide (i = S j)) as [->|Hij].
    - rewrite Hp in Hpi. injection Hpi as <-. eapply ewp_post; [by apply (g_searches count_atm sp (S fuel) nb grace_nb)|by intros].
    - eapply ewp_post; [by apply Hre|by intros]. }
  destruct (mach_steps rcu_thread wait_thread ltac:(done) ltac:(done) ltac:(done) count_atm (S fuel) _ _ _ _ _ _ Hs Hc')
    as (s' & Hts & _ & Hs').
  destruct (mi_read _ _ _ _ _ _ Hs' (S j) _ ltac:(done) Hr s' ltac:(done) eq_refl) as (_ & h & (new & Hn & ->) & He).
  cbn [view ctr cm] in *. rewrite Hts in Hn. apply app_inv_tail in Hn as <-. by rewrite Hm in He.
Qed.

(** C14: at any moment when the library's thread is between callbacks and no
    reader is in a critical section, that thread alone can give back every
    node that waits: each callback ends, and the table holds the same set. *)
Theorem grace_reclaims tr c : msteps cb (grace_machine ops kss m0) tr c ->
  callback c = Ret tt -> inside (library c) = ∅ ->
  exists tr' m', msteps cb c tr' (Machine (threads c) (Ret tt) (Lib ∅ []) m') /\
    forall T, stores nb (memory c) T -> stores nb m' T.
Proof.
  intros Hc Hcb Hin. destruct (grace_run _ _ Hc) as (s & _ & _ & Hs). clear Hc.
  destruct c as [ps p [ins W] m]. cbn [callback library inside threads memory] in *. subst p ins.
  revert m s Hs. induction W as [|[n w] W IH]; intros m s Hs; [exists [], m; split; [apply runs_refl|done]|].
  pose proof Hs as [Hm HL Hi _ _ Hc]. cbn [memory library callback] in *. subst m.
  assert (w = ∅) as ->.
  { apply set_eq. intros i. split; [|set_solver]. intros Hiw. pose proof (ji_inside _ _ _ Hi n w i) as Hx. rewrite HL in Hx.
    apply Hx; [by left|done]. }
  destruct (Hc s ltac:(done)) as [[F HF] _].
  destruct (start_keeps rcu_thread wait_thread ltac:(done) ltac:(done) ltac:(done) s n [] W) as (_ & _ & _ & HF'); [by rewrite HL|done|].
  destruct (free_node_cb_alone rcu_thread count_atm fuel n F _ (HF' F HF)) as [m' Hr].
  destruct (callback_alone cb _ ps (Lib ∅ W) _ _ _ Hr) as [tr1 H1]. cbn [cm] in *.
  assert (H01 : msteps cb (Machine ps (Ret tt) (Lib ∅ ((n, ∅) :: W)) (cm s)) (tr1 ++ []) (Machine ps (Ret tt) (Lib ∅ W) m')).
  { eapply runs_trans; [|exact H1]. eapply (runs_snoc _ _ [] _ []); [apply runs_refl|].
    exact (ms_cb_start cb ps (Lib ∅ ((n, ∅) :: W)) (cm s) n [] W eq_refl). }
  destruct (mach_steps rcu_thread wait_thread ltac:(done) ltac:(done) ltac:(done) count_atm (S fuel) _ _ _ _ _ _ Hs H01)
    as (s' & _ & _ & Hs').
  destruct (IH m' s' Hs') as (tr2 & m2 & H2 & Hst2). exists (tr2 ++ tr1 ++ []), m2. split; [by eapply runs_trans|].
  intros T HT'. apply Hst2, stores_erase. erewrite (off_run _ _ _ _ (off_free_node_cb rcu_thread count_atm (S fuel) n) Hr).
  by apply stores_erase.
Qed.

End main.

(** ** An execution

    The keys 0 to 4 in two buckets; the updater deletes 3 and inserts 7, a
    reader searches 3 and 4.  The reader enters its critical section, the
    updater hands the node of 3 to [call_rcu]; the library gives it back once
    the reader has left, and the updater inserts 7. *)
Definition demo_ops : list (uop * Z) := [(Del, 3); (Ins, 7)].
Definition grace_store : mem := start_store (variant_build (grace_variant false) spin_init_zero 9) 2 5 9.
Definition grace_demo : machine (list Z) := grace_machine false spin_init_zero 2 8 demo_ops [[3; 4]] grace_store.
Abbreviation demo_cb := (free_node_cb false false 9 rcu_thread).

Definition until_retired : list event := repeat (Thread 1) 3 ++ repeat (Thread 0) 13.
Definition until_left : list event := until_retired ++ [Start] ++ repeat (Thread 1) 40.
Definition until_done : list event := until_left ++ [Start] ++ repeat Callback 40 ++ repeat (Thread 0) 60.

Abbreviation demo_at es := (mach_run demo_cb es grace_demo []).

Lemma demo_steps es : msteps demo_cb grace_demo (demo_at es).2 (demo_at es).1.
Proof. apply run_events_runs; [apply mach_do_step|apply runs_refl]. Qed.

(** The node of 3 waits for the reader, and the library does not take it before
    the reader has left. *)
Example retired_waits : let c := (demo_at (until_retired ++ [Start])).1 in
  waiting (library c) = [(256, {[1%nat]})] /\ callback c = Ret tt.
Proof. split; vm_compute; reflexivity. Qed.

Lemma grace_demo_started : started (H0 := variant_build (grace_variant false) spin_init_zero 9) (-1) 2 5 9 grace_store.
Proof. exact (proj1 (start_store_ok (grace_variant false) 2 5 8 small_sizes)). Qed.

Lemma grace_safe_witness : exists tr c, msteps demo_cb grace_demo tr c /\
  (forall i e, threads c !! i = Some (Crash e) -> e = OutOfFuel) /\
  threads c !! 0%nat = Some (Ret [1; 1]) /\ stores 2 (memory c) (spec_uops demo_ops (key_range 5)).2.
Proof.
  pose proof (demo_steps until_done) as Hc.
  assert (Hr : threads (demo_at until_done).1 !! 0%nat = Some (Ret [1; 1])) by (vm_compute; reflexivity).
  destruct (demo_at until_done) as [c tr]. cbn [fst snd] in *. exists tr, c.
  destruct (grace_safe false spin_init_zero spin_init_zero_ok 2 5 (-1) 8 small_sizes ltac:(lia) ltac:(done)
    demo_ops [[3; 4]] grace_store grace_demo_started ltac:(apply Nat.leb_le; reflexivity) tr c Hc) as (H1 & _ & _ & _ & H5).
  split; [exact Hc|]. split; [exact H1|]. split; [exact Hr|]. exact (proj2 (H5 _ Hr)).
Defined.

Lemma grace_linearizable_witness : exists tr c, msteps demo_cb grace_demo tr c /\
  threads c !! 1%nat = Some (Ret [0; 1]) /\ explained 2 (grace_store :: reverse tr) [3; 4] [0; 1].
Proof.
  pose proof (demo_steps until_done) as Hc.
  assert (Hr : threads (demo_at until_done).1 !! 1%nat = Some (Ret [0; 1])) by (vm_compute; reflexivity).
  destruct (demo_at until_done) as [c tr]. cbn [fst snd] in *. exists tr, c. split; [exact Hc|]. split; [exact Hr|].
  exact (grace_linearizable false spin_init_zero spin_init_zero_ok 2 5 (-1) 8 small_sizes ltac:(lia) ltac:(done)
    demo_ops [[3; 4]] grace_store grace_demo_started ltac:(apply Nat.leb_le; reflexivity) [] grace_demo tr c 0 [3; 4] [0; 1]
    (runs_refl _ _) eq_refl Hc Hr).
Defined.

Lemma grace_reclaims_witness : exists tr c tr' m', msteps demo_cb grace_demo tr c /\
  waits (library c) = {[256]} /\ msteps demo_cb c tr' (Machine (threads c) (Ret tt) (Lib ∅ []) m').
Proof.
  pose proof (demo_steps until_left) as Hc.
  assert (Hw : waits (library (demo_at until_left).1) = {[256]}) by (vm_compute; reflexivity).
  assert (Hi : inside (library (demo_at until_left).1) = ∅) by (vm_compute; reflexivity).
  assert (Hb : callback (demo_at until_left).1 = Ret tt) by (vm_compute; reflexivity).
  destruct (demo_at until_left) as [c tr]. cbn [fst snd] in *. exists tr, c.
  destruct (grace_reclaims false spin_init_zero spin_init_zero_ok 2 5 (-1) 8 small_sizes ltac:(lia) ltac:(done)
    demo_ops [[3; 4]] grace_store grace_demo_started ltac:(apply Nat.leb_le; reflexivity) tr c Hc Hb Hi) as (tr' & m' & H & _).
  exists tr', m'. split; [exact Hc|]. split; [exact Hw|exact H].
Defined.
