(* ===== verification/PthreadLogic.v ===== *)
(** * A rely-guarantee logic for threads that take locks

    [ewp] with the locks in the configuration.  A thread that holds the lock of
    a bucket, in whatever way, relies on its list: only who holds the lock
    exclusively changes it. *)
From S2P Require Import Prelude Mem RG Events Locking SWP Table TableFacts Allocator Erase Frozen Stamp.

(** ** Configurations

    The locks, the lists of the table and the node just unlinked. *)
Record kst : Set := Kst { kl : locks; kbk : gmap Z (list Z); kpend : option (Z * Z) }.
Abbreviation kcfg := (cfg kst).

Definition ktab (s : kcfg) : gst := Gst (kbk (cg s)) (kpend (cg s)) ∅.
Definition kview (s : kcfg) : gcfg := Cfg (cm s) (ctr s) (ktab s).

(** The library's part of a step of the thread [t]: it waits for a lock it cannot
    have. *)
Definition lock_moves (t : nat) (o : op) (g g' : kst) : Prop := lock_step t o (kl g) = Some (kl g').
Definition goes_on (t : nat) (o : op) (g : kst) : Prop := acquires o -> is_Some (lock_step t o (kl g)).

(** Who asks for a lock holds none. *)
Definition free_hands (t : nat) (L : locks) : Prop := forall l, ~ holds t l L.
Definition one_lock (t : nat) (o : op) (s : kcfg) : Prop := acquires o -> free_hands t (kl (cg s)).

Section inv.
(** The lists have at most [cap] nodes. *)
Context (cap : nat).

Record kinv (s : kcfg) : Prop := {
  ki_trace : head (ctr s) = Some (cm s);
  ki_table : Inv (cm s) (ktab s);
  ki_excl : exclusive (kl (cg s));
  ki_len i xs : kbk (cg s) !! i = Some xs -> (length xs <= cap)%nat }.

(** What the updater and the reader [j] rely on. *)
Record kstable_w (s s' : kcfg) : Prop := {
  kw_cm : cm s' = cm s;
  kw_bk : kbk (cg s') = kbk (cg s);
  kw_pend : kpend (cg s') = kpend (cg s);
  kw_holds : same_holds 0 (kl (cg s)) (kl (cg s')) }.

Record kstable_r (j : nat) (s s' : kcfg) : Prop := {
  kr_trace : suffix (ctr s) (ctr s');
  kr_dom i : is_Some (kbk (cg s) !! i) -> is_Some (kbk (cg s') !! i);
  kr_holds : same_holds j (kl (cg s)) (kl (cg s'));
  kr_frame i xs : holds j (LLock i) (kl (cg s)) -> kbk (cg s) !! i = Some xs ->
    kbk (cg s') !! i = Some xs /\ forall x, x ∈ xs -> nkey (cm s') x = nkey (cm s) x }.

#[export] Instance kstable_w_preorder : PreOrder kstable_w.
Proof.
  split; [intros s; split; done || reflexivity|]. intros s1 s2 s3 [A1 A2 A3 A4] [B1 B2 B3 B4].
  split; [congruence..|by etrans].
Qed.

#[export] Instance kstable_r_preorder j : PreOrder (kstable_r j).
Proof.
  split; [intros s; split; auto; reflexivity|]. intros s1 s2 s3 [A1 A2 A3 A4] [B1 B2 B3 B4].
  split; [by etrans|auto|by etrans|]. intros i xs Hh Hi. destruct (A4 i xs Hh Hi) as [Hi2 Hk2].
  destruct (B4 i xs) as [Hi3 Hk3]; [by apply (same_holds_iff _ _ _ _ A3)|done|]. split; [done|].
  intros x Hx. by rewrite Hk3, Hk2.
Qed.

Abbreviation rely_w := (preserves kinv kstable_w).
Abbreviation rely_r j := (preserves kinv (kstable_r j)).

(** The guarantees. *)
Definition kguar_w (s s' : kcfg) : Prop := forall j, j <> 0%nat -> rely_r j s s'.
Record kguar_r (j : nat) (s s' : kcfg) : Prop := {
  kgr_w : rely_w s s';
  kgr_r i : i <> 0%nat -> i <> j -> rely_r i s s' }.

(** ** Steps *)

(** A step that leaves the lists alone. *)
Lemma quiet_step s m' L' p' : kinv s -> grows off_list (cm s) m' -> exclusive L' -> Inv (cm s) (Gst (kbk (cg s)) p' ∅) ->
  let s' := next_cfg s m' (Kst L' (kbk (cg s)) p') in
  kinv s' /\ (forall j, same_holds j (kl (cg s)) L' -> kstable_r j s s').
Proof.
  intros [H1 H2 H3 H4] Hg HL HI s'. split.
  - split; cbn [s' next_cfg cm ctr cg kl kbk kpend]; [done| |done|done]. by eapply Inv_grows.
  - intros j Hj. split; cbn [s' next_cfg cm ctr cg kl kbk kpend]; [by eexists [_]|done|done|].
    intros i xs _ Hi. split; [done|]. intros x Hx. eapply grows_nkey; [done|]. by eapply (inv_node _ _ H2).
Qed.

(** A step on the locks, or a load: the store stays. *)
Lemma lock_step_keeps t s o L' : lock_step t o (kl (cg s)) = Some L' ->
  let s' := next_cfg s (cm s) (Kst L' (kbk (cg s)) (kpend (cg s))) in
  (kinv s -> kinv s') /\ (t <> 0%nat -> kguar_r t s s') /\ (t = 0%nat -> kguar_w s s').
Proof.
  intros Hl s'. assert (Hk : kinv s -> kinv s' /\ (forall j, same_holds j (kl (cg s)) L' -> kstable_r j s s')).
  { intros Hi. apply quiet_step; [done|reflexivity| |apply Hi]. eapply lock_step_exclusive; [exact Hl|apply Hi]. }
  split; [intros Hi; by apply Hk|]. split.
  - intros Ht. split.
    + intros Hi. split; [by apply Hk|]. split; [done..|]. by eapply lock_step_others.
    + intros i _ Hne Hi. split; [by apply Hk|]. apply Hk; [done|]. by eapply lock_step_others.
  - intros -> j Hj Hi. split; [by apply Hk|]. apply Hk; [done|]. by eapply lock_step_others.
Qed.

(** The updater works off the lists, and may forget the node it unlinked. *)
Lemma off_step_keeps s m' p' : grows off_list (cm s) m' -> (kinv s -> Inv (cm s) (Gst (kbk (cg s)) p' ∅)) ->
  let s' := next_cfg s m' (Kst (kl (cg s)) (kbk (cg s)) p') in (kinv s -> kinv s') /\ kguar_w s s'.
Proof.
  intros Hg HI s'. assert (Hk : kinv s -> kinv s' /\ (forall j, same_holds j (kl (cg s)) (kl (cg s)) -> kstable_r j s s')).
  { intros Hi. apply quiet_step; [done|done|apply Hi|auto]. }
  split; [intros Hi; by apply Hk|]. intros j _ Hi. split; apply Hk; done || reflexivity.
Qed.

(** It writes to a list whose lock it holds. *)
Lemma list_write_keeps s l v g' (s' := next_cfg s (<[l := v]> (cm s)) (Kst (kl (cg s)) (bk g') (pend g'))) :
  kinv s -> list_step (cm s) (ktab s) (<[l := v]> (cm s)) g' ->
  (forall i xs, bk g' !! i = Some xs -> kbk (cg s) !! i = Some xs \/
     excl (kl (cg s)) !! LLock i = Some 0%nat /\ (length xs <= cap)%nat) ->
  kguar_w s s' /\ kinv s'.
Proof.
  intros Hi Hs Hp. pose proof Hi as [H1 H2 H3 H4]. pose proof (list_step_inv _ _ H2 _ _ Hs) as HI.
  assert (Hi' : kinv s').
  { split; cbn [s' next_cfg cm ctr cg kl kbk kpend]; [done| |done|].
    - pose proof (list_step_old _ _ _ _ Hs) as Ho. cbn in Ho. unfold ktab. cbn. rewrite <- Ho. by destruct g'.
    - intros i xs Hx. destruct (Hp i xs Hx) as [?|[_ ?]]; [by eapply H4|done]. }
  split; [|done]. intros j Hj _. split; [done|]. split; cbn [s' next_cfg cm ctr cg kl kbk kpend]; [by eexists [_]| |reflexivity|].
  - intros i Hd. destruct Hs; cbn in *; try done; apply lookup_insert_is_Some; destruct (decide (i0 = i)); auto.
  - intros i xs Hh Hx. assert (Hx' : bk g' !! i = Some xs).
    { assert (Hd : is_Some (bk g' !! i)).
      { destruct Hs; cbn in *; try (by eexists); apply lookup_insert_is_Some; destruct (decide (i0 = i)); eauto. }
      destruct Hd as [ys Hys]. destruct (Hp i ys Hys) as [Hys'|[He _]]; [congruence|]. exfalso.
      destruct Hh as [Hh|Hh]; [congruence|]. by eapply H3. }
    split; [done|]. intros x Hin.
    destruct Hs as [p w Hn Hk|p q _ _ _|? ? ? p _ _ _ _ _ _|]; cbn in *; [|by apply nkey_store_other|apply nkey_store_other, cell_not_key..].
    apply nkey_store_ne. intros ->. apply Hk. left. exists i. left. eauto.
Qed.

End inv.
