(* ===== verification/PthreadWriter.v ===== *)
(** * The updater among readers that take its locks

    list_writer.c with the spin locks and the reader-writer locks of pthread:
    an updater whose lists readers traverse under the same locks.  The logic
    [kj] is one that list_writer.c is proved in: a list changes only while its
    lock is held exclusively.  The updater sees the lock of a bucket as 1 while
    it holds it. *)
From S2P Require Import Prelude Mem RG Events Locking SWP Table TableFacts Allocator AllocMain Erase Frozen ListOps Stamp ListWriter AllocState Lock ListLock PthreadLogic.

(** ** The locks as the updater sees them *)
Definition lock_flag (L : locks) (l : loc) : Z := if decide (excl L !! l = Some 0%nat) then 1 else 0.

Definition lockview (L : locks) (m : mem) : mem :=
  map_imap (fun l v => Some match l with LLock _ => lock_flag L l | _ => v end) m.

Lemma lockview_lookup L m l : lockview L m !! l = (fun v => match l with LLock _ => lock_flag L l | _ => v end) <$> m !! l.
Proof. unfold lockview. rewrite map_lookup_imap. by destruct (m !! l). Qed.

Definition is_lock (l : loc) : bool := match l with LLock _ => true | _ => false end.

Lemma lockview_other L m l : is_lock l = false -> lockview L m !! l = m !! l.
Proof. intros Hl. rewrite lockview_lookup. destruct l; try done; by destruct (m !! _). Qed.

Lemma lockview_mget L m l : is_lock l = false -> mget (lockview L m) l = mget m l.
Proof. intros Hl. unfold mget. by rewrite lockview_other. Qed.

Lemma lockview_insert L m l v : is_lock l = false -> lockview L (<[l := v]> m) = <[l := v]> (lockview L m).
Proof.
  intros Hl. apply map_eq. intros l'. rewrite lockview_lookup.
  destruct (decide (l = l')) as [<-|Hne]; [rewrite !lookup_insert_eq; by destruct l|].
  rewrite !lookup_insert_ne by done. by rewrite lockview_lookup.
Qed.

Lemma lockview_node L m p : node (lockview L m) p <-> node m p.
Proof.
  unfold node. rewrite !Forall_forall. split; intros [H0 Hf]; (split; [done|]); intros f Hin; specialize (Hf f Hin);
    (rewrite lockview_other in * by (unfold node_fields in Hin; set_unfold in Hin; by destruct_or! Hin; subst f)); done.
Qed.

Lemma lockview_same L L' m : same_holds 0 L L' -> lockview L' m = lockview L m.
Proof.
  intros Hs. apply map_eq. intros l. rewrite !lockview_lookup. destruct (m !! l) as [v|]; [|done]. simpl. f_equal.
  destruct l; try done. unfold lock_flag. destruct (Hs (LLock i)) as [He _]. repeat case_decide; tauto.
Qed.

(** One lock changes hands. *)
Lemma lockview_set L L' m i w : is_Some (m !! LLock i) -> lock_flag L' (LLock i) = w ->
  (forall l, l <> LLock i -> excl L' !! l = excl L !! l) -> lockview L' m = <[LLock i := w]> (lockview L m).
Proof.
  intros [v Hv] Hw Hl. apply map_eq. intros l. rewrite lockview_lookup.
  destruct (decide (LLock i = l)) as [<-|Hne]; [rewrite lookup_insert_eq, Hv; simpl; by rewrite Hw|].
  rewrite lookup_insert_ne, lockview_lookup by done. f_equal. destruct l; try done. unfold lock_flag. by rewrite Hl by congruence.
Qed.

Lemma lockview_grows W L m m' : grows W m m' -> grows W (lockview L m) (lockview L m').
Proof.
  intros [Hk Hn Hd Hx Hr Hl].
  assert (Hlk : forall l, is_lock l = true -> is_Some (m !! l) -> lockview L m' !! l = lockview L m !! l).
  { intros l Hll Hs. destruct (Hd l ltac:(by destruct l) Hs) as [w Hw]. destruct Hs as [u Hu].
    rewrite !lockview_lookup, Hw, Hu. by destruct l. }
  split.
  - intros l v Hll. destruct (is_lock l) eqn:Hil; [|rewrite !lockview_mget by done; by apply Hk].
    destruct (m !! l) as [w|] eqn:Hw; [unfold mget; by rewrite Hlk|].
    unfold mget. rewrite lockview_lookup, Hw. by destruct l.
  - intros p. rewrite !lockview_node. apply Hn.
  - intros l Hh. rewrite !lockview_lookup, !fmap_is_Some. by apply Hd.
  - intros n q. rewrite !lockview_other by done. apply Hx.
  - intros n v HW. rewrite !lockview_other by done. by apply Hr.
  - intros i HW. specialize (Hl i HW). rewrite !lockview_lookup. by rewrite Hl.
Qed.

Lemma grows_lockview L m : grows off_list m (lockview L m).
Proof.
  split; [| | | |done|done].
  - intros l v Hll. by rewrite lockview_mget by (by destruct l).
  - intros p. by rewrite lockview_node.
  - intros l Hh. by rewrite lockview_lookup, fmap_is_Some.
  - intros n q. rewrite lockview_other by done. by left.
Qed.

Lemma off_lock_step t o L : off_op o -> lock_step t o L = Some L.
Proof. by destruct o. Qed.

Section writer.
Context `{HC : Calloc} {HT : CallocTotal} (cap : nat).
Abbreviation kinv := (kinv cap).
Abbreviation rely_w := (preserves kinv kstable_w).
Abbreviation uwp := (ewp (goes_on 0) (lock_moves 0) (one_lock 0) (fun _ => False) rely_w (kguar_w cap)).

(** The store [m] and the table [g] as the updater sees them. *)
Record ksees (s : kcfg) (m : mem) (g : gst) : Prop := {
  ks_inv : kinv s;
  ks_mem : m = lockview (kl (cg s)) (cm s);
  ks_bk : bk g = kbk (cg s);
  ks_pend : pend g = kpend (cg s);
  ks_shared l : (l, 0%nat) ∉ shared (kl (cg s));
  ks_locks l : excl (kl (cg s)) !! l = Some 0%nat -> exists i, l = LLock i /\ is_Some (cm s !! l) }.

Lemma ksees_stable s s' m g : rely_w s s' -> ksees s m g -> ksees s' m g.
Proof.
  intros R [V1 V2 V3 V4 V5 V6]. destruct (R V1) as [Hi [W1 W2 W3 W4]].
  split; [done|by rewrite W1, (lockview_same _ _ _ W4)|congruence|congruence| |].
  - intros l Hl. apply (V5 l). by apply W4.
  - intros l Hl. rewrite W1. apply V6. by apply W4.
Qed.

(** The lock of a bucket is 1 when the updater holds it. *)
Lemma ksees_flag s m g i v : ksees s m g -> m !! LLock i = Some v -> v = 1 <-> excl (kl (cg s)) !! LLock i = Some 0%nat.
Proof.
  intros Hs Hv. rewrite (ks_mem _ _ _ Hs), lockview_lookup in Hv. apply fmap_Some in Hv as (u & _ & ->).
  unfold lock_flag. by case_decide.
Qed.

Definition kj (A : Type) (p : prog A) (Q : A -> mem -> gst -> Prop) (m : mem) (g : gst) : Prop :=
  forall s, ksees s m g -> uwp p (fun a s' => exists m' g', ksees s' m' g' /\ Q a m' g') s.

(** A list of bucket [i] while its lock is held. *)
Definition kpermit (m : mem) (i : Z) (xs : list Z) : Prop :=
  (forall v, m !! LLock i = Some v -> v = 1) /\ (length xs <= cap)%nat.

(** ** Rules *)


(** A load or a fence, after which [P] is the unlinked node. *)
Lemma kj_still {A} o (k : Z -> prog A) (Q : A -> mem -> gst -> Prop) m g P : ~ acquires o ->
  (forall L, lock_step 0 o L = Some L) -> (forall s, ksees s m g -> Inv (cm s) (Gst (kbk (cg s)) P ∅)) ->
  (forall s, ksees s m g -> exists r, op_exec o (cm s) = Some (r, cm s) /\ kj A (k r) Q m (Gst (bk g) P (old g))) ->
  kj A (do_op o ≫= k) Q m g.
Proof.
  intros Ha Hl HP Hk s Hs s' R. apply (ksees_stable _ _ _ _ R) in Hs. destruct (Hk s' Hs) as (r & Ho & Hr). cbn.
  split; [by intros ?|]. intros _. rewrite Ho. exists (Kst (kl (cg s')) (kbk (cg s')) P). split; [apply Hl|].
  destruct (off_step_keeps cap s' (cm s') P) as [Hi Hg]; [reflexivity|by intros _; apply HP|].
  split; [exact Hg|]. apply Hr. destruct Hs as [V1 V2 V3 V4 V5 V6]. split; auto.
Qed.

Lemma ksees_pend s m g : ksees s m g -> Inv (cm s) (Gst (kbk (cg s)) (pend g) ∅).
Proof. intros Hs. rewrite (ks_pend _ _ _ Hs). apply (ki_table _ _ (ks_inv _ _ _ Hs)). Qed.

Lemma gst_eta g : Gst (bk g) (pend g) (old g) = g.
Proof. by destruct g. Qed.

#[export] Instance kj_logic : WriterLogic kj kpermit.
Proof.
  split.
  - intros A p Q Q' m g Hp HQ s Hs. eapply ewp_post; [by apply Hp|]. cbn beta. intros a s' (m' & g' & Hs' & Ha). eauto.
  - intros A B p f Q m g Hp s Hs. apply ewp_bind; [apply _|]. eapply ewp_post; [by apply Hp|]. cbn beta.
    intros a s' (m' & g' & Hs' & Ha). by apply Ha.
  - intros A a Q m g HQ s Hs s' R. exists m, g. split; [by eapply ksees_stable|done].
  - intros A l v k Q m g Hv Hl Hk. apply (kj_still (Load l) _ _ _ _ (pend g)); [by intros ?|done|intros s; apply ksees_pend|].
    intros s Hs. exists v. rewrite gst_eta. split; [|done].
    rewrite (ks_mem _ _ _ Hs), lockview_mget in Hv by (by destruct l). cbn. by rewrite Hv.
  - intros A l v w k Q m g g' Hv Hl HI Hst Hp Hk s Hs s' R. apply (ksees_stable _ _ _ _ R) in Hs.
    pose proof (list_step_inv _ _ HI _ _ Hst) as HI'. pose proof (ksees_flag s' m g) as Hfl.
    destruct Hs as [V1 V2 V3 V4 V5 V6]. assert (Hnl : is_lock l = false) by (by destruct l).
    assert (Hst1 : list_step (cm s') g (<[l := v]> (cm s')) g').
    { apply (list_step_agree m); [intros x Hx; rewrite V2; apply lockview_other; by destruct x|intros p; rewrite V2; apply lockview_node|done|done]. }
    assert (Hst2 : list_step (cm s') (ktab s') (<[l := v]> (cm s')) (Gst (bk g') (pend g') ∅)).
    { unfold ktab. rewrite <- V3, <- V4. by apply list_step_sub. }
    destruct (list_write_keeps cap s' l v _ V1 Hst2) as [Hg Hi].
    { cbn [bk]. intros i xs Hx. rewrite <- V3. destruct (Hp i xs Hx) as [?|[Hf ?]]; [by left|right]. split; [|done].
      destruct (inv_head _ _ HI' i xs Hx) as [_ [u Hu]]. rewrite lookup_insert_ne in Hu by (by destruct l).
      apply (Hfl i u); [by split|done|by apply Hf]. }
    cbn [bk pend] in *. cbn. split; [by intros []|]. intros _. subst m. rewrite lockview_mget in Hv by done. rewrite Hv. cbn.
    eexists. split; [|split; [exact Hg|]]; [done|]. apply Hk.
    split; cbn [next_cfg cm ctr cg kl kbk kpend]; [done|by rewrite lockview_insert|done|done|done|].
    intros x Hx. destruct (V6 x Hx) as (i & -> & Hf). exists i. split; [done|]. by rewrite lookup_insert_ne by (by destruct l).
  - intros A b k Q m g Hk. apply (kj_still (Fence b) (fun _ => k tt) _ _ _ (pend g)); [by intros ?|done|intros s; apply ksees_pend|].
    intros s _. exists 0. by rewrite gst_eta.
Qed.

(** ** The locks *)

Context (d : tlsvar -> Z).
Abbreviation own := (alloc_state classic_lock 0 d).

(** The lock of bucket [i] changes hands. *)
Lemma own_lock h h' U m i v : own h U m -> classic_lock (held h' i) v -> (forall j, j <> i -> held h' j = held h j) ->
  grows off_list m (<[LLock i := v]> m) /\ own h' U (<[LLock i := v]> m).
Proof.
  intros Ho Hv Hh. split; [by apply grows_counter|]. apply alloc_state_counter with (h := h); [done| |done].
  destruct Ho as (_ & _ & Hk). by eapply locks_ok_set.
Qed.

Lemma kj_lock o h h' w U m g i xs : (o = LibCall (LockAcquire true (LLock i)) \/ o = LibCall (LockRelease (LLock i))) ->
  Inv m g -> own h U m -> bk g !! i = Some xs -> classic_lock (held h' i) w -> (forall j, j <> i -> held h' j = held h j) ->
  (forall s, ksees s m g -> one_lock 0 o s /\ (goes_on 0 o (cg s) -> exists L', lock_step 0 o (kl (cg s)) = Some L' /\
     lock_flag L' (LLock i) = w /\ (forall l, l <> LLock i -> excl L' !! l = excl (kl (cg s)) !! l) /\
     shared L' = shared (kl (cg s)) )) ->
  kj unit (_ ← do_op o; Ret tt) (fun _ m' g' => g' = g /\ grows off_list m m' /\ own h' U m') m g.
Proof.
  intros Ho HI Hown Hi Hw Hh Hs0 s Hs s' R. apply (ksees_stable _ _ _ _ R) in Hs. destruct (Hs0 s' Hs) as [Hone Hen].
  cbn. split; [exact Hone|]. intros (L' & Hl & Hfl & Hex & Hsh)%Hen.
  assert (Hop : op_exec o (cm s') = Some (0, cm s')) by (by destruct Ho; subst o). rewrite Hop.
  destruct Hs as [V1 V2 V3 V4 V5 V6]. exists (Kst L' (kbk (cg s')) (kpend (cg s'))). split; [exact Hl|].
  destruct (lock_step_keeps cap 0 s' o L' Hl) as (Hi2 & _ & Hg). split; [by apply Hg|].
  destruct (inv_head _ _ HI i xs Hi) as [_ Hm]. assert (Hcm : is_Some (cm s' !! LLock i)).
  { by rewrite V2, lockview_lookup, fmap_is_Some in Hm. }
  destruct (own_lock h h' U m i w Hown Hw Hh) as [Hgr Ho'].
  intros s2 R2. exists (<[LLock i := w]> m), g. split; [|done]. eapply ksees_stable; [exact R2|].
  split; cbn [next_cfg cm ctr cg kl kbk kpend]; [by apply Hi2| |done|done|by rewrite Hsh|].
  - rewrite V2. symmetry. by apply lockview_set.
  - intros l Hl'. destruct (decide (l = LLock i)) as [->|Hne]; [by exists i|]. apply V6. by rewrite <- Hex.
Qed.

(** Outside the locks. *)
Lemma ksees_free s m g U : ksees s m g -> own None U m -> free_hands 0 (kl (cg s)).
Proof.
  intros Hs (_ & _ & Hk) l [He|He]; [|by eapply (ks_shared _ _ _ Hs)].
  destruct (ks_locks _ _ _ Hs l He) as (i & -> & [u Hu]).
  assert (Hv : m !! LLock i = Some 1).
  { rewrite (ks_mem _ _ _ Hs), lockview_lookup, Hu. cbn. unfold lock_flag. by rewrite decide_True. }
  by apply Hk in Hv.
Qed.

Lemma kj_acquire U m g i xs : Inv m g -> own None U m -> bk g !! i = Some xs ->
  kj unit (lib_call (LockAcquire true (LLock i)))
    (fun _ m' g' => g' = g /\ grows off_list m m' /\ own (Some i) U m') m g.
Proof.
  intros HI Ho Hi. eapply (kj_lock _ None (Some i) 1); [by left|done..|by rewrite held_some|apply held_take|].
  intros s Hs. split; [intros _; by eapply ksees_free|]. intros [L' HL]; [done|]. exists L'. split; [done|].
  cbn in HL. case_decide; [|done]. injection HL as <-. unfold lock_flag. cbn. rewrite lookup_insert_eq, decide_True by done.
  split; [done|]. split; [|done]. intros l Hl. by rewrite lookup_insert_ne.
Qed.

Lemma kj_release U m g i xs : Inv m g -> own (Some i) U m -> bk g !! i = Some xs ->
  kj unit (lib_call (LockRelease (LLock i)))
    (fun _ m' g' => g' = g /\ grows off_list m m' /\ own None U m') m g.
Proof.
  intros HI Ho Hi. eapply (kj_lock _ (Some i) None 0); [by right|done..|intros; symmetry; by apply held_take|].
  intros s Hs. split; [by intros []|]. intros _. destruct (inv_head _ _ HI i xs Hi) as [_ [v Hv]].
  assert (v = 1) as -> by (destruct Ho as (_ & _ & Hk); specialize (Hk i v Hv); by rewrite held_some in Hk).
  apply (ksees_flag _ _ _ _ _ Hs) in Hv as [Hv _]. specialize (Hv eq_refl). eexists. cbn. rewrite decide_True by done.
  split; [done|]. unfold lock_flag. cbn. rewrite lookup_delete_eq, decide_False by done. split; [done|]. split; [|done].
  intros l Hl. by rewrite lookup_delete_ne.
Qed.

(** ** The allocator *)

Lemma off_not_acquires o : off_op o -> ~ acquires o.
Proof. destruct o; cbn; tauto. Qed.

(** The updater alone changes the store, so its allocator behaves as in a run. *)
Lemma kj_run {A} (p : prog A) : forall s m g a m1, off_prog (fun _ => True) p -> ksees s m g -> run p (cm s) = Ok a m1 ->
  uwp p (fun a' s' => a' = a /\ ksees s' (lockview (kl (cg s)) m1) g) s.
Proof.
  induction p as [b|e|o k IH]; intros s m g a m1 Hoff Hs Hr; cbn in Hr; [|done|].
  - injection Hr as -> <-. intros s' R. split; [done|]. rewrite <- (ks_mem _ _ _ Hs). by eapply ksees_stable.
  - destruct Hoff as (Ho & _ & Hoff). intros s' R.
    assert (Hcm : cm s' = cm s /\ lockview (kl (cg s')) m1 = lockview (kl (cg s)) m1).
    { destruct (R (ks_inv _ _ _ Hs)) as [_ [W1 _ _ W4]]. split; [done|]. by apply lockview_same. }
    destruct Hcm as [Hcm Hlv]. apply (ksees_stable _ _ _ _ R) in Hs. split; [intros Ha; by destruct (off_not_acquires o)|].
    intros _. rewrite Hcm. destruct (op_exec o (cm s)) as [[r m2]|] eqn:He; [|done]. rewrite <- Hcm in He.
    destruct (off_op_exec o _ _ _ Ho He) as [Hg _].
    destruct (off_step_keeps cap s' m2 (kpend (cg s')) Hg) as [Hi2 Hg2]; [intros Hi; apply Hi|].
    exists (Kst (kl (cg s')) (kbk (cg s')) (kpend (cg s'))). split; [by apply off_lock_step|]. split; [exact Hg2|].
    destruct Hs as [V1 V2 V3 V4 V5 V6]. rewrite <- Hlv.
    apply (IH r (next_cfg s' m2 (Kst (kl (cg s')) (kbk (cg s')) (kpend (cg s')))) (lockview (kl (cg s')) m2) g a m1); [done| |exact Hr].
    split; cbn [next_cfg cm ctr cg kl kbk kpend]; [by apply Hi2|done..|].
    intros l Hl. destruct (V6 l Hl) as (i & -> & Hx). exists i. split; [done|]. by apply (gr_dom _ _ _ Hg).
Qed.

Lemma alloc_own_lockview L U m : alloc_own 0 U (lockview L m) <-> alloc_own 0 U m.
Proof.
  split; apply alloc_own_ext; try (intros p; by rewrite lockview_node); intros l Hl; [symmetry|];
    apply lockview_other; by destruct l.
Qed.

(** A function of the allocator. *)
Lemma kj_alloc {A} (p : prog A) (P : A -> gset Z -> Prop) h U m g : off_prog (fun _ => True) p -> own h U m ->
  (forall m0, alloc_own 0 U m0 -> exists a m1 U', run p m0 = Ok a m1 /\ grows (alloc_loc 0) m0 m1 /\ alloc_own 0 U' m1 /\ P a U') ->
  kj A p (fun a m' g' => g' = g /\ grows off_list m m' /\ exists U', own h U' m' /\ P a U') m g.
Proof.
  intros Hoff Ho Hrun s Hs. pose proof (ks_mem _ _ _ Hs) as Hm.
  destruct (Hrun (cm s)) as (a & m1 & U' & Hr & Hg & Ho' & HP); [apply (alloc_own_lockview (kl (cg s))); rewrite <- Hm; apply Ho|].
  apply (lockview_grows _ (kl (cg s))) in Hg. rewrite <- Hm in Hg.
  eapply ewp_post; [by apply (kj_run p s m g a m1)|]. cbn beta. intros a' s' [-> Hs'].
  exists (lockview (kl (cg s)) m1), g. split; [done|]. split; [done|]. split; [by eapply grows_alloc_off_list|].
  exists U'. split; [|done]. eapply alloc_state_grows; [exact Hg|by apply alloc_own_lockview|exact Ho].
Qed.

Lemma kj_new fuel h U m g : own h U m ->
  kj Z (new_node (S fuel) 0) (fun p m' g' => grows off_list m m' /\ renewed (own h) U g p m' g') m g.
Proof.
  intros Ho. eapply (wj_mono (J := kj)).
  - apply (kj_alloc _ (fun p U' => p ∉ U /\ U' = {[p]} ∪ U) h U); [apply off_new_node|done|].
    intros m0 Ha. destruct (new_node_run 0 fuel U m0 Ha) as (p & m1 & ? & ? & _ & ? & ?). by eexists p, m1, _.
  - cbn beta. intros p m' g' (-> & Hg & U' & Ho' & Hp & ->). split; [done|]. exists (old g). split; [done|].
    rewrite gst_eta, difference_diag_L, difference_empty_L. done.
Qed.

Lemma kj_free fuel h U m g n : own h U m -> n ∈ U ->
  kj unit (free_node (S fuel) 0 n) (fun _ m' g' => g' = g /\ grows off_list m m' /\ own h (U ∖ {[n]}) m') m g.
Proof.
  intros Ho Hn. eapply (wj_mono (J := kj)).
  - apply (kj_alloc _ (fun _ U' => U' = U ∖ {[n]}) h U); [|done|].
    + eapply off_weaken; [|apply off_free_node]. done.
    + intros m0 Ha. destruct (free_node_run 0 fuel U m0 n Ha Hn) as (m1 & ? & ? & ?). by eexists tt, m1, _.
  - cbn beta. intros _ m' g' (-> & Hg & U' & Ho' & ->). done.
Qed.

(** ** The schemes *)

Section scheme.
Context {b : bool} {L : LockOps} {EL : EventLock b L} (fuel : nat).
#[local] Instance pthread_scheme : Scheme := lock_scheme L false (S fuel).

#[export] Instance kj_inserter : InserterJ kj kpermit cap 0 own.
Proof.
  split.
  - apply kj_logic.
  - intros U m i xs (_ & _ & Hk) Hl. split; [|done]. intros v Hv. specialize (Hk i v Hv). by rewrite held_some in Hk.
  - apply alloc_state_list.
  - apply alloc_state_node.
  - intros U m g i xs HI Ho Hi. cbn [ListWriter.lock_wlock pthread_scheme lock_scheme scheme_inserter lock_inserter].
    rewrite el_wlock. by eapply kj_acquire.
  - intros U m g i xs HI Ho Hi. cbn [ListWriter.lock_wunlock pthread_scheme lock_scheme scheme_inserter lock_inserter].
    rewrite el_wunlock. by eapply kj_release.
  - intros h U m g HI Ho _. by apply kj_new.
Qed.

#[export] Instance kj_scheme : SchemeJ kj kpermit cap 0 own.
Proof.
  split; [apply kj_inserter|]. intros U m g n i xs HI Ho HU Hp Hi. unfold delete_end. cbn [unlock_before_free pthread_scheme lock_scheme].
  apply (wj_bind (J := kj)), (wj_ret (J := kj)).
  apply (kj_still (Load (LTls 0 Vthread)) _ _ _ _ None); [by intros ?|done| |].
  { intros s Hs. pose proof (ki_table _ _ (ks_inv _ _ _ Hs)) as HI0.
    apply (Inv_retire (cm s) (ktab s) ∅ n i HI0); [|set_solver]. cbn. by rewrite <- (ks_pend _ _ _ Hs). }
  intros s _. destruct (mget_static (cm s) (LTls 0 Vthread) eq_refl) as [t Ht]. exists t. split; [cbn; by rewrite Ht|].
  set (g1 := Gst (bk g) None (old g)). assert (HI1 : Inv m g1) by (eapply Inv_retire; [done|done|set_solver]).
  cbn beta. apply (wj_bind (J := kj)). eapply (wj_mono (J := kj)).
  { apply (kj_free fuel (Some i) U); [done|]. apply HU. exists i. by right. }
  cbn beta. intros _ m1 g' (-> & Hg1 & Ho1). apply (wj_bind (J := kj)). eapply (wj_mono (J := kj)).
  { eapply (ij_wunlock (J := kj) _ m1 g1 i xs); [by eapply Inv_grows|exact Ho1|exact Hi]. }
  cbn beta. intros _ m2 g2 (-> & Hg2 & Ho2). apply (wj_ret (J := kj)).
  split_and!; [done|by etrans|by eapply retired_free].
Qed.

End scheme.
End writer.
