(* ===== verification/PthreadReader.v ===== *)
(** * The search that takes its bucket's lock

    The search of list_lock.c with the spin locks and the reader-writer locks of
    pthread: while the lock is held the list stays, so the answer is that of the
    list found; nothing is read that is not a node, and the lock is given back. *)
From S2P Require Import Prelude Mem RG Events Locking SWP Table TableFacts Allocator Erase Frozen ListOps Stamp ListWriter Lock ListLock PthreadLogic.

(** The thread [t] holds [l] and no other lock. *)
Definition only_lock (t : nat) (l : loc) (L : locks) : Prop := forall l', holds t l' L <-> l' = l.

Lemma acquired t b l L L' : lock_step t (LibCall (LockAcquire b l)) L = Some L' -> free_hands t L -> only_lock t l L'.
Proof.
  intros Hs Hf l'. unfold free_hands, holds in *. cbn in Hs. destruct b; case_decide; try done; injection Hs as <-; cbn.
  - destruct (decide (l = l')) as [<-|Hne]; [rewrite lookup_insert_eq; naive_solver|].
    rewrite lookup_insert_ne by done. specialize (Hf l'). naive_solver.
  - specialize (Hf l'). set_solver.
Qed.

Lemma released t l L : exclusive L -> only_lock t l L ->
  exists L', lock_step t (LibCall (LockRelease l)) L = Some L' /\ free_hands t L'.
Proof.
  intros HL Ho. unfold only_lock, free_hands, holds in *. cbn. destruct (proj2 (Ho l) eq_refl) as [He|Hs].
  - rewrite decide_True by done. eexists. split; [done|]. intros l'. cbn. destruct (decide (l = l')) as [<-|Hne].
    + rewrite lookup_delete_eq. intros [?|?]; [done|]. by eapply HL.
    + rewrite lookup_delete_ne by done. intros Hl. by apply Hne, eq_sym, Ho.
  - rewrite decide_False, decide_True; [|done|intros He; by eapply HL]. eexists. split; [done|]. intros l'. cbn.
    assert (Hx : forall l0, excl L !! l0 = Some t \/ (l0, t) ∈ shared L -> l0 = l) by (intros; by apply Ho). clear Ho.
    intros [Hl|[Hl Hn]%elem_of_difference]; [|apply Hn, elem_of_singleton; by rewrite (Hx l' (or_intror Hl))].
    rewrite (Hx l' (or_introl Hl)) in Hl. by eapply HL.
Qed.

Section reader.
Context `{HC : Calloc} (cap : nat) (j : nat) (Hj : j <> 0%nat).
Abbreviation kinv := (kinv cap).
Abbreviation rely_r := (preserves kinv (kstable_r j)).
Abbreviation rwp := (ewp (goes_on j) (lock_moves j) (one_lock j) (fun _ => False) rely_r (kguar_r cap j)).

Lemma kview_ok s : kinv s -> trace_ok (kview s).
Proof. intros Hi. apply Hi. Qed.

Section search.
Context (key i : Z) (s0 : kcfg) (Hi0 : kinv s0).

(** The nodes of [pre] have been passed. *)
Record walking (pre suf : list Z) (s : kcfg) : Prop := {
  wk_inv : kinv s;
  wk_trace : suffix (ctr s0) (ctr s);
  wk_lock : only_lock j (LLock i) (kl (cg s));
  wk_list : kbk (cg s) !! i = Some (pre ++ suf);
  wk_before x : x ∈ pre -> nkey (cm s) x < key }.

Lemma walking_stable pre suf s s' : rely_r s s' -> walking pre suf s ->
  walking pre suf s' /\ forall x, x ∈ pre ++ suf -> nkey (cm s') x = nkey (cm s) x.
Proof.
  intros R [H1 H2 H3 H4 H5]. destruct (R H1) as [Hi [T1 T2 T3 T4]].
  destruct (T4 i _ (proj2 (H3 _) eq_refl) H4) as [Hl Hk]. split; [|exact Hk]. split; [done|by etrans| |done|].
  - intros l. by rewrite (same_holds_iff _ _ _ _ T3).
  - intros x Hx. rewrite Hk by set_solver. auto.
Qed.

Lemma walking_next pre c suf s : walking pre (c :: suf) s -> nkey (cm s) c < key -> walking (pre ++ [c]) suf s.
Proof.
  intros [H1 H2 H3 H4 H5] Hk. split; [done..|by rewrite <- app_assoc|].
  intros x [Hx| ->%list_elem_of_singleton]%elem_of_app; auto.
Qed.

Lemma walking_node pre c suf s : walking pre (c :: suf) s -> node (cm s) c /\ mget (cm s) (LNext c) = Some (hd0 suf).
Proof.
  intros [H1 H2 H3 H4 H5]. pose proof (ki_table _ _ H1) as HI. split; [eapply (inv_node _ _ HI); [exact H4|set_solver]|].
  apply mget_lookup. by eapply (inv_next _ _ HI).
Qed.

(** A load while the lock is held. *)
Lemma k_load {A} l (k : Z -> prog A) (Q : A -> kcfg -> Prop) pre suf s : walking pre suf s ->
  (forall s1, walking pre suf s1 -> (forall x, x ∈ pre ++ suf -> nkey (cm s1) x = nkey (cm s) x) -> exists v, mget (cm s1) l = Some v /\
     forall s2, walking pre suf s2 -> cm s2 = cm s1 -> rwp (k v) Q s2) ->
  rwp (load l ≫= k) Q s.
Proof.
  intros Hs Hk s1 R. destruct (walking_stable _ _ _ _ R Hs) as [H1 Hkey]. destruct (Hk s1 H1 Hkey) as (v & Hv & Hw).
  cbn. split; [by intros []|]. intros _. rewrite Hv. cbn. exists (cg s1).
  destruct (lock_step_keeps cap j s1 (Load l) (kl (cg s1)) eq_refl) as (Hi & Hg & _).
  assert (Hcg : Kst (kl (cg s1)) (kbk (cg s1)) (kpend (cg s1)) = cg s1) by (by destruct (cg s1)). rewrite Hcg in *.
  split; [done|]. split; [by apply Hg|]. apply Hw; [|done]. destruct H1 as [H1 H2 H3 H4 H5]. split; [by apply Hi|by apply suffix_cons_r|done..].
Qed.

(** The answer, and the end of the search. *)
Definition searched (b : Z) (s : kcfg) : Prop :=
  kinv s /\ free_hands j (kl (cg s)) /\ lin (kview s0) (kview s) i key b.

Lemma k_release b pre suf s (again : prog Z) : walking pre suf s -> b = spec_search key (kset (cm s) (pre ++ suf)) ->
  rwp (ok ← (lib_call (LockRelease (LLock i));; Ret true); if (ok : bool) then Ret b else again) searched s.
Proof.
  intros Hs Hb s1 R. destruct (walking_stable _ _ _ _ R Hs) as [[V1 V2 V3 V4 V5] _]. cbn. split; [by intros []|]. intros _.
  destruct (released j (LLock i) (kl (cg s1)) (ki_excl _ _ V1) V3) as (L' & Hl & Hf).
  destruct (lock_step_keeps cap j s1 _ L' Hl) as (Hi & Hg & _). exists (Kst L' (kbk (cg s1)) (kpend (cg s1))).
  split; [exact Hl|]. split; [by apply Hg|]. intros s2 R2. destruct (R2 (Hi V1)) as [Hi2 [T1 T2 T3 T4]].
  split; [done|]. split; [intros l Hh; apply (Hf l); by apply (same_holds_iff _ _ _ _ T3)|].
  destruct Hs as [U1 U2 U3 U4 U5]. exists (cm s), (pre ++ suf). split; [|split; [by apply (inv_path _ _ (ki_table _ _ U1))|done]].
  apply (since_mono _ (kview s)); [|apply since_now; [exact U2|by apply kview_ok..]].
  cbn [kview ctr]. destruct (R U1) as [_ [Tr _ _ _]]. etrans; [exact Tr|]. etrans; [|exact T1]. by apply suffix_cons_r.
Qed.

Context {b : bool} {L : LockOps} {EL : EventLock b L} (lfuel : nat).

Lemma k_loop suf : forall fuel pre s, (length suf < fuel)%nat -> walking pre suf s ->
  rwp (search_loop false lfuel fuel key (LHead i) (LLock i) (Some (hd0 suf, 0))) searched s.
Proof.
  induction suf as [|c suf IH]; intros [|fuel] pre s Hf Hs; cbn [length] in Hf; try lia; cbn [search_loop hd0].
  - rewrite Z.eqb_refl, el_runlock. apply (k_release _ pre []); [done|]. unfold spec_search. rewrite decide_False; [done|].
    eapply (kset_gap _ (ktab s)); [apply Hs|apply Hs|set_solver].
  - destruct (walking_node _ _ _ _ Hs) as [Hn _]. rewrite (proj2 (Z.eqb_neq c NULL)) by (by eapply node_nonnull).
    rewrite el_validate. cbn [mbind prog_bind negb]. apply (k_load _ _ _ pre (c :: suf)); [done|]. intros s1 H1 _.
    exists (nkey (cm s1) c). split; [apply mget_lookup, node_key, (walking_node _ _ _ _ H1)|]. intros s2 H2 Hc2.
    rewrite <- Hc2. destruct (Z.leb_spec key (nkey (cm s2) c)) as [Hle|Hlt].
    + rewrite el_runlock. apply (k_release _ pre (c :: suf)); [done|].
      pose proof (kset_first _ _ (ki_table _ _ (wk_inv _ _ _ H2)) i pre c suf key (wk_list _ _ _ H2) (wk_before _ _ _ H2) Hle) as Hk.
      unfold found, spec_search. destruct (Z.eqb_spec (nkey (cm s2) c) key); case_decide; tauto.
    + apply (k_load _ _ _ pre (c :: suf)); [done|]. intros s3 H3 Hk3. exists (hd0 suf). split; [by eapply walking_node|].
      intros s4 H4 Hc4. cbn [validate_cur mbind prog_bind]. rewrite <- Hk3, <- Hc4 in Hlt by set_solver.
      apply (IH fuel (pre ++ [c])); [lia|by apply walking_next].
Qed.

End search.

(** [search]: it ends, without an error, and its answer was right. *)
Lemma pthread_search_ok {b : bool} {L : LockOps} {EL : EventLock b L} lfuel fuel self key i s :
  kinv s -> free_hands j (kl (cg s)) -> is_Some (kbk (cg s) !! i) -> (cap + 1 < fuel)%nat ->
  rwp (ListLock.search false lfuel fuel self key (LHead i) (LLock i)) (searched key i s) s.
Proof.
  intros Hi Hf Hd Hcap. destruct fuel as [|fuel]; [lia|]. unfold search. cbn [search_loop]. rewrite el_rlock.
  intros s1 R1. destruct (R1 Hi) as [Hi1 [T1 T2 T3 T4]].
  assert (Hf1 : free_hands j (kl (cg s1))) by (intros l Hl; apply (Hf l); by apply (same_holds_iff _ _ _ _ T3)).
  cbn. split; [by intros _|]. intros [L' Hl]; [done|]. destruct (lock_step_keeps cap j s1 _ L' Hl) as (Hi2 & Hg & _).
  exists (Kst L' (kbk (cg s1)) (kpend (cg s1))). split; [exact Hl|]. split; [by apply Hg|].
  set (s2 := next_cfg s1 (cm s1) (Kst L' (kbk (cg s1)) (kpend (cg s1)))). destruct (T2 i Hd) as [xs Hxs].
  assert (H2 : walking key i s [] xs s2).
  { split; [by apply Hi2|by apply suffix_cons_r|by eapply acquired|done|by intros ? ?%elem_of_nil]. }
  change (rwp (cur ← load (LHead i); search_loop false lfuel fuel key (LHead i) (LLock i) (Some (cur, 0))) (searched key i s) s2).
  eapply (k_load key i s Hi); [exact H2|]. intros s3 H3 _. exists (hd0 xs).
  pose proof (ki_table _ _ (wk_inv _ _ _ _ _ _ H3)) as HI. split; [by eapply path_hd, (inv_path _ _ HI), H3|]. intros s4 H4 _.
  apply (k_loop key i s Hi lfuel xs fuel [] s4); [|exact H4].
  pose proof (ki_len _ _ (wk_inv _ _ _ _ _ _ H4) i xs (wk_list _ _ _ _ _ _ H4)). lia.
Qed.

End reader.
