(* ===== verification/PthreadPool.v ===== *)
(** * Updater and readers under the locks of pthread

    The invariant of the machine whose thread 0 updates and whose other threads
    read, that each of its steps keeps it, and that the machine never gets
    stuck: who waits waits for a thread that can go on. *)
From S2P Require Import Prelude Mem RG Events Locking SWP Table TableFacts Allocator Frozen ListOps Stamp PthreadLogic.

Section pool.
Context `{HC : Calloc} (cap : nat).
Abbreviation kinv := (kinv cap).

(** ** The threads *)

Definition trely (j : nat) : kcfg -> kcfg -> Prop :=
  match j with O => preserves kinv kstable_w | S _ => preserves kinv (kstable_r j) end.
Definition tguar (j : nat) : kcfg -> kcfg -> Prop :=
  match j with O => kguar_w cap | S _ => kguar_r cap j end.
Abbreviation twp j := (ewp (goes_on j) (lock_moves j) (one_lock j) (fun _ => False) (trely j) (tguar j)).

#[export] Instance trely_preorder j : PreOrder (trely j).
Proof. destruct j; apply _. Qed.

Lemma tguar_trely i j s s' : i <> j -> tguar i s s' -> trely j s s'.
Proof. destruct i as [|i], j as [|j]; intros Hne HG; try done; [by apply HG|apply HG|by apply HG]. Qed.

(** Time passes. *)
Record kpasses (s s' : kcfg) : Prop := {
  kp_trace : suffix (ctr s) (ctr s');
  kp_dom i : is_Some (kbk (cg s) !! i) -> is_Some (kbk (cg s') !! i) }.

#[export] Instance kpasses_preorder : PreOrder kpasses.
Proof. split; [by split|]. intros s1 s2 s3 [A1 A2] [B1 B2]. split; [by etrans|auto]. Qed.

Lemma trely_passes j s s' : trely (S j) s s' -> preserves kinv kpasses s s'.
Proof. intros R Hi. by destruct (R Hi) as [Hi' [H1 H2 _ _]]. Qed.

Lemma tguar_passes i s s' : tguar i s s' -> preserves kinv kpasses s s'.
Proof. intros HG. apply (trely_passes i), (tguar_trely i); [lia|done]. Qed.

Section inv.
Context {A : Type} (Q : nat -> A -> kcfg -> Prop).

(** Who returns holds no lock. *)
Definition ends (j : nat) (a : A) (s : kcfg) : Prop := free_hands j (kl (cg s)) /\ Q j a s.

Record lmach_inv (c : lmachine A) (s : kcfg) : Prop := {
  li_mem : cm s = lmemory c;
  li_locks : kl (cg s) = llocks c;
  li_inv : kinv s;
  li_thread j p : lthreads c !! j = Some p -> twp j p (ends j) s;
  li_holder j l : holds j l (llocks c) -> (j < length (lthreads c))%nat }.

Lemma lmach_op ps L m i o k r m' L' s : lmach_inv (LMachine ps L m) s -> ps !! i = Some (Vis o k) ->
  op_exec o m = Some (r, m') -> lock_step i o L = Some L' ->
  exists s', ctr s' = m' :: ctr s /\ kpasses s s' /\ lmach_inv (LMachine (<[i := k r]> ps) L' m') s'.
Proof.
  intros [Hm HL Hi Ht Hh] Hp Ho Hl. cbn in *. subst m L.
  destruct (ewp_step _ _ _ _ _ _ _ _ _ _ (Ht _ _ Hp)) as (r0 & m0 & g' & Ho' & Hl' & _ & HG & Hw); [by eexists|by intros []|].
  rewrite Ho in Ho'. injection Ho' as <- <-. unfold lock_moves in Hl'. rewrite Hl in Hl'. injection Hl' as ->.
  destruct (tguar_passes _ _ _ HG Hi) as [Hi' Hpa]. exists (next_cfg s m' g'). split; [done|]. split; [done|].
  split; cbn [cm cg next_cfg lmemory llocks lthreads]; [done..| |].
  - intros j p. destruct (decide (i = j)) as [<-|Hne].
    + rewrite list_lookup_insert_eq by (by eapply lookup_lt_Some). by intros [= <-].
    + rewrite list_lookup_insert_ne by done. intros Hpj. eapply ewp_rely; [apply _|by apply Ht|by apply (tguar_trely i)].
  - intros j l Hj. rewrite length_insert. destruct (lock_step_owner _ _ _ _ _ _ Hl Hj) as [->|?]; [by eapply lookup_lt_Some|by eapply Hh].
Qed.

(** What does not ask for a lock goes on. *)
Lemma not_acquiring i o g : ~ acquires o -> goes_on i o g.
Proof. by intros ? ?. Qed.

Lemma lmach_step c new c' s : lmach_inv c s -> lstep c new c' ->
  exists s', ctr s' = new ++ ctr s /\ kpasses s s' /\ lmach_inv c' s'.
Proof.
  intros Hc Hs. destruct Hs as [ps L m i o k r m' L' Hp Ho Hl|ps L m i o k Hp Ho|ps L m i o k Hp Hl Ha]; [by eapply lmach_op| |].
  - exfalso. destruct Hc as [Hm HL Hi Ht Hh]. cbn in *. subst m.
    eapply (ewp_no_fault _ _ _ _ _ _ _ _ _ _ (Ht _ _ Hp)); [|by intros []|exact Ho]. apply not_acquiring. destruct o; by try intros [].
  - exfalso. destruct Hc as [Hm HL Hi Ht Hh]. cbn in *. subst m L.
    destruct (ewp_step _ _ _ _ _ _ _ _ _ _ (Ht _ _ Hp)) as (r0 & m0 & g' & Ho' & Hl' & _); [by apply not_acquiring|by intros []|].
    unfold lock_moves in Hl'. by rewrite Hl in Hl'.
Qed.

Lemma lmach_steps c tr c' s : lmach_inv c s -> lruns c tr c' ->
  exists s', ctr s' = tr ++ ctr s /\ kpasses s s' /\ lmach_inv c' s'.
Proof.
  intros Hc Hs. induction Hs as [c|c tr c1 new c2 _ IH Hs]; [by exists s; split; [|split]|].
  destruct (IH Hc) as (s1 & Ht & P1 & H1). destruct (lmach_step _ _ _ _ H1 Hs) as (s2 & Ht2 & P2 & H2).
  exists s2. split; [by rewrite Ht2, Ht, app_assoc|]. split; [by etrans|done].
Qed.

(** ** What the invariant says of a state *)

Lemma lmach_no_crash c s j e : lmach_inv c s -> lthreads c !! j <> Some (Crash e).
Proof. intros Hc Hp. exact (li_thread _ _ Hc _ _ Hp). Qed.

Definition returned_all (c : lmachine A) : Prop := forall j p, lthreads c !! j = Some p -> exists a, p = Ret a.

(** A thread that holds a lock can go on. *)
Lemma lmach_holder c s u l : lmach_inv c s -> holds u l (llocks c) -> is_Some (lmach_do u c).
Proof.
  intros Hc Hu. pose proof Hc as [Hm HL Hi Ht Hh]. rewrite <- HL in *.
  destruct (lookup_lt_is_Some_2 (lthreads c) u ltac:(by eapply Hh)) as [p Hp]. specialize (Ht u p Hp).
  destruct (lmach_do u c) as [x|] eqn:Hd; [done|]. exfalso. destruct p as [a|e|o k]; [|exact Ht|].
  - destruct (Ht s ltac:(done)) as [Hf _]. by apply (Hf l).
  - destruct (stuck_waits _ _ _ _ Hp Hd) as [Ha _]. destruct (Ht s ltac:(done)) as [Hone _]. by apply (Hone Ha l).
Qed.

(** The machine does not get stuck. *)
Lemma lmach_progress c s : lmach_inv c s -> returned_all c \/ exists i new c', lmach_do i c = Some (new, c').
Proof.
  intros Hc. destruct (decide (Exists (fun i => is_Some (lmach_do i c)) (seq 0 (length (lthreads c))))) as [He|Hn].
  { right. apply Exists_exists in He as (i & _ & [[new c'] Hd]). eauto. }
  left. intros j p Hp. assert (Hno : forall i, (i < length (lthreads c))%nat -> lmach_do i c = None).
  { intros i Hlt. apply eq_None_not_Some. intros Hd. apply Hn, Exists_exists. exists i. split; [|done]. apply elem_of_seq. lia. }
  destruct p as [a|e|o k]; [by exists a|by destruct (lmach_no_crash _ _ _ _ Hc Hp)|]. exfalso.
  destruct (stuck_waits _ _ _ _ Hp (Hno j ltac:(by eapply lookup_lt_Some))) as [Ha Hl].
  destruct (blocked_holder _ _ _ Ha Hl) as (u & l & Hu). pose proof (li_holder _ _ Hc _ _ Hu) as Hlt.
  destruct (lmach_holder _ _ _ _ Hc Hu) as [x Hx]. by rewrite (Hno u Hlt) in Hx.
Qed.

(** It can always be run to the end. *)
Lemma lmach_completes c : forall s, lmach_inv c s -> exists tr c', lruns c tr c' /\ returned_all c'.
Proof.
  induction (lstep_wf c) as [c _ IH]. intros s Hc.
  destruct (lmach_progress c s Hc) as [Hr|(i & new & c1 & Hd)]; [exists [], c; by split; [apply runs_refl|]|].
  apply lmach_do_step in Hd. destruct (lmach_step _ _ _ _ Hc Hd) as (s1 & _ & _ & H1).
  destruct (IH c1 ltac:(by eexists) s1 H1) as (tr & c' & Hr & Hall).
  exists (tr ++ new), c'. split; [|done]. by eapply runs_trans; [apply runs_step|].
Qed.

End inv.
End pool.
