(* ===== verification/PthreadMain.v ===== *)
(** * The locks of pthread at work

    The builds of list_lock.c with [LSPIN] and [RWLOCK], from the creation of the
    table on: one updater and any number of readers, all of which take the
    buckets' locks, in any order that the locks allow. *)
From S2P Require Import Prelude Mem Concrete RG Events Locking SWP Table TableFacts Allocator Erase Frozen ListOps Stamp ListWriter AllocState Lock ListLock LockWriter PthreadLogic PthreadWriter PthreadReader PthreadPool Util Mrow Hashtable Driver Pool Builds GecosSeq TableMain.

(** ** The builds *)

(** [RWLOCK], or [LSPIN]; [init] is the library's [pthread_rwlock_init] or
    [pthread_spin_init]. *)
Definition pthread_locks (rw : bool) (init : loc -> prog unit) : LockOps :=
  if rw then @rw_lock (event_locks init) else @spin_lock (event_locks init).

#[export] Instance pthread_event rw init : EventLock (negb rw) (pthread_locks rw init).
Proof. destruct rw; apply _. Qed.

Definition pthread_build (rw : bool) (init : loc -> prog unit) (fuel : nat) : Build := {|
  build_ops := @writer_ops (lock_scheme (pthread_locks rw init) false fuel);
  Mrow.lock_init := @Lock.lock_init (pthread_locks rw init);
  thread_register := Ret tt;
  thread_unregister := Ret tt;
  Mrow.search := @ListLock.search (pthread_locks rw init) false fuel fuel |}.

(** ** The table at the start

    The main thread takes locks that nobody else wants; no counter guards a
    node. *)
Definition free_stamp : Stamp := lock_stamp (fun v => v) (fun _ => False).

Section alone.
Context {b : bool} {L : LockOps} {EL : EventLock b L} (fuel : nat) (self : Z) (d : tlsvar -> Z).
#[local] Instance alone_stamp : Stamp := free_stamp.
#[local] Instance alone_inserter : Inserter := lock_inserter L (S fuel).

Lemma event_inserter_spec : InserterSpec self stamp_guar (alloc_state any_lock self d).
Proof.
  apply alloc_state_inserter with (fuel := fuel); [| |done]; intros E U m g i xs HI (Ho & Hd & _) Hi;
    cbn [ListWriter.lock_wlock ListWriter.lock_wunlock alone_inserter lock_inserter]; rewrite ?el_wlock, ?el_wunlock;
    (apply (swp_bind_ret), swp_quiet; [done|apply (ag_silent (self:=self))|]); by intros [].
Qed.

Lemma event_scheme_spec : @SchemeSpec (lock_scheme L false (S fuel)) self stamp_guar (alloc_state any_lock self d).
Proof.
  pose proof event_inserter_spec as IS. split; [exact IS|]. intros E U m g n i xs HI Ho HU Hp Hi. unfold delete_end.
  destruct (inv_head _ _ HI i xs Hi) as [_ [v Hv]]. destruct (mget_static m (LTls self Vthread) eq_refl) as [tv Htv].
  apply swp_bind, swp_ret. set (g1 := Gst (bk g) None (old g)).
  eapply (swp_load_gh _ _ _ _ _ _ _ _ _ g1); [done|apply foreign_self| |].
  { apply stamp_guar_step; [done|]. intros _. apply (untrusted_retire_step (fun v => v) _ m g i v n HI Hv Hp). intros []. }
  apply swp_bind. eapply swp_mono.
  { apply (alloc_state_free any_lock self E fuel d (Some i) U); [done|]. apply HU. exists i. by right. }
  cbn beta. intros _ m1 g' (-> & Hg1 & Ho1). apply swp_bind. eapply swp_mono.
  { eapply (ss_wunlock (InserterSpec := IS) _ _ m1 g1 i xs); [|exact Ho1|done].
    eapply (Inv_grows _ _ _ Hg1), Inv_retire; [done|done|set_solver]. }
  cbn beta. intros _ m2 g2 (-> & Hg2 & Ho2). apply swp_ret. split_and!; [done|by etrans|by eapply retired_free].
Qed.

End alone.

Section start.
Context (rw : bool) (init : loc -> prog unit) (Hinit : spin_init_ok init) (fuel : nat).
#[local] Instance start_stamp : Stamp := free_stamp.
#[local] Instance start_build : Build := pthread_build rw init (S fuel).

#[export] Instance pthread_driver self : DriverSpec self stamp_guar (alloc_state any_lock self).
Proof.
  apply alloc_state_driver. intros d. apply (@writer_ops_spec (lock_scheme (pthread_locks rw init) false (S fuel))).
  apply event_scheme_spec.
Qed.

#[export] Instance pthread_own : OwnSpec (alloc_state any_lock).
Proof.
  split.
  - intros self. apply pthread_driver.
  - intros self d h U m m'. apply alloc_state_ext.
  - intros self d Hd. split; [done|]. by apply alloc_state_empty.
  - intros main self d d' U m m'. apply alloc_state_switch.
Qed.

#[export] Instance pthread_init self : InitSpec (alloc_state any_lock self).
Proof.
  refine (@Build_InitSpec (pthread_build rw init (S fuel)) _ (fun _ => True) _ _).
  - intros HC i m Hl. destruct (Hinit HC (LLock i) m Hl) as [w Hw]. exists w. split; [done|]. by destruct rw.
  - intros d U m m' Ho Hm Hl. eapply alloc_state_arrays; [auto| |exact Ho]. intros i w _. by right.
Defined.

End start.

Section begin.
Context (nb : Z) (d : tlsvar -> Z) (m0 : mem) (g0 : gst) (S : gset Z) (cap : nat).
Context (Hok : hash_ok (alloc_state any_lock 0 d) nb m0 g0 S) (Hcap : (size S <= cap)%nat).

Definition no_locks : locks := Locks ∅ ∅.

(** Nobody holds a lock. *)
Definition kbegin : kcfg := Cfg m0 [m0] (Kst no_locks (bk g0) None).

Lemma kbegin_ok : ksees cap kbegin (lockview no_locks m0) g0 /\
  hash_ok (alloc_state classic_lock 0 d) nb (lockview no_locks m0) g0 S.
Proof.
  destruct Hok as [(HI & Hp & U & (Ho & Hd & _) & HU) Ha]. split.
  - split; cbn [cg kl kbk kpend kbegin cm]; [|done|done|done|set_solver|by intros l Hl].
    split; cbn [cg kl kbk kpend kbegin cm ctr]; [done| |by intros l t u Hl|].
    + pose proof (Inv_shrink m0 g0 ∅ HI ltac:(set_solver)) as H. by rewrite Hp in H.
    + intros i xs Hxs. assert (Hr : 0 <= i < nb).
      { pose proof (abs_lookup m0 g0 i xs Hxs) as Hs. rewrite Ha in Hs. by apply shards_lookup in Hs as [? _]. }
      etrans; [|exact Hcap]. by eapply hash_ok_length.
  - pose proof (grows_lockview no_locks m0) as Hg. split; [|by rewrite (abs_table_grows m0)].
    split; [by eapply Inv_grows|]. split; [done|]. exists U. split; [|done]. split; [by apply alloc_own_lockview|]. split.
    + intros x Hx. rewrite lockview_mget by done. by apply Hd.
    + intros i v Hv. rewrite lockview_lookup in Hv. by apply fmap_Some in Hv as (w & _ & ->).
Qed.

End begin.

(** ** The threads *)

Section threads.
Context `{HC : Calloc} {HT : CallocTotal} (rw : bool) (init : loc -> prog unit) (cap fuel : nat) (nb : Z) (Hnb : nb_ok nb).
#[local] Instance threads_build : Build := pthread_build rw init (S fuel).
Context (Hcap : (cap + 1 < S fuel)%nat).
Abbreviation kinv := (kinv cap).
Abbreviation twp j := (ewp (goes_on j) (lock_moves j) (one_lock j) (fun _ => False) (trely cap j) (tguar cap j)).

(** What the updater leaves. *)
Definition updated (ops : list (uop * Z)) (S : gset Z) (rs : list Z) (s : kcfg) : Prop :=
  rs = (spec_uops ops S).1 /\ stores nb (cm s) (spec_uops ops S).2.

Lemma k_uops d ops s m g S : ksees cap s m g -> hash_ok (alloc_state classic_lock 0 d) nb m g S ->
  (size S + length ops <= cap)%nat ->
  twp 0%nat (do_uops (Datatypes.S fuel) nb 0 ops) (fun rs s' => free_hands 0 (kl (cg s')) /\ updated ops S rs s') s.
Proof.
  intros Hs Hok Hops. eapply ewp_post.
  - apply (uops_spec (HS := lock_scheme (pthread_locks rw init) false (Datatypes.S fuel)) (kj cap) (kpermit cap) cap 0
      (alloc_state classic_lock 0 d) (SS := kj_scheme cap d fuel) nb Hnb (Datatypes.S fuel) ops m g S); [done|lia|done|exact Hs].
  - cbn beta. intros rs s' (m' & g' & Hs' & -> & Hok'). pose proof (hash_ok_stores _ _ _ _ _ Hok') as Hst.
    destruct Hok' as [(_ & _ & U & Ho & _) _]. split; [by eapply ksees_free|]. split; [done|].
    rewrite (ks_mem _ _ _ _ Hs') in Hst. revert Hst. apply stores_agree. intros l Hl. symmetry. apply lockview_other. by destruct l.
Qed.

Definition has_buckets (s : kcfg) : Prop := forall i, 0 <= i < nb -> is_Some (kbk (cg s) !! i).

Lemma kview_wf s : kinv s -> gwf (kview s).
Proof. intros Hi. split; apply Hi. Qed.

(** The answers [rs] to the searches of [ks] are explained by the stores since [s0]. *)
Definition answered (s0 : kcfg) (ks rs : list Z) (s : kcfg) : Prop :=
  answers nb (kview s0) ks rs (kview s).

Lemma k_searches j self ks : forall s, kinv s -> free_hands (S j) (kl (cg s)) -> has_buckets s ->
  twp (S j) (do_searches nb self ks) (fun rs s' => free_hands (S j) (kl (cg s')) /\ kinv s' /\ answered s ks rs s') s.
Proof.
  assert (Hst : forall s s', trely cap (S j) s s' -> kinv s -> free_hands (S j) (kl (cg s)) ->
    kinv s' /\ kpasses s s' /\ free_hands (S j) (kl (cg s'))).
  { intros s s' R Hi Hf. destruct (R Hi) as [Hi' [T1 T2 T3 T4]]. split; [done|]. split; [done|].
    intros l Hl. apply (Hf l). by apply (same_holds_iff _ _ _ _ T3). }
  induction ks as [|k ks IH]; intros s Hi Hf Hd; cbn [do_searches].
  { intros s' R. destruct (Hst _ _ R Hi Hf) as (Hi' & [Ht _] & Hf'). split; [done|]. split; [done|]. by apply answers_nil. }
  rewrite get_buckets_eq by done. cbn [mbind prog_bind fst snd].
  pose proof (pthread_search_ok cap (S j) ltac:(done) (L := pthread_locks rw init) (S fuel) (S fuel) self k (bucket_of nb k) s Hi Hf
    (Hd _ (bucket_of_range nb k Hnb)) Hcap) as Hs.
  apply (ewp_track _ _ _ _ _ _ _ _ _ (preserves kinv kpasses) (trely_passes cap j) (tguar_passes cap (S j))) in Hs.
  apply ewp_bind; [apply _|]. eapply ewp_post; [exact Hs|].
  cbn beta. intros r s1 (R1 & Hi1 & Hf1 & Hl). destruct (R1 Hi) as [_ [Ht1 Hd1]].
  apply ewp_bind; [apply _|]. eapply ewp_post; [apply IH; [done|done|intros i Hr; by apply Hd1, Hd]|].
  cbn beta. intros rs s2 (Hf2 & Hi2 & Ha) s3 R3. destruct (Hst _ _ R3 Hi2 Hf2) as (Hi3 & [Ht3 _] & Hf3). split; [done|]. split; [done|].
  apply (answers_cons nb (kview s) (kview s1) (kview s2)); [by apply kview_wf|by apply kview_wf|exact Ht1|exact Ht3|exact Hl|exact Ha].
Qed.

End threads.

(** ** The machine from the start *)

Section main.
Context `{HC : Calloc} {HT : CallocTotal} (rw : bool) (init : loc -> prog unit) (Hinit : spin_init_ok init).
Context (nb nbkeys main : Z) (fuel : nat) (Hso : sizes_ok nb nbkeys (S fuel)) (Hmain : main < 0).
#[local] Instance main_build : Build := pthread_build rw init (S fuel).

(** Thread 0 updates, the others search; nobody holds a lock. *)
Definition pthread_machine (ops : list (uop * Z)) (kss : list (list Z)) (m0 : mem) : lmachine (list Z) :=
  LMachine (do_uops (S fuel) nb 0 ops :: imap (fun j ks => do_searches nb (Z.of_nat (S j)) ks) kss) no_locks m0.

Context (ops : list (uop * Z)) (kss : list (list Z)) (m0 : mem).
Context (Hst : started main nb nbkeys (S fuel) m0).
Let cap := (Z.to_nat nbkeys + length ops)%nat.
Context (Hcap : (cap + 1 < S fuel)%nat).

Lemma pthread_nb : nb_ok nb.
Proof. destruct Hso. unfold nb_ok. lia. Qed.

(** The updater's results, and anything of the readers'. *)
Definition mains (Qr : nat -> list Z -> kcfg -> Prop) (j : nat) : list Z -> kcfg -> Prop :=
  match j with O => updated nb ops (key_range nbkeys) | S j => Qr j end.

Lemma pthread_started : exists s0, ctr s0 = [m0] /\ has_buckets nb s0 /\
  lmach_inv cap (mains (fun _ _ _ => True)) (pthread_machine ops kss m0) s0.
Proof.
  destruct (started_ok (HS := free_stamp) (alloc_state any_lock) main nb nbkeys (S fuel) Hso Hmain 0 ltac:(lia)
    (OS := pthread_own rw init fuel) (IS := fun self => pthread_init rw init Hinit fuel self)) as (m & g0 & Hst' & Hok & _).
  pose proof (eq_trans (eq_sym Hst) Hst') as Hm0. injection Hm0 as <-. clear Hst'.
  destruct (kbegin_ok nb _ m0 g0 _ cap Hok) as [Hs Hok1]; [rewrite size_key_range; lia|].
  pose proof (ks_inv _ _ _ _ Hs) as Hi. set (s0 := kbegin m0 g0) in *.
  assert (Hd : has_buckets nb s0).
  { intros i Hr. destruct (hash_ok_bucket _ _ _ _ _ _ Hok Hr) as (xs & Hxs & _). by exists xs. }
  assert (Hf : forall j, free_hands j (kl (cg s0))) by (intros j l [Hx|Hx]; set_solver).
  exists s0. split; [done|]. split; [done|]. split; cbn [lmemory llocks lthreads pthread_machine]; [done|done|done| |by intros j l Hh%(Hf j)].
  intros [|j] p Hp.
  - injection Hp as <-. eapply ewp_post.
    + apply (k_uops rw init cap fuel nb pthread_nb Hcap (fun _ => 0) ops s0 _ g0 (key_range nbkeys) Hs Hok1).
      rewrite size_key_range. unfold cap. lia.
    + by intros rs s.
  - rewrite lookup_cons_ne_0, list_lookup_imap in Hp by done. cbn [pred] in Hp. destruct (kss !! j) as [ks|]; [|done]. injection Hp as <-.
    eapply ewp_post; [by apply (k_searches rw init cap fuel nb pthread_nb Hcap j)|]. by intros rs s (? & _).
Qed.

Lemma pthread_run tr c : lruns (pthread_machine ops kss m0) tr c ->
  exists s, ctr s = tr ++ [m0] /\ has_buckets nb s /\ lmach_inv cap (mains (fun _ _ _ => True)) c s.
Proof.
  intros Hc. destruct pthread_started as (s0 & Ht & Hd & H0). destruct (lmach_steps _ _ _ _ _ _ H0 Hc) as (s & Hts & [_ Hds] & Hs).
  exists s. split; [by rewrite Hts, Ht|]. split; [|done]. intros i Hr. by apply Hds, Hd.
Qed.

(** C6: with the locks of pthread nothing goes wrong, in any order of
    the steps that the locks allow: no thread reads or writes what is not
    allocated or releases a lock that it does not hold, no loop runs out of
    its bound, every bucket is a sorted list, and the updater's answers and
    final table are those of the set. *)
Theorem pthread_safe tr c : lruns (pthread_machine ops kss m0) tr c ->
  (forall j e, lthreads c !! j <> Some (Crash e)) /\
  (forall i, 0 <= i < nb -> exists xs, path LNext (lmemory c) (LHead i) xs /\ incr (keys (lmemory c) xs)) /\
  (forall rs, lthreads c !! 0%nat = Some (Ret rs) ->
     rs = (spec_uops ops (key_range nbkeys)).1 /\ stores nb (lmemory c) (spec_uops ops (key_range nbkeys)).2).
Proof.
  intros Hc. destruct (pthread_run _ _ Hc) as (s & _ & Hd & Hs). pose proof (li_mem _ _ _ _ Hs) as Hm.
  split; [intros j e; by eapply lmach_no_crash|]. split.
  - intros i Hr. destruct (Hd i Hr) as [xs Hxs]. exists xs. rewrite <- Hm. pose proof (ki_table _ _ (li_inv _ _ _ _ Hs)) as HI.
    split; [by eapply (inv_path _ _ HI)|by eapply (inv_incr _ _ HI)].
  - intros rs Hp. rewrite <- Hm. exact (proj2 (li_thread _ _ _ _ Hs 0%nat _ Hp s ltac:(done))).
Qed.

(** Before its searches a reader holds no lock. *)
Lemma searches_hands j self ks (Q : list Z -> kcfg -> Prop) s :
  ewp (goes_on (S j)) (lock_moves (S j)) (one_lock (S j)) (fun _ => False) (trely cap (S j)) (tguar cap (S j))
    (do_searches nb self ks) (fun rs s' => free_hands (S j) (kl (cg s')) /\ Q rs s') s ->
  free_hands (S j) (kl (cg s)).
Proof.
  intros Hp. destruct ks as [|k ks]; [by apply (Hp s)|]. cbn [do_searches] in Hp.
  rewrite get_buckets_eq in Hp by apply pthread_nb. cbn [mbind prog_bind fst snd] in Hp.
  change (search self k) with (@ListLock.search (pthread_locks rw init) false (S fuel) (S fuel) self k) in Hp.
  unfold ListLock.search in Hp. cbn [search_loop] in Hp. rewrite el_rlock in Hp. destruct (Hp s ltac:(done)) as [Ho _]. by apply Ho.
Qed.

(** C3: the searches of a reader, from any moment before its first step to any
    moment after its last, took effect one after the other in between. *)
Theorem pthread_linearizable tr c tr' c' j ks rs : lruns (pthread_machine ops kss m0) tr c ->
  lthreads c !! S j = Some (do_searches nb (Z.of_nat (S j)) ks) -> lruns c tr' c' -> lthreads c' !! S j = Some (Ret rs) ->
  explained nb (lmemory c :: reverse tr') ks rs.
Proof.
  intros Hc Hp Hc' Hr. destruct (pthread_run _ _ Hc) as (s & _ & Hd & [Hm HL Hi Ht Hh]).
  assert (Hs : lmach_inv cap (mains (fun i rs s' => i = j -> answered nb s ks rs s')) c s).
  { split; try done. intros [|i] p Hpi; [exact (Ht 0%nat p Hpi)|]. destruct (decide (i = j)) as [->|Hij].
    - rewrite Hp in Hpi. injection Hpi as <-. pose proof (searches_hands _ _ _ _ _ (Ht _ _ Hp)) as Hf.
      eapply ewp_post; [by apply (k_searches rw init cap fuel nb pthread_nb Hcap j)|]. intros rs' s' (Hf' & _ & Ha). split; [exact Hf'|]. intros _. exact Ha.
    - eapply ewp_post; [by apply Ht|]. intros rs' s' [? _]. split; [done|]. by intros ->. }
  destruct (lmach_steps _ _ _ _ _ _ Hs Hc') as (s' & Hts & _ & Hs').
  destruct (li_thread _ _ _ _ Hs' (S j) _ Hr s' ltac:(done)) as [_ Ha]. destruct (Ha eq_refl) as (h & (new & Hn & ->) & He).
  cbn [kview ctr cm] in *. rewrite Hts in Hn. apply app_inv_tail in Hn as <-. by rewrite Hm in He.
Qed.

(** C11: nobody waits for ever.  Every execution ends, and none gets stuck: at
    any moment the threads can be run until all of them have returned. *)
Theorem pthread_completes tr c : lruns (pthread_machine ops kss m0) tr c ->
  Acc (fun c' c => exists new, lstep c new c') c /\
  exists tr' c', lruns c tr' c' /\ forall j p, lthreads c' !! j = Some p -> exists rs, p = Ret rs.
Proof.
  intros Hc. destruct (pthread_run _ _ Hc) as (s & _ & _ & Hs). split; [apply lstep_wf|]. by eapply lmach_completes.
Qed.

End main.

(** ** Executions

    The keys 0 to 4 in two buckets; the updater deletes 3 and inserts 7, a
    reader searches 3 and 4. *)
Lemma pthread_store_started rw nb nbkeys fuel : sizes_ok nb nbkeys (S fuel) ->
  let b := pthread_build rw spin_init_zero (S fuel) in started (H0 := b) (-1) nb nbkeys (S fuel) (start_store b nb nbkeys (S fuel)).
Proof.
  intros Hso b. destruct (started_ok (HB := b) (HS := free_stamp) (alloc_state any_lock) (-1) nb nbkeys (S fuel) Hso
    ltac:(lia) 0 ltac:(lia) (OS := pthread_own rw spin_init_zero fuel)
    (IS := fun self => pthread_init rw spin_init_zero spin_init_zero_ok fuel self)) as (m0 & g0 & Hst & _).
  assert (Hm : start_store b nb nbkeys (S fuel) = m0); [|by rewrite Hm].
  unfold start_store, started in *. by rewrite Hst.
Qed.

Definition lock_ops_demo : list (uop * Z) := [(Del, 3); (Ins, 7)].
Definition lock_store (rw : bool) : mem := start_store (pthread_build rw spin_init_zero 9) 2 5 9.
Definition lock_demo (rw : bool) (kss : list (list Z)) : lmachine (list Z) :=
  pthread_machine rw spin_init_zero 2 8 lock_ops_demo kss (lock_store rw).

(** The reader has taken the lock of the bucket of 3. *)
Definition reader_first : list nat := [0%nat; 1%nat; 1%nat].
Definition to_the_end : list nat := reader_first ++ concat (repeat [0%nat; 1%nat; 2%nat] 60).

Abbreviation lock_at es rw kss := (lmach_run es (lock_demo rw kss) []).

Lemma lock_steps es rw kss : lruns (lock_demo rw kss) (lock_at es rw kss).2 (lock_at es rw kss).1.
Proof. apply run_events_runs; [apply lmach_do_step|apply runs_refl]. Qed.

(** The updater waits, another reader only if the lock is exclusive. *)
Example updater_waits rw : lmach_do 0 (lock_at reader_first rw [[3; 4]; [3]]).1 = None.
Proof. destruct rw; vm_compute; reflexivity. Qed.

Example readers_share : lmach_do 2 (lock_at reader_first false [[3; 4]; [3]]).1 = None /\
  is_Some (lmach_do 2 (lock_at reader_first true [[3; 4]; [3]]).1).
Proof.
  split; [vm_compute; reflexivity|].
  assert (Hs : bool_decide (is_Some (lmach_do 2 (lock_at reader_first true [[3; 4]; [3]]).1)) = true)
    by (vm_compute; reflexivity).
  by apply bool_decide_eq_true in Hs.
Qed.

Lemma pthread_safe_witness : exists tr c, lruns (lock_demo false [[3; 4]]) tr c /\
  (forall j e, lthreads c !! j <> Some (Crash e)) /\
  lthreads c !! 0%nat = Some (Ret [1; 1]) /\ stores 2 (lmemory c) (spec_uops lock_ops_demo (key_range 5)).2.
Proof.
  pose proof (lock_steps to_the_end false [[3; 4]]) as Hc.
  assert (Hr : lthreads (lock_at to_the_end false [[3; 4]]).1 !! 0%nat = Some (Ret [1; 1])) by (vm_compute; reflexivity).
  destruct (lock_at to_the_end false [[3; 4]]) as [c tr]. cbn [fst snd] in *. exists tr, c.
  destruct (pthread_safe false spin_init_zero spin_init_zero_ok 2 5 (-1) 8 small_sizes ltac:(lia) lock_ops_demo [[3; 4]]
    (lock_store false) (pthread_store_started false 2 5 8 small_sizes) ltac:(apply Nat.ltb_lt; reflexivity) tr c Hc) as (H1 & _ & H3).
  split; [exact Hc|]. split; [exact H1|]. split; [exact Hr|]. exact (proj2 (H3 _ Hr)).
Defined.

Lemma pthread_linearizable_witness : exists tr c, lruns (lock_demo true [[3; 4]]) tr c /\
  lthreads c !! 1%nat = Some (Ret [1; 1]) /\ explained 2 (lock_store true :: reverse tr) [3; 4] [1; 1].
Proof.
  pose proof (lock_steps to_the_end true [[3; 4]]) as Hc.
  assert (Hr : lthreads (lock_at to_the_end true [[3; 4]]).1 !! 1%nat = Some (Ret [1; 1])) by (vm_compute; reflexivity).
  destruct (lock_at to_the_end true [[3; 4]]) as [c tr]. cbn [fst snd] in *. exists tr, c. split; [exact Hc|]. split; [exact Hr|].
  exact (pthread_linearizable true spin_init_zero spin_init_zero_ok 2 5 (-1) 8 small_sizes ltac:(lia) lock_ops_demo [[3; 4]]
    (lock_store true) (pthread_store_started true 2 5 8 small_sizes) ltac:(apply Nat.ltb_lt; reflexivity) [] (lock_demo true [[3; 4]]) tr c 0
    [3; 4] [1; 1] (runs_refl _ _) eq_refl Hc Hr).
Defined.

(** From the moment when the updater waits for the reader. *)
Lemma pthread_completes_witness : exists tr c tr' c', lruns (lock_demo true [[3; 4]]) tr c /\ lmach_do 0 c = None /\
  lruns c tr' c' /\ forall j p, lthreads c' !! j = Some p -> exists rs, p = Ret rs.
Proof.
  pose proof (lock_steps reader_first true [[3; 4]]) as Hc.
  assert (Hw : lmach_do 0 (lock_at reader_first true [[3; 4]]).1 = None) by (vm_compute; reflexivity).
  destruct (lock_at reader_first true [[3; 4]]) as [c tr]. cbn [fst snd] in *.
  destruct (pthread_completes true spin_init_zero spin_init_zero_ok 2 5 (-1) 8 small_sizes ltac:(lia) lock_ops_demo [[3; 4]]
    (lock_store true) (pthread_store_started true 2 5 8 small_sizes) ltac:(apply Nat.ltb_lt; reflexivity) tr c Hc) as [_ (tr' & c' & H)].
  exists tr, c, tr', c'. split; [exact Hc|]. split; [exact Hw|exact H].
Defined.
