(* ===== verification/TypeMain.v ===== *)
(** * Type safety of the whole program

    The builds of the Makefile, list_lock.c with every lock of lock.h that it
    compiles with, and [OSA_BEST], with up to [MAX_THREAD] threads, any of them
    updaters: from the empty store, through the initialisation of the table and
    every interleaving of the threads, the store stays well typed.  This covers
    hazard pointers and reference counts under concurrency, and updaters that
    race without a lock. *)
From S2P Require Import Prelude Mem Concrete Schedules RG SWP Table TableFacts Types Allocator ListOps Lock ListWriter ListGecos ListSgecos ListLock ListHp ListRc ListRcu Util Mrow Driver Builds Typed RcMain Benchmark GecosFaults HpMain PthreadMain.

(** The builds: those of [Builds] (targets gecos, gecos_relink, gecos_back,
    sigecos and rcu of the Makefile, and list_lock.c with [SEQLOCK] or [GCLOCK]),
    list_gecos.c with [OSA_BEST] and the search of [v] ([Plain], [Relink_R] or
    [Back_B]), the targets spin and rwlock, hp, with or without [DIRECT_SCAN]
    and with the C library's [sort], and rc. *)
Inductive program :=
  | Variant (v : variant)
  | OsaBest (v : variant)
  | PthreadLock (rw : bool)
  | Hazard (direct_scan : bool) (sort : StdSort)
  | Counted.

Definition osa_build (v : variant) (pthread_spin_init : loc -> prog unit) (fuel : nat) : Build := {|
  build_ops := @writer_ops (osa_scheme fuel);
  lock_init := pthread_spin_init;
  thread_register := Ret tt;
  thread_unregister := Ret tt;
  Mrow.search := variant_search v fuel |}.

(** [pthread_init] is [pthread_spin_init], or [pthread_rwlock_init]. *)
Definition program_build (p : program) (nbthreads : Z) (pthread_init : loc -> prog unit) (fuel : nat) : Build :=
  match p with
  | Variant v => variant_build v pthread_init fuel
  | OsaBest v => osa_build v pthread_init fuel
  | PthreadLock rw => pthread_build rw pthread_init fuel
  | Hazard ds sort => hp_build ds nbthreads pthread_init fuel
  | Counted => rc_build pthread_init fuel
  end.

#[export] Instance pthread_locks_typed nb rw init : LockTyped nb (pthread_locks rw init).
Proof. destruct rw; split; intros; repeat (split; [exact I|]; intros); exact I. Qed.

#[export] Instance osa_scheme_typed nb fuel : SchemeTyped nb (osa_scheme fuel).
Proof.
  split; [apply gecos_inserter_typed|]. intros self thread n N Ht Hn.
  change (typed nb any (free_node_later_osa_best fuel self thread n) N). unfold free_node_later_osa_best. ty.
Qed.

Lemma variant_search_typed nb v fuel self key h l N : int_range key -> ptr_loc nb N h -> lock_loc nb l ->
  typed nb any (variant_search v fuel self key h l) N.
Proof.
  intros Hk Hh Hl. destruct v; cbn [variant_search].
  - by apply ty_gecos_loop.
  - by apply ty_relinking_loop.
  - by apply ty_back_loop.
  - by apply ty_sgecos_loop.
  - by apply ty_lock_loop; [apply _|..].
  - by apply ty_lock_loop; [apply _|..].
  - pose proof (rl_ok lib). by apply ty_rcu_search.
Qed.

#[export] Instance variant_typed nb v sp fuel : BuildTyped nb (variant_build v sp fuel).
Proof.
  split; [|intros self key h l N Hk Hh Hl|intros N|intros N];
    cbn [build_ops Mrow.search thread_register thread_unregister variant_build].
  - destruct v; cbn [variant_ops]; try (apply writer_typed, _); [apply sgecos_typed|].
    pose proof (rl_ok lib). by apply writer_typed, rcu_scheme_typed.
  - by apply variant_search_typed.
  - destruct v; try exact I. apply ty_quiet, (register_quiet (RcuLibOk := rl_ok lib)).
  - destruct v; try exact I. apply ty_quiet, (unregister_quiet (RcuLibOk := rl_ok lib)).
Qed.

#[export] Instance program_typed nb p nbthreads sp fuel : BuildTyped nb (program_build p nbthreads sp fuel).
Proof.
  destruct p as [v|v|rw|ds so|]; cbn [program_build]; [apply variant_typed| | | |].
  - split; [apply writer_typed, _| |done|done]. intros self key h l N Hk Hh Hl. by apply variant_search_typed.
  - split; [apply writer_typed, _| |done|done]. intros self key h l N Hk Hh Hl. by apply ty_lock_loop; [apply _|..].
  - split; [apply writer_typed, _| |done|done]. intros self key h l N Hk Hh Hl.
    cbn [Mrow.search hp_build]. unfold ListHp.search. eapply typed_bind; [by apply ty_load|].
    intros N1 t HN Ht. cbv beta in Ht. unfold val_typed, MAX_THREAD in Ht. unfold Param.K.
    rewrite i32_small by lia. apply ty_hp_loop; [lia|unfold MAX_THREAD; lia|by eapply ptr_loc_mono|by left].
  - split; [apply writer_typed, _| |done|done]. intros self key h l N Hk Hh Hl. by apply ty_rc_search.
Qed.

Lemma lock_init_typed nb p nbthreads sp fuel l N :
  (forall l N, lock_loc nb l -> typed nb any (sp l) N) -> lock_loc nb l ->
  typed nb any (Mrow.lock_init (Build := program_build p nbthreads sp fuel) l) N.
Proof.
  intros Hsp Hl. destruct p as [[]| |[]| |];
    cbn [program_build Mrow.lock_init variant_build variant_lock_init osa_build pthread_build pthread_locks hp_build rc_build];
    try (by apply Hsp); unfold ListSgecos.lock_init, Seq.lock_init, Gc.lock_init, memory_barrier; ty.
Qed.

(** ** The initial store *)

Lemma calloc_array_zero f n m : (forall l v, m !! l = Some v -> v = 0) ->
  forall l v, calloc_array f n m !! l = Some v -> v = 0.
Proof.
  intros Hm. unfold calloc_array. induction (seq 0 (Z.to_nat n)) as [|i l0 IH]; intros l v; [apply Hm|]. simpl.
  destruct (decide (f (Z.of_nat i) = l)) as [<-|Hne].
  - rewrite lookup_insert_eq. congruence.
  - rewrite lookup_insert_ne by done. apply IH.
Qed.

Lemma arrays_typed nb : well_typed nb ∅ (calloc_array LLock nb (calloc_array LHead nb ∅)).
Proof.
  split.
  - intros l v Hv. replace v with 0; [apply val_typed_zero|]. unfold mget in Hv.
    destruct (_ !! l) as [w|] eqn:Hw; [|destruct (is_static l); congruence]. injection Hv as <-. symmetry. revert l w Hw.
    apply calloc_array_zero, calloc_array_zero. intros l v. by rewrite lookup_empty.
  - set_solver.
  - intros i Hi. rewrite (calloc_array_eq LLock) by done. rewrite calloc_array_ne by done.
    rewrite calloc_array_eq by done. split; by eexists.
Qed.

Section main.
Context `{HC : Calloc} {HO : CallocOk}.

Lemma typed_run nb {A} (T : gset Z -> A -> Prop) (p : prog A) : forall N m a m', typed nb T p N -> well_typed nb N m ->
  run p m = Ok a m' -> exists N', N ⊆ N' /\ well_typed nb N' m'.
Proof.
  induction p as [a0|e|o k IH]; intros N m a m' Hp Hm Hr; cbn in Hr; [injection Hr as _ <-; by exists N|done|].
  destruct Hp as [Ho Hk]. destruct (op_exec o m) as [[r m1]|] eqn:He; [|done].
  destruct (op_typed_step nb N m o r m1 Hm Ho He) as (N1 & H1 & Hm1 & Hr1).
  destruct (IH r N1 m1 a m' (Hk _ _ H1 Hr1) Hm1 Hr) as (N2 & H2 & Hm2). exists N2. split; [by etrans|done].
Qed.

Context (p : program) (nb nbkeys nbthreads nbupdaters : Z) (sp : loc -> prog unit).
Context (Hnb : 0 < nb < 2 ^ 31) (Hth : 0 <= nbthreads <= MAX_THREAD).
Context (Hsp : forall l N, lock_loc nb l -> typed nb any (sp l) N).

#[local] Instance main_build fuel : Build := program_build p nbthreads sp fuel.

(** [thread i] runs [run], the last one is the main thread. *)
Definition threads (join : Z -> prog unit) (now : Z -> Z) (pre : bool) (loops fuel : nat) : list (prog Z) :=
  ((fun t => run_thread (H := main_build fuel) nb nbkeys nbupdaters (now t) pre loops fuel t) <$> seqZ 0 nbthreads) ++
  [test_rest join nbthreads nbupdaters fuel ;; Ret 0].

Lemma start_typed populates set_tail pre fuel self m : 
  run (test_start (H := main_build fuel) nb nbkeys populates set_tail pre fuel self) ∅ = Ok tt m ->
  exists N, well_typed nb N m.
Proof.
  intros Hr. pose proof (program_typed nb p nbthreads sp fuel) as BT.
  change (run ((lock_init_loop (H := main_build fuel) (Z.to_nat nb) 0;;
     (if populates then populate (H := main_build fuel) nb (Z.to_nat nbkeys) fuel self 0 else Ret tt);;
     (if set_tail then b ← get_buckets nb (if populates then nbkeys else nb);
        _ ← op_insert (ListOps := build_ops (Build := main_build fuel)) fuel self (i32 (nbkeys + 1)) b.1 b.2; Ret tt else Ret tt));;
     init_allocator pre fuel self;; store (LGlob Gdone) 0;; store (LGlob Ggo) 0;; store (LGlob Gready) 0;; memory_barrier)
     (calloc_array LLock nb (calloc_array LHead nb ∅)) = Ok tt m) in Hr.
  eapply (typed_run nb any _ ∅) in Hr as (N & _ & Hm); [by exists N| |apply arrays_typed].
  eapply (typed_bind _ any).
  - eapply (typed_bind _ any); [apply (ty_lock_init_loop nb); [intros; by apply lock_init_typed|lia..]|]. intros N1 _ _ _.
    eapply (typed_bind _ any).
    + destruct populates; [|exact I]. apply (ty_populate nb); [done|]. unfold int_range. lia.
    + intros N2 _ _ _. destruct set_tail; [|exact I]. apply (ty_insert_key nb); [done|apply i32_range].
  - intros N1 _ _ _. pose proof (ty_init_allocator nb pre fuel self). unfold memory_barrier. ty.
Qed.

Lemma threads_typed join now pre loops fuel N : (forall i, quiet (join i)) ->
  Forall (fun q => typed nb any q N) (threads join now pre loops fuel).
Proof.
  intros Hj. pose proof (program_typed nb p nbthreads sp fuel) as BT. apply Forall_app. split.
  - apply Forall_forall. intros q (t & -> & Ht%elem_of_seqZ)%list_elem_of_fmap.
    apply (ty_run_thread (HB := main_build fuel) nb nbkeys Hnb). lia.
  - constructor; [|constructor]. eapply (typed_bind _ any); [by apply ty_test_rest|done].
Qed.


End main.

(** ** An execution *)

#[export] Instance bump_ok : CallocOk.
Proof. intros m. right. apply calloc_total. Qed.

Lemma spin_zero_typed nb l N : lock_loc nb l -> typed nb any (spin_init_zero l) N.
Proof. intros Hl. unfold spin_init_zero. ty. Qed.

(** Hazard pointers with [DIRECT_SCAN], two updaters and a reader, all at
    work. *)
Definition race_program : program := Hazard true insertion_sort.
Definition race_threads : list (prog Z) :=
  threads race_program 2 5 3 2 spin_init_zero join_now (fun t => t) false 3 40.
Definition race_schedule : list nat := concat (repeat [0; 1; 2; 3; 0; 1; 2]%nat 120).

Definition ended {A} (o : outcome A) : bool := match o with Ok _ _ => true | Err _ _ => false end.

