(* ===== verification/Agree.v ===== *)
(** * The builds agree

    One thread creates the table and then inserts, deletes and searches in any
    order: in every build of [settled] the answers and the final set are those
    of one finite set, the reference of [Session].  Hazard pointers and
    [OSA_BEST], whose unlinked nodes stay with the updater, are left out. *)
From S2P Require Import Prelude Mem Concrete RG SWP Table TableFacts Allocator ListOps Stamp ListWriter AllocState Lock ListLock RcWriter Util Mrow Hashtable Driver Pool Builds GecosSeq TableMain Session RcMain PthreadMain TypeMain.

(** ** A thread alone *)

Section solo.
Context `{HB : Build} (self : Z) (SG : mem -> gst -> mem -> gst -> Prop).
Context (own : (tlsvar -> Z) -> option Z -> gset Z -> mem -> Prop) {DS : DriverSpec self SG own} {IS : InitSpec own}.
Context (cap : nat) {SA : SearchAlone (own (fun _ => 0)) cap} (Hempty : heap_ok (own (fun _ => 0)) ∅).
Context `{HC : Calloc} {HT : CallocTotal}.

Lemma solo_run nb nbkeys fuel cs : 1 <= nb < 2 ^ 31 -> 0 <= nbkeys < 2 ^ 31 ->
  (Z.to_nat nbkeys + length cs <= cap)%nat -> (cap < fuel)%nat ->
  exists m0 m', run (hash_init nb nbkeys true false fuel self) ∅ = Ok tt m0 /\
    run (do_session fuel nb self cs) m0 = Ok (spec_session cs (key_range nbkeys)).1 m' /\
    stores nb m' (spec_session cs (key_range nbkeys)).2.
Proof.
  intros Hnb Hk Hc Hf.
  destruct (hash_init_spec self SG own nb nbkeys ltac:(unfold nb_ok; lia) ltac:(lia) Hk fuel (fun _ => 0) ∅
    ltac:(lia) Hempty) as (m0 & g0 & Hr0 & Hok & _).
  destruct (session_run self SG (own (fun _ => 0)) (LS := ds_ops (fun _ => 0)) cap fuel nb cs m0 g0 (key_range nbkeys))
    as (m' & g' & Hr & Hok' & _); [unfold nb_ok; lia|exact Hok|rewrite size_key_range; lia..|].
  exists m0, m'. split; [exact Hr0|]. split; [exact Hr|]. by eapply hash_ok_stores.
Qed.

End solo.

(** The pthread locks let a reader through that is alone. *)
Lemma pthread_passes `{HC : Calloc} rw init lfuel lock m : lock_passes (pthread_locks rw init) lfuel lock m 0.
Proof. by destruct rw. Qed.

#[export] Instance pthread_alone rw init cap w d :
  SearchAlone (HB := pthread_build rw init (S (S (2 * cap)))) (alloc_state any_lock w d) cap.
Proof.
  intros HC self i k m g xs Hok Hxs Hc. destruct (table_ok_rest _ _ _ _ _ Hok Hxs) as [Hp Hr].
  cbn [Mrow.search pthread_build]. apply (lock_search_run self k _ _ _ _ i _ 0); [apply pthread_passes|done|done|lia].
Qed.

(** ** The builds *)

Definition settled (p : program) : bool :=
  match p with Variant _ | PthreadLock _ | Counted => true | OsaBest _ | Hazard _ _ => false end.

(** C17: after the creation of the table from the empty store, every settled
    build answers any session of insertions, deletions and searches as the
    finite set does and ends with its set in the buckets; so any two of them
    answer alike. *)
Theorem builds_agree `{HC : Calloc} {HT : CallocTotal} p sp nbthreads self nb nbkeys cap cs :
  settled p = true -> spin_init_ok sp -> 1 <= nb < 2 ^ 31 -> 0 <= nbkeys < 2 ^ 31 ->
  (Z.to_nat nbkeys + length cs <= cap)%nat ->
  let fuel := S (S (2 * cap)) in
  let b := program_build p nbthreads sp fuel in
  exists m0 m', run (hash_init (H := b) nb nbkeys true false fuel self) ∅ = Ok tt m0 /\
    run (do_session (HB := b) fuel nb self cs) m0 = Ok (spec_session cs (key_range nbkeys)).1 m' /\
    stores nb m' (spec_session cs (key_range nbkeys)).2.
Proof.
  intros Hp Hsp Hnb Hk Hc fuel b. destruct p as [v|v|rw|ds so|]; try done.
  - pose proof (variant_init v sp fuel self Hsp) as IS.
    apply (solo_run (HB := variant_build v sp fuel) self (stamp_guar (H := variant_stamp v)) (variant_state v self)
      (DS := variant_driver v (S (2 * cap)) self) (SA := variant_alone v sp cap self (fun _ => 0)) cap); [|done|done|done|done|unfold fuel; lia].
    exact (os_empty (OwnSpec := variant_own_spec v sp (S (2 * cap))) self (fun _ => 0) ltac:(done)).
  - pose proof (pthread_init rw sp Hsp (S (2 * cap)) self) as IS.
    apply (solo_run (HB := pthread_build rw sp fuel) self (stamp_guar (H := free_stamp)) (alloc_state any_lock self)
      (DS := pthread_driver rw sp (S (2 * cap)) self) (SA := pthread_alone rw sp cap self (fun _ => 0)) cap); [|done|done|done|done|unfold fuel; lia].
    exact (os_empty (OwnSpec := pthread_own rw sp (S (2 * cap))) self (fun _ => 0) ltac:(done)).
  - pose proof (rc_init_spec sp fuel self Hsp) as IS.
    apply (solo_run (HB := rc_build sp fuel) self eager_step (rc_state self) (DS := rc_driver_spec _ _ self)
      (SA := rc_alone sp cap self (fun _ => 0)) cap); [|done|done|done|done|unfold fuel; lia].
    by apply rc_heap_ok.
Qed.

Lemma builds_agree_witness : exists m0 m',
  run (hash_init (H := program_build Counted 3 spin_init_zero 40) 2 5 true false 40 0) ∅ = Ok tt m0 /\
  run (do_session (HB := program_build Counted 3 spin_init_zero 40) 40 2 0 small_session) m0 = Ok [1; 1; 0; 1; 0; 1] m'.
Proof.
  destruct (builds_agree Counted spin_init_zero 3 0 2 5 19 small_session eq_refl spin_init_zero_ok
    ltac:(lia) ltac:(lia) ltac:(apply Nat.leb_le; reflexivity)) as (m0 & m' & H0 & Hr & _).
  exists m0, m'. split; [exact H0|]. exact (eq_trans Hr eq_refl).
Defined.
